(* ===== verification/_CoqProject ===== *)
-Q . S2P
Prelude.v
Machine.v
Common.v
Token.v
Lexemes.v
TokenStream.v
Locations.v
Ast.v
ParseMonad.v
TokenView.v
ExprParser.v
StmtParser.v
Grammar.v
ExprComplete.v
StmtComplete.v
Texts.v
ExprSound.v
StmtSound.v
ParserProps.v
Memory.v
Vm.v
VmProps.v
Value.v
Compiler.v
Types.v
Codegen.v
CodegenRun.v
Exec.v
Pipeline.v
Simulation.v
Programs.v
CompilerFrame.v
CompilerProps.v
Channel.v
Uv.v
Task.v
Loop.v
LoopFacts.v
LoopUv.v
Writes.v
Schedule.v
Server.v
RuntimeProps.v
ServerProps.v
