(* ===== verification/Prelude.v ===== *)
(** * myGo: a verification development

    myGo (src/src) is the front end, a compiler and a byte-code machine of a small
    language, and a demonstration server.  The program [mygo file.mgo] reads a
    source and logs its syntax tree; without an argument it runs an event loop with
    a timer, a TCP server and a TCP client.  The compiler and the byte-code machine
    are driven by the tests; the development composes them the way the tests do.

    source bytes -> lexer -> token stream -> parser -> compiler -> machine
    channel -> event loop -> tasks (run once, timer, TCP server, TCP client)

    ** Files, and what they model

    - Prelude: outcomes of C++ code ([outcome]: a result, undefined behaviour with
      its kind, an abort, or fuel that ran out), their monad, lemmas, tactics.
    - Machine: integers at their width, little-endian bytes, IEEE floats on
      [SpecFloat], decimal and hexadecimal text.
    - Common: src/src/common.h.
    - Token (Module [token]): src/src/token.h, token.cpp; one definition per
      scanner, [FromChars] in the order the code tries them.
    - TokenStream: src/src/token_stream.h, token_stream.cpp; [Peek] with its cache,
      [Next], the guard that restores the state.
    - Ast: src/src/ast.h; the nodes, [Err], [Result], debug output.
    - ParseMonad, ExprParser, StmtParser: src/src/ast.cpp; the macros, then the
      parse functions of expressions and of statements, [Root_parse] and
      [parse_source], which is [Root::parse] on a new stream.
    - Memory, Vm: src/src/vm.h, vm.cpp; the stack as a finite map of bytes (a
      missing byte is 0, as [calloc] leaves it), [step] per instruction, [Run].
    - Value (Module [value]): src/src/value.h, value.cpp.
    - Compiler: src/src/compiler.h, compiler.cpp; [compile] is
      [Compiler::compile] from one state of the compiler to the next.
    - Channel: src/src/channel.h, with the interleavings of its users.
    - Uv: what the program has handed to libuv and not got back: timers, handles,
      write requests.
    - Task, Loop: src/src/loop/task.h, task.cpp, loop.h, loop.cpp; a task is data
      with an address, the loop owns the tasks in its channel, and the callbacks
      of libuv are events that [uv_run] delivers.  A [std::function] is a closure, a
      value of a type [F] with an [operator()] (class [Closures]), so that a callback
      may post any task, one that runs itself again too.  The string that [SendData]
      is given by value lives from the call to the return ([Strings]).
    - Server: src/src/server.h, server.cpp, mygo.cpp; the lambdas of [Run] are the
      constructors of [closure].

    Specifications: Grammar (the tokens a tree is written with, and which trees a
    source can denote), Locations (lines and columns, byte by byte), Exec (the abstract
    machine of whole programs), Schedule (the order in which a round runs its tasks).

    The other files hold lemmas: Lexemes (which texts the lexer reads as which
    tokens), TokenView (the stream as a list of tokens without blank lines, and rules
    that run a parse function on it), ExprComplete and StmtComplete (parsing what
    Grammar prints), Texts (the sources of a tree), ExprSound and StmtSound (parsing
    ends, and what it builds is canonical), Types (the table of types), Codegen (what
    code the compiler appends), CodegenRun (what that code does), Simulation (statements
    against Exec), Programs (nested statements, functions and whole programs), Pipeline
    (locations play no role behind the parser), CompilerFrame (all that compiling a
    statement changes), LoopFacts (the ends of rounds and the owners of tasks), LoopUv
    (timers and requests), Writes (the buffers of write requests).  The properties are
    in CompilerProps, ParserProps, VmProps, RuntimeProps and ServerProps.

    ** State

    An operation of a class takes the object's state and returns the next one.  A
    member that the code leaves uninitialised is [None]; a pointer is an [option]
    or an address with the set of the live ones.  [current_func_] of the compiler
    may dangle ([func_pointer]); the tasks of the loop are found by address, so
    that a callback on a destroyed task is [Undef DanglingDeref].  Addresses of tasks
    and of local strings are never reused.

    ** What the theorems show

    - CompilerProps, C1 to C10.  From the text of a source to the output of the
      machine (C1), for programs whose functions use what the compiler implements:
      [int] variables, expressions of literals, [print], blocks, types.  The machine
      refines [exec_root], the abstract machine on a map of variables, for all the
      operators (C2), and such programs always compile (C3).  The code of any
      expression of literals computes [machine_value] (C4), which exchanges the
      operands of subtraction and division.  All that a statement changes but for the
      code it appends, and that an expression changes nothing else (C5), the behaviour
      of assignments and declarations (C6, C7).  The table of types: its entries, its
      invariant, and that types are well founded (C8 to C10), for every iteration order
      of the hash table.
    - ParserProps, C11 to C21.  Parsing ends without undefined behaviour on every
      source that can be scanned (C11).  Soundness: the trees it builds are those of
      the grammar, the canonical ones (C12).  Completeness: the tokens of a canonical
      tree, with any blank lines, parse to that tree (C13), and printing a tree as text
      and parsing it gives the tree back (C14).  A failed attempt restores
      the stream (C15), spans are exact (C16).  The stream refines a specification
      without a cache (C17); its lines and columns are those of the text, but for line
      breaks inside strings (C18).  Literals, keywords and identifiers (C19 to C21).
    - VmProps, C22 to C25.  Calls nest: whatever a callee does, its [Return] gives the
      caller back its frame, its call stack and the next instruction (C22);
      arguments, calls and returns (C23, C24), every arithmetic instruction (C25).
    - RuntimeProps, C26 to C33.  The channel under all interleavings (C26, C27);
      when a round ends, and that one with a run-once task that posts itself again does
      not (C28); ownership (C29); one-shot timers (C30); a round refines the schedule of
      Schedule.v (C31); in any round of a run, all tasks run once and in the order they
      were posted (C32); dynamic values (C33).
    - ServerProps, C34 to C40.  The life of a client (C34), the connections of a
      server (C35), the main program (C36), the demonstration server over any number
      of rounds, whatever libuv answers and calls back (C37), what libuv finds when it
      reads the buffer of a write request (C38), what the server answers
      (C39), clients that fail (C40).

    ** Fuel

    The recursion of the parser is bounded by fuel: [source_fuel] is one more than
    the number of bytes, every nested call or loop round consumes a token, and
    C11 proves it is enough for every source.  [Next_loop] has fuel 2, proved
    enough in TokenStream ([Next_no_fuel]).  The inner loop of the event loop has
    fuel.  C28 says for which tasks some amount is enough and for which none is; 4 is
    enough for every round of the demonstration server (C37).
    [Run] counts ticks, as the code does.  The loops of the compiler are
    structural.

    ** Assumptions

    [Abort] includes failed assertions (CMakeLists.txt builds in Debug mode) and
    exceptions, which nothing catches.  Integers are those of x86-64 Linux: [int]
    of 32 bits, [size_t] of 64, little-endian, [float] and [double] IEEE without
    NaN payloads.  [int] members that only count bytes or lines ([pos], [loc],
    [len_]) are unbounded: sources are shorter than 2^31 bytes.

    ** What is not modelled

    libuv (its answers and events are arguments of [round]; which events it makes
    for a handle or a request, and when it reads a buffer ([WriteBuffer]), is its
    documentation's business), callbacks that call [run] themselves, logging, threads
    ([MAX_THREAD] is 1), the heap of the C++ program, the alignment and effective
    type of the machine's pointer casts.  [static_] and [heap_] of the machine are
    never accessed by an instruction.  Tests and third-party code are left out.

    The programs of C1 to C3 read no variable and have no [if] that is reached,
    because the compiler has no code for that.  The sources of C1 and C13 have
    line breaks where statements and opening braces end, and any blank lines; the
    parser also accepts statements and braces on one line, a trailing comma in an
    argument list, and arguments of functions without commas, which are not covered.

    ** Plan

    Next: statements and braces on one line, the debug output of trees. *)

From stdpp Require Export base numbers option list strings gmap pretty.
From Stdlib Require Export ZArith Lia.
From Stdlib Require Export Ascii.

#[global] Open Scope string_scope.
#[global] Open Scope list_scope.
#[global] Open Scope Z_scope.

(** ** Outcomes of C++ code

    Every operation of the program that can go wrong returns an [outcome].
    [Undef] is undefined behaviour (the construct that causes it is named),
    [Abort] is a failed [assert] (the build type is Debug, so assertions are
    compiled in) or an exception nobody catches, and [OutOfFuel] is an artefact
    of the model that the termination theorems rule out. *)

Inductive fault : Set :=
  | SignedOverflow   (* signed integer arithmetic outside the type *)
  | DivideByZero     (* integer division by zero *)
  | FloatToInt       (* float to integer conversion outside the type *)
  | NullDeref        (* dereference of a null pointer *)
  | DanglingDeref    (* dereference of a pointer to a dead object *)
  | EmptyOptional    (* dereference of a disengaged std::optional *)
  | OutOfBounds      (* access outside an array or container *)
  | EmptyQueue       (* front() or pop() of an empty std::queue *)
  | Uninitialised    (* read of a variable that was never given a value *)
  | InvalidFree      (* free of memory that malloc did not return *)
  | NoReturn.        (* control falls off the end of a value-returning function *)

#[export] Instance fault_eq_dec : EqDecision fault.
Proof. solve_decision. Defined.

Inductive outcome (A : Type) : Type :=
  | Done (a : A)
  | Undef (f : fault)
  | Abort (why : string)
  | OutOfFuel.
Arguments Done {A} a.
Arguments Undef {A} f.
Arguments Abort {A} why.
Arguments OutOfFuel {A}.

#[export] Instance outcome_ret : MRet outcome := fun A a => Done a.
#[export] Instance outcome_bind : MBind outcome := fun A B k m =>
  match m with
  | Done a => k a
  | Undef f => Undef f
  | Abort w => Abort w
  | OutOfFuel => OutOfFuel
  end.
#[export] Instance outcome_fmap : FMap outcome := fun A B f m =>
  match m with
  | Done a => Done (f a)
  | Undef f => Undef f
  | Abort w => Abort w
  | OutOfFuel => OutOfFuel
  end.

(** [assert(c)] of <cassert>, with the text of the condition. *)
Definition assert_ (c : bool) (text : string) : outcome unit :=
  if c then Done () else Abort text.

(** Dereference of a [std::optional] or of a pointer that may be null. *)
Definition deref {A} (f : fault) (o : option A) : outcome A :=
  match o with Some a => Done a | None => Undef f end.

Definition is_done {A} (m : outcome A) : bool :=
  match m with Done _ => true | _ => false end.

Definition out_of_fuel {A} (m : outcome A) : bool :=
  match m with OutOfFuel => true | _ => false end.

(** Weakest precondition of an outcome: undefined behaviour only under [ub],
    aborts only under [ab], and the fuel is enough. *)
Definition wpo {A} (ub ab : Prop) (m : outcome A) (Q : A -> Prop) : Prop :=
  match m with
  | Done a => Q a
  | Undef _ => ub
  | Abort _ => ab
  | OutOfFuel => False
  end.

(** ** Lemmas on outcomes *)

Lemma wpo_bind {A B} ub ab (m : outcome A) (k : A -> outcome B) Q :
  wpo ub ab m (fun a => wpo ub ab (k a) Q) -> wpo ub ab (m ≫= k) Q.
Proof. destruct m; simpl; auto. Qed.

Lemma wpo_mono {A} (ub ub' ab ab' : Prop) (m : outcome A) (Q Q' : A -> Prop) :
  wpo ub ab m Q -> (ub -> ub') -> (ab -> ab') -> (forall a, Q a -> Q' a) ->
  wpo ub' ab' m Q'.
Proof. destruct m; simpl; auto. Qed.

Lemma wpo_done {A} ub ab (m : outcome A) Q a : wpo ub ab m Q -> m = Done a -> Q a.
Proof. now intros H ->. Qed.

Lemma wpo_fuel {A} ub ab (m : outcome A) Q : wpo ub ab m Q -> m <> OutOfFuel.
Proof. now destruct m. Qed.

Lemma outcome_bind_done {A B} (m : outcome A) (k : A -> outcome B) b :
  (m ≫= k) = Done b <-> exists a, m = Done a /\ k a = Done b.
Proof.
  destruct m as [a|f|w|]; simpl; split; intros H;
    try (destruct H as (a' & Ha & Hk)); try discriminate; eauto.
  congruence.
Qed.

Lemma outcome_bind_ret_l {A B} (a : A) (k : A -> outcome B) :
  (Done a ≫= k) = k a.
Proof. reflexivity. Qed.

Lemma outcome_bind_assoc {A B C} (m : outcome A) (k : A -> outcome B)
  (h : B -> outcome C) :
  ((m ≫= k) ≫= h) = (m ≫= fun a => k a ≫= h).
Proof. destruct m; reflexivity. Qed.

Lemma outcome_bind_fuel {A B} (m : outcome A) (k : A -> outcome B) :
  m <> OutOfFuel -> (forall a, m = Done a -> k a <> OutOfFuel) ->
  (m ≫= k) <> OutOfFuel.
Proof. destruct m; simpl; try discriminate; eauto. Qed.

Create HintDb mygo.
Create Rewrite HintDb mygo.
#[export] Hint Rewrite @outcome_bind_done : mygo.

(** [inv_done H] opens a hypothesis [m ≫= k = Done b] all the way down. *)
Ltac inv_done H :=
  match type of H with
  | _ ≫= _ = Done _ =>
      let a := fresh "x" in let H1 := fresh "H" in
      apply outcome_bind_done in H; destruct H as (a & H1 & H);
      cbn beta in H; try inv_done H
  | (match ?m with _ => _ end) = Done _ =>
      is_var m; destruct m; try discriminate H; try inv_done H
  | (match ?m with _ => _ end) = Done _ =>
      let E := fresh "E" in destruct m eqn:E; try discriminate H; try inv_done H
  | (if ?c then _ else _) = Done _ =>
      let E := fresh "E" in destruct c eqn:E; try discriminate H; try inv_done H
  | _ => idtac
  end.

(** Case analysis on the scrutinee of the goal's first [match]. *)
Ltac cases_goal :=
  match goal with
  | |- context [match ?m with _ => _ end] => destruct m eqn:?
  end.
