(* ===== verification/Machine.v ===== *)
(** * Machine: integers at their width, bytes and IEEE floats

    The parts of the C++ language the program computes with: signed
    arithmetic that is undefined when it overflows, unsigned arithmetic that
    wraps, the little-endian object representation used when a [uint8_t*] is
    reinterpreted as a wider type, and [float]/[double] arithmetic (IEEE 754
    binary32/binary64, round to nearest even) through the executable
    specification of Corelib's [SpecFloat]. *)

From S2P Require Import Prelude.
From Stdlib Require Import SpecFloat.

(** ** Integers *)

Definition wrap_u (w z : Z) : Z := z mod 2 ^ w.

Definition wrap_s (w z : Z) : Z :=
  let m := z mod 2 ^ w in if m <? 2 ^ (w - 1) then m else m - 2 ^ w.

Definition in_s (w z : Z) : bool := (- 2 ^ (w - 1) <=? z) && (z <? 2 ^ (w - 1)).

Definition in_u (w z : Z) : bool := (0 <=? z) && (z <? 2 ^ w).

(** The result of a signed operation of width [w]: undefined out of range. *)
Definition checked_s (w z : Z) : outcome Z :=
  if in_s w z then Done z else Undef SignedOverflow.

Definition INT_MAX : Z := 2 ^ 31 - 1.
Definition INT_MIN : Z := - 2 ^ 31.
Definition UINT64_MAX : Z := 2 ^ 64 - 1.

(** Signed division of width [w]; C++ truncates towards zero. *)
Definition sdiv (w a b : Z) : outcome Z :=
  if b =? 0 then Undef DivideByZero else checked_s w (Z.quot a b).

(** ** Bytes, least significant first *)

Fixpoint le_bytes (n : nat) (z : Z) : list Z :=
  match n with
  | O => []
  | S k => z mod 256 :: le_bytes k (z / 256)
  end.

Fixpoint le_value (bs : list Z) : Z :=
  match bs with
  | [] => 0
  | b :: r => b + 256 * le_value r
  end.

Definition is_byte (b : Z) : Prop := 0 <= b < 256.

(** ** Floats *)

Record float_format := { mant_w : Z; exp_w : Z }.
Definition binary32 : float_format := {| mant_w := 23; exp_w := 8 |}.
Definition binary64 : float_format := {| mant_w := 52; exp_w := 11 |}.

Section Format.
Context (ff : float_format).

Definition f_prec : Z := mant_w ff + 1.
Definition f_emax : Z := 2 ^ (exp_w ff - 1).
Definition f_emin : Z := 3 - f_emax - f_prec.

(** The value of a bit pattern. *)
Definition float_of_bits (x : Z) : spec_float :=
  let s := Z.testbit x (mant_w ff + exp_w ff) in
  let m := x mod 2 ^ mant_w ff in
  let e := (x / 2 ^ mant_w ff) mod 2 ^ exp_w ff in
  if e =? 0 then
    match m with Zpos p => S754_finite s p f_emin | _ => S754_zero s end
  else if e =? 2 ^ exp_w ff - 1 then
    if m =? 0 then S754_infinity s else S754_nan
  else
    match m + 2 ^ mant_w ff with
    | Zpos p => S754_finite s p (e + f_emin - 1)
    | _ => S754_nan
    end.

Definition sign_bit (s : bool) : Z :=
  if s then 2 ^ (mant_w ff + exp_w ff) else 0.

(** The bit pattern of a value.  A NaN gets the default quiet pattern: NaN
    payloads are not modelled. *)
Definition bits_of_float (f : spec_float) : Z :=
  match f with
  | S754_zero s => sign_bit s
  | S754_infinity s => sign_bit s + (2 ^ exp_w ff - 1) * 2 ^ mant_w ff
  | S754_nan => (2 ^ exp_w ff - 1) * 2 ^ mant_w ff + 2 ^ (mant_w ff - 1)
  | S754_finite s p e =>
      if 2 ^ mant_w ff <=? Zpos p
      then sign_bit s + (e - f_emin + 1) * 2 ^ mant_w ff + (Zpos p - 2 ^ mant_w ff)
      else sign_bit s + Zpos p
  end.

Definition fadd := SFadd f_prec f_emax.
Definition fsub := SFsub f_prec f_emax.
Definition fmul := SFmul f_prec f_emax.
Definition fdiv := SFdiv f_prec f_emax.

(** Integer to float conversion. *)
Definition float_of_Z (z : Z) : spec_float :=
  binary_normalize f_prec f_emax z 0 false.

(** Conversion from another format (rounds when narrowing). *)
Definition float_convert (f : spec_float) : spec_float :=
  match f with
  | S754_finite s p e => binary_normalize f_prec f_emax (if s then Zneg p else Zpos p) e s
  | _ => f
  end.
End Format.

(** The integer part of a float, towards zero; [None] for infinities and NaN. *)
Definition float_trunc (f : spec_float) : option Z :=
  match f with
  | S754_zero _ => Some 0
  | S754_finite s p e =>
      let a := if 0 <=? e then Zpos p * 2 ^ e else Zpos p / 2 ^ (- e) in
      Some (if s then - a else a)
  | _ => None
  end.

Definition f32_of_Z := float_of_Z binary32.
Definition f32_add := fadd binary32.
Definition f32_sub := fsub binary32.
Definition f32_mul := fmul binary32.
Definition f32_div := fdiv binary32.
Definition f64_div := fdiv binary64.
Definition f32_to_f64 := float_convert binary64.
Definition f64_to_f32 := float_convert binary32.

(** ** Printing: [std::to_string], [printf] *)

Fixpoint pad_zeros (n : nat) (s : string) : string :=
  match n with O => s | S k => String "0" (pad_zeros k s) end.

(** [%f] of a non-negative rational [num / den]: six decimals, ties to even. *)
Definition round_div_even (num den : Z) : Z :=
  let q := num / den in
  let r := num mod den in
  match 2 * r ?= den with
  | Lt => q
  | Gt => q + 1
  | Eq => if Z.even q then q else q + 1
  end.

Definition fixed6 (p : Z) (e : Z) : string :=
  let n := round_div_even (p * 2 ^ (Z.max e 0) * 1000000) (2 ^ (Z.max (- e) 0)) in
  let frac := pretty (n mod 1000000) in
  (pretty (n / 1000000) +:+ "." +:+ pad_zeros (6 - String.length frac)%nat frac)%string.

Definition minus_if (s : bool) (t : string) : string := if s then String "-" t else t.

Definition float_to_string (f : spec_float) : string :=
  match f with
  | S754_zero s => minus_if s "0.000000"
  | S754_infinity s => minus_if s "inf"
  | S754_nan => "nan"
  | S754_finite s p e => minus_if s (fixed6 (Zpos p) e)
  end.

Definition hex_digit (d : Z) : ascii :=
  ascii_of_nat (Z.to_nat (if d <? 10 then 48 + d else 87 + d)).

Fixpoint hex_loop (fuel : nat) (z : Z) (acc : string) : string :=
  match fuel with
  | O => acc
  | S k =>
      let acc := String (hex_digit (z mod 16)) acc in
      if z / 16 =? 0 then acc else hex_loop k (z / 16) acc
  end.

(** A [uint64_t] streamed with [std::hex]: at most sixteen digits. *)
Definition hex_u64 (z : Z) : string := hex_loop 16 z "".

(** ** Lemmas *)

Lemma pow2_pos w : 0 <= w -> 0 < 2 ^ w.
Proof. intros; apply Z.pow_pos_nonneg; lia. Qed.

Lemma in_s_spec w z : in_s w z = true <-> - 2 ^ (w - 1) <= z < 2 ^ (w - 1).
Proof. unfold in_s; rewrite andb_true_iff, Z.leb_le, Z.ltb_lt; tauto. Qed.

Lemma in_u_spec w z : in_u w z = true <-> 0 <= z < 2 ^ w.
Proof. unfold in_u; rewrite andb_true_iff, Z.leb_le, Z.ltb_lt; tauto. Qed.

Lemma checked_s_done w z a : checked_s w z = Done a <-> in_s w z = true /\ a = z.
Proof.
  unfold checked_s; destruct (in_s w z); split.
  - now intros [= ->].
  - now intros [_ ->].
  - discriminate.
  - now intros [? _].
Qed.

Lemma checked_s_total w z : checked_s w z = Undef SignedOverflow \/ checked_s w z = Done z.
Proof. unfold checked_s; destruct (in_s w z); auto. Qed.

Lemma wrap_u_range w z : 0 <= w -> 0 <= wrap_u w z < 2 ^ w.
Proof. intros; apply Z.mod_pos_bound, pow2_pos; lia. Qed.

Lemma wrap_u_small w z : 0 <= z < 2 ^ w -> wrap_u w z = z.
Proof. intros; apply Z.mod_small; lia. Qed.

Lemma pow2_split w : 0 < w -> 2 ^ w = 2 * 2 ^ (w - 1).
Proof. intros; rewrite <- Z.pow_succ_r by lia; f_equal; lia. Qed.

Lemma wrap_s_range w z : 0 < w -> in_s w (wrap_s w z) = true.
Proof.
  intros Hw; apply in_s_spec; unfold wrap_s.
  pose proof (Z.mod_pos_bound z (2 ^ w) ltac:(apply pow2_pos; lia)).
  rewrite (pow2_split w) in * by lia.
  destruct (Z.ltb_spec (z mod (2 * 2 ^ (w - 1))) (2 ^ (w - 1))); lia.
Qed.

Lemma wrap_s_wrap_u w z : 0 <= w -> wrap_s w (wrap_u w z) = wrap_s w z.
Proof.
  intros; unfold wrap_s, wrap_u; rewrite Zmod_mod; reflexivity.
Qed.

(** Reading a signed value back from its unsigned representation. *)
Lemma wrap_s_small w z : 0 < w -> in_s w z = true -> wrap_s w z = z.
Proof.
  intros Hw Hz%in_s_spec; unfold wrap_s.
  pose proof (pow2_pos (w - 1) ltac:(lia)) as Hp.
  rewrite (pow2_split w) in * by lia.
  destruct (Z_lt_le_dec z 0).
  - replace (z mod (2 * 2 ^ (w - 1))) with (z + 2 * 2 ^ (w - 1)).
    + destruct (Z.ltb_spec (z + 2 * 2 ^ (w - 1)) (2 ^ (w - 1))); lia.
    + rewrite <- (Z.mod_small (z + _) (2 * 2 ^ (w - 1))) by lia.
      rewrite <- (Z.mul_1_l (2 * 2 ^ (w - 1))) at 1.
      now rewrite Z.mod_add by lia.
  - rewrite Z.mod_small by lia.
    destruct (Z.ltb_spec z (2 ^ (w - 1))); lia.
Qed.

Lemma length_le_bytes n z : length (le_bytes n z) = n.
Proof. revert z; induction n; simpl; intros; f_equal; auto. Qed.

Lemma le_bytes_are_bytes n z : Forall is_byte (le_bytes n z).
Proof.
  revert z; induction n; simpl; intros; constructor; auto.
  apply Z.mod_pos_bound; lia.
Qed.

Lemma le_value_bytes n z : le_value (le_bytes n z) = z mod 2 ^ (8 * Z.of_nat n).
Proof.
  revert z; induction n as [|n IH]; intros z.
  { now rewrite Z.mul_0_r, Z.mod_1_r. }
  simpl le_value; rewrite IH.
  replace (8 * Z.of_nat (S n)) with (8 + 8 * Z.of_nat n) by lia.
  rewrite Z.pow_add_r by lia; change (2 ^ 8) with 256.
  rewrite Z.rem_mul_r by (try apply pow2_pos; lia). lia.
Qed.

Lemma le_value_range bs :
  Forall is_byte bs -> 0 <= le_value bs < 2 ^ (8 * Z.of_nat (length bs)).
Proof.
  induction 1 as [|b bs Hb _ IH]; simpl le_value; [simpl; lia|].
  replace (8 * Z.of_nat (length (b :: bs))) with (8 + 8 * Z.of_nat (length bs))
    by (simpl length; lia).
  rewrite Z.pow_add_r by lia; change (2 ^ 8) with 256.
  unfold is_byte in Hb; lia.
Qed.

Lemma le_bytes_value bs : Forall is_byte bs -> le_bytes (length bs) (le_value bs) = bs.
Proof.
  induction 1 as [|b bs Hb _ IH]; [reflexivity|]; unfold is_byte in Hb.
  cbn [length le_bytes le_value].
  rewrite (Z.mul_comm 256), Z.mod_add, Z.div_add by lia.
  rewrite Z.mod_small, Z.div_small, Z.add_0_l by lia; now rewrite IH.
Qed.

Lemma digits2_pos_bounds p :
  2 ^ (Zpos (digits2_pos p) - 1) <= Zpos p < 2 ^ Zpos (digits2_pos p).
Proof.
  assert (S : forall d : positive, 2 ^ (Zpos (Pos.succ d)) = 2 * 2 ^ Zpos d)
    by (intros; rewrite Pos2Z.inj_succ, Z.pow_succ_r by lia; reflexivity).
  assert (P : forall d : positive, 2 * 2 ^ (Zpos d - 1) = 2 ^ Zpos d)
    by (intros; rewrite <- Z.pow_succ_r by lia; f_equal; lia).
  induction p as [p IH|p IH|]; cbn [digits2_pos]; [| |simpl; lia].
  all: rewrite S; replace (Zpos (Pos.succ (digits2_pos p)) - 1)
         with (Zpos (digits2_pos p)) by lia; specialize (P (digits2_pos p)); lia.
Qed.

(** The shape of a value that the format can represent: normal, or subnormal. *)
Lemma bounded_cases prec emax p e :
  0 < prec -> bounded prec emax p e = true ->
  let emin := 3 - emax - prec in
  (2 ^ (prec - 1) <= Zpos p < 2 ^ prec /\ emin <= e <= emax - prec) \/
  (0 < Zpos p < 2 ^ (prec - 1) /\ e = emin).
Proof.
  unfold bounded, canonical_mantissa, fexp, SpecFloat.emin.
  intros Hprec [Hc%Z.eqb_eq He%Z.leb_le]%andb_true_iff; cbv zeta.
  pose proof (digits2_pos_bounds p) as [Hl Hu].
  assert (Hd : Zpos (digits2_pos p) <= prec) by lia.
  destruct (Z.eq_dec (Zpos (digits2_pos p)) prec) as [Hq|Hq].
  - left; rewrite Hq in *; lia.
  - right; split; [|lia].
    pose proof (Z.pow_le_mono_r 2 (Zpos (digits2_pos p)) (prec - 1)); lia.
Qed.

Section FloatRoundtrip.
Context (ff : float_format).
Hypothesis Hmant : 0 < mant_w ff.
Hypothesis Hexp : 1 < exp_w ff.

(** Taking a bit pattern apart into sign, exponent and mantissa. *)
Lemma float_fields (s : bool) e m :
  0 <= e < 2 ^ exp_w ff -> 0 <= m < 2 ^ mant_w ff ->
  let x := sign_bit ff s + e * 2 ^ mant_w ff + m in
  Z.testbit x (mant_w ff + exp_w ff) = s /\
  (x / 2 ^ mant_w ff) mod 2 ^ exp_w ff = e /\ x mod 2 ^ mant_w ff = m /\
  0 <= x < 2 ^ (1 + exp_w ff + mant_w ff).
Proof.
  intros He Hm x.
  pose proof (pow2_pos (mant_w ff) ltac:(lia)) as Pm.
  pose proof (pow2_pos (exp_w ff) ltac:(lia)) as Pe.
  assert (Hpow : 2 ^ (mant_w ff + exp_w ff) = 2 ^ exp_w ff * 2 ^ mant_w ff)
    by (rewrite Z.pow_add_r by lia; lia).
  assert (Hx : x = ((if s then 1 else 0) * 2 ^ exp_w ff + e) * 2 ^ mant_w ff + m).
  { subst x; unfold sign_bit; destruct s; rewrite ?Hpow; lia. }
  assert (Hdiv : x / 2 ^ mant_w ff = (if s then 1 else 0) * 2 ^ exp_w ff + e).
  { rewrite Hx, Z.div_add_l, (Z.div_small m) by lia; lia. }
  split_and!.
  - apply Bool.eq_true_iff_eq; rewrite Z.testbit_true by lia.
    replace (x / 2 ^ (mant_w ff + exp_w ff)) with (if s then 1 else 0).
    + destruct s; split; (reflexivity || discriminate).
    + rewrite Z.pow_add_r, <- Z.div_div, Hdiv, Z.div_add_l, (Z.div_small e) by lia.
      destruct s; lia.
  - rewrite Hdiv, Z.add_comm, Z.mod_add, Z.mod_small by lia; reflexivity.
  - rewrite Hx, Z.add_comm, Z.mod_add, Z.mod_small by lia; reflexivity.
  - rewrite Hx; destruct s; nia.
  - rewrite !Z.pow_add_r by lia; change (2 ^ 1) with 2; rewrite Hx; destruct s; nia.
Qed.

Lemma float_bits_roundtrip f :
  valid_binary (f_prec ff) (f_emax ff) f = true ->
  float_of_bits ff (bits_of_float ff f) = f.
Proof.
  pose proof (pow2_pos (mant_w ff) ltac:(lia)) as Pm.
  pose proof (pow2_pos (exp_w ff) ltac:(lia)) as Pe.
  assert (Hx2 : 2 ^ exp_w ff = 2 * f_emax ff) by (apply pow2_split; lia).
  assert (He1 : 2 <= f_emax ff).
  { unfold f_emax; pose proof (Z.pow_le_mono_r 2 1 (exp_w ff - 1)); lia. }
  assert (Hm1 : 0 < 2 ^ (mant_w ff - 1) < 2 ^ mant_w ff).
  { rewrite (pow2_split (mant_w ff)) by lia.
    pose proof (pow2_pos (mant_w ff - 1)); lia. }
  destruct f as [s|s| |s p e]; cbn [valid_binary bits_of_float]; intros Hv.
  - destruct (float_fields s 0 0 ltac:(lia) ltac:(lia)) as (Hs & He & Hm & _).
    unfold float_of_bits; rewrite Z.mul_0_l, !Z.add_0_r in *; now rewrite He, Hm, Hs.
  - destruct (float_fields s (2 ^ exp_w ff - 1) 0 ltac:(lia) ltac:(lia))
      as (Hs & He & Hm & _).
    unfold float_of_bits; rewrite Z.add_0_r in *; rewrite He, Hm, Hs, Z.eqb_refl.
    destruct (Z.eqb_spec (2 ^ exp_w ff - 1) 0); [lia|reflexivity].
  - destruct (float_fields false (2 ^ exp_w ff - 1) (2 ^ (mant_w ff - 1))
      ltac:(lia) ltac:(lia)) as (_ & He & Hm & _).
    unfold float_of_bits; simpl sign_bit in *; rewrite Z.add_0_l in *.
    rewrite He, Hm, Z.eqb_refl.
    destruct (Z.eqb_spec (2 ^ exp_w ff - 1) 0); [lia|].
    destruct (Z.eqb_spec (2 ^ (mant_w ff - 1)) 0); [lia|reflexivity].
  - apply bounded_cases in Hv; [|unfold f_prec; lia]; cbv zeta in Hv.
    unfold f_prec in Hv; replace (mant_w ff + 1 - 1) with (mant_w ff) in Hv by lia.
    change (3 - f_emax ff - (mant_w ff + 1)) with (f_emin ff) in Hv.
    assert (Hpp : 2 ^ (mant_w ff + 1) = 2 * 2 ^ mant_w ff)
      by (rewrite Z.pow_add_r by lia; lia).
    assert (Hmin : f_emin ff = 3 - f_emax ff - (mant_w ff + 1)) by reflexivity.
    destruct Hv as [[Hp He]|[Hp ->]]; destruct (Z.leb_spec (2 ^ mant_w ff) (Zpos p)); try lia.
    + destruct (float_fields s (e - f_emin ff + 1) (Zpos p - 2 ^ mant_w ff)
        ltac:(lia) ltac:(lia)) as (Hs & Hf & Hm & _).
      unfold float_of_bits; rewrite Hf, Hm, Hs.
      destruct (Z.eqb_spec (e - f_emin ff + 1) 0); [lia|].
      destruct (Z.eqb_spec (e - f_emin ff + 1) (2 ^ exp_w ff - 1)); [lia|].
      replace (Zpos p - 2 ^ mant_w ff + 2 ^ mant_w ff) with (Zpos p) by lia.
      f_equal; lia.
    + destruct (float_fields s 0 (Zpos p) ltac:(lia) ltac:(lia)) as (Hs & Hf & Hm & _).
      rewrite Z.mul_0_l, Z.add_0_r in *; unfold float_of_bits.
      now rewrite Hf, Hm, Hs.
Qed.
End FloatRoundtrip.
