(* ===== verification/Common.v ===== *)
(** * Common: source locations and durations (src/src/common.h) *)

From S2P Require Import Prelude Machine.

Record Loc : Set := mkLoc { line : Z; coloum : Z }.

#[export] Instance Loc_eq_dec : EqDecision Loc.
Proof. solve_decision. Defined.

(** [Loc()] *)
Definition Loc_default : Loc := mkLoc 1 1.

Definition Loc_eq (a b : Loc) : bool :=
  (line a =? line b) && (coloum a =? coloum b).

Definition Loc_ToString (l : Loc) : string :=
  ("(" +:+ pretty (line l) +:+ "," +:+ pretty (coloum l) +:+ ")")%string.

(** [Duration] is [uint64_t]. *)
Definition NanoSec : Z := 1.
Definition MicroSec : Z := 1000 * NanoSec.
Definition MiliSec : Z := 1000 * MicroSec.
Definition Sec : Z := 1000 * MiliSec.

Lemma Loc_eq_spec a b : Loc_eq a b = true <-> a = b.
Proof.
  destruct a, b; unfold Loc_eq; simpl; rewrite andb_true_iff, !Z.eqb_eq.
  split; [intros [-> ->]; reflexivity | intros [= -> ->]; auto].
Qed.
