(* ===== verification/Token.v ===== *)
(** * Token: the lexer (src/src/token.h, src/src/token.cpp)

    Characters are the bytes of the source as [ascii]; a [CharPtr] range
    [cur, end) is the list of the bytes from [cur] on. *)

From S2P Require Import Prelude Machine Common.
From Stdlib Require Import SpecFloat.

Module token.

(** [enum class Type], generated from [TokenList]. *)
Inductive Type_ : Set :=
  | Dot | At | Mygo | Go | Walrus | And | Not | Or | True_ | False_ | Var | Const
  | Struct | For | If | Else | Typedef | Equal | Less | Greater | Assign | Plus
  | Sub | Star | Slash | Func | Return | LBrace | RBrace | LParent | RParent
  | Comma | Colon | Semicolon | Space | Int | Float | Str | Symbol | Enl | Enf.

#[export] Instance Type_eq_dec : EqDecision Type_.
Proof. solve_decision. Defined.

(** The X-macro: [T] entries are tokens spelled by their text, [K] entries are
    classes of tokens with a name for debug output. *)
Inductive macro : Set := T | K.

Definition TokenList : list (macro * Type_ * string) :=
  [ (T, Dot, "."); (T, At, "@"); (T, Mygo, "mygo"); (T, Go, "go");
    (T, Walrus, ":="); (T, And, "&&"); (T, Not, "!"); (T, Or, "||");
    (T, True_, "true"); (T, False_, "flase"); (T, Var, "var");
    (T, Const, "const"); (T, Struct, "struct"); (T, For, "for"); (T, If, "if");
    (T, Else, "else"); (T, Typedef, "type"); (T, Equal, "=="); (T, Less, "<");
    (T, Greater, ">"); (T, Assign, "="); (T, Plus, "+"); (T, Sub, "-");
    (T, Star, "*"); (T, Slash, "/"); (T, Func, "func"); (T, Return, "return");
    (T, LBrace, "{"); (T, RBrace, "}"); (T, LParent, "("); (T, RParent, ")");
    (T, Comma, ","); (T, Colon, ":"); (T, Semicolon, ";"); (K, Space, "SPACE");
    (K, Int, "Int"); (K, Float, "Float"); (K, Str, "Str");
    (K, Symbol, "Symbol"); (K, Enl, "Enl"); (K, Enf, "Enf") ].

Definition simple_tokens : list (string * Type_) :=
  omap (fun '(m, t, b) => match m with T => Some (b, t) | K => None end) TokenList.

Definition token_debug_map : list (Type_ * string) :=
  (fun '(_, t, b) => (t, b)) <$> TokenList.

Definition debug_type (t : Type_) : string :=
  match list_find (fun p => p.1 = t) token_debug_map with
  | Some (_, (_, s)) => s
  | None => "unrecognizeType"
  end.

(** [operator<<(std::ostream&, Type)]: the number of the enumerator. *)
Definition show_type (t : Type_) : string :=
  match list_find (fun p => p.1.2 = t) TokenList with
  | Some (i, _) => pretty (Z.of_nat i)
  | None => ""
  end.

(** [struct Value].  A member that a constructor leaves uninitialised is 0 here;
    no code reads it. *)
Record Value : Set := mkValue {
  start : Loc;
  end_ : Loc;
  type_ : Type_;
  len_ : Z;
  str_data_ : string;
  f_data_ : spec_float;
  i_data_ : Z;
}.

Definition Value_make (t : Type_) (len : Z) : Value :=
  mkValue (mkLoc 1 1) (mkLoc 1 1) t len "" (S754_zero false) 0.

(** [Value()]: only the locations and the string are initialised. *)
Definition Value_default : Value := Value_make Dot 0.

Definition CreateInt (len data : Z) : Value :=
  mkValue (mkLoc 1 1) (mkLoc 1 1) Int len "" (S754_zero false) data.

(** The parameter is a [float], the member a [double]. *)
Definition CreateFloat (len : Z) (data : spec_float) : Value :=
  mkValue (mkLoc 1 1) (mkLoc 1 1) Float len "" (f32_to_f64 data) 0.

Definition CreateStr (len : Z) (data : string) : Value :=
  mkValue (mkLoc 1 1) (mkLoc 1 1) Str len data (S754_zero false) 0.

Definition CreateSymbol (len : Z) (data : string) : Value :=
  mkValue (mkLoc 1 1) (mkLoc 1 1) Symbol len data (S754_zero false) 0.

(** Assigning the public members [start] and [end]. *)
Definition with_span (s e : Loc) (v : Value) : Value :=
  mkValue s e (type_ v) (len_ v) (str_data_ v) (f_data_ v) (i_data_ v).

(** [operator<<] and [Value::debug]. *)
Definition debug (v : Value) : string :=
  ("[" +:+ debug_type (type_ v) +:+
   (if decide (type_ v = Int) then ":" +:+ pretty (i_data_ v) else "") +:+
   (if decide (type_ v = Float) then ":" +:+ float_to_string (f_data_ v) else "") +:+
   (if decide (type_ v = Str) then ":" +:+ str_data_ v else "") +:+
   (if decide (type_ v = Symbol) then ":" +:+ str_data_ v else "") +:+ "]")%string.

(** ** Character classes *)

Definition code (c : ascii) : Z := Z.of_N (N_of_ascii c).
Definition chr (n : Z) : ascii := ascii_of_N (Z.to_N n).

Definition between (lo hi : ascii) (c : ascii) : bool :=
  (code lo <=? code c) && (code c <=? code hi).

Definition is_digit (c : ascii) : bool := between "0" "9" c.

Definition is_symbol_head_ele (c : ascii) : bool :=
  between "a" "z" c || between "A" "Z" c || (code c =? code "_").

Definition is_symbol_ele (c : ascii) : bool := is_symbol_head_ele c || is_digit c.

Definition CR : ascii := chr 13.
Definition LF : ascii := chr 10.
Definition TAB : ascii := chr 9.
Definition QUOTE : ascii := chr 34.

Definition is_blank (c : ascii) : bool := (code c =? code " ") || (code c =? code TAB).

(** ** Scanners.  [None] is [std::nullopt]. *)

Fixpoint int_loop (cs : list ascii) (len res : Z) : outcome (Z * Z) :=
  match cs with
  | [] => Done (len, res)
  | c :: r =>
      if is_digit c then
        m ← checked_s 32 (res * 10);
        res' ← checked_s 32 (m + (code c - code "0"));
        int_loop r (len + 1) res'
      else Done (len, res)
  end.

Definition int_from_chars (cs : list ascii) : outcome (option Value) :=
  '(len, res) ← int_loop cs 0 0;
  Done (if 0 <? len then Some (CreateInt len res) else None).

Fixpoint weight_loop (n : nat) (weight : spec_float) : spec_float :=
  match n with
  | O => weight
  | S k => weight_loop k
             (f64_to_f32 (f64_div (f32_to_f64 weight) (float_of_Z binary64 10)))
  end.

Definition decimal_weight_after_zero (offset : Z) : spec_float :=
  weight_loop (Z.to_nat offset) (f32_of_Z 1).

(** The prefix of the bytes that satisfy [p]: where the scanning loop stops. *)
Fixpoint scan (p : ascii -> bool) (cs : list ascii) : nat :=
  match cs with
  | c :: r => if p c then S (scan p r) else O
  | [] => O
  end.

Definition symbol_from_chars (cs : list ascii) : option Value :=
  match cs with
  | [] => None
  | c :: r =>
      if negb (is_symbol_head_ele c) then None
      else
        let n := scan is_symbol_ele r in
        if decide (n = length r) then None
        else Some (CreateSymbol (Z.of_nat (S n))
                     (String.string_of_list_ascii (take (S n) cs)))
  end.

Definition str_from_chars (cs : list ascii) : option Value :=
  match cs with
  | [] => None
  | c :: r =>
      if negb (code c =? code QUOTE) then None
      else
        let n := scan (fun d => negb (code d =? code QUOTE)) r in
        if decide (n = length r) then None
        else Some (CreateStr (Z.of_nat n + 2) (String.string_of_list_ascii (take n r)))
  end.

Definition float_from_chars (cs : list ascii) : outcome (option Value) :=
  n1 ← int_from_chars cs;
  match n1 with
  | None => Done None
  | Some n1 =>
      match drop (Z.to_nat (len_ n1)) cs with
      | [] => Done None
      | d :: r =>
          if negb (code d =? code ".") then Done None
          else
            n2 ← int_from_chars r;
            match n2 with
            | None => Done None
            | Some n2 =>
                Done (Some (CreateFloat (len_ n1 + len_ n2 + 1)
                  (f32_add (f32_of_Z (i_data_ n1))
                     (f32_mul (decimal_weight_after_zero (len_ n2))
                        (f32_of_Z (i_data_ n2))))))
            end
      end
  end.

Definition endl_from_chars (cs : list ascii) : option Value :=
  match cs with
  | [] => None
  | c :: r =>
      if (code c =? code CR) && match r with d :: _ => code d =? code LF | [] => false end
      then Some (Value_make Enl 2)
      else if (code c =? code CR) || (code c =? code LF) then Some (Value_make Enl 1)
      else None
  end.

(** [ismatch]: does the text [l] start the input? *)
Fixpoint is_match (l : string) (cs : list ascii) : bool :=
  match l, cs with
  | EmptyString, _ => true
  | String a l', c :: r => (code c =? code a) && is_match l' r
  | String _ _, [] => false
  end.

Fixpoint match_simple (table : list (string * Type_)) (cs : list ascii) : option Value :=
  match table with
  | [] => None
  | (l, t) :: rest =>
      if is_match l cs then Some (Value_make t (Z.of_nat (String.length l)))
      else match_simple rest cs
  end.

(** [Value::FromChars] *)
Definition FromChars (cs : list ascii) : outcome (option Value) :=
  match cs with
  | [] => Done (Some (Value_make Enf 0))
  | c :: r =>
      match endl_from_chars cs with
      | Some v => Done (Some v)
      | None =>
          if is_blank c then
            Done (Some (Value_make Space (1 + Z.of_nat (scan is_blank r))))
          else
            match match_simple simple_tokens cs with
            | Some v => Done (Some v)
            | None =>
                f ← float_from_chars cs;
                match f with
                | Some v => Done (Some v)
                | None =>
                    i ← int_from_chars cs;
                    match i with
                    | Some v => Done (Some v)
                    | None =>
                        match str_from_chars cs with
                        | Some v => Done (Some v)
                        | None => Done (symbol_from_chars cs)
                        end
                    end
                end
            end
      end
  end.

#[global] Arguments int_from_chars : simpl never.
#[global] Arguments float_from_chars : simpl never.
#[global] Arguments str_from_chars : simpl never.
#[global] Arguments symbol_from_chars : simpl never.
#[global] Arguments endl_from_chars : simpl never.
#[global] Arguments FromChars : simpl never.

(** ** Lemmas *)

Lemma scan_le p cs : (scan p cs <= length cs)%nat.
Proof. induction cs as [|c r IH]; simpl; [lia|]; destruct (p c); lia. Qed.

(** The loop stops at the first byte that fails the test. *)
Lemma scan_stop p cs c r : drop (scan p cs) cs = c :: r -> p c = false.
Proof.
  induction cs as [|d cs IH]; simpl; [discriminate|].
  destruct (p d) eqn:E; simpl; [auto|]; intros [= -> ->]; exact E.
Qed.

Lemma scan_all p cs : Forall (fun c => p c = true) (take (scan p cs) cs).
Proof.
  induction cs as [|d cs IH]; simpl; [constructor|].
  destruct (p d) eqn:E; simpl; constructor; auto.
Qed.

Lemma scan_app p cs r :
  Forall (fun c => p c = true) cs ->
  match r with c :: _ => p c = false | [] => Logic.True end ->
  scan p (cs ++ r) = length cs.
Proof.
  induction 1 as [|c cs Hc _ IH]; simpl; intros Hr.
  - destruct r as [|d r]; simpl; [reflexivity|now rewrite Hr].
  - now rewrite Hc, IH.
Qed.

Lemma int_loop_len cs len res len' res' :
  int_loop cs len res = Done (len', res') ->
  len' = len + Z.of_nat (scan is_digit cs) /\ (scan is_digit cs <= length cs)%nat.
Proof.
  split; [|apply scan_le]; revert len res H; induction cs as [|c r IH];
    simpl; intros len res H; [injection H; lia|].
  destruct (is_digit c); [|injection H; lia].
  inv_done H; apply IH in H; lia.
Qed.

Lemma int_from_chars_spec cs v :
  int_from_chars cs = Done (Some v) ->
  v = CreateInt (Z.of_nat (scan is_digit cs)) (i_data_ v) /\ (0 < scan is_digit cs)%nat.
Proof.
  unfold int_from_chars; intros H; inv_done H.
  match goal with Hl : int_loop _ _ _ = _ |- _ => apply int_loop_len in Hl as [-> _] end.
  destruct (0 <? 0 + Z.of_nat (scan is_digit cs)) eqn:E; [|discriminate].
  apply Z.ltb_lt in E; injection H as <-; simpl; split; [f_equal|]; lia.
Qed.

(** What the parser relies on: a token other than the end of input consumes
    between one and all of the bytes that are left, and carries the default
    location. *)
Definition lexeme (cs : list ascii) (v : Value) : Prop :=
  start v = mkLoc 1 1 /\ end_ v = mkLoc 1 1 /\
  (cs = [] /\ type_ v = Enf /\ len_ v = 0 \/
   cs <> [] /\ type_ v <> Enf /\ 1 <= len_ v <= Z.of_nat (length cs)).

Lemma is_match_le l cs : is_match l cs = true -> (String.length l <= length cs)%nat.
Proof.
  revert cs; induction l as [|a l IH]; intros [|c cs]; simpl; try discriminate; try lia.
  intros [_ H]%andb_true_iff; apply IH in H; lia.
Qed.

Lemma is_match_app l cs : is_match l (String.list_ascii_of_string l ++ cs) = true.
Proof. induction l as [|a l IH]; simpl; [reflexivity|]; now rewrite Z.eqb_refl. Qed.

Ltac solve_lexeme :=
  unfold lexeme; split_and!; auto; right; split_and!; simpl in *;
  try done; try lia.

(** Every entry of the token table has a text and is not a class of tokens. *)
Definition simple_ok (p : string * Type_) : bool :=
  (1 <=? String.length p.1)%nat && bool_decide (p.2 <> Enf) && bool_decide (p.2 <> Space)
  && bool_decide (p.2 <> Enl).

Lemma simple_tokens_ok : forallb simple_ok simple_tokens = true.
Proof. vm_compute; reflexivity. Qed.

Lemma match_simple_spec table cs v :
  match_simple table cs = Some v ->
  exists l t, In (l, t) table /\ v = Value_make t (Z.of_nat (String.length l)) /\
    is_match l cs = true.
Proof.
  induction table as [|[l t] rest IH]; simpl; [discriminate|].
  destruct (is_match l cs) eqn:E; [intros [= <-]; eauto 7|].
  intros (l' & t' & ? & ? & ?)%IH; eauto 7.
Qed.

Lemma match_simple_lexeme cs v :
  match_simple simple_tokens cs = Some v ->
  lexeme cs v /\ type_ v <> Space /\ type_ v <> Enl.
Proof.
  intros (l & t & Hin & -> & Hm%is_match_le)%match_simple_spec.
  pose proof (proj1 (forallb_forall _ _) simple_tokens_ok _ Hin) as Hok.
  unfold simple_ok in Hok; rewrite !andb_true_iff, !bool_decide_eq_true in Hok.
  destruct Hok as (((Hl%Nat.leb_le & ?) & ?) & ?); cbn [fst snd] in *.
  destruct cs; [simpl in *; lia|]; split_and!; auto; solve_lexeme.
Qed.

Lemma endl_lexeme cs v : endl_from_chars cs = Some v -> lexeme cs v /\ type_ v = Enl.
Proof.
  unfold endl_from_chars; destruct cs as [|c r]; [discriminate|].
  destruct r as [|d r]; simpl; repeat case_match; intros; simplify_eq; simpl;
    split; auto; solve_lexeme.
Qed.

Lemma symbol_lexeme cs v :
  symbol_from_chars cs = Some v -> lexeme cs v /\ type_ v = Symbol.
Proof.
  unfold symbol_from_chars; destruct cs as [|c r]; [discriminate|].
  repeat case_match; intros; simplify_eq.
  pose proof (scan_le is_symbol_ele r).
  split; [|reflexivity]; solve_lexeme.
Qed.

Lemma str_lexeme cs v : str_from_chars cs = Some v -> lexeme cs v /\ type_ v = Str.
Proof.
  unfold str_from_chars; destruct cs as [|c r]; [discriminate|].
  repeat case_match; intros; simplify_eq.
  match goal with H : scan ?p r <> _ |- _ => pose proof (scan_le p r) end.
  split; [|reflexivity]; solve_lexeme.
Qed.

Lemma int_lexeme cs v :
  int_from_chars cs = Done (Some v) -> lexeme cs v /\ type_ v = Int.
Proof.
  intros (Hv & Hp)%int_from_chars_spec; rewrite Hv; split; [|reflexivity].
  pose proof (scan_le is_digit cs); destruct cs; [simpl in *; lia|solve_lexeme].
Qed.

Lemma float_lexeme cs v :
  float_from_chars cs = Done (Some v) -> lexeme cs v /\ type_ v = Float.
Proof.
  unfold float_from_chars; intros H; inv_done H; simplify_eq.
  repeat match goal with
  | H : int_from_chars _ = Done (Some _) |- _ => apply int_from_chars_spec in H as (? & ?)
  end.
  match goal with H : drop _ cs = ?d :: ?r |- _ => apply (f_equal length) in H as Hd end.
  rewrite length_drop in Hd; simpl in Hd.
  repeat match goal with
  | H : ?v = CreateInt _ _, Hd : context [len_ ?v] |- _ => rewrite H in Hd |- *
  | H : ?v = CreateInt _ _ |- _ => rewrite H; clear H
  end; simpl in *.
  match goal with |- context [scan is_digit l] => pose proof (scan_le is_digit l) end.
  split; [|reflexivity]; destruct cs; [simpl in *; lia|solve_lexeme].
Qed.

(** The cases of a successful scan of a non-empty input. *)
Lemma FromChars_inv c r v :
  FromChars (c :: r) = Done (Some v) ->
  is_blank c = true /\ v = Value_make Space (1 + Z.of_nat (scan is_blank r)) \/
  lexeme (c :: r) v /\ type_ v <> Space.
Proof.
  unfold FromChars; destruct (endl_from_chars (c :: r)) eqn:E1.
  { intros [= <-]; apply endl_lexeme in E1 as [? ->]; auto. }
  destruct (is_blank c); [intros [= <-]; auto|].
  destruct (match_simple simple_tokens (c :: r)) eqn:E2.
  { intros [= <-]; apply match_simple_lexeme in E2; tauto. }
  intros H; right; inv_done H; simplify_eq;
    try change (symbol_from_chars (c :: r) = Some v) in H;
    match goal with
    | H : float_from_chars _ = Done (Some _) |- _ => apply float_lexeme in H
    | H : int_from_chars _ = Done (Some _) |- _ => apply int_lexeme in H
    | H : str_from_chars _ = Some _ |- _ => apply str_lexeme in H
    | H : symbol_from_chars _ = Some _ |- _ => apply symbol_lexeme in H
    end; intuition congruence.
Qed.

Lemma FromChars_lexeme cs v : FromChars cs = Done (Some v) -> lexeme cs v.
Proof.
  destruct cs as [|c r]; [intros [= <-]; unfold lexeme; simpl; intuition|].
  intros [[_ ->]|[? _]]%FromChars_inv; [|assumption].
  pose proof (scan_le is_blank r); solve_lexeme.
Qed.

(** An identifier has a text. *)
Lemma FromChars_symbol cs v : FromChars cs = Done (Some v) -> type_ v = Symbol -> str_data_ v <> "".
Proof.
  destruct cs as [|c r]; [now intros [= <-]|]; unfold FromChars.
  destruct (endl_from_chars (c :: r)) eqn:E1; [intros [= <-]; apply endl_lexeme in E1 as [_ ->]; discriminate|].
  destruct (is_blank c); [now intros [= <-]|].
  destruct (match_simple simple_tokens (c :: r)) eqn:E2.
  { intros [= <-]; apply match_simple_spec in E2 as (l & t & Hin & -> & _); intros Ht; simpl in Ht; subst t.
    exfalso; vm_compute in Hin; intuition congruence. }
  intros H Ht; inv_done H; simplify_eq;
    try change (symbol_from_chars (c :: r) = Some v) in H;
    match goal with
    | H : float_from_chars _ = Done (Some _) |- _ => apply float_lexeme in H as [_ ?]; congruence
    | H : int_from_chars _ = Done (Some _) |- _ => apply int_lexeme in H as [_ ?]; congruence
    | H : str_from_chars _ = Some _ |- _ => apply str_lexeme in H as [_ ?]; congruence
    | _ => idtac
    end.
  unfold symbol_from_chars in H; repeat case_match; simplify_eq; discriminate.
Qed.

(** Whitespace is scanned to its end. *)
Lemma FromChars_space cs v :
  FromChars cs = Done (Some v) -> type_ v = Space ->
  match drop (Z.to_nat (len_ v)) cs with c :: _ => is_blank c = false | [] => Logic.True end.
Proof.
  destruct cs as [|c r]; [now intros [= <-]|].
  intros [[_ ->]|[_ ?]]%FromChars_inv Ht; [|contradiction]; simpl len_.
  replace (Z.to_nat (1 + Z.of_nat (scan is_blank r))) with (S (scan is_blank r)) by lia.
  simpl; destruct (drop (scan is_blank r) r) eqn:Ed; [exact I|].
  now apply scan_stop in Ed.
Qed.

Lemma FromChars_blank cs v :
  FromChars cs = Done (Some v) -> type_ v = Space ->
  match cs with c :: _ => is_blank c = true | [] => Logic.False end.
Proof.
  destruct cs as [|c r]; [now intros [= <-]|].
  intros [[? ->]|[_ ?]]%FromChars_inv Ht; [assumption|contradiction].
Qed.

(** Scanning always ends, and the only thing that can go wrong is the
    overflow of an integer literal. *)
Lemma int_loop_total cs len res :
  int_loop cs len res = Undef SignedOverflow \/ exists p, int_loop cs len res = Done p.
Proof.
  revert len res; induction cs as [|c r IH]; intros len res; simpl; [eauto|].
  destruct (is_digit c); [|eauto].
  destruct (checked_s_total 32 (res * 10)) as [-> | ->]; [auto|].
  rewrite outcome_bind_ret_l.
  destruct (checked_s_total 32 (res * 10 + (code c - code "0"))) as [-> | ->]; [auto|].
  apply IH.
Qed.

Lemma int_from_chars_total cs :
  int_from_chars cs = Undef SignedOverflow \/ exists o, int_from_chars cs = Done o.
Proof.
  unfold int_from_chars; destruct (int_loop_total cs 0 0) as [->|[[? ?] ->]]; simpl; eauto.
Qed.

Lemma float_from_chars_total cs :
  float_from_chars cs = Undef SignedOverflow \/ exists o, float_from_chars cs = Done o.
Proof.
  unfold float_from_chars; destruct (int_from_chars_total cs) as [->|[[n1|] ->]]; simpl; eauto.
  destruct (drop _ cs) as [|d r]; [eauto|]; destruct (negb _); [eauto|].
  destruct (int_from_chars_total r) as [->|[[n2|] ->]]; simpl; eauto.
Qed.

Lemma FromChars_total cs :
  FromChars cs = Undef SignedOverflow \/ exists o, FromChars cs = Done o.
Proof.
  unfold FromChars; destruct cs as [|c r]; [eauto|].
  destruct (endl_from_chars (c :: r)); [eauto|]; destruct (is_blank c); [eauto|].
  destruct (match_simple simple_tokens (c :: r)); [eauto|].
  destruct (float_from_chars_total (c :: r)) as [->|[[f|] ->]]; simpl; eauto.
  destruct (int_from_chars_total (c :: r)) as [->|[[i|] ->]]; simpl; eauto.
  destruct (str_from_chars (c :: r)); eauto.
Qed.

End token.
