(* ===== verification/Lexemes.v ===== *)
(** * Lexemes: texts and the tokens they are scanned as (src/src/token.cpp)

    Lemmas on [FromChars] for the text of each class of tokens, the texts that
    [spells] gives a token, and the layouts of a list of tokens. *)

From S2P Require Import Prelude Machine Common Token.
Import token.
From Stdlib Require Import SpecFloat.

(** ** Numbers *)

Definition digit_value (c : ascii) : Z := code c - code "0".
Definition decimal (ds : list ascii) : Z := foldl (fun n c => n * 10 + digit_value c) 0 ds.

Definition starts_with (p : ascii -> bool) (cs : list ascii) : bool :=
  match cs with c :: _ => p c | [] => false end.

Lemma digit_range c : is_digit c = true -> 0 <= digit_value c <= 9.
Proof.
  unfold is_digit, between, digit_value; change (code "0") with 48; change (code "9") with 57.
  intros [H1%Z.leb_le H2%Z.leb_le]%andb_true_iff; lia.
Qed.

Lemma decimal_grows ds n : 0 <= n -> forallb is_digit ds = true ->
  n <= foldl (fun n c => n * 10 + digit_value c) n ds.
Proof.
  revert n; induction ds as [|c ds IH]; intros n Hn H; cbn [foldl forallb] in *; [lia|].
  apply andb_true_iff in H as [Hc H]; apply digit_range in Hc.
  specialize (IH (n * 10 + digit_value c) ltac:(lia) H); lia.
Qed.

Lemma int_loop_digits ds rest len n : 0 <= n <= INT_MAX -> forallb is_digit ds = true ->
  starts_with is_digit rest = false ->
  let m := foldl (fun n c => n * 10 + digit_value c) n ds in
  int_loop (ds ++ rest) len n =
    if m <=? INT_MAX then Done (len + Z.of_nat (length ds), m) else Undef SignedOverflow.
Proof.
  revert len n; induction ds as [|c ds IH]; intros len n Hn H Hr; cbn [foldl forallb app length] in *.
  { cbv zeta; rewrite (proj2 (Z.leb_le _ _)) by lia; rewrite Z.add_0_r.
    destruct rest as [|c rest]; [reflexivity|]; cbn [int_loop starts_with] in *; now rewrite Hr. }
  apply andb_true_iff in H as [Hc H]; cbn [int_loop]; rewrite Hc; pose proof (digit_range c Hc) as Hd.
  pose proof (decimal_grows ds (n * 10 + digit_value c) ltac:(lia) H) as Hg; cbv zeta in *.
  unfold checked_s; destruct (in_s 32 (n * 10)) eqn:E1.
  - rewrite outcome_bind_ret_l; fold (digit_value c).
    destruct (in_s 32 (n * 10 + digit_value c)) eqn:E2.
    + rewrite outcome_bind_ret_l, IH by (try (apply in_s_spec in E2; unfold INT_MAX); auto; lia).
      case_match; [f_equal; f_equal; lia|reflexivity].
    + rewrite (proj2 (Z.leb_gt _ _)); [reflexivity|]; apply Bool.not_true_iff_false in E2.
      rewrite in_s_spec in E2; unfold INT_MAX in *; lia.
  - rewrite (proj2 (Z.leb_gt _ _)); [reflexivity|]; apply Bool.not_true_iff_false in E1.
    rewrite in_s_spec in E1; unfold INT_MAX in *; lia.
Qed.

(** What [int_from_chars] makes of a run of digits. *)
Lemma int_from_digits ds rest : ds <> [] -> forallb is_digit ds = true ->
  starts_with is_digit rest = false ->
  int_from_chars (ds ++ rest) =
    if decimal ds <=? INT_MAX
    then Done (Some (CreateInt (Z.of_nat (length ds)) (decimal ds)))
    else Undef SignedOverflow.
Proof.
  intros Hne Hds Hr; pose proof (int_loop_digits ds rest 0 0 ltac:(unfold INT_MAX; lia) Hds Hr) as Hl.
  cbv zeta in Hl; fold (decimal ds) in Hl; rewrite Z.add_0_l in Hl.
  unfold int_from_chars; rewrite Hl; destruct (decimal ds <=? INT_MAX); [|reflexivity].
  rewrite outcome_bind_ret_l; destruct ds; [congruence|]; reflexivity.
Qed.

Lemma code_inj c d : code c = code d -> c = d.
Proof.
  unfold code; intros E%N2Z.inj; apply (f_equal ascii_of_N) in E.
  now rewrite !ascii_N_embedding in E.
Qed.

(** A text that starts with a digit is no line end, blank or simple token. *)
Lemma digit_first c r : is_digit c = true ->
  endl_from_chars (c :: r) = None /\ is_blank c = false /\ match_simple simple_tokens (c :: r) = None.
Proof. destruct c as [[] [] [] [] [] [] [] []]; intros Hc; try discriminate Hc; repeat split. Qed.

Lemma int_lexed ds rest : ds <> [] -> forallb is_digit ds = true ->
  starts_with is_digit rest = false -> starts_with (Ascii.eqb ".") rest = false ->
  FromChars (ds ++ rest) =
    if decimal ds <=? INT_MAX
    then Done (Some (CreateInt (Z.of_nat (length ds)) (decimal ds)))
    else Undef SignedOverflow.
Proof.
  intros Hne Hds Hr Hdot; pose proof (int_from_digits ds rest Hne Hds Hr) as Hi.
  assert (Hf : (decimal ds <=? INT_MAX) = true -> float_from_chars (ds ++ rest) = Done None).
  { intros E; unfold float_from_chars; rewrite Hi, E, outcome_bind_ret_l; cbn [len_ CreateInt].
    rewrite Nat2Z.id, drop_app_length; destruct rest as [|d rest]; [reflexivity|].
    cbn [starts_with] in Hdot; destruct (Z.eqb_spec (code d) (code ".")) as [Ed|]; [|reflexivity].
    apply code_inj in Ed; subst d; discriminate Hdot. }
  destruct ds as [|c ds]; [congruence|]; cbn [app forallb] in *.
  apply andb_true_iff in Hds as [Hc _]; unfold FromChars.
  destruct (digit_first c (ds ++ rest) Hc) as (-> & -> & ->).
  destruct (decimal (c :: ds) <=? INT_MAX) eqn:E.
  - now rewrite (Hf eq_refl), outcome_bind_ret_l, Hi.
  - unfold float_from_chars; now rewrite Hi.
Qed.

(** The value of a literal [ds.es], in the single precision of the code. *)
Definition float_value (ds es : list ascii) : spec_float :=
  f32_add (f32_of_Z (decimal ds))
    (f32_mul (decimal_weight_after_zero (Z.of_nat (length es))) (f32_of_Z (decimal es))).

Lemma float_lexed ds es rest :
  ds <> [] -> forallb is_digit ds = true -> decimal ds <= INT_MAX ->
  es <> [] -> forallb is_digit es = true -> decimal es <= INT_MAX ->
  starts_with is_digit rest = false ->
  FromChars (ds ++ "."%char :: es ++ rest) =
    Done (Some (CreateFloat (Z.of_nat (length ds) + Z.of_nat (length es) + 1) (float_value ds es))).
Proof.
  intros Hne Hds Hd Hne' Hes He Hr.
  pose proof (int_from_digits ds ("."%char :: es ++ rest) Hne Hds eq_refl) as Hi.
  pose proof (int_from_digits es rest Hne' Hes Hr) as Hj.
  rewrite (proj2 (Z.leb_le _ _) Hd) in Hi; rewrite (proj2 (Z.leb_le _ _) He) in Hj.
  assert (Hf : float_from_chars (ds ++ "."%char :: es ++ rest) = Done (Some
    (CreateFloat (Z.of_nat (length ds) + Z.of_nat (length es) + 1) (float_value ds es)))).
  { unfold float_from_chars; rewrite Hi, outcome_bind_ret_l; cbn [len_ CreateInt].
    rewrite Nat2Z.id, drop_app_length; cbn [negb]; rewrite Z.eqb_refl; cbn [negb].
    rewrite Hj; reflexivity. }
  destruct ds as [|c ds]; [congruence|]; cbn [app forallb] in *.
  apply andb_true_iff in Hds as [Hc _]; unfold FromChars.
  destruct (digit_first c (ds ++ "."%char :: es ++ rest) Hc) as (-> & -> & ->); now rewrite Hf.
Qed.

(** ** Identifiers and strings *)

Lemma symbol_lexed c name rest : is_symbol_head_ele c = true ->
  forallb is_symbol_ele name = true -> starts_with is_symbol_ele rest = false ->
  match_simple simple_tokens (c :: name ++ rest) = None ->
  FromChars (c :: name ++ rest) =
    Done (if decide (rest = []) then None
          else Some (CreateSymbol (Z.of_nat (S (length name)))
                       (String.string_of_list_ascii (c :: name)))).
Proof.
  intros Hc Hn Hr Hm; unfold FromChars.
  assert (Hsc : scan is_symbol_ele (name ++ rest) = length name).
  { clear Hm; induction name as [|d name IH]; cbn [app scan forallb length] in *.
    - destruct rest as [|d rest]; [reflexivity|]; cbn [scan starts_with] in *; now rewrite Hr.
    - apply andb_true_iff in Hn as [-> Hn]; now rewrite IH. }
  assert (Hskip : endl_from_chars (c :: name ++ rest) = None /\ is_blank c = false /\
    is_digit c = false /\ (code c =? code QUOTE) = false).
  { destruct c as [[] [] [] [] [] [] [] []]; try discriminate Hc; repeat split. }
  destruct Hskip as (-> & -> & Hd & Hq); rewrite Hm.
  assert (Hi : int_from_chars (c :: name ++ rest) = Done None)
    by (unfold int_from_chars; cbn [int_loop]; rewrite Hd; reflexivity).
  unfold float_from_chars; rewrite Hi, !outcome_bind_ret_l; unfold str_from_chars; rewrite Hq.
  cbn [negb]; unfold symbol_from_chars; rewrite Hc; cbn [negb]; rewrite Hsc, length_app.
  destruct rest as [|d rest].
  - rewrite (decide_True _ _ eq_refl), decide_True by (simpl; lia); reflexivity.
  - rewrite !decide_False by (discriminate || (simpl; lia)); do 3 f_equal; simpl.
    now rewrite take_app_length.
Qed.

(** A quote starts a string, whatever is in it; there are no escapes. *)
Lemma str_lexed cs rest : forallb (fun c => negb (code c =? code QUOTE)) cs = true ->
  FromChars (QUOTE :: cs ++ QUOTE :: rest) =
    Done (Some (CreateStr (Z.of_nat (length cs) + 2) (String.string_of_list_ascii cs))).
Proof.
  intros Hcs; unfold FromChars.
  change (endl_from_chars (QUOTE :: cs ++ QUOTE :: rest)) with (@None Value).
  change (is_blank QUOTE) with false.
  change (match_simple simple_tokens (QUOTE :: cs ++ QUOTE :: rest)) with (@None Value); cbv iota.
  change (float_from_chars (QUOTE :: cs ++ QUOTE :: rest)) with (Done (@None Value)).
  change (int_from_chars (QUOTE :: cs ++ QUOTE :: rest)) with (Done (@None Value)).
  rewrite !outcome_bind_ret_l; unfold str_from_chars; rewrite Z.eqb_refl; cbn [negb].
  rewrite scan_app; [|now apply Forall_forall; intros c Hc; apply (proj1 (forallb_forall _ _) Hcs), list_elem_of_In|reflexivity].
  rewrite decide_False by (rewrite length_app; simpl; lia); now rewrite take_app_length.
Qed.

(** ** Simple tokens before a blank *)

Lemma blank_cases b : is_blank b = true -> b = " "%char \/ b = TAB.
Proof.
  unfold is_blank; rewrite orb_true_iff, !Z.eqb_eq; intros [H|H]; apply code_inj in H; auto.
Qed.

Definition blank_free (s : string) : bool :=
  forallb (fun c => negb (is_blank c)) (String.list_ascii_of_string s).

Lemma is_match_blank l cs b rest : blank_free l = true -> is_blank b = true ->
  is_match l (cs ++ b :: rest) = is_match l cs.
Proof.
  intros Hl Hb; revert cs; induction l as [|a l IH]; intros cs; [reflexivity|].
  unfold blank_free in Hl; cbn [String.list_ascii_of_string forallb] in Hl.
  apply andb_true_iff in Hl as [Ha Hl].
  destruct cs as [|c cs]; cbn [app is_match]; [|now rewrite IH].
  destruct (Z.eqb_spec (code b) (code a)) as [E|]; [|reflexivity].
  apply code_inj in E; subst b; now rewrite Hb in Ha.
Qed.

Lemma match_simple_blank cs b rest : is_blank b = true ->
  match_simple simple_tokens (cs ++ b :: rest) = match_simple simple_tokens cs.
Proof.
  intros Hb; assert (Ht : forallb (fun p => blank_free p.1) simple_tokens = true)
    by (vm_compute; reflexivity).
  induction simple_tokens as [|[l t] table IH]; [reflexivity|]; cbn [forallb fst match_simple] in *.
  apply andb_true_iff in Ht as [Hl Ht]; rewrite is_match_blank, IH by assumption; reflexivity.
Qed.

Lemma length_text s : length (String.list_ascii_of_string s) = String.length s.
Proof. induction s; simpl; congruence. Qed.

(** Each simple token is the first of the table that matches its text. *)
Definition simple_first (p : string * Type_) : bool :=
  match match_simple simple_tokens (String.list_ascii_of_string p.1) with
  | Some v => bool_decide (type_ v = p.2) && (len_ v =? Z.of_nat (String.length p.1))
  | None => false
  end &&
  match String.list_ascii_of_string p.1 with
  | c :: _ => negb (is_blank c) && negb (code c =? code CR) && negb (code c =? code LF)
  | [] => false
  end.

Lemma simple_tokens_first : forallb simple_first simple_tokens = true.
Proof. vm_compute; reflexivity. Qed.

Lemma simple_lexed l t b rest : In (l, t) simple_tokens -> is_blank b = true ->
  FromChars (String.list_ascii_of_string l ++ b :: rest) =
    Done (Some (Value_make t (Z.of_nat (String.length l)))).
Proof.
  intros Hin Hb; pose proof (proj1 (forallb_forall _ _) simple_tokens_first _ Hin) as H.
  unfold simple_first in H; cbn [fst snd] in H; apply andb_true_iff in H as [Hm Hc].
  pose proof (match_simple_blank (String.list_ascii_of_string l) b rest Hb) as Hmb.
  destruct (match_simple simple_tokens (String.list_ascii_of_string l)) as [v|] eqn:E; [|discriminate].
  apply andb_true_iff in Hm as [Ht%bool_decide_eq_true Hl%Z.eqb_eq].
  apply match_simple_spec in E as (l' & t' & _ & -> & _); cbn [type_ len_ Value_make] in Ht, Hl.
  rewrite Ht, Hl in Hmb.
  destruct (String.list_ascii_of_string l) as [|c cs]; [discriminate Hc|]; cbn [app] in *.
  rewrite !andb_true_iff in Hc; destruct Hc as [[Hc1 Hc2] Hc3].
  apply negb_true_iff in Hc1, Hc2, Hc3; unfold FromChars, endl_from_chars.
  now rewrite Hc1, Hc2, Hc3, Hmb.
Qed.

(** ** What spells a token, and layouts *)

(** [spells v cs]: the text [cs], when a blank follows it, is scanned as [v]. *)
Inductive spells : Value -> list ascii -> Prop :=
  | spells_simple l t : In (l, t) simple_tokens ->
      spells (Value_make t (Z.of_nat (String.length l))) (String.list_ascii_of_string l)
  | spells_newline : spells (Value_make Enl 1) [LF]
  | spells_int ds : ds <> [] -> forallb is_digit ds = true -> decimal ds <= INT_MAX ->
      spells (CreateInt (Z.of_nat (length ds)) (decimal ds)) ds
  | spells_float ds es : ds <> [] -> forallb is_digit ds = true -> decimal ds <= INT_MAX ->
      es <> [] -> forallb is_digit es = true -> decimal es <= INT_MAX ->
      spells (CreateFloat (Z.of_nat (length ds) + Z.of_nat (length es) + 1) (float_value ds es))
        (ds ++ "."%char :: es)
  | spells_str cs : forallb (fun c => negb (code c =? code QUOTE)) cs = true ->
      spells (CreateStr (Z.of_nat (length cs) + 2) (String.string_of_list_ascii cs))
        (QUOTE :: cs ++ [QUOTE])
  | spells_symbol c name : is_symbol_head_ele c = true -> forallb is_symbol_ele name = true ->
      match_simple simple_tokens (c :: name) = None ->
      spells (CreateSymbol (Z.of_nat (S (length name))) (String.string_of_list_ascii (c :: name)))
        (c :: name).

Lemma spells_lexed v cs b rest : spells v cs -> is_blank b = true ->
  FromChars (cs ++ b :: rest) = Done (Some v).
Proof.
  intros Hs Hb; destruct Hs as [l t Hin| |ds Hne Hds Hd|ds es Hne Hds Hd Hne' Hes He|cs Hcs|c name Hc Hn Hm].
  - now apply simple_lexed.
  - destruct (blank_cases b Hb) as [-> | ->]; reflexivity.
  - rewrite int_lexed, (proj2 (Z.leb_le _ _) Hd) by
      (assumption || destruct (blank_cases b Hb) as [-> | ->]; reflexivity); reflexivity.
  - rewrite <- app_assoc; cbn [app]; apply float_lexed; try assumption.
    destruct (blank_cases b Hb) as [-> | ->]; reflexivity.
  - cbn [app]; rewrite <- app_assoc; now apply str_lexed.
  - pose proof (match_simple_blank (c :: name) b rest Hb) as Hmb; rewrite Hm in Hmb.
    cbn [app] in *; rewrite symbol_lexed; [now rewrite decide_False by discriminate|..]; try assumption.
    destruct (blank_cases b Hb) as [-> | ->]; reflexivity.
Qed.

Lemma spells_type v cs : spells v cs -> type_ v <> Enf /\ type_ v <> Space /\ len_ v = Z.of_nat (length cs).
Proof.
  destruct 1 as [l t Hin| | | | |]; cbn [type_ len_ Value_make CreateInt CreateFloat CreateStr CreateSymbol];
    [|split_and!; try discriminate; rewrite ?length_app; simpl; rewrite ?length_app; simpl; lia..].
  pose proof (proj1 (forallb_forall _ _) simple_tokens_ok _ Hin) as Hok.
  unfold simple_ok in Hok; rewrite !andb_true_iff, !bool_decide_eq_true in Hok; cbn [fst snd] in Hok.
  split_and!; [apply Hok..|]; now rewrite length_text.
Qed.

Lemma spells_nonempty v cs : spells v cs -> cs <> [].
Proof.
  destruct 1 as [l t Hin| |ds Hne|ds es Hne| |]; try discriminate; [|exact Hne|now destruct ds].
  pose proof (proj1 (forallb_forall _ _) simple_tokens_ok _ Hin) as Hok.
  unfold simple_ok in Hok; rewrite !andb_true_iff, Nat.leb_le in Hok; cbn [fst] in Hok.
  destruct l; simpl in *; [lia|discriminate].
Qed.

(** [spaced ts src]: the source is the texts of the tokens, each followed by at
    least one blank. *)
Inductive spaced : list Value -> list ascii -> Prop :=
  | spaced_end : spaced [Value_make Enf 0] []
  | spaced_cons v cs b bs ts src : spells v cs -> is_blank b = true -> forallb is_blank bs = true ->
      spaced ts src -> spaced (v :: ts) (cs ++ b :: bs ++ src).
