(* ===== verification/TokenStream.v ===== *)
(** * TokenStream: a backtracking stream of tokens over the source bytes
    (src/src/token_stream.h, src/src/token_stream.cpp)

    The stream caches the last token it scanned under the position it was
    scanned at; the state a guard saves and restores is the position, the
    location and the last token, not the cache. *)

From S2P Require Import Prelude Machine Common Token.
Import token.

(** [TokenStream::State] *)
Record State : Set := mkState { pos : Z; loc_ : Loc; last_tk : Value }.

Definition State_init : State := mkState 0 Loc_default (Value_make Enf 0).

Record TokenStream : Set := mkStream {
  cache_ : option Value;
  cache_key_ : Z;
  src_ : list ascii;
  state_ : State;
}.

(** [TokenStream(std::vector<uint8_t>&& src)] *)
Definition TokenStream_make (src : list ascii) : TokenStream :=
  mkStream None (-1) src State_init.

Definition loc (s : TokenStream) : Loc := loc_ (state_ s).
Definition state (s : TokenStream) : State := state_ s.

(** [Load(State)]: the cache stays as it is. *)
Definition load (st : State) (s : TokenStream) : TokenStream :=
  mkStream (cache_ s) (cache_key_ s) (src_ s) st.

Definition set_loc (l : Loc) (s : TokenStream) : TokenStream :=
  load (mkState (pos (state_ s)) l (last_tk (state_ s))) s.
Definition set_pos (p : Z) (s : TokenStream) : TokenStream :=
  load (mkState p (loc_ (state_ s)) (last_tk (state_ s))) s.
Definition set_last_tk (v : Value) (s : TokenStream) : TokenStream :=
  load (mkState (pos (state_ s)) (loc_ (state_ s)) v) s.

(** The bytes from the current position on. *)
Definition rest (s : TokenStream) : list ascii := drop (Z.to_nat (pos (state_ s))) (src_ s).

(** Where a token that starts at [l] ends. *)
Definition advance (l : Loc) (v : Value) : Loc :=
  if decide (type_ v = Enl) then mkLoc (line l + 1) 1
  else mkLoc (line l) (coloum l + len_ v).

Definition locate (l : Loc) (v : Value) : Value := with_span l (advance l v) v.

(** [Peek()].  On a cache miss the value returned is the one scanned, before the
    cached copy gets its location.  When nothing can be scanned the assignment to
    [cache_->start] dereferences the disengaged cache. *)
Definition Peek (s : TokenStream) : outcome (option Value * TokenStream) :=
  if cache_key_ s =? pos (state_ s) then Done (cache_ s, s)
  else
    v ← FromChars (rest s);
    c ← deref EmptyOptional v;
    Done (v, mkStream (Some (locate (loc s) c)) (pos (state_ s)) (src_ s) (state_ s)).

(** The [while (true)] of [Next()]: step over the current token, then over
    white space. *)
Fixpoint Next_loop (fuel : nat) (s : TokenStream) : outcome TokenStream :=
  match fuel with
  | O => OutOfFuel
  | S k =>
      '(v, s) ← Peek s;
      v ← deref EmptyOptional v;
      let s := set_loc (end_ v) s in
      '(v, s) ← Peek s;
      v ← deref EmptyOptional v;
      let s := set_pos (pos (state_ s) + len_ v) s in
      '(_, s) ← Peek s;
      '(v, s) ← Peek s;
      match v with
      | None => Done s
      | Some _ =>
          '(v, s) ← Peek s;
          v ← deref EmptyOptional v;
          if decide (type_ v = Space) then Next_loop k s else Done s
      end
  end.

(** Two rounds of the loop are enough: white space is scanned to its end, so the
    token after it is not white space ([Next_no_fuel] below). *)
Definition Next (s : TokenStream) : outcome TokenStream :=
  '(v, s) ← Peek s;
  s ← match v with
      | Some _ =>
          '(v, s) ← Peek s;
          v ← deref EmptyOptional v;
          Done (set_last_tk v s)
      | None => Done s
      end;
  Next_loop 2 s.

(** [StateGuard] *)
Record StateGuard : Set := mkGuard { g_state : State; cancel_reload_ : bool }.

Definition StateGuard_make (s : TokenStream) : StateGuard := mkGuard (state s) false.

(** [finish(start, end)]: the span to report, and the guard that no longer
    restores. *)
Definition guard_finish (g : StateGuard) (s : TokenStream) : (Loc * Loc) * StateGuard :=
  ((loc_ (g_state g), loc_ (state s)), mkGuard (g_state g) true).

(** [~StateGuard()] *)
Definition guard_drop (g : StateGuard) (s : TokenStream) : TokenStream :=
  if cancel_reload_ g then s else load (g_state g) s.

(** [debug()]: the tokens up to the end or to what cannot be scanned. *)
Fixpoint debug_loop (fuel : nat) (s : TokenStream) (res : string)
    : outcome (string * TokenStream) :=
  match fuel with
  | O => OutOfFuel
  | S k =>
      '(tk, s) ← Peek s;
      match tk with
      | None => Done (res, s)
      | Some tk =>
          if decide (type_ tk = Enf) then Done (res, s)
          else
            '(v, s) ← Peek s;
            v ← deref EmptyOptional v;
            s ← Next s;
            debug_loop k s (res +:+ token.debug v)
      end
  end.

Definition stream_debug (s : TokenStream) : outcome (string * TokenStream) :=
  let g := StateGuard_make s in
  '(res, s) ← debug_loop (S (length (src_ s))) s "";
  Done (res, guard_drop g s).

(** ** The positions the stream can be at *)

(** [chain src p l]: scanning from the start of the source, some token starts at
    offset [p] and location [l]. *)
Inductive chain (src : list ascii) : Z -> Loc -> Prop :=
  | chain_start : chain src 0 Loc_default
  | chain_step p l v :
      chain src p l ->
      FromChars (drop (Z.to_nat p) src) = Done (Some v) ->
      chain src (p + len_ v) (advance l v).

(** What [Peek] scans at an offset; it never comes back with nothing. *)
Definition scan_at (src : list ascii) (p : Z) : outcome (option Value) :=
  o ← FromChars (drop (Z.to_nat p) src); v ← deref EmptyOptional o; Done (Some v).

(** Well-formed streams: the state is on the chain, and the cache holds what a
    scan at its key gives. *)
Definition coherent (s : TokenStream) : Prop :=
  0 <= cache_key_ s ->
  exists l o, chain (src_ s) (cache_key_ s) l /\
    scan_at (src_ s) (cache_key_ s) = Done o /\ cache_ s = locate l <$> o.

Definition wf (s : TokenStream) : Prop :=
  chain (src_ s) (pos (state_ s)) (loc s) /\ coherent s.

(** The bytes that are left. *)
Definition remaining (s : TokenStream) : Z := Z.of_nat (length (src_ s)) - pos (state_ s).

(** Sources on which every scan succeeds. *)
Definition lexable (src : list ascii) : Prop :=
  forall p l, chain src p l ->
  exists v, FromChars (drop (Z.to_nat p) src) = Done (Some v).

(** The token at the current position, as a scan gives it. *)
Definition scanned (s : TokenStream) : outcome (option Value) :=
  scan_at (src_ s) (pos (state_ s)).

(** Two tokens that differ at most in their location. *)
Definition same_token (v w : Value) : Prop := with_span Loc_default Loc_default v = with_span Loc_default Loc_default w.

(** ** Lemmas *)

Lemma scan_at_done src p o : scan_at src p = Done o <->
  exists v, o = Some v /\ FromChars (drop (Z.to_nat p) src) = Done (Some v).
Proof.
  unfold scan_at; destruct (FromChars _) as [[v|]| | |]; simpl; split;
    try discriminate; try (now intros (w & _ & [=])).
  - intros [= <-]; eauto.
  - now intros (w & -> & [= ->]).
Qed.

Lemma scan_at_some src p v :
  scan_at src p = Done (Some v) <-> FromChars (drop (Z.to_nat p) src) = Done (Some v).
Proof.
  rewrite scan_at_done; split; [now intros (w & [= ->] & ?)|eauto].
Qed.

Lemma scan_lexeme src p v : scan_at src p = Done (Some v) -> lexeme (drop (Z.to_nat p) src) v.
Proof. rewrite scan_at_some; apply FromChars_lexeme. Qed.

Lemma chain_scan src p l v : chain src p l -> scan_at src p = Done (Some v) ->
  chain src (p + len_ v) (advance l v).
Proof. rewrite scan_at_some; apply chain_step. Qed.

Lemma chain_bounds src p l : chain src p l -> 0 <= p <= Z.of_nat (length src).
Proof.
  induction 1 as [|p l v _ IH Hv]; [lia|].
  apply FromChars_lexeme in Hv as (_ & _ & [(_ & _ & ->)|(_ & _ & Hl)]); [lia|].
  rewrite length_drop in Hl; lia.
Qed.

Lemma advance_empty l v : type_ v = Enf -> len_ v = 0 -> advance l v = l.
Proof.
  intros Ht Hl; unfold advance; rewrite Ht, Hl; simpl; destruct l; simpl; f_equal; lia.
Qed.

(** The chain as a sequence, to compare two of its elements. *)
Fixpoint walk (src : list ascii) (n : nat) : option (Z * Loc) :=
  match n with
  | O => Some (0, Loc_default)
  | S k =>
      '(p, l) ← walk src k;
      match FromChars (drop (Z.to_nat p) src) with
      | Done (Some v) => Some (p + len_ v, advance l v)
      | _ => None
      end
  end.

Lemma chain_walk src p l : chain src p l -> exists n, walk src n = Some (p, l).
Proof.
  induction 1 as [|p l v _ [n Hn] Hv]; [now exists O|].
  exists (S n); simpl; rewrite Hn; simpl; now rewrite Hv.
Qed.

Lemma walk_chain src n p l : walk src n = Some (p, l) -> chain src p l.
Proof.
  revert p l; induction n as [|n IH]; simpl; intros p l H; [injection H as <- <-; constructor|].
  destruct (walk src n) as [[q k]|]; simpl in H; [|discriminate].
  repeat case_match; try discriminate; simplify_eq; constructor; auto.
Qed.

Lemma walk_mono src n p l q k :
  walk src n = Some (p, l) -> walk src (S n) = Some (q, k) ->
  p < q \/ p = q /\ l = k /\ p = Z.of_nat (length src).
Proof.
  intros Hn H; pose proof (chain_bounds _ _ _ (walk_chain _ _ _ _ Hn)).
  simpl in H; rewrite Hn in H; simpl in H.
  destruct (FromChars _) as [[v|]| | |] eqn:E; try discriminate; injection H as <- <-.
  apply FromChars_lexeme in E as (_ & _ & [(Hd & Ht & Hl)|(Hd & _ & Hl)]); [right|left; lia].
  rewrite advance_empty by assumption; split_and!; auto; [lia|].
  apply (f_equal length) in Hd; rewrite length_drop in Hd; simpl in Hd; lia.
Qed.

Lemma walk_mono_le src n d p l q k :
  walk src n = Some (p, l) -> walk src (d + n) = Some (q, k) ->
  (p < q) \/ (p = q /\ l = k).
Proof.
  intros Hn; revert q k; induction d as [|d IH]; intros q k H.
  - simpl in H; rewrite Hn in H; injection H as <- <-; auto.
  - destruct (walk src (d + n)) as [[q' k']|] eqn:E; [|simpl in H; now rewrite E in H].
    destruct (walk_mono _ _ _ _ _ _ E H) as [|(? & ? & ?)];
      destruct (IH _ _ eq_refl) as [|[? ?]]; subst; auto; left; lia.
Qed.

(** A position on the chain determines the location. *)
Lemma chain_unique src p l l' : chain src p l -> chain src p l' -> l = l'.
Proof.
  intros [n Hn]%chain_walk [m Hm]%chain_walk.
  destruct (Nat.le_ge_cases n m) as [Hle|Hle].
  - replace m with ((m - n) + n)%nat in Hm by lia.
    destruct (walk_mono_le _ _ _ _ _ _ _ Hn Hm) as [|[_ ?]]; [lia|auto].
  - replace n with ((n - m) + m)%nat in Hn by lia.
    destruct (walk_mono_le _ _ _ _ _ _ _ Hm Hn) as [|[_ ?]]; [lia|auto].
Qed.

Lemma wf_make src : wf (TokenStream_make src).
Proof. split; [constructor|]; intros H; simpl in H; lia. Qed.

Lemma remaining_nonneg s : wf s -> 0 <= remaining s.
Proof. intros [H _]; apply chain_bounds in H; unfold remaining; lia. Qed.

Lemma wf_pos s : wf s -> 0 <= pos (state_ s) <= Z.of_nat (length (src_ s)).
Proof. intros [H _]; exact (chain_bounds _ _ _ H). Qed.

Lemma same_token_locate l v : same_token (locate l v) v.
Proof. reflexivity. Qed.

Lemma same_token_type v w : same_token v w -> type_ v = type_ w.
Proof. now intros [= ]. Qed.

(** ** Peek and Next against their cache-free specification *)

(** The stream after a scan at its position gave [o]. *)
Definition warmed (s : TokenStream) (o : option Value) : TokenStream :=
  mkStream (locate (loc s) <$> o) (pos (state_ s)) (src_ s) (state_ s).

(** What [Next] does to the state, without the cache. *)
Definition next_state (s : TokenStream) : outcome State :=
  o ← scanned s;
  v ← deref EmptyOptional o;
  let p := pos (state_ s) + len_ v in
  let l := advance (loc s) v in
  o ← scan_at (src_ s) p;
  match o with
  | Some w =>
      if decide (type_ w = Space) then
        _ ← scan_at (src_ s) (p + len_ w);
        Done (mkState (p + len_ w) (advance l w) (locate (loc s) v))
      else Done (mkState p l (locate (loc s) v))
  | None => Done (mkState p l (locate (loc s) v))
  end.

Lemma warmed_id s : wf s -> cache_key_ s = pos (state_ s) ->
  exists o, scanned s = Done o /\ s = warmed s o.
Proof.
  intros [Hc Hcoh] Hk; pose proof (chain_bounds _ _ _ Hc).
  destruct Hcoh as (l & o & Hl & Ho & Hv); [lia|]; rewrite Hk in *.
  exists o; split; [exact Ho|]; unfold warmed.
  rewrite <- (chain_unique _ _ _ _ Hl Hc), <- Hv, <- Hk; now destruct s.
Qed.

Lemma wf_warmed s o :
  chain (src_ s) (pos (state_ s)) (loc s) -> scanned s = Done o -> wf (warmed s o).
Proof. intros Hc Ho; split; [exact Hc|]; intros _; exists (loc s), o; auto. Qed.

(** On a cache miss [Peek] returns the token without its location, on a hit with
    it; the stream afterwards is the same. *)
Lemma Peek_wf s : wf s ->
  Peek s = o ← scanned s;
           Done (if cache_key_ s =? pos (state_ s) then locate (loc s) <$> o else o,
                 warmed s o).
Proof.
  intros Hwf; unfold Peek; destruct (Z.eqb_spec (cache_key_ s) (pos (state_ s))) as [E|E].
  - destruct (warmed_id s Hwf E) as (o & -> & Hs); simpl.
    rewrite Hs at 1 2; reflexivity.
  - unfold scanned, scan_at; fold (rest s); destruct (FromChars (rest s)) as [[v|]| | |]; reflexivity.
Qed.

Lemma Peek_warmed s o : Peek (warmed s o) = Done (locate (loc s) <$> o, warmed s o).
Proof. unfold Peek, warmed; simpl; now rewrite Z.eqb_refl. Qed.

Lemma Peek_cold s :
  (cache_key_ s =? pos (state_ s)) = false ->
  Peek s = o ← scanned s; Done (o, warmed s o).
Proof.
  unfold Peek; intros ->; unfold scanned, scan_at; fold (rest s).
  destruct (FromChars (rest s)) as [[v|]| | |]; reflexivity.
Qed.

Lemma space_not_enf cs v : FromChars cs = Done (Some v) -> type_ v = Space -> 1 <= len_ v.
Proof.
  intros Hv Ht; apply FromChars_lexeme in Hv as (_ & _ & [(_ & He & _)|(_ & _ & ?)]); [congruence|lia].
Qed.

(** After white space comes something else. *)
Lemma space_once src p v w :
  0 <= p -> scan_at src p = Done (Some v) -> type_ v = Space ->
  scan_at src (p + len_ v) = Done (Some w) -> type_ w <> Space.
Proof.
  rewrite !scan_at_some; intros Hp Hv Ht Hw Hs.
  pose proof (space_not_enf _ _ Hv Ht).
  pose proof (FromChars_space _ _ Hv Ht) as Hb; rewrite drop_drop in Hb.
  replace (Z.to_nat p + Z.to_nat (len_ v))%nat with (Z.to_nat (p + len_ v)) in Hb by lia.
  pose proof (FromChars_blank _ _ Hw Hs) as Hb'.
  destruct (drop (Z.to_nat (p + len_ v)) src); [done|congruence].
Qed.

(** One round of the loop of [Next], from a scanned token. *)
Definition step_over (s : TokenStream) (v : Value) : TokenStream :=
  load (mkState (pos (state_ s) + len_ v) (advance (loc s) v) (last_tk (state_ s))) s.

Lemma Next_loop_step k s v :
  1 <= len_ v ->
  Next_loop (S k) (warmed s (Some v)) =
    o ← scan_at (src_ s) (pos (state_ s) + len_ v);
    let s' := warmed (step_over s v) o in
    match o with
    | Some w => if decide (type_ w = Space) then Next_loop k s' else Done s'
    | None => Done s'
    end.
Proof.
  intros Hl; cbn [Next_loop]; rewrite Peek_warmed; cbn [fmap option_fmap option_map].
  rewrite outcome_bind_ret_l; cbn [deref]; rewrite outcome_bind_ret_l; cbv zeta.
  set (s1 := set_loc _ _).
  assert (H1 : Peek s1 = Done (Some (locate (loc s) v), s1)).
  { subst s1; unfold Peek; simpl; now rewrite Z.eqb_refl. }
  rewrite H1, outcome_bind_ret_l; cbn [deref]; rewrite outcome_bind_ret_l.
  set (s2 := set_pos _ _).
  assert (H2 : Peek s2 = o ← scan_at (src_ s) (pos (state_ s) + len_ v);
                         Done (o, warmed (step_over s v) o)).
  { rewrite Peek_cold; [reflexivity|].
    subst s2 s1; simpl; apply Z.eqb_neq; lia. }
  rewrite H2; destruct (scan_at _ _) as [o| | |]; [|reflexivity..].
  rewrite !outcome_bind_ret_l, Peek_warmed, outcome_bind_ret_l.
  destruct o as [w|]; [|reflexivity]; simpl.
  rewrite Peek_warmed; reflexivity.
Qed.

(** At the end of the input the loop stays where it is. *)
Lemma Next_loop_end k s v :
  type_ v = Enf -> len_ v = 0 ->
  Next_loop (S k) (warmed s (Some v)) = Done (warmed s (Some v)).
Proof.
  intros Ht Hl; cbn [Next_loop]; rewrite Peek_warmed; cbn [fmap option_fmap option_map].
  rewrite outcome_bind_ret_l; cbn [deref]; rewrite outcome_bind_ret_l; cbv zeta.
  assert (H1 : set_loc (end_ (locate (loc s) v)) (warmed s (Some v)) = warmed s (Some v)).
  { unfold set_loc, load, warmed; simpl; rewrite advance_empty by assumption.
    unfold loc; destruct s as [? ? ? []]; reflexivity. }
  rewrite H1, Peek_warmed; cbn [fmap option_fmap option_map].
  rewrite outcome_bind_ret_l; cbn [deref]; rewrite outcome_bind_ret_l; cbv zeta.
  assert (H2 : set_pos (pos (state_ (warmed s (Some v))) + len_ (locate (loc s) v))
                 (warmed s (Some v)) = warmed s (Some v)).
  { unfold set_pos, load, warmed; simpl; rewrite Hl, Z.add_0_r.
    unfold loc; destruct s as [? ? ? []]; reflexivity. }
  rewrite H2, !Peek_warmed; cbn [fmap option_fmap option_map].
  rewrite outcome_bind_ret_l; cbv beta iota.
  rewrite Peek_warmed, !outcome_bind_ret_l; cbn [fmap option_fmap option_map].
  rewrite Peek_warmed, !outcome_bind_ret_l; cbn [deref fmap option_fmap option_map].
  rewrite outcome_bind_ret_l; simpl type_; rewrite Ht; reflexivity.
Qed.

Lemma set_last_tk_warmed v s o :
  set_last_tk v (warmed s o) = warmed (set_last_tk v s) o.
Proof. reflexivity. Qed.

(** [Next] is its cache-free specification: same result, same faults; it leaves
    the cache filled at the new position. *)
Lemma Next_next_state s : wf s ->
  Next s = st ← next_state s;
           o ← scan_at (src_ s) (pos st);
           Done (warmed (load st s) o).
Proof.
  intros Hwf; pose proof (wf_pos _ Hwf) as Hpos.
  unfold Next, next_state; rewrite Peek_wf by assumption.
  destruct (scanned s) as [[v|]| | |] eqn:Hs; [| |reflexivity..].
  2: { rewrite !outcome_bind_ret_l.
       destruct (cache_key_ s =? pos (state_ s)); cbn [fmap option_fmap option_map];
         rewrite outcome_bind_ret_l; cbn [Next_loop]; rewrite Peek_warmed; reflexivity. }
  rewrite !outcome_bind_ret_l.
  transitivity (Next_loop 2 (warmed (set_last_tk (locate (loc s) v) s) (Some v))).
  { destruct (cache_key_ s =? pos (state_ s)); cbn [fmap option_fmap option_map];
      rewrite Peek_warmed; reflexivity. }
  cbn [deref]; rewrite outcome_bind_ret_l; cbv zeta.
  destruct (scan_lexeme _ _ _ Hs) as (_ & _ & [(Hd & Ht & Hl)|(Hd & Ht & Hl)]).
  - assert (Hp : scan_at (src_ s) (pos (state_ s) + len_ v) = Done (Some v))
      by (rewrite Hl, Z.add_0_r; exact Hs).
    rewrite (Next_loop_end _ (set_last_tk _ s)) by assumption.
    rewrite Hp, outcome_bind_ret_l; cbv beta iota.
    rewrite decide_False, outcome_bind_ret_l by (rewrite Ht; discriminate).
    simpl pos; rewrite Hp, outcome_bind_ret_l; repeat f_equal.
    unfold warmed, load; simpl; rewrite Hl, Z.add_0_r, advance_empty by assumption.
    reflexivity.
  - rewrite Next_loop_step by lia; simpl src_; simpl pos.
    destruct (scan_at (src_ s) (pos (state_ s) + len_ v)) as [[w|]| | |] eqn:Hw; [| |reflexivity..].
    + rewrite !outcome_bind_ret_l; cbv beta iota zeta.
      destruct (decide (type_ w = Space)) as [Hsp|Hsp].
      * rewrite Next_loop_step by (eapply space_not_enf; [apply scan_at_some|]; eauto).
        simpl src_; simpl pos.
        destruct (scan_at (src_ s) (pos (state_ s) + len_ v + len_ w)) as [o| | |] eqn:Ho;
          [|reflexivity..].
        rewrite !outcome_bind_ret_l; simpl pos; rewrite Ho, outcome_bind_ret_l.
        destruct o as [x|]; [|reflexivity]; rewrite decide_False; [reflexivity|].
        eapply space_once; [|exact Hw| |exact Ho]; [lia|assumption].
      * rewrite outcome_bind_ret_l; simpl pos; rewrite Hw; reflexivity.
    + rewrite !outcome_bind_ret_l; simpl pos; rewrite Hw; reflexivity.
Qed.

(** Where [Next] can take the stream. *)
Lemma next_state_spec s st :
  wf s -> next_state s = Done st ->
  exists v o, scanned s = Done (Some v) /\ chain (src_ s) (pos st) (loc_ st) /\
    scan_at (src_ s) (pos st) = Done o /\
    (forall w, o = Some w -> type_ w <> Space \/ type_ v = Enf) /\
    last_tk st = locate (loc s) v /\
    (type_ v = Enf /\ pos st = pos (state_ s) /\ loc_ st = loc s \/
     type_ v <> Enf /\ pos (state_ s) < pos st).
Proof.
  intros Hwf H; pose proof (wf_pos _ Hwf) as Hpos; destruct Hwf as [Hc _].
  unfold next_state in H.
  destruct (scanned s) as [[v|]| | |] eqn:Hs; try discriminate H.
  rewrite outcome_bind_ret_l in H; cbn [deref] in H; rewrite outcome_bind_ret_l in H.
  cbv zeta in H; pose proof (chain_scan _ _ _ _ Hc Hs) as Hc1.
  exists v; destruct (scan_lexeme _ _ _ Hs) as (_ & _ & Hcase).
  destruct (scan_at (src_ s) (pos (state_ s) + len_ v)) as [[w|]| | |] eqn:Hw;
    try discriminate H; rewrite outcome_bind_ret_l in H; cbv beta iota in H.
  - destruct (decide (type_ w = Space)) as [Hsp|Hsp].
    + destruct (scan_at _ (_ + len_ w)) as [o| | |] eqn:Ho; try discriminate H.
      injection H as <-; exists o; simpl; split_and!; auto.
      * exact (chain_scan _ _ _ _ Hc1 Hw).
      * intros x ->; left; eapply space_once; [|exact Hw|exact Hsp|exact Ho].
        destruct Hcase as [(_ & _ & ?)|(_ & _ & ?)]; lia.
      * pose proof (space_not_enf _ _ (proj1 (scan_at_some _ _ _) Hw) Hsp).
        destruct Hcase as [(Hd & Ht & Hl)|(_ & ? & ?)]; [|right; split; [assumption|lia]].
        exfalso; rewrite Hl, Z.add_0_r in Hw; unfold scanned in Hs; congruence.
    + injection H as <-; exists (Some w); simpl; split_and!; auto.
      * intros ? [= <-]; auto.
      * destruct Hcase as [(Hd & Ht & Hl)|(_ & ? & ?)]; [left|right; split; [assumption|lia]].
        rewrite Hl, advance_empty by assumption; split_and!; auto; lia.
  - injection H as <-; exists None; simpl; split_and!; auto; try discriminate.
    destruct Hcase as [(Hd & Ht & Hl)|(_ & ? & ?)]; [left|right; split; [assumption|lia]].
    rewrite Hl, advance_empty by assumption; split_and!; auto; lia.
Qed.

(** ** Rules for reasoning about clients of the stream *)

(** A stream that was moved or scanned but reads the same source. *)
Definition same_src (s s' : TokenStream) : Prop := src_ s' = src_ s.

Definition peeked (s : TokenStream) (o : option Value) (s' : TokenStream) : Prop :=
  wf s' /\ state_ s' = state_ s /\ src_ s' = src_ s /\ cache_key_ s' = pos (state_ s) /\
  exists o', scanned s = Done o' /\ (o = o' \/ o = locate (loc s) <$> o').

Lemma scan_wpo src p l : chain src p l ->
  wpo (~ lexable src) False (scan_at src p)
    (fun o => scan_at src p = Done o /\ (o = None -> ~ lexable src)).
Proof.
  intros Hc; destruct (scan_at src p) as [o|f|w|] eqn:E; simpl.
  - split; [reflexivity|]; apply scan_at_done in E as (v & -> & _); discriminate.
  - intros HL; destruct (HL _ _ Hc) as [v Hv]; apply scan_at_some in Hv; congruence.
  - unfold scan_at in E; destruct (FromChars_total (drop (Z.to_nat p) src)) as [E'|[[o|] E']];
      rewrite E' in E; discriminate.
  - unfold scan_at in E; destruct (FromChars_total (drop (Z.to_nat p) src)) as [E'|[[o|] E']];
      rewrite E' in E; discriminate.
Qed.

Lemma Peek_wpo s : wf s ->
  wpo (~ lexable (src_ s)) False (Peek s)
    (fun '(o, s') => peeked s o s' /\ (o = None -> ~ lexable (src_ s))).
Proof.
  intros Hwf; rewrite Peek_wf by assumption; apply wpo_bind.
  eapply wpo_mono; [exact (scan_wpo _ _ _ (proj1 Hwf))|done..|].
  intros o [Ho Hn]; simpl; split.
  - split; [apply wf_warmed; [apply Hwf|exact Ho]|]; split_and!; auto.
    exists o; split; [exact Ho|]; destruct (_ =? _); auto.
  - intros E; apply Hn; destruct o; [|reflexivity]; destruct (_ =? _); discriminate.
Qed.

Definition nexted (s s' : TokenStream) : Prop :=
  wf s' /\ src_ s' = src_ s /\ cache_key_ s' = pos (state_ s') /\
  exists v, scanned s = Done (Some v) /\
    (type_ v = Enf /\ pos (state_ s') = pos (state_ s) /\ loc s' = loc s \/
     type_ v <> Enf /\ remaining s' < remaining s).

Lemma Next_wpo s : wf s ->
  wpo (~ lexable (src_ s)) False (Next s) (nexted s).
Proof.
  intros Hwf; pose proof Hwf as [Hc _]; rewrite Next_next_state by assumption.
  apply wpo_bind; assert (Hns : wpo (~ lexable (src_ s)) False (next_state s)
    (fun st => next_state s = Done st)).
  { unfold next_state; apply wpo_bind.
    eapply wpo_mono; [exact (scan_wpo _ _ _ Hc)|done..|].
    intros [v|] [Hv Hn]; [|simpl; auto]; cbn [deref]; rewrite outcome_bind_ret_l; cbv zeta.
    pose proof (chain_scan _ _ _ _ Hc Hv) as Hc1; apply wpo_bind.
    eapply wpo_mono; [exact (scan_wpo _ _ _ Hc1)|done..|].
    intros [w|] [Hw Hn']; simpl; unfold scanned; rewrite Hv, outcome_bind_ret_l;
      cbn [deref]; rewrite outcome_bind_ret_l; cbv zeta; rewrite Hw, outcome_bind_ret_l;
      [|reflexivity].
    destruct (decide (type_ w = Space)); [|reflexivity]; apply wpo_bind.
    eapply wpo_mono; [exact (scan_wpo _ _ _ (chain_scan _ _ _ _ Hc1 Hw))|done..|].
    intros o [Ho _]; simpl; rewrite Ho; reflexivity. }
  eapply wpo_mono; [exact Hns|done..|]; intros st Hst.
  destruct (next_state_spec _ _ Hwf Hst) as (v & o & Hv & Hc' & Ho & _ & _ & Hcase).
  rewrite Ho, outcome_bind_ret_l; simpl; split_and!; auto.
  - now apply wf_warmed.
  - exists v; split; [exact Hv|]; destruct Hcase as [(? & ? & ?)|[? ?]]; [left|right].
    + split_and!; auto.
    + split; [assumption|]; unfold remaining; simpl; lia.
Qed.

(** The loop of [Next] needs no more than its two rounds. *)
Lemma Next_no_fuel s : wf s -> Next s <> OutOfFuel.
Proof. intros Hwf; exact (wpo_fuel _ _ _ _ (Next_wpo s Hwf)). Qed.
