(* ===== verification/Locations.v ===== *)
(** * Locations: lines and columns, byte by byte

    The stream moves its location token by token: by the length of a token, or to the
    next line after an end of line.  The specification reads the bytes of the source
    and knows no tokens: a line break is a CR, an LF, or both in this order, except
    inside a string, where every byte counts as a column. *)

From S2P Require Import Prelude Machine Common Token Lexemes TokenStream.
Import token.

(** ** The specification *)

(** Inside a string; the last byte was a CR, which an LF may follow; the location. *)
Definition text_state : Set := bool * bool * Loc.

Definition columns (l : Loc) (n : Z) : Loc := mkLoc (line l) (coloum l + n).
Definition break_line (l : Loc) : Loc := mkLoc (line l + 1) 1.

Definition text_step (s : text_state) (c : ascii) : text_state :=
  let '(quoted, cr, l) := s in
  if code c =? code QUOTE then (negb quoted, false, columns l 1)
  else if quoted then (true, false, columns l 1)
  else if code c =? code CR then (false, true, break_line l)
  else if code c =? code LF then (false, false, if cr then l else break_line l)
  else (false, false, columns l 1).

(** The location after the given bytes of a source. *)
Definition text_location (cs : list ascii) : Loc :=
  (fold_left text_step cs (false, false, Loc_default)).2.

(** ** The bytes of tokens *)

(** Neither a quote nor part of a line break. *)
Definition plain (c : ascii) : bool :=
  negb (code c =? code QUOTE) && negb (code c =? code CR) && negb (code c =? code LF).

Lemma plain_between lo hi c : between lo hi c = true ->
  code hi < code LF \/ code QUOTE < code lo \/ code CR < code lo /\ code hi < code QUOTE ->
  plain c = true.
Proof.
  unfold between, plain; rewrite andb_true_iff, !Z.leb_le.
  change (code QUOTE) with 34; change (code CR) with 13; change (code LF) with 10; intros [H1 H2] H.
  rewrite !andb_true_iff, !negb_true_iff, !Z.eqb_neq; lia.
Qed.

Lemma plain_digit c : is_digit c = true -> plain c = true.
Proof. intros H; apply (plain_between _ _ _ H); vm_compute; auto. Qed.

Lemma plain_one d c : (code c =? code d) = true -> plain d = true -> plain c = true.
Proof. intros H%Z.eqb_eq; now rewrite (code_inj _ _ H). Qed.

Lemma plain_blank c : is_blank c = true -> plain c = true.
Proof. unfold is_blank; intros [H|H]%orb_true_iff; now apply (plain_one _ _ H). Qed.

Lemma plain_symbol c : is_symbol_ele c = true -> plain c = true.
Proof.
  unfold is_symbol_ele, is_symbol_head_ele.
  intros [[[H|H]%orb_true_iff|H]%orb_true_iff|H]%orb_true_iff.
  - apply (plain_between _ _ _ H); vm_compute; auto.
  - apply (plain_between _ _ _ H); vm_compute; auto.
  - now apply (plain_one _ _ H).
  - now apply plain_digit.
Qed.

(** The text [l] at the start of the input. *)
Lemma is_match_take l cs : is_match l cs = true ->
  take (String.length l) cs = String.list_ascii_of_string l.
Proof.
  revert cs; induction l as [|a l IH]; intros [|c cs] H; try discriminate; [reflexivity..|].
  cbn [is_match] in H; apply andb_true_iff in H as [H1%Z.eqb_eq%code_inj H2]; subst; simpl.
  now rewrite IH.
Qed.

Lemma simple_plain cs v : match_simple simple_tokens cs = Some v ->
  Forall (fun c => plain c = true) (take (Z.to_nat (len_ v)) cs).
Proof.
  intros (l & t & Hin & -> & Hm%is_match_take)%match_simple_spec; simpl; rewrite Nat2Z.id, Hm.
  assert (Hall : forallb (fun p => forallb plain (String.list_ascii_of_string p.1)) simple_tokens = true)
    by (vm_compute; reflexivity).
  rewrite forallb_forall in Hall; specialize (Hall _ Hin); simpl in Hall.
  apply Forall_forall; intros c Hc%list_elem_of_In; exact (proj1 (forallb_forall _ _) Hall c Hc).
Qed.

Lemma scan_plain p cs : (forall c, p c = true -> plain c = true) ->
  Forall (fun c => plain c = true) (take (scan p cs) cs).
Proof. intros Hp; eapply Forall_impl; [exact (scan_all p cs)|exact Hp]. Qed.

Lemma int_plain cs v : int_from_chars cs = Done (Some v) ->
  Forall (fun c => plain c = true) (take (Z.to_nat (len_ v)) cs).
Proof.
  intros [-> _]%int_from_chars_spec; simpl; rewrite Nat2Z.id; apply scan_plain, plain_digit.
Qed.

Lemma float_plain cs v : float_from_chars cs = Done (Some v) ->
  Forall (fun c => plain c = true) (take (Z.to_nat (len_ v)) cs).
Proof.
  unfold float_from_chars; intros ([n1|] & H1 & H)%outcome_bind_done; [|discriminate].
  destruct (drop (Z.to_nat (len_ n1)) cs) as [|d r] eqn:Ed; [discriminate|].
  destruct (code d =? code ".") eqn:Edot; [|discriminate]; cbn [negb] in H.
  apply outcome_bind_done in H as ([n2|] & H2 & [= <-]); cbn [CreateFloat len_].
  pose proof (int_from_chars_spec _ _ H1) as [E1 _]; pose proof (int_from_chars_spec _ _ H2) as [E2 _].
  replace (Z.to_nat (len_ n1 + len_ n2 + 1)) with (Z.to_nat (len_ n1) + S (Z.to_nat (len_ n2)))%nat
    by (rewrite E1, E2; simpl; lia).
  rewrite <- take_take_drop, Ed; apply Forall_app; split; [now apply int_plain|]; simpl.
  constructor; [now apply (plain_one _ _ Edot)|now apply int_plain].
Qed.

Lemma symbol_plain cs v : symbol_from_chars cs = Some v ->
  Forall (fun c => plain c = true) (take (Z.to_nat (len_ v)) cs).
Proof.
  unfold symbol_from_chars; destruct cs as [|c r]; [discriminate|].
  destruct (is_symbol_head_ele c) eqn:Eh; [|discriminate]; cbn [negb]; case_decide; [discriminate|].
  intros [= <-]; cbn [CreateSymbol len_]; rewrite Nat2Z.id; cbn [take]; constructor.
  - apply plain_symbol; unfold is_symbol_ele; now rewrite Eh.
  - apply scan_plain, plain_symbol.
Qed.

(** ** The walk over one token *)

Lemma walk_plain cs : Forall (fun c => plain c = true) cs -> forall l b, cs <> [] ->
  fold_left text_step cs (false, b, l) = (false, false, columns l (Z.of_nat (length cs))).
Proof.
  induction 1 as [|c cs Hc Hcs IH]; intros l b Hne; [congruence|]; cbn [fold_left].
  assert (E : text_step (false, b, l) c = (false, false, columns l 1)).
  { unfold plain in Hc; apply andb_true_iff in Hc as [[H1%negb_true_iff H2%negb_true_iff]%andb_true_iff H3%negb_true_iff].
    unfold text_step; now rewrite H1, H2, H3. }
  rewrite E; destruct cs as [|d cs]; [reflexivity|]; rewrite IH by discriminate.
  unfold columns; simpl; do 2 f_equal; lia.
Qed.

Lemma walk_string cs l : Forall (fun c => negb (code c =? code QUOTE) = true) cs ->
  fold_left text_step cs (true, false, l) = (true, false, columns l (Z.of_nat (length cs))).
Proof.
  intros H; revert l; induction H as [|c cs Hc _ IH]; intros l; cbn [fold_left].
  { unfold columns; destruct l; simpl; do 2 f_equal; lia. }
  apply negb_true_iff in Hc; unfold text_step at 2; rewrite Hc, IH; unfold columns; simpl; do 2 f_equal; lia.
Qed.

(** The bytes of a token other than the end of input: whether the byte before was a CR
    matters only if the token starts with an LF. *)
Definition starts_with_lf (cs : list ascii) : bool :=
  match cs with c :: _ => code c =? code LF | [] => false end.

Definition walked (cs : list ascii) (v : Value) : Prop := forall l b, b && starts_with_lf cs = false ->
  exists b', fold_left text_step (take (Z.to_nat (len_ v)) cs) (false, b, l) = (false, b', advance l v) /\
    b' && starts_with_lf (drop (Z.to_nat (len_ v)) cs) = false.

Lemma walked_plain cs v : lexeme cs v -> cs <> [] -> type_ v <> Enl ->
  Forall (fun c => plain c = true) (take (Z.to_nat (len_ v)) cs) -> walked cs v.
Proof.
  intros (_ & _ & [(-> & _)|(_ & _ & Hl)]) Hne Ht Hp l b _; [congruence|]; exists false; split; [|reflexivity].
  rewrite walk_plain; [|exact Hp|].
  - rewrite length_take_le by lia; unfold advance; rewrite decide_False by exact Ht.
    unfold columns; now rewrite Z2Nat.id by lia.
  - intros E; apply (f_equal length) in E; rewrite length_take_le in E by lia; simpl in E; lia.
Qed.

Lemma walked_endl cs v : endl_from_chars cs = Some v -> walked cs v.
Proof.
  unfold endl_from_chars; destruct cs as [|c r]; [discriminate|].
  destruct (code c =? code CR) eqn:Ec; cbn [andb orb].
  - apply Z.eqb_eq, code_inj in Ec as ->; destruct (starts_with_lf r) eqn:Er.
    + destruct r as [|d r]; [discriminate|]; cbn [starts_with_lf] in Er; rewrite Er.
      apply Z.eqb_eq, code_inj in Er as ->; intros [= <-] l b _; exists false; now split.
    + intros H; assert (Hv : v = Value_make Enl 1); [|clear H; subst v].
      { destruct r as [|d r]; [now injection H|]; cbn [starts_with_lf] in Er; rewrite Er in H; now injection H. }
      intros l b _; exists true; split; [reflexivity|]; exact Er.
  - destruct (code c =? code LF) eqn:El; [|discriminate]; intros [= <-] l b Hb; exists false; split; [|reflexivity].
    cbn [starts_with_lf] in Hb; rewrite El, andb_true_r in Hb; subst b.
    apply Z.eqb_eq, code_inj in El as ->; reflexivity.
Qed.

Lemma walked_str cs v : str_from_chars cs = Some v -> walked cs v.
Proof.
  unfold str_from_chars; destruct cs as [|c r]; [discriminate|].
  destruct (code c =? code QUOTE) eqn:Ec; [|discriminate]; cbn [negb]; case_decide as Hn; [discriminate|].
  set (p := fun d => negb (code d =? code QUOTE)) in *; pose proof (scan_le p r) as Hle.
  destruct (drop (scan p r) r) as [|d r'] eqn:Ed.
  { apply (f_equal length) in Ed; rewrite length_drop in Ed; simpl in Ed; lia. }
  pose proof (scan_stop p r d r' Ed) as Hd; unfold p in Hd; apply negb_false_iff in Hd.
  intros [= <-] l b _; exists false; split; [|reflexivity]; cbn [CreateStr len_].
  replace (Z.to_nat (Z.of_nat (scan p r) + 2)) with (S (scan p r + 1)) by lia; cbn [take fold_left].
  assert (E : text_step (false, b, l) c = (true, false, columns l 1)) by (unfold text_step; now rewrite Ec).
  rewrite E, <- take_take_drop, fold_left_app, Ed, (walk_string _ _ (scan_all p r)), length_take_le by exact Hle.
  cbn [take fold_left text_step]; rewrite Hd; unfold advance, columns; cbn -[Z.of_nat].
  rewrite take_0, decide_False by discriminate; cbn [fold_left]; do 2 f_equal; lia.
Qed.

Lemma FromChars_walked cs v : cs <> [] -> FromChars cs = Done (Some v) -> walked cs v.
Proof.
  intros Hne H; pose proof (FromChars_lexeme _ _ H) as Hlex; destruct cs as [|c r]; [congruence|].
  unfold FromChars in H; destruct (endl_from_chars (c :: r)) eqn:E1.
  { injection H as <-; now apply walked_endl. }
  destruct (is_blank c) eqn:Eb.
  { injection H as <-; apply (walked_plain _ _ Hlex); [discriminate..|]; cbn [Value_make len_].
    replace (Z.to_nat (1 + Z.of_nat (scan is_blank r))) with (S (scan is_blank r)) by lia; cbn [take].
    constructor; [now apply plain_blank|apply scan_plain, plain_blank]. }
  destruct (match_simple simple_tokens (c :: r)) eqn:E2.
  { injection H as <-; apply (walked_plain _ _ Hlex Hne); [|now apply simple_plain].
    now apply match_simple_lexeme in E2 as (_ & _ & ?). }
  apply outcome_bind_done in H as ([w|] & Hf & H).
  { injection H as <-; apply (walked_plain _ _ Hlex Hne); [|now apply float_plain].
    apply float_lexeme in Hf as [_ ->]; discriminate. }
  apply outcome_bind_done in H as ([w|] & Hi & H).
  { injection H as <-; apply (walked_plain _ _ Hlex Hne); [|now apply int_plain].
    apply int_lexeme in Hi as [_ ->]; discriminate. }
  destruct (str_from_chars (c :: r)) eqn:Es; [injection H as <-; now apply walked_str|].
  injection H as Hs; apply (walked_plain _ _ Hlex Hne); [|now apply symbol_plain].
  apply symbol_lexeme in Hs as [_ ->]; discriminate.
Qed.

(** ** The stream *)

(** Between two tokens: outside strings, and not inside a CR LF. *)
Lemma chain_location src p l : chain src p l ->
  exists b, fold_left text_step (take (Z.to_nat p) src) (false, false, Loc_default) = (false, b, l) /\
    b && starts_with_lf (drop (Z.to_nat p) src) = false.
Proof.
  induction 1 as [|p l v Hc (b & IH & Hb) Hv]; [exists false; now split|].
  pose proof (chain_bounds _ _ _ Hc) as Hp; destruct (decide (drop (Z.to_nat p) src = [])) as [E|E].
  - rewrite E in Hv; injection Hv as <-; cbn [Value_make len_]; rewrite Z.add_0_r, advance_empty by reflexivity.
    exists b; now split.
  - destruct (FromChars_walked _ _ E Hv l b Hb) as (b' & Hw & Hb').
    apply FromChars_lexeme in Hv as (_ & _ & [(? & _)|(_ & _ & Hl)]); [congruence|].
    exists b'; rewrite Z2Nat.inj_add, <- take_take_drop, fold_left_app, IH by lia; split; [exact Hw|].
    now rewrite drop_drop in Hb'.
Qed.

Lemma stream_location s : wf s -> loc s = text_location (take (Z.to_nat (pos (state_ s))) (src_ s)).
Proof. intros [(b & H & _)%chain_location _]; unfold text_location; now rewrite H. Qed.

(** The token that [Next] stepped over is where its bytes are. *)
Lemma last_token_location s s' : wf s -> Next s = Done s' ->
  let v := last_tk (state_ s') in
  start v = loc s /\ end_ v = text_location (take (Z.to_nat (pos (state_ s) + len_ v)) (src_ s)).
Proof.
  intros Hwf H; rewrite Next_next_state in H by exact Hwf; apply outcome_bind_done in H as (st & Hst & H).
  apply outcome_bind_done in H as (o & _ & [= <-]); cbn.
  destruct (next_state_spec _ _ Hwf Hst) as (v & _ & Hv & _ & _ & _ & -> & _); split; [reflexivity|].
  destruct Hwf as [Hc _]; pose proof (chain_scan _ _ _ _ Hc Hv) as Hc'; cbn.
  apply chain_location in Hc' as (b & E & _); unfold text_location; now rewrite E.
Qed.
