(* ===== verification/Ast.v ===== *)
(** * Ast: the syntax tree, parse errors and results (src/src/ast.h)

    [NodePtr<T>] (a unique pointer) is the node itself, and [option] where the
    code lets it be null.  The classes whose members hold a [Block] are
    parameterised by the node type, which ties the knot in [Node]. *)

From S2P Require Import Prelude Machine Common Token.
Import token.

#[local] Set Warnings "-register-all".

Definition nl : string := String LF "".

(** ** Errors and results *)

(** [Err]: a stack of messages; a fatal error stops the parse of a block. *)
Record Err : Type := mkErr { err_stack_ : list (Loc * string); is_fatal_ : bool }.

Definition Err_empty : Err := mkErr [] false.
Definition Err_make (l : Loc) (msg : string) : Err := mkErr [(l, msg)] false.
Definition Err_Append (old : Err) (l : Loc) (msg : string) : Err :=
  mkErr (err_stack_ old ++ [(l, msg)]) (is_fatal_ old).
Definition Err_Fatal (l : Loc) (msg : string) : Err := mkErr [(l, msg)] true.
Definition Err_isFatal (e : Err) : bool := is_fatal_ e.
Definition setFatal (e : Err) : Err := mkErr (err_stack_ e) true.
Definition depth (e : Err) : Z := Z.of_nat (length (err_stack_ e)).

Definition Err_toString (e : Err) : string :=
  foldl (fun res s => (res +:+ Loc_ToString s.1 +:+ s.2 +:+ nl)%string)
    ("----backtrace-----" +:+ nl)%string (err_stack_ e).

Definition Err_top (e : Err) : outcome (Loc * string) :=
  _ ← assert_ (0 <? depth e) "err_stack_.size() > 0";
  deref OutOfBounds (last (err_stack_ e)).

(** [Result<T>]: a value ([isOk]), or else the error. *)
Inductive Result (T : Type) : Type :=
  | Ok (value : T)
  | Error (err : Err).
Arguments Ok {T} value.
Arguments Error {T} err.

Definition isOk {T} (r : Result T) : bool := match r with Ok _ => true | Error _ => false end.
Definition isErr {T} (r : Result T) : bool := negb (isOk r).
Definition isFatal {T} (r : Result T) : bool :=
  match r with Ok _ => false | Error e => Err_isFatal e end.

(** ** Nodes *)

Inductive ExprType : Set := TOKEN | OPS | FUNCALL.

#[export] Instance ExprType_eq_dec : EqDecision ExprType.
Proof. solve_decision. Defined.

(** [Expr]: a token, a chain of operands and operators, or a call (function
    name first).  Members that a kind does not use keep their defaults. *)
Inductive Expr : Set := mkExpr {
  e_start : Loc;
  e_end : Loc;
  etype_ : ExprType;
  v : Value;
  exprs : list Expr;
  ops : list Type_;
}.

Definition MakeAtomic (t : Value) : Expr :=
  mkExpr Loc_default Loc_default TOKEN t [] [].
Definition Expr_make (t : ExprType) (es : list Expr) (os : list Type_) : Expr :=
  mkExpr Loc_default Loc_default t Value_default es os.

(** [Struct]; [size_] is never set. *)
Record Struct : Set := mkStruct {
  s_start : Loc; s_end : Loc;
  name_ : string;
  fields_ : list (string * string);
}.

(** [VarType]: a struct, or a named type (the empty name when none is given). *)
Record VarType : Set := mkVarType {
  vt_start : Loc; vt_end : Loc;
  is_struct_ : bool;
  stct_ : option Struct;
  vt_name_ : string;
}.

Definition VarType_make : VarType := mkVarType Loc_default Loc_default false None "".

Definition asStruct (t : VarType) : outcome Struct :=
  match stct_ t with Some s => Done s | None => Abort "stct_ != nullptr" end.

Record Declaration : Set := mkDeclaration {
  d_start : Loc; d_end : Loc;
  d_var_name : string;
  var_type : option VarType;
  d_expr : Expr;
}.

Record Assignment : Set := mkAssignment {
  a_start : Loc; a_end : Loc;
  a_var_name : string;
  a_expr : Expr;
}.

Record Return_ : Set := mkReturn { r_start : Loc; r_end : Loc; ret_exprs : list Expr }.

Record Typedef_ : Set := mkTypedef {
  td_start : Loc; td_end : Loc;
  new_name_ : string;
  old_type_ : VarType;
}.

Record Block_of (N : Set) : Set := mkBlock { b_start : Loc; b_end : Loc; nodes_ : list N }.
Arguments mkBlock {N}.
Arguments b_start {N}.
Arguments b_end {N}.
Arguments nodes_ {N}.

Record Function_of (N : Set) : Set := mkFunction {
  f_start : Loc; f_end : Loc;
  func_name : string;
  args : list (string * string);
  returns : list string;
  f_block : Block_of N;
}.
Arguments mkFunction {N}.
Arguments f_start {N}.
Arguments f_end {N}.
Arguments func_name {N}.
Arguments args {N}.
Arguments returns {N}.
Arguments f_block {N}.

Record If_of (N : Set) : Set := mkIf {
  if_start : Loc; if_end : Loc;
  branches_ : list (Expr * Block_of N);
  tail_else_ : option (Block_of N);
}.
Arguments mkIf {N}.
Arguments if_start {N}.
Arguments if_end {N}.
Arguments branches_ {N}.
Arguments tail_else_ {N}.

Record For_of (N : Set) : Set := mkFor {
  for_start : Loc; for_end : Loc;
  init_stmt_ : option Declaration;
  finish_cond_ : option Expr;
  step_stmp_ : option Assignment;
  for_block_ : Block_of N;
}.
Arguments mkFor {N}.
Arguments for_start {N}.
Arguments for_end {N}.
Arguments init_stmt_ {N}.
Arguments finish_cond_ {N}.
Arguments step_stmp_ {N}.
Arguments for_block_ {N}.

(** The statements a block can hold. *)
Inductive Node : Set :=
  | NDeclaration (d : Declaration)
  | NAssignment (a : Assignment)
  | NExpr (e : Expr)
  | NIf (i : If_of Node)
  | NFunction (f : Function_of Node)
  | NReturn (r : Return_)
  | NFor (f : For_of Node)
  | NTypedef (t : Typedef_).

Abbreviation Block := (Block_of Node).
Abbreviation Function_ := (Function_of Node).
Abbreviation If_ := (If_of Node).
Abbreviation For_ := (For_of Node).

Record Root : Set := mkRoot { root_start : Loc; root_end : Loc; block_ : Block }.

Definition nodes (r : Root) : list Node := nodes_ (block_ r).

(** ** Spans: what every node has, and what a guard sets *)

Class Located (T : Type) : Type := {
  span : T -> Loc * Loc;
  set_span : Loc -> Loc -> T -> T;
  span_set : forall a b t, span (set_span a b t) = (a, b);
}.

#[export] Instance Expr_located : Located Expr := {
  span e := (e_start e, e_end e);
  set_span a b e := mkExpr a b (etype_ e) (v e) (exprs e) (ops e);
  span_set a b e := eq_refl;
}.
#[export] Instance Struct_located : Located Struct := {
  span e := (s_start e, s_end e);
  set_span a b e := mkStruct a b (name_ e) (fields_ e);
  span_set a b e := eq_refl;
}.
#[export] Instance VarType_located : Located VarType := {
  span e := (vt_start e, vt_end e);
  set_span a b e := mkVarType a b (is_struct_ e) (stct_ e) (vt_name_ e);
  span_set a b e := eq_refl;
}.
#[export] Instance Declaration_located : Located Declaration := {
  span e := (d_start e, d_end e);
  set_span a b e := mkDeclaration a b (d_var_name e) (var_type e) (d_expr e);
  span_set a b e := eq_refl;
}.
#[export] Instance Assignment_located : Located Assignment := {
  span e := (a_start e, a_end e);
  set_span a b e := mkAssignment a b (a_var_name e) (a_expr e);
  span_set a b e := eq_refl;
}.
#[export] Instance Return_located : Located Return_ := {
  span e := (r_start e, r_end e);
  set_span a b e := mkReturn a b (ret_exprs e);
  span_set a b e := eq_refl;
}.
#[export] Instance Typedef_located : Located Typedef_ := {
  span e := (td_start e, td_end e);
  set_span a b e := mkTypedef a b (new_name_ e) (old_type_ e);
  span_set a b e := eq_refl;
}.
#[export] Instance Block_located : Located Block := {
  span e := (b_start e, b_end e);
  set_span a b e := mkBlock a b (nodes_ e);
  span_set a b e := eq_refl;
}.
#[export] Instance Function_located : Located Function_ := {
  span e := (f_start e, f_end e);
  set_span a b e := mkFunction a b (func_name e) (args e) (returns e) (f_block e);
  span_set a b e := eq_refl;
}.
#[export] Instance If_located : Located If_ := {
  span e := (if_start e, if_end e);
  set_span a b e := mkIf a b (branches_ e) (tail_else_ e);
  span_set a b e := eq_refl;
}.
#[export] Instance For_located : Located For_ := {
  span e := (for_start e, for_end e);
  set_span a b e := mkFor a b (init_stmt_ e) (finish_cond_ e) (step_stmp_ e) (for_block_ e);
  span_set a b e := eq_refl;
}.
#[export] Instance Root_located : Located Root := {
  span e := (root_start e, root_end e);
  set_span a b e := mkRoot a b (block_ e);
  span_set a b e := eq_refl;
}.

Definition node_span (n : Node) : Loc * Loc :=
  match n with
  | NDeclaration d => span d
  | NAssignment a => span a
  | NExpr e => span e
  | NIf i => span i
  | NFunction f => span f
  | NReturn r => span r
  | NFor f => span f
  | NTypedef t => span t
  end.

(** ** Debug output *)

Definition concat_map {A} (f : A -> string) (l : list A) : string :=
  String.concat "" (map f l).

(** The operands with the operators between them; an operator without a
    following operand is printed too, as the loop of the code does. *)
Fixpoint interleave (es : list string) (os : list Type_) : string :=
  match es with
  | [] => ""
  | e :: es =>
      (e +:+ match os with
             | o :: os => debug_type o +:+ interleave es os
             | [] => interleave es []
             end)%string
  end.

Fixpoint Expr_debug (e : Expr) : string :=
  match etype_ e with
  | TOKEN => token.debug (v e)
  | FUNCALL => ("(funcall: " +:+ concat_map Expr_debug (exprs e) +:+ ")")%string
  | OPS => ("(" +:+ interleave (map Expr_debug (exprs e)) (ops e) +:+ ")")%string
  end.

Definition Struct_debug (s : Struct) : string :=
  ("Struct:" +:+ nl +:+
   concat_map (fun f => f.1 +:+ " " +:+ f.2 +:+ nl)%string (fields_ s))%string.

Definition VarType_debug (t : VarType) : string :=
  ("VarType(" +:+
   (if is_struct_ t then match stct_ t with Some s => Struct_debug s | None => "" end
    else vt_name_ t) +:+ ")")%string.

Definition Declaration_debug (d : Declaration) : string :=
  ("Declaration: " +:+ d_var_name d +:+ " " +:+
   match var_type d with Some t => VarType_debug t | None => "" end +:+
   Expr_debug (d_expr d))%string.

Definition Assignment_debug (a : Assignment) : string :=
  ("Assignment:" +:+ a_var_name a +:+ " " +:+ Expr_debug (a_expr a))%string.

Definition Return_debug (r : Return_) : string :=
  ("Return" +:+ nl +:+ concat_map Expr_debug (ret_exprs r))%string.

Definition Typedef_debug (t : Typedef_) : string :=
  ("Typedef" +:+ nl +:+ VarType_debug (old_type_ t) +:+ " " +:+ new_name_ t)%string.

Section Debug.
Variable node_debug : Node -> string.

Definition Block_debug_with (b : Block) : string :=
  concat_map (fun n => node_debug n +:+ nl)%string (nodes_ b).

Definition Function_debug_with (f : Function_) : string :=
  ("Function:{" +:+ nl +:+
   concat_map (fun p => "arg " +:+ p.1 +:+ " " +:+ p.2 +:+ nl)%string (args f) +:+
   concat_map (fun r => "return " +:+ r +:+ nl)%string (returns f) +:+
   Block_debug_with (f_block f) +:+ "}" +:+ nl)%string.

Definition If_debug_with (i : If_) : string :=
  ("If:" +:+ nl +:+
   concat_map (fun b => Expr_debug b.1 +:+ nl +:+ Block_debug_with b.2)%string (branches_ i) +:+
   match tail_else_ i with Some b => Block_debug_with b | None => "" end)%string.

Definition For_debug_with (f : For_) : string :=
  ("For:" +:+ nl +:+
   "init_stmt " +:+
   match init_stmt_ f with Some d => Declaration_debug d +:+ nl | None => "" end +:+
   "finish_cond " +:+
   match finish_cond_ f with Some e => Expr_debug e +:+ nl | None => "" end +:+
   "step_stmp_ " +:+
   match step_stmp_ f with Some a => Assignment_debug a +:+ nl | None => "" end +:+
   Block_debug_with (for_block_ f))%string.
End Debug.

Fixpoint Node_debug (n : Node) : string :=
  match n with
  | NDeclaration d => Declaration_debug d
  | NAssignment a => Assignment_debug a
  | NExpr e => Expr_debug e
  | NIf i => If_debug_with Node_debug i
  | NFunction f => Function_debug_with Node_debug f
  | NReturn r => Return_debug r
  | NFor f => For_debug_with Node_debug f
  | NTypedef t => Typedef_debug t
  end.

Definition Block_debug : Block -> string := Block_debug_with Node_debug.
Definition Root_debug (r : Root) : string := Block_debug (block_ r).

(** ** Induction on expressions *)

Section ExprInduction.
Variable P : Expr -> Prop.
Hypothesis step : forall e, Forall P (exprs e) -> P e.

Fixpoint Expr_induction (e : Expr) : P e :=
  match e with
  | mkExpr s e t w es os =>
      step (mkExpr s e t w es os)
        ((fix go l : Forall P l :=
            match l with
            | [] => List.Forall_nil P
            | x :: l => List.Forall_cons P x l (Expr_induction x) (go l)
            end) es)
  end.
End ExprInduction.

(** ** Induction on statements *)

Definition children (n : Node) : list Node :=
  match n with
  | NIf i => mjoin (map (fun b => nodes_ b.2) (branches_ i)) ++
             match tail_else_ i with Some b => nodes_ b | None => [] end
  | NFunction f => nodes_ (f_block f)
  | NFor f => nodes_ (for_block_ f)
  | _ => []
  end.

Section NodeInduction.
Variable P : Node -> Prop.
Hypothesis step : forall n, Forall P (children n) -> P n.

Fixpoint Node_induction (n : Node) : P n :=
  let all := fix go (ns : list Node) : Forall P ns :=
    match ns with
    | [] => List.Forall_nil P
    | n :: ns => List.Forall_cons P n ns (Node_induction n) (go ns)
    end in
  let block (b : Block) : Forall P (nodes_ b) := match b with mkBlock _ _ ns => all ns end in
  step n
    match n return Forall P (children n) with
    | NIf (mkIf _ _ brs tail) =>
        proj2 (Forall_app P _ _)
          (conj
             ((fix go (brs : list (Expr * Block)) : Forall P (mjoin (map (fun b => nodes_ b.2) brs)) :=
                 match brs with
                 | [] => List.Forall_nil P
                 | (_, b) :: brs => proj2 (Forall_app P _ _) (conj (block b) (go brs))
                 end) brs)
             match tail return Forall P (match tail with Some b => nodes_ b | None => [] end) with
             | Some b => block b
             | None => List.Forall_nil P
             end)
    | NFunction (mkFunction _ _ _ _ _ b) => block b
    | NFor (mkFor _ _ _ _ _ b) => block b
    | _ => List.Forall_nil P
    end.
End NodeInduction.
