(* ===== verification/ParseMonad.v ===== *)
(** * ParseMonad: parse functions, guards and the EXPECT macros
    (src/src/ast.cpp, the macros and [StateGuard] uses)

    A parse function takes the stream and returns a [Result] and the stream.  A
    [return Err...] in the middle of one is the [Error] of the monad; a call
    whose [Result] the code inspects goes through [try_]. *)

From S2P Require Import Prelude Machine Common Token TokenStream Ast.
Import token.

Definition M (A : Type) : Type := TokenStream -> outcome (Result A * TokenStream).

#[export] Instance M_ret : MRet M := fun A a s => Done (Ok a, s).
#[export] Instance M_bind : MBind M := fun A B k m s =>
  '(r, s) ← m s;
  match r with
  | Ok a => k a s
  | Error e => Done (Error e, s)
  end.

Definition lift {A} (m : outcome A) : M A := fun s => a ← m; Done (Ok a, s).

Definition fail {A} (e : Err) : M A := fun s => Done (Error e, s).
(** [return Err(stream.loc(), msg)] *)
Definition err {A} (msg : string) : M A := fun s => Done (Error (Err_make (loc s) msg), s).
(** [return Err::Fatal(stream.loc(), msg)] *)
Definition fatal {A} (msg : string) : M A := fun s => Done (Error (Err_Fatal (loc s) msg), s).
(** [return Err::Append(e, stream.loc(), msg)] *)
Definition append_err {A} (e : Err) (msg : string) : M A := fun s =>
  Done (Error (Err_Append e (loc s) msg), s).

Definition get_loc : M Loc := fun s => Done (Ok (loc s), s).

(** The result of a parse function, as a value. *)
Definition try_ {A} (m : M A) : M (Result A) := fun s => '(r, s) ← m s; Done (Ok r, s).

Definition peek : M (option Value) := fun s => '(o, s) ← Peek s; Done (Ok o, s).
Definition next : M unit := fun s => s ← Next s; Done (Ok (), s).

(** [stream.Peek()->...]: undefined when there is no token. *)
Definition peek_value : M Value := o ← peek; lift (deref EmptyOptional o).
Definition peek_type : M Type_ := v ← peek_value; mret (type_ v).

(** [S.Peek() && S.Peek().value().type() == T] *)
Definition peek_is (t : Type_) : M bool :=
  o ← peek;
  match o with
  | None => mret false
  | Some _ => t' ← peek_type; mret (bool_decide (t' = t))
  end.

(** [TokenStream::StateGuard guard(stream); ...]: the body reports whether it
    called [guard.finish]; the state is restored when it did not. *)
Definition guarded_opt {A} `{Located A} (m : M (A * bool)) : M A := fun s =>
  let g := StateGuard_make s in
  '(r, s) ← m s;
  match r with
  | Ok (a, true) =>
      let '((start, end_), g) := guard_finish g s in
      Done (Ok (set_span start end_ a), guard_drop g s)
  | Ok (a, false) => Done (Ok a, guard_drop g s)
  | Error e => Done (Error e, guard_drop g s)
  end.

(** The common case: every successful path calls [guard.finish] on the node. *)
Definition guarded {A} `{Located A} (m : M A) : M A :=
  guarded_opt (a ← m; mret (a, true)).

(** ** The macros *)

Definition enumerator (t : Type_) : string :=
  match t with
  | Dot => "Dot" | At => "At" | Mygo => "Mygo" | Go => "Go" | Walrus => "Walrus"
  | And => "And" | Not => "Not" | Or => "Or" | True_ => "True" | False_ => "False"
  | Var => "Var" | Const => "Const" | token.Struct => "Struct" | For => "For"
  | If => "If" | Else => "Else" | Typedef => "Typedef" | Equal => "Equal"
  | Less => "Less" | Greater => "Greater" | Assign => "Assign" | Plus => "Plus"
  | Sub => "Sub" | Star => "Star" | Slash => "Slash" | Func => "Func"
  | Return => "Return" | LBrace => "LBrace" | RBrace => "RBrace"
  | LParent => "LParent" | RParent => "RParent" | Comma => "Comma"
  | Colon => "Colon" | Semicolon => "Semicolon" | Space => "Space" | Int => "Int"
  | Float => "Float" | Str => "Str" | Symbol => "Symbol" | Enl => "Enl" | Enf => "Enf"
  end.

(** [#T] for an argument [token::Type::T]. *)
Definition stringize (t : Type_) : string := ("token::Type::" +:+ enumerator t)%string.

Fixpoint SKIP_TOKEN (fuel : nat) (t : Type_) : M unit :=
  match fuel with
  | O => lift OutOfFuel
  | S k => b ← peek_is t; if b : bool then next ;; SKIP_TOKEN k t else mret ()
  end.

Definition SKIP_TOKEN_ONCE (t : Type_) : M unit :=
  b ← peek_is t; if b : bool then next else mret ().

(** The shape shared by the EXPECT macros: what to return when there is no
    token, what when it is another one; then step over it. *)
Definition expect_with (no_token wrong_token : M Value) (t : Type_) : M Value :=
  o ← peek;
  match o with
  | None => no_token
  | Some _ =>
      t' ← peek_type;
      if decide (t' = t) then v ← peek_value; next;; mret v else wrong_token
  end.

Definition EXPECT_GET_TOKEN (t : Type_) : M Value :=
  expect_with (err ("expect token but get null" +:+ stringize t)%string)
    (err ("expect token " +:+ stringize t)%string) t.
Definition EXPECT_GET_TOKEN_FATAL (t : Type_) : M Value :=
  expect_with (fatal ("expect token but get null" +:+ stringize t)%string)
    (fatal ("expect token " +:+ stringize t)%string) t.
Definition EXPECT_TOKEN (t : Type_) : M unit := EXPECT_GET_TOKEN t;; mret ().
Definition EXPECT_TOKEN_FATAL (t : Type_) : M unit := EXPECT_GET_TOKEN_FATAL t;; mret ().
Definition EXPECT_TOKEN_ERR (t : Type_) (msg : string) : M unit :=
  expect_with (err msg) (err msg) t;; mret ().

(** ** Lemmas: what a guard guarantees *)

Lemma guarded_opt_error {A} `{Located A} (m : M (A * bool)) s e s' :
  guarded_opt m s = Done (Error e, s') -> state_ s' = state_ s.
Proof.
  unfold guarded_opt; destruct (m s) as [[[[a []]|e'] s1]| | |]; simpl;
    try discriminate; now intros [= <- <-].
Qed.

Lemma guarded_error {A} `{Located A} (m : M A) s e s' :
  guarded m s = Done (Error e, s') -> state_ s' = state_ s.
Proof. apply guarded_opt_error. Qed.

Lemma guarded_span {A} `{Located A} (m : M A) s a s' :
  guarded m s = Done (Ok a, s') -> span a = (loc s, loc s').
Proof.
  unfold guarded, guarded_opt, mbind at 2, M_bind.
  destruct (m s) as [[[b|e'] s1]| | |]; simpl; try discriminate.
  intros [= <- <-]; apply span_set.
Qed.

(** ** Advancing parsers

    [adv s s']: from [s] a parser can get to [s'].  [tri m s P]: run from [s],
    [m] never runs out of fuel, is undefined only when the source cannot be
    scanned, only ever advances, and establishes [P] when it succeeds. *)

Definition adv (s s' : TokenStream) : Prop :=
  wf s' /\ src_ s' = src_ s /\ remaining s' <= remaining s.

Definition tri {A} (m : M A) (s : TokenStream) (P : A -> TokenStream -> Prop) : Prop :=
  wpo (~ lexable (src_ s)) Logic.True (m s)
    (fun '(r, s') => adv s s' /\ match r with Ok a => P a s' | Error _ => Logic.True end).

Lemma adv_refl s : wf s -> adv s s.
Proof. unfold adv; intuition lia. Qed.

Lemma adv_trans s1 s2 s3 : adv s1 s2 -> adv s2 s3 -> adv s1 s3.
Proof. unfold adv; intuition (congruence || lia). Qed.

Lemma tri_mono {A} (m : M A) s (P P' : A -> TokenStream -> Prop) :
  tri m s P -> (forall a s', adv s s' -> P a s' -> P' a s') -> tri m s P'.
Proof.
  intros Hm HP; eapply wpo_mono; [exact Hm|done..|].
  intros [[a|e] s'] [? ?]; auto.
Qed.

Lemma tri_bind {A B} (m : M A) (k : A -> M B) s P :
  tri m s (fun a s' => tri (k a) s' P) -> tri (m ≫= k) s P.
Proof.
  intros Hm; apply wpo_bind; eapply wpo_mono; [exact Hm|done..|].
  intros [[a|e] s'] [Hadv Hk]; [|simpl; auto].
  eapply wpo_mono; [exact Hk| |done|].
  - destruct Hadv as (_ & -> & _); auto.
  - intros [r s''] [? ?]; split; [eapply adv_trans; eassumption|assumption].
Qed.

Lemma tri_ret {A} (a : A) s (P : A -> TokenStream -> Prop) :
  wf s -> P a s -> tri (mret a) s P.
Proof. intros Hwf HP; split; [now apply adv_refl|exact HP]. Qed.

Lemma tri_fail {A} (e : Err) s (P : A -> TokenStream -> Prop) : wf s -> tri (fail e) s P.
Proof. intros Hwf; split; [now apply adv_refl|exact I]. Qed.
Lemma tri_err {A} msg s (P : A -> TokenStream -> Prop) : wf s -> tri (err msg) s P.
Proof. intros Hwf; split; [now apply adv_refl|exact I]. Qed.
Lemma tri_fatal {A} msg s (P : A -> TokenStream -> Prop) : wf s -> tri (fatal msg) s P.
Proof. intros Hwf; split; [now apply adv_refl|exact I]. Qed.
Lemma tri_append {A} e msg s (P : A -> TokenStream -> Prop) :
  wf s -> tri (append_err e msg) s P.
Proof. intros Hwf; split; [now apply adv_refl|exact I]. Qed.

Lemma tri_get_loc s (P : Loc -> TokenStream -> Prop) :
  wf s -> (forall l, P l s) -> tri get_loc s P.
Proof. intros Hwf HP; split; [now apply adv_refl|apply HP]. Qed.

Lemma tri_assert b text s (P : () -> TokenStream -> Prop) :
  wf s -> (b = true -> P () s) -> tri (lift (assert_ b text)) s P.
Proof.
  intros Hwf HP; unfold tri, lift; destruct b; simpl; [|exact I].
  split; [now apply adv_refl|now apply HP].
Qed.

(** A call whose result is inspected: either it advanced strictly or as its
    specification says, or it failed. *)
Lemma tri_try {A} (m : M A) s (P : A -> TokenStream -> Prop)
    (P' : Result A -> TokenStream -> Prop) :
  tri m s P ->
  (forall a s', adv s s' -> P a s' -> P' (Ok a) s') ->
  (forall e s', adv s s' -> P' (Error e) s') ->
  tri (try_ m) s P'.
Proof.
  intros Hm HO HE; apply wpo_bind; eapply wpo_mono; [exact Hm|done..|].
  intros [[a|e] s'] [Hadv Hk]; simpl; auto.
Qed.

(** The token just peeked at, up to its location. *)
Lemma tri_peek s (P : option Value -> TokenStream -> Prop) :
  wf s ->
  (forall o s', peeked s o s' -> adv s s' -> (o = None -> ~ lexable (src_ s)) -> P o s') ->
  tri peek s P.
Proof.
  intros Hwf HP; apply wpo_bind; eapply wpo_mono; [exact (Peek_wpo s Hwf)|done..|].
  intros [o s'] [Hp Hn]; simpl.
  assert (Hadv : adv s s').
  { destruct Hp as (? & Hst & Hsrc & _); split_and!; auto.
    unfold remaining; rewrite Hst, Hsrc; lia. }
  split; [exact Hadv|auto].
Qed.

Lemma tri_next s (P : () -> TokenStream -> Prop) :
  wf s -> (forall s', nexted s s' -> adv s s' -> P () s') -> tri next s P.
Proof.
  intros Hwf HP; apply wpo_bind; eapply wpo_mono; [exact (Next_wpo s Hwf)|done..|].
  intros s' Hn; simpl.
  assert (Hadv : adv s s').
  { destruct Hn as (? & Hsrc & _ & x & _ & Hc); split_and!; auto.
    destruct Hc as [(_ & Hp & _)|[_ ?]]; [|lia].
    unfold remaining; rewrite Hp, Hsrc; lia. }
  split; [exact Hadv|auto].
Qed.

Lemma wf_restore s s' : wf s -> wf s' -> src_ s' = src_ s -> wf (load (state_ s) s').
Proof.
  intros [Hc _] [_ Hcoh] Hsrc; split; [simpl; rewrite Hsrc; exact Hc|exact Hcoh].
Qed.

Lemma adv_restore s s' : wf s -> adv s s' -> adv s (load (state_ s) s').
Proof.
  intros Hwf (Hwf' & Hsrc & _); split_and!; [now apply wf_restore|exact Hsrc|].
  unfold remaining; simpl; rewrite Hsrc; lia.
Qed.

Lemma tri_guarded_opt {A} `{Located A} (m : M (A * bool)) s (P : A -> TokenStream -> Prop) :
  wf s ->
  tri m s (fun '(a, fin) s' =>
    if fin : bool then P (set_span (loc s) (loc s') a) s' else P a (load (state_ s) s')) ->
  tri (guarded_opt m) s P.
Proof.
  intros Hwf Hm; apply wpo_bind; eapply wpo_mono; [exact Hm|done..|].
  intros [[[a []]|e] s'] [Hadv Hk]; (split; [|exact Hk]).
  - exact Hadv.
  - now apply (adv_restore s s').
  - now apply (adv_restore s s').
Qed.

Lemma tri_guarded {A} `{Located A} (m : M A) s (P : A -> TokenStream -> Prop) :
  wf s -> tri m s (fun a s' => P (set_span (loc s) (loc s') a) s') ->
  tri (guarded m) s P.
Proof.
  intros Hwf Hm; apply tri_guarded_opt; [exact Hwf|]; apply tri_bind.
  eapply tri_mono; [exact Hm|]; intros a s' (Hwf' & _) Hk; now apply tri_ret.
Qed.

(** ** Rules for the macros *)

(** The token at the position of [s] has type [t]. *)
Definition at_type (s : TokenStream) (t : Type_) : Prop :=
  exists v, scanned s = Done (Some v) /\ type_ v = t.

(** Peeking leaves the stream at the same place. *)
Definition same_place (s s' : TokenStream) : Prop :=
  state_ s' = state_ s /\ src_ s' = src_ s.

Lemma same_place_scanned s s' : same_place s s' -> scanned s' = scanned s.
Proof. intros [Hst Hsrc]; unfold scanned, rest; now rewrite Hst, Hsrc. Qed.

Lemma same_place_remaining s s' : same_place s s' -> remaining s' = remaining s.
Proof. intros [Hst Hsrc]; unfold remaining; now rewrite Hst, Hsrc. Qed.

Lemma same_place_at s s' t : same_place s s' -> at_type s t -> at_type s' t.
Proof. intros Hs%same_place_scanned; unfold at_type; now rewrite Hs. Qed.

Lemma same_place_trans s1 s2 s3 : same_place s1 s2 -> same_place s2 s3 -> same_place s1 s3.
Proof. unfold same_place; intuition congruence. Qed.

Lemma peeked_same_place s o s' : peeked s o s' -> same_place s s'.
Proof. intros (_ & ? & ? & _); split; assumption. Qed.

Lemma peeked_type s v s' : peeked s (Some v) s' -> at_type s' (type_ v).
Proof.
  intros Hp; unfold at_type; rewrite (same_place_scanned _ _ (peeked_same_place _ _ _ Hp)).
  destruct Hp as (_ & _ & _ & _ & o & Ho & [<-|E]); [eauto|].
  destruct o as [w|]; [injection E as ->|discriminate E].
  exists w; split; [exact Ho|reflexivity].
Qed.

Lemma at_type_fun s t t' : at_type s t -> at_type s t' -> t = t'.
Proof. intros (v & Hv & <-) (w & Hw & <-); congruence. Qed.

Lemma tri_lift_undef {A} f s (P : A -> TokenStream -> Prop) :
  ~ lexable (src_ s) -> tri (lift (Undef f)) s P.
Proof. intros H; exact H. Qed.

Lemma tri_peek_value s (P : Value -> TokenStream -> Prop) :
  wf s ->
  (forall w s', adv s s' -> same_place s s' -> at_type s' (type_ w) -> P w s') ->
  tri peek_value s P.
Proof.
  intros Hwf HP; apply tri_bind, tri_peek; [exact Hwf|]; intros [w|] s' Hp Hadv Hn.
  - apply (tri_ret w); [apply Hadv|].
    eauto using peeked_type, peeked_same_place.
  - apply tri_lift_undef; destruct Hadv as (_ & -> & _); auto.
Qed.

Lemma tri_peek_type s (P : Type_ -> TokenStream -> Prop) :
  wf s ->
  (forall t s', adv s s' -> same_place s s' -> at_type s' t -> P t s') ->
  tri peek_type s P.
Proof.
  intros Hwf HP; apply tri_bind, tri_peek_value; [exact Hwf|].
  intros w s' Hadv Hr Ht; apply tri_ret; [apply Hadv|auto].
Qed.

Lemma peeked_none s s' : peeked s None s' -> scanned s' = Done None.
Proof.
  intros Hp; rewrite (same_place_scanned _ _ (peeked_same_place _ _ _ Hp)).
  destruct Hp as (_ & _ & _ & _ & o & Ho & Hl); destruct o as [w|]; [|exact Ho].
  destruct Hl as [Hl|Hl]; discriminate Hl.
Qed.

Lemma tri_peek_is_iff t s (P : bool -> TokenStream -> Prop) :
  wf s ->
  (forall b s', adv s s' -> same_place s s' -> (b = true <-> at_type s' t) -> P b s') ->
  tri (peek_is t) s P.
Proof.
  intros Hwf HP; apply tri_bind, tri_peek; [exact Hwf|]; intros [w|] s' Hp Hadv _.
  - apply tri_bind, tri_peek_type; [apply Hadv|]; intros t' s'' Hadv' Hr Ht.
    apply tri_ret; [apply Hadv'|]; apply HP.
    + eapply adv_trans; eassumption.
    + eauto using same_place_trans, peeked_same_place.
    + rewrite bool_decide_eq_true; split; [now intros ->|]; intros H; exact (at_type_fun _ _ _ Ht H).
  - apply tri_ret; [apply Hadv|]; apply HP; [exact Hadv|eauto using peeked_same_place|].
    split; [discriminate|]; intros (v & Hv & _); rewrite (peeked_none _ _ Hp) in Hv; discriminate.
Qed.

Lemma tri_peek_is t s (P : bool -> TokenStream -> Prop) :
  wf s ->
  (forall b s', adv s s' -> same_place s s' -> (b = true -> at_type s' t) -> P b s') ->
  tri (peek_is t) s P.
Proof. intros Hwf HP; apply tri_peek_is_iff; [exact Hwf|]; intros b s' ? ? [? _]; auto. Qed.

(** Stepping over a token other than the end of input consumes something. *)
Lemma tri_next_at t s (P : () -> TokenStream -> Prop) :
  wf s -> at_type s t -> t <> Enf ->
  (forall s', adv s s' -> remaining s' < remaining s -> P () s') ->
  tri next s P.
Proof.
  intros Hwf (w & Hw & Ht) Hne HP; apply tri_next; [exact Hwf|].
  intros s' (_ & _ & _ & x & Hx & [[He _]|[_ Hlt]]) Hadv; [|auto].
  rewrite Hw in Hx; injection Hx as <-; congruence.
Qed.

Lemma tri_SKIP_TOKEN fuel t s (P : () -> TokenStream -> Prop) :
  wf s -> t <> Enf -> remaining s < Z.of_nat fuel ->
  (forall s', adv s s' -> P () s') ->
  tri (SKIP_TOKEN fuel t) s P.
Proof.
  revert s; induction fuel as [|k IH]; intros s Hwf Ht Hf HP.
  { pose proof (remaining_nonneg s Hwf); lia. }
  apply tri_bind, tri_peek_is; [exact Hwf|]; intros b s1 Hadv1 Hr1 Hat.
  destruct b; [|apply tri_ret; [apply Hadv1|auto]].
  eapply tri_bind, tri_next_at; [apply Hadv1|auto|exact Ht|].
  apply same_place_remaining in Hr1.
  intros s2 Hadv2 Hlt; apply IH; [apply Hadv2|exact Ht|lia|].
  eauto using adv_trans.
Qed.

Lemma tri_SKIP_TOKEN_ONCE t s (P : () -> TokenStream -> Prop) :
  wf s -> (forall s', adv s s' -> P () s') -> tri (SKIP_TOKEN_ONCE t) s P.
Proof.
  intros Hwf HP; apply tri_bind, tri_peek_is; [exact Hwf|]; intros b s1 Hadv1 _ _.
  destruct b; [|apply tri_ret; [apply Hadv1|auto]].
  apply tri_next; [apply Hadv1|]; eauto using adv_trans.
Qed.

Lemma tri_expect_with (e1 e2 : M Value) t s (P : Value -> TokenStream -> Prop) :
  wf s -> t <> Enf ->
  (forall s' Q, wf s' -> tri e1 s' Q) -> (forall s' Q, wf s' -> tri e2 s' Q) ->
  (forall w s', adv s s' -> remaining s' < remaining s -> P w s') ->
  tri (expect_with e1 e2 t) s P.
Proof.
  intros Hwf Ht H1 H2 HP; apply tri_bind, tri_peek; [exact Hwf|].
  intros [w|] s1 Hp Hadv1 _; [|apply H1, Hadv1].
  apply tri_bind, tri_peek_type; [apply Hadv1|]; intros t' s2 Hadv2 Hr2 Hat2.
  destruct (decide (t' = t)) as [->|]; [|apply H2, Hadv2].
  apply tri_bind, tri_peek_value; [apply Hadv2|]; intros x s3 Hadv3 Hr3 Hat3.
  eapply tri_bind, (tri_next_at t);
    [apply Hadv3|eauto using same_place_at|exact Ht|].
  intros s4 Hadv4 Hlt; apply tri_ret; [apply Hadv4|].
  apply HP; [eauto 6 using adv_trans|].
  pose proof (same_place_trans _ _ _ (peeked_same_place _ _ _ Hp)
    (same_place_trans _ _ _ Hr2 Hr3)) as Hr%same_place_remaining; lia.
Qed.

Lemma tri_EXPECT_TOKEN t s (P : () -> TokenStream -> Prop) :
  wf s -> t <> Enf ->
  (forall s', adv s s' -> remaining s' < remaining s -> P () s') ->
  tri (EXPECT_TOKEN t) s P.
Proof.
  intros Hwf Ht HP; apply tri_bind, tri_expect_with; auto using tri_err.
  intros w s' Hadv Hlt; apply tri_ret; [apply Hadv|auto].
Qed.

Lemma tri_EXPECT_TOKEN_FATAL t s (P : () -> TokenStream -> Prop) :
  wf s -> t <> Enf ->
  (forall s', adv s s' -> remaining s' < remaining s -> P () s') ->
  tri (EXPECT_TOKEN_FATAL t) s P.
Proof.
  intros Hwf Ht HP; apply tri_bind, tri_expect_with; auto using tri_fatal.
  intros w s' Hadv Hlt; apply tri_ret; [apply Hadv|auto].
Qed.

Lemma tri_EXPECT_TOKEN_ERR t msg s (P : () -> TokenStream -> Prop) :
  wf s -> t <> Enf ->
  (forall s', adv s s' -> remaining s' < remaining s -> P () s') ->
  tri (EXPECT_TOKEN_ERR t msg) s P.
Proof.
  intros Hwf Ht HP; apply tri_bind, tri_expect_with; auto using tri_err.
  intros w s' Hadv Hlt; apply tri_ret; [apply Hadv|auto].
Qed.

Lemma tri_EXPECT_GET t s (P : Value -> TokenStream -> Prop) :
  wf s -> t <> Enf ->
  (forall w s', adv s s' -> remaining s' < remaining s -> P w s') ->
  tri (EXPECT_GET_TOKEN t) s P.
Proof. intros Hwf Ht HP; apply tri_expect_with; auto using tri_err. Qed.

Lemma tri_EXPECT_GET_FATAL t s (P : Value -> TokenStream -> Prop) :
  wf s -> t <> Enf ->
  (forall w s', adv s s' -> remaining s' < remaining s -> P w s') ->
  tri (EXPECT_GET_TOKEN_FATAL t) s P.
Proof. intros Hwf Ht HP; apply tri_expect_with; auto using tri_fatal. Qed.

(** What a parse function is used through: it ends, it advances (strictly when
    [strict]), and what it builds satisfies [P]. *)
Definition parses_to {A} (strict : bool) (P : A -> Prop) (m : M A) (s : TokenStream) : Prop :=
  tri m s (fun a s' => (if strict then remaining s' < remaining s else Logic.True) /\ P a).

Lemma tri_call {A} strict (Pa : A -> Prop) (m : M A) s (P : A -> TokenStream -> Prop) :
  parses_to strict Pa m s ->
  (forall a s', adv s s' -> (if strict then remaining s' < remaining s else Logic.True) ->
    Pa a -> P a s') ->
  tri m s P.
Proof. intros Hm HP; eapply tri_mono; [exact Hm|]; intros a s' Hadv [? ?]; auto. Qed.

Lemma tri_try_call {A} strict (Pa : A -> Prop) (m : M A) s
    (P : Result A -> TokenStream -> Prop) :
  parses_to strict Pa m s ->
  (forall a s', adv s s' -> (if strict then remaining s' < remaining s else Logic.True) ->
    Pa a -> P (Ok a) s') ->
  (forall e s', adv s s' -> P (Error e) s') ->
  tri (try_ m) s P.
Proof. intros Hm HO HE; eapply tri_try; [exact Hm| |exact HE]; intros a s' ? [? ?]; auto. Qed.

(** A parse function that fails puts the stream back. *)
Lemma tri_try_back {A} `{Located A} (m : M A) s (P : A -> TokenStream -> Prop)
    (P' : Result A -> TokenStream -> Prop) :
  tri (guarded m) s P ->
  (forall a s', adv s s' -> P a s' -> P' (Ok a) s') ->
  (forall e s', adv s s' -> same_place s s' -> P' (Error e) s') ->
  tri (try_ (guarded m)) s P'.
Proof.
  intros Hm HO HE; unfold tri, try_ in *.
  destruct (guarded m s) as [[[a|e] s']| | |] eqn:E; simpl in *; try exact Hm.
  - destruct Hm as [Hadv HP]; auto.
  - destruct Hm as [Hadv _]; split; [exact Hadv|]; apply HE; [exact Hadv|].
    split; [exact (guarded_error _ _ _ _ E)|apply Hadv].
Qed.

(** ** Parse functions that always succeed *)

Definition never_fails {A} (m : M A) : Prop := forall s e s', m s <> Done (Error e, s').

Lemma never_fails_bind {A B} (m : M A) (k : A -> M B) :
  never_fails m -> (forall a, never_fails (k a)) -> never_fails (m ≫= k).
Proof.
  intros Hm Hk s e s'; unfold mbind, M_bind.
  destruct (m s) as [[[a|e'] s1]| | |] eqn:E; simpl; try discriminate; [apply Hk|].
  intros _; exact (Hm _ _ _ E).
Qed.

Lemma never_fails_ret {A} (a : A) : never_fails (mret a).
Proof. intros s e s'; discriminate. Qed.

Lemma never_fails_try {A} (m : M A) : never_fails (try_ m).
Proof. intros s e s'; unfold try_; destruct (m s) as [[r s1]| | |]; discriminate. Qed.

Lemma never_fails_lift {A} (m : outcome A) : never_fails (lift m).
Proof. intros s e s'; unfold lift; destruct m; discriminate. Qed.

Lemma never_fails_peek : never_fails peek.
Proof. intros s e s'; unfold peek; destruct (Peek s) as [[o s1]| | |]; discriminate. Qed.

Lemma never_fails_next : never_fails next.
Proof. intros s e s'; unfold next; destruct (Next s); discriminate. Qed.

Lemma never_fails_guarded_opt {A} `{Located A} (m : M (A * bool)) :
  never_fails m -> never_fails (guarded_opt m).
Proof.
  intros Hm s e s'; unfold guarded_opt.
  destruct (m s) as [[[[a []]|e'] s1]| | |] eqn:E; simpl; try discriminate.
  intros _; exact (Hm _ _ _ E).
Qed.

#[export] Hint Resolve never_fails_bind never_fails_ret never_fails_try never_fails_lift
  never_fails_peek never_fails_next never_fails_guarded_opt : mygo.

Lemma tri_try_always {A} strict (Pa : A -> Prop) (m : M A) s
    (P : Result A -> TokenStream -> Prop) :
  never_fails m -> parses_to strict Pa m s ->
  (forall a s', adv s s' -> (if strict then remaining s' < remaining s else Logic.True) ->
    Pa a -> P (Ok a) s') ->
  tri (try_ m) s P.
Proof.
  intros Hn Hm HO; unfold parses_to, tri, try_ in *.
  destruct (m s) as [[[a|e] s']| | |] eqn:E; simpl in *.
  - destruct Hm as (? & ? & ?); auto.
  - destruct (Hn _ _ _ E).
  - exact Hm.
  - exact I.
  - exact Hm.
Qed.

(** ** Automation: step through a parse function *)

(** Facts about [wf] and [remaining] from the moves made so far. *)
Ltac adv_facts :=
  repeat match goal with
  | H : adv _ _ |- _ => destruct H as (? & ? & ?)
  | H : same_place _ _ |- _ => apply same_place_remaining in H
  | H : if true then ?P else _ |- _ => change P in H
  end.

Ltac adv_done := solve [adv_facts; (assumption || congruence || lia)].

(** One step; calls of other parse functions are left to the user. *)
Ltac tri_step :=
  lazymatch goal with
  | |- tri (guarded _) _ _ => apply tri_guarded; [adv_done|]
  | |- tri (guarded_opt _) _ _ => apply tri_guarded_opt; [adv_done|]
  | |- tri (_ ≫= _) _ _ => apply tri_bind
  | |- tri (mret _) _ _ => apply tri_ret; [adv_done|]
  | |- tri (err _) _ _ => apply tri_err; adv_done
  | |- tri (fatal _) _ _ => apply tri_fatal; adv_done
  | |- tri (fail _) _ _ => apply tri_fail; adv_done
  | |- tri (append_err _ _) _ _ => apply tri_append; adv_done
  | |- tri get_loc _ _ => apply tri_get_loc; [adv_done|intros ?]
  | |- tri (lift (assert_ _ _)) _ _ => apply tri_assert; [adv_done|intros ?]
  | |- tri peek_value _ _ => apply tri_peek_value; [adv_done|intros ? ? ? ? ?]
  | |- tri peek_type _ _ => apply tri_peek_type; [adv_done|intros ? ? ? ? ?]
  | |- tri (peek_is _) _ _ => apply tri_peek_is; [adv_done|intros [] ? ? ? ?]
  | |- tri (EXPECT_TOKEN _) _ _ =>
      apply tri_EXPECT_TOKEN; [adv_done|discriminate|intros ? ? ?]
  | |- tri (EXPECT_TOKEN_FATAL _) _ _ =>
      apply tri_EXPECT_TOKEN_FATAL; [adv_done|discriminate|intros ? ? ?]
  | |- tri (EXPECT_TOKEN_ERR _ _) _ _ =>
      apply tri_EXPECT_TOKEN_ERR; [adv_done|discriminate|intros ? ? ?]
  | |- tri (EXPECT_GET_TOKEN _) _ _ =>
      apply tri_EXPECT_GET; [adv_done|discriminate|intros ? ? ? ?]
  | |- tri (EXPECT_GET_TOKEN_FATAL _) _ _ =>
      apply tri_EXPECT_GET_FATAL; [adv_done|discriminate|intros ? ? ? ?]
  | |- tri (SKIP_TOKEN_ONCE _) _ _ => apply tri_SKIP_TOKEN_ONCE; [adv_done|intros ? ?]
  | |- tri (SKIP_TOKEN _ _) _ _ =>
      apply tri_SKIP_TOKEN; [adv_done|discriminate|adv_done|intros ? ?]
  | |- tri next _ _ =>
      first [ eapply tri_next_at; [adv_done|solve [eauto using same_place_at]
                                  |congruence|intros ? ? ?]
            | apply tri_next; [adv_done|intros ? _ ?] ]
  | |- tri (if decide (?t = _) then _ else _) _ _ => destruct (decide (t = _)); [subst t|]
  end.
Ltac tri_steps := repeat tri_step.
