(* ===== verification/TokenView.v ===== *)
(** * TokenView: the stream as the list of the tokens that are left

    [ahead src p ts]: from offset [p] of the source lie the tokens [ts], the last of
    which is the end of the input; white space after a token is stepped over with it.
    A parse function is specified on [collapse ts], where a run of line ends is one:
    [gets m ts Q]; the tactic [gets_steps] runs one. *)

From S2P Require Import Prelude Machine Common Token Lexemes TokenStream Ast ParseMonad.
Import token.

#[local] Set Warnings "-register-all".

Inductive ahead (src : list ascii) : Z -> list Value -> Prop :=
  | ahead_end p v : scan_at src p = Done (Some v) -> type_ v = Enf -> ahead src p [v]
  | ahead_tight p v ts : scan_at src p = Done (Some v) -> type_ v <> Enf ->
      ahead src (p + len_ v) ts ->
      (forall w, scan_at src (p + len_ v) = Done (Some w) -> type_ w <> Space) ->
      ahead src p (v :: ts)
  | ahead_space p v w ts : scan_at src p = Done (Some v) -> type_ v <> Enf ->
      scan_at src (p + len_ v) = Done (Some w) -> type_ w = Space ->
      ahead src (p + len_ v + len_ w) ts -> ahead src p (v :: ts).

(** The tokens of a source. *)
Definition tokens_of (src : list ascii) (ts : list Value) : Prop := ahead src 0 ts.

Definition newline : Value := Value_make Enl 1.

(** The tokens with one line end for each run of them: blank lines are not seen. *)
Fixpoint collapse (ts : list Value) : list Value :=
  match ts with
  | [] => []
  | v :: r =>
      if decide (type_ v = Enl) then
        match r with
        | w :: _ => if decide (type_ w = Enl) then collapse r else newline :: collapse r
        | [] => [newline]
        end
      else v :: collapse r
  end.

(** How many line ends may be left that [collapse] drops. *)
Class Slack := slack : nat.

(** The stream is before the tokens [all] of its source, the parser sees [ts]. *)
Definition sees_all `{Slack} (s : TokenStream) (all ts : list Value) : Prop :=
  wf s /\ ahead (src_ s) (pos (state_ s)) all /\ collapse all = ts /\
  (length all <= slack + length ts)%nat.

Definition sees `{Slack} (s : TokenStream) (ts : list Value) : Prop := exists all, sees_all s all ts.

(** The token without its location. *)
Definition bare_value (v : Value) : Value := with_span Loc_default Loc_default v.

(** ** Collapsed lists *)

Lemma collapse_other v r : type_ v <> Enl -> collapse (v :: r) = v :: collapse r.
Proof. intros H; cbn [collapse]; now rewrite decide_False. Qed.

(** A collapsed list that begins with a line end: one was, and others may follow. *)
Lemma collapse_line v r ts : type_ v = Enl -> collapse (v :: r) = ts ->
  exists ts', ts = newline :: ts' /\ (collapse r = ts' \/ collapse r = newline :: ts').
Proof.
  intros Hv <-; revert v Hv; induction r as [|w r IH]; intros v Hv; cbn [collapse];
    rewrite decide_True by exact Hv; [exists []; auto|].
  destruct (decide (type_ w = Enl)) as [Hw|Hw]; [|eexists; split; [reflexivity|now left]].
  destruct (IH w Hw) as (ts' & E & _); cbn [collapse] in E; rewrite decide_True in E by exact Hw.
  exists ts'; split; [exact E|right; exact E].
Qed.

(** The first token of a collapsed list. *)
Lemma collapse_head all v ts : collapse all = v :: ts ->
  exists w r, all = w :: r /\ type_ w = type_ v /\ (type_ v <> Enl -> w = v /\ collapse r = ts) /\
    (type_ v = Enl -> collapse r = ts \/ collapse r = v :: ts).
Proof.
  destruct all as [|w r]; [discriminate|]; destruct (decide (type_ w = Enl)) as [Hw|Hw]; intros E.
  - destruct (collapse_line w r _ Hw E) as (ts' & [= -> ->] & Hr).
    exists w, r; split_and!; auto; now intros [].
  - rewrite collapse_other in E by exact Hw; injection E as <- <-.
    exists w, r; split_and!; auto; now intros [].
Qed.

Lemma collapse_length ts : (length (collapse ts) <= length ts)%nat.
Proof.
  induction ts as [|v [|w r] IH]; [simpl; lia|cbn [collapse]; destruct (decide _); simpl; lia|].
  cbn [collapse] in *; destruct (decide (type_ v = Enl)), (decide (type_ w = Enl)); cbn [length] in *; lia.
Qed.

(** ** Lemmas *)

Lemma ahead_scanned src p v ts : ahead src p (v :: ts) -> scan_at src p = Done (Some v).
Proof. now inversion 1. Qed.

Lemma ahead_bare src p v ts : ahead src p (v :: ts) -> bare_value v = v.
Proof.
  intros H%ahead_scanned%scan_at_some%FromChars_lexeme; destruct H as (H1 & H2 & _).
  destruct v; simpl in *; subst; reflexivity.
Qed.

Lemma ahead_nonempty src p ts : ahead src p ts -> exists v ts', ts = v :: ts'.
Proof. destruct 1; eauto. Qed.

Lemma locate_bare l v : bare_value (locate l v) = bare_value v.
Proof. reflexivity. Qed.

Section View.
Context {room : Slack}.

(** [gets m ts Q]: on a stream that sees [ts], [m] ends with a result and a list
    of tokens left for which [Q] holds. *)
Definition gets {A} (m : M A) (ts : list Value) (Q : Result A -> list Value -> Prop) : Prop :=
  forall s, sees s ts -> exists r s' ts',
    m s = Done (r, s') /\ src_ s' = src_ s /\ sees s' ts' /\ Q r ts'.

(** The two outcomes a grammar is concerned with: success with the tokens that are
    left, and a failure that lets the caller try another function. *)
Definition reads {A} (m : M A) (ts : list Value) (P : A -> Prop) (ts' : list Value) : Prop :=
  gets m ts (fun r l => exists a, r = Ok a /\ P a /\ l = ts').
Definition rejects {A} (m : M A) (ts : list Value) : Prop :=
  gets m ts (fun r l => exists e, r = Error e /\ is_fatal_ e = false /\ l = ts).

Lemma sees_collapse s all ts : sees_all s all ts -> (length ts <= length all)%nat.
Proof. intros (_ & _ & <- & _); apply collapse_length. Qed.

Lemma sees_all_peek s all v ts : sees_all s all (v :: ts) ->
  exists w s', Peek s = Done (Some w, s') /\ (type_ v <> Enl -> bare_value w = v) /\
    type_ w = type_ v /\ src_ s' = src_ s /\ sees_all s' all (v :: ts).
Proof.
  intros (Hwf & Ha & Hc & Hl); destruct (collapse_head _ _ _ Hc) as (x & r & -> & Ht & He & _).
  pose proof (ahead_scanned _ _ _ _ Ha) as Hx; pose proof (ahead_bare _ _ _ _ Ha) as Hb.
  rewrite Peek_wf by assumption; unfold scanned; rewrite Hx, outcome_bind_ret_l.
  exists (if cache_key_ s =? pos (state_ s) then locate (loc s) x else x), (warmed s (Some x)).
  assert (Hw : wf (warmed s (Some x))) by (apply wf_warmed; [apply Hwf|exact Hx]).
  destruct (_ =? _); split_and!; auto; try (split_and!; assumption);
    intros Hv; rewrite ?locate_bare, Hb; now apply He.
Qed.

Lemma sees_peek s v ts : sees s (v :: ts) ->
  exists w s', Peek s = Done (Some w, s') /\ (type_ v <> Enl -> bare_value w = v) /\
    type_ w = type_ v /\ src_ s' = src_ s /\ sees s' (v :: ts).
Proof.
  intros [all Hs]; destruct (sees_all_peek _ _ _ _ Hs) as (w & s' & ? & ? & ? & ? & ?).
  exists w, s'; split_and!; auto; now exists all.
Qed.

Lemma sees_peek_is t s all v ts : sees_all s all (v :: ts) ->
  exists s', peek_is t s = Done (Ok (bool_decide (type_ v = t)), s') /\ src_ s' = src_ s /\
    sees_all s' all (v :: ts).
Proof.
  intros Hs; destruct (sees_all_peek _ _ _ _ Hs) as (w & s1 & E1 & _ & Ht & Hsrc1 & Hs1).
  destruct (sees_all_peek _ _ _ _ Hs1) as (w2 & s2 & E2 & _ & Ht2 & Hsrc2 & Hs2).
  exists s2; split_and!; [|congruence|exact Hs2].
  unfold peek_is, peek_type, peek_value, peek, mbind, M_bind; rewrite E1; cbn.
  rewrite E2; cbn; now rewrite Ht2.
Qed.

(** One token of the source further. *)
Lemma Next_ahead s v all : wf s -> ahead (src_ s) (pos (state_ s)) (v :: all) -> type_ v <> Enf ->
  exists s', Next s = Done s' /\ src_ s' = src_ s /\ wf s' /\ ahead (src_ s) (pos (state_ s')) all.
Proof.
  intros Hwf Ha Ht; rewrite Next_next_state by assumption.
  assert (Hst : exists st o, next_state s = Done st /\ ahead (src_ s) (pos st) all /\
    scan_at (src_ s) (pos st) = Done o).
  { inversion Ha as [p w Hw He|p w ts' Hw He Hr Hn|p w x ts' Hw He Hx Hsp Hr]; subst; [congruence|..];
      unfold next_state; unfold scanned; rewrite Hw, outcome_bind_ret_l; cbn [deref];
      rewrite outcome_bind_ret_l; cbv zeta.
    - destruct (ahead_nonempty _ _ _ Hr) as (x & ts'' & ->).
      pose proof (ahead_scanned _ _ _ _ Hr) as Hx; rewrite Hx, outcome_bind_ret_l; cbv beta iota.
      rewrite decide_False by (exact (Hn _ Hx)); eauto.
    - rewrite Hx, outcome_bind_ret_l; cbv beta iota; rewrite decide_True by assumption.
      destruct (ahead_nonempty _ _ _ Hr) as (y & ts'' & ->).
      pose proof (ahead_scanned _ _ _ _ Hr) as Hy; rewrite Hy, outcome_bind_ret_l; eauto. }
  destruct Hst as (st & o & Hst & Hr & Ho); rewrite Hst, outcome_bind_ret_l, Ho, outcome_bind_ret_l.
  destruct (next_state_spec _ _ Hwf Hst) as (_ & _ & _ & Hc & _).
  exists (warmed (load st s) o); split_and!; auto; now apply wf_warmed.
Qed.

Lemma sees_all_next s all v ts : sees_all s all (v :: ts) -> type_ v <> Enf ->
  exists s' r ts', Next s = Done s' /\ src_ s' = src_ s /\ sees_all s' r ts' /\
    (length r < length all)%nat /\ (ts' = ts \/ type_ v = Enl /\ ts' = v :: ts).
Proof.
  intros (Hwf & Ha & Hc & Hl) Ht; destruct (collapse_head _ _ _ Hc) as (w & r & -> & Hw & Ho & He).
  destruct (Next_ahead _ _ _ Hwf Ha) as (s' & E & Hsrc & Hwf' & Ha'); [congruence|].
  assert (Hts : collapse r = ts \/ type_ v = Enl /\ collapse r = v :: ts)
    by (destruct (decide (type_ v = Enl)) as [Hv|Hv]; [destruct (He Hv); auto|left; now apply Ho]).
  exists s', r, (collapse r); unfold sees_all; rewrite Hsrc; cbn [length] in *; split_and!; auto; try lia.
  destruct Hts as [-> | [_ ->]]; simpl; lia.
Qed.

Lemma sees_next s v ts : sees s (v :: ts) -> type_ v <> Enf ->
  exists s', Next s = Done s' /\ src_ s' = src_ s /\
    (sees s' ts \/ type_ v = Enl /\ sees s' (v :: ts)).
Proof.
  intros [all Hs] Ht; destruct (sees_all_next _ _ _ _ Hs Ht) as (s' & r & ts' & ? & ? & ? & _ & [-> | [? ->]]);
    exists s'; split_and!; auto; [left|right; split; [assumption|]]; now exists r.
Qed.

(** At the end of the input [Next] stays. *)
Lemma sees_next_end s v : sees s [v] -> type_ v = Enf ->
  exists s', Next s = Done s' /\ src_ s' = src_ s /\ sees s' [v].
Proof.
  intros (all & Hwf & Ha & Hc & Hl) Ht; destruct (collapse_head _ _ _ Hc) as (w & r & -> & _ & He & _).
  destruct He as [-> _]; [congruence|]; pose proof (ahead_scanned _ _ _ _ Ha) as Hw.
  rewrite Next_next_state by assumption.
  destruct (scan_lexeme _ _ _ Hw) as (_ & _ & [(_ & _ & Hz)|(_ & ? & _)]); [|congruence].
  assert (Hst : next_state s = Done (mkState (pos (state_ s)) (loc s) (locate (loc s) v))).
  { unfold next_state, scanned; rewrite Hw, outcome_bind_ret_l; cbn [deref].
    rewrite outcome_bind_ret_l; cbv zeta; rewrite Hz, Z.add_0_r, Hw, outcome_bind_ret_l.
    cbv beta iota; rewrite decide_False by congruence; now rewrite advance_empty. }
  rewrite Hst, outcome_bind_ret_l; cbn [pos]; rewrite Hw, outcome_bind_ret_l.
  eexists; split_and!; [reflexivity..|]; exists (v :: r); split_and!; auto.
  apply wf_warmed; [apply Hwf|exact Hw].
Qed.

(** ** Rules *)

Lemma gets_mono {A} (m : M A) ts (Q Q' : Result A -> list Value -> Prop) :
  gets m ts Q -> (forall r l, Q r l -> Q' r l) -> gets m ts Q'.
Proof. intros Hm HQ s Hs; destruct (Hm s Hs) as (r & s' & ts' & ? & ? & ? & ?); eauto 10. Qed.

Lemma gets_bind {A B} (m : M A) (k : A -> M B) ts Q :
  gets m ts (fun r l => match r with Ok a => gets (k a) l Q | Error e => Q (Error e) l end) ->
  gets (m ≫= k) ts Q.
Proof.
  intros Hm s Hs; destruct (Hm s Hs) as (r & s' & ts' & E & Hsrc & Hs' & HQ).
  unfold mbind, M_bind; rewrite E, outcome_bind_ret_l; destruct r as [a|e]; [|eauto 10].
  destruct (HQ s' Hs') as (r & s'' & ts'' & E' & Hsrc' & Hs'' & HQ').
  exists r, s'', ts''; split_and!; auto; congruence.
Qed.

Lemma gets_ret {A} (a : A) ts (Q : Result A -> list Value -> Prop) : Q (Ok a) ts -> gets (mret a) ts Q.
Proof. intros HQ s Hs; exists (Ok a), s, ts; auto. Qed.

Lemma gets_err {A} msg ts (Q : Result A -> list Value -> Prop) :
  (forall l, Q (Error (Err_make l msg)) ts) -> gets (err msg) ts Q.
Proof. intros HQ s Hs; eexists _, s, ts; split_and!; [reflexivity|auto..]. Qed.

Lemma gets_append {A} e msg ts (Q : Result A -> list Value -> Prop) :
  (forall l, Q (Error (Err_Append e l msg)) ts) -> gets (append_err e msg) ts Q.
Proof. intros HQ s Hs; eexists _, s, ts; split_and!; [reflexivity|auto..]. Qed.

Lemma gets_get_loc ts (Q : Result Loc -> list Value -> Prop) :
  (forall l, Q (Ok l) ts) -> gets get_loc ts Q.
Proof. intros HQ s Hs; eexists _, s, ts; split_and!; [reflexivity|auto..]. Qed.

Lemma gets_assert (b : bool) text ts (Q : Result () -> list Value -> Prop) :
  b = true -> Q (Ok ()) ts -> gets (lift (assert_ b text)) ts Q.
Proof. intros -> HQ s Hs; exists (Ok ()), s, ts; auto. Qed.

Lemma gets_try {A} (m : M A) ts (Q : Result (Result A) -> list Value -> Prop) :
  gets m ts (fun r l => Q (Ok r) l) -> gets (try_ m) ts Q.
Proof.
  intros Hm s Hs; destruct (Hm s Hs) as (r & s' & ts' & E & ? & ? & ?).
  exists (Ok r), s', ts'; unfold try_; rewrite E; auto.
Qed.

Lemma gets_peek v ts (Q : Result (option Value) -> list Value -> Prop) :
  (forall w, (type_ v <> Enl -> bare_value w = v) -> type_ w = type_ v -> Q (Ok (Some w)) (v :: ts)) ->
  gets peek (v :: ts) Q.
Proof.
  intros HQ s Hs; destruct (sees_peek _ _ _ Hs) as (w & s' & E & Hb & Ht & Hsrc & Hs').
  unfold peek; rewrite E; exists (Ok (Some w)), s', (v :: ts); split_and!; auto.
Qed.

Lemma gets_peek_value v ts (Q : Result Value -> list Value -> Prop) :
  (forall w, (type_ v <> Enl -> bare_value w = v) -> type_ w = type_ v -> Q (Ok w) (v :: ts)) ->
  gets peek_value (v :: ts) Q.
Proof.
  intros HQ; apply gets_bind, gets_peek; intros w Hb Ht s Hs.
  exists (Ok w), s, (v :: ts); auto.
Qed.

Lemma gets_peek_type v ts (Q : Result Type_ -> list Value -> Prop) :
  Q (Ok (type_ v)) (v :: ts) -> gets peek_type (v :: ts) Q.
Proof.
  intros HQ; apply gets_bind, gets_peek_value; intros w Hb Ht; apply gets_ret; now rewrite Ht.
Qed.

Lemma gets_peek_is t v ts (Q : Result bool -> list Value -> Prop) :
  Q (Ok (bool_decide (type_ v = t))) (v :: ts) -> gets (peek_is t) (v :: ts) Q.
Proof.
  intros HQ; apply gets_bind, gets_peek; intros w Hb Ht; apply gets_bind, gets_peek_type.
  now apply gets_ret.
Qed.

Lemma gets_next v ts (Q : Result () -> list Value -> Prop) :
  type_ v <> Enf -> Q (Ok ()) ts -> (type_ v = Enl -> Q (Ok ()) (v :: ts)) ->
  gets next (v :: ts) Q.
Proof.
  intros Ht HQ HQ' s Hs; destruct (sees_next _ _ _ Hs Ht) as (s' & E & Hsrc & [Hs'|[Hv Hs']]);
    unfold next; rewrite E; [exists (Ok ()), s', ts|exists (Ok ()), s', (v :: ts)]; auto.
Qed.

Lemma sees_restore s s' ts ts' : sees s ts -> sees s' ts' -> src_ s' = src_ s ->
  sees (load (state_ s) s') ts.
Proof.
  intros (all & Hwf & Ha & Hr) (_ & Hwf' & _) Hsrc; exists all; split; [now apply wf_restore|].
  split; [simpl; now rewrite Hsrc|exact Hr].
Qed.

Lemma gets_guarded_opt {A} `{Located A} (m : M (A * bool)) ts (Q : Result A -> list Value -> Prop) :
  gets m ts (fun r l =>
    match r with
    | Ok (a, true) => forall l1 l2, Q (Ok (set_span l1 l2 a)) l
    | Ok (a, false) => Q (Ok a) ts
    | Error e => Q (Error e) ts
    end) ->
  gets (guarded_opt m) ts Q.
Proof.
  intros Hm s Hs; destruct (Hm s Hs) as (r & s' & ts' & E & Hsrc & Hs' & HQ).
  pose proof (sees_restore _ _ _ _ Hs Hs' Hsrc) as Hback.
  unfold guarded_opt; rewrite E, outcome_bind_ret_l.
  destruct r as [[a []]|e]; eexists _, _, _; split_and!; try reflexivity; eauto.
Qed.

Lemma gets_guarded {A} `{Located A} (m : M A) ts (Q : Result A -> list Value -> Prop) :
  gets m ts (fun r l =>
    match r with Ok a => forall l1 l2, Q (Ok (set_span l1 l2 a)) l | Error e => Q (Error e) ts end) ->
  gets (guarded m) ts Q.
Proof.
  intros Hm; apply gets_guarded_opt, gets_bind; eapply gets_mono; [exact Hm|].
  intros [a|e] l HQ; [now apply gets_ret|exact HQ].
Qed.

(** ** The macros *)

Lemma gets_expect_with (e1 e2 : M Value) t v ts (Q : Result Value -> list Value -> Prop) :
  type_ v <> Enf ->
  (type_ v = t -> forall w, (type_ v <> Enl -> bare_value w = v) -> type_ w = type_ v ->
    Q (Ok w) ts /\ (type_ v = Enl -> Q (Ok w) (v :: ts))) ->
  (type_ v <> t -> gets e2 (v :: ts) Q) -> gets (expect_with e1 e2 t) (v :: ts) Q.
Proof.
  intros He HO HE; apply gets_bind, gets_peek; intros w _ Hw; apply gets_bind, gets_peek_type.
  destruct (decide (type_ v = t)) as [Ht|Ht]; [|auto].
  apply gets_bind, gets_peek_value; intros x Hb Hx; destruct (HO Ht x Hb Hx) as [HQ HQ'].
  apply gets_bind, gets_next; [exact He|now apply gets_ret|intros Hv; apply gets_ret; auto].
Qed.

(** A token of another type, the end of the input among them. *)
Lemma gets_expect_other (e1 e2 : M Value) t v ts (Q : Result Value -> list Value -> Prop) :
  type_ v <> t -> gets e2 (v :: ts) Q -> gets (expect_with e1 e2 t) (v :: ts) Q.
Proof.
  intros Ht HE; apply gets_bind, gets_peek; intros w _ Hw; apply gets_bind, gets_peek_type.
  now rewrite decide_False.
Qed.

Lemma gets_EXPECT t v ts (Q : Result () -> list Value -> Prop) :
  type_ v = t -> t <> Enf -> Q (Ok ()) ts -> (t = Enl -> Q (Ok ()) (v :: ts)) ->
  gets (EXPECT_TOKEN t) (v :: ts) Q.
Proof.
  intros Ht He HQ HQ'; apply gets_bind, gets_expect_with; [congruence| |congruence].
  intros _ w _ _; split; [now apply gets_ret|intros Hv; apply gets_ret, HQ'; congruence].
Qed.

Lemma gets_EXPECT_other t v ts (Q : Result () -> list Value -> Prop) :
  type_ v <> t -> (forall l msg, Q (Error (Err_make l msg)) (v :: ts)) ->
  gets (EXPECT_TOKEN t) (v :: ts) Q.
Proof. intros Ht HQ; apply gets_bind, gets_expect_other; [exact Ht|]; apply gets_err; auto. Qed.

Lemma gets_EXPECT_FATAL t v ts (Q : Result () -> list Value -> Prop) :
  type_ v = t -> t <> Enf -> t <> Enl -> Q (Ok ()) ts -> gets (EXPECT_TOKEN_FATAL t) (v :: ts) Q.
Proof.
  intros Ht He Hl HQ; apply gets_bind, gets_expect_with; [congruence| |congruence].
  intros _ w _ _; split; [now apply gets_ret|congruence].
Qed.

Lemma gets_EXPECT_ERR t msg v ts (Q : Result () -> list Value -> Prop) :
  type_ v = t -> t <> Enf -> t <> Enl -> Q (Ok ()) ts -> gets (EXPECT_TOKEN_ERR t msg) (v :: ts) Q.
Proof.
  intros Ht He Hl HQ; apply gets_bind, gets_expect_with; [congruence| |congruence].
  intros _ w _ _; split; [now apply gets_ret|congruence].
Qed.

Lemma gets_EXPECT_GET t v ts (Q : Result Value -> list Value -> Prop) :
  type_ v = t -> t <> Enf -> t <> Enl -> (forall w, bare_value w = v -> Q (Ok w) ts) ->
  gets (EXPECT_GET_TOKEN t) (v :: ts) Q.
Proof.
  intros Ht He Hl HQ; apply gets_expect_with; [congruence| |congruence].
  intros _ w Hb _; split; [apply HQ, Hb; congruence|congruence].
Qed.

Lemma gets_EXPECT_GET_other t v ts (Q : Result Value -> list Value -> Prop) :
  type_ v <> t -> (forall l msg, Q (Error (Err_make l msg)) (v :: ts)) ->
  gets (EXPECT_GET_TOKEN t) (v :: ts) Q.
Proof. intros Ht HQ; apply gets_expect_other; [exact Ht|]; apply gets_err; auto. Qed.

Lemma gets_EXPECT_GET_FATAL t v ts (Q : Result Value -> list Value -> Prop) :
  type_ v = t -> t <> Enf -> t <> Enl -> (forall w, bare_value w = v -> Q (Ok w) ts) ->
  gets (EXPECT_GET_TOKEN_FATAL t) (v :: ts) Q.
Proof.
  intros Ht He Hl HQ; apply gets_expect_with; [congruence| |congruence].
  intros _ w Hb _; split; [apply HQ, Hb; congruence|congruence].
Qed.

Lemma gets_SKIP_ONCE t v ts (Q : Result () -> list Value -> Prop) :
  t <> Enf -> t <> Enl -> Q (Ok ()) (if decide (type_ v = t) then ts else v :: ts) ->
  gets (SKIP_TOKEN_ONCE t) (v :: ts) Q.
Proof.
  intros He Hl HQ; apply gets_bind, gets_peek_is; destruct (decide (type_ v = t)) as [Ht|Ht].
  - rewrite bool_decide_true by exact Ht; apply gets_next; [congruence|exact HQ|congruence].
  - rewrite bool_decide_false by exact Ht; now apply gets_ret.
Qed.

(** The end of the input is expected, and stays. *)
Lemma gets_EXPECT_end v (Q : Result () -> list Value -> Prop) :
  type_ v = Enf -> Q (Ok ()) [v] -> gets (EXPECT_TOKEN Enf) [v] Q.
Proof.
  intros Hv HQ; apply gets_bind, gets_bind, gets_peek; intros w _ _; apply gets_bind, gets_peek_type.
  rewrite decide_True by exact Hv; apply gets_bind, gets_peek_value; intros x _ _; apply gets_bind.
  intros s Hs; destruct (sees_next_end _ _ Hs Hv) as (s' & E & Hsrc & Hs').
  exists (Ok ()), s', [v]; unfold next; rewrite E; split_and!; auto; now apply gets_ret, gets_ret.
Qed.

(** What is left after the tokens of a type are skipped. *)
Fixpoint skipped (t : Type_) (ts : list Value) : list Value :=
  match ts with
  | [] => []
  | v :: r => if decide (type_ v = t) then skipped t r else ts
  end.

Lemma skipped_length t ts : (length (skipped t ts) <= length ts)%nat.
Proof. induction ts as [|v ts IH]; cbn [skipped length]; [lia|]; destruct (decide _); simpl; lia. Qed.

Lemma skipped_other t v ts : type_ v <> t -> skipped t (v :: ts) = v :: ts.
Proof. intros H; cbn [skipped]; now rewrite decide_False. Qed.

Lemma skipped_line ts ts' : ts = ts' \/ ts = newline :: ts' -> skipped Enl ts = skipped Enl ts'.
Proof. now intros [-> | ->]. Qed.

(** Line ends that [collapse] drops are skipped as well: the fuel pays for them. *)
Lemma SKIP_runs fuel s all ts : sees_all s all ts -> (length all <= fuel)%nat -> skipped Enl ts <> [] ->
  exists s', SKIP_TOKEN fuel Enl s = Done (Ok (), s') /\ src_ s' = src_ s /\ sees s' (skipped Enl ts).
Proof.
  revert s all ts; induction fuel as [|k IH]; intros s all ts Hs Hf Hne;
    pose proof (sees_collapse _ _ _ Hs) as Hl; (destruct ts as [|v ts]; [now destruct Hne|]);
    [simpl in Hl; lia|]; cbn [SKIP_TOKEN skipped] in *.
  destruct (sees_peek_is Enl s all v ts Hs) as (s1 & E1 & Hsrc1 & Hs1).
  unfold mbind, M_bind; rewrite E1, outcome_bind_ret_l; destruct (decide (type_ v = Enl)) as [Hv|Hv].
  - rewrite bool_decide_true by exact Hv; cbv beta iota.
    destruct (sees_all_next _ _ _ _ Hs1) as (s2 & r & ts' & E2 & Hsrc2 & Hs2 & Hr & Hts); [congruence|].
    unfold next at 1; rewrite E2, outcome_bind_ret_l.
    assert (Hsk : skipped Enl ts' = skipped Enl ts).
    { destruct Hts as [-> | [_ ->]]; [reflexivity|]; cbn [skipped]; now rewrite decide_True. }
    destruct (IH s2 r ts' Hs2) as (s3 & E3 & Hsrc3 & Hs3); [lia|now rewrite Hsk|].
    exists s3; rewrite <- Hsk; split_and!; [exact E3|congruence|exact Hs3].
  - rewrite bool_decide_false by exact Hv; exists s1; split_and!; [reflexivity|exact Hsrc1|].
    eexists; exact Hs1.
Qed.

Lemma gets_SKIP fuel ts (Q : Result () -> list Value -> Prop) :
  (slack + length ts <= fuel)%nat -> skipped Enl ts <> [] -> Q (Ok ()) (skipped Enl ts) ->
  gets (SKIP_TOKEN fuel Enl) ts Q.
Proof.
  intros Hf Hne HQ s [all Hs]; destruct (SKIP_runs fuel s all ts Hs) as (s' & E & Hsrc & Hs'); [|exact Hne|].
  - destruct Hs as (_ & _ & _ & Hl); lia.
  - exists (Ok ()), s', (skipped Enl ts); auto.
Qed.

(** ** Calls *)

Lemma gets_reads {A} (m : M A) ts (P : A -> Prop) ts' (Q : Result A -> list Value -> Prop) :
  reads m ts P ts' -> (forall a, P a -> Q (Ok a) ts') -> gets m ts Q.
Proof. intros Hm HQ; eapply gets_mono; [exact Hm|]; intros r l (a & -> & Ha & ->); auto. Qed.

Lemma gets_rejects {A} (m : M A) ts (Q : Result A -> list Value -> Prop) :
  rejects m ts -> (forall e, is_fatal_ e = false -> Q (Error e) ts) -> gets m ts Q.
Proof. intros Hm HQ; eapply gets_mono; [exact Hm|]; intros r l (e & -> & He & ->); auto. Qed.

Lemma reads_mono {A} (m : M A) ts (P P' : A -> Prop) ts' :
  reads m ts P ts' -> (forall a, P a -> P' a) -> reads m ts P' ts'.
Proof. intros Hm HP; eapply gets_reads; [exact Hm|]; eauto. Qed.

End View.

(** One step of a parse function on a list whose head is known; calls of other parse
    functions are left to the user.  The rules for a token of another type come
    after those for the expected one. *)
Ltac type_done := solve [reflexivity | assumption | congruence | discriminate].

Ltac not_line :=
  solve [ discriminate | intros ?; congruence
        | let H := fresh in intros H; exfalso; revert H; assumption ].

Ltac gets_step :=
  lazymatch goal with
  | |- gets (guarded _) _ _ => apply gets_guarded
  | |- gets (guarded_opt _) _ _ => apply gets_guarded_opt
  | |- gets (_ ≫= _) _ _ => apply gets_bind
  | |- gets (mret _) _ _ => apply gets_ret
  | |- gets (err _) _ _ => apply gets_err; intros ?
  | |- gets (append_err _ _) _ _ => apply gets_append; intros ?
  | |- gets get_loc _ _ => apply gets_get_loc; intros ?
  | |- gets (try_ _) _ _ => apply gets_try
  | |- gets peek (_ :: _) _ => apply gets_peek; intros ? ? ?
  | |- gets peek_value (_ :: _) _ => apply gets_peek_value; intros ? ? ?
  | |- gets peek_type (_ :: _) _ => apply gets_peek_type
  | |- gets (peek_is _) (_ :: _) _ => apply gets_peek_is
  | |- gets next (_ :: _) _ => apply gets_next; [type_done| |not_line]
  | |- gets (EXPECT_TOKEN _) (_ :: _) _ =>
      first [ apply gets_EXPECT; [type_done|discriminate| |discriminate]
            | apply gets_EXPECT_other; [type_done|intros ? ?] ]
  | |- gets (EXPECT_TOKEN_FATAL _) (_ :: _) _ =>
      apply gets_EXPECT_FATAL; [type_done|discriminate..|]
  | |- gets (EXPECT_TOKEN_ERR _ _) (_ :: _) _ =>
      apply gets_EXPECT_ERR; [type_done|discriminate..|]
  | |- gets (EXPECT_GET_TOKEN _) (_ :: _) _ =>
      first [ apply gets_EXPECT_GET; [type_done|discriminate..|intros ? ?]
            | apply gets_EXPECT_GET_other; [type_done|intros ? ?] ]
  | |- gets (EXPECT_GET_TOKEN_FATAL _) (_ :: _) _ =>
      apply gets_EXPECT_GET_FATAL; [type_done|discriminate..|intros ? ?]
  | |- gets (SKIP_TOKEN_ONCE _) (_ :: _) _ => apply gets_SKIP_ONCE; [discriminate..|]
  | |- gets (if bool_decide _ then _ else _) _ _ =>
      first [ rewrite bool_decide_true by type_done | rewrite bool_decide_false by type_done ]
  | |- gets (if decide _ then _ else _) _ _ =>
      first [ rewrite decide_True by type_done | rewrite decide_False by type_done ]
  | |- gets _ (if decide _ then _ else _) _ =>
      first [ rewrite decide_True by type_done | rewrite decide_False by type_done ]
  end; cbv beta iota.
Ltac gets_steps := repeat gets_step.

(** The postconditions of [reads] and [rejects]. *)
Ltac reads_done := eexists; split; [reflexivity|split; [|reflexivity]].
Ltac rejects_done := eexists; split_and!; [reflexivity|(reflexivity || assumption)|reflexivity].

(** ** Layouts are sources with the tokens they lay out *)

Lemma spaced_head ts src b bs : spaced ts src -> is_blank b = true -> forallb is_blank bs = true ->
  FromChars (b :: bs ++ src) = Done (Some (Value_make Space (1 + Z.of_nat (length bs)))).
Proof.
  intros Hs Hb Hbs; unfold FromChars.
  assert (He : endl_from_chars (b :: bs ++ src) = None)
    by (destruct (blank_cases b Hb) as [-> | ->]; reflexivity).
  rewrite He, Hb, scan_app; [reflexivity| |].
  - apply Forall_forall; intros c Hc; apply (proj1 (forallb_forall _ _) Hbs); now apply list_elem_of_In.
  - destruct Hs as [|v cs b' bs' ts src Hv Hb' _ _]; [exact I|].
    pose proof (spells_lexed _ _ _ (bs' ++ src) Hv Hb') as Hl.
    destruct cs as [|c cs]; [now destruct (spells_nonempty _ _ Hv)|].
    simpl in *; destruct (is_blank c) eqn:Ec; [|reflexivity].
    assert (He' : endl_from_chars (c :: cs ++ b' :: bs' ++ src) = None)
      by (destruct (blank_cases c Ec) as [-> | ->]; reflexivity).
    unfold FromChars in Hl; rewrite He', Ec in Hl; injection Hl as <-.
    now destruct (spells_type _ _ Hv) as (_ & ? & _).
Qed.

Lemma spaced_ahead ts src pre : spaced ts src ->
  ahead (pre ++ src) (Z.of_nat (length pre)) ts.
Proof.
  intros Hs; revert pre; induction Hs as [|v cs b bs ts src Hv Hb Hbs Hs IH]; intros pre.
  { apply ahead_end; [|reflexivity]; apply scan_at_some.
    now rewrite Nat2Z.id, drop_app_length. }
  destruct (spells_type _ _ Hv) as (He & _ & Hl).
  apply (ahead_space _ _ _ (Value_make Space (1 + Z.of_nat (length bs)))); [|exact He| |reflexivity|].
  - apply scan_at_some; rewrite Nat2Z.id, drop_app_length; now apply spells_lexed.
  - apply scan_at_some; rewrite Hl, <- Nat2Z.inj_add, <- length_app, Nat2Z.id, app_assoc, drop_app_length.
    eapply spaced_head; eassumption.
  - specialize (IH (pre ++ cs ++ b :: bs)); rewrite <- !app_assoc in IH; cbn [app] in IH.
    rewrite !length_app in IH; cbn [length] in IH.
    replace (Z.of_nat (length pre) + len_ v + len_ (Value_make Space (1 + Z.of_nat (length bs))))
      with (Z.of_nat (length pre + (length cs + S (length bs)))) by (simpl; lia).
    exact IH.
Qed.

Lemma spaced_tokens ts src : spaced ts src -> tokens_of src ts.
Proof. exact (spaced_ahead ts src []). Qed.

(** A source has at most one token per byte, and the end. *)
Lemma ahead_length src p ts : ahead src p ts -> 0 <= p <= Z.of_nat (length src) ->
  Z.of_nat (length ts) <= Z.of_nat (length src) - p + 1.
Proof.
  induction 1 as [p v Hv He|p v ts Hv He Ha IH _|p v w ts Hv He Hw Hsp Ha IH]; intros Hp;
    [simpl; lia|..]; destruct (scan_lexeme _ _ _ Hv) as (_ & _ & [(_ & Ht & _)|(Hd & _ & Hl)]);
    try congruence; rewrite length_drop in Hl; cbn [length].
  - specialize (IH ltac:(lia)); lia.
  - destruct (scan_lexeme _ _ _ Hw) as (_ & _ & [(_ & Ht & _)|(_ & _ & Hl')]); [congruence|].
    rewrite length_drop in Hl'; specialize (IH ltac:(lia)); lia.
Qed.

Lemma tokens_fuel src ts : tokens_of src ts -> (length ts <= S (length src))%nat.
Proof. intros H%ahead_length; [lia|]; lia. Qed.

(** Computing the tokens of a source. *)
Fixpoint lex_from (fuel : nat) (src : list ascii) (p : Z) : option (list Value) :=
  match fuel with
  | O => None
  | S k =>
      match scan_at src p with
      | Done (Some v) =>
          if decide (type_ v = Enf) then Some [v]
          else
            match scan_at src (p + len_ v) with
            | Done (Some w) =>
                let q := p + len_ v + (if decide (type_ w = Space) then len_ w else 0) in
                option_map (cons v) (lex_from k src q)
            | _ => None
            end
      | _ => None
      end
  end.

Definition lex (src : list ascii) : option (list Value) := lex_from (S (length src)) src 0.

Lemma lex_from_ahead k src p ts : lex_from k src p = Some ts -> ahead src p ts.
Proof.
  revert p ts; induction k as [|k IH]; intros p ts H; [discriminate|]; cbn [lex_from] in H.
  destruct (scan_at src p) as [[v|]| | |] eqn:Hv; try discriminate H.
  destruct (decide (type_ v = Enf)) as [He|He]; [injection H as <-; now apply ahead_end|].
  destruct (scan_at src (p + len_ v)) as [[w|]| | |] eqn:Hw; try discriminate H; cbv zeta in H.
  destruct (lex_from k src _) as [l|] eqn:Hl; [|discriminate]; injection H as <-; apply IH in Hl.
  destruct (decide (type_ w = Space)) as [Hs|Hs].
  - eapply ahead_space; eauto.
  - rewrite Z.add_0_r in Hl; apply ahead_tight; auto; congruence.
Qed.

Lemma lex_tokens src ts : lex src = Some ts -> tokens_of src ts.
Proof. apply lex_from_ahead. Qed.
