(* ===== verification/ExprParser.v ===== *)
(** * ExprParser: expressions (src/src/ast.cpp, [Expr::parse*])

    [Expr_parse fuel] is [Expr::parse]; the nested call from the arguments of a
    function call uses one unit of fuel less, and so does each round of a loop.
    Fuel above the number of bytes left is enough ([Expr_parse_tri] in ExprSound). *)

From S2P Require Import Prelude Machine Common Token TokenStream Ast ParseMonad.
Import token.

#[local] Set Warnings "-register-all".

(** The token types that are expressions by themselves. *)
Definition is_atom (t : Type_) : bool :=
  match t with
  | Int | Float | Str | True_ | False_ | Symbol => true
  | _ => false
  end.

Definition parse_token : M Expr := guarded (
  o ← peek;
  match o with
  | None => err "parse tk error"
  | Some t =>
      if is_atom (type_ t) then next;; mret (MakeAtomic t)
      else err "parse tk error"
  end).

Section Levels.
(** [Expr::parse] for the arguments of a call, and the fuel of the loops. *)
Variable rec : M Expr.
Variable fuel : nat.

(** The argument list: expressions separated by commas; a trailing comma is
    accepted. *)
Fixpoint args_loop (k : nat) (acc : list Expr) : M (list Expr) :=
  match k with
  | O => lift OutOfFuel
  | S k =>
      r ← try_ rec;
      match r with
      | Error _ => mret acc
      | Ok e =>
          b ← peek_is Comma;
          if b : bool then next;; args_loop k (acc ++ [e]) else mret (acc ++ [e])
      end
  end.

Definition parse_funcall : M Expr := guarded (
  f ← try_ parse_token;
  match f with
  | Error _ => err "expect err"
  | Ok f =>
      EXPECT_TOKEN LParent;;
      es ← args_loop fuel [f];
      EXPECT_TOKEN RParent;;
      mret (Expr_make FUNCALL es [])
  end).

Definition parse_atomic : M Expr := guarded (
  fc ← try_ parse_funcall;
  match fc with
  | Ok fc => mret fc
  | Error _ =>
      t ← peek_type;
      let sub_prefix := bool_decide (t = Sub) in
      (if sub_prefix then next else mret ());;
      e ← try_ parse_token;
      match e with
      | Error _ => err "parse atomic error"
      | Ok e => mret (if sub_prefix then Expr_make OPS [e] [Sub] else e)
      end
  end).

(** The loop shared by the two levels of left-associative operators. *)
Fixpoint chain_loop (is_op : Type_ -> bool) (operand : M Expr) (msg : string)
    (k : nat) (es : list Expr) (os : list Type_) : M Expr :=
  match k with
  | O => lift OutOfFuel
  | S k =>
      t ← peek_type;
      if is_op t then
        next;;
        e ← try_ operand;
        match e with
        | Ok e => chain_loop is_op operand msg k (es ++ [e]) (os ++ [t])
        | Error _ => err msg
        end
      else mret (Expr_make OPS es os)
  end.

Definition is_star (t : Type_) : bool := bool_decide (t = Star) || bool_decide (t = Slash).
Definition is_plus (t : Type_) : bool := bool_decide (t = Plus) || bool_decide (t = Sub).
Definition is_greater (t : Type_) : bool :=
  bool_decide (t = Greater) || bool_decide (t = Less) || bool_decide (t = Equal).

Definition parse_with_star : M Expr := guarded (
  e0 ← try_ parse_atomic;
  match e0 with
  | Error _ => err "parse atomic expr error"
  | Ok e0 =>
      t ← peek_type;
      if negb (is_star t) then mret e0
      else chain_loop is_star parse_atomic "parse expr with star error" fuel [e0] []
  end).

Definition parse_with_plus : M Expr := guarded (
  e0 ← try_ parse_with_star;
  match e0 with
  | Error _ => err "parse expr with error"
  | Ok e0 =>
      t ← peek_type;
      if negb (is_plus t) then mret e0
      else chain_loop is_plus parse_with_star "parse expr error" fuel [e0] []
  end).

(** One comparison at most: [a < b < c] leaves [< c] unread. *)
Definition parse_with_greater : M Expr := guarded (
  e0 ← try_ parse_with_plus;
  match e0 with
  | Error _ => err "parse expr error"
  | Ok e0 =>
      t ← peek_type;
      if negb (is_greater t) then mret e0
      else
        next;;
        e1 ← try_ parse_with_plus;
        match e1 with
        | Error _ => err "parse expr error"
        | Ok e1 => mret (Expr_make OPS [e0; e1] [t])
        end
  end).
End Levels.

(** [Expr::parse] *)
Fixpoint Expr_parse (fuel : nat) : M Expr :=
  match fuel with
  | O => lift OutOfFuel
  | S k => parse_with_greater (Expr_parse k) fuel
  end.

(** ** The shape of what is parsed *)

Definition op_token (t : Type_) : bool := is_star t || is_plus t || is_greater t.

(** A tree as the parser builds it: a token; a call of a token; a negated
    token; or operands with exactly one operator between two of them. *)
Inductive well_shaped : Expr -> Prop :=
  | ws_token e : etype_ e = TOKEN -> exprs e = [] -> ops e = [] ->
      is_atom (type_ (v e)) = true -> well_shaped e
  | ws_call e f es : etype_ e = FUNCALL -> exprs e = f :: es -> ops e = [] ->
      etype_ f = TOKEN -> Forall well_shaped (f :: es) -> well_shaped e
  | ws_neg e t : etype_ e = OPS -> exprs e = [t] -> ops e = [Sub] ->
      etype_ t = TOKEN -> well_shaped t -> well_shaped e
  | ws_ops e e0 es : etype_ e = OPS -> exprs e = e0 :: es -> es <> [] ->
      length (ops e) = length es ->
      forallb op_token (ops e) = true ->
      Forall well_shaped (e0 :: es) -> well_shaped e.
