(* ===== verification/StmtParser.v ===== *)
(** * StmtParser: statements, blocks and the root (src/src/ast.cpp)

    Fuel as in ExprParser: [Block_parse fuel] is [Block::parse], the blocks
    nested in [if], [for] and [func] are parsed with one unit less. *)

From S2P Require Import Prelude Machine Common Token TokenStream Ast ParseMonad ExprParser.
Import token.

#[local] Set Warnings "-register-all".

(** ** Types *)

Section Loops.
Variable fuel : nat.

Fixpoint fields_loop (k : nat) (i : Z) (acc : list (string * string))
    : M (list (string * string)) :=
  match k with
  | O => lift OutOfFuel
  | S k =>
      lift (assert_ (i <? 10000) "i < 10000");;
      t ← peek_type;
      if decide (t = Symbol) then
        first ← peek_value;
        next;;
        t ← peek_type;
        if decide (t = Symbol) then
          second ← peek_value;
          next;;
          EXPECT_TOKEN Enl;;
          SKIP_TOKEN fuel Enl;;
          fields_loop k (i + 1) (acc ++ [(str_data_ first, str_data_ second)])
        else err "expect name"
      else mret acc
  end.

(** [Struct::parse] *)
Definition Struct_parse : M Ast.Struct := guarded (
  EXPECT_TOKEN token.Struct;;
  EXPECT_TOKEN LBrace;;
  SKIP_TOKEN fuel Enl;;
  fields ← fields_loop fuel 0 [];
  EXPECT_TOKEN RBrace;;
  mret (mkStruct Loc_default Loc_default "" fields)).

(** [VarType::parse]: never fails; the guard is finished only when a struct or a
    name was read. *)
Definition VarType_parse : M VarType := guarded_opt (
  stct ← try_ Struct_parse;
  match stct with
  | Ok s => mret (mkVarType Loc_default Loc_default true (Some s) "", true)
  | Error _ =>
      b ← peek_is Symbol;
      if b : bool then
        n ← peek_value;
        next;;
        mret (mkVarType Loc_default Loc_default false None (str_data_ n), true)
      else mret (VarType_make, false)
  end).

(** [Typedef::parse] *)
Definition Typedef_parse : M Typedef_ := guarded (
  EXPECT_TOKEN Typedef;;
  vt ← try_ VarType_parse;
  match vt with
  | Error e =>
      l ← get_loc;
      fail (setFatal (Err_Append e l "parsing var_type error when parsing typedef"))
  | Ok vt =>
      t ← peek_type;
      if decide (t = Symbol) then
        n ← peek_value;
        next;;
        mret (mkTypedef Loc_default Loc_default (str_data_ n) vt)
      else fatal "expect name in typedef"
  end).

(** ** Simple statements *)

(** [Declaration::parse] *)
Definition Declaration_parse : M Declaration := guarded (
  EXPECT_TOKEN Var;;
  n ← EXPECT_GET_TOKEN_FATAL Symbol;
  vt ← try_ VarType_parse;
  EXPECT_TOKEN Assign;;
  e ← try_ (Expr_parse fuel);
  match e with
  | Error e => append_err e "parse Expr error"
  | Ok e =>
      mret (mkDeclaration Loc_default Loc_default (str_data_ n)
              (match vt with Ok vt => Some vt | Error _ => None end) e)
  end).

(** [Assignment::parse] *)
Definition Assignment_parse : M Assignment := guarded (
  n ← EXPECT_GET_TOKEN Symbol;
  EXPECT_TOKEN Assign;;
  e ← try_ (Expr_parse fuel);
  match e with
  | Error e => append_err e "parse Expr error"
  | Ok e => mret (mkAssignment Loc_default Loc_default (str_data_ n) e)
  end).

Fixpoint return_loop (k : nat) (i : Z) (acc : list Expr) : M (list Expr) :=
  match k with
  | O => lift OutOfFuel
  | S k =>
      lift (assert_ (i <? 100) "i < 100");;
      e ← try_ (Expr_parse fuel);
      match e with
      | Ok e => return_loop k (i + 1) (acc ++ [e])
      | Error _ => mret acc
      end
  end.

(** [Return::parse] *)
Definition Return_parse : M Return_ := guarded (
  EXPECT_TOKEN Return;;
  es ← return_loop fuel 0 [];
  mret (mkReturn Loc_default Loc_default es)).

(** ** Statements with blocks.  [rec] is [Block::parse]. *)

Section Blocks.
Variable rec : M Block.

(** The argument list of a function: at most [n] (1000) pairs of symbols. *)
Fixpoint fun_args_loop (n : nat) (acc : list (string * string)) : M (list (string * string)) :=
  match n with
  | O => mret acc
  | S n =>
      t ← peek_type;
      if decide (t = Symbol) then
        name ← EXPECT_GET_TOKEN_FATAL Symbol;
        ty ← EXPECT_GET_TOKEN_FATAL Symbol;
        SKIP_TOKEN_ONCE Comma;;
        fun_args_loop n (acc ++ [(str_data_ name, str_data_ ty)])
      else mret acc
  end.

(** The result types: [n] (100) rounds, the last of which fails an assertion. *)
Fixpoint fun_returns_loop (n : nat) (i : Z) (acc : list string) : M (list string) :=
  match n with
  | O => mret acc
  | S n =>
      lift (assert_ (i <? 99) "i < 99");;
      t ← peek;
      match t with
      | Some t =>
          if decide (type_ t = Symbol) then
            next;; fun_returns_loop n (i + 1) (acc ++ [str_data_ t])
          else mret acc
      | None => mret acc
      end
  end.

(** [Function::parse].  The test that the name is a symbol builds an [Err] and
    drops it: whatever token is there is stepped over, its text the name. *)
Definition Function_parse : M Function_ := guarded (
  EXPECT_TOKEN Func;;
  _ ← peek_type;
  n ← peek_value;
  next;;
  EXPECT_TOKEN_FATAL LParent;;
  args ← fun_args_loop 1000 [];
  EXPECT_TOKEN_FATAL RParent;;
  rets ← fun_returns_loop 100 0 [];
  EXPECT_TOKEN_ERR LBrace "expect {";;
  SKIP_TOKEN fuel Enl;;
  b ← try_ rec;
  match b with
  | Error e => append_err e "parse block error"
  | Ok b =>
      EXPECT_TOKEN RBrace;;
      mret (mkFunction Loc_default Loc_default (str_data_ n) args rets b)
  end).

(** The body of a branch: [{ block }]. *)
Definition braced_block (msg : string) : M Block :=
  EXPECT_TOKEN LBrace;;
  SKIP_TOKEN fuel Enl;;
  b ← try_ rec;
  match b with
  | Error e => l ← get_loc; append_err e (msg +:+ Loc_ToString l)%string
  | Ok b => EXPECT_TOKEN RBrace;; mret b
  end.

Fixpoint if_loop (k : nat) (i : Z) (acc : list (Expr * Block)) : M If_ :=
  match k with
  | O => lift OutOfFuel
  | S k =>
      lift (assert_ (i <? 1000) "i < 1000");;
      in_tail_else ←
        (if i =? 0 then EXPECT_TOKEN If;; mret false
         else
           b ← peek_is If;
           if b : bool then next;; mret false else mret true);
      if in_tail_else : bool then
        b ← braced_block "parse if error at";
        mret (mkIf Loc_default Loc_default acc (Some b))
      else
        e ← try_ (Expr_parse fuel);
        match e with
        | Error _ => err "parse expr error"
        | Ok e =>
            b ← braced_block "parse if error at";
            more ← peek_is Else;
            if more : bool then next;; if_loop k (i + 1) (acc ++ [(e, b)])
            else mret (mkIf Loc_default Loc_default (acc ++ [(e, b)]) None)
        end
  end.

(** [If::parse] *)
Definition If_parse : M If_ := guarded (if_loop fuel 0 []).

(** A clause of the [for] header that may be missing. *)
Definition optional {A} (m : M A) : M (option A) :=
  r ← try_ m; mret (match r with Ok a => Some a | Error _ => None end).

(** [For::parse] *)
Definition For_parse : M For_ := guarded (
  EXPECT_TOKEN For;;
  init ← optional Declaration_parse;
  EXPECT_TOKEN Semicolon;;
  cond ← optional (Expr_parse fuel);
  EXPECT_TOKEN Semicolon;;
  step ← optional Assignment_parse;
  b ← braced_block "parse for error at";
  mret (mkFor Loc_default Loc_default init cond step b)).

(** [NodeParseFunc<T>] *)
Definition as_node {T} (c : T -> Node) (m : M T) : M Node := x ← m; mret (c x).

(** [parse_funcs], in the order they are tried. *)
Definition parse_funcs : list (M Node) :=
  [ as_node NDeclaration Declaration_parse;
    as_node NAssignment Assignment_parse;
    as_node NExpr (Expr_parse fuel);
    as_node NIf If_parse;
    as_node NFunction Function_parse;
    as_node NReturn Return_parse;
    as_node NFor For_parse;
    as_node NTypedef Typedef_parse ].

(** The inner loop of [Block::parse]: the first function that succeeds; a fatal
    error ends the block. *)
Fixpoint try_funcs (fs : list (M Node)) : M (option Node) :=
  match fs with
  | [] => mret None
  | f :: fs =>
      r ← try_ f;
      match r with
      | Ok n => mret (Some n)
      | Error e => if is_fatal_ e then fail e else try_funcs fs
      end
  end.

Fixpoint block_loop (k : nat) (i : Z) (acc : list Node) : M (list Node) :=
  match k with
  | O => lift OutOfFuel
  | S k =>
      lift (assert_ (i <? 100000) "i < 100000");;
      SKIP_TOKEN fuel Enl;;
      r ← try_funcs parse_funcs;
      match r with
      | Some n => block_loop k (i + 1) (acc ++ [n])
      | None => mret acc
      end
  end.

Definition Block_body : M Block := guarded (
  ns ← block_loop fuel 0 [];
  mret (mkBlock Loc_default Loc_default ns)).
End Blocks.
End Loops.

(** [Block::parse] *)
Fixpoint Block_parse (fuel : nat) : M Block :=
  match fuel with
  | O => lift OutOfFuel
  | S k => Block_body fuel (Block_parse k)
  end.

(** [Root::parse] *)
Definition Root_parse (fuel : nat) : M Root := guarded (
  b ← try_ (Block_parse fuel);
  match b with
  | Error e => append_err e "parse root err"
  | Ok b =>
      SKIP_TOKEN fuel Enl;;
      EXPECT_TOKEN Enf;;
      mret (mkRoot Loc_default Loc_default b)
  end).

(** A whole source: one unit of fuel per byte and one more. *)
Definition source_fuel (src : list ascii) : nat := S (length src).
Definition parse_source (src : list ascii) : outcome (Result Root * TokenStream) :=
  Root_parse (source_fuel src) (TokenStream_make src).

(** ** Lemmas *)

(** At the end-of-input token nothing is left. *)
Lemma at_end s : wf s -> at_type s Enf -> pos (state_ s) = Z.of_nat (length (src_ s)).
Proof.
  intros Hwf (w & Hw & Ht); pose proof (wf_pos s Hwf).
  destruct (scan_lexeme _ _ _ Hw) as (_ & _ & [(Hd & _)|(_ & ? & _)]); [|congruence].
  apply (f_equal length) in Hd; rewrite length_drop in Hd; simpl in Hd; lia.
Qed.

(** Deciding [lexable]: scan from the start to the end. *)
Fixpoint lexable_from (fuel : nat) (src : list ascii) (p : Z) : bool :=
  match fuel with
  | O => false
  | S k =>
      match scan_at src p with
      | Done (Some w) =>
          if decide (type_ w = Enf) then true else lexable_from k src (p + len_ w)
      | _ => false
      end
  end.

Definition lexable_b (src : list ascii) : bool := lexable_from (S (length src)) src 0.

Lemma lexable_from_walk k src p l n :
  walk src n = Some (p, l) -> lexable_from k src p = true ->
  forall m q, walk src (m + n) <> None /\
    (forall k', walk src (m + n) = Some (q, k') ->
       exists w, FromChars (drop (Z.to_nat q) src) = Done (Some w)).
Proof.
  revert p l n; induction k as [|k IH]; intros p l n Hn Hk m q; [discriminate|].
  cbn [lexable_from] in Hk.
  destruct (scan_at src p) as [[w|]| | |] eqn:Hw; try discriminate Hk; apply scan_at_some in Hw.
  assert (Hn' : walk src (S n) = Some (p + len_ w, advance l w))
    by (simpl; rewrite Hn; simpl; now rewrite Hw).
  destruct (decide (type_ w = Enf)) as [He|He].
  - assert (Hst : forall m, walk src (m + n) = Some (p, l)).
    { clear m q; induction m as [|m IHm]; [exact Hn|]; simpl; rewrite IHm; simpl; rewrite Hw.
      destruct (FromChars_lexeme _ _ Hw) as (_ & _ & [(_ & _ & Hl)|(_ & ? & _)]); [|congruence].
      rewrite advance_empty, Hl, Z.add_0_r by assumption; reflexivity. }
    rewrite Hst; split; [discriminate|]; intros k' [= <- <-]; eauto.
  - destruct m as [|m].
    + simpl; rewrite Hn; split; [discriminate|]; intros k' [= <- <-]; eauto.
    + rewrite Nat.add_succ_comm; eapply IH; eauto.
Qed.

Lemma lexable_b_ok src : lexable_b src = true -> lexable src.
Proof.
  intros H p l Hc; apply chain_walk in Hc as [n Hn].
  destruct (lexable_from_walk _ _ _ _ O eq_refl H n p) as [_ Hw].
  rewrite Nat.add_0_r in Hw; eauto.
Qed.
