(* ===== verification/Grammar.v ===== *)
(** * Grammar: the tokens a syntax tree is written with (src/src/ast.cpp)

    The specification of the parser: [Root_tokens] prints a tree as the tokens the
    parse functions expect, [Root_canon] says which trees a source can denote, and
    [Root_bare] forgets where the nodes and tokens were. *)

From S2P Require Import Prelude Machine Common Token TokenStream Ast ParseMonad ExprParser.
From S2P Require Import TokenView.
Import token.
From Stdlib Require Import SpecFloat.

#[local] Set Warnings "-register-all".

#[export] Instance spec_float_eq_dec : EqDecision spec_float.
Proof. solve_decision. Defined.
#[export] Instance Value_eq_dec : EqDecision Value.
Proof. solve_decision. Defined.

(** ** Trees without locations *)

Abbreviation nowhere := Loc_default.

Fixpoint Expr_bare (e : Expr) : Expr :=
  mkExpr nowhere nowhere (etype_ e) (bare_value (v e)) (map Expr_bare (exprs e)) (ops e).

Definition Struct_bare (s : Ast.Struct) : Ast.Struct := set_span nowhere nowhere s.
Definition VarType_bare (t : VarType) : VarType :=
  mkVarType nowhere nowhere (is_struct_ t) (option_map Struct_bare (stct_ t)) (vt_name_ t).
Definition Declaration_bare (d : Declaration) : Declaration :=
  mkDeclaration nowhere nowhere (d_var_name d) (option_map VarType_bare (var_type d))
    (Expr_bare (d_expr d)).
Definition Assignment_bare (a : Assignment) : Assignment :=
  mkAssignment nowhere nowhere (a_var_name a) (Expr_bare (a_expr a)).
Definition Return_bare (r : Return_) : Return_ :=
  mkReturn nowhere nowhere (map Expr_bare (ret_exprs r)).
Definition Typedef_bare (t : Typedef_) : Typedef_ :=
  mkTypedef nowhere nowhere (new_name_ t) (VarType_bare (old_type_ t)).

Definition Block_bare_with (f : Node -> Node) (b : Block) : Block :=
  mkBlock nowhere nowhere (map f (nodes_ b)).

Fixpoint Node_bare (n : Node) : Node :=
  match n with
  | NDeclaration d => NDeclaration (Declaration_bare d)
  | NAssignment a => NAssignment (Assignment_bare a)
  | NExpr e => NExpr (Expr_bare e)
  | NIf i => NIf (mkIf nowhere nowhere
      (map (fun b => (Expr_bare b.1, Block_bare_with Node_bare b.2)) (branches_ i))
      (option_map (Block_bare_with Node_bare) (tail_else_ i)))
  | NFunction f => NFunction (mkFunction nowhere nowhere (func_name f) (args f) (returns f)
      (Block_bare_with Node_bare (f_block f)))
  | NReturn r => NReturn (Return_bare r)
  | NFor f => NFor (mkFor nowhere nowhere (option_map Declaration_bare (init_stmt_ f))
      (option_map Expr_bare (finish_cond_ f)) (option_map Assignment_bare (step_stmp_ f))
      (Block_bare_with Node_bare (for_block_ f)))
  | NTypedef t => NTypedef (Typedef_bare t)
  end.

Definition Block_bare : Block -> Block := Block_bare_with Node_bare.
Definition Root_bare (r : Root) : Root := mkRoot nowhere nowhere (Block_bare (block_ r)).

(** ** Tokens *)

(** A token spelled by its text in the table. *)
Definition kw (t : Type_) : Value := Value_make t (Z.of_nat (String.length (debug_type t))).
Definition symbol (s : string) : Value := CreateSymbol (Z.of_nat (String.length s)) s.
Definition end_of_input : Value := Value_make Enf 0.

(** Lists of tokens with a separator between them. *)
Fixpoint joined (sep : Type_) (l : list (list Value)) : list Value :=
  match l with
  | [] => []
  | x :: l' => x ++ match l' with [] => [] | _ :: _ => kw sep :: joined sep l' end
  end.

(** Operators and the operands that follow them. *)
Fixpoint weave (os : list Type_) (l : list (list Value)) : list Value :=
  match os, l with
  | o :: os, x :: l => kw o :: x ++ weave os l
  | _, _ => []
  end.

Fixpoint Expr_tokens (e : Expr) : list Value :=
  match etype_ e with
  | TOKEN => [bare_value (v e)]
  | FUNCALL =>
      match exprs e with
      | f :: es => Expr_tokens f ++ kw LParent :: joined Comma (map Expr_tokens es) ++ [kw RParent]
      | [] => []
      end
  | OPS =>
      match exprs e with
      | [x] => weave (ops e) [Expr_tokens x]
      | x :: es => Expr_tokens x ++ weave (ops e) (map Expr_tokens es)
      | [] => []
      end
  end.

Definition field_tokens (f : string * string) : list Value := [symbol f.1; symbol f.2; newline].

Definition Struct_tokens (s : Ast.Struct) : list Value :=
  kw token.Struct :: kw LBrace :: newline ::
  flat_map field_tokens (fields_ s) ++ [kw RBrace].

(** The type of a declaration that gives none has the empty name. *)
Definition VarType_tokens (t : VarType) : list Value :=
  if is_struct_ t then match stct_ t with Some s => Struct_tokens s | None => [] end
  else if decide (vt_name_ t = "") then [] else [symbol (vt_name_ t)].

Definition Declaration_tokens (d : Declaration) : list Value :=
  kw Var :: symbol (d_var_name d) ::
  match var_type d with Some t => VarType_tokens t | None => [] end ++
  kw Assign :: Expr_tokens (d_expr d).

Definition Assignment_tokens (a : Assignment) : list Value :=
  symbol (a_var_name a) :: kw Assign :: Expr_tokens (a_expr a).

Definition Return_tokens (r : Return_) : list Value :=
  kw Return :: flat_map Expr_tokens (ret_exprs r).

Definition Typedef_tokens (t : Typedef_) : list Value :=
  kw Typedef :: VarType_tokens (old_type_ t) ++ [symbol (new_name_ t)].

Definition optional_tokens {A} (f : A -> list Value) (o : option A) : list Value :=
  match o with Some a => f a | None => [] end.

Section Blocks.
Variable node_tokens : Node -> list Value.

(** Every statement ends its line. *)
Definition lines (ns : list Node) : list Value :=
  flat_map (fun n => node_tokens n ++ [newline]) ns.

Definition braces (b : Block) : list Value :=
  kw LBrace :: newline :: lines (nodes_ b) ++ [kw RBrace].

Definition branch_tokens (b : Expr * Block) : list Value :=
  kw If :: Expr_tokens b.1 ++ braces b.2.

Definition If_tokens_with (i : If_) : list Value :=
  joined Else (map branch_tokens (branches_ i) ++
               match tail_else_ i with Some b => [braces b] | None => [] end).

Definition Function_tokens_with (f : Function_) : list Value :=
  kw Func :: symbol (func_name f) :: kw LParent ::
  joined Comma (map (fun a => [symbol a.1; symbol a.2]) (args f)) ++ kw RParent ::
  map symbol (returns f) ++ braces (f_block f).

Definition For_tokens_with (f : For_) : list Value :=
  kw For :: optional_tokens Declaration_tokens (init_stmt_ f) ++ kw Semicolon ::
  optional_tokens Expr_tokens (finish_cond_ f) ++ kw Semicolon ::
  optional_tokens Assignment_tokens (step_stmp_ f) ++ braces (for_block_ f).
End Blocks.

Fixpoint Node_tokens (n : Node) : list Value :=
  match n with
  | NDeclaration d => Declaration_tokens d
  | NAssignment a => Assignment_tokens a
  | NExpr e => Expr_tokens e
  | NIf i => If_tokens_with Node_tokens i
  | NFunction f => Function_tokens_with Node_tokens f
  | NReturn r => Return_tokens r
  | NFor f => For_tokens_with Node_tokens f
  | NTypedef t => Typedef_tokens t
  end.

Definition Root_tokens (r : Root) : list Value := lines Node_tokens (nodes r) ++ [end_of_input].

(** The source is a program text of the tree: its tokens are those of the tree, but
    for blank lines, before the first statement or where a line ends. *)
Definition written (src : list ascii) (r : Root) : Prop :=
  exists all, tokens_of src all /\ collapse (newline :: all) = newline :: Root_tokens r.

(** ** Canonical trees *)

Definition token_shape (e : Expr) : bool :=
  match etype_ e, exprs e, ops e with
  | TOKEN, [], [] => is_atom (type_ (v e))
  | _, _, _ => false
  end.

(** The member [v], where the kind of the node does not use it. *)
Definition unused (e : Expr) : bool := bool_decide (bare_value (v e) = Value_default).

(** The level of the grammar an expression belongs to: 0 for tokens, negated
    tokens and calls, 1 and 2 for chains of [*] and [/] and of [+] and [-], 3 for a
    comparison.  There are no parentheses, so an operand is of a lower level. *)
Fixpoint level (e : Expr) : option nat :=
  let below n x := match level x with Some l => (l <=? n)%nat | None => false end in
  match etype_ e, exprs e, ops e with
  | TOKEN, [], [] => if is_atom (type_ (v e)) then Some 0%nat else None
  | FUNCALL, f :: es, [] =>
      if unused e && token_shape f && forallb (below 3%nat) es then Some 0%nat else None
  | OPS, [x], [Sub] => if unused e && token_shape x then Some 0%nat else None
  | OPS, (_ :: _ :: _) as es, os =>
      if unused e && (length es =? S (length os))%nat then
        if forallb is_star os && forallb (below 0%nat) es then Some 1%nat
        else if forallb is_plus os && forallb (below 1%nat) es then Some 2%nat
        else if forallb is_greater os && forallb (below 2%nat) es && (length os =? 1)%nat
        then Some 3%nat else None
      else None
  | _, _, _ => None
  end.

Definition below (n : nat) (e : Expr) : bool :=
  match level e with Some l => (l <=? n)%nat | None => false end.

Definition Expr_canon : Expr -> bool := below 3.

Definition Struct_canon (s : Ast.Struct) : bool :=
  String.eqb (name_ s) "" && (Z.of_nat (length (fields_ s)) <=? 9999).

Definition VarType_canon (t : VarType) : bool :=
  if is_struct_ t
  then match stct_ t with Some s => Struct_canon s | None => false end && String.eqb (vt_name_ t) ""
  else match stct_ t with Some _ => false | None => true end.

Definition Declaration_canon (d : Declaration) : bool :=
  match var_type d with Some t => VarType_canon t | None => false end && Expr_canon (d_expr d).

Definition Assignment_canon (a : Assignment) : bool := Expr_canon (a_expr a).

(** A result that begins with [-] would continue the result before it. *)
Definition starts_sub (e : Expr) : bool :=
  match Expr_tokens e with t :: _ => bool_decide (type_ t = Sub) | [] => false end.

Definition Return_canon (r : Return_) : bool :=
  forallb Expr_canon (ret_exprs r) && (Z.of_nat (length (ret_exprs r)) <=? 99) &&
  forallb (fun e => negb (starts_sub e)) (tail (ret_exprs r)).

Definition Typedef_canon (t : Typedef_) : bool :=
  VarType_canon (old_type_ t) && (is_struct_ (old_type_ t) || negb (String.eqb (vt_name_ (old_type_ t)) "")).

Definition optional_canon {A} (f : A -> bool) (o : option A) : bool :=
  match o with Some a => f a | None => true end.

Definition option_list {A} (o : option A) : list A := match o with Some a => [a] | None => [] end.

Section BlockCanon.
Variable node_canon : Node -> bool.

Definition Block_canon_with (b : Block) : bool :=
  forallb node_canon (nodes_ b) && (Z.of_nat (length (nodes_ b)) <=? 99999).

Definition If_canon_with (i : If_) : bool :=
  forallb (fun b => Expr_canon b.1 && Block_canon_with b.2) (branches_ i) &&
  (1 <=? Z.of_nat (length (branches_ i))) &&
  (Z.of_nat (length (branches_ i)) + Z.of_nat (length (option_list (tail_else_ i))) <=? 1000) &&
  optional_canon Block_canon_with (tail_else_ i).

Definition Function_canon_with (f : Function_) : bool :=
  (Z.of_nat (length (args f)) <=? 1000) && (Z.of_nat (length (returns f)) <=? 98) &&
  Block_canon_with (f_block f).

Definition For_canon_with (f : For_) : bool :=
  optional_canon Declaration_canon (init_stmt_ f) && optional_canon Expr_canon (finish_cond_ f) &&
  optional_canon Assignment_canon (step_stmp_ f) && Block_canon_with (for_block_ f).
End BlockCanon.

Fixpoint Node_canon (n : Node) : bool :=
  match n with
  | NDeclaration d => Declaration_canon d
  | NAssignment a => Assignment_canon a
  | NExpr e => Expr_canon e
  | NIf i => If_canon_with Node_canon i
  | NFunction f => Function_canon_with Node_canon f
  | NReturn r => Return_canon r
  | NFor f => For_canon_with Node_canon f
  | NTypedef t => Typedef_canon t
  end.

Definition Block_canon : Block -> bool := Block_canon_with Node_canon.
Definition Root_canon (r : Root) : bool := Block_canon (block_ r).
