(* ===== verification/ExprComplete.v ===== *)
(** * ExprComplete: the expression parser reads what the grammar writes
    (src/src/ast.cpp, [Expr::parse*])

    On the tokens of a canonical expression, followed by a token that cannot
    continue it, [Expr_parse] builds that expression, up to locations, and stops at
    the token that follows. *)

From S2P Require Import Prelude Machine Common Token TokenStream Ast ParseMonad ExprParser.
From S2P Require Import TokenView Grammar.
Import token.

#[local] Set Warnings "-register-all".

(** A token that does not continue an expression of level [n]. *)
Definition follow (n : nat) (t : Type_) : bool :=
  negb (bool_decide (t = LParent)) && ((n =? 0)%nat || negb (is_star t)) &&
  ((n <=? 1)%nat || negb (is_plus t)) && ((n <=? 2)%nat || negb (is_greater t)).

(** A token that can begin an expression. *)
Definition starts (t : Type_) : bool := is_atom t || bool_decide (t = Sub).

Definition same_expr (e a : Expr) : Prop := Expr_bare a = Expr_bare e.

Lemma same_expr_span e a l1 l2 : same_expr e a -> same_expr e (set_span l1 l2 a).
Proof. now destruct a. Qed.

Lemma joined_cons sep x y l : joined sep (x :: y :: l) = x ++ kw sep :: joined sep (y :: l).
Proof. reflexivity. Qed.

(** ** The levels *)

Lemma below_spec n e : below n e = true <-> exists l, level e = Some l /\ (l <= n)%nat.
Proof.
  unfold below; destruct (level e) as [l|]; [rewrite Nat.leb_le|]; split; eauto.
  - intros (l' & [= ->] & ?); assumption.
  - discriminate.
  - now intros (l' & ? & _).
Qed.

(** The cases of [level]. *)
Inductive leveled : Expr -> nat -> Prop :=
  | lv_token a b w : is_atom (type_ w) = true -> leveled (mkExpr a b TOKEN w [] []) 0
  | lv_call a b w f es : bare_value w = Value_default -> token_shape f = true ->
      forallb Expr_canon es = true -> leveled (mkExpr a b FUNCALL w (f :: es) []) 0
  | lv_neg a b w x : bare_value w = Value_default -> token_shape x = true ->
      leveled (mkExpr a b OPS w [x] [Sub]) 0
  | lv_star a b w x y es os : bare_value w = Value_default -> length os = S (length es) ->
      forallb is_star os = true -> forallb (below 0) (x :: y :: es) = true ->
      leveled (mkExpr a b OPS w (x :: y :: es) os) 1
  | lv_plus a b w x y es os : bare_value w = Value_default -> length os = S (length es) ->
      forallb is_plus os = true -> forallb (below 1) (x :: y :: es) = true ->
      leveled (mkExpr a b OPS w (x :: y :: es) os) 2
  | lv_greater a b w x y o : bare_value w = Value_default -> is_greater o = true ->
      below 2 x = true -> below 2 y = true -> leveled (mkExpr a b OPS w [x; y] [o]) 3.

Lemma level_chain e x y es : exprs e = x :: y :: es -> etype_ e = OPS ->
  level e = if unused e && (S (S (length es)) =? S (length (ops e)))%nat then
      if forallb is_star (ops e) && forallb (below 0) (exprs e) then Some 1%nat
      else if forallb is_plus (ops e) && forallb (below 1) (exprs e) then Some 2%nat
      else if forallb is_greater (ops e) && forallb (below 2) (exprs e) && (length (ops e) =? 1)%nat
      then Some 3%nat else None
    else None.
Proof.
  destruct e as [a b t w l os]; simpl; intros -> ->.
  destruct os as [|[] [|o os]]; reflexivity.
Qed.

Ltac split_bools :=
  repeat match goal with
  | H : _ && _ = true |- _ => apply andb_true_iff in H as [? ?]
  | H : unused _ = true |- _ => apply bool_decide_eq_true in H; cbn [v] in H
  | H : bool_decide _ = true |- _ => apply bool_decide_eq_true in H
  | H : (_ =? _)%nat = true |- _ => apply Nat.eqb_eq in H
  end.

Lemma level_leveled e l : level e = Some l -> leveled e l.
Proof.
  destruct (etype_ e) eqn:Ht; destruct e as [a b t w l' os]; simpl in Ht; subst t.
  - cbn [level etype_ exprs ops v]; destruct l', os; try discriminate.
    destruct (is_atom (type_ w)) eqn:E; [intros [= <-]; now constructor|discriminate].
  - destruct l' as [|x [|y es]]; [discriminate| |].
    + cbn [level etype_ exprs ops v]; destruct os as [|[] [|? ?]]; try discriminate.
      destruct (unused _ && _) eqn:E; [|discriminate]; intros [= <-]; split_bools; now constructor.
    + rewrite (level_chain _ x y es) by reflexivity; cbn [ops exprs].
      destruct (unused _ && _) eqn:E; [|discriminate]; split_bools.
      match goal with H : S (S _) = S _ |- _ => injection H as Hl end.
      destruct (forallb is_star os && _) eqn:E1; [intros [= <-]; split_bools; now constructor|].
      destruct (forallb is_plus os && _) eqn:E2; [intros [= <-]; split_bools; now constructor|].
      destruct (forallb is_greater os && _ && _) eqn:E3; [intros [= <-]; split_bools|discriminate].
      destruct os as [|o [|? ?]]; try discriminate; destruct es; [|discriminate].
      cbn [forallb] in *; split_bools; now constructor.
  - cbn [level etype_ exprs ops v]; destruct l' as [|f es], os; try discriminate.
    destruct (unused _ && _ && _) eqn:E; [|discriminate]; intros [= <-]; split_bools; now constructor.
Qed.

(** ** Tokens, calls and negations *)

Section Reads.
Context {room : Slack}.

(** What is proved of the parse function of a level. *)
Definition reads_expr (m : M Expr) (n fuel : nat) (e : Expr) : Prop :=
  forall u rest, follow n (type_ u) = true -> (length (Expr_tokens e ++ u :: rest) <= fuel)%nat ->
  reads m (Expr_tokens e ++ u :: rest) (same_expr e) (u :: rest).

Lemma token_shape_inv e : token_shape e = true ->
  exists a b w, e = mkExpr a b TOKEN w [] [] /\ is_atom (type_ w) = true.
Proof.
  destruct e as [a b t w es os]; unfold token_shape; simpl.
  destruct t, es, os; try discriminate; eauto.
Qed.

Lemma atom_not_end t : is_atom t = true -> t <> Enf.
Proof. now intros H ->. Qed.

Lemma atom_not_line t : is_atom t = true -> t <> Enl.
Proof. now intros H ->. Qed.

Lemma token_reads e u rest : token_shape e = true ->
  reads parse_token (Expr_tokens e ++ u :: rest) (fun a => same_expr e a) (u :: rest).
Proof.
  intros (a & b & w & -> & Ha)%token_shape_inv; cbn [Expr_tokens etype_ v app].
  unfold reads, parse_token; gets_steps.
  match goal with H : type_ _ = type_ (bare_value w) |- _ => rename H into Ht end.
  change (type_ (bare_value w)) with (type_ w) in Ht; rewrite Ht, Ha.
  gets_step; apply gets_next; [now apply atom_not_end| |now intros Hl%atom_not_line].
  gets_steps; intros l1 l2; reads_done; unfold same_expr; cbn.
  match goal with H : _ -> bare_value _ = _ |- _ => rewrite H by (now apply atom_not_line) end; congruence.
Qed.

Lemma token_rejects u rest : is_atom (type_ u) = false -> rejects parse_token (u :: rest).
Proof.
  intros Ha; unfold rejects, parse_token; gets_steps.
  match goal with H : type_ _ = type_ u |- _ => rewrite H, Ha end; gets_steps; rejects_done.
Qed.

Section Levels.
Variable rec : M Expr.
Variable fuel : nat.
Hypothesis rec_reads : forall e u rest, Expr_canon e = true -> follow 3 (type_ u) = true ->
  (length (Expr_tokens e ++ u :: rest) < fuel)%nat ->
  reads rec (Expr_tokens e ++ u :: rest) (same_expr e) (u :: rest).
Hypothesis rec_rejects : forall u rest, starts (type_ u) = false ->
  (length (u :: rest) < fuel)%nat -> rejects rec (u :: rest).

Lemma args_reads es k acc rest : forallb Expr_canon es = true ->
  let ts := joined Comma (map Expr_tokens es) ++ kw RParent :: rest in
  (length ts < fuel)%nat -> (length ts <= k)%nat ->
  reads (args_loop rec k acc) ts
    (fun l => exists l', l = acc ++ l' /\ map Expr_bare l' = map Expr_bare es) (kw RParent :: rest).
Proof.
  revert k acc; induction es as [|e es IH]; intros k acc Hes ts Hf Hk; subst ts;
    (destruct k as [|k]; [rewrite length_app in Hk; simpl in Hk; lia|]); unfold reads; cbn [args_loop].
  - cbn [map joined app] in *; gets_steps.
    eapply gets_rejects; [now apply rec_rejects|]; intros _ _; gets_steps; reads_done.
    exists []; now rewrite app_nil_r.
  - cbn [forallb] in Hes; apply andb_true_iff in Hes as [He Hes]; cbn [map] in *.
    destruct es as [|e2 es]; cbn [map] in *.
    + cbn [joined] in *; rewrite app_nil_r in *; gets_steps.
      eapply gets_reads; [now apply rec_reads|]; intros a Ha; gets_steps; reads_done.
      exists [a]; split; [reflexivity|]; cbn; now rewrite Ha.
    + rewrite joined_cons, <- app_assoc in *; cbn [app] in *; gets_steps.
      eapply gets_reads; [now apply rec_reads|]; intros a Ha; gets_steps.
      rewrite length_app in Hf, Hk; cbn [length] in Hf, Hk.
      eapply gets_reads; [apply IH; [exact Hes|lia..]|]; intros l (l' & -> & Hl'); reads_done.
      exists (a :: l'); rewrite <- app_assoc; split; [reflexivity|]; cbn [map]; now rewrite Ha, Hl'.
Qed.

Lemma funcall_reads a b w f es rest : bare_value w = Value_default -> token_shape f = true ->
  forallb Expr_canon es = true -> let e := mkExpr a b FUNCALL w (f :: es) [] in
  (length (Expr_tokens e ++ rest) <= fuel)%nat -> rest <> [] ->
  reads (parse_funcall rec fuel) (Expr_tokens e ++ rest) (same_expr e) rest.
Proof.
  intros Hw Hf Hes e; subst e; cbn [Expr_tokens etype_ exprs]; rewrite <- !app_assoc; cbn [app].
  rewrite <- app_assoc; cbn [app]; intros Hlen Hrest; unfold reads, parse_funcall; gets_steps.
  eapply gets_reads; [now apply token_reads|]; intros f' Hf'; gets_steps.
  rewrite length_app in Hlen; cbn [length] in Hlen.
  eapply gets_reads; [apply args_reads; [exact Hes|lia..]|]; intros l (l' & -> & Hl').
  gets_steps; intros l1 l2; reads_done; unfold same_expr; cbn; rewrite Hw, Hl'.
  do 2 f_equal; exact Hf'.
Qed.

(** Without a token and a parenthesis there is no call. *)
Lemma funcall_rejects u rest : is_atom (type_ u) = false ->
  rejects (parse_funcall rec fuel) (u :: rest).
Proof.
  intros Ha; unfold rejects, parse_funcall; gets_steps.
  eapply gets_rejects; [now apply token_rejects|]; intros _ _; gets_steps; rejects_done.
Qed.

Lemma funcall_rejects_token e u rest : token_shape e = true -> type_ u <> LParent ->
  rejects (parse_funcall rec fuel) (Expr_tokens e ++ u :: rest).
Proof.
  intros He Hu; unfold rejects, parse_funcall; gets_steps.
  eapply gets_reads; [now apply token_reads|]; intros f' Hf'; gets_steps; rejects_done.
Qed.

Lemma follow_LParent n t : follow n t = true -> t <> LParent.
Proof. unfold follow; intros H ->; now cbn in H. Qed.

Lemma atomic_reads e : below 0 e = true -> reads_expr (parse_atomic rec fuel) 0 fuel e.
Proof.
  intros (l & Hl & Hle)%below_spec; apply level_leveled in Hl; intros u rest Hu%follow_LParent Hlen.
  unfold reads, parse_atomic; gets_steps.
  destruct Hl as [a b w Hw|a b w f es Hw Hf Hes|a b w x Hw Hx|a b w x y es os|a b w x y es os|a b w x y o];
    try lia.
  - set (e := mkExpr a b TOKEN w [] []).
    assert (He : token_shape e = true) by exact Hw.
    eapply gets_rejects; [now apply funcall_rejects_token|]; intros _ _.
    assert (Ht : type_ (bare_value w) <> Sub) by (change (type_ w <> Sub); intros E; now rewrite E in Hw).
    pose proof (token_reads e u rest He) as Hr; subst e; cbn [Expr_tokens etype_ v app] in *; gets_steps.
    eapply gets_reads; [exact Hr|]; intros x Hx; gets_steps; intros l1 l2; reads_done; now apply same_expr_span.
  - eapply gets_reads; [now apply funcall_reads|]; intros x Hx; gets_steps; intros l1 l2; reads_done.
    now apply same_expr_span.
  - cbn [Expr_tokens etype_ exprs ops weave] in *; rewrite app_nil_r in *; cbn [app].
    eapply gets_rejects; [now apply funcall_rejects|]; intros _ _; gets_steps.
    eapply gets_reads; [now apply token_reads|]; intros y Hy; gets_steps; intros l1 l2; reads_done.
    unfold same_expr; cbn; now rewrite Hw, Hy.
Qed.

Lemma atomic_rejects u rest : starts (type_ u) = false -> rejects (parse_atomic rec fuel) (u :: rest).
Proof.
  unfold starts; rewrite orb_false_iff; intros [Ha Hs%bool_decide_eq_false].
  unfold rejects, parse_atomic; gets_steps.
  eapply gets_rejects; [now apply funcall_rejects|]; intros _ _; gets_steps.
  eapply gets_rejects; [now apply token_rejects|]; intros _ _; gets_steps; rejects_done.
Qed.
End Levels.

(** ** A level of left-associative operators *)

Section Chains.
Variable is_op : Type_ -> bool.
Variable operand : M Expr.
Variable n fuel : nat.
Hypothesis operand_reads : forall e, below n e = true -> reads_expr operand n fuel e.
Hypothesis op_follows : forall t, is_op t = true -> follow n t = true /\ t <> Enf /\ t <> Enl.
Hypothesis follow_S : forall t, follow (S n) t = true -> follow n t = true /\ is_op t = false.
Hypothesis chain_inv : forall e, level e = Some (S n) -> exists a b w x y es os,
  e = mkExpr a b OPS w (x :: y :: es) os /\ bare_value w = Value_default /\
  length os = S (length es) /\ forallb is_op os = true /\ forallb (below n) (x :: y :: es) = true.

Lemma chain_reads msg es os k acc oacc u rest :
  length os = length es -> forallb is_op os = true -> forallb (below n) es = true ->
  follow (S n) (type_ u) = true ->
  let ts := weave os (map Expr_tokens es) ++ u :: rest in
  (length ts <= fuel)%nat -> (length ts <= k)%nat ->
  reads (chain_loop is_op operand msg k acc oacc) ts
    (fun a => Expr_bare a = mkExpr nowhere nowhere OPS Value_default
                              (map Expr_bare acc ++ map Expr_bare es) (oacc ++ os))
    (u :: rest).
Proof.
  revert os k acc oacc; induction es as [|e es IH]; intros os k acc oacc Hlen Hos Hes Hu ts Hf Hk;
    subst ts; (destruct os as [|o os]; [|]); try discriminate Hlen;
    (destruct k as [|k]; [rewrite length_app in Hk; cbn [length] in Hk; lia|]); unfold reads;
    cbn [chain_loop].
  - cbn [weave map app] in *; gets_steps; destruct (follow_S _ Hu) as [_ ->]; gets_steps; reads_done.
    cbn; now rewrite !app_nil_r.
  - cbn [forallb] in *; apply andb_true_iff in Hos as [Ho Hos]; apply andb_true_iff in Hes as [He Hes].
    cbn [map weave app] in *; rewrite <- app_assoc in *; cbn [length] in Hf, Hk.
    destruct (op_follows _ Ho) as (Hfo & Hoe & Hol).
    gets_steps; change (type_ (kw o)) with o; rewrite Ho; gets_steps.
    assert (Hnext : exists u' rest', weave os (map Expr_tokens es) ++ u :: rest = u' :: rest' /\
      follow n (type_ u') = true).
    { destruct es as [|e2 es], os as [|o2 os]; try discriminate Hlen; cbn [map weave app forallb] in *.
      - exists u, rest; split; [reflexivity|]; now apply follow_S.
      - eexists _, _; split; [reflexivity|]; apply andb_true_iff in Hos as [Ho2 _].
        now apply op_follows. }
    destruct Hnext as (u' & rest' & Hts & Hu'); rewrite length_app in Hf, Hk.
    rewrite Hts in *; eapply gets_reads; [apply operand_reads; auto; rewrite length_app; lia|].
    intros a Ha; gets_steps; rewrite <- Hts; injection Hlen as Hlen.
    eapply gets_reads; [apply IH; auto; rewrite Hts; lia|].
    intros b Hb; reads_done; rewrite Hb, map_app; cbn [map]; rewrite Ha, <- !app_assoc; reflexivity.
Qed.

(** The parse function of the level. *)
Definition level_parse (msg msg' : string) : M Expr := guarded (
  e0 ← try_ operand;
  match e0 with
  | Error _ => err msg
  | Ok e0 =>
      t ← peek_type;
      if negb (is_op t) then mret e0 else chain_loop is_op operand msg' fuel [e0] []
  end).

Lemma level_reads msg msg' e : below (S n) e = true -> reads_expr (level_parse msg msg') (S n) fuel e.
Proof.
  intros (l & Hl & Hle)%below_spec u rest Hu Hlen; destruct (follow_S _ Hu) as [Hu' Hop].
  unfold reads, level_parse; gets_steps; destruct (decide (l = S n)) as [->|Hne].
  - destruct (chain_inv _ Hl) as (a & b & w & x & y & es & os & -> & Hw & Hos & Hops & Hes).
    destruct os as [|o os]; [discriminate Hos|].
    cbn [Expr_tokens etype_ exprs ops] in *; rewrite <- app_assoc in *.
    cbn [map weave app] in *; cbn [forallb] in Hops, Hes.
    apply andb_true_iff in Hops as [Ho Hops]; apply andb_true_iff in Hes as [Hx Hes].
    eapply gets_reads; [apply operand_reads; auto; now apply op_follows|].
    intros x' Hx'; gets_steps; change (type_ (kw o)) with o; rewrite Ho; cbn [negb].
    rewrite length_app in Hlen; cbn [length] in Hlen.
    eapply gets_reads; [apply (chain_reads msg' (y :: es) (o :: os)); auto; cbn [forallb map weave app length]; try lia|].
    + now rewrite Ho, Hops.
    + intros c Hc l1 l2; reads_done; apply same_expr_span; unfold same_expr; cbn in *.
      now rewrite Hc, Hx', Hw.
  - assert (Hb : below n e = true) by (apply below_spec; exists l; split; [exact Hl|lia]).
    eapply gets_reads; [apply operand_reads; auto|]; intros a Ha; gets_steps; rewrite Hop; cbn [negb].
    gets_steps; intros l1 l2; reads_done; now apply same_expr_span.
Qed.

Lemma level_rejects msg msg' u rest : rejects operand (u :: rest) ->
  rejects (level_parse msg msg') (u :: rest).
Proof.
  intros Hr; unfold rejects, level_parse; gets_steps.
  eapply gets_rejects; [exact Hr|]; intros _ _; gets_steps; rejects_done.
Qed.
End Chains.

Section Expressions.
Variable rec : M Expr.
Variable fuel : nat.
Hypothesis rec_reads : forall e u rest, Expr_canon e = true -> follow 3 (type_ u) = true ->
  (length (Expr_tokens e ++ u :: rest) < fuel)%nat ->
  reads rec (Expr_tokens e ++ u :: rest) (same_expr e) (u :: rest).
Hypothesis rec_rejects : forall u rest, starts (type_ u) = false ->
  (length (u :: rest) < fuel)%nat -> rejects rec (u :: rest).

Lemma star_reads e : below 1 e = true -> reads_expr (parse_with_star rec fuel) 1 fuel e.
Proof.
  apply (level_reads is_star (parse_atomic rec fuel) 0 fuel).
  - intros x; now apply atomic_reads.
  - intros [] H; now (discriminate H || split).
  - intros [] H; now (discriminate H || split).
  - intros x Hx%level_leveled; inversion Hx; subst; eauto 15.
Qed.

Lemma plus_reads e : below 2 e = true -> reads_expr (parse_with_plus rec fuel) 2 fuel e.
Proof.
  apply (level_reads is_plus (parse_with_star rec fuel) 1 fuel).
  - exact star_reads.
  - intros [] H; now (discriminate H || split).
  - intros [] H; now (discriminate H || split).
  - intros x Hx%level_leveled; inversion Hx; subst; eauto 15.
Qed.

Lemma plus_rejects u rest : starts (type_ u) = false -> rejects (parse_with_plus rec fuel) (u :: rest).
Proof.
  intros Hu; apply (level_rejects is_plus (parse_with_star rec fuel)).
  apply (level_rejects is_star (parse_atomic rec fuel)); now apply atomic_rejects.
Qed.

Lemma greater_reads e : below 3 e = true -> reads_expr (parse_with_greater rec fuel) 3 fuel e.
Proof.
  intros (l & Hl & Hle)%below_spec u rest Hu Hlen.
  assert (Hu2 : follow 2 (type_ u) = true /\ is_greater (type_ u) = false)
    by (revert Hu; destruct (type_ u); intros Hu; (discriminate Hu || now split)).
  destruct Hu2 as [Hu2 Hg]; unfold reads, parse_with_greater; gets_steps.
  destruct (decide (l = 3%nat)) as [->|Hne].
  - apply level_leveled in Hl; inversion Hl as [| | | | |a b w x y o Hw Ho Hx Hy]; subst e.
    cbn [Expr_tokens etype_ exprs ops map weave] in *; rewrite app_nil_r, <- app_assoc in *.
    cbn [app] in *; eapply gets_reads; [apply plus_reads; auto; destruct o; (discriminate Ho || reflexivity)|].
    intros x' Hx'; gets_steps; change (type_ (kw o)) with o; rewrite Ho; cbn [negb]; gets_steps.
    apply gets_next; [change (o <> Enf); intros ->; discriminate Ho| |intros Ho'; change (o = Enl) in Ho'; subst o; discriminate Ho].
    gets_steps.
    rewrite length_app in Hlen; cbn [length] in Hlen.
    eapply gets_reads; [apply plus_reads; auto; lia|]; intros y' Hy'; gets_steps; intros l1 l2.
    reads_done; unfold same_expr; cbn; now rewrite Hx', Hy', Hw.
  - assert (Hb : below 2 e = true) by (apply below_spec; exists l; split; [exact Hl|lia]).
    eapply gets_reads; [apply plus_reads; auto|]; intros a Ha; gets_steps; rewrite Hg; cbn [negb].
    gets_steps; intros l1 l2; reads_done; now apply same_expr_span.
Qed.

Lemma greater_rejects u rest : starts (type_ u) = false ->
  rejects (parse_with_greater rec fuel) (u :: rest).
Proof.
  intros Hu; unfold rejects, parse_with_greater; gets_steps.
  eapply gets_rejects; [now apply plus_rejects|]; intros _ _; gets_steps; rejects_done.
Qed.
End Expressions.

Lemma Expr_rejects fuel u rest : (0 < fuel)%nat -> starts (type_ u) = false ->
  rejects (Expr_parse fuel) (u :: rest).
Proof. intros Hf Hu; destruct fuel as [|k]; [lia|]; now apply greater_rejects. Qed.

(** [Expr::parse] on the tokens of a canonical expression. *)
Lemma Expr_reads fuel e : Expr_canon e = true -> reads_expr (Expr_parse fuel) 3 fuel e.
Proof.
  revert e; induction fuel as [|k IH]; intros e He.
  { intros u rest Hu Hlen; rewrite length_app in Hlen; cbn [length] in Hlen; lia. }
  apply greater_reads; [|intros u rest Hu Hlen|exact He].
  - intros x u rest Hx Hu Hlen; apply IH; auto; lia.
  - apply Expr_rejects; [cbn [length] in Hlen; lia|exact Hu].
Qed.

(** ** The first token of an expression *)

Lemma below_canon n e : below n e = true -> Expr_canon e = true.
Proof.
  intros (m & Hm & _)%below_spec; apply below_spec; exists m; split; [exact Hm|].
  destruct (level_leveled _ _ Hm); lia.
Qed.

Lemma tokens_start e : Expr_canon e = true ->
  exists t ts, Expr_tokens e = t :: ts /\ starts (type_ t) = true.
Proof.
  induction e as [e IH] using Expr_induction; intros (l & Hl & _)%below_spec.
  assert (Htok : forall x, token_shape x = true ->
    exists t ts, Expr_tokens x = t :: ts /\ starts (type_ t) = true).
  { intros x (a & b & w & -> & Ha)%token_shape_inv; exists (bare_value w), [].
    split; [reflexivity|]; change (starts (type_ w) = true); unfold starts; now rewrite Ha. }
  apply level_leveled in Hl; destruct Hl as [a b w Hw|a b w f es Hw Hf Hes|a b w x Hw Hx
    |a b w x y es os Hw Hos Hops Hes|a b w x y es os Hw Hos Hops Hes|a b w x y o Hw Ho Hx Hy];
    cbn [Expr_tokens etype_ exprs ops map weave forallb] in *.
  - apply (Htok (mkExpr a b TOKEN w [] [])); exact Hw.
  - destruct (Htok f Hf) as (t & ts & -> & Ht); eexists _, _; split; [reflexivity|exact Ht].
  - eexists _, _; split; [reflexivity|]; reflexivity.
  - apply andb_true_iff in Hes as [Hx _]; apply Forall_inv in IH.
    destruct (IH (below_canon _ _ Hx)) as (t & ts & -> & Ht); eexists _, _; split; [reflexivity|exact Ht].
  - apply andb_true_iff in Hes as [Hx _]; apply Forall_inv in IH.
    destruct (IH (below_canon _ _ Hx)) as (t & ts & -> & Ht); eexists _, _; split; [reflexivity|exact Ht].
  - apply Forall_inv in IH; destruct (IH (below_canon _ _ Hx)) as (t & ts & -> & Ht).
    eexists _, _; split; [reflexivity|exact Ht].
Qed.

End Reads.

(** ** No token of an expression is an assignment or a line end *)

Definition inline_type (t : Type_) : Prop := t <> Assign /\ t <> Enl.
Definition inline : list Value -> Prop := Forall (fun t => inline_type (type_ t)).

Lemma inline_joined sep l : inline_type sep -> Forall inline l -> inline (joined sep l).
Proof.
  intros Hs; induction 1 as [|x l Hx Hl IH]; [constructor|]; cbn [joined]; apply Forall_app; split; [exact Hx|].
  destruct l; [constructor|]; constructor; [exact Hs|exact IH].
Qed.

Lemma inline_weave os l : Forall inline_type os -> Forall inline l ->
  inline (weave os l).
Proof.
  intros Hos; revert l; induction Hos as [|o os Ho _ IH]; intros l Hl; [constructor|].
  destruct Hl as [|x l Hx Hl]; [constructor|]; cbn [weave]; constructor; [exact Ho|].
  apply Forall_app; split; [exact Hx|now apply IH].
Qed.

Lemma forallb_Forall {A} (f : A -> bool) l : forallb f l = true <-> Forall (fun x => f x = true) l.
Proof.
  rewrite forallb_forall, Forall_forall; split; intros H x Hx; apply H; now apply list_elem_of_In.
Qed.

Lemma tokens_inline e : Expr_canon e = true -> inline (Expr_tokens e).
Proof.
  assert (Hatom : forall w, is_atom (type_ w) = true -> inline_type (type_ (bare_value w)))
    by (intros w Hw; change (inline_type (type_ w)); split; intros E; now rewrite E in Hw).
  assert (Htok : forall x, token_shape x = true -> inline (Expr_tokens x)).
  { intros x (a & b & w & -> & Ha)%token_shape_inv; constructor; [now apply Hatom|constructor]. }
  assert (Hops : forall p os, (forall o, p o = true -> inline_type o) -> forallb p os = true ->
    Forall inline_type os).
  { intros p os Hp Hos%forallb_Forall; eapply Forall_impl; [exact Hos|exact Hp]. }
  induction e as [e IH] using Expr_induction; intros (l & Hl & _)%below_spec.
  assert (Hsub : forall n es, Forall (fun x => Expr_canon x = true -> inline (Expr_tokens x)) es ->
    forallb (below n) es = true -> Forall inline (map Expr_tokens es)).
  { intros n es Hes Hb%forallb_Forall; apply Forall_map, Forall_forall; intros x Hx.
    apply (proj1 (Forall_forall _ _) Hes x Hx), (below_canon n), (proj1 (Forall_forall _ _) Hb x Hx). }
  apply level_leveled in Hl; destruct Hl as [a b w Hw|a b w f es Hw Hf Hes|a b w x Hw Hx
    |a b w x y es os Hw Hlen Hos Hes|a b w x y es os Hw Hlen Hos Hes|a b w x y o Hw Ho Hx Hy];
    cbn [exprs] in IH; cbn [Expr_tokens etype_ exprs ops].
  - apply (Htok (mkExpr a b TOKEN w [] [])); exact Hw.
  - inversion IH as [|? ? _ IHes]; subst; apply Forall_app; split; [now apply Htok|].
    constructor; [split; discriminate|]; apply Forall_app; split; [|constructor; [split; discriminate|constructor]].
    apply inline_joined; [split; discriminate|]; now apply (Hsub 3%nat).
  - apply inline_weave; [constructor; [split; discriminate|constructor]|]; constructor; [now apply Htok|constructor].
  - pose proof (Hsub _ _ IH Hes) as H; inversion H; subst; apply Forall_app; split; [assumption|].
    apply inline_weave; [|assumption]; apply (Hops is_star); [now intros [] ?; split|exact Hos].
  - pose proof (Hsub _ _ IH Hes) as H; inversion H; subst; apply Forall_app; split; [assumption|].
    apply inline_weave; [|assumption]; apply (Hops is_plus); [now intros [] ?; split|exact Hos].
  - assert (Hes : forallb (below 2) [x; y] = true) by (cbn [forallb]; now rewrite Hx, Hy).
    pose proof (Hsub _ _ IH Hes) as H; inversion H; subst; apply Forall_app; split; [assumption|].
    apply inline_weave; [|assumption]; apply (Hops is_greater); [now intros [] ?; split|]; cbn [forallb].
    now rewrite Ho.
Qed.
