(* ===== verification/StmtComplete.v ===== *)
(** * StmtComplete: the statement parser reads what the grammar writes
    (src/src/ast.cpp)

    For each parse function: on the tokens of a canonical node, with enough fuel, it
    builds that node up to locations and stops after it; the functions that are
    tried before it reject those tokens. *)

From S2P Require Import Prelude Machine Common Token TokenStream Ast ParseMonad ExprParser.
From S2P Require Import StmtParser TokenView Grammar ExprComplete.
Import token.

#[local] Set Warnings "-register-all".

Lemma symbol_data w name : bare_value w = symbol name -> str_data_ w = name.
Proof. intros H; apply (f_equal str_data_) in H; exact H. Qed.

Lemma symbol_peeked w name : (type_ (symbol name) <> Enl -> bare_value w = symbol name) -> str_data_ w = name.
Proof. intros H; apply symbol_data, H; discriminate. Qed.

Lemma skipped_newline ts : skipped Enl (newline :: ts) = skipped Enl ts.
Proof. reflexivity. Qed.

Lemma app_cons_nil {A} (l : list A) x r : l ++ x :: r <> [].
Proof. now destruct l. Qed.

Ltac lengths :=
  repeat (progress (rewrite ?length_app in *; cbn [length] in *)); lia.

Section Statements.
Context {room : Slack}.
Variable fuel : nat.

(** ** Types *)

Lemma fields_reads fs k i acc rest :
  let ts := flat_map field_tokens fs ++ kw RBrace :: rest in
  i + Z.of_nat (length fs) <= 9999 -> (slack + length ts <= fuel)%nat -> (length ts <= k)%nat ->
  reads (fields_loop fuel k i acc) ts (fun l => l = acc ++ fs) (kw RBrace :: rest).
Proof.
  revert k i acc; induction fs as [|[n t] fs IH]; intros k i acc ts Hi Hf Hk; subst ts;
    (destruct k as [|k]; [lengths|]); unfold reads; cbn [fields_loop flat_map field_tokens app fst snd] in *;
    gets_steps; (apply gets_assert; [apply Z.ltb_lt; cbn [length] in Hi; lia|]); gets_steps.
  - reads_done; now rewrite app_nil_r.
  - set (more := flat_map field_tokens fs ++ kw RBrace :: rest) in *.
    assert (Hskip : skipped Enl more = more /\ more <> []) by (subst more; now destruct fs as [|[] ?]).
    destruct Hskip as [Hskip Hne]; apply gets_EXPECT; [reflexivity|discriminate| |intros _]; gets_steps;
      (apply gets_SKIP; [cbn [length] in *; lia|rewrite ?skipped_newline, Hskip; exact Hne|]);
      rewrite ?skipped_newline, Hskip; subst more;
      (eapply gets_reads; [apply IH; lengths|]; intros l ->; reads_done);
      rewrite <- app_assoc; cbn [app]; do 3 f_equal; now apply symbol_peeked.
Qed.

Lemma Struct_reads s rest : Struct_canon s = true -> (slack + length (Struct_tokens s ++ rest) <= fuel)%nat ->
  reads (Struct_parse fuel) (Struct_tokens s ++ rest) (fun a => Struct_bare a = Struct_bare s) rest.
Proof.
  unfold Struct_canon; rewrite andb_true_iff; intros [Hn%String.eqb_eq Hl%Z.leb_le] Hf.
  unfold reads, Struct_parse, Struct_tokens in *; cbn [app] in *; rewrite <- app_assoc in *.
  cbn [app] in *; gets_steps.
  assert (Hs : skipped Enl (newline :: flat_map field_tokens (fields_ s) ++ kw RBrace :: rest)
    = flat_map field_tokens (fields_ s) ++ kw RBrace :: rest)
    by (rewrite skipped_newline; now destruct (fields_ s) as [|[] ?]).
  apply gets_SKIP; [lengths|rewrite Hs; now destruct (fields_ s) as [|[] ?]|rewrite Hs].
  gets_steps; eapply gets_reads; [apply fields_reads; lengths|]; intros l ->; gets_steps; intros l1 l2.
  reads_done; destruct s; cbn in *; now subst.
Qed.

Lemma Struct_rejects u rest : type_ u <> token.Struct -> rejects (Struct_parse fuel) (u :: rest).
Proof. intros Hu; unfold rejects, Struct_parse; gets_steps; rejects_done. Qed.

(** A type that is written is read whatever follows. *)
Lemma VarType_reads_name t rest : VarType_canon t = true ->
  is_struct_ t || negb (String.eqb (vt_name_ t) "") = true ->
  (slack + length (VarType_tokens t ++ rest) <= fuel)%nat ->
  reads (VarType_parse fuel) (VarType_tokens t ++ rest) (fun a => VarType_bare a = VarType_bare t) rest.
Proof.
  destruct t as [a b [] st n]; unfold VarType_canon, VarType_tokens; cbn [is_struct_ stct_ vt_name_ orb];
    intros Hc Hn Hf; unfold reads, VarType_parse; gets_steps.
  - destruct st as [s|]; [|discriminate]; apply andb_true_iff in Hc as [Hs Hn'%String.eqb_eq].
    eapply gets_reads; [now apply Struct_reads|]; intros s' Hs'; gets_steps; intros l1 l2; reads_done.
    subst n; change (mkVarType nowhere nowhere true (Some (Struct_bare s')) "" =
      mkVarType nowhere nowhere true (Some (Struct_bare s)) ""); now rewrite Hs'.
  - destruct st; [discriminate|]; apply negb_true_iff, String.eqb_neq in Hn.
    rewrite decide_False in * by exact Hn; cbn [app] in *.
    eapply gets_rejects; [apply Struct_rejects; discriminate|]; intros e _; gets_steps; intros l1 l2.
    reads_done; unfold VarType_bare; cbn; f_equal; now apply symbol_peeked.
Qed.

(** No type at all is read as the empty name. *)
Lemma VarType_reads t u rest : VarType_canon t = true -> type_ u <> Symbol -> type_ u <> token.Struct ->
  (slack + length (VarType_tokens t ++ u :: rest) <= fuel)%nat ->
  reads (VarType_parse fuel) (VarType_tokens t ++ u :: rest) (fun a => VarType_bare a = VarType_bare t)
    (u :: rest).
Proof.
  intros Hc Hu1 Hu2 Hf; destruct (is_struct_ t || negb (String.eqb (vt_name_ t) "")) eqn:E;
    [now apply VarType_reads_name|].
  apply orb_false_iff in E as [Es En%negb_false_iff%String.eqb_eq]; destruct t as [a b [] st n];
    cbn [is_struct_ vt_name_] in *; [discriminate|]; subst n.
  unfold VarType_canon in Hc; cbn [is_struct_ stct_] in Hc; destruct st; [discriminate|].
  change (VarType_tokens _) with (@nil Value); cbn [app]; unfold reads, VarType_parse; gets_steps.
  eapply gets_rejects; [now apply Struct_rejects|]; intros e _; gets_steps; reads_done; reflexivity.
Qed.

Lemma Typedef_reads t rest : Typedef_canon t = true -> (slack + length (Typedef_tokens t ++ rest) <= fuel)%nat ->
  reads (Typedef_parse fuel) (Typedef_tokens t ++ rest) (fun a => Typedef_bare a = Typedef_bare t) rest.
Proof.
  unfold Typedef_canon, Typedef_tokens; rewrite andb_true_iff; intros [Hc Hne] Hf.
  cbn [app] in *; rewrite <- app_assoc in *; cbn [app] in *; unfold reads, Typedef_parse; gets_steps.
  eapply gets_reads; [apply (VarType_reads_name (old_type_ t)); auto; lengths|]; intros t' Ht'; gets_steps.
  intros l1 l2; reads_done; unfold Typedef_bare; cbn; rewrite Ht'; f_equal; now apply symbol_peeked.
Qed.

(** ** Simple statements *)

Lemma Declaration_reads d u rest : Declaration_canon d = true -> follow 3 (type_ u) = true ->
  (slack + length (Declaration_tokens d ++ u :: rest) <= fuel)%nat ->
  reads (Declaration_parse fuel) (Declaration_tokens d ++ u :: rest)
    (fun a => Declaration_bare a = Declaration_bare d) (u :: rest).
Proof.
  unfold Declaration_canon, Declaration_tokens; destruct (var_type d) as [t|] eqn:Et; [|discriminate].
  rewrite andb_true_iff; intros [Ht He] Hu Hf; cbn [app] in *; rewrite <- app_assoc in *; cbn [app] in *.
  unfold reads, Declaration_parse; gets_steps.
  eapply gets_reads; [apply VarType_reads; auto; try discriminate; lengths|]; intros t' Ht'; gets_steps.
  eapply gets_reads; [apply Expr_reads; auto; lengths|]; intros e' He'; gets_steps.
  intros l1 l2; reads_done; unfold Declaration_bare; rewrite Et; cbn; rewrite Ht', He'; f_equal.
  now apply symbol_data.
Qed.

Lemma Declaration_rejects u rest : type_ u <> Var -> rejects (Declaration_parse fuel) (u :: rest).
Proof. intros Hu; unfold rejects, Declaration_parse; gets_steps; rejects_done. Qed.

Lemma Assignment_reads a u rest : Assignment_canon a = true -> follow 3 (type_ u) = true ->
  (slack + length (Assignment_tokens a ++ u :: rest) <= fuel)%nat ->
  reads (Assignment_parse fuel) (Assignment_tokens a ++ u :: rest)
    (fun b => Assignment_bare b = Assignment_bare a) (u :: rest).
Proof.
  unfold Assignment_canon, Assignment_tokens; intros He Hu Hf; cbn [app] in *.
  unfold reads, Assignment_parse; gets_steps.
  eapply gets_reads; [apply Expr_reads; auto; lengths|]; intros e' He'; gets_steps.
  intros l1 l2; reads_done; unfold Assignment_bare; cbn; rewrite He'; f_equal; now apply symbol_data.
Qed.

Lemma Assignment_rejects u rest : type_ u <> Symbol -> rejects (Assignment_parse fuel) (u :: rest).
Proof. intros Hu; unfold rejects, Assignment_parse; gets_steps; rejects_done. Qed.

(** An identifier that no [=] follows. *)
Lemma Assignment_rejects_second u w rest : type_ w <> Assign ->
  rejects (Assignment_parse fuel) (u :: w :: rest).
Proof.
  intros Hw; unfold rejects, Assignment_parse; gets_steps.
  destruct (decide (type_ u = Symbol)) as [Hu|Hu]; gets_steps; rejects_done.
Qed.

Lemma atom_follow n t : is_atom t = true -> follow n t = true.
Proof. unfold follow; destruct t; try discriminate; now rewrite ?orb_true_r. Qed.

(** The results of a [return]: the first may begin with [-]. *)
Lemma return_reads es k i acc u rest :
  forallb Expr_canon es = true -> forallb (fun e => negb (starts_sub e)) (tail es) = true ->
  i + Z.of_nat (length es) <= 99 -> follow 3 (type_ u) = true -> starts (type_ u) = false ->
  let ts := flat_map Expr_tokens es ++ u :: rest in
  (slack + length ts <= fuel)%nat -> (length ts <= k)%nat ->
  reads (return_loop fuel k i acc) ts
    (fun l => exists l', l = acc ++ l' /\ map Expr_bare l' = map Expr_bare es) (u :: rest).
Proof.
  intros Hes Hsub Hi Hu Hs; revert k i acc Hes Hsub Hi; induction es as [|e es IH];
    intros k i acc Hes Hsub Hi ts Hf Hk; subst ts; (destruct k as [|k]; [lengths|]);
    unfold reads; cbn [return_loop flat_map app forallb tail] in *; gets_steps;
    (apply gets_assert; [apply Z.ltb_lt; cbn [length] in Hi; lia|]); gets_steps.
  - eapply gets_rejects; [apply Expr_rejects; [lengths|exact Hs]|]; intros e _; gets_steps; reads_done.
    exists []; now rewrite app_nil_r.
  - apply andb_true_iff in Hes as [He Hes]; rewrite <- app_assoc in *.
    assert (Hn : exists u' rest', flat_map Expr_tokens es ++ u :: rest = u' :: rest' /\
      follow 3 (type_ u') = true).
    { destruct es as [|e2 es]; [now exists u, rest|]; cbn [flat_map forallb] in *.
      apply andb_true_iff in Hes as [He2 _]; apply andb_true_iff in Hsub as [Hs2 _].
      destruct (tokens_start e2 He2) as (t & ts & Et & Ht); unfold starts_sub in Hs2; rewrite Et in *.
      eexists _, _; split; [reflexivity|]; apply atom_follow; unfold starts in Ht.
      destruct (bool_decide (type_ t = Sub)); [discriminate|]; now rewrite orb_false_r in Ht. }
    destruct Hn as (u' & rest' & En & Hu'); destruct (tokens_start e He) as (t & ts & Et & _).
    eapply gets_reads; [rewrite En in *; apply Expr_reads; auto; lia|]; intros a Ha; gets_steps; rewrite <- En.
    rewrite Et in Hf, Hk; cbn [app length] in Hf, Hk; rewrite length_app in Hf, Hk.
    eapply gets_reads; [apply IH; auto; [|lengths..]|].
    + destruct es; [reflexivity|]; cbn [forallb tail] in *; now apply andb_true_iff in Hsub as [_ ?].
    + intros l (l' & -> & Hl'); reads_done; exists (a :: l'); rewrite <- app_assoc; split; [reflexivity|].
      cbn [map]; now rewrite Ha, Hl'.
Qed.

Lemma Return_reads r u rest : Return_canon r = true -> follow 3 (type_ u) = true ->
  starts (type_ u) = false -> (slack + length (Return_tokens r ++ u :: rest) <= fuel)%nat ->
  reads (Return_parse fuel) (Return_tokens r ++ u :: rest) (fun a => Return_bare a = Return_bare r)
    (u :: rest).
Proof.
  unfold Return_canon, Return_tokens; rewrite !andb_true_iff; intros [[Hes Hl%Z.leb_le] Hsub] Hu Hs Hf.
  cbn [app] in *; unfold reads, Return_parse; gets_steps.
  eapply gets_reads; [apply return_reads; auto; lengths|]; intros l (l' & -> & Hl'); gets_steps.
  intros l1 l2; reads_done; unfold Return_bare; cbn; now rewrite Hl'.
Qed.
(** ** The first token of a statement *)

(** The type of the token a statement of each kind begins with. *)
Definition first_of (n : Node) (t : Type_) : Prop :=
  match n with
  | NDeclaration _ => t = Var
  | NAssignment _ => t = Symbol
  | NExpr _ => starts t = true
  | NIf _ => t = If
  | NFunction _ => t = Func
  | NReturn _ => t = Return
  | NFor _ => t = For
  | NTypedef _ => t = Typedef
  end.

Lemma node_first n : Node_canon n = true -> exists t ts, Node_tokens n = t :: ts /\ first_of n (type_ t).
Proof.
  destruct n as [d|a|e|i|f|r|f|t]; cbn [Node_canon Node_tokens first_of]; intros Hc;
    try (eexists _, _; split; [reflexivity|reflexivity]).
  - now apply tokens_start.
  - unfold If_canon_with in Hc; unfold If_tokens_with; destruct (branches_ i) as [|b brs].
    + rewrite !andb_true_iff in Hc; destruct Hc as [[[_ Hc%Z.leb_le] _] _]; cbn [length] in Hc; lia.
    + cbn [map joined app]; eexists _, _; split; reflexivity.
Qed.

Lemma node_not_newline n : Node_canon n = true -> exists t ts, Node_tokens n = t :: ts /\ type_ t <> Enl.
Proof.
  intros (t & ts & Et & Ht)%node_first; exists t, ts; split; [exact Et|]; intros E; rewrite E in Ht.
  destruct n; discriminate Ht.
Qed.

Lemma skipped_lines ns u rest : forallb Node_canon ns = true -> type_ u <> Enl ->
  skipped Enl (lines Node_tokens ns ++ u :: rest) = lines Node_tokens ns ++ u :: rest.
Proof.
  intros Hns Hu; destruct ns as [|n ns]; [now apply skipped_other|].
  cbn [forallb] in Hns; apply andb_true_iff in Hns as [Hn _].
  destruct (node_not_newline n Hn) as (t & ts & Et & Ht).
  unfold lines; cbn [flat_map]; rewrite Et; cbn [app]; now apply skipped_other.
Qed.

(** ** Statements with blocks *)

Section Blocks.
Variable rec : M Block.
Hypothesis rec_reads : forall b u rest, Block_canon b = true -> type_ u = RBrace ->
  (slack + length (lines Node_tokens (nodes_ b) ++ u :: rest) < fuel)%nat ->
  reads rec (lines Node_tokens (nodes_ b) ++ u :: rest) (fun a => Block_bare a = Block_bare b) (u :: rest).

Abbreviation braces_of b := (braces Node_tokens b).

(** The line end after an opening brace. *)
Lemma inside_skip b rest (Q : Result () -> list Value -> Prop) :
  Block_canon b = true -> (slack + length (lines Node_tokens (nodes_ b) ++ kw RBrace :: rest) < fuel)%nat ->
  Q (Ok ()) (lines Node_tokens (nodes_ b) ++ kw RBrace :: rest) ->
  gets (SKIP_TOKEN fuel Enl) (newline :: lines Node_tokens (nodes_ b) ++ kw RBrace :: rest) Q.
Proof.
  intros Hb Hf HQ; unfold Block_canon, Block_canon_with in Hb; apply andb_true_iff in Hb as [Hns _].
  assert (Hs : skipped Enl (newline :: lines Node_tokens (nodes_ b) ++ kw RBrace :: rest) =
    lines Node_tokens (nodes_ b) ++ kw RBrace :: rest)
    by (rewrite skipped_newline; apply skipped_lines; [exact Hns|discriminate]).
  apply gets_SKIP; [lengths|rewrite Hs; apply app_cons_nil|now rewrite Hs].
Qed.

Lemma braced_reads b msg rest : Block_canon b = true -> (slack + length (braces_of b ++ rest) <= fuel)%nat ->
  reads (braced_block fuel rec msg) (braces_of b ++ rest) (fun a => Block_bare a = Block_bare b) rest.
Proof.
  intros Hb Hf; unfold braces in *; cbn [app] in *; rewrite <- app_assoc in *; cbn [app] in *.
  unfold reads, braced_block; gets_steps; apply inside_skip; [exact Hb|lengths|]; gets_steps.
  eapply gets_reads; [apply rec_reads; [exact Hb|reflexivity|lengths]|]; intros b' Hb'.
  gets_steps; reads_done; exact Hb'.
Qed.

(** *** Functions *)

Lemma fun_args_reads ps n acc rest : (length ps <= n)%nat ->
  let ts := joined Comma (map (fun a => [symbol a.1; symbol a.2]) ps) ++ kw RParent :: rest in
  reads (fun_args_loop n acc) ts (fun l => l = acc ++ ps) (kw RParent :: rest).
Proof.
  revert n acc; induction ps as [|[a t] ps IH]; intros n acc Hn ts; subst ts.
  - destruct n; unfold reads; cbn [fun_args_loop map joined app]; gets_steps; reads_done;
      now rewrite app_nil_r.
  - destruct n as [|n]; cbn [length] in Hn; [lia|]; unfold reads; cbn [map fun_args_loop fst snd].
    assert (Happ : forall x y, bare_value x = symbol a -> bare_value y = symbol t ->
      (acc ++ [(str_data_ x, str_data_ y)]) ++ ps = acc ++ (a, t) :: ps).
    { intros x y Hx%symbol_data Hy%symbol_data; now rewrite Hx, Hy, <- app_assoc. }
    destruct ps as [|p ps]; cbn [map].
    + cbn [joined app]; gets_steps; eapply gets_reads; [apply (IH n); simpl; lia|]; intros l ->.
      reads_done; auto.
    + rewrite joined_cons, <- app_assoc; cbn [app]; gets_steps.
      eapply gets_reads; [apply (IH n); lia|]; intros l ->; reads_done; auto.
Qed.

Lemma fun_returns_reads rs n i acc u rest : type_ u <> Symbol -> (length rs < n)%nat ->
  i + Z.of_nat (length rs) <= 98 ->
  reads (fun_returns_loop n i acc) (map symbol rs ++ u :: rest) (fun l => l = acc ++ rs) (u :: rest).
Proof.
  intros Hu; revert n i acc; induction rs as [|r rs IH]; intros n i acc Hn Hi;
    (destruct n as [|n]; [simpl in Hn; lia|]); unfold reads; cbn [fun_returns_loop map app length] in *;
    gets_steps; (apply gets_assert; [apply Z.ltb_lt; lia|]); gets_steps.
  - reads_done; now rewrite app_nil_r.
  - eapply gets_reads; [apply IH; lia|]; intros l ->; reads_done.
    rewrite <- app_assoc; cbn [app]; do 2 f_equal; now apply symbol_peeked.
Qed.

Lemma Function_reads f rest : Function_canon_with Node_canon f = true ->
  (slack + length (Function_tokens_with Node_tokens f ++ rest) <= fuel)%nat ->
  reads (Function_parse fuel rec) (Function_tokens_with Node_tokens f ++ rest)
    (fun a => Node_bare (NFunction a) = Node_bare (NFunction f)) rest.
Proof.
  unfold Function_canon_with, Function_tokens_with; rewrite !andb_true_iff, !Z.leb_le.
  intros [[Ha Hr] Hb] Hf; cbn [app] in *; rewrite <- app_assoc in *; cbn [app] in *.
  rewrite <- app_assoc in *; unfold braces in *; cbn [app] in *; rewrite <- app_assoc in *; cbn [app] in *.
  unfold reads, Function_parse; gets_steps.
  eapply gets_reads; [apply fun_args_reads; lia|]; intros ps ->; gets_steps.
  eapply gets_reads; [apply fun_returns_reads; [discriminate|lia..]|]; intros rs ->; gets_steps.
  apply inside_skip; [exact Hb|lengths|]; gets_steps.
  eapply gets_reads; [apply rec_reads; [exact Hb|reflexivity|lengths]|]; intros b' Hb'.
  gets_steps; intros l1 l2; reads_done; cbn [Node_bare func_name args returns f_block set_span
    Function_located app]; fold Block_bare; rewrite Hb'; do 2 f_equal; now apply symbol_peeked.
Qed.

Lemma Function_rejects u rest : type_ u <> Func -> rejects (Function_parse fuel rec) (u :: rest).
Proof. intros Hu; unfold rejects, Function_parse; gets_steps; rejects_done. Qed.

(** *** if *)

Definition branch_bare (p : Expr * Block) : Expr * Block := (Expr_bare p.1, Block_bare p.2).

Definition branch_canon (p : Expr * Block) : bool := Expr_canon p.1 && Block_canon p.2.

Definition if_parts (brs : list (Expr * Block)) (tl : option Block) : list (list Value) :=
  map (branch_tokens Node_tokens) brs ++ match tl with Some b => [braces_of b] | None => [] end.

(** The first branch begins with [if], a later one with [else if]. *)
Lemma if_head_reads i ts :
  reads (if i =? 0 then EXPECT_TOKEN If;; mret false
         else b ← peek_is If; if b : bool then next;; mret false else mret true)
    (kw If :: ts) (fun b => b = false) ts.
Proof. unfold reads; destruct (i =? 0); gets_steps; reads_done; reflexivity. Qed.

Lemma joined_eq sep x l :
  joined sep (x :: l) = x ++ match l with [] => [] | _ :: _ => kw sep :: joined sep l end.
Proof. reflexivity. Qed.

Lemma if_loop_reads brs tl k i acc u rest :
  forallb branch_canon brs = true -> optional_canon Block_canon tl = true ->
  0 <= i -> (brs = [] -> i <> 0 /\ tl <> None) ->
  i + Z.of_nat (length brs) + Z.of_nat (length (option_list tl)) <= 1000 -> type_ u <> Else ->
  let ts := joined Else (if_parts brs tl) ++ u :: rest in
  (slack + length ts <= fuel)%nat -> (length ts <= k)%nat ->
  reads (if_loop fuel rec k i acc) ts
    (fun a => map branch_bare (branches_ a) = map branch_bare (acc ++ brs) /\
              option_map Block_bare (tail_else_ a) = option_map Block_bare tl)
    (u :: rest).
Proof.
  intros Hbrs Htl Hi0 Hne Hi Hu; revert k i acc Hbrs Hi0 Hne Hi; induction brs as [|[e b] brs IH];
    intros k i acc Hbrs Hi0 Hne Hi ts Hf Hk; subst ts; (destruct k as [|k]; [lengths|]);
    unfold reads; cbn [if_loop]; gets_steps; (apply gets_assert; [apply Z.ltb_lt|]).
  1, 3: destruct tl; cbn [length option_list] in Hi; try lia; now destruct (Hne eq_refl).
  all: gets_steps.
  - destruct (Hne eq_refl) as [Hi' Htl']; destruct tl as [b|]; [|now destruct Htl'].
    unfold if_parts in *; cbn [map app joined] in *; rewrite app_nil_r in *.
    pose proof (braced_reads b "parse if error at" (u :: rest) Htl Hf) as Hr.
    rewrite (proj2 (Z.eqb_neq _ _)) by exact Hi'; unfold braces in *; cbn [app] in *; gets_steps.
    eapply gets_reads; [exact Hr|]; intros b' Hb'; gets_steps; reads_done.
    cbn; rewrite app_nil_r, Hb'; auto.
  - cbn [forallb] in Hbrs; apply andb_true_iff in Hbrs as [Hb Hbrs].
    apply andb_true_iff in Hb as [He Hb]; cbn [fst snd] in *.
    change (if_parts ((e, b) :: brs) tl) with (branch_tokens Node_tokens (e, b) :: if_parts brs tl) in *.
    rewrite joined_eq in *; unfold branch_tokens at 1 in Hf; unfold branch_tokens at 1 in Hk;
      unfold branch_tokens at 1; cbn [fst snd app] in *; rewrite <- !app_assoc in *.
    set (more := match if_parts brs tl with [] => [] | _ :: _ => kw Else :: joined Else (if_parts brs tl) end ++ u :: rest) in *.
    assert (Hlen : (slack + length (braces_of b ++ more) <= fuel)%nat) by lengths.
    pose proof (braced_reads b "parse if error at" more Hb Hlen) as Hr.
    eapply gets_reads; [apply if_head_reads|]; intros [] Hh; [discriminate Hh|]; gets_steps.
    eapply gets_reads; [unfold braces in *; cbn [app] in *; apply Expr_reads; [exact He|reflexivity|lengths]|].
    intros e' He'; gets_steps; eapply gets_reads; [exact Hr|]; intros b' Hb'; gets_steps.
    assert (Heq : branch_bare (e', b') = branch_bare (e, b)) by (unfold branch_bare; cbn; now rewrite He', Hb').
    clear Hr; subst more; destruct (if_parts brs tl) as [|x l] eqn:Ep.
    + assert (brs = [] /\ tl = None) as [-> ->]
        by (unfold if_parts in Ep; destruct brs; [|discriminate]; now destruct tl).
      cbn [app]; gets_steps; reads_done; cbn [branches_ tail_else_ option_map]; rewrite !map_app; cbn [map].
      rewrite Heq; auto.
    + cbn [app] in *; gets_steps.
      eapply gets_reads; [apply IH; auto; try lia; [|cbn [length] in Hi; lia|lengths..]|].
      * intros ->; split; [lia|]; intros ->; discriminate Ep.
      * intros a [Ha Ht]; reads_done; rewrite Ha, Ht, !map_app; cbn [map]; rewrite Heq, <- app_assoc; auto.
Qed.

Lemma If_reads f u rest : If_canon_with Node_canon f = true -> type_ u <> Else ->
  (slack + length (If_tokens_with Node_tokens f ++ u :: rest) <= fuel)%nat ->
  reads (If_parse fuel rec) (If_tokens_with Node_tokens f ++ u :: rest)
    (fun a => Node_bare (NIf a) = Node_bare (NIf f)) (u :: rest).
Proof.
  unfold If_canon_with; rewrite !andb_true_iff, !Z.leb_le; intros [[[Hbrs Hl] Hu1] Htl] Hu Hf.
  assert (Hk : (length (If_tokens_with Node_tokens f ++ u :: rest) <= fuel)%nat) by lia.
  unfold reads, If_parse; gets_steps.
  eapply gets_reads; [apply if_loop_reads; auto; try lia|].
  - intros E; rewrite E in Hl; cbn [length] in Hl; lia.
  - intros a [Ha Ht] l1 l2; reads_done; cbn [Node_bare branches_ tail_else_ set_span If_located].
    fold Block_bare; unfold branch_bare in Ha; cbn [app] in Ha; now rewrite Ha, Ht.
Qed.

Lemma If_rejects u rest : type_ u <> If -> (0 < fuel)%nat -> rejects (If_parse fuel rec) (u :: rest).
Proof.
  intros Hu Hf; destruct fuel as [|k]; [lia|]; unfold rejects, If_parse; gets_steps; cbn [if_loop].
  gets_steps; apply gets_assert; [reflexivity|]; gets_steps; cbn [Z.eqb]; gets_steps; rejects_done.
Qed.

(** *** for *)

Lemma optional_reads {A} (m : M A) (tokens : A -> list Value) (bare : A -> A) (o : option A) ts :
  (forall a, o = Some a -> reads m (tokens a ++ ts) (fun b => bare b = bare a) ts) ->
  (o = None -> rejects m ts) ->
  reads (optional m) (optional_tokens tokens o ++ ts)
    (fun b => option_map bare b = option_map bare o) ts.
Proof.
  intros HS HN; unfold reads, optional; destruct o as [a|]; cbn [optional_tokens app]; gets_steps.
  - eapply gets_reads; [now apply HS|]; intros b Hb; gets_steps; reads_done; cbn; now rewrite Hb.
  - eapply gets_rejects; [now apply HN|]; intros e _; gets_steps; reads_done; reflexivity.
Qed.

Lemma For_reads f rest : For_canon_with Node_canon f = true ->
  (slack + length (For_tokens_with Node_tokens f ++ rest) <= fuel)%nat ->
  reads (For_parse fuel rec) (For_tokens_with Node_tokens f ++ rest)
    (fun a => Node_bare (NFor a) = Node_bare (NFor f)) rest.
Proof.
  unfold For_canon_with, For_tokens_with; rewrite !andb_true_iff; intros [[[Hi Hc] Hs] Hb] Hf.
  repeat (cbn [app] in *; rewrite <- app_assoc in *); cbn [app] in *.
  assert (Hlen : (slack + length (braces_of (for_block_ f) ++ rest) <= fuel)%nat) by lengths.
  pose proof (braced_reads (for_block_ f) "parse for error at" rest Hb Hlen) as Hr.
  unfold reads, For_parse; gets_steps.
  eapply gets_reads; [apply (optional_reads _ Declaration_tokens Declaration_bare)|].
  { intros d E; rewrite E in *; apply Declaration_reads; [exact Hi|reflexivity|cbn [optional_tokens] in *; lengths]. }
  { intros _; now apply Declaration_rejects. }
  intros init Hinit; gets_steps.
  eapply gets_reads; [apply (optional_reads _ Expr_tokens Expr_bare)|].
  { intros e E; rewrite E in *; apply Expr_reads; [exact Hc|reflexivity|cbn [optional_tokens] in *; lengths]. }
  { intros _; apply Expr_rejects; [lengths|reflexivity]. }
  intros cond Hcond; gets_steps.
  eapply gets_reads; [apply (optional_reads _ Assignment_tokens Assignment_bare)|].
  { intros a E; rewrite E in *; unfold braces in *; cbn [app] in *.
    apply Assignment_reads; [exact Hs|reflexivity|cbn [optional_tokens] in *; lengths]. }
  { intros _; unfold braces; now apply Assignment_rejects. }
  intros step Hstep; gets_steps; eapply gets_reads; [exact Hr|]; intros b Hbb; gets_steps; intros l1 l2.
  reads_done; cbn [Node_bare init_stmt_ finish_cond_ step_stmp_ for_block_ set_span For_located].
  fold Block_bare; now rewrite Hinit, Hcond, Hstep, Hbb.
Qed.

Lemma For_rejects u rest : type_ u <> For -> rejects (For_parse fuel rec) (u :: rest).
Proof. intros Hu; unfold rejects, For_parse; gets_steps; rejects_done. Qed.

Lemma Return_rejects u rest : type_ u <> Return -> rejects (Return_parse fuel) (u :: rest).
Proof. intros Hu; unfold rejects, Return_parse; gets_steps; rejects_done. Qed.

Lemma Typedef_rejects u rest : type_ u <> Typedef -> rejects (Typedef_parse fuel) (u :: rest).
Proof. intros Hu; unfold rejects, Typedef_parse; gets_steps; rejects_done. Qed.

(** ** The functions a block tries *)

Lemma as_node_rejects {T} (c : T -> Node) (m : M T) ts : rejects m ts -> rejects (as_node c m) ts.
Proof.
  intros Hm; unfold rejects, as_node; gets_steps; eapply gets_rejects; [exact Hm|]; intros e He.
  rejects_done.
Qed.

Lemma gets_try_other f fs ts (Q : Result (option Node) -> list Value -> Prop) :
  rejects f ts -> gets (try_funcs fs) ts Q -> gets (try_funcs (f :: fs)) ts Q.
Proof.
  intros Hf HQ; cbn [try_funcs]; gets_steps; eapply gets_rejects; [exact Hf|]; intros e He.
  gets_steps; now rewrite He.
Qed.

Lemma gets_try_this {T} (c : T -> Node) (m : M T) fs ts (P : T -> Prop) ts'
    (Q : Result (option Node) -> list Value -> Prop) :
  reads m ts P ts' -> (forall t, P t -> Q (Ok (Some (c t))) ts') ->
  gets (try_funcs (as_node c m :: fs)) ts Q.
Proof.
  intros Hm HQ; cbn [try_funcs]; unfold as_node; gets_steps; eapply gets_reads; [exact Hm|].
  intros t Ht; gets_steps; auto.
Qed.

(** At a closing brace or at the end of the input every function gives up. *)
Lemma try_end u rest (Q : Result (option Node) -> list Value -> Prop) :
  (0 < fuel)%nat -> type_ u = RBrace \/ type_ u = Enf -> Q (Ok None) (u :: rest) ->
  gets (try_funcs (parse_funcs fuel rec)) (u :: rest) Q.
Proof.
  intros Hf Hu HQ.
  assert (Hs : starts (type_ u) = false) by (now destruct Hu as [-> | ->]).
  unfold parse_funcs; repeat (apply gets_try_other; [apply as_node_rejects|]).
  - apply Declaration_rejects; intuition congruence.
  - apply Assignment_rejects; intuition congruence.
  - now apply Expr_rejects.
  - apply If_rejects; [intuition congruence|exact Hf].
  - apply Function_rejects; intuition congruence.
  - apply Return_rejects; intuition congruence.
  - apply For_rejects; intuition congruence.
  - apply Typedef_rejects; intuition congruence.
  - cbn [try_funcs]; now gets_steps.
Qed.

(** The expression statement: no token of an expression is [=]. *)
Lemma Assignment_rejects_expr e u rest : Expr_canon e = true -> type_ u <> Assign ->
  rejects (Assignment_parse fuel) (Expr_tokens e ++ u :: rest).
Proof.
  intros He Hu; pose proof (tokens_inline e He) as Hn; destruct (tokens_start e He) as (t & ts & Et & _).
  rewrite Et in *; cbn [app]; destruct ts as [|w ts]; cbn [app]; apply Assignment_rejects_second; [exact Hu|].
  inversion Hn as [|? ? ? Hw]; inversion Hw as [|? ? [? _] _]; assumption.
Qed.

(** The function for another kind of statement gives up at the first token. *)
Ltac other Et Ht :=
  apply gets_try_other;
  [ apply as_node_rejects; rewrite Et; cbn [app];
    first [ apply Declaration_rejects; congruence | apply Assignment_rejects; congruence
          | apply Expr_rejects; [lengths|rewrite Ht; reflexivity]
          | apply If_rejects; [congruence|lengths] | apply Function_rejects; congruence
          | apply Return_rejects; congruence | apply For_rejects; congruence ] | ].

Lemma node_reads n rest : Node_canon n = true ->
  (slack + length (Node_tokens n ++ newline :: rest) <= fuel)%nat ->
  reads (try_funcs (parse_funcs fuel rec)) (Node_tokens n ++ newline :: rest)
    (fun o => exists n', o = Some n' /\ Node_bare n' = Node_bare n) (newline :: rest).
Proof.
  intros Hc Hf; destruct (node_first n Hc) as (t & ts & Et & Ht).
  unfold reads; destruct n as [d|a|e|i|f|r|f|td]; cbn [first_of Node_canon] in *.
  - eapply gets_try_this; [apply Declaration_reads; auto|]; intros x Hx; reads_done.
    eexists; split; [reflexivity|]; cbn; now rewrite Hx.
  - apply gets_try_other; [apply as_node_rejects; rewrite Et; cbn [app]; apply Declaration_rejects; congruence|].
    eapply gets_try_this; [apply Assignment_reads; auto|]; intros x Hx; reads_done.
    eexists; split; [reflexivity|]; cbn; now rewrite Hx.
  - apply gets_try_other; [apply as_node_rejects; rewrite Et; cbn [app]; apply Declaration_rejects|].
    { intros E; now rewrite E in Ht. }
    apply gets_try_other; [apply as_node_rejects, Assignment_rejects_expr; auto; discriminate|].
    eapply gets_try_this; [apply Expr_reads; auto; cbn [Node_tokens] in Hf; lia|]; intros x Hx; reads_done.
    eexists; split; [reflexivity|]; cbn; now rewrite Hx.
  - do 3 other Et Ht; eapply gets_try_this; [apply If_reads; auto; discriminate|]; intros x Hx; reads_done; eauto.
  - do 4 other Et Ht; eapply gets_try_this; [apply Function_reads; auto|]; intros x Hx; reads_done; eauto.
  - do 5 other Et Ht; eapply gets_try_this; [apply Return_reads; auto|]; intros x Hx; reads_done.
    eexists; split; [reflexivity|]; cbn; now rewrite Hx.
  - do 6 other Et Ht; eapply gets_try_this; [apply For_reads; auto|]; intros x Hx; reads_done; eauto.
  - do 7 other Et Ht; eapply gets_try_this; [apply Typedef_reads; auto|]; intros x Hx; reads_done.
    eexists; split; [reflexivity|]; cbn; now rewrite Hx.
Qed.

(** ** Blocks *)

(** The loop of a block, from a place where line ends may be left to skip. *)
Lemma block_loop_reads ns k i acc ts u rest :
  forallb Node_canon ns = true -> i + Z.of_nat (length ns) <= 99999 -> 
  type_ u = RBrace \/ type_ u = Enf -> skipped Enl ts = lines Node_tokens ns ++ u :: rest ->
  (slack + length ts <= fuel)%nat -> (length ts <= k)%nat ->
  reads (block_loop fuel rec k i acc) ts
    (fun l => exists l', l = acc ++ l' /\ map Node_bare l' = map Node_bare ns) (u :: rest).
Proof.
  intros Hns Hi Hu Hs Hf Hk; revert k i acc ts Hns Hi Hs Hf Hk; induction ns as [|n ns IH];
    intros k i acc ts Hns Hi Hs Hf Hk; assert (Hne : skipped Enl ts <> [])
      by (rewrite Hs; apply app_cons_nil);
    assert (Hpos : (0 < length ts)%nat) by (destruct ts; [now destruct Hne|simpl; lia]);
    (destruct k as [|k]; [lia|]); unfold reads; cbn [block_loop length] in *;
    gets_steps; (apply gets_assert; [apply Z.ltb_lt; lia|]); gets_steps;
    (apply gets_SKIP; [exact Hf|exact Hne|]); rewrite Hs; gets_steps.
  - apply try_end; [lia|exact Hu|]; gets_steps; reads_done; exists []; now rewrite app_nil_r.
  - cbn [forallb] in Hns; apply andb_true_iff in Hns as [Hn Hns].
    pose proof (skipped_length Enl ts) as Hl; rewrite Hs in Hl.
    unfold lines in *; cbn [flat_map] in *; rewrite <- !app_assoc in *; cbn [app] in *.
    fold (lines Node_tokens ns) in *; destruct (node_not_newline n Hn) as (t & ts' & Et & _).
    eapply gets_reads; [apply node_reads; [exact Hn|lia]|]; intros o (n' & -> & Hn'); gets_steps.
    rewrite Et in Hl; cbn [app] in Hl.
    eapply gets_reads; [apply IH; [exact Hns|lia|..]|].
    + rewrite skipped_newline; apply skipped_lines; [exact Hns|]; now destruct Hu as [-> | ->].
    + lengths.
    + lengths.
    + intros l (l' & -> & Hl'); reads_done; exists (n' :: l'); rewrite <- app_assoc.
      split; [reflexivity|]; cbn [map]; now rewrite Hn', Hl'.
Qed.

Lemma Block_body_reads b ts u rest : Block_canon b = true -> type_ u = RBrace \/ type_ u = Enf ->
  skipped Enl ts = lines Node_tokens (nodes_ b) ++ u :: rest -> (slack + length ts <= fuel)%nat ->
  reads (Block_body fuel rec) ts (fun a => Block_bare a = Block_bare b) (u :: rest).
Proof.
  unfold Block_canon, Block_canon_with; rewrite andb_true_iff, Z.leb_le; intros [Hns Hl] Hu Hs Hf.
  unfold reads, Block_body; gets_steps.
  eapply gets_reads; [apply block_loop_reads; eauto; lia|]; intros l (l' & -> & Hl'); gets_steps.
  intros l1 l2; reads_done; unfold Block_bare, Block_bare_with; cbn; now rewrite Hl'.
Qed.
End Blocks.
End Statements.

(** [Block::parse] on the lines of a canonical block, which a closing brace or the
    end of the input ends. *)
Lemma Block_reads `{Slack} fuel b ts u rest : Block_canon b = true -> type_ u = RBrace \/ type_ u = Enf ->
  skipped Enl ts = lines Node_tokens (nodes_ b) ++ u :: rest -> (slack + length ts <= fuel)%nat ->
  reads (Block_parse fuel) ts (fun a => Block_bare a = Block_bare b) (u :: rest).
Proof.
  revert b ts u rest; induction fuel as [|k IH]; intros b ts u rest Hb Hu Hs Hf.
  { destruct ts; [|simpl in Hf; lia]; cbn [skipped] in Hs; now destruct (lines _ _). }
  eapply Block_body_reads; eauto; intros b' u' rest' Hb' Hu' Hf'; apply IH; auto; [|lia].
  pose proof Hb' as Hns; unfold Block_canon, Block_canon_with in Hns; apply andb_true_iff in Hns as [Hns _].
  apply skipped_lines; [exact Hns|congruence].
Qed.

(** [Root::parse], with line ends before the first statement or not. *)
Lemma Root_reads `{Slack} fuel r ts : Root_canon r = true -> skipped Enl ts = Root_tokens r ->
  (slack + length ts <= fuel)%nat ->
  reads (Root_parse fuel) ts (fun a => Root_bare a = Root_bare r) [end_of_input].
Proof.
  intros Hb Hs Hf; pose proof (skipped_length Enl ts) as Hl; rewrite Hs in Hl.
  unfold Root_tokens in *; unfold reads, Root_parse; gets_steps.
  eapply gets_reads; [apply (Block_reads _ (block_ r) _ end_of_input []); auto|].
  intros b Hbb; gets_steps.
  apply gets_SKIP; [lengths|discriminate|].
  rewrite skipped_other by discriminate; gets_steps.
  apply gets_EXPECT_end; [reflexivity|]; gets_steps; intros l1 l2; reads_done.
  unfold Root_bare; cbn; f_equal; exact Hbb.
Qed.
