(* ===== verification/Texts.v ===== *)
(** * Texts: the sources of a tree (src/src/token.cpp, src/src/ast.cpp)

    [written src r]: the source spells the tokens of the tree [r], with any blank
    lines.  Such a source is parsed to the tree ([written_reads]); the printed tokens of
    a canonical tree themselves are such a source ([Root_collapse]), as they have no
    blank lines. *)

From S2P Require Import Prelude Machine Common Token Lexemes TokenStream Ast ParseMonad ExprParser.
From S2P Require Import StmtParser TokenView Grammar ExprComplete StmtComplete.
Import token.

#[local] Set Warnings "-register-all".

(** A source with the tokens of a canonical tree, and blank lines, is parsed to that
    tree: the blank lines are the slack of the run. *)
Lemma written_reads src r : Root_canon r = true -> written src r ->
  exists r' s, parse_source src = Done (Ok r', s) /\ Root_bare r' = Root_bare r /\
    pos (state_ s) = Z.of_nat (length src).
Proof.
  intros Hr (all & Ha & Hc); pose proof (tokens_fuel _ _ Ha) as Hf; pose proof (collapse_length all) as Hl.
  assert (Hts : skipped Enl (collapse all) = Root_tokens r).
  { assert (Hsk : skipped Enl (Root_tokens r) = Root_tokens r).
    { unfold Root_canon, Block_canon, Block_canon_with in Hr; apply andb_true_iff in Hr as [Hns _].
      now apply skipped_lines. }
    destruct (collapse_line newline all _ eq_refl Hc) as (ts & [= <-] & [-> | ->]); exact Hsk. }
  pose (room := (length all - length (collapse all))%nat : Slack).
  destruct (Root_reads (source_fuel src) r (collapse all) Hr Hts) with (s := TokenStream_make src)
    as (x & s & l & E & Hsrc & (rest & Hwf & Ha' & Hc' & _) & r' & -> & Hb & ->).
  { unfold slack, room, source_fuel; lia. }
  { exists all; split_and!; [apply wf_make|exact Ha|reflexivity|unfold slack, room; lia]. }
  exists r', s; split_and!; [exact E|exact Hb|].
  destruct (collapse_head _ _ _ Hc') as (w & r2 & -> & _ & He & _); destruct He as [-> _]; [discriminate|].
  rewrite (at_end s Hwf); [now rewrite Hsrc|]; exists end_of_input; split; [|reflexivity].
  exact (ahead_scanned _ _ _ _ Ha').
Qed.

(** ** Printed trees have no blank lines *)

(** Tokens among which no line end follows another, the last not a line end. *)
Definition tight (ts : list Value) : Prop := forall rest, collapse (ts ++ rest) = ts ++ collapse rest.

(** The tokens begin with another token than a line end. *)
Definition headed (ts : list Value) : Prop := exists v r, ts = v :: r /\ type_ v <> Enl.

Lemma tight_nil : tight [].
Proof. intros rest; reflexivity. Qed.

Lemma tight_cons v ts : type_ v <> Enl -> tight ts -> tight (v :: ts).
Proof. intros Hv Ht rest; cbn [app]; now rewrite collapse_other, Ht. Qed.

Lemma tight_app l1 l2 : tight l1 -> tight l2 -> tight (l1 ++ l2).
Proof. intros H1 H2 rest; now rewrite <- !app_assoc, H1, H2. Qed.

Lemma tight_line ts : tight ts -> headed ts -> tight (newline :: ts).
Proof.
  intros Ht (v & r & -> & Hv) rest; cbn [app collapse]; rewrite decide_True by reflexivity.
  rewrite decide_False by exact Hv; f_equal; exact (Ht rest).
Qed.

Lemma headed_cons v ts : type_ v <> Enl -> headed (v :: ts).
Proof. eexists _, _; eauto. Qed.

Lemma headed_app l1 l2 : headed l1 -> headed (l1 ++ l2).
Proof. intros (v & r & -> & Hv); now apply headed_cons. Qed.

Create HintDb tight.
#[export] Hint Resolve tight_nil tight_cons tight_app tight_line headed_cons headed_app : tight.
#[export] Hint Extern 2 (type_ _ <> Enl) => discriminate : tight.

Ltac tight := repeat first [apply tight_cons; [discriminate|] | apply tight_app]; eauto with tight.

Lemma tight_inline ts : inline ts -> tight ts.
Proof. induction 1 as [|v ts [_ Hv] _ IH]; auto with tight. Qed.

Lemma tight_joined sep l : sep <> Enl -> Forall tight l -> tight (joined sep l).
Proof.
  intros Hs; induction 1 as [|x l Hx _ IH]; cbn [joined]; [apply tight_nil|].
  apply tight_app; [exact Hx|]; destruct l; [apply tight_nil|]; now apply tight_cons.
Qed.

Lemma tight_expr e : Expr_canon e = true -> tight (Expr_tokens e).
Proof. intros He; now apply tight_inline, tokens_inline. Qed.

Lemma tight_exprs es : forallb Expr_canon es = true -> tight (flat_map Expr_tokens es).
Proof.
  induction es as [|e es IH]; cbn [forallb flat_map]; [intros _; apply tight_nil|].
  rewrite andb_true_iff; intros [He Hes]; apply tight_app; auto using tight_expr.
Qed.

Lemma tight_symbols l : tight (map symbol l).
Proof. induction l; cbn [map]; auto with tight. Qed.
#[export] Hint Resolve tight_expr tight_exprs tight_symbols : tight.

(** *** Types and simple statements *)

Lemma fields_tight fs ts : tight ts -> headed ts ->
  tight (flat_map field_tokens fs ++ ts) /\ headed (flat_map field_tokens fs ++ ts).
Proof.
  intros Ht Hh; induction fs as [|f fs [IH1 IH2]]; [split; assumption|].
  cbn [flat_map field_tokens app]; split; [|now apply headed_cons]; tight.
Qed.

Lemma tight_Struct s : tight (Struct_tokens s).
Proof.
  unfold Struct_tokens; destruct (fields_tight (fields_ s) [kw RBrace]) as [H1 H2]; [tight|tight|].
  tight.
Qed.

Lemma tight_VarType t : tight (VarType_tokens t).
Proof.
  unfold VarType_tokens; destruct (is_struct_ t); [destruct (stct_ t); [apply tight_Struct|]|destruct (decide _)]; tight.
Qed.
#[export] Hint Resolve tight_VarType : tight.

Lemma tight_Declaration d : Declaration_canon d = true -> tight (Declaration_tokens d).
Proof.
  unfold Declaration_canon, Declaration_tokens; rewrite andb_true_iff; intros [_ He].
  destruct (var_type d); tight.
Qed.

Lemma tight_Assignment a : Assignment_canon a = true -> tight (Assignment_tokens a).
Proof. unfold Assignment_canon, Assignment_tokens; intros He; tight. Qed.

Lemma tight_optional {A} (canon : A -> bool) tokens (o : option A) :
  (forall a, canon a = true -> tight (tokens a)) -> optional_canon canon o = true ->
  tight (optional_tokens tokens o).
Proof. intros Ha Ho; destruct o as [a|]; [now apply Ha|apply tight_nil]. Qed.

(** *** Blocks *)

Lemma lines_tight ns ts :
  Forall (fun n => Node_canon n = true -> tight (Node_tokens n)) ns -> forallb Node_canon ns = true ->
  tight ts -> headed ts ->
  tight (lines Node_tokens ns ++ ts) /\ headed (lines Node_tokens ns ++ ts).
Proof.
  intros Hall Hc Ht Hh; unfold lines; induction Hall as [|n ns Hn _ IH]; [split; assumption|].
  cbn [forallb flat_map] in *; apply andb_true_iff in Hc as [Hcn Hc]; destruct (IH Hc) as [IH1 IH2].
  destruct (node_not_newline n Hcn) as (t & r & Et & Hne); rewrite <- !app_assoc; split.
  - apply tight_app; [now apply Hn|]; cbn [app]; now apply tight_line.
  - rewrite Et; now apply headed_cons.
Qed.

Lemma tight_braces b :
  Forall (fun n => Node_canon n = true -> tight (Node_tokens n)) (nodes_ b) -> Block_canon b = true ->
  tight (braces Node_tokens b).
Proof.
  unfold Block_canon, Block_canon_with, braces; rewrite andb_true_iff; intros Hall [Hc _].
  destruct (lines_tight (nodes_ b) [kw RBrace] Hall Hc) as [H1 H2]; tight.
Qed.

Lemma tight_If i : Forall (fun n => Node_canon n = true -> tight (Node_tokens n)) (children (NIf i)) ->
  If_canon_with Node_canon i = true -> tight (If_tokens_with Node_tokens i).
Proof.
  unfold If_canon_with, If_tokens_with; rewrite !andb_true_iff; cbn [children].
  intros [Hbs Htl]%Forall_app [[[Hc _] _] Hct]; apply tight_joined; [discriminate|]; apply Forall_app; split.
  - induction (branches_ i) as [|b bs IH]; cbn [map forallb] in *; [constructor|].
    rewrite !andb_true_iff in Hc; destruct Hc as [[He Hb] Hc]; apply Forall_app in Hbs as [Hn Hbs].
    constructor; [|now apply IH]; unfold branch_tokens.
    apply tight_cons; [discriminate|]; apply tight_app; [now apply tight_expr|now apply tight_braces].
  - destruct (tail_else_ i) as [b|]; [|constructor]; constructor; [now apply tight_braces|constructor].
Qed.

Lemma tight_Node n : Node_canon n = true -> tight (Node_tokens n).
Proof.
  induction n as [n IH] using Node_induction; destruct n as [d|a|e|i|f|r|f|t]; cbn [Node_canon Node_tokens].
  - apply tight_Declaration.
  - apply tight_Assignment.
  - apply tight_expr.
  - now apply tight_If.
  - unfold Function_canon_with, Function_tokens_with; rewrite !andb_true_iff; intros [_ Hb].
    do 3 (apply tight_cons; [discriminate|]); apply tight_app.
    { apply tight_joined; [discriminate|]; apply Forall_map, Forall_forall; intros a _; cbn; tight. }
    apply tight_cons; [discriminate|]; apply tight_app; [apply tight_symbols|now apply tight_braces].
  - unfold Return_canon, Return_tokens; rewrite !andb_true_iff; intros [[He _] _]; tight.
  - unfold For_canon_with, For_tokens_with; rewrite !andb_true_iff; intros [[[Hi Hc] Hs] Hb].
    apply tight_cons; [discriminate|]; apply tight_app; [exact (tight_optional _ _ _ tight_Declaration Hi)|].
    apply tight_cons; [discriminate|]; apply tight_app; [exact (tight_optional _ _ _ tight_expr Hc)|].
    apply tight_cons; [discriminate|]; apply tight_app; [exact (tight_optional _ _ _ tight_Assignment Hs)|].
    now apply tight_braces.
  - intros _; unfold Typedef_tokens; tight.
Qed.

(** A source with exactly the printed tokens. *)
Lemma Root_collapse r : Root_canon r = true ->
  collapse (newline :: Root_tokens r) = newline :: Root_tokens r.
Proof.
  unfold Root_canon, Block_canon, Block_canon_with, Root_tokens; rewrite andb_true_iff; intros [Hc _].
  destruct (lines_tight (nodes r) [end_of_input]) as [H1 H2]; [|exact Hc|tight|tight|].
  - apply Forall_forall; intros n _; apply tight_Node.
  - pose proof (tight_line _ H1 H2 []) as H; now rewrite !app_nil_r in H.
Qed.

Lemma tokens_written src r : Root_canon r = true -> tokens_of src (Root_tokens r) -> written src r.
Proof. intros Hr Ht; exists (Root_tokens r); split; [exact Ht|now apply Root_collapse]. Qed.
