(* ===== verification/ExprSound.v ===== *)
(** * ExprSound: what the expression parser builds (src/src/ast.cpp, [Expr::parse*])

    With enough fuel the expression parser ends; when it succeeds it has advanced and
    has built an expression of its level of the grammar ([Expr_parse_tri]). *)

From S2P Require Import Prelude Machine Common Token TokenStream Ast ParseMonad ExprParser.
From S2P Require Import TokenView Grammar ExprComplete.
Import token.

#[local] Set Warnings "-register-all".

(** ** Levels of the nodes that are built *)

Lemma level_span a b e : level (set_span a b e) = level e.
Proof. destruct e; reflexivity. Qed.

Lemma tokens_span a b e : Expr_tokens (set_span a b e) = Expr_tokens e.
Proof. destruct e; reflexivity. Qed.

Lemma below_span n a b e : below n (set_span a b e) = below n e.
Proof. unfold below; now rewrite level_span. Qed.

Lemma starts_sub_span a b e : starts_sub (set_span a b e) = starts_sub e.
Proof. unfold starts_sub; now rewrite tokens_span. Qed.

Lemma below_le n m e : below n e = true -> (n <= m)%nat -> below m e = true.
Proof. rewrite !below_spec; intros (l & Hl & Hle) Hm; exists l; split; [exact Hl|lia]. Qed.

Lemma token_below n e : token_shape e = true -> below n e = true.
Proof.
  intros (a & b & w & -> & Hw)%token_shape_inv; unfold below; cbn [level etype_ exprs ops v].
  now rewrite Hw.
Qed.

Lemma token_starts e : token_shape e = true -> starts_sub e = false.
Proof.
  intros (a & b & w & -> & Hw)%token_shape_inv; unfold starts_sub; cbn [Expr_tokens etype_ v].
  apply bool_decide_eq_false; change (type_ w <> Sub); intros E; now rewrite E in Hw.
Qed.

Lemma neg_below n e : token_shape e = true -> below n (Expr_make OPS [e] [Sub]) = true.
Proof. intros He; unfold below; cbn [level etype_ exprs ops Expr_make]; now rewrite He. Qed.

Lemma call_below n f es : token_shape f = true -> forallb Expr_canon es = true ->
  below n (Expr_make FUNCALL (f :: es) []) = true.
Proof.
  intros Hf Hes; unfold below; cbn [level etype_ exprs ops Expr_make]; rewrite Hf; cbn [andb].
  change (forallb _ es) with (forallb Expr_canon es); now rewrite Hes.
Qed.

(** The operators of a level of chains, or the comparisons. *)
Definition level_ops (n : nat) : Type_ -> bool :=
  match n with O => is_star | S O => is_plus | _ => is_greater end.

Lemma chain_below n x y es os : (n <= 2)%nat -> length os = S (length es) ->
  forallb (level_ops n) os = true -> forallb (below n) (x :: y :: es) = true ->
  (n = 2%nat -> length os = 1%nat) ->
  below (S n) (Expr_make OPS (x :: y :: es) os) = true.
Proof.
  intros Hn Hlen Hos Hes H1; unfold below; rewrite (level_chain _ x y es) by reflexivity.
  cbn [ops exprs Expr_make]; rewrite Hlen in *; rewrite Nat.eqb_refl; cbn [andb].
  destruct os as [|o os]; [discriminate|].
  assert (Hu : unused (Expr_make OPS (x :: y :: es) (o :: os)) = true) by reflexivity.
  rewrite Hu; clear Hu; cbn [andb].
  destruct n as [|[|[|n]]]; [| | |lia]; cbn [level_ops] in Hos; pose proof Hos as Hos';
    cbn [forallb] in Hos'; apply andb_true_iff in Hos' as [Ho _].
  - now rewrite Hos, Hes.
  - assert (Hs : forallb is_star (o :: os) = false) by (cbn [forallb]; now destruct o).
    now rewrite Hs, Hos, Hes.
  - assert (Hs : forallb is_star (o :: os) = false) by (cbn [forallb]; now destruct o).
    assert (Hp : forallb is_plus (o :: os) = false) by (cbn [forallb]; now destruct o).
    now rewrite Hs, Hp, Hos, Hes, (H1 eq_refl).
Qed.

(** ** Specification *)

(** The next token is not [-]. *)
Definition not_sub (s : TokenStream) : Prop := forall t, at_type s t -> t <> Sub.

(** An expression parsed from [s] that leaves [s']: of level [n] at most; it begins
    with [-] only where [s] does; after a sum no [-] is left. *)
Definition expr_parsed (n : nat) (s : TokenStream) (e : Expr) (s' : TokenStream) : Prop :=
  below n e = true /\
  (not_sub s -> starts_sub e = false) /\ ((2 <= n)%nat -> not_sub s').

(** Strict progress and an expression of the level. *)
Definition parses_expr (n : nat) (m : M Expr) (s : TokenStream) : Prop :=
  tri m s (fun e s' => remaining s' < remaining s /\ expr_parsed n s e s').

Lemma expr_parsed_span n s a b e s' : expr_parsed n s e s' -> expr_parsed n s (set_span a b e) s'.
Proof. unfold expr_parsed; now rewrite below_span, starts_sub_span. Qed.

Lemma parse_token_tri s : wf s ->
  tri parse_token s (fun e s' => remaining s' < remaining s /\ token_shape e = true).
Proof.
  intros Hwf; apply tri_guarded; [exact Hwf|].
  apply tri_bind, tri_peek; [exact Hwf|]; intros [t|] s1 Hp Hadv _;
    [|apply tri_err, Hadv].
  destruct (is_atom (type_ t)) eqn:Ha; [|apply tri_err, Hadv].
  eapply tri_bind, tri_next_at; [apply Hadv|eapply peeked_type; eassumption| |].
  { intros E; rewrite E in Ha; discriminate. }
  intros s2 Hadv2 Hlt; apply tri_ret; [apply Hadv2|].
  rewrite (same_place_remaining _ _ (peeked_same_place _ _ _ Hp)) in Hlt.
  split; [exact Hlt|exact Ha].
Qed.

Section Levels.
Variable rec : M Expr.
Variable fuel : nat.
(** The nested call and the loops have enough fuel for a shorter input. *)
Variable bound : Z.
Hypothesis rec_ok : forall s, wf s -> remaining s < bound -> parses_expr 3 rec s.
Hypothesis fuel_ok : bound <= Z.of_nat fuel.

Lemma args_loop_tri k acc s : wf s -> remaining s < bound -> remaining s < Z.of_nat k ->
  tri (args_loop rec k acc) s (fun es _ => exists l, es = acc ++ l /\ forallb Expr_canon l = true).
Proof.
  revert acc s; induction k as [|k IH]; intros acc s Hwf Hb Hk.
  { pose proof (remaining_nonneg s Hwf); lia. }
  eapply tri_bind, tri_try; [apply rec_ok; assumption| |].
  2: { intros _ s' Hadv; apply tri_ret; [apply Hadv|].
       exists []; rewrite app_nil_r; auto. }
  intros e s1 Hadv1 (Hlt1 & He & _).
  apply tri_bind, tri_peek_is; [apply Hadv1|]; intros b s2 Hadv2 Hsp2 Hat.
  apply same_place_remaining in Hsp2.
  destruct b; [|apply tri_ret; [apply Hadv2|]; exists [e]; cbn [forallb]; unfold Expr_canon; now rewrite He].
  eapply tri_bind, tri_next_at; [apply Hadv2|now apply Hat|discriminate|].
  intros s3 Hadv3 Hlt3; eapply tri_mono; [apply IH; [apply Hadv3|lia|lia]|].
  intros es s4 _ (l & -> & Hl); exists (e :: l); rewrite <- app_assoc; split; [reflexivity|].
  cbn [forallb]; unfold Expr_canon at 1; now rewrite He.
Qed.

Lemma parse_funcall_tri s : wf s -> remaining s <= bound ->
  parses_expr 0 (parse_funcall rec fuel) s.
Proof.
  intros Hwf Hb; apply tri_guarded; [exact Hwf|].
  eapply tri_bind, tri_try; [exact (parse_token_tri s Hwf)| |].
  2: intros _ s' Hadv; apply tri_err, Hadv.
  intros f s1 Hadv1 [Hlt1 Hf].
  apply tri_bind, tri_EXPECT_TOKEN; [apply Hadv1|discriminate|]; intros s2 Hadv2 Hlt2.
  eapply tri_bind, tri_mono; [apply (args_loop_tri fuel [f]); [apply Hadv2|lia..]|].
  intros es s3 Hadv3 (l & -> & Hl).
  apply tri_bind, tri_EXPECT_TOKEN; [apply Hadv3|discriminate|]; intros s4 Hadv4 Hlt4.
  apply tri_ret; [apply Hadv4|]; split; [destruct Hadv3 as (_ & _ & ?); lia|].
  apply expr_parsed_span; split_and!; [now apply call_below| |lia].
  intros _; pose proof (token_starts f Hf) as Hs; unfold starts_sub in *.
  apply token_shape_inv in Hf as (a & b & w & -> & _); exact Hs.
Qed.

Lemma parse_atomic_tri s : wf s -> remaining s <= bound ->
  parses_expr 0 (parse_atomic rec fuel) s.
Proof.
  intros Hwf Hb; apply tri_guarded; [exact Hwf|].
  eapply tri_bind, tri_try_back; [exact (parse_funcall_tri s Hwf Hb)| |].
  { intros fc s1 Hadv1 [Hlt1 Hs]; apply tri_ret; [apply Hadv1|].
    split; [exact Hlt1|now apply expr_parsed_span]. }
  intros _ s1 Hadv1 Hsp1; apply tri_bind, tri_peek_type; [apply Hadv1|].
  intros t s2 Hadv2 Hsp2 Hat2; cbv zeta; apply tri_bind.
  pose proof (same_place_trans _ _ _ Hsp1 Hsp2) as Hsp.
  apply (tri_mono _ _ (fun _ s3 => adv s s3)).
  { case_bool_decide; [apply tri_next|apply tri_ret]; try apply Hadv2;
      eauto using adv_trans. }
  intros [] s3 _ Hadv3; eapply tri_bind, tri_try; [apply parse_token_tri, Hadv3| |].
  2: intros _ s' Hadv; apply tri_err, Hadv.
  intros e s4 Hadv4 [Hlt4 He]; apply tri_ret; [apply Hadv4|].
  split; [destruct Hadv3 as (_ & _ & ?); lia|].
  apply expr_parsed_span; case_bool_decide as Ht; (split_and!; [| |lia]).
  - now apply neg_below.
  - intros Hn; destruct (Hn t); [|exact Ht].
    destruct Hat2 as (w & Hw & Hwt); exists w; split; [|exact Hwt].
    now rewrite <- (same_place_scanned _ _ Hsp).
  - now apply token_below.
  - intros _; now apply token_starts.
Qed.

(** *** Chains *)

Lemma starts_sub_chain x es os : es <> [] -> below 2 x = true ->
  starts_sub (Expr_make OPS (x :: es) os) = starts_sub x.
Proof.
  intros Hes Hx; unfold starts_sub; destruct es as [|y es]; [congruence|].
  cbn [Expr_tokens Expr_make etype_ exprs ops].
  destruct (tokens_start x (below_le 2 3 _ Hx ltac:(lia))) as (t & ts & -> & _); reflexivity.
Qed.

Section Chain.
Variable n : nat.
Hypothesis n_le : (n <= 1)%nat.
Variable operand : M Expr.
Hypothesis operand_ok : forall s, wf s -> remaining s <= bound -> parses_expr n operand s.

Lemma level_ops_not_end t : level_ops n t = true -> t <> Enf.
Proof. destruct n as [|[|]]; intros H ->; discriminate H. Qed.

Lemma chain_loop_tri msg k e0 es os s :
  wf s -> remaining s < bound -> remaining s < Z.of_nat k ->
  forallb (below n) (e0 :: es) = true -> length os = length es -> forallb (level_ops n) os = true ->
  (os = [] -> exists t, at_type s t /\ level_ops n t = true) ->
  tri (chain_loop (level_ops n) operand msg k (e0 :: es) os) s (fun e s' =>
    (exists es' os', e = Expr_make OPS (e0 :: es') os' /\ es' <> [] /\ below (S n) e = true) /\
    exists t, at_type s' t /\ level_ops n t = false).
Proof.
  revert es os s; induction k as [|k IH]; intros es os s Hwf Hb Hk Hes Hlen Hos Hne.
  { pose proof (remaining_nonneg s Hwf); lia. }
  apply tri_bind, tri_peek_type; [exact Hwf|]; intros t s1 Hadv1 Hsp Hat.
  pose proof (same_place_remaining _ _ Hsp) as Hr1.
  destruct (level_ops n t) eqn:Ht.
  - eapply tri_bind, tri_next_at; [apply Hadv1|exact Hat|now apply level_ops_not_end|].
    intros s2 Hadv2 Hlt2; eapply tri_bind, tri_try; [apply operand_ok; [apply Hadv2|lia]| |].
    2: intros _ s' Hadv; apply tri_err, Hadv.
    intros e s3 Hadv3 (Hlt3 & He & _); apply (IH (es ++ [e])); [apply Hadv3|lia|lia|..].
    + rewrite app_comm_cons, forallb_app, Hes; cbn [forallb]; now rewrite He.
    + rewrite !length_app; simpl; lia.
    + rewrite forallb_app, Hos; cbn [forallb]; now rewrite Ht.
    + intros E; now destruct os.
  - apply tri_ret; [apply Hadv1|]; split; [|eauto]; destruct es as [|y es].
    + destruct os; [|discriminate]; destruct (Hne eq_refl) as (t' & Hat' & Ht').
      rewrite (at_type_fun _ _ _ (same_place_at _ _ _ Hsp Hat') Hat) in Ht'; congruence.
    + exists (y :: es), os; split_and!; [reflexivity|discriminate|].
      apply chain_below; try assumption; lia.
Qed.

(** One level: an operand, alone or with a chain of operators. *)
Lemma level_tri msg msg' s : wf s -> remaining s <= bound ->
  parses_expr (S n) (guarded (
    e0 ← try_ operand;
    match e0 with
    | Error _ => err msg
    | Ok e0 =>
        t ← peek_type;
        if negb (level_ops n t) then mret e0
        else chain_loop (level_ops n) operand msg' fuel [e0] []
    end)) s.
Proof.
  intros Hwf Hb; apply tri_guarded; [exact Hwf|].
  eapply tri_bind, tri_try; [exact (operand_ok s Hwf Hb)| |].
  2: intros _ s' Hadv; apply tri_err, Hadv.
  intros e0 s1 Hadv1 (Hlt1 & He0 & Hst & _).
  assert (Hends : forall s' t, at_type s' t -> level_ops n t = false ->
    (2 <= S n)%nat -> not_sub s').
  { intros s' t Hat Ht Hn t' Hat' ->; rewrite <- (at_type_fun _ _ _ Hat' Hat) in Ht.
    assert (n = 1%nat) as E by lia; rewrite E in Ht; discriminate Ht. }
  apply tri_bind, tri_peek_type; [apply Hadv1|]; intros t s2 Hadv2 Hsp Hat.
  apply same_place_remaining in Hsp.
  destruct (level_ops n t) eqn:Ht.
  - eapply tri_mono; [apply chain_loop_tri; [apply Hadv2|lia|lia|..]|].
    + cbn [forallb]; now rewrite He0.
    + reflexivity.
    + reflexivity.
    + eauto.
    + intros e s3 (_ & _ & Hle) [(es & os & -> & Hes & Hbe) (t' & Hat' & Ht')]; split; [lia|].
      apply expr_parsed_span; split_and!; [exact Hbe| |eauto].
      rewrite starts_sub_chain by (assumption || (eapply below_le; eauto; lia)); exact Hst.
  - apply tri_ret; [apply Hadv2|]; split; [lia|]; apply expr_parsed_span; split_and!; [|exact Hst|eauto].
    eapply below_le; eauto; lia.
Qed.
End Chain.

Lemma parse_with_star_tri s : wf s -> remaining s <= bound ->
  parses_expr 1 (parse_with_star rec fuel) s.
Proof. apply (level_tri 0); [lia|exact parse_atomic_tri]. Qed.

Lemma parse_with_plus_tri s : wf s -> remaining s <= bound ->
  parses_expr 2 (parse_with_plus rec fuel) s.
Proof. apply (level_tri 1); [lia|exact parse_with_star_tri]. Qed.

Lemma parse_with_greater_tri s : wf s -> remaining s <= bound ->
  parses_expr 3 (parse_with_greater rec fuel) s.
Proof.
  intros Hwf Hb; apply tri_guarded; [exact Hwf|].
  eapply tri_bind, tri_try; [exact (parse_with_plus_tri s Hwf Hb)| |].
  2: intros _ s' Hadv; apply tri_err, Hadv.
  intros e0 s1 Hadv1 (Hlt1 & He0 & Hst & Hend).
  apply tri_bind, tri_peek_type; [apply Hadv1|]; intros t s2 Hadv2 Hsp Hat.
  pose proof (same_place_remaining _ _ Hsp) as Hr.
  destruct (is_greater t) eqn:Ht; cbn [negb].
  - eapply tri_bind, tri_next_at; [apply Hadv2|exact Hat|intros ->; discriminate|].
    intros s3 Hadv3 Hlt3; eapply tri_bind, tri_try;
      [apply parse_with_plus_tri; [apply Hadv3|lia]| |].
    2: intros _ s' Hadv; apply tri_err, Hadv.
    intros e1 s4 Hadv4 (Hlt4 & He1 & _ & Hend1); apply tri_ret; [apply Hadv4|].
    split; [lia|]; apply expr_parsed_span; split_and!; [| |intros _; apply Hend1; lia].
    + apply chain_below; cbn [length forallb level_ops]; try lia; [now rewrite Ht|now rewrite He0, He1].
    + rewrite starts_sub_chain by (discriminate || assumption); exact Hst.
  - apply tri_ret; [apply Hadv2|]; split; [lia|]; apply expr_parsed_span; split_and!; [|exact Hst|].
    + eapply below_le; eauto; lia.
    + intros _ t' Hat'; apply Hend; [lia|]; destruct Hat' as (w & Hw & Hwt); exists w; split; [|exact Hwt].
      now rewrite <- (same_place_scanned _ _ Hsp).
Qed.
End Levels.

(** With fuel above the bytes left, [Expr::parse] ends; when it succeeds it has
    advanced and the tree is canonical. *)
Lemma Expr_parse_tri n s : wf s -> remaining s < Z.of_nat n -> parses_expr 3 (Expr_parse n) s.
Proof.
  revert s; induction n as [|n IH]; intros s Hwf Hn.
  { pose proof (remaining_nonneg s Hwf); lia. }
  apply (parse_with_greater_tri (Expr_parse n) (S n) (Z.of_nat n)); [|lia|exact Hwf|lia].
  intros s' Hwf' Hlt; now apply IH.
Qed.

(** A canonical expression is one the compiler is proved for. *)
Lemma token_shaped e : token_shape e = true -> etype_ e = TOKEN /\ well_shaped e.
Proof.
  intros (a & b & w & -> & Hw)%token_shape_inv; split; [reflexivity|now apply ws_token].
Qed.

Lemma ops_allowed (p : Type_ -> bool) os :
  (forall t, p t = true -> op_token t = true) -> forallb p os = true -> forallb op_token os = true.
Proof. rewrite !forallb_forall; intros Hp Hos t Ht; auto. Qed.

Lemma canon_well_shaped e : Expr_canon e = true -> well_shaped e.
Proof.
  induction e as [e IH] using Expr_induction; intros (l & Hl & _)%below_spec.
  assert (Hall : forall n es, Forall (fun x => Expr_canon x = true -> well_shaped x) es ->
    forallb (below n) es = true -> Forall well_shaped es).
  { intros n es Hes Hb%forallb_Forall; apply Forall_forall; intros x Hx.
    apply (proj1 (Forall_forall _ _) Hes x Hx), (below_canon n), (proj1 (Forall_forall _ _) Hb x Hx). }
  apply level_leveled in Hl; destruct Hl as [a b w Hw|a b w f es Hw Hf Hes|a b w x Hw Hx
    |a b w x y es os Hw Hlen Hos Hes|a b w x y es os Hw Hlen Hos Hes|a b w x y o Hw Ho Hx Hy];
    cbn [exprs] in IH.
  - now apply ws_token.
  - destruct (token_shaped f Hf) as [Ht Hf']; apply (ws_call _ f es); try reflexivity; [exact Ht|].
    constructor; [exact Hf'|]; inversion IH; subst; now apply (Hall 3%nat).
  - destruct (token_shaped x Hx) as [Ht Hx']; now apply (ws_neg _ x).
  - apply (ws_ops _ x (y :: es)); try reflexivity; [discriminate|exact Hlen| |now apply (Hall 0%nat)].
    apply (ops_allowed is_star); [intros t Ht; unfold op_token; now rewrite Ht|exact Hos].
  - apply (ws_ops _ x (y :: es)); try reflexivity; [discriminate|exact Hlen| |now apply (Hall 1%nat)].
    apply (ops_allowed is_plus); [intros t Ht; unfold op_token; now rewrite Ht, orb_true_r|exact Hos].
  - apply (ws_ops _ x [y]); try reflexivity; [discriminate| |].
    + cbn [forallb ops]; unfold op_token; now rewrite Ho, orb_true_r.
    + apply (Hall 2%nat); [exact IH|]; cbn [forallb]; now rewrite Hx, Hy.
Qed.
