(* ===== verification/StmtSound.v ===== *)
(** * StmtSound: what the statement parser builds (src/src/ast.cpp)

    With enough fuel every parse function ends; when it succeeds it has advanced and
    has built a canonical node of the grammar, within the bounds that the assertions of
    the loops set. *)

From S2P Require Import Prelude Machine Common Token TokenStream Ast ParseMonad ExprParser.
From S2P Require Import StmtParser TokenView Grammar ExprComplete ExprSound.
Import token.

#[local] Set Warnings "-register-all".

Abbreviation is_true_ f := (fun x => f x = true).

Lemma forallb_snoc {A} (f : A -> bool) l x :
  forallb f l = true -> f x = true -> forallb f (l ++ [x]) = true.
Proof. intros Hl Hx; rewrite forallb_app, Hl; cbn [forallb]; now rewrite Hx. Qed.

Section Loops.
Variable fuel : nat.

Lemma expr_tri s : wf s -> remaining s < Z.of_nat fuel ->
  parses_to true (is_true_ Expr_canon) (Expr_parse fuel) s.
Proof.
  intros Hwf Hf; eapply tri_mono; [now apply Expr_parse_tri|].
  intros e s' _ [Hlt [He _]]; split; assumption.
Qed.

(** ** Types *)

Lemma fields_loop_tri k i acc s : wf s -> remaining s < Z.of_nat fuel ->
  remaining s < Z.of_nat k -> i = Z.of_nat (length acc) ->
  tri (fields_loop fuel k i acc) s (fun fs _ => Z.of_nat (length fs) <= 9999).
Proof.
  revert i acc s; induction k as [|k IH]; intros i acc s Hwf Hf Hk Hi.
  { pose proof (remaining_nonneg s Hwf); lia. }
  cbn [fields_loop]; tri_steps; try lia; apply IH; try adv_done; rewrite length_app; simpl; lia.
Qed.

Lemma Struct_tri s : wf s -> remaining s < Z.of_nat fuel ->
  parses_to true (is_true_ Struct_canon) (Struct_parse fuel) s.
Proof.
  intros Hwf Hf; unfold parses_to, Struct_parse; tri_steps.
  eapply tri_mono; [apply fields_loop_tri; try adv_done; reflexivity|]; intros fields sf Hadvf Hl.
  tri_steps; split; [adv_done|]; now apply Z.leb_le.
Qed.

(** The text of the identifier a stream is at. *)
Lemma tri_peek_symbol s (P : Value -> TokenStream -> Prop) :
  wf s -> at_type s Symbol ->
  (forall w s', adv s s' -> same_place s s' -> at_type s' Symbol -> str_data_ w <> "" -> P w s') ->
  tri peek_value s P.
Proof.
  intros Hwf (v & Hv & Ht) HP; apply tri_bind, tri_peek; [exact Hwf|]; intros [w|] s' Hp Hadv Hn.
  - pose proof (peeked_same_place _ _ _ Hp) as Hsp.
    apply (tri_ret w); [apply Hadv|]; apply HP; [exact Hadv|exact Hsp|exists v|].
    + now rewrite (same_place_scanned _ _ Hsp).
    + destruct Hp as (_ & _ & _ & _ & o & Ho & Hw); rewrite Hv in Ho; injection Ho as <-.
      assert (str_data_ w = str_data_ v) as -> by (destruct Hw as [Hw|Hw]; injection Hw as ->; reflexivity).
      apply scan_at_some in Hv; now apply FromChars_symbol in Hv.
  - apply peeked_none in Hp as Hs; destruct Hp as (_ & Hst & Hsrc & _).
    rewrite (same_place_scanned s s') in Hs by (split; assumption); congruence.
Qed.

Definition named (t : VarType) : bool := is_struct_ t || negb (String.eqb (vt_name_ t) "").

(** A type without a name was read where there is no identifier. *)
Lemma VarType_tri s : wf s -> remaining s < Z.of_nat fuel ->
  tri (VarType_parse fuel) s (fun t s' =>
    VarType_canon t = true /\ (named t = true \/ ~ at_type s' Symbol)).
Proof.
  intros Hwf Hf; unfold VarType_parse; tri_steps.
  eapply tri_try_back; [apply Struct_tri; assumption|..].
  - intros t sf Hadvf [_ Ht]; tri_steps; split; [|now left].
    unfold VarType_canon; cbn; now rewrite Ht.
  - intros e s1 Hadv1 Hsp1; apply tri_bind, tri_peek_is_iff; [adv_done|]; intros b s2 Hadv2 Hsp2 Hb.
    destruct b.
    + apply tri_bind, tri_peek_symbol; [adv_done|now apply Hb|]; intros w s3 Hadv3 _ Hat Hw.
      tri_steps; split; [reflexivity|left]; now apply negb_true_iff, String.eqb_neq.
    + tri_steps; split; [reflexivity|right]; intros Hat; assert (false = true) as [=].
      apply Hb; apply (same_place_at s); [eauto using same_place_trans|].
      apply (same_place_at _ s) in Hat; [exact Hat|]; split; [reflexivity|].
      destruct Hadv2 as (_ & H2 & _), Hsp1 as [_ H1]; simpl; congruence.
Qed.

Lemma VarType_canon_tri s : wf s -> remaining s < Z.of_nat fuel ->
  parses_to false (is_true_ VarType_canon) (VarType_parse fuel) s.
Proof. intros Hwf Hf; eapply tri_mono; [now apply VarType_tri|]; intros t s' _ [Ht _]; now split. Qed.

Lemma VarType_never_fails : never_fails (VarType_parse fuel).
Proof.
  apply never_fails_guarded_opt, never_fails_bind; [auto with mygo|].
  intros [t|e]; [auto with mygo|]; unfold peek_is, peek_type, peek_value.
  apply never_fails_bind; [|intros []]; repeat (apply never_fails_bind; intros);
    auto with mygo; case_match; repeat (apply never_fails_bind; intros); auto with mygo.
Qed.

Lemma Typedef_tri s : wf s -> remaining s < Z.of_nat fuel ->
  parses_to true (is_true_ Typedef_canon) (Typedef_parse fuel) s.
Proof.
  intros Hwf Hf; unfold parses_to, Typedef_parse; tri_steps.
  eapply tri_try; [apply VarType_tri; adv_done|..].
  - intros t sf Hadvf [Hc Hn]; apply tri_bind, tri_peek_type; [adv_done|]; intros ty s2 Hadv2 Hsp2 Hat.
    destruct (decide (ty = Symbol)) as [->|]; tri_steps; split; [adv_done|].
    unfold Typedef_canon; cbn; rewrite Hc; destruct Hn as [Hn|Hn]; [exact Hn|destruct Hn].
    destruct Hat as (x & Hx & Hxt); exists x; split; [|exact Hxt].
    now rewrite <- (same_place_scanned _ _ Hsp2).
  - intros e sf Hadvf; tri_steps.
Qed.

(** ** Simple statements *)

Lemma Declaration_tri s : wf s -> remaining s < Z.of_nat fuel ->
  parses_to true (is_true_ Declaration_canon) (Declaration_parse fuel) s.
Proof.
  intros Hwf Hf; unfold parses_to, Declaration_parse; tri_steps.
  eapply tri_try_always; [exact VarType_never_fails|apply VarType_canon_tri; adv_done|].
  intros t st Hadvt _ Ht; tri_steps.
  eapply tri_try_call; [apply expr_tri; adv_done|..].
  - intros e sf Hadvf Hlt He; tri_steps; split; [adv_done|].
    unfold Declaration_canon; cbn; now rewrite Ht, He.
  - intros e sf Hadvf; tri_steps.
Qed.

Lemma Assignment_tri s : wf s -> remaining s < Z.of_nat fuel ->
  parses_to true (is_true_ Assignment_canon) (Assignment_parse fuel) s.
Proof.
  intros Hwf Hf; unfold parses_to, Assignment_parse; tri_steps.
  eapply tri_try_call; [apply expr_tri; adv_done|..].
  - intros e sf Hadvf Hlt He; tri_steps; split; [adv_done|exact He].
  - intros e sf Hadvf; tri_steps.
Qed.

Abbreviation no_sub e := (negb (starts_sub e)).

Lemma return_loop_tri k i acc s : wf s -> remaining s < Z.of_nat fuel ->
  remaining s < Z.of_nat k -> i = Z.of_nat (length acc) -> forallb Expr_canon acc = true ->
  forallb (fun e => no_sub e) (tail acc) = true -> (acc <> [] -> not_sub s) ->
  tri (return_loop fuel k i acc) s (fun es _ => forallb Expr_canon es = true /\
    Z.of_nat (length es) <= 99 /\ forallb (fun e => no_sub e) (tail es) = true).
Proof.
  revert i acc s; induction k as [|k IH]; intros i acc s Hwf Hf Hk Hi Hacc Htl Hs.
  { pose proof (remaining_nonneg s Hwf); lia. }
  cbn [return_loop]; tri_steps; eapply tri_try; [apply Expr_parse_tri; assumption|..].
  - intros e sf Hadvf (Hlt & He & Hst & Hend); apply IH; try adv_done.
    + rewrite length_app; simpl; lia.
    + now apply forallb_snoc.
    + destruct acc as [|a acc]; [reflexivity|]; cbn [tail app] in *; apply forallb_snoc; [exact Htl|].
      now rewrite Hst by (now apply Hs).
    + intros _; apply Hend; lia.
  - intros e sf Hadvf; tri_steps; split_and!; try assumption; lia.
Qed.

Lemma Return_tri s : wf s -> remaining s < Z.of_nat fuel ->
  parses_to true (is_true_ Return_canon) (Return_parse fuel) s.
Proof.
  intros Hwf Hf; unfold parses_to, Return_parse; tri_steps.
  eapply tri_mono; [apply return_loop_tri; try adv_done; try reflexivity; congruence|].
  intros es sf Hadvf (He & Hl & Ht); tri_steps; split; [adv_done|].
  unfold Return_canon; cbn; rewrite He, Ht; cbn; rewrite andb_true_r; now apply Z.leb_le.
Qed.

Lemma fun_args_loop_tri n acc s : wf s ->
  tri (fun_args_loop n acc) s (fun l _ => (length l <= length acc + n)%nat).
Proof.
  revert acc s; induction n as [|n IH]; intros acc s Hwf; cbn [fun_args_loop]; tri_steps; try lia.
  eapply tri_mono; [apply IH; adv_done|]; intros l sl _; rewrite length_app; simpl; lia.
Qed.

Lemma fun_returns_loop_tri n i acc s : wf s -> i = Z.of_nat (length acc) ->
  Z.of_nat n + i = 100 -> i <= 99 ->
  tri (fun_returns_loop n i acc) s (fun l _ => Z.of_nat (length l) <= 98).
Proof.
  revert i acc s; induction n as [|n IH]; intros i acc s Hwf Hi Hn Hle; cbn [fun_returns_loop];
    [lia|]; tri_steps.
  assert (i < 99) by (now apply Z.ltb_lt).
  apply tri_peek; [adv_done|]; intros [t|] sf Hp Hadvf _; [|tri_steps; lia].
  destruct (decide (type_ t = Symbol)); tri_steps; [|lia].
  apply IH; try adv_done; rewrite ?length_app; simpl; lia.
Qed.

(** ** Statements with blocks *)

Section Blocks.
Variable rec : M Block.
Hypothesis rec_ok : forall s, wf s -> remaining s < Z.of_nat fuel - 1 ->
  parses_to false (is_true_ Block_canon) rec s.

Abbreviation canon_of c := (fun x => Node_canon (c x) = true).

Lemma Function_tri s : wf s -> remaining s < Z.of_nat fuel ->
  parses_to true (canon_of NFunction) (Function_parse fuel rec) s.
Proof.
  intros Hwf Hf; unfold parses_to, Function_parse; tri_steps.
  eapply tri_mono; [apply fun_args_loop_tri; adv_done|]; intros ps sa Hadva Ha; tri_steps.
  eapply tri_mono; [apply fun_returns_loop_tri; try adv_done; reflexivity|].
  intros rets sr Hadvr Hr; tri_steps; eapply tri_try_call; [apply rec_ok; adv_done|..].
  - intros b sf Hadvf _ Hb; tri_steps; split; [adv_done|].
    cbn [Node_canon]; unfold Function_canon_with; cbn [args returns f_block set_span Function_located].
    fold Block_canon; cbn [length] in Ha; rewrite !andb_true_iff, !Z.leb_le; split_and!; [lia|exact Hr|exact Hb].
  - intros e sf Hadvf; tri_steps.
Qed.

Lemma braced_tri msg s : wf s -> remaining s < Z.of_nat fuel ->
  parses_to true (is_true_ Block_canon) (braced_block fuel rec msg) s.
Proof.
  intros Hwf Hf; unfold parses_to, braced_block; tri_steps.
  eapply tri_try_call; [apply rec_ok; adv_done|..].
  - intros b sf Hadvf _ Hb; tri_steps; split; [adv_done|exact Hb].
  - intros e sf Hadvf; tri_steps.
Qed.

Definition branch_ok (p : Expr * Block) : bool := Expr_canon p.1 && Block_canon p.2.

Lemma If_canon_intro l1 l2 brs tl : forallb branch_ok brs = true -> brs <> [] ->
  Z.of_nat (length brs) + Z.of_nat (length (option_list tl)) <= 1000 ->
  optional_canon Block_canon tl = true -> Node_canon (NIf (mkIf l1 l2 brs tl)) = true.
Proof.
  intros Hb Hne Hl Ht; cbn [Node_canon]; unfold If_canon_with; cbn [branches_ tail_else_].
  rewrite !andb_true_iff, !Z.leb_le; split_and!; try assumption.
  destruct brs; [congruence|simpl; lia].
Qed.

(** The condition and the block of a branch, and what may follow. *)
Lemma if_loop_tri k i acc s : wf s -> remaining s < Z.of_nat fuel ->
  (i = 0 \/ 0 < i /\ acc <> [] /\ remaining s < Z.of_nat fuel - 1) ->
  remaining s < Z.of_nat k -> i = Z.of_nat (length acc) -> forallb branch_ok acc = true ->
  tri (if_loop fuel rec k i acc) s
    (fun r s' => remaining s' < remaining s /\ Node_canon (NIf r) = true).
Proof.
  revert i acc s; induction k as [|k IH]; intros i acc s Hwf Hf Hi Hk Hl Hacc.
  { pose proof (remaining_nonneg s Hwf); lia. }
  cbn [if_loop]; apply tri_bind, tri_assert; [adv_done|]; intros Hlt%Z.ltb_lt; tri_steps.
  apply (tri_mono _ _ (fun (tail : bool) s' => adv s s' /\ remaining s' < Z.of_nat fuel /\
    if tail then acc <> [] else remaining s' < remaining s)).
  { destruct (Z.eqb_spec i 0) as [->|Hne]; tri_steps; unfold adv; split_and!; try adv_done.
    destruct Hi as [?|(_ & ? & _)]; [lia|assumption]. }
  intros [] s1 _ (Hadv1 & Hf1 & Hx); tri_steps.
  - eapply tri_call; [apply braced_tri; adv_done|]; intros b s2 Hadv2 Hlt2 Hb.
    tri_steps; split; [adv_done|]; apply If_canon_intro; try assumption; simpl; lia.
  - eapply tri_try_call; [apply expr_tri; adv_done|..]; [|intros e s2 Hadv2; tri_steps].
    intros e s2 Hadv2 Hlt2 He; tri_steps.
    eapply tri_call; [apply braced_tri; adv_done|]; intros b s3 Hadv3 Hlt3 Hb.
    assert (Hacc' : forallb branch_ok (acc ++ [(e, b)]) = true).
    { apply forallb_snoc; [exact Hacc|]; unfold branch_ok; cbn; now rewrite He, Hb. }
    assert (Hl' : Z.of_nat (length (acc ++ [(e, b)])) = i + 1) by (rewrite length_app; simpl; lia).
    assert (Hne : acc ++ [(e, b)] <> []) by now destruct acc.
    tri_steps.
    + eapply tri_mono; [apply IH; try adv_done; right|].
      * split_and!; [destruct Hi as [|[? _]]; lia|exact Hne|adv_done].
      * intros r sf Hadvf [? ?]; split; [adv_done|assumption].
    + split; [adv_done|]; apply If_canon_intro; try assumption; [simpl; lia|reflexivity].
Qed.

Lemma If_tri s : wf s -> remaining s < Z.of_nat fuel ->
  parses_to true (canon_of NIf) (If_parse fuel rec) s.
Proof.
  intros Hwf Hf; unfold parses_to, If_parse; tri_steps.
  eapply tri_mono; [apply if_loop_tri; auto|]; intros r s' Hadv [Hlt Hok].
  split; [exact Hlt|]; destruct r; exact Hok.
Qed.

Lemma optional_tri {A} strict (f : A -> bool) (m : M A) s :
  parses_to strict (is_true_ f) m s -> parses_to false (is_true_ (optional_canon f)) (optional m) s.
Proof.
  intros Hm; unfold parses_to, optional; tri_steps.
  eapply tri_try_call; [exact Hm|..]; intros; tri_steps; split; simpl; auto.
Qed.

Lemma For_tri s : wf s -> remaining s < Z.of_nat fuel ->
  parses_to true (canon_of NFor) (For_parse fuel rec) s.
Proof.
  intros Hwf Hf; unfold parses_to, For_parse; tri_steps.
  eapply tri_call; [eapply optional_tri, Declaration_tri; adv_done|].
  intros init s1 Hadv1 _ Hinit; tri_steps.
  eapply tri_call; [eapply optional_tri, expr_tri; adv_done|].
  intros cond s2 Hadv2 _ Hcond; tri_steps.
  eapply tri_call; [eapply optional_tri, Assignment_tri; adv_done|].
  intros step s3 Hadv3 _ Hstep; tri_steps.
  eapply tri_call; [apply braced_tri; adv_done|]; intros b s4 Hadv4 Hlt4 Hb.
  tri_steps; split; [adv_done|]; cbn [Node_canon]; unfold For_canon_with.
  cbn [init_stmt_ finish_cond_ step_stmp_ for_block_ set_span For_located].
  rewrite !andb_true_iff; split_and!; assumption.
Qed.

Abbreviation builds_nodes := (Forall (fun f => forall s', wf s' -> remaining s' < Z.of_nat fuel ->
  parses_to true (is_true_ Node_canon) f s')).

Lemma as_node_tri {T} (c : T -> Node) (P : T -> Prop) (m : M T) s :
  parses_to true P m s -> (forall t, P t -> Node_canon (c t) = true) ->
  parses_to true (is_true_ Node_canon) (as_node c m) s.
Proof.
  intros Hm Hc; unfold parses_to, as_node; tri_steps.
  eapply tri_call; [exact Hm|]; intros t s' Hadv Hlt Ht; tri_steps; auto.
Qed.

Lemma parse_funcs_tri : builds_nodes (parse_funcs fuel rec).
Proof.
  repeat constructor; intros s' Hwf Hf;
    (eapply as_node_tri; [eauto using Declaration_tri, Assignment_tri, expr_tri, If_tri, Function_tri,
       Return_tri, For_tri, Typedef_tri|]); cbv beta; auto.
Qed.

Lemma try_funcs_tri fs s : wf s -> remaining s < Z.of_nat fuel -> builds_nodes fs ->
  tri (try_funcs fs) s (fun r s' =>
    match r with
    | Some n => remaining s' < remaining s /\ Node_canon n = true
    | None => Logic.True
    end).
Proof.
  intros Hwf Hf Hfs; revert s Hwf Hf; induction Hfs as [|f fs Hfun _ IH]; intros s Hwf Hf;
    cbn [try_funcs]; tri_steps; auto.
  eapply tri_try_call; [apply Hfun; adv_done|..].
  - intros n s1 Hadv1 Hlt1 Hn; tri_steps; auto.
  - intros e s1 Hadv1; destruct (is_fatal_ e); tri_steps.
    eapply tri_mono; [apply IH; adv_done|]; intros [n|] s2 Hadv2; [|auto].
    intros [? ?]; split; [adv_done|assumption].
Qed.

Lemma block_loop_tri k i acc s : wf s -> remaining s < Z.of_nat fuel ->
  remaining s < Z.of_nat k -> i = Z.of_nat (length acc) -> forallb Node_canon acc = true ->
  tri (block_loop fuel rec k i acc) s
    (fun ns _ => forallb Node_canon ns = true /\ Z.of_nat (length ns) <= 99999).
Proof.
  revert i acc s; induction k as [|k IH]; intros i acc s Hwf Hf Hk Hi Hacc.
  { pose proof (remaining_nonneg s Hwf); lia. }
  cbn [block_loop]; tri_steps.
  eapply tri_mono; [apply try_funcs_tri; try adv_done; apply parse_funcs_tri|].
  intros [n|] s1 Hadv1; [|intros _; tri_steps; split; [exact Hacc|lia]].
  intros [Hlt Hn]; apply IH; try adv_done; [rewrite length_app; simpl; lia|now apply forallb_snoc].
Qed.

Lemma Block_body_tri s : wf s -> remaining s < Z.of_nat fuel ->
  parses_to false (is_true_ Block_canon) (Block_body fuel rec) s.
Proof.
  intros Hwf Hf; unfold parses_to, Block_body; tri_steps.
  eapply tri_mono; [apply block_loop_tri; auto|]; intros ns s1 Hadv1 [Hns Hl].
  tri_steps; split; [exact I|]; unfold Block_canon, Block_canon_with; cbn; rewrite Hns.
  now apply Z.leb_le.
Qed.
End Blocks.
End Loops.

(** [Block::parse] with fuel above the bytes left ends, and builds canonical
    statements. *)
Lemma Block_tri n s : wf s -> remaining s < Z.of_nat n ->
  parses_to false (is_true_ Block_canon) (Block_parse n) s.
Proof.
  revert s; induction n as [|n IH]; intros s Hwf Hn.
  { pose proof (remaining_nonneg s Hwf); lia. }
  apply Block_body_tri; [|exact Hwf|exact Hn].
  intros s' Hwf' Hlt; apply IH; [exact Hwf'|lia].
Qed.

(** ** Whole sources *)

Lemma tri_expect_end s (P : () -> TokenStream -> Prop) :
  wf s -> (forall s', adv s s' -> at_type s' Enf -> P () s') -> tri (EXPECT_TOKEN Enf) s P.
Proof.
  intros Hwf HP; apply tri_bind, tri_bind, tri_peek; [exact Hwf|].
  intros [w|] s1 Hp Hadv1 _; [|tri_steps].
  apply tri_bind, tri_peek_type; [adv_done|]; intros t s2 Hadv2 Hsp2 Hat2.
  destruct (decide (t = Enf)) as [->|]; [|tri_steps].
  apply tri_bind, tri_peek_value; [adv_done|]; intros x s3 Hadv3 Hsp3 Hat3.
  apply tri_bind, tri_next; [adv_done|]; intros s4 Hn Hadv4.
  apply tri_ret; [adv_done|]; apply tri_ret; [adv_done|]; apply HP.
  { eauto 6 using adv_trans. }
  destruct (same_place_at _ _ _ Hsp3 Hat2) as (y & Hy & Hty).
  destruct Hn as (_ & Hsrc & _ & z & Hz & [(Hzt & Hpos & _)|[Hzt _]]);
    rewrite Hy in Hz; injection Hz as <-; [|congruence].
  exists y; split; [|exact Hty]; unfold scanned, rest in *; congruence.
Qed.

Lemma Root_tri n s : wf s -> remaining s < Z.of_nat n ->
  tri (Root_parse n) s (fun r s' => Root_canon r = true /\ at_type s' Enf).
Proof.
  intros Hwf Hn; unfold Root_parse; tri_steps.
  eapply tri_try_call; [apply Block_tri; adv_done|..]; [|intros e s1 Hadv1; tri_steps].
  intros b s1 Hadv1 _ Hb; tri_steps.
  apply tri_expect_end; [adv_done|]; intros s2 Hadv2 Hat; tri_steps; split; assumption.
Qed.

Lemma source_fuel_ok src :
  remaining (TokenStream_make src) < Z.of_nat (source_fuel src).
Proof. unfold remaining, source_fuel; simpl; lia. Qed.

(** What parsing a source comes to. *)
Lemma parse_source_outcome src : lexable src ->
  (exists r s, parse_source src = Done (r, s)) \/ (exists text, parse_source src = Abort text).
Proof.
  intros Hl; pose proof (Root_tri _ _ (wf_make src) (source_fuel_ok src)) as H.
  unfold tri in H; fold (parse_source src) in H.
  destruct (parse_source src) as [[r s]|f|w|]; simpl in H; eauto; contradiction.
Qed.
