(* ===== verification/ParserProps.v ===== *)
(** * ParserProps: the properties of the lexer, of the token stream and of the
    parser (src/src/token.cpp, src/src/token_stream.cpp, src/src/ast.cpp) *)

From S2P Require Import Prelude Machine Common Token TokenStream Locations Ast ParseMonad ExprParser.
From S2P Require Import StmtParser Lexemes TokenView Grammar StmtComplete Texts StmtSound.
Import token.
From Stdlib Require Import SpecFloat.

#[local] Set Warnings "-register-all".

Definition text (s : string) : list ascii := String.list_ascii_of_string s.

(** ** Whole sources *)

(** C11: parsing ends on every source whose bytes can all be scanned, without
    undefined behaviour: it gives a tree or an error, or stops at one of the
    assertions that bound the loops of the parser. *)
Theorem parse_source_total src : lexable src ->
  (exists r s, parse_source src = Done (r, s)) \/ (exists text, parse_source src = Abort text).
Proof. apply parse_source_outcome. Qed.

Definition small_source : list ascii := text "func main(){
  var a int = 1 + 2
}
".

Lemma parse_source_total_witness :
  lexable small_source /\
  ((exists r s, parse_source small_source = Done (r, s)) \/
   (exists text, parse_source small_source = Abort text)).
Proof.
  assert (H : lexable small_source) by (apply lexable_b_ok; vm_compute; reflexivity).
  split; [exact H|exact (parse_source_total small_source H)].
Defined.

(** C12: soundness.  A source that parses is parsed to its last byte, and its tree is
    canonical: every expression is grouped as the levels of the grammar say, every
    declaration has a type node, every [if] a branch, no result of a [return] continues
    the one before it, and every list is within the bounds the assertions set.  So the
    trees that are printed and parsed again are all there are: a text of the tree
    parses to the tree, up to locations. *)
Theorem parse_sound src r s : parse_source src = Done (Ok r, s) ->
  Root_canon r = true /\ pos (state_ s) = Z.of_nat (length src) /\
  forall src', written src' r ->
    exists r' s', parse_source src' = Done (Ok r', s') /\ Root_bare r' = Root_bare r.
Proof.
  intros E; pose proof (Root_tri _ _ (wf_make src) (source_fuel_ok src)) as H.
  unfold tri in H; fold (parse_source src) in H; rewrite E in H; simpl in H.
  destruct H as ((Hwf & Hsrc & _) & Hok & Hat); split_and!; [exact Hok| |].
  - rewrite (at_end _ Hwf Hat); now rewrite Hsrc.
  - intros src' Ht; destruct (written_reads src' r Hok Ht) as (r' & s' & E' & Hb & _); eauto.
Qed.

Lemma parse_sound_witness :
  match parse_source small_source with
  | Done (Ok r, s) => Root_canon r = true /\ pos (state_ s) = Z.of_nat (length small_source)
  | _ => False
  end.
Proof.
  destruct (parse_source small_source) as [[[r|e] s]| | |] eqn:E;
    try (exfalso; vm_compute in E; discriminate E).
  destruct (parse_sound small_source r s E) as (H1 & H2 & _); exact (conj H1 H2).
Defined.

(** ** The grammar *)

(** C13: completeness.  Whenever the tokens of a source are those a canonical tree
    is written with, and any number of blank lines between the lines and before the
    first one, the source parses, to its last byte, to that tree; only the locations
    come from the source.  In particular two canonical trees with the same text differ
    in locations at most: chains are grouped by precedence, operators and operands stay
    in order, and no statement is read as one of another kind. *)
Theorem parse_complete src r : Root_canon r = true -> written src r ->
  (exists r' s, parse_source src = Done (Ok r', s) /\ Root_bare r' = Root_bare r /\
    pos (state_ s) = Z.of_nat (length src)) /\
  (forall q, Root_canon q = true -> written src q -> Root_bare q = Root_bare r).
Proof.
  intros Hr Ht; destruct (written_reads src r Hr Ht) as (r' & s & E & Hb & Hp).
  split; [eauto|]; intros q Hq Hq'; destruct (written_reads src q Hq Hq') as (q' & s' & E' & Hb' & _).
  congruence.
Qed.

(** Trees for the examples. *)
Definition atom (t : Value) : Expr := MakeAtomic t.
Definition number (n : Z) : Expr := atom (CreateInt 1 n).
Definition variable (s : string) : Expr := atom (symbol s).
Definition block_of (ns : list Node) : Block := mkBlock Loc_default Loc_default ns.
Definition assign (s : string) (e : Expr) : Node := NAssignment (mkAssignment Loc_default Loc_default s e).

(** [x = -1 + 2 * f(y, 3)], then [if x < 2 { return x } else { }]. *)
Definition sample_root : Root := mkRoot Loc_default Loc_default (block_of
  [ assign "x" (Expr_make OPS
      [ Expr_make OPS [number 1] [Sub];
        Expr_make OPS [number 2; Expr_make FUNCALL [variable "f"; variable "y"; number 3] []] [Star] ]
      [Plus]);
    NIf (mkIf Loc_default Loc_default
      [(Expr_make OPS [variable "x"; number 2] [Less],
        block_of [NReturn (mkReturn Loc_default Loc_default [variable "x"])])]
      (Some (block_of []))) ]).

Definition sample_source : list ascii := text "

x=-1+2*f(y,3)

if x<2 {

  return x

}else{
}
".

Lemma parse_complete_witness :
  Root_canon sample_root = true /\
  exists r' s, parse_source sample_source = Done (Ok r', s) /\ Root_bare r' = Root_bare sample_root.
Proof.
  split; [vm_compute; reflexivity|].
  destruct (parse_complete sample_source sample_root) as [(r' & s & E & Hb & _) _].
  - vm_compute; reflexivity.
  - eexists; split; [apply lex_tokens; vm_compute; reflexivity|vm_compute; reflexivity].
  - eauto.
Defined.

(** C14: parsing undoes printing.  Print a canonical tree as text, token by token,
    each spelled in any way the lexer accepts (leading zeros, any string) and followed
    by any number of blanks: the text parses to the tree, up to locations. *)
Theorem parse_print r src : Root_canon r = true -> spaced (Root_tokens r) src ->
  exists r' s, parse_source src = Done (Ok r', s) /\ Root_bare r' = Root_bare r.
Proof.
  intros Hr Hs; pose proof (tokens_written _ _ Hr (spaced_tokens _ _ Hs)) as Ht.
  destruct (written_reads src r Hr Ht) as (r' & s & E & Hb & _); eauto.
Qed.

(** Texts with one blank after each. *)
Definition layout (ts : list (list ascii)) : list ascii := foldr (fun t s => t ++ " "%char :: [] ++ s) [] ts.

(** [x = 7 * y] with an identifier, an integer and keywords. *)
Definition printed_root : Root := mkRoot Loc_default Loc_default (block_of
  [assign "x" (Expr_make OPS [atom (CreateInt 2 7); variable "yy"] [Star])]).

Lemma parse_print_witness :
  exists r' s, parse_source (layout [text "x"; text "="; text "07"; text "*"; text "yy"; [LF]]) = Done (Ok r', s) /\
    Root_bare r' = Root_bare printed_root.
Proof.
  apply parse_print; [vm_compute; reflexivity|].
  refine (spaced_cons _ _ " "%char [] _ _ (spells_symbol "x" [] _ _ _) eq_refl eq_refl _);
    [vm_compute; reflexivity..|].
  refine (spaced_cons _ _ " "%char [] _ _ (spells_simple "=" Assign _) eq_refl eq_refl _);
    [vm_compute; auto 40|].
  refine (spaced_cons _ _ " "%char [] _ _ (spells_int (text "07") _ _ _) eq_refl eq_refl _);
    [discriminate|reflexivity|vm_compute; discriminate|].
  refine (spaced_cons _ _ " "%char [] _ _ (spells_simple "*" Star _) eq_refl eq_refl _);
    [vm_compute; auto 40|].
  refine (spaced_cons _ _ " "%char [] _ _ (spells_symbol "y" (text "y") _ _ _) eq_refl eq_refl _);
    [vm_compute; reflexivity..|].
  refine (spaced_cons _ _ " "%char [] _ _ spells_newline eq_refl eq_refl _); constructor.
Defined.

(** ** Backtracking *)

(** C15: a parse function that fails leaves the stream where it was: position,
    location and last token are those of the call, so the caller can try another
    function. *)
Theorem failed_parse_restores n k (rec : M Block) s e s' :
  (Expr_parse (S n) s = Done (Error e, s') \/
   Struct_parse n s = Done (Error e, s') \/ VarType_parse n s = Done (Error e, s') \/
   Declaration_parse n s = Done (Error e, s') \/ Assignment_parse n s = Done (Error e, s') \/
   Return_parse n s = Done (Error e, s') \/ Typedef_parse n s = Done (Error e, s') \/
   Function_parse n rec s = Done (Error e, s') \/ If_parse n rec s = Done (Error e, s') \/
   For_parse n rec s = Done (Error e, s') \/ Block_parse (S k) s = Done (Error e, s') \/
   Root_parse n s = Done (Error e, s')) ->
  state_ s' = state_ s.
Proof.
  intros [H|[H|[H|[H|[H|[H|[H|[H|[H|[H|[H|H]]]]]]]]]]];
    first [exact (guarded_error _ _ _ _ H) | exact (guarded_opt_error _ _ _ _ H)].
Qed.

Lemma failed_parse_restores_witness :
  match Declaration_parse 10 (TokenStream_make (text "var a = }
")) with
  | Done (Error e, s) => state_ s = State_init
  | _ => False
  end.
Proof.
  destruct (Declaration_parse 10 (TokenStream_make (text "var a = }
"))) as [[[d|e] s]| | |] eqn:E; try (exfalso; vm_compute in E; discriminate E).
  apply (failed_parse_restores 10 0 (fun s => OutOfFuel)
    (TokenStream_make (text "var a = }
")) e s).
  right; right; right; left; exact E.
Defined.


(** ** The token stream *)

(** [Next], several times. *)
Fixpoint nexts (n : nat) (s : TokenStream) : outcome TokenStream :=
  match n with O => Done s | S n => s ← Next s; nexts n s end.

Lemma nexts_wf n s s' : wf s -> nexts n s = Done s' -> wf s' /\ src_ s' = src_ s.
Proof.
  revert s; induction n as [|n IH]; intros s Hs H; cbn [nexts] in H; [injection H as <-; auto|].
  apply outcome_bind_done in H as (s1 & H1 & H).
  destruct (wpo_done _ _ _ _ _ (Next_wpo s Hs) H1) as (Hwf & Hsrc & _).
  apply IH in H as [? ->]; auto.
Qed.

(** C17: wherever the stream got to, [Next] computes what its cache-free
    specification [next_state] does, fault for fault: step over the token at the
    position and over the white space after it, the location moved by their lengths
    or to the next line. *)
Theorem next_refines n src s : nexts n (TokenStream_make src) = Done s ->
  match Next s, next_state s with
  | Done s', Done st => state_ s' = st /\ src_ s' = src
  | Undef f, Undef f' => f = f'
  | Undef _, Done st => forall v, scan_at src (pos st) <> Done v
  | _, _ => False
  end.
Proof.
  intros H; destruct (nexts_wf _ _ _ (wf_make src) H) as [Hwf Hsrc]; simpl in Hsrc.
  pose proof (Next_wpo s Hwf) as Hn; rewrite Next_next_state in * by exact Hwf.
  destruct (next_state s) as [st|f|w|]; simpl in *; auto; try contradiction.
  rewrite Hsrc in *; destruct (scan_at src (pos st)); simpl in *; try contradiction; auto.
Qed.

Lemma next_refines_witness :
  match Next (TokenStream_make (text "a = 1
")) with Done s' => pos (state_ s') = 2 /\ loc s' = mkLoc 1 3 | _ => False end.
Proof.
  pose proof (next_refines 0 (text "a = 1
") (TokenStream_make (text "a = 1
")) eq_refl) as H.
  destruct (next_state (TokenStream_make (text "a = 1
"))) as [st|f|w|] eqn:Es; vm_compute in Es; try discriminate Es.
  injection Es as <-; destruct (Next _) as [s'|f|w|]; try contradiction.
  - destruct H as [H _]; unfold loc; rewrite H; split; reflexivity.
  - exfalso; apply (H (Some (Value_make Assign 1))); vm_compute; reflexivity.
Defined.

(** C18: lines and columns are those of the text.  Wherever the stream got to, its location
    is the one that reading the source byte by byte up to its position gives, without any
    tokens: a CR, an LF or a CR LF starts the next line at column 1 and any other byte is
    one column, but inside a string every byte is a column, line breaks too.  The token
    that [Next] stepped over starts at the location of the stream before, and ends
    at the location of the byte after it. *)
Theorem location_in_text n src s : nexts n (TokenStream_make src) = Done s ->
  loc s = text_location (take (Z.to_nat (pos (state_ s))) src) /\
  forall s', Next s = Done s' -> let v := last_tk (state_ s') in
    start v = text_location (take (Z.to_nat (pos (state_ s))) src) /\
    end_ v = text_location (take (Z.to_nat (pos (state_ s) + len_ v)) src).
Proof.
  intros H; destruct (nexts_wf _ _ _ (wf_make src) H) as [Hwf Hsrc]; simpl in Hsrc.
  rewrite <- Hsrc, <- (stream_location s Hwf); split; [reflexivity|].
  intros s' Hs'; exact (last_token_location s s' Hwf Hs').
Qed.

Definition end_of (s : string) (n : nat) : TokenStream :=
  match nexts n (TokenStream_make (text s)) with Done s => s | _ => TokenStream_make [] end.

Lemma location_in_text_witness :
  loc (end_of "a
bc = " 3) = mkLoc 2 4 /\ end_ (last_tk (state_ (end_of "a
bc = " 3))) = mkLoc 2 3.
Proof.
  assert (E2 : nexts 2 (TokenStream_make (text "a
bc = ")) = Done (end_of "a
bc = " 2)) by (vm_compute; reflexivity).
  assert (E3 : nexts 3 (TokenStream_make (text "a
bc = ")) = Done (end_of "a
bc = " 3)) by (vm_compute; reflexivity).
  assert (E : Next (end_of "a
bc = " 2) = Done (end_of "a
bc = " 3)) by (vm_compute; reflexivity).
  rewrite (proj1 (location_in_text 3 _ _ E3)).
  rewrite (proj2 (proj2 (location_in_text 2 _ _ E2) _ E)); split; vm_compute; reflexivity.
Defined.

(** So the line of a location is wrong behind a string that holds a line break. *)
Lemma line_break_in_string : loc (end_of (String QUOTE ("a
b" +:+ String QUOTE " c ")) 1) = mkLoc 1 7.
Proof. vm_compute; reflexivity. Qed.

(** The first [Peek] at a position returns the token without its location
    (line 1, column 1), the second one returns it with its location; neither moves
    the stream. *)
Theorem peek_location n src s v s1 : nexts n (TokenStream_make src) = Done s ->
  cache_key_ s <> pos (state_ s) -> Peek s = Done (Some v, s1) ->
  start v = mkLoc 1 1 /\ end_ v = mkLoc 1 1 /\ state_ s1 = state_ s /\
  Peek s1 = Done (Some (locate (loc s) v), s1) /\ start (locate (loc s) v) = loc s.
Proof.
  intros Hn Hk Hp; destruct (nexts_wf _ _ _ (wf_make src) Hn) as [Hwf _].
  rewrite Peek_cold in Hp by (now apply Z.eqb_neq).
  destruct (scanned s) as [o| | |] eqn:Es; try discriminate Hp.
  rewrite outcome_bind_ret_l in Hp; injection Hp as -> <-.
  destruct (scan_lexeme _ _ _ Es) as (H1 & H2 & _); rewrite Peek_warmed; auto.
Qed.

Lemma peek_location_witness :
  match Peek (TokenStream_make (text "ab ")) with
  | Done (Some v, s1) => start v = mkLoc 1 1 /\ Peek s1 = Done (Some (locate (mkLoc 1 1) v), s1)
  | _ => False
  end.
Proof.
  destruct (Peek (TokenStream_make (text "ab "))) as [[[v|] s1]| | |] eqn:E;
    try (exfalso; vm_compute in E; discriminate E).
  destruct (peek_location 0 (text "ab ") (TokenStream_make (text "ab ")) v s1 eq_refl
    (fun H => ltac:(vm_compute in H; discriminate H)) E) as (H1 & _ & _ & H2 & _); auto.
Defined.

(** ** The lexer *)

(** C19: a decimal literal, followed by anything but a digit or a point, is one
    [Int] token of its length and value, whatever the number of its digits and of its
    leading zeros; a literal above [INT_MAX] is not an error but an overflow of the
    lexer's [int]. *)
Theorem int_literal ds rest : ds <> [] -> forallb is_digit ds = true ->
  starts_with is_digit rest = false -> starts_with (Ascii.eqb ".") rest = false ->
  FromChars (ds ++ rest) =
    if decimal ds <=? INT_MAX
    then Done (Some (CreateInt (Z.of_nat (length ds)) (decimal ds)))
    else Undef SignedOverflow.
Proof. apply int_lexed. Qed.

Lemma int_literal_witness :
  FromChars (text "0042+1") = Done (Some (CreateInt 4 42)) /\
  FromChars (text "2147483648 ") = Undef SignedOverflow.
Proof.
  split.
  - apply (int_literal (text "0042") (text "+1")); (discriminate || reflexivity).
  - apply (int_literal (text "2147483648") (text " ")); (discriminate || reflexivity).
Defined.

(** The words among the simple tokens. *)
Definition is_word (s : string) : bool :=
  match s with String c _ => is_symbol_head_ele c | EmptyString => false end.

Definition keywords : list (string * Type_) := filter (fun p => is_word p.1 = true) simple_tokens.

(** C20: a keyword is recognised whatever follows it, letters too: an identifier
    that begins with a keyword is split after it. *)
Theorem keyword_prefix kw t rest : (kw, t) ∈ keywords ->
  FromChars (text kw ++ rest) = Done (Some (Value_make t (Z.of_nat (String.length kw)))).
Proof.
  intros H; vm_compute in H.
  repeat (apply list_elem_of_In in H; cbn [In] in H); unfold FromChars.
  repeat (destruct H as [H|H]; [injection H as <- <-; vm_compute; reflexivity|]); destruct H.
Qed.

Lemma keyword_prefix_witness :
  FromChars (text "gopher = 1") = Done (Some (Value_make Go 2)).
Proof.
  apply (keyword_prefix "go" Go (text "pher = 1")); apply list_elem_of_In; vm_compute; auto 20.
Defined.

(** C21: an identifier that starts with no simple token and is followed by a
    character that cannot belong to it is one [Symbol] token with its text; at the
    end of the input it is not recognised at all. *)
Theorem symbol_literal c name rest : is_symbol_head_ele c = true ->
  forallb is_symbol_ele name = true -> starts_with is_symbol_ele rest = false ->
  match_simple simple_tokens (c :: name ++ rest) = None ->
  FromChars (c :: name ++ rest) =
    Done (if decide (rest = []) then None
          else Some (CreateSymbol (Z.of_nat (S (length name)))
                       (String.string_of_list_ascii (c :: name)))).
Proof. apply symbol_lexed. Qed.

Lemma symbol_literal_witness :
  FromChars (text "count1 = 2") = Done (Some (CreateSymbol 6 "count1")) /\
  FromChars (text "count1") = Done None.
Proof.
  split.
  - apply (symbol_literal "c" (text "ount1") (text " = 2")); reflexivity.
  - apply (symbol_literal "c" (text "ount1") []); reflexivity.
Defined.
