(* ===== verification/Memory.v ===== *)
(** * Memory: the zero-initialised stack of the virtual machine
    (src/src/vm.h, [stack_]; src/src/vm.cpp, [Init])

    A buffer obtained from [calloc] is the finite map of the bytes written so
    far; any other byte is 0.  [load] and [store] are the reads and writes
    through a reinterpreted [uint8_t*]. *)

From S2P Require Import Prelude Machine.

Abbreviation memory := (gmap Z Z).

Definition load_byte (m : memory) (a : Z) : Z := default 0 (m !! a).

Fixpoint load (n : nat) (a : Z) (m : memory) : list Z :=
  match n with
  | O => []
  | S k => load_byte m a :: load k (a + 1) m
  end.

Fixpoint store (a : Z) (bs : list Z) (m : memory) : memory :=
  match bs with
  | [] => m
  | b :: r => store (a + 1) r (<[a := b]> m)
  end.

(** Every byte of the map is a byte. *)
Definition mem_ok (m : memory) : Prop := forall a, is_byte (load_byte m a).

(** Two buffers with the same contents (they may differ in which zero bytes were
    written). *)
#[export] Instance mem_equiv : Equiv memory := fun m m' =>
  forall a, load_byte m a = load_byte m' a.

(** ** Lemmas *)

#[export] Instance mem_equivalence : Equivalence (≡@{memory}).
Proof. split; [intros m a|intros m m' H a|intros m1 m2 m3 H H' a]; congruence. Qed.

Lemma length_load n a m : length (load n a m) = n.
Proof. revert a; induction n; simpl; auto. Qed.

Lemma load_byte_insert m a b c :
  load_byte (<[a := b]> m) c = if decide (a = c) then b else load_byte m c.
Proof.
  unfold load_byte; destruct (decide (a = c)) as [->|Hne].
  - now rewrite lookup_insert_eq.
  - now rewrite lookup_insert_ne.
Qed.

(** A store, byte by byte. *)
Lemma load_byte_store m a bs c :
  load_byte (store a bs m) c =
    if decide (a <= c < a + Z.of_nat (length bs))
    then nth (Z.to_nat (c - a)) bs 0 else load_byte m c.
Proof.
  revert a m; induction bs as [|b bs IH]; intros a m; cbn [store length].
  { rewrite decide_False by lia; reflexivity. }
  rewrite IH, load_byte_insert.
  destruct (decide (a = c)) as [->|Hne].
  - rewrite decide_False, decide_True by lia; now rewrite Z.sub_diag.
  - destruct (decide (a + 1 <= c < a + 1 + Z.of_nat (length bs))).
    + rewrite decide_True by lia.
      replace (Z.to_nat (c - a)) with (S (Z.to_nat (c - (a + 1)))) by lia; reflexivity.
    + rewrite decide_False by lia; reflexivity.
Qed.

Lemma load_ext n a m m' :
  (forall c, a <= c < a + Z.of_nat n -> load_byte m c = load_byte m' c) ->
  load n a m = load n a m'.
Proof.
  revert a; induction n as [|n IH]; intros a H; cbn [load]; [reflexivity|].
  f_equal; [apply H; lia|apply IH; intros; apply H; lia].
Qed.

Lemma load_store_same m a bs : load (length bs) a (store a bs m) = bs.
Proof.
  revert a m; induction bs as [|b bs IH]; intros a m; cbn [load store length]; [reflexivity|].
  rewrite IH; f_equal; rewrite load_byte_store, decide_False, load_byte_insert by lia.
  now rewrite decide_True.
Qed.

Lemma load_store_disjoint m a bs n c :
  c + Z.of_nat n <= a \/ a + Z.of_nat (length bs) <= c ->
  load n c (store a bs m) = load n c m.
Proof.
  intros H; apply load_ext; intros d Hd; rewrite load_byte_store, decide_False by lia.
  reflexivity.
Qed.

Lemma mem_ok_empty : mem_ok ∅.
Proof. intros a; unfold load_byte; rewrite lookup_empty; simpl; unfold is_byte; lia. Qed.

Lemma mem_ok_store m a bs : mem_ok m -> Forall is_byte bs -> mem_ok (store a bs m).
Proof.
  intros Hm Hbs c; rewrite load_byte_store; destruct (decide _) as [Hc|]; [|apply Hm].
  apply (proj1 (List.Forall_nth is_byte bs) Hbs); lia.
Qed.

Lemma load_bytes_ok n a m : mem_ok m -> Forall is_byte (load n a m).
Proof. intros Hm; revert a; induction n; simpl; constructor; auto. Qed.

Lemma load_app n k a m : load (n + k) a m = load n a m ++ load k (a + Z.of_nat n) m.
Proof.
  revert a; induction n as [|n IH]; intros a; cbn [load Nat.add app].
  { now rewrite Z.add_0_r. }
  rewrite IH; f_equal; do 2 f_equal; lia.
Qed.

#[export] Instance load_proper n a : Proper ((≡@{memory}) ==> eq) (load n a).
Proof. intros m m' H; apply load_ext; auto. Qed.

#[export] Instance store_proper a bs : Proper ((≡@{memory}) ==> (≡)) (store a bs).
Proof.
  intros m m' H c; rewrite !load_byte_store; destruct (decide _); [reflexivity|apply H].
Qed.
