(* ===== verification/Vm.v ===== *)
(** * Vm: the byte-code virtual machine (src/src/vm.h, src/src/vm.cpp)

    One [step] per instruction; [Run] is the loop with its three exits.  A
    faulting instruction is undefined behaviour ([Undef]) or a failed assertion
    ([Abort]); every [uint64_t] is an integer in [0, 2^64).  What [printf]
    writes is collected in [output]. *)

From S2P Require Import Prelude Machine Memory.
From Stdlib Require Import SpecFloat.

(** ** Addresses *)

Definition BUILT_IN_START : Z := UINT64_MAX - 10000.
Definition SC_PRINT_I8 : Z := BUILT_IN_START.
Definition SC_PRINT_I32 : Z := BUILT_IN_START + 1.
Definition SC_PRINT_I64 : Z := BUILT_IN_START + 2.
Definition SC_PRINT_F32 : Z := BUILT_IN_START + 3.
Definition SC_PRINT_F64 : Z := BUILT_IN_START + 4.
Definition SC_PRINT_STR : Z := BUILT_IN_START + 5.

Definition TypePart : Z := 0xFF00000000000000.
Definition OffsetPart : Z := 0x00FFFFFFFFFFFFFF.
Definition ZERO : Z := 0x0000000000000000.
Definition ROM : Z := 0x0100000000000000.
Definition CODE : Z := 0x0200000000000000.
Definition STACK_TOP : Z := 0x0300000000000000.
Definition STACK_TAIL : Z := 0x0400000000000000.
Definition LABEL : Z := 0x0500000000000000.

(** [base(addr_type, offset)] *)
Definition base (addr_type offset : Z) : Z :=
  Z.lor (Z.land (wrap_u 64 offset) OffsetPart) addr_type.

(** ** Instructions: the enumerators come from [BinarInstList] *)

Inductive InstType : Set := I8 | I32 | I64 | F32 | F64.
Inductive BinOp : Set := Add | Sub | Mul | Div.
Inductive CmpOp : Set := Gt_ | Eq_ | GtEq.

(** [Bin Add I32] is [Op::AddI32], [BinD Mul I32] is [Op::MulI32D],
    [Jump Gt_ I32] is [Op::JumpGtI32], [ToI32 F32] is [Op::ToI32F32]. *)
Inductive Op : Set :=
  | Move | Set8 | Set32 | Set64 | SetStackBottom | SavePC | Call | Return | Label
  | Bin (o : BinOp) (t : InstType)
  | BinD (o : BinOp) (t : InstType)
  | Jump (c : CmpOp) (t : InstType)
  | ToI32 (t : InstType)
  | ToF32 (t : InstType).

#[export] Instance InstType_eq_dec : EqDecision InstType.
Proof. solve_decision. Defined.
#[export] Instance BinOp_eq_dec : EqDecision BinOp.
Proof. solve_decision. Defined.
#[export] Instance CmpOp_eq_dec : EqDecision CmpOp.
Proof. solve_decision. Defined.
#[export] Instance Op_eq_dec : EqDecision Op.
Proof. solve_decision. Defined.

Definition type_code (t : InstType) : Z :=
  match t with I8 => 0 | I32 => 1 | I64 => 2 | F32 => 3 | F64 => 4 end.
Definition binop_code (o : BinOp) : Z :=
  match o with Add => 0 | Sub => 1 | Mul => 2 | Div => 3 end.
Definition cmp_code (c : CmpOp) : Z := match c with Gt_ => 0 | Eq_ => 1 | GtEq => 2 end.

(** [(uint32_t)op] *)
Definition op_code (o : Op) : Z :=
  match o with
  | Move => 0 | Set8 => 1 | Set32 => 2 | Set64 => 3 | SetStackBottom => 4
  | SavePC => 5 | Call => 6 | Return => 7 | Label => 8
  | Bin o t => 9 + 5 * binop_code o + type_code t
  | BinD o t => 29 + 5 * binop_code o + type_code t
  | Jump c t => 49 + 5 * cmp_code c + type_code t
  | ToI32 t => 64 + type_code t
  | ToF32 t => 69 + type_code t
  end.

Record Instruction : Set := mkInst { op : Op; arg0 : Z; arg1 : Z; arg2 : Z }.

(** [Instruction::debug]: only the operands are hexadecimal. *)
Definition Instruction_debug (i : Instruction) : string :=
  (pretty (op_code (op i)) +:+ "  " +:+ hex_u64 (arg0 i) +:+ " " +:+ hex_u64 (arg1 i)
   +:+ " " +:+ hex_u64 (arg2 i))%string.

Record Program : Set := mkProgram { prog_name : string; instructions : list Instruction }.

Definition Program_make : Program := mkProgram "a.myout" [].
Definition AddInstruction (i : Instruction) (p : Program) : Program :=
  mkProgram (prog_name p) (instructions p ++ [i]).

Definition newline : string := String (ascii_of_nat 10) "".

Definition Program_debug (p : Program) : string :=
  foldl (fun res i => res +:+ newline +:+ Instruction_debug i)%string "" (instructions p).

(** [f32u64], [i32u64]: the operand's low half reinterpreted. *)
Definition f32u64 (f : spec_float) : Z := bits_of_float binary32 f.
Definition i32u64 (i : Z) : Z := wrap_u 32 i.

(** ** Values of the instruction types *)

(** [C_TYPE] of an instruction type: [int8_t], [int32_t], [int64_t], [float],
    [double]. *)
Definition C_TYPE (t : InstType) : Set :=
  match t with I8 | I32 | I64 => Z | F32 | F64 => spec_float end.

Definition type_size (t : InstType) : nat :=
  match t with I8 => 1 | I32 => 4 | I64 => 8 | F32 => 4 | F64 => 8 end.

(** The value of [sizeof(C_TYPE)] bytes, and back. *)
Definition decode (t : InstType) (bs : list Z) : C_TYPE t :=
  match t with
  | I8 => wrap_s 8 (le_value bs)
  | I32 => wrap_s 32 (le_value bs)
  | I64 => wrap_s 64 (le_value bs)
  | F32 => float_of_bits binary32 (le_value bs)
  | F64 => float_of_bits binary64 (le_value bs)
  end.

Definition encode (t : InstType) : C_TYPE t -> list Z :=
  match t with
  | I8 => le_bytes 1
  | I32 => le_bytes 4
  | I64 => le_bytes 8
  | F32 => fun f => le_bytes 4 (bits_of_float binary32 f)
  | F64 => fun f => le_bytes 8 (bits_of_float binary64 f)
  end.

(** [a op b] for integers computed at width [w]. *)
Definition int_arith (w : Z) (o : BinOp) (a b : Z) : outcome Z :=
  match o with
  | Add => checked_s w (a + b)
  | Sub => checked_s w (a - b)
  | Mul => checked_s w (a * b)
  | Div => sdiv w a b
  end.

Definition float_arith (ff : float_format) (o : BinOp) : spec_float -> spec_float -> spec_float :=
  match o with
  | Add => fadd ff | Sub => fsub ff | Mul => fmul ff | Div => fdiv ff
  end.

(** [(C_TYPE)(a op b)]: [int8_t] operands are promoted to [int] and the result is
    converted back. *)
Definition arith (t : InstType) (o : BinOp) : C_TYPE t -> C_TYPE t -> outcome (C_TYPE t) :=
  match t with
  | I8 => fun a b => r ← int_arith 32 o a b; Done (wrap_s 8 r)
  | I32 => int_arith 32 o
  | I64 => int_arith 64 o
  | F32 => fun a b => Done (float_arith binary32 o a b)
  | F64 => fun a b => Done (float_arith binary64 o a b)
  end.

Definition int_compare (c : CmpOp) (a b : Z) : bool :=
  match c with Gt_ => b <? a | Eq_ => a =? b | GtEq => b <=? a end.
Definition float_compare (c : CmpOp) (a b : spec_float) : bool :=
  match c with Gt_ => SFltb b a | Eq_ => SFeqb a b | GtEq => SFleb b a end.

Definition compare_with (c : CmpOp) (t : InstType) : C_TYPE t -> C_TYPE t -> bool :=
  match t with
  | I8 | I32 | I64 => int_compare c
  | F32 | F64 => float_compare c
  end.

(** [(uint32_t)f]: undefined when the integer part is not a [uint32_t]. *)
Definition float_to_u32 (f : spec_float) : outcome Z :=
  match float_trunc f with
  | Some z => if in_u 32 z then Done z else Undef FloatToInt
  | None => Undef FloatToInt
  end.

Definition to_u32 (t : InstType) : C_TYPE t -> outcome Z :=
  match t with
  | I8 | I32 | I64 => fun z => Done (wrap_u 32 z)
  | F32 | F64 => float_to_u32
  end.

(** [(float)v] *)
Definition to_f32 (t : InstType) : C_TYPE t -> spec_float :=
  match t with
  | I8 | I32 | I64 => f32_of_Z
  | F32 | F64 => float_convert binary32
  end.

(** ** The machine *)

Record CallPoint : Set := mkCallPoint {
  cp_pc : Z;
  cp_stack_top : Z;
  cp_stack_bottom : Z;
  cp_ret_res_addr : Z;
}.

Record ByteCodeVM : Set := mkVM {
  program_ : Program;
  pc_ : Z;
  stack_top_ : Z;
  stack_bottom_ : Z;
  stack_start_ : Z;
  heap_start_ : Z;
  base_addr_ : Z;
  call_stack_ : list CallPoint;   (* the back of the vector first *)
  finished_ : bool;
  stack_ : memory;
  output : list string;           (* the last line first *)
}.

Definition MAX_HEAP : Z := 1000 * 1000 * 1000.
Definition MAX_STACK : Z := 1000 * 1000 * 8.
Definition static_size_ : Z := 1000 * 1000 * 8.

(** [Init()], on the members' initial values; the three [calloc]s are taken to
    succeed. *)
Definition Init (p : Program) : ByteCodeVM := {|
  program_ := p;
  pc_ := 0; stack_top_ := 0; stack_bottom_ := 0;
  stack_start_ := 0 + static_size_;
  heap_start_ := 0 + static_size_ + MAX_STACK;
  base_addr_ := 0 + static_size_;
  call_stack_ := []; finished_ := false;
  stack_ := ∅; output := [];
|}.

(** [ByteCodeVM(program)] *)
Definition ByteCodeVM_make (program : Program) : ByteCodeVM := Init program.

Definition stack_start (vm : ByteCodeVM) : Z := stack_start_ vm.

Definition set_pc (pc : Z) (vm : ByteCodeVM) : ByteCodeVM :=
  mkVM (program_ vm) pc (stack_top_ vm) (stack_bottom_ vm) (stack_start_ vm)
    (heap_start_ vm) (base_addr_ vm) (call_stack_ vm) (finished_ vm) (stack_ vm) (output vm).
Definition set_stack_bottom (b : Z) (vm : ByteCodeVM) : ByteCodeVM :=
  mkVM (program_ vm) (pc_ vm) (stack_top_ vm) b (stack_start_ vm)
    (heap_start_ vm) (base_addr_ vm) (call_stack_ vm) (finished_ vm) (stack_ vm) (output vm).
(** The registers and the call stack, as [Call] and [Return] change them. *)
Definition set_frame (top bottom base : Z) (cs : list CallPoint) (vm : ByteCodeVM) : ByteCodeVM :=
  mkVM (program_ vm) (pc_ vm) top bottom (stack_start_ vm)
    (heap_start_ vm) base cs (finished_ vm) (stack_ vm) (output vm).
Definition set_stack (m : memory) (vm : ByteCodeVM) : ByteCodeVM :=
  mkVM (program_ vm) (pc_ vm) (stack_top_ vm) (stack_bottom_ vm) (stack_start_ vm)
    (heap_start_ vm) (base_addr_ vm) (call_stack_ vm) (finished_ vm) m (output vm).
Definition print (text : string) (vm : ByteCodeVM) : ByteCodeVM :=
  mkVM (program_ vm) (pc_ vm) (stack_top_ vm) (stack_bottom_ vm) (stack_start_ vm)
    (heap_start_ vm) (base_addr_ vm) (call_stack_ vm) (finished_ vm) (stack_ vm)
    (text :: output vm).
Definition finish (vm : ByteCodeVM) : ByteCodeVM :=
  mkVM (program_ vm) (pc_ vm) (stack_top_ vm) (stack_bottom_ vm) (stack_start_ vm)
    (heap_start_ vm) (base_addr_ vm) (call_stack_ vm) true (stack_ vm) (output vm).

Definition setPc : Z -> ByteCodeVM -> ByteCodeVM := set_pc.
Definition advance_pc (vm : ByteCodeVM) : ByteCodeVM := set_pc (wrap_u 64 (pc_ vm + 1)) vm.

(** [transAddr]: the index into [stack_]. *)
Definition transAddr (vm : ByteCodeVM) (addr : Z) : outcome Z :=
  let type := Z.land addr TypePart in
  let offset := Z.land addr OffsetPart in
  if type =? STACK_TOP then Done (wrap_u 64 (stack_top_ vm + offset))
  else if type =? STACK_TAIL then Done (wrap_u 64 (stack_bottom_ vm + offset))
  else Abort "no implement".

Definition in_stack (i : Z) (n : nat) : bool := (0 <=? i) && (i + Z.of_nat n <=? MAX_STACK).

(** Reading and writing [n] bytes through [transAddr(addr)]. *)
Definition read (n : nat) (addr : Z) (vm : ByteCodeVM) : outcome (list Z) :=
  i ← transAddr vm addr;
  if in_stack i n then Done (load n i (stack_ vm)) else Undef OutOfBounds.

Definition write (addr : Z) (bs : list Z) (vm : ByteCodeVM) : outcome ByteCodeVM :=
  i ← transAddr vm addr;
  if in_stack i (length bs) then Done (set_stack (store i bs (stack_ vm)) vm)
  else Undef OutOfBounds.

Definition read_as (t : InstType) (addr : Z) (vm : ByteCodeVM) : outcome (C_TYPE t) :=
  bs ← read (type_size t) addr vm; Done (decode t bs).
Definition write_as (t : InstType) (addr : Z) (c : C_TYPE t) (vm : ByteCodeVM)
    : outcome ByteCodeVM :=
  write addr (encode t c) vm.

Definition read_u64 (addr : Z) (vm : ByteCodeVM) : outcome Z :=
  bs ← read 8 addr vm; Done (le_value bs).

(** [printf("%s")]: the bytes up to the terminating zero. *)
Fixpoint c_string (fuel : nat) (i : Z) (m : memory) : outcome string :=
  match fuel with
  | O => Undef OutOfBounds
  | S k =>
      let b := load_byte m i in
      if b =? 0 then Done ""
      else s ← c_string k (i + 1) m; Done (String (ascii_of_N (Z.to_N b)) s)
  end.

(** The built-in functions of [Call]. *)
Definition syscall (f arg : Z) (vm : ByteCodeVM) : outcome ByteCodeVM :=
  let put s := Done (print (s +:+ newline)%string vm) in
  if f =? SC_PRINT_I8 then z ← read_as I8 arg vm; put (pretty z)
  else if f =? SC_PRINT_I32 then z ← read_as I32 arg vm; put (pretty z)
  else if f =? SC_PRINT_I64 then z ← read_as I64 arg vm; put (pretty z)
  else if f =? SC_PRINT_F32 then z ← read_as F32 arg vm; put (float_to_string z)
  else if f =? SC_PRINT_F64 then z ← read_as F64 arg vm; put (float_to_string z)
  else if f =? SC_PRINT_STR then
    i ← transAddr vm arg;
    s ← c_string (Z.to_nat (MAX_STACK - i)) i (stack_ vm);
    put s
  else Abort "not implement op for this op".

(** The bytes [*(uint8_t* )transAddr(addr + i)] for [i < n], one by one. *)
Fixpoint read_bytes (n : nat) (addr : Z) (vm : ByteCodeVM) : outcome (list Z) :=
  match n with
  | O => Done []
  | S k =>
      b ← read 1 addr vm;
      r ← read_bytes k (wrap_u 64 (addr + 1)) vm;
      Done (b ++ r)
  end.

Fixpoint write_bytes (addr : Z) (bs : list Z) (vm : ByteCodeVM) : outcome ByteCodeVM :=
  match bs with
  | [] => Done vm
  | b :: r => vm ← write addr [b] vm; write_bytes (wrap_u 64 (addr + 1)) r vm
  end.

(** [Op::Return] *)
Definition do_return (ret_addr ret_len : Z) (vm : ByteCodeVM) : outcome ByteCodeVM :=
  match call_stack_ vm with
  | [] => Done (print ("process finished " +:+ newline)%string (finish vm))
  | cp :: cs =>
      content ← read_bytes (Z.to_nat ret_len) ret_addr vm;
      let vm := set_frame (cp_stack_top cp) (cp_stack_bottom cp) (cp_stack_top cp) cs vm in
      write_bytes (cp_ret_res_addr cp) content (set_pc (cp_pc cp) vm)
  end.

(** [Op::Call]: of a function of the program, or of a built-in one. *)
Definition do_call (f arg : Z) (vm : ByteCodeVM) : outcome ByteCodeVM :=
  if f <? BUILT_IN_START then
    let cp := mkCallPoint (wrap_u 64 (pc_ vm + 1)) (stack_top_ vm) (stack_bottom_ vm) arg in
    Done (set_pc f
      (set_frame (stack_bottom_ vm) (stack_bottom_ vm) (base_addr_ vm) (cp :: call_stack_ vm) vm))
  else vm ← syscall f arg vm; Done (advance_pc vm).

(** The [default] of the [switch], which is where [Op::Label] goes. *)
Definition no_such_op : outcome ByteCodeVM := Abort "not implement op for this op".

(** One round of the [switch]. *)
Definition step (ins : Instruction) (vm : ByteCodeVM) : outcome ByteCodeVM :=
  match op ins with
  | Move =>
      b ← read 1 (arg1 ins) vm; vm ← write (arg0 ins) b vm; Done (advance_pc vm)
  | Set8 => vm ← write (arg0 ins) (le_bytes 1 (arg1 ins)) vm; Done (advance_pc vm)
  | Set32 => vm ← write (arg0 ins) (le_bytes 4 (arg1 ins)) vm; Done (advance_pc vm)
  | Set64 => vm ← write (arg0 ins) (le_bytes 8 (arg1 ins)) vm; Done (advance_pc vm)
  | SetStackBottom =>
      Done (advance_pc (set_stack_bottom (wrap_u 64 (stack_top_ vm + arg0 ins)) vm))
  | Bin o t =>
      a ← read_as t (arg1 ins) vm;
      b ← read_as t (arg2 ins) vm;
      r ← arith t o a b;
      vm ← write_as t (arg0 ins) r vm;
      Done (advance_pc vm)
  | BinD o t =>
      a ← read_as t (arg0 ins) vm;
      r ← arith t o a (decode t (le_bytes (type_size t) (arg1 ins)));
      vm ← write_as t (arg0 ins) r vm;
      Done (advance_pc vm)
  | Jump c t =>
      a ← read_as t (arg0 ins) vm;
      b ← read_as t (arg1 ins) vm;
      if compare_with c t a b then
        pc ← read_u64 (arg2 ins) vm; Done (set_pc pc vm)
      else Done (advance_pc vm)
  | ToI32 t =>
      a ← read_as t (arg1 ins) vm;
      z ← to_u32 t a;
      vm ← write (arg0 ins) (le_bytes 4 z) vm;
      Done (advance_pc vm)
  | ToF32 t =>
      a ← read_as t (arg1 ins) vm;
      vm ← write_as F32 (arg0 ins) (to_f32 t a) vm;
      Done (advance_pc vm)
  | SavePC =>
      vm' ← write (arg0 ins) (le_bytes 8 (pc_ vm + 1)) vm; Done (advance_pc vm')
  | Call => do_call (arg0 ins) (arg1 ins) vm
  | Return => do_return (arg0 ins) (arg1 ins) vm
  | Label => no_such_op
  end.

(** [Run(ticks)] *)
Fixpoint Run (ticks : nat) (vm : ByteCodeVM) : outcome ByteCodeVM :=
  match ticks with
  | O => Done vm
  | S k =>
      if finished_ vm then Done vm
      else
        match instructions (program_ vm) !! Z.to_nat (pc_ vm) with
        | None => Done vm
        | Some ins => vm ← step ins vm; Run k vm
        end
  end.

(** The machine has stopped: [Run] does nothing more. *)
Definition halted (vm : ByteCodeVM) : bool :=
  finished_ vm || (Z.of_nat (length (instructions (program_ vm))) <=? pc_ vm).

(** [debugStack]: rows of bytes and of indices, three columns wide. *)
Definition pad3 (s : string) : string :=
  match String.length s with
  | O => "   " +:+ s | 1%nat => "  " +:+ s | 2%nat => " " +:+ s | _ => s
  end%string.

Definition debug_row (m : memory) (j : Z) : string :=
  let cells f := String.concat "" (map (fun i => pad3 (pretty (f (j + Z.of_nat i))) +:+ " ")%string (seq 0 20)) in
  (cells (load_byte m) +:+ newline +:+ cells id +:+ newline +:+ newline +:+ newline)%string.

Definition debugStack (vm : ByteCodeVM) : string :=
  String.concat "" (map (fun r => debug_row (stack_ vm) (Z.of_nat r * 20)) (seq 0 10)).

(** ** The buffers and the destructor *)

(** [static_], [heap_] and [stack_], null or the address of a buffer. *)
Record Buffers : Set := mkBuffers {
  b_static : option Z;
  b_heap : option Z;
  b_stack : option Z;
}.

(** [~ByteCodeVM()]: what is passed to [free], and the pointers afterwards.  The
    tests free a pointer only when it is null. *)
Definition destroy_one (p : option Z) : list (option Z) * option Z :=
  match p with None => ([None], None) | Some a => ([], Some a) end.

Definition destroy (b : Buffers) : list (option Z) * Buffers :=
  let '(f1, p1) := destroy_one (b_static b) in
  let '(f2, p2) := destroy_one (b_heap b) in
  let '(f3, p3) := destroy_one (b_stack b) in
  (f1 ++ f2 ++ f3, mkBuffers p1 p2 p3).

(** ** Lemmas: addresses *)

#[global] Arguments TypePart : simpl never.
#[global] Arguments OffsetPart : simpl never.
#[global] Arguments MAX_STACK : simpl never.
#[global] Arguments wrap_u : simpl never.

(** The segments [transAddr] knows. *)
Definition is_segment (t : Z) : Prop := t = STACK_TOP \/ t = STACK_TAIL.

Lemma offset_part x : Z.land x OffsetPart = x mod 2 ^ 56.
Proof. change OffsetPart with (Z.ones 56); apply Z.land_ones; lia. Qed.

Lemma base_parts t o : Z.land t OffsetPart = 0 -> Z.land t TypePart = t ->
  Z.land (base t o) TypePart = t /\ Z.land (base t o) OffsetPart = o mod 2 ^ 56.
Proof.
  intros H1 H2; unfold base; rewrite !Z.land_lor_distr_l, H1, H2, <- !Z.land_assoc.
  change (Z.land OffsetPart TypePart) with 0.
  change (Z.land OffsetPart OffsetPart) with OffsetPart.
  rewrite Z.land_0_r, Z.lor_0_l, Z.lor_0_r, offset_part; split; [reflexivity|].
  unfold wrap_u; apply Z.mod_mod_divide; now exists (2 ^ 8).
Qed.

Lemma transAddr_top vm o :
  transAddr vm (base STACK_TOP o) = Done (wrap_u 64 (stack_top_ vm + o mod 2 ^ 56)).
Proof.
  destruct (base_parts STACK_TOP o eq_refl eq_refl) as [H1 H2].
  unfold transAddr; rewrite H1, H2; reflexivity.
Qed.

Lemma transAddr_tail vm o :
  transAddr vm (base STACK_TAIL o) = Done (wrap_u 64 (stack_bottom_ vm + o mod 2 ^ 56)).
Proof.
  destruct (base_parts STACK_TAIL o eq_refl eq_refl) as [H1 H2].
  unfold transAddr; rewrite H1, H2; reflexivity.
Qed.

(** Addresses that never overlap the stack: a program cannot read or write
    through them. *)
Lemma transAddr_other vm addr :
  Z.land addr TypePart <> STACK_TOP -> Z.land addr TypePart <> STACK_TAIL ->
  transAddr vm addr = Abort "no implement".
Proof.
  intros H1 H2; unfold transAddr; apply Z.eqb_neq in H1, H2; now rewrite H1, H2.
Qed.

Lemma in_stack_spec i n : in_stack i n = true <-> 0 <= i /\ i + Z.of_nat n <= MAX_STACK.
Proof. unfold in_stack; rewrite andb_true_iff, !Z.leb_le; tauto. Qed.

(** ** Lemmas: values *)

(** The values a [C_TYPE] can hold. *)
Definition representable (t : InstType) : C_TYPE t -> Prop :=
  match t with
  | I8 => fun z => in_s 8 z = true
  | I32 => fun z => in_s 32 z = true
  | I64 => fun z => in_s 64 z = true
  | F32 => fun f => valid_binary (f_prec binary32) (f_emax binary32) f = true
  | F64 => fun f => valid_binary (f_prec binary64) (f_emax binary64) f = true
  end.

Lemma length_encode t c : length (encode t c) = type_size t.
Proof. destruct t; apply length_le_bytes. Qed.

Lemma encode_bytes t c : Forall is_byte (encode t c).
Proof. destruct t; apply le_bytes_are_bytes. Qed.

Lemma wrap_s_le_bytes w n z : 8 * Z.of_nat n = w -> 0 < w -> in_s w z = true ->
  wrap_s w (le_value (le_bytes n z)) = z.
Proof.
  intros Hn Hw Hz; rewrite le_value_bytes, Hn.
  change (z mod 2 ^ w) with (wrap_u w z).
  rewrite wrap_s_wrap_u by lia; now apply wrap_s_small.
Qed.

Lemma bits_of_float_range ff f : 0 < mant_w ff -> 1 < exp_w ff ->
  valid_binary (f_prec ff) (f_emax ff) f = true ->
  0 <= bits_of_float ff f < 2 ^ (1 + exp_w ff + mant_w ff).
Proof.
  intros Hm He Hv.
  pose proof (pow2_pos (mant_w ff) ltac:(lia)) as Pm.
  pose proof (pow2_pos (exp_w ff) ltac:(lia)) as Pe.
  assert (Hx2 : 2 ^ exp_w ff = 2 * f_emax ff) by (apply pow2_split; lia).
  assert (He1 : 2 <= f_emax ff).
  { unfold f_emax; pose proof (Z.pow_le_mono_r 2 1 (exp_w ff - 1)); lia. }
  assert (Hm1 : 0 < 2 ^ (mant_w ff - 1) < 2 ^ mant_w ff).
  { rewrite (pow2_split (mant_w ff)) by lia; pose proof (pow2_pos (mant_w ff - 1)); lia. }
  assert (Hf : forall s e m, 0 <= e < 2 ^ exp_w ff -> 0 <= m < 2 ^ mant_w ff ->
    0 <= sign_bit ff s + e * 2 ^ mant_w ff + m < 2 ^ (1 + exp_w ff + mant_w ff)).
  { intros s e m H1 H2; apply (float_fields ff Hm He s e m H1 H2). }
  destruct f as [s|s| |s p e]; cbn [bits_of_float].
  - specialize (Hf s 0 0 ltac:(lia) ltac:(lia)); lia.
  - specialize (Hf s (2 ^ exp_w ff - 1) 0 ltac:(lia) ltac:(lia)); lia.
  - specialize (Hf false (2 ^ exp_w ff - 1) (2 ^ (mant_w ff - 1)) ltac:(lia) ltac:(lia)).
    simpl sign_bit in Hf; lia.
  - apply bounded_cases in Hv; [|unfold f_prec; lia]; cbv zeta in Hv.
    unfold f_prec in Hv; replace (mant_w ff + 1 - 1) with (mant_w ff) in Hv by lia.
    change (3 - f_emax ff - (mant_w ff + 1)) with (f_emin ff) in Hv.
    assert (Hpp : 2 ^ (mant_w ff + 1) = 2 * 2 ^ mant_w ff)
      by (rewrite Z.pow_add_r by lia; lia).
    assert (Hmin : f_emin ff = 3 - f_emax ff - (mant_w ff + 1)) by reflexivity.
    destruct (Z.leb_spec (2 ^ mant_w ff) (Zpos p)).
    + apply Hf; lia.
    + specialize (Hf s 0 (Zpos p)); lia.
Qed.

(** What is stored is what is read back. *)
Lemma decode_encode t c : representable t c -> decode t (encode t c) = c.
Proof.
  destruct t; cbn [representable decode encode]; intros Hc.
  1-3: apply wrap_s_le_bytes; [reflexivity|lia|exact Hc].
  - rewrite le_value_bytes, Z.mod_small.
    + apply float_bits_roundtrip; [reflexivity..|exact Hc].
    + apply (bits_of_float_range binary32); [reflexivity..|exact Hc].
  - rewrite le_value_bytes, Z.mod_small.
    + apply float_bits_roundtrip; [reflexivity..|exact Hc].
    + apply (bits_of_float_range binary64); [reflexivity..|exact Hc].
Qed.

Lemma decode_int_representable t bs :
  match t with F32 | F64 => Logic.True | _ => representable t (decode t bs) end.
Proof. destruct t; cbn [representable decode]; try exact I; apply wrap_s_range; lia. Qed.

(** ** Lemmas: reads and writes *)

Lemma write_inv addr bs vm vm' : write addr bs vm = Done vm' ->
  exists i, transAddr vm addr = Done i /\ in_stack i (length bs) = true /\
    vm' = set_stack (store i bs (stack_ vm)) vm.
Proof.
  unfold write; destruct (transAddr vm addr) as [i| | |]; try discriminate.
  rewrite outcome_bind_ret_l; destruct (in_stack i (length bs)) eqn:E; [|discriminate].
  intros [= <-]; eauto.
Qed.

Lemma read_inv n addr vm bs : read n addr vm = Done bs ->
  exists i, transAddr vm addr = Done i /\ in_stack i n = true /\ bs = load n i (stack_ vm).
Proof.
  unfold read; destruct (transAddr vm addr) as [i| | |]; try discriminate.
  rewrite outcome_bind_ret_l; destruct (in_stack i n) eqn:E; [|discriminate].
  intros [= <-]; eauto.
Qed.

Lemma transAddr_set_stack m vm addr : transAddr (set_stack m vm) addr = transAddr vm addr.
Proof. reflexivity. Qed.

Lemma write_read addr bs vm vm' : write addr bs vm = Done vm' ->
  read (length bs) addr vm' = Done bs.
Proof.
  intros (i & Ha & Hi & ->)%write_inv; unfold read.
  rewrite transAddr_set_stack, Ha, outcome_bind_ret_l, Hi; simpl.
  now rewrite load_store_same.
Qed.

Lemma write_as_read_as t addr c vm vm' : representable t c ->
  write_as t addr c vm = Done vm' -> read_as t addr vm' = Done c.
Proof.
  intros Hc Hw; apply write_read in Hw; rewrite length_encode in Hw.
  unfold read_as; rewrite Hw, outcome_bind_ret_l; now rewrite decode_encode.
Qed.

(** Two accesses that do not overlap. *)
Definition disjoint (i : Z) (n : nat) (j : Z) (k : nat) : Prop :=
  i + Z.of_nat n <= j \/ j + Z.of_nat k <= i.

Lemma write_read_other a bs b n vm vm' i j : write a bs vm = Done vm' ->
  transAddr vm a = Done i -> transAddr vm b = Done j -> disjoint i (length bs) j n ->
  read n b vm' = read n b vm.
Proof.
  intros (i' & Ha & _ & ->)%write_inv Hi Hj Hd; unfold read.
  rewrite transAddr_set_stack, Hj, !outcome_bind_ret_l.
  rewrite Ha in Hi; injection Hi as ->; destruct (in_stack j n); [|reflexivity].
  simpl; rewrite load_store_disjoint; [reflexivity|]; unfold disjoint in Hd; lia.
Qed.

(** ** Lemmas: the call stack *)

Definition u64 (z : Z) : Prop := 0 <= z < 2 ^ 64.

(** Nothing but the memory, the output and the registers of a frame changed. *)
Record same_calls (vm vm' : ByteCodeVM) : Prop := {
  same_program : program_ vm' = program_ vm;
  same_start : stack_start_ vm' = stack_start_ vm /\ heap_start_ vm' = heap_start_ vm;
  same_stack : call_stack_ vm' = call_stack_ vm;
}.

#[export] Instance same_calls_preorder : PreOrder same_calls.
Proof. split; [now intros vm|]; intros v1 v2 v3 [? [? ?] ?] [? [? ?] ?]; split; [|split|]; congruence. Qed.

Lemma same_calls_advance vm : same_calls vm (advance_pc vm).
Proof. now split. Qed.

Lemma same_calls_write addr bs vm vm' : write addr bs vm = Done vm' ->
  same_calls vm vm' /\ pc_ vm' = pc_ vm /\ stack_top_ vm' = stack_top_ vm /\
  stack_bottom_ vm' = stack_bottom_ vm.
Proof. intros (i & _ & _ & ->)%write_inv; split_and!; [now split|reflexivity..]. Qed.

Lemma same_calls_write_bytes bs : forall addr vm vm', write_bytes addr bs vm = Done vm' ->
  same_calls vm vm' /\ pc_ vm' = pc_ vm /\ stack_top_ vm' = stack_top_ vm /\
  stack_bottom_ vm' = stack_bottom_ vm.
Proof.
  induction bs as [|b bs IH]; intros addr vm vm' H; cbn [write_bytes] in H.
  { injection H as <-; split_and!; reflexivity. }
  apply outcome_bind_done in H as (v & (H1 & P1 & T1 & B1)%same_calls_write & (H2 & P2 & T2 & B2)%IH).
  split_and!; [now transitivity v|congruence..].
Qed.

Lemma syscall_same f arg vm vm' : syscall f arg vm = Done vm' -> same_calls vm vm'.
Proof. intros H; unfold syscall in H; repeat case_match; try discriminate H; inv_done H; injection H as <-; now split. Qed.

(** [Return] with a caller: its frame comes back, then the result is copied into it. *)
Lemma do_return_inv a n vm vm' cp cs : call_stack_ vm = cp :: cs -> do_return a n vm = Done vm' ->
  exists content, read_bytes (Z.to_nat n) a vm = Done content /\
    write_bytes (cp_ret_res_addr cp) content (set_pc (cp_pc cp)
      (set_frame (cp_stack_top cp) (cp_stack_bottom cp) (cp_stack_top cp) cs vm)) = Done vm'.
Proof. unfold do_return; intros ->; now intros (content & Hr & H)%outcome_bind_done; exists content. Qed.

(** A step keeps the call stack, pushes a call point, or is a [Return], which pops one. *)
Lemma step_calls ins vm vm' : step ins vm = Done vm' ->
  same_calls vm vm' \/
  (exists cp, call_stack_ vm' = cp :: call_stack_ vm /\ program_ vm' = program_ vm /\
    stack_start_ vm' = stack_start_ vm /\ heap_start_ vm' = heap_start_ vm) \/
  (op ins = Return /\ call_stack_ vm <> [] /\ do_return (arg0 ins) (arg1 ins) vm = Done vm').
Proof.
  intros H; unfold step, do_call in H; destruct (op ins) eqn:Eo; inv_done H;
    try (match goal with Hw : write _ _ _ = Done _ |- _ => apply same_calls_write in Hw as [Hsame _] end;
         injection H as <-; left; etransitivity; [exact Hsame|apply same_calls_advance]);
    try (match goal with Hw : write_as _ _ _ _ = Done _ |- _ => apply same_calls_write in Hw as [Hsame _] end;
         injection H as <-; left; etransitivity; [exact Hsame|apply same_calls_advance]);
    try (injection H as <-; left; now split).
  - injection H as <-; right; left; eexists; split_and!; reflexivity.
  - injection H as <-; left; etransitivity; [eapply syscall_same; eassumption|apply same_calls_advance].
  - destruct (call_stack_ vm) as [|cp cs] eqn:E; [|right; right; split_and!; [reflexivity|discriminate|exact H]].
    unfold do_return in H; rewrite E in H; injection H as <-; left; now split.
  - discriminate H.
Qed.

(** ** Lemmas: the run loop *)

Lemma Run_halted n vm : halted vm = true -> 0 <= pc_ vm -> Run n vm = Done vm.
Proof.
  intros H Hpc; destruct n; [reflexivity|]; cbn [Run]; unfold halted in H.
  destruct (finished_ vm); [reflexivity|]; apply Z.leb_le in H.
  now rewrite lookup_ge_None_2 by lia.
Qed.

Lemma Run_add n k vm : Run (n + k) vm = Run n vm ≫= Run k.
Proof.
  revert vm; induction n as [|n IH]; intros vm; [reflexivity|]; cbn [Run Nat.add].
  destruct (finished_ vm) eqn:Ef.
  { rewrite outcome_bind_ret_l; destruct k; cbn [Run]; now rewrite ?Ef. }
  destruct (instructions (program_ vm) !! _) as [ins|] eqn:Ei.
  - rewrite outcome_bind_assoc; destruct (step ins vm); simpl; auto.
  - rewrite outcome_bind_ret_l; destruct k; cbn [Run]; now rewrite ?Ef, ?Ei.
Qed.

(** ** Lemmas: calls *)

(** While the machine is in the call that was made in [vm]. *)
Definition in_call (cp : CallPoint) (vm v : ByteCodeVM) : Prop :=
  program_ v = program_ vm /\ stack_start_ v = stack_start_ vm /\ heap_start_ v = heap_start_ vm /\
  exists inner, call_stack_ v = inner ++ cp :: call_stack_ vm.

Definition depth (vm : ByteCodeVM) : nat := length (call_stack_ vm).

(** One step inside a call stays in it, or is the [Return] that ends it. *)
Lemma step_in_call cp vm ins v v' : in_call cp vm v -> step ins v = Done v' ->
  in_call cp vm v' \/
  (op ins = Return /\ call_stack_ v = cp :: call_stack_ vm /\ do_return (arg0 ins) (arg1 ins) v = Done v').
Proof.
  intros (Hp & Hs & Hh & inner & Hc) [[P [S S'] C]|[(c & C & P & S & S')|(Ho & _ & Hr)]]%step_calls.
  - left; unfold in_call; rewrite P, S, S', C; split_and!; eauto.
  - left; unfold in_call; rewrite P, S, S', C, Hc; split_and!; auto; now exists (c :: inner).
  - destruct inner as [|c inner]; [right; auto|left]; simpl in Hc.
    destruct (do_return_inv _ _ _ _ _ _ Hc Hr) as (content & _ & H).
    apply same_calls_write_bytes in H as ([P [S S'] C] & _).
    unfold in_call; rewrite P, S, S', C; split_and!; auto; now exists inner.
Qed.

Lemma Run_in_call cp vm n : forall v v', in_call cp vm v -> Run n v = Done v' ->
  (forall k u, (k <= n)%nat -> Run k v = Done u -> (depth vm < depth u)%nat) -> in_call cp vm v'.
Proof.
  induction n as [|n IH]; intros v v' Hv H Hdeep; cbn [Run] in H; [now injection H as <-|].
  destruct (finished_ v) eqn:Ef; [now injection H as <-|].
  destruct (instructions (program_ v) !! _) as [ins|] eqn:Ei; [|now injection H as <-].
  apply outcome_bind_done in H as (u & Hu & H).
  assert (Hrun : forall k, Run (S k) v = Run k u).
  { intros k; cbn [Run]; now rewrite Ef, Ei, Hu. }
  apply (IH u v'); [|exact H|].
  - destruct (step_in_call _ _ _ _ _ Hv Hu) as [Hin|(_ & Hc & Hr)]; [exact Hin|exfalso].
    specialize (Hdeep 1%nat u ltac:(lia) ltac:(now rewrite Hrun)).
    destruct (do_return_inv _ _ _ _ _ _ Hc Hr) as (content & _ & ([_ _ C] & _)%same_calls_write_bytes).
    unfold depth in Hdeep; rewrite C in Hdeep; simpl in Hdeep; lia.
  - intros k w Hk Hw; apply (Hdeep (S k)); [lia|now rewrite Hrun].
Qed.

(** The end of a call. *)
Lemma call_ends cp vm n v v2 : in_call cp vm v -> Run (S n) v = Done v2 ->
  (forall k u, (k <= n)%nat -> Run k v = Done u -> (depth vm < depth u)%nat) -> depth v2 = depth vm ->
  exists u ins content, Run n v = Done u /\ call_stack_ u = cp :: call_stack_ vm /\
    instructions (program_ vm) !! Z.to_nat (pc_ u) = Some ins /\ op ins = Return /\
    read_bytes (Z.to_nat (arg1 ins)) (arg0 ins) u = Done content /\
    write_bytes (cp_ret_res_addr cp) content (set_pc (cp_pc cp)
      (set_frame (cp_stack_top cp) (cp_stack_bottom cp) (cp_stack_top cp) (call_stack_ vm) u)) = Done v2 /\
    in_call cp vm u.
Proof.
  intros Hv H Hdeep Hd; replace (S n) with (n + 1)%nat in H by lia; rewrite Run_add in H.
  apply outcome_bind_done in H as (u & Hu & H).
  assert (Hin : in_call cp vm u) by exact (Run_in_call _ _ _ _ _ Hv Hu Hdeep).
  specialize (Hdeep n u ltac:(lia) Hu); pose proof Hin as (Hp & _ & _ & inner & Hc); cbn [Run] in H.
  destruct (finished_ u); [injection H as <-; lia|].
  destruct (instructions (program_ u) !! _) as [ins|] eqn:Ei; [|injection H as <-; lia].
  apply outcome_bind_done in H as (w & Hw & [= <-]).
  destruct (step_in_call _ _ _ _ _ Hin Hw) as [(_ & _ & _ & i & Hi)|(Ho & Hcu & Hr)].
  - unfold depth in Hd; rewrite Hi, length_app in Hd; simpl in Hd; lia.
  - destruct (do_return_inv _ _ _ _ _ _ Hcu Hr) as (content & Hread & Hwrite).
    exists u, ins, content; rewrite Hp in Ei; split_and!; auto.
Qed.
