(* ===== verification/VmProps.v ===== *)
(** * VmProps: the properties of the byte-code machine (src/src/vm.cpp) *)

From S2P Require Import Prelude Machine Memory Vm.
From Stdlib Require Import SpecFloat.

(** ** Lemmas: the block copies of [Return] *)

Lemma base_succ t o : t = STACK_TOP \/ t = STACK_TAIL -> 0 <= o -> o + 1 < 2 ^ 56 ->
  wrap_u 64 (base t o + 1) = base t (o + 1).
Proof.
  assert (Hb : forall x, 0 <= x < 2 ^ 56 -> forall k, 0 <= k < 256 ->
    base (k * 2 ^ 56) x = k * 2 ^ 56 + x).
  { intros x Hx k Hk; unfold base; rewrite wrap_u_small by lia; rewrite offset_part, Z.mod_small by lia.
    rewrite <- (Z.lxor_lor x (k * 2 ^ 56)), <- Z.add_nocarry_lxor; [lia| |];
      apply Z.bits_inj'; intros n Hn; rewrite Z.land_spec, Z.bits_0;
      rewrite <- Z.shiftl_mul_pow2, Z.shiftl_spec by lia;
      (destruct (Z_lt_le_dec n 56);
        [now rewrite (Z.testbit_neg_r k) by lia; rewrite andb_false_r
        |rewrite <- (Z.mod_small x (2 ^ 56)), Z.mod_pow2_bits_high by lia; reflexivity]). }
  intros [->| ->] H0 H1;
    [change STACK_TOP with (3 * 2 ^ 56)|change STACK_TAIL with (4 * 2 ^ 56)];
    rewrite !Hb by lia; rewrite wrap_u_small by lia; lia.
Qed.

(** The register a segment is relative to. *)
Definition seg (t : Z) (vm : ByteCodeVM) : Z :=
  if t =? STACK_TOP then stack_top_ vm else stack_bottom_ vm.

(** The [n] bytes at offset [o] of segment [t] are in the stack. *)
Definition seg_ok (t o n : Z) (vm : ByteCodeVM) : Prop :=
  (t = STACK_TOP \/ t = STACK_TAIL) /\ 0 <= o /\ 0 <= n /\ 0 <= seg t vm /\
  seg t vm + o + n <= MAX_STACK.

Lemma seg_addr t o n vm : seg_ok t o n vm -> transAddr vm (base t o) = Done (seg t vm + o).
Proof.
  unfold seg_ok, seg, MAX_STACK; intros ([->| ->] & ? & ? & ? & ?);
    [rewrite transAddr_top|rewrite transAddr_tail]; simpl in *;
    rewrite Z.mod_small by lia; f_equal; apply wrap_u_small; lia.
Qed.

Lemma in_stack_ok i n : 0 <= i -> i + Z.of_nat n <= MAX_STACK -> in_stack i n = true.
Proof. intros; apply in_stack_spec; lia. Qed.

Lemma seg_read t o n vm : seg_ok t o (Z.of_nat n) vm ->
  read n (base t o) vm = Done (load n (seg t vm + o) (stack_ vm)).
Proof.
  intros H; unfold read; rewrite (seg_addr _ _ _ _ H), outcome_bind_ret_l.
  destruct H as (_ & ? & ? & ? & ?); now rewrite in_stack_ok by lia.
Qed.

Lemma seg_write t o bs vm : seg_ok t o (Z.of_nat (length bs)) vm ->
  write (base t o) bs vm = Done (set_stack (store (seg t vm + o) bs (stack_ vm)) vm).
Proof.
  intros H; unfold write; rewrite (seg_addr _ _ _ _ H), outcome_bind_ret_l.
  destruct H as (_ & ? & ? & ? & ?); now rewrite in_stack_ok by lia.
Qed.

Lemma seg_next t o n vm : seg_ok t o (1 + n) vm -> 0 <= n ->
  seg_ok t o 1 vm /\ seg_ok t (o + 1) n vm /\ wrap_u 64 (base t o + 1) = base t (o + 1).
Proof.
  intros (Ht & H0 & H1 & H2 & H3) Hn; unfold MAX_STACK in H3.
  split_and!; [unfold seg_ok, MAX_STACK; split_and!; auto; lia..|]; apply base_succ; auto; lia.
Qed.

(** Byte by byte is all at once. *)
Lemma seg_read_bytes n t o vm : seg_ok t o (Z.of_nat n) vm ->
  read_bytes n (base t o) vm = Done (load n (seg t vm + o) (stack_ vm)).
Proof.
  revert o; induction n as [|n IH]; intros o H; [reflexivity|]; cbn [read_bytes load].
  destruct (seg_next t o (Z.of_nat n) vm) as (H1 & H2 & ->);
    [now replace (1 + Z.of_nat n) with (Z.of_nat (S n)) by lia|lia|].
  rewrite (seg_read t o 1 vm H1), outcome_bind_ret_l, IH, outcome_bind_ret_l by exact H2.
  cbn [load app]; do 3 f_equal; lia.
Qed.

Lemma seg_write_bytes bs t o vm : seg_ok t o (Z.of_nat (length bs)) vm ->
  write_bytes (base t o) bs vm = Done (set_stack (store (seg t vm + o) bs (stack_ vm)) vm).
Proof.
  revert o vm; induction bs as [|b bs IH]; intros o vm H; cbn [write_bytes store].
  { now destruct vm. }
  destruct (seg_next t o (Z.of_nat (length bs)) vm) as (H1 & H2 & E);
    [now replace (1 + Z.of_nat (length bs)) with (Z.of_nat (length (b :: bs))) by (simpl; lia)|lia|].
  rewrite (seg_write t o [b] vm H1), outcome_bind_ret_l, E, IH; [|exact H2].
  unfold set_stack; simpl; do 3 f_equal; unfold seg; simpl; lia.
Qed.

(** ** Calls *)

(** C22: calls nest.  A call of a function of the program, followed by any number of ticks
    in which the call stack stays longer than the caller's and which end with it as
    long as the caller's, whatever the callee does meanwhile, calls of its own included:
    the last tick is the [Return] of this call, and the caller goes on after the call
    with its own frame, its own call stack and the same program; the bytes that the
    [Return] names, in the callee's frame, are copied to the place in the caller's frame
    that the call named. *)
Theorem calls_bracketed n f ret x vm vm1 vm2 : f < BUILT_IN_START ->
  step (mkInst Call f ret x) vm = Done vm1 -> Run (S n) vm1 = Done vm2 ->
  (forall k v, (k <= n)%nat -> Run k vm1 = Done v -> (depth vm < depth v)%nat) ->
  depth vm2 = depth vm ->
  pc_ vm2 = wrap_u 64 (pc_ vm + 1) /\ stack_top_ vm2 = stack_top_ vm /\
  stack_bottom_ vm2 = stack_bottom_ vm /\ call_stack_ vm2 = call_stack_ vm /\
  program_ vm2 = program_ vm /\
  exists v ins content, Run n vm1 = Done v /\
    instructions (program_ vm) !! Z.to_nat (pc_ v) = Some ins /\ op ins = Return /\
    read_bytes (Z.to_nat (arg1 ins)) (arg0 ins) v = Done content /\
    write_bytes ret content (set_pc (wrap_u 64 (pc_ vm + 1)) (set_frame (stack_top_ vm)
      (stack_bottom_ vm) (stack_top_ vm) (call_stack_ vm) v)) = Done vm2.
Proof.
  intros Hf Hs H Hdeep Hd; unfold step, do_call in Hs; cbn [op arg0 arg1] in Hs.
  rewrite (proj2 (Z.ltb_lt _ _) Hf) in Hs; injection Hs as <-.
  match type of H with Run _ ?v1 = _ => assert (Hin : in_call (mkCallPoint (wrap_u 64 (pc_ vm + 1))
    (stack_top_ vm) (stack_bottom_ vm) ret) vm v1) by (unfold in_call; split_and!; auto; now exists []) end.
  destruct (call_ends _ _ _ _ _ Hin H Hdeep Hd) as (v & ins & content & Hv & Hc & Hi & Ho & Hr & Hw & Hu).
  pose proof Hw as ([P _ C] & Hpc & Ht & Hb)%same_calls_write_bytes; cbn in P, C, Hpc, Ht, Hb.
  split_and!; auto; [rewrite P; exact (proj1 Hu)|].
  exists v, ins, content; split_and!; auto.
Qed.

(** A function that calls another one, which returns 42; the result goes through both. *)
Definition nested_calls : Program := mkProgram "" [
  mkInst SetStackBottom 8 0 0;
  mkInst Call 3 (base STACK_TOP 0) 0;
  mkInst Return 0 0 0;
  mkInst SetStackBottom 8 0 0;
  mkInst Call 6 (base STACK_TOP 4) 0;
  mkInst Return (base STACK_TOP 4) 4 0;
  mkInst Set32 (base STACK_TOP 0) 42 0;
  mkInst Return (base STACK_TOP 0) 4 0].

Definition or_init (r : outcome ByteCodeVM) : ByteCodeVM :=
  match r with Done vm => vm | _ => Init nested_calls end.

Definition before_call : ByteCodeVM := or_init (Run 1 (Init nested_calls)).
Definition in_callee : ByteCodeVM := or_init (step (mkInst Call 3 (base STACK_TOP 0) 0) before_call).

Definition deeper (k : nat) : bool :=
  match Run k in_callee with Done v => Nat.ltb (depth before_call) (depth v) | _ => true end.

Lemma calls_bracketed_witness :
  match Run 5 in_callee with
  | Done vm2 => pc_ vm2 = 2 /\ stack_top_ vm2 = 0 /\ stack_bottom_ vm2 = 8
  | _ => False
  end.
Proof.
  assert (Hall : forallb deeper (seq 0 5) = true) by (vm_compute; reflexivity).
  assert (Hd : match Run 5 in_callee with Done v => depth v | _ => 1%nat end = depth before_call)
    by (vm_compute; reflexivity).
  destruct (Run 5 in_callee) as [vm2|f|w|] eqn:E; try discriminate Hd.
  destruct (calls_bracketed 4 3 (base STACK_TOP 0) 0 before_call in_callee vm2) as (H1 & H2 & H3 & _).
  - reflexivity.
  - vm_compute; reflexivity.
  - exact E.
  - intros k v Hk Hv; rewrite forallb_forall in Hall; specialize (Hall k (proj2 (in_seq 5 0 k) ltac:(lia))).
    unfold deeper in Hall; rewrite Hv in Hall; now apply Nat.ltb_lt.
  - exact Hd.
  - rewrite H1, H2, H3; vm_compute; auto.
Defined.

Lemma nested_result :
  match Run 5 in_callee with Done vm2 => read_as I32 (base STACK_TOP 0) vm2 | _ => Done 0 end = Done 42.
Proof. vm_compute; reflexivity. Qed.

Definition print_7 : Program := mkProgram "" [
  mkInst Set32 (base STACK_TAIL 0) 7 0;
  mkInst Move (base STACK_TOP 9) (base STACK_TAIL 0) 0;
  mkInst Call SC_PRINT_I8 (base STACK_TOP 9) 0;
  mkInst Return 0 0 0].

(** C23: arguments are passed through the stack: a value of any instruction type
    that the caller writes at offset [o] of the tail of its frame is what the callee
    reads at offset [o] of its own frame. *)
Theorem argument_passing t o c f ret vm vm1 vm2 : representable t c ->
  seg_ok STACK_TAIL o (Z.of_nat (type_size t)) vm -> f < BUILT_IN_START ->
  write_as t (base STACK_TAIL o) c vm = Done vm1 ->
  step (mkInst Call f ret 0) vm1 = Done vm2 ->
  read_as t (base STACK_TOP o) vm2 = Done c.
Proof.
  intros Hc Hok Hf Hw Hs; unfold write_as in Hw.
  rewrite seg_write in Hw by now rewrite length_encode.
  injection Hw as <-; unfold step, do_call in Hs; cbn [op arg0 arg1] in Hs.
  rewrite (proj2 (Z.ltb_lt _ _) Hf) in Hs; injection Hs as <-.
  unfold read_as; rewrite seg_read.
  - rewrite outcome_bind_ret_l; unfold seg; cbn - [decode encode load store].
    change (Z.eqb STACK_TAIL STACK_TOP) with false; cbv iota.
    rewrite <- (length_encode t c) at 1; rewrite load_store_same; now rewrite decode_encode.
  - destruct Hok as (_ & ? & ? & ? & ?); unfold seg_ok, seg in *; simpl in *; auto.
Qed.

Lemma argument_passing_witness :
  match write_as I32 (base STACK_TAIL 4) (-5) (set_stack_bottom 100 (Init print_7)) with
  | Done vm1 =>
      match step (mkInst Call 1 (base STACK_TOP 0) 0) vm1 with
      | Done vm2 => read_as I32 (base STACK_TOP 4) vm2 = Done (-5)
      | _ => False
      end
  | _ => False
  end.
Proof.
  destruct (write_as I32 (base STACK_TAIL 4) (-5) (set_stack_bottom 100 (Init print_7)))
    as [vm1|f|w|] eqn:E1; try (exfalso; vm_compute in E1; discriminate E1).
  destruct (step (mkInst Call 1 (base STACK_TOP 0) 0) vm1) as [vm2|f|w|] eqn:E2;
    try (exfalso; injection E1 as <-; vm_compute in E2; discriminate E2).
  refine (argument_passing I32 4 (-5) 1 (base STACK_TOP 0) _ vm1 vm2 _ _ _ E1 E2).
  - reflexivity.
  - unfold seg_ok; split; [now right|]; vm_compute; repeat split; discriminate.
  - reflexivity.
Defined.

(** C24: a call and the return that matches it: whatever the callee did in between,
    as long as it left the call stack as it found it, the caller continues after the
    call with its own frame and call stack, and the [n] bytes at offset [o] of the
    callee's frame are at the place [r] of the caller's frame that the call named;
    no other byte of the callee's memory changes. *)
Theorem call_return f r o n vm vm1 vm2 : f < BUILT_IN_START -> u64 (pc_ vm + 1) ->
  step (mkInst Call f (base STACK_TOP r) 0) vm = Done vm1 ->
  call_stack_ vm2 = call_stack_ vm1 ->
  seg_ok STACK_TOP r (Z.of_nat n) vm -> seg_ok STACK_TOP o (Z.of_nat n) vm2 ->
  pc_ vm1 = f /\ stack_top_ vm1 = stack_bottom_ vm /\
  exists vm3, step (mkInst Return (base STACK_TOP o) (Z.of_nat n) 0) vm2 = Done vm3 /\
    pc_ vm3 = pc_ vm + 1 /\ stack_top_ vm3 = stack_top_ vm /\
    stack_bottom_ vm3 = stack_bottom_ vm /\ call_stack_ vm3 = call_stack_ vm /\
    stack_ vm3 = store (stack_top_ vm + r) (load n (stack_top_ vm2 + o) (stack_ vm2)) (stack_ vm2).
Proof.
  intros Hf Hpc Hs Hcs Hr Ho; unfold step, do_call in Hs; cbn [op arg0 arg1] in Hs.
  rewrite (proj2 (Z.ltb_lt _ _) Hf) in Hs; injection Hs as <-; simpl in Hcs.
  split_and!; [reflexivity..|]; unfold step; cbn [op arg0 arg1]; unfold do_return; rewrite Hcs.
  rewrite Nat2Z.id, seg_read_bytes, outcome_bind_ret_l by exact Ho.
  cbn [cp_ret_res_addr cp_stack_top cp_stack_bottom cp_pc]; rewrite seg_write_bytes.
  - eexists; split; [reflexivity|]; simpl; split_and!; auto.
    unfold u64 in Hpc; now rewrite wrap_u_small by lia.
  - rewrite length_load; exact Hr.
Qed.

Lemma call_return_witness :
  exists vm3, step (mkInst Return (base STACK_TOP 4) 2 0)
      (set_pc 7 (set_stack_bottom 9 (set_stack ∅ (match step (mkInst Call 5 (base STACK_TOP 8) 0) (Init print_7) with
         Done vm => vm | _ => Init print_7 end)))) = Done vm3 /\ pc_ vm3 = 1.
Proof.
  destruct (call_return 5 8 4 2 (Init print_7)
    (match step (mkInst Call 5 (base STACK_TOP 8) 0) (Init print_7) with
     | Done vm => vm | _ => Init print_7 end)
    (set_pc 7 (set_stack_bottom 9 (set_stack ∅
      (match step (mkInst Call 5 (base STACK_TOP 8) 0) (Init print_7) with
       | Done vm => vm | _ => Init print_7 end))))) as (_ & _ & vm3 & H & Hpc & _).
  - reflexivity.
  - split; vm_compute; (discriminate || reflexivity).
  - vm_compute; reflexivity.
  - reflexivity.
  - unfold seg_ok; split; [now left|]; vm_compute; repeat split; discriminate.
  - unfold seg_ok; split; [now left|]; vm_compute; repeat split; discriminate.
  - exists vm3; split; [exact H|exact Hpc].
Defined.

(** Running is compositional: [n + k] ticks are [n] ticks and then [k]; and a
    machine that has stopped (returned from its outermost frame, or run past the last
    instruction) stays as it is for any number of ticks. *)
Theorem run_ticks n k vm : 0 <= pc_ vm ->
  Run (n + k) vm = (vm' ← Run n vm; Run k vm') /\
  (halted vm = true -> Run (n + k) vm = Done vm).
Proof.
  intros Hpc; split; [exact (Run_add n k vm)|]; intros Hh; now apply Run_halted.
Qed.

Lemma run_ticks_witness :
  Run (2 + 1) (Init (mkProgram "" [])) = Done (Init (mkProgram "" [])).
Proof. apply (run_ticks 2 1); [vm_compute; discriminate|reflexivity]. Defined.

(** C25: an arithmetic instruction, of any of the four operations and the five
    types: it reads its two operands, and stores the result at its destination, and
    nowhere else, and goes on to the next instruction; it faults exactly when the C++
    operation does: integer overflow (of [int] for the 8-bit type) or division by
    zero. *)
Theorem arithmetic_instruction k t d a b x y vm :
  seg_ok STACK_TOP a (Z.of_nat (type_size t)) vm -> seg_ok STACK_TOP b (Z.of_nat (type_size t)) vm ->
  seg_ok STACK_TOP d (Z.of_nat (type_size t)) vm -> u64 (pc_ vm + 1) ->
  representable t x -> representable t y ->
  load (type_size t) (stack_top_ vm + a) (stack_ vm) = encode t x ->
  load (type_size t) (stack_top_ vm + b) (stack_ vm) = encode t y ->
  step (mkInst (Bin k t) (base STACK_TOP d) (base STACK_TOP a) (base STACK_TOP b)) vm =
    match arith t k x y with
    | Done z => Done (set_pc (pc_ vm + 1)
                  (set_stack (store (stack_top_ vm + d) (encode t z) (stack_ vm)) vm))
    | Undef f => Undef f
    | Abort w => Abort w
    | OutOfFuel => OutOfFuel
    end /\
  (arith t k x y = Undef SignedOverflow \/ arith t k x y = Undef DivideByZero \/
   exists z, arith t k x y = Done z).
Proof.
  intros Ha Hb Hd Hpc Hx Hy Hla Hlb; split.
  - unfold step; cbn [op arg0 arg1 arg2]; unfold read_as.
    rewrite (seg_read _ _ _ _ Ha), (seg_read _ _ _ _ Hb), !outcome_bind_ret_l.
    unfold seg; simpl Z.eqb; cbv iota.
    rewrite Hla, Hlb, !decode_encode by assumption.
    destruct (arith t k x y) as [z| | |]; try reflexivity; rewrite outcome_bind_ret_l.
    unfold write_as; rewrite seg_write by now rewrite length_encode.
    rewrite outcome_bind_ret_l; unfold advance_pc; simpl pc_; unfold u64 in Hpc.
    now rewrite wrap_u_small by lia.
  - destruct t, k; cbn [arith int_arith]; unfold sdiv, checked_s; repeat case_match; simpl; eauto.
Qed.

Definition two_bytes : ByteCodeVM :=
  set_stack (store 0 (encode I8 100) (store 1 (encode I8 27) ∅)) (Init print_7).

Lemma arithmetic_instruction_witness :
  step (mkInst (Bin Add I8) (base STACK_TOP 2) (base STACK_TOP 0) (base STACK_TOP 1)) two_bytes =
    Done (set_pc 1 (set_stack (store 2 [127] (stack_ two_bytes)) two_bytes)).
Proof.
  refine (proj1 (arithmetic_instruction Add I8 2 0 1 100 27 two_bytes _ _ _ _ _ _ _ _));
    try reflexivity; try (unfold seg_ok; split; [now left|]; vm_compute; repeat split; discriminate).
  split; vm_compute; (discriminate || reflexivity).
Defined.
