(* ===== verification/Value.v ===== *)
(** * Value: dynamic values (src/src/value.h, src/src/value.cpp)

    [mygo::Value]: a type tag, which is a string, and a variant.  [std::get] of the
    alternative that is not there throws [std::bad_variant_access], which nobody
    catches.  The type of the built-in functions is a parameter: the class [VM]
    they take is only declared. *)

From S2P Require Import Prelude Machine Token Ast.
From Stdlib Require Import SpecFloat.

Definition bad_variant_access : string := "std::bad_variant_access".

Module value.
Section Builtin.
Context {B : Type}.

(** ** [Func] *)

(** The variant [func_]: a pointer to a function's node, or a built-in. *)
Inductive func_data : Type :=
  | Userdef (f : option Function_)
  | Builtin (b : B).

Record Func : Type := mkFunc { is_builtin_ : bool; func_ : func_data }.

Definition Func_userdef (uf : option Function_) : Func := mkFunc false (Userdef uf).
Definition Func_builtin (bf : B) : Func := mkFunc true (Builtin bf).

Definition isBuiltin (f : Func) : bool := is_builtin_ f.

Definition AsUserDef (f : Func) : outcome (option Function_) :=
  _ ← assert_ (negb (is_builtin_ f)) "!is_builtin_";
  match func_ f with Userdef u => Done u | Builtin _ => Abort bad_variant_access end.

Definition AsBuiltin (f : Func) : outcome B :=
  _ ← assert_ (is_builtin_ f) "is_builtin_";
  match func_ f with Builtin b => Done b | Userdef _ => Abort bad_variant_access end.

Definition Func_ToString (f : Func) : outcome string :=
  if is_builtin_ f then Done "buildin"
  else u ← AsUserDef f; n ← deref NullDeref u; Done (func_name n).

(** ** [Value] *)

Definition NIL : string := "nil".
Definition BOOL : string := "bool".
Definition STR : string := "bool".
Definition INT : string := "int".
Definition FLOAT : string := "float".
Definition STRUCT : string := "struct".
Definition FUNC : string := "func".

Inductive Data : Type :=
  | DBool (b : bool)
  | DString (s : string)
  | DInt (i : Z)
  | DFloat (f : spec_float)
  | DFunc (f : Func).

Record Value : Type := mkValue { type : string; is_builtin : bool; data : Data }.

(** [Make<T>(v)], where [T] is the alternative of [v]. *)
Definition Make (d : Data) : Value :=
  mkValue (match d with
           | DInt _ => INT
           | DBool _ => BOOL
           | DString _ => STR
           | DFloat _ => FLOAT
           | DFunc _ => FUNC
           end) true d.

(** [As<T>()] *)
Definition As_bool (v : Value) : outcome bool :=
  match data v with DBool b => Done b | _ => Abort bad_variant_access end.
Definition As_string (v : Value) : outcome string :=
  match data v with DString s => Done s | _ => Abort bad_variant_access end.
Definition As_int (v : Value) : outcome Z :=
  match data v with DInt i => Done i | _ => Abort bad_variant_access end.
Definition As_float (v : Value) : outcome spec_float :=
  match data v with DFloat f => Done f | _ => Abort bad_variant_access end.
Definition As_Func (v : Value) : outcome Func :=
  match data v with DFunc f => Done f | _ => Abort bad_variant_access end.

Definition ToString (v : Value) : outcome string :=
  if String.eqb (type v) INT then i ← As_int v; Done (pretty i)
  else if String.eqb (type v) STR then As_string v
  else if String.eqb (type v) BOOL then
    b ← As_bool v; Done (if b : bool then "true" else "false")
  else if String.eqb (type v) FLOAT then f ← As_float v; Done (float_to_string f)
  else if String.eqb (type v) FUNC then
    f ← As_Func v; s ← Func_ToString f; Done ("func(" +:+ s +:+ ")")%string
  else if String.eqb (type v) STRUCT then Done "Object"
  else Done "".

(** [Operator(tk)], the unary operators *)
Definition Operator1 (tk : token.Type_) (v : Value) : outcome (option Value) :=
  match tk with
  | token.Sub =>
    if String.eqb (type v) INT then
      i ← As_int v; r ← checked_s 32 (-1 * i); Done (Some (Make (DInt r)))
    else if String.eqb (type v) FLOAT then
      f ← As_float v; Done (Some (Make (DFloat (f32_mul (f32_of_Z (-1)) f))))
    else Done None
  | _ => Done None
  end.

(** The macro [DO_BINARAY_OP], after the test of the token. *)
Definition binary_op (int_op : Z -> Z -> outcome Z)
    (float_op : spec_float -> spec_float -> spec_float) (v other : Value)
    : outcome (option Value) :=
  let tt := type v in
  let ot := type other in
  if String.eqb tt INT && String.eqb ot INT then
    a ← As_int v; b ← As_int other; r ← int_op a b; Done (Some (Make (DInt r)))
  else if String.eqb tt INT && String.eqb ot FLOAT then
    a ← As_int v; b ← As_float other; Done (Some (Make (DFloat (float_op (f32_of_Z a) b))))
  else if String.eqb tt FLOAT && String.eqb ot INT then
    a ← As_float v; b ← As_int other; Done (Some (Make (DFloat (float_op a (f32_of_Z b)))))
  else if String.eqb tt FLOAT && String.eqb ot FLOAT then
    a ← As_float v; b ← As_float other; Done (Some (Make (DFloat (float_op a b))))
  else Done None.

(** [Operator(tk, other)], the binary operators *)
Definition Operator2 (tk : token.Type_) (v other : Value) : outcome (option Value) :=
  match tk with
  | token.Plus => binary_op (fun a b => checked_s 32 (a + b)) f32_add v other
  | token.Sub => binary_op (fun a b => checked_s 32 (a - b)) f32_sub v other
  | token.Star => binary_op (fun a b => checked_s 32 (a * b)) f32_mul v other
  | token.Slash => binary_op (sdiv 32) f32_div v other
  | _ => Done None
  end.

(** ** What values promise *)

(** The tag is the one of the alternative held. *)
Definition well_tagged (v : Value) : Prop := v = Make (data v).

Definition numeric (v : Value) : bool :=
  match data v with DInt _ | DFloat _ => true | _ => false end.

Definition is_arith (tk : token.Type_) : bool :=
  match tk with token.Plus | token.Sub | token.Star | token.Slash => true | _ => false end.

(** C++ arithmetic on two numbers: integers stay integers, anything else is a
    [float]. *)
Definition as_float (v : Value) : spec_float :=
  match data v with DInt i => f32_of_Z i | DFloat f => f | _ => S754_nan end.

Definition int_spec (tk : token.Type_) (a b : Z) : outcome Z :=
  match tk with
  | token.Plus => checked_s 32 (a + b)
  | token.Sub => checked_s 32 (a - b)
  | token.Star => checked_s 32 (a * b)
  | _ => sdiv 32 a b
  end.

Definition float_spec (tk : token.Type_) : spec_float -> spec_float -> spec_float :=
  match tk with
  | token.Plus => f32_add
  | token.Sub => f32_sub
  | token.Star => f32_mul
  | _ => f32_div
  end.

Definition arith_spec (tk : token.Type_) (v other : Value) : outcome Value :=
  match data v, data other with
  | DInt a, DInt b => r ← int_spec tk a b; Done (Make (DInt r))
  | _, _ => Done (Make (DFloat (float_spec tk (as_float v) (as_float other))))
  end.

(** ** Lemmas *)

Lemma Make_well_tagged d : well_tagged (Make d).
Proof. reflexivity. Qed.

Lemma binary_op_numbers tk v other : is_arith tk = true ->
  well_tagged v -> well_tagged other -> numeric v = true -> numeric other = true ->
  Operator2 tk v other = (r ← arith_spec tk v other; Done (Some r)).
Proof.
  intros Htk -> -> Hv Ho; unfold numeric in *; unfold arith_spec, as_float; simpl in *.
  destruct (data v), (data other); try discriminate; destruct tk; try discriminate;
    unfold Operator2, binary_op; simpl; rewrite ?outcome_bind_assoc; reflexivity.
Qed.

Lemma binary_op_others tk v other : well_tagged v -> well_tagged other ->
  is_arith tk && numeric v && numeric other = false -> Operator2 tk v other = Done None.
Proof.
  intros -> -> H; unfold numeric in *; simpl in *.
  destruct tk; try reflexivity; destruct (data v), (data other); simpl in H;
    try discriminate H; reflexivity.
Qed.

End Builtin.
#[global] Arguments Func : clear implicits.
#[global] Arguments Value : clear implicits.
#[global] Arguments Data : clear implicits.
End value.
