(* ===== verification/Compiler.v ===== *)
(** * Compiler: types, variables, functions and code generation
    (src/src/compiler.h, src/src/compiler.cpp)

    Every operation of [Compiler] takes the compiler's state and returns the next
    one.  The iteration order of [std::unordered_map] is unspecified: it is the
    parameter [IterOrder].  A member that is never initialised is [None]. *)

From S2P Require Import Prelude Machine Common Token Ast Memory Vm.
Import token.

#[local] Set Warnings "-register-all".

(** ** Variables *)

Record VarInfo : Set := mkVarInfo {
  vi_name : string;
  vi_type_id : option Z;
  vi_size : option Z;
  vi_address : option Z;
  vi_scope : string;
}.

(** [VarInfo v;]: the integers are not initialised. *)
Definition VarInfo_uninit : VarInfo := mkVarInfo "" None None None "".
(** [VarInfo()], the value [operator[]] inserts: the integers are 0. *)
Definition VarInfo_zero : VarInfo := mkVarInfo "" (Some 0) (Some 0) (Some 0) "".

Definition VarInfo_debug (v : VarInfo) : outcome string :=
  t ← deref Uninitialised (vi_type_id v); Done (vi_name v +:+ pretty t)%string.

(** [b.starts_with(a)] *)
Definition inScope (a b : string) : bool := String.prefix a b.
Definition appendScope (a b : string) : string := (a +:+ b +:+ "::")%string.

(** ** Functions *)

Record FuncInfo : Set := mkFuncInfo {
  fi_name : string;
  fi_locals : list VarInfo;
  fi_instructions : list Instruction;
}.

Definition FuncInfo_debug (f : FuncInfo) : string :=
  foldl (fun res i => res +:+ newline +:+ Instruction_debug i)%string (fi_name f)
    (fi_instructions f).

Record CompilingFunc : Set := mkCompilingFunc {
  cf_name : string;
  cur_stack_top : Z;
  var_address_map : gmap string VarInfo;
  cf_instructions : list Instruction;
}.

Definition CompilingFunc_make (name : string) : CompilingFunc := mkCompilingFunc name 0 ∅ [].

Definition push_inst (i : Instruction) (f : CompilingFunc) : CompilingFunc :=
  mkCompilingFunc (cf_name f) (cur_stack_top f) (var_address_map f) (cf_instructions f ++ [i]).
Definition set_top (t : Z) (f : CompilingFunc) : CompilingFunc :=
  mkCompilingFunc (cf_name f) t (var_address_map f) (cf_instructions f).
Definition set_vars (m : gmap string VarInfo) (f : CompilingFunc) : CompilingFunc :=
  mkCompilingFunc (cf_name f) (cur_stack_top f) m (cf_instructions f).

(** [addMoveInsts(dst, from, length)]; [i] counts up to [length]. *)
Fixpoint move_loop (n : nat) (i dst from : Z) (f : CompilingFunc) : outcome CompilingFunc :=
  match n with
  | O => Done f
  | S k =>
      d ← checked_s 32 (dst + i);
      s ← checked_s 32 (from + i);
      move_loop k (i + 1) dst from
        (push_inst (mkInst Move (base STACK_TOP d) (base STACK_TOP s) 0) f)
  end.

Definition addMoveInsts (dst from length : Z) (f : CompilingFunc) : outcome CompilingFunc :=
  move_loop (Z.to_nat length) 0 dst from f.

Definition FinishCompiling (cp : CompilingFunc) : FuncInfo :=
  mkFuncInfo (cf_name cp) [] (cf_instructions cp).

(** ** Types *)

Record TypeInfo : Set := mkTypeInfo {
  ti_type_id : Z;
  ti_size : Z;
  ti_name : string;
  ti_is_struct : bool;
  alias_type : Z;
  ti_fields : list (Z * string);
}.

Definition isAliasType (t : TypeInfo) : bool := 0 <=? alias_type t.

Definition TypeInfo_debug (t : TypeInfo) : string :=
  (pretty (ti_type_id t) +:+ " " +:+ ti_name t +:+ " " +:+ pretty (ti_size t) +:+
   (if ti_is_struct t then
      " is_struct:yes fields:" +:+
      concat_map (fun f => "[" +:+ pretty f.1 +:+ " " +:+ f.2 +:+ "]")%string (ti_fields t)
    else " is_struct:no") +:+ nl)%string.

Abbreviation TypeTable := (gmap Z TypeInfo).

(** The order in which [for (auto& [id, t] : type_table_)] visits the table. *)
Class IterOrder : Type := {
  iter : TypeTable -> list (Z * TypeInfo);
  iter_perm : forall m, iter m ≡ₚ map_to_list m;
}.

(** [insert] keeps the entry that is already there. *)
Definition TypeTable_insert (info : TypeInfo) (m : TypeTable) : TypeTable :=
  match m !! ti_type_id info with
  | Some _ => m
  | None => <[ti_type_id info := info]> m
  end.

Definition basic_type (id size : Z) (name : string) : TypeInfo :=
  mkTypeInfo id size name false (-1) [].

(** [TypeTable()] and [initBasicInfos()] *)
Definition initBasicInfos (m : TypeTable) : TypeTable :=
  TypeTable_insert (basic_type 40 16 "string")
    (TypeTable_insert (basic_type 30 4 "float32")
       (TypeTable_insert (basic_type 20 4 "int")
          (TypeTable_insert (basic_type 10 1 "bool") m))).
Definition TypeTable_make : TypeTable := initBasicInfos ∅.

Definition findById (id : Z) (m : TypeTable) : option TypeInfo := m !! id.

Section Tables.
Context {order : IterOrder}.

Definition max_type_id (m : TypeTable) : Z :=
  foldl (fun max p => if max <? p.1 then p.1 else max) (-1) (iter m).

Definition findByName (name : string) (m : TypeTable) : option TypeInfo :=
  snd <$> List.find (fun p => String.eqb (ti_name p.2) name) (iter m).

Definition TypeTable_debug (m : TypeTable) : string :=
  concat_map (fun p => TypeInfo_debug p.2 +:+ nl)%string (iter m).
End Tables.

Definition VarTable : Set := list VarInfo.
Definition VarTable_insert (var : VarInfo) (t : VarTable) : VarTable := t ++ [var].
Fixpoint VarTable_debug (t : VarTable) : outcome string :=
  match t with
  | [] => Done ""
  | v :: t => s ← VarInfo_debug v; r ← VarTable_debug t; Done (s +:+ nl +:+ r)%string
  end.

Definition FuncTable : Set := list FuncInfo.
Definition FuncTable_insert (f : FuncInfo) (t : FuncTable) : FuncTable := t ++ [f].
Definition FuncTable_debug (t : FuncTable) : string :=
  concat_map (fun f => FuncInfo_debug f +:+ nl)%string t.

(** ** The compiler *)

(** [current_func_]: it points to the local variable of [compile_func], and is
    left behind when that returns. *)
Inductive func_pointer : Set :=
  | Null
  | Live (f : CompilingFunc)
  | Dangling.

Record Compiler : Set := mkCompiler {
  cur_lable_ : Z;
  c_program_ : Program;
  type_table_ : TypeTable;
  global_table_ : VarTable;
  func_table_ : FuncTable;
  current_func_ : func_pointer;
  errors_ : list string;
}.

Definition Compiler_make : Compiler :=
  mkCompiler 1 Program_make TypeTable_make [] [] Null [].

Definition hasError (c : Compiler) : bool :=
  match errors_ c with [] => false | _ => true end.
Definition getResult (c : Compiler) : Program := c_program_ c.

Definition setCurrentFunc (f : func_pointer) (c : Compiler) : Compiler :=
  mkCompiler (cur_lable_ c) (c_program_ c) (type_table_ c) (global_table_ c)
    (func_table_ c) f (errors_ c).
Definition add_error (e : string) (c : Compiler) : Compiler :=
  mkCompiler (cur_lable_ c) (c_program_ c) (type_table_ c) (global_table_ c)
    (func_table_ c) (current_func_ c) (errors_ c ++ [e]).
Definition insert_type (t : TypeInfo) (c : Compiler) : Compiler :=
  mkCompiler (cur_lable_ c) (c_program_ c) (TypeTable_insert t (type_table_ c))
    (global_table_ c) (func_table_ c) (current_func_ c) (errors_ c).
Definition insert_global (v : VarInfo) (c : Compiler) : Compiler :=
  mkCompiler (cur_lable_ c) (c_program_ c) (type_table_ c)
    (VarTable_insert v (global_table_ c)) (func_table_ c) (current_func_ c) (errors_ c).
Definition insert_func (f : FuncInfo) (c : Compiler) : Compiler :=
  mkCompiler (cur_lable_ c) (c_program_ c) (type_table_ c) (global_table_ c)
    (FuncTable_insert f (func_table_ c)) (current_func_ c) (errors_ c).
Definition set_program (p : Program) (c : Compiler) : Compiler :=
  mkCompiler (cur_lable_ c) p (type_table_ c) (global_table_ c)
    (func_table_ c) (current_func_ c) (errors_ c).
Definition set_label (l : Z) (c : Compiler) : Compiler :=
  mkCompiler l (c_program_ c) (type_table_ c) (global_table_ c)
    (func_table_ c) (current_func_ c) (errors_ c).

(** [*currentFunc()] *)
Definition current (c : Compiler) : outcome CompilingFunc :=
  match current_func_ c with
  | Live f => Done f
  | Null => Undef NullDeref
  | Dangling => Undef DanglingDeref
  end.

(** [assert(cp)] *)
Definition assert_current (c : Compiler) : outcome unit :=
  assert_ (match current_func_ c with Null => false | _ => true end) "cp".

(** [cp->instructions.push_back(i)] *)
Definition emit (i : Instruction) (c : Compiler) : outcome Compiler :=
  f ← current c; Done (setCurrentFunc (Live (push_inst i f)) c).

(** [cp->cur_stack_top = t] *)
Definition set_stack_top (t : Z) (c : Compiler) : outcome Compiler :=
  f ← current c; Done (setCurrentFunc (Live (set_top t f)) c).

Definition top_of (c : Compiler) : outcome Z := f ← current c; Done (cur_stack_top f).

Definition alloc_new_label (c : Compiler) : outcome (Z * Compiler) :=
  l ← checked_s 32 (cur_lable_ c + 1);
  Done (base LABEL (cur_lable_ c), set_label l c).

Definition getExprSize (e : Expr) : Z := 4.

(** ** Expressions *)

Definition compile_expr_literature (e : Expr) (c : Compiler) : outcome Compiler :=
  if decide (type_ (v e) = Int) then
    t ← top_of c; emit (mkInst Set32 (base STACK_TOP t) (i32u64 (i_data_ (v e))) 0) c
  else if decide (type_ (v e) = Float) then
    t ← top_of c;
    emit (mkInst Set32 (base STACK_TOP t) (f32u64 (f64_to_f32 (f_data_ (v e)))) 0) c
  else Done c.

(** The instruction of an operator: [origin] is the result and the second
    operand, the top of the stack the first. *)
Definition op_inst (t : Type_) : option Op :=
  match t with
  | Plus => Some (Bin Add I32)
  | token.Sub => Some (Bin Vm.Sub I32)
  | Star => Some (Bin Mul I32)
  | Slash => Some (Bin Div I32)
  | _ => None
  end.

Definition emit_op (t : Type_) (origin : Z) (c : Compiler) : outcome Compiler :=
  match op_inst t with
  | Some o =>
      top ← top_of c;
      emit (mkInst o (base STACK_TOP origin) (base STACK_TOP top) (base STACK_TOP origin)) c
  | None => Done c
  end.

Definition compile_call (func_name : string) (c : Compiler) : outcome Compiler :=
  if String.eqb func_name "print" then
    t ← top_of c; emit (mkInst Call SC_PRINT_I32 (base STACK_TOP t) 0) c
  else Done c.

(** [for (x : l) s = f(x, s)] *)
Definition for_each {A S} (f : A -> S -> outcome S) : list A -> S -> outcome S :=
  fix go l s := match l with [] => Done s | x :: l => s ← f x s; go l s end.

Section Expr.
Variable compile_expr : Expr -> Compiler -> outcome Compiler.

(** The loop over [expr.ops]: operand [i + 1] and operator [i]. *)
Definition ops_loop (origin : Z) : list Expr -> list Type_ -> Compiler -> outcome Compiler :=
  fix go es os c :=
    match os, es with
    | [], _ => Done c
    | _ :: _, [] => Undef OutOfBounds
    | t :: os, e :: es =>
        c ← compile_expr e c;
        c ← emit_op t origin c;
        go es os c
    end.

Definition compile_expr_ops (e : Expr) (c : Compiler) : outcome Compiler :=
  origin ← top_of c;
  c ← match exprs e with
      | [] => Undef OutOfBounds
      | e0 :: es =>
          if bool_decide (es = [] /\ ops e = [token.Sub]) then
            c ← compile_expr e0 c;
            emit (mkInst (BinD Mul I32) (base STACK_TOP origin) (i32u64 (-1))
                    (base STACK_TOP origin)) c
          else
            c ← compile_expr e0 c;
            t ← top_of c;
            t ← checked_s 32 (t + getExprSize e0);
            c ← set_stack_top t c;
            ops_loop origin es (ops e) c
      end;
  set_stack_top origin c.

(** The first expression names the function; every argument is compiled at the
    same place. *)
Definition compile_funcall (e : Expr) (c : Compiler) : outcome Compiler :=
  match exprs e with
  | [] => compile_call "" c
  | f :: es => c ← for_each compile_expr es c; compile_call (str_data_ (v f)) c
  end.
End Expr.

Fixpoint compile_expr (e : Expr) (c : Compiler) : outcome Compiler :=
  match etype_ e with
  | FUNCALL => compile_funcall compile_expr e c
  | TOKEN => compile_expr_literature e c
  | OPS => compile_expr_ops compile_expr e c
  end.

(** ** Statements *)

Section Statements.
Context {order : IterOrder}.

(** The name of the declared type; the pointer may be null. *)
Definition decl_type_name (d : Declaration) : outcome string :=
  t ← deref NullDeref (var_type d); Done (vt_name_ t).

(** The initialiser [d_expr] is not compiled; [emplace] keeps an earlier
    variable of that name. *)
Definition compile_declaration (d : Declaration) (c : Compiler) : outcome Compiler :=
  _ ← assert_current c;
  tname ← decl_type_name d;
  match findByName tname (type_table_ c) with
  | None => Done (add_error ("type is not defined: " +:+ tname)%string c)
  | Some s =>
      let var_size := ti_size s in
      f ← current c;
      let new_var := mkVarInfo (d_var_name d) None (Some var_size) (Some (cur_stack_top f)) "" in
      let m := var_address_map f in
      let m := match m !! d_var_name d with Some _ => m | None => <[d_var_name d := new_var]> m end in
      t ← checked_s 32 (cur_stack_top f + var_size);
      Done (setCurrentFunc (Live (set_top t (set_vars m f))) c)
  end.

(** [var_address_map[name]] inserts a variable when there is none. *)
Definition var_slot (name : string) (f : CompilingFunc) : VarInfo * CompilingFunc :=
  match var_address_map f !! name with
  | Some v => (v, f)
  | None => (VarInfo_zero, set_vars (<[name := VarInfo_zero]> (var_address_map f)) f)
  end.

Definition compile_assignment (a : Assignment) (c : Compiler) : outcome Compiler :=
  _ ← assert_current c;
  f ← current c;
  let '(var_info, f) := var_slot (a_var_name a) f in
  let c := setCurrentFunc (Live f) c in
  match var_address_map f !! a_var_name a with
  | None => Done (add_error ("var is not defined: " +:+ a_var_name a)%string c)
  | Some _ =>
      let old_stack_top := cur_stack_top f in
      length ← deref Uninitialised (vi_size var_info);
      c ← compile_expr (a_expr a) c;
      f ← current c;
      var_info ← deref DanglingDeref (var_address_map f !! a_var_name a);
      address ← deref Uninitialised (vi_address var_info);
      f ← addMoveInsts address old_stack_top length f;
      Done (setCurrentFunc (Live f) c)
  end.

Section Nested.
Variable compile_statement : Node -> Compiler -> outcome Compiler.

Definition compile_block_with (b : Block) (c : Compiler) : outcome Compiler :=
  for_each compile_statement (nodes_ b) c.

(** The conditions of the branches are not compiled. *)
Definition compile_if (i : If_) (c : Compiler) : outcome Compiler :=
  '(label, c) ← alloc_new_label c;
  c ← emit (mkInst (Jump Eq_ I32) 0 0 label) c;
  c ← for_each (fun b => compile_block_with b.2) (branches_ i) c;
  c ← match tail_else_ i with
      | Some b => compile_block_with b c
      | None => Done c
      end;
  emit (mkInst Label label 0 0) c.

Definition compile_for (f : For_) (c : Compiler) : outcome Compiler :=
  compile_block_with (for_block_ f) c.
End Nested.

Fixpoint compile_statement (n : Node) (c : Compiler) : outcome Compiler :=
  match n with
  | NDeclaration d => compile_declaration d c
  | NAssignment a => compile_assignment a c
  | NIf i => compile_if compile_statement i c
  | NExpr e => compile_expr e c
  | NFor f => compile_for compile_statement f c
  | NFunction _ | NReturn _ | NTypedef _ => Done c
  end.

Definition compile_block : Block -> Compiler -> outcome Compiler :=
  compile_block_with compile_statement.

(** ** The phases of [compile] *)

(** The fields of a struct; a null result of [findByName] is dereferenced before
    it is tested. *)
Fixpoint struct_fields (fs : list (string * string)) (info : TypeInfo) (m : TypeTable)
    : outcome TypeInfo :=
  match fs with
  | [] => Done info
  | (field_name, type_str) :: fs =>
      let p := findByName type_str m in
      ft ← deref NullDeref p;
      size ← checked_s 32 (ti_size info + ti_size ft);
      _ ← assert_ (match p with Some _ => true | None => false end) "field_type_info != nullptr";
      struct_fields fs
        (mkTypeInfo (ti_type_id info) size (ti_name info) (ti_is_struct info)
           (alias_type info) (ti_fields info ++ [(ti_type_id ft, field_name)])) m
  end.

Definition compile_type (t : Typedef_) (c : Compiler) : outcome Compiler :=
  id ← checked_s 32 (max_type_id (type_table_ c) + 10);
  info ← (if is_struct_ (old_type_ t) then
            stct ← asStruct (old_type_ t);
            struct_fields (fields_ stct)
              (mkTypeInfo id 0 (new_name_ t) true (-1) []) (type_table_ c)
          else Done (mkTypeInfo id 0 (new_name_ t) false (-1) []));
  Done (insert_type info c).

Definition compile_types (r : Root) : Compiler -> outcome Compiler :=
  for_each (fun n c => match n with NTypedef t => compile_type t c | _ => Done c end) (nodes r).

(** A declaration without a type is let through: the [assert] of the code tests
    a string literal. *)
Definition compile_global_decl (d : Declaration) (c : Compiler) : outcome Compiler :=
  let named t := mkVarInfo (d_var_name d) t None None "" in
  match var_type d with
  | Some t =>
      let tf := findByName (vt_name_ t) (type_table_ c) in
      _ ← assert_ (match tf with Some _ => true | None => false end) "tf";
      tf ← deref NullDeref tf;
      Done (insert_global (named (Some (ti_type_id tf))) c)
  | None => Done (insert_global (named None) c)
  end.

Definition compile_global (r : Root) : Compiler -> outcome Compiler :=
  for_each (fun n c => match n with NDeclaration d => compile_global_decl d c | _ => Done c end)
    (nodes r).

Definition compile_func (f : Function_) (c : Compiler) : outcome Compiler :=
  let c := setCurrentFunc (Live (CompilingFunc_make (func_name f))) c in
  c ← compile_block (f_block f) c;
  cp ← current c;
  Done (setCurrentFunc Dangling (insert_func (FinishCompiling cp) c)).

Definition compile_funcs (r : Root) : Compiler -> outcome Compiler :=
  for_each (fun n c => match n with NFunction f => compile_func f c | _ => Done c end) (nodes r).

Definition link (c : Compiler) : Compiler :=
  set_program (mkProgram (prog_name (c_program_ c))
    (instructions (c_program_ c) ++ mjoin (fi_instructions <$> func_table_ c))) c.

Definition compile (r : Root) (c : Compiler) : outcome Compiler :=
  c ← compile_types r c;
  c ← compile_global r c;
  c ← compile_funcs r c;
  Done (link c).

Definition Compiler_debug (c : Compiler) : outcome string :=
  g ← VarTable_debug (global_table_ c);
  Done ("------TYPES------" +:+ nl +:+ TypeTable_debug (type_table_ c) +:+
        "------GLOBALS------" +:+ nl +:+ g +:+
        "------FUNCINFOS------" +:+ nl +:+ FuncTable_debug (func_table_ c) +:+
        concat_map (fun e => e +:+ nl)%string (errors_ c))%string.
End Statements.
