(* ===== verification/Types.v ===== *)
(** * Types: what the type table promises (src/src/compiler.cpp, [TypeTable],
    [compile_types]) *)

From S2P Require Import Prelude Machine Common Token Ast StmtParser Memory Vm Compiler.

(** ** The invariant *)

(** Entries sit under their own id; ids and sizes are not negative; the basic
    types are there. *)
Record table_ok (m : TypeTable) : Prop := {
  table_ids : forall id t, m !! id = Some t -> ti_type_id t = id /\ 0 <= id /\ 0 <= ti_size t;
  table_basic : forall t, t ∈ [basic_type 10 1 "bool"; basic_type 20 4 "int";
                                basic_type 30 4 "float32"; basic_type 40 16 "string"] ->
                  m !! ti_type_id t = Some t;
}.

(** Two entries never have the same name. *)
Definition names_unique (m : TypeTable) : Prop := forall i j t u,
  m !! i = Some t -> m !! j = Some u -> ti_name t = ti_name u -> i = j.

(** The sizes of the types of some fields. *)
Definition sum_sizes (m : TypeTable) (l : list (Z * string)) : Z :=
  foldr (fun f n => default 0 (ti_size <$> m !! f.1) + n) 0 l.

(** Types are made of types of the table with smaller ids, and a struct has the size
    of its fields. *)
Definition table_closed (m : TypeTable) : Prop := forall id t, m !! id = Some t ->
  Forall (fun f => f.1 < id /\ is_Some (m !! f.1)) (ti_fields t) /\
  (ti_is_struct t = true -> ti_size t = sum_sizes m (ti_fields t)).

Section Expand.
Variable expand : Z -> option (list TypeInfo).

Fixpoint expand_all (l : list (Z * string)) : option (list TypeInfo) :=
  match l with
  | [] => Some []
  | f :: l =>
      match expand f.1, expand_all l with
      | Some ts, Some ts' => Some (ts ++ ts')
      | _, _ => None
      end
  end.
End Expand.

(** The basic types and aliases a type consists of, in the order of its fields. *)
Fixpoint expand (fuel : nat) (m : TypeTable) (id : Z) : option (list TypeInfo) :=
  match fuel with
  | O => None
  | S k =>
      match m !! id with
      | None => None
      | Some t => if ti_is_struct t then expand_all (expand k m) (ti_fields t) else Some [t]
      end
  end.

Lemma TypeTable_make_ok : table_ok TypeTable_make.
Proof.
  split.
  - intros id t H; assert (Ht : (id, t) ∈ map_to_list TypeTable_make) by now apply elem_of_map_to_list.
    let l := eval vm_compute in (map_to_list TypeTable_make) in
      change (map_to_list TypeTable_make) with l in Ht.
    rewrite !elem_of_cons in Ht.
    repeat (destruct Ht as [[= -> ->]|Ht]; [simpl; lia|]); now apply elem_of_nil in Ht.
  - intros t H; rewrite !elem_of_cons in H.
    repeat (destruct H as [->|H]; [reflexivity|]); now apply elem_of_nil in H.
Qed.

Lemma insert_ok t m : table_ok m -> 0 <= ti_type_id t -> 0 <= ti_size t ->
  table_ok (TypeTable_insert t m).
Proof.
  intros [Hi Hb] Hid Hs; unfold TypeTable_insert; destruct (m !! ti_type_id t) eqn:E;
    [now split|split].
  - intros id u; destruct (decide (ti_type_id t = id)) as [<-|Hne].
    + rewrite lookup_insert_eq; intros [= <-]; auto.
    + rewrite lookup_insert_ne by assumption; apply Hi.
  - intros u Hu; pose proof (Hb u Hu); rewrite lookup_insert_ne; [assumption|congruence].
Qed.

Section Order.
Context {order : IterOrder}.

Lemma elem_of_iter id t m : (id, t) ∈ iter m <-> m !! id = Some t.
Proof. rewrite iter_perm; apply elem_of_map_to_list. Qed.

(** ** [findByName]: whatever the order, what it finds is there *)

Lemma findByName_some name m t :
  findByName name m = Some t -> ti_name t = name /\ exists id, m !! id = Some t.
Proof.
  unfold findByName; destruct (List.find _ _) as [[id u]|] eqn:E; [|discriminate].
  intros [= <-]; apply List.find_some in E as [Hin Hn]; simpl in *.
  split; [now apply String.eqb_eq|]; exists id; now apply elem_of_iter, list_elem_of_In.
Qed.

Lemma findByName_none name m :
  findByName name m = None <-> forall id t, m !! id = Some t -> ti_name t <> name.
Proof.
  unfold findByName; destruct (List.find _ _) as [[id u]|] eqn:E; split; try discriminate; auto.
  - intros H; exfalso; apply List.find_some in E as [Hin Hn]; simpl in *.
    apply (H id u); [now apply elem_of_iter, list_elem_of_In|now apply String.eqb_eq].
  - intros _ id t Ht Hn; apply elem_of_iter, list_elem_of_In in Ht.
    apply (List.find_none _ _ E) in Ht; simpl in Ht; now apply String.eqb_neq in Ht.
Qed.

Lemma findByName_unique m id t : m !! id = Some t ->
  (forall j u, m !! j = Some u -> ti_name u = ti_name t -> j = id) ->
  findByName (ti_name t) m = Some t.
Proof.
  intros Ht Hu; destruct (findByName (ti_name t) m) as [u|] eqn:E.
  - apply findByName_some in E as [Hn [j Hj]]; rewrite (Hu _ _ Hj Hn) in Hj; congruence.
  - exfalso; eapply findByName_none; eauto.
Qed.

(** ** [max_type_id] bounds the ids *)

Lemma max_loop l x :
  x <= foldl (fun max p => if max <? p.1 then p.1 else max) x (l : list (Z * TypeInfo)) /\
  Forall (fun p => p.1 <= foldl (fun max p => if max <? p.1 then p.1 else max) x l) l.
Proof.
  revert x; induction l as [|p l IH]; intros x; cbn [foldl]; [split; [lia|constructor]|].
  destruct (IH (if x <? p.1 then p.1 else x)) as [H1 H2].
  assert (x <= (if x <? p.1 then p.1 else x) /\ p.1 <= (if x <? p.1 then p.1 else x))
    by (destruct (Z.ltb_spec x p.1); lia).
  split; [lia|]; constructor; [lia|exact H2].
Qed.

Lemma max_type_id_bound m id t : m !! id = Some t -> id <= max_type_id m.
Proof.
  intros H; apply elem_of_iter in H; unfold max_type_id.
  destruct (max_loop (iter m) (-1)) as [_ Hall].
  rewrite Forall_forall in Hall; exact (Hall _ H).
Qed.

Lemma max_type_id_nonneg m : -1 <= max_type_id m.
Proof. apply max_loop. Qed.

(** ** [compile_types] *)

Lemma struct_fields_inv fs info m info' : table_ok m -> 0 <= ti_size info ->
  struct_fields fs info m = Done info' ->
  ti_type_id info' = ti_type_id info /\ ti_name info' = ti_name info /\ 0 <= ti_size info' /\
  exists l, ti_fields info' = ti_fields info ++ l /\ map snd l = map fst fs /\
    Forall2 (fun p f => exists t, findByName f.2 m = Some t /\ ti_type_id t = p.1) l fs /\
    ti_size info' = ti_size info +
      foldr (fun f n => default 0 (ti_size <$> findByName f.2 m) + n) 0 fs.
Proof.
  intros Hm; revert info; induction fs as [|[name ty] fs IH]; intros info Hs H; cbn [struct_fields] in H.
  { injection H as <-; split_and!; auto; exists []; rewrite app_nil_r; simpl; split_and!; auto; lia. }
  destruct (findByName ty m) as [ft|] eqn:Eft; [|discriminate H]; cbn [deref] in H.
  rewrite outcome_bind_ret_l in H; apply outcome_bind_done in H as (sz & Hsz & H).
  apply checked_s_done in Hsz as [_ ->]; cbn [assert_] in H; rewrite outcome_bind_ret_l in H.
  pose proof (findByName_some _ _ _ Eft) as [_ [id Hid]].
  destruct (table_ids m Hm id ft Hid) as (Hft & _ & Hsize).
  apply IH in H as (H1 & H2 & H3 & l & H4 & H5 & H6 & H7); simpl in *; [|lia].
  split_and!; auto; exists ((ti_type_id ft, name) :: l); rewrite H4, <- app_assoc.
  split_and!; [reflexivity|simpl; congruence|constructor; eauto|].
  simpl; rewrite Eft; simpl; lia.
Qed.

(** A typedef adds one entry, under a fresh id, and nothing else changes. *)
Lemma compile_type_inv t c c' : table_ok (type_table_ c) -> compile_type t c = Done c' ->
  exists info, c' = insert_type info c /\ ti_name info = new_name_ t /\
    ti_type_id info = max_type_id (type_table_ c) + 10 /\ 0 <= ti_size info /\
    (is_struct_ (old_type_ t) = false -> ti_size info = 0) /\
    type_table_ c !! ti_type_id info = None.
Proof.
  intros Hm H; unfold compile_type in H.
  apply outcome_bind_done in H as (id & Hid & H); apply checked_s_done in Hid as [_ ->].
  assert (Hfresh : type_table_ c !! (max_type_id (type_table_ c) + 10) = None).
  { destruct (type_table_ c !! _) eqn:E; [|reflexivity].
    apply max_type_id_bound in E; lia. }
  apply outcome_bind_done in H as (info & Hinfo & H); injection H as <-.
  exists info; split; [reflexivity|]; destruct (is_struct_ (old_type_ t)).
  - apply outcome_bind_done in Hinfo as (s & _ & Hs).
    apply struct_fields_inv in Hs as (-> & -> & ? & _); simpl; auto with lia; split_and!; auto; lia.
  - injection Hinfo as <-; simpl; split_and!; auto; lia.
Qed.

Lemma compile_type_ok t c c' : table_ok (type_table_ c) -> compile_type t c = Done c' ->
  table_ok (type_table_ c').
Proof.
  intros Hm H; apply compile_type_inv in H as (info & -> & _ & Hid & Hs & _); [|exact Hm].
  apply insert_ok; auto; pose proof (max_type_id_nonneg (type_table_ c)); lia.
Qed.

Lemma for_each_inv {A S} (P : S -> Prop) (f : A -> S -> outcome S) l s s' :
  (forall x s s', P s -> f x s = Done s' -> P s') -> P s -> for_each f l s = Done s' -> P s'.
Proof.
  intros Hf; revert s; induction l as [|x l IH]; intros s Hs H; cbn [for_each] in H.
  - now injection H as <-.
  - apply outcome_bind_done in H as (s1 & H1 & H); eauto.
Qed.

Lemma compile_types_ok r c c' : table_ok (type_table_ c) -> compile_types r c = Done c' ->
  table_ok (type_table_ c').
Proof.
  intros Hm; apply (for_each_inv (fun c => table_ok (type_table_ c))); [|exact Hm].
  intros [] s s' Hs; try (now intros [= <-]); now apply compile_type_ok.
Qed.

(** An entry that exists is never changed by a typedef. *)
Lemma compile_types_keep r c c' id t : type_table_ c !! id = Some t ->
  compile_types r c = Done c' -> table_ok (type_table_ c) -> type_table_ c' !! id = Some t.
Proof.
  intros Ht H Hm.
  cut (table_ok (type_table_ c') /\ type_table_ c' !! id = Some t); [tauto|].
  refine (for_each_inv (fun c => table_ok (type_table_ c) /\ type_table_ c !! id = Some t)
    _ _ _ _ _ (conj Hm Ht) H).
  intros n s s' [Hs Hk] Hn; destruct n; try (injection Hn as <-; now split).
  split; [now apply compile_type_ok in Hn|].
  apply compile_type_inv in Hn as (info & -> & _ & _ & _ & _ & Hfresh); [|exact Hs].
  unfold insert_type, TypeTable_insert; simpl; rewrite Hfresh.
  rewrite lookup_insert_ne; [exact Hk|congruence].
Qed.

(** ** Types built from types *)

Lemma insert_fresh info m : m !! ti_type_id info = None ->
  TypeTable_insert info m = <[ti_type_id info := info]> m.
Proof. intros H; unfold TypeTable_insert; now rewrite H. Qed.

Lemma sum_sizes_app m m' l : m ⊆ m' -> Forall (fun f => is_Some (m !! f.1)) l ->
  sum_sizes m' l = sum_sizes m l.
Proof.
  intros Hm; induction 1 as [|f l [t Ht] _ IH]; [reflexivity|]; cbn [sum_sizes foldr] in *.
  rewrite Ht, (lookup_weaken _ _ _ _ Ht Hm); now f_equal.
Qed.

Lemma table_closed_make : table_closed TypeTable_make.
Proof.
  intros id t H; assert (Ht : (id, t) ∈ map_to_list TypeTable_make) by now apply elem_of_map_to_list.
  let l := eval vm_compute in (map_to_list TypeTable_make) in
    change (map_to_list TypeTable_make) with l in Ht.
  rewrite !elem_of_cons in Ht.
  repeat (destruct Ht as [[= -> ->]|Ht]; [split; [constructor|discriminate]|]); now apply elem_of_nil in Ht.
Qed.

(** A new type, under a greater id, made of types of the table. *)
Lemma table_closed_insert info m : table_closed m -> m !! ti_type_id info = None ->
  (forall id t, m !! id = Some t -> id < ti_type_id info) ->
  Forall (fun f => is_Some (m !! f.1)) (ti_fields info) ->
  (ti_is_struct info = true -> ti_size info = sum_sizes m (ti_fields info)) ->
  table_closed (<[ti_type_id info := info]> m).
Proof.
  intros Hm Hfresh Hmax Hf Hs id t; set (m' := <[_ := _]> m).
  assert (Hsub : m ⊆ m') by (now apply insert_subseteq).
  assert (Hweak : forall (l : list (Z * string)) b, Forall (fun f => f.1 < b /\ is_Some (m !! f.1)) l ->
    Forall (fun f => f.1 < b /\ is_Some (m' !! f.1)) l).
  { intros l b Hl; apply (Forall_impl _ _ _ Hl); intros f [? [u Hu]]; split; [assumption|]; exists u.
    exact (lookup_weaken _ _ _ _ Hu Hsub). }
  unfold m' at 1; destruct (decide (ti_type_id info = id)) as [<-|Hne].
  - rewrite lookup_insert_eq; intros [= <-]; split.
    + apply Hweak; eapply Forall_impl; [exact Hf|]; intros f [u Hu]; split; [eauto|now exists u].
    + intros E; rewrite (sum_sizes_app m); auto.
  - rewrite lookup_insert_ne by assumption; intros Ht; destruct (Hm id t Ht) as [H1 H2].
    split; [now apply Hweak|]; intros E; rewrite (sum_sizes_app m); auto.
    eapply Forall_impl; [exact H1|]; now intros f [_ ?].
Qed.

Lemma found_sizes m l fs : table_ok m ->
  Forall2 (fun (p : Z * string) (f : string * string) =>
    exists t, findByName f.2 m = Some t /\ ti_type_id t = p.1) l fs ->
  Forall (fun p => is_Some (m !! p.1)) l /\
  sum_sizes m l = foldr (fun f n => default 0 (ti_size <$> findByName f.2 m) + n) 0 fs.
Proof.
  intros Hm; induction 1 as [|p f l fs (t & Ht & Hid) _ [IH1 IH2]]; [split; constructor|].
  destruct (findByName_some _ _ _ Ht) as (_ & id & Hl); destruct (table_ids m Hm id t Hl) as (E & _ & _).
  assert (Hp : m !! p.1 = Some t) by congruence.
  split; [constructor; [now exists t|exact IH1]|]; cbn [sum_sizes foldr].
  rewrite Hp, Ht; simpl; f_equal; exact IH2.
Qed.

Lemma compile_type_closed t c c' : table_ok (type_table_ c) -> table_closed (type_table_ c) ->
  compile_type t c = Done c' -> table_closed (type_table_ c').
Proof.
  intros Hok Hm H; unfold compile_type in H; apply outcome_bind_done in H as (id & Hid & H).
  apply checked_s_done in Hid as [_ ->]; apply outcome_bind_done in H as (info & Hi & [= <-]).
  assert (Hmax : forall j u, type_table_ c !! j = Some u -> j < max_type_id (type_table_ c) + 10)
    by (intros j u Hj%max_type_id_bound; lia).
  assert (Hfresh : type_table_ c !! (max_type_id (type_table_ c) + 10) = None).
  { destruct (type_table_ c !! _) eqn:E; [|reflexivity]; apply Hmax in E; lia. }
  assert (Hinfo : ti_type_id info = max_type_id (type_table_ c) + 10 /\
    Forall (fun f => is_Some (type_table_ c !! f.1)) (ti_fields info) /\
    (ti_is_struct info = true -> ti_size info = sum_sizes (type_table_ c) (ti_fields info))).
  { destruct (is_struct_ (old_type_ t)).
    - apply outcome_bind_done in Hi as (s & _ & Hs).
      apply struct_fields_inv in Hs as (H1 & _ & _ & l & Hl & _ & Hty & Hsz); [|exact Hok|simpl; lia].
      simpl in *; destruct (found_sizes _ _ _ Hok Hty) as [Hf Hsum]; rewrite Hl, Hsz, Hsum; auto.
    - injection Hi as <-; split_and!; [reflexivity|constructor|discriminate]. }
  destruct Hinfo as (Hid & Hf & Hs); cbn [insert_type type_table_]; rewrite insert_fresh by congruence.
  apply table_closed_insert; rewrite ?Hid; auto.
Qed.

Lemma compile_types_closed r c c' : table_ok (type_table_ c) -> table_closed (type_table_ c) ->
  compile_types r c = Done c' -> table_closed (type_table_ c').
Proof.
  intros Hok Hm H; cut (table_ok (type_table_ c') /\ table_closed (type_table_ c')); [tauto|].
  refine (for_each_inv (fun c => table_ok (type_table_ c) /\ table_closed (type_table_ c))
    _ _ _ _ _ (conj Hok Hm) H).
  intros n s s' [Hs Hk] Hn; destruct n; try (injection Hn as <-; now split).
  split; [now apply compile_type_ok in Hn|now apply compile_type_closed in Hn].
Qed.

(** Every type of a closed table expands to basic types, with fuel its id. *)
Lemma expand_closed m : table_ok m -> table_closed m -> forall n id t, (Z.to_nat id < n)%nat ->
  m !! id = Some t -> exists ts, expand n m id = Some ts /\
    Forall (fun u => ti_is_struct u = false /\ m !! ti_type_id u = Some u) ts /\
    ti_size t = foldr (fun u z => ti_size u + z) 0 ts.
Proof.
  intros Hok Hm n; induction n as [|n IH]; intros id t Hn Ht; [lia|]; cbn [expand]; rewrite Ht.
  destruct (table_ids m Hok id t Ht) as (Hid & H0 & _); destruct (Hm id t Ht) as [Hf Hs].
  destruct (ti_is_struct t) eqn:Es.
  2: { exists [t]; split_and!; [reflexivity|constructor; [|constructor]|simpl; lia].
       rewrite Hid; auto. }
  rewrite (Hs eq_refl); clear Hs; induction Hf as [|f l [Hlt [u Hu]] _ IHl]; cbn [expand_all sum_sizes foldr].
  { exists []; split_and!; auto. }
  destruct (table_ids m Hok _ u Hu) as (_ & Hu0 & _).
  destruct (IH f.1 u ltac:(lia) Hu) as (ts & -> & Hts & Hsz); destruct IHl as (ts' & Ets' & Hts' & Hsz').
  exists (ts ++ ts'); rewrite Ets'; split_and!; [reflexivity|now apply Forall_app|].
  rewrite Hu; simpl; rewrite Hsz; unfold sum_sizes in Hsz'; rewrite Hsz'.
  clear; induction ts as [|x ts IH]; simpl; lia.
Qed.
(** ** Globals *)

(** A global has the id of a type of the table, when it has a type. *)
Definition typed_in (m : TypeTable) (x : VarInfo) : Prop :=
  match vi_type_id x with Some i => is_Some (m !! i) | None => Logic.True end.

Lemma compile_global_typed r c c' : table_ok (type_table_ c) ->
  Forall (typed_in (type_table_ c)) (global_table_ c) -> compile_global r c = Done c' ->
  type_table_ c' = type_table_ c /\ Forall (typed_in (type_table_ c)) (global_table_ c').
Proof.
  intros Hok Hg H.
  refine (for_each_inv (fun s => type_table_ s = type_table_ c /\
    Forall (typed_in (type_table_ c)) (global_table_ s)) _ _ _ _ _ (conj eq_refl Hg) H).
  intros n s s' [Ht Hs] Hn; destruct n as [d| | | | | | | ]; try (injection Hn as <-; now split).
  unfold compile_global_decl in Hn; destruct (var_type d) as [t|].
  - destruct (findByName (vt_name_ t) (type_table_ s)) as [ti|] eqn:Ef; [|discriminate Hn].
    cbn [assert_ deref] in Hn; rewrite !outcome_bind_ret_l in Hn; injection Hn as <-.
    split; [exact Ht|]; apply Forall_app; split; [exact Hs|]; constructor; [|constructor].
    destruct (findByName_some _ _ _ Ef) as (_ & i & Hi); rewrite Ht in Hi.
    unfold typed_in; simpl; destruct (table_ids _ Hok i ti Hi) as (-> & _); now exists ti.
  - injection Hn as <-; split; [exact Ht|]; apply Forall_app; split; [exact Hs|].
    constructor; [exact I|constructor].
Qed.

Lemma compile_types_globals r c c' : compile_types r c = Done c' -> global_table_ c' = global_table_ c.
Proof.
  intros H; refine (for_each_inv (fun s => global_table_ s = global_table_ c) _ _ _ _ _ eq_refl H).
  intros n s s' Hs Hn; destruct n; try (injection Hn as <-; exact Hs).
  unfold compile_type in Hn; apply outcome_bind_done in Hn as (id & _ & Hn).
  apply outcome_bind_done in Hn as (info & _ & [= <-]); exact Hs.
Qed.
End Order.
