(* ===== verification/Codegen.v ===== *)
(** * Codegen: what the compiled code computes (src/src/compiler.cpp run by
    src/src/vm.cpp)

    [code_of top e] is the code of an expression as a function of the place [top]
    of its value; [compile_expr] appends exactly that ([compile_expr_code]).
    [machine_value] is the integer that code computes, [int_value] the integer
    the expression denotes. *)

From S2P Require Import Prelude Machine Common Token Ast ExprParser Memory Vm Compiler.
Import token.

#[local] Set Warnings "-register-all".

(** ** The code of an expression *)

Definition literal_code (top : Z) (t : Value) : list Instruction :=
  match type_ t with
  | Int => [mkInst Set32 (base STACK_TOP top) (i32u64 (i_data_ t)) 0]
  | Float => [mkInst Set32 (base STACK_TOP top) (f32u64 (f64_to_f32 (f_data_ t))) 0]
  | _ => []
  end.

Definition op_code_at (t : Type_) (top : Z) : list Instruction :=
  match op_inst t with
  | Some o => [mkInst o (base STACK_TOP top) (base STACK_TOP (top + 4)) (base STACK_TOP top)]
  | None => []
  end.

Definition neg_code (top : Z) : list Instruction :=
  [mkInst (BinD Mul I32) (base STACK_TOP top) (i32u64 (-1)) (base STACK_TOP top)].

Definition call_code (func_name : string) (top : Z) : list Instruction :=
  if String.eqb func_name "print" then [mkInst Call SC_PRINT_I32 (base STACK_TOP top) 0] else [].

(** An operand list with its operators. *)
Definition ops_code (operand : Expr -> list Instruction) (top : Z)
    : list Expr -> list Type_ -> list Instruction :=
  fix go es os :=
    match os, es with
    | t :: os, e :: es => operand e ++ op_code_at t top ++ go es os
    | _, _ => []
    end.

Definition is_negation (e : Expr) : bool := bool_decide (tl (exprs e) = [] /\ ops e = [token.Sub]).

Fixpoint code_of (top : Z) (e : Expr) : list Instruction :=
  match etype_ e with
  | TOKEN => literal_code top (v e)
  | OPS =>
      match exprs e with
      | [] => []
      | e0 :: es =>
          code_of top e0 ++
          (if is_negation e then neg_code top
           else ops_code (code_of (top + 4)) top es (ops e))
      end
  | FUNCALL =>
      match exprs e with
      | [] => []
      | f :: es =>
          mjoin (map (code_of top) es) ++ call_code (str_data_ (v f)) top
      end
  end.

(** The bytes above its place that the code of an expression may use, apart from
    the four of its value. *)
Fixpoint scratch (e : Expr) : Z :=
  match etype_ e with
  | TOKEN => 0
  | OPS =>
      match exprs e with
      | [] => 0
      | e0 :: es =>
          if is_negation e then scratch e0
          else Z.max (scratch e0) (foldr Z.max 0 (map (fun e => 4 + scratch e) es) `max` 4)
      end
  | FUNCALL => foldr Z.max 0 (map scratch (exprs e))
  end.

(** ** The values *)

(** One operator; the comparison operators have no code and leave the left
    operand. *)
Definition swapped_op (t : Type_) (l r : Z) : outcome Z :=
  match t with
  | Plus => int_arith 32 Add r l
  | token.Sub => int_arith 32 Vm.Sub r l
  | Star => int_arith 32 Mul r l
  | Slash => int_arith 32 Div r l
  | _ => Done l
  end.

(** The operator as the language has it. *)
Definition source_op (t : Type_) (l r : Z) : outcome Z :=
  match t with
  | Plus => int_arith 32 Add l r
  | token.Sub => int_arith 32 Vm.Sub l r
  | Star => int_arith 32 Mul l r
  | Slash => int_arith 32 Div l r
  | _ => Done l
  end.

Section Value.
Variable apply_op : Type_ -> Z -> Z -> outcome Z.

Definition chain_value (operand : Expr -> outcome Z) : list Expr -> list Type_ -> Z -> outcome Z :=
  fix go es os l :=
    match os, es with
    | t :: os, e :: es => r ← operand e; l ← apply_op t l r; go es os l
    | _, _ => Done l
    end.

(** The four bytes of a literal as an [int32_t]. *)
Definition literal_value (t : Value) : Z :=
  match type_ t with
  | Int => wrap_s 32 (i_data_ t)
  | _ => wrap_s 32 (f32u64 (f64_to_f32 (f_data_ t)))
  end.

Fixpoint value_with (e : Expr) : outcome Z :=
  match etype_ e with
  | TOKEN => Done (literal_value (v e))
  | OPS =>
      match exprs e with
      | [] => Undef OutOfBounds
      | e0 :: es =>
          l ← value_with e0;
          if is_negation e then int_arith 32 Mul l (-1)
          else chain_value value_with es (ops e) l
      end
  | FUNCALL => Undef OutOfBounds
  end.
End Value.

Definition machine_value : Expr -> outcome Z := value_with swapped_op.
Definition int_value : Expr -> outcome Z := value_with source_op.

(** Trees of literals, without calls. *)
Inductive closed : Expr -> Prop :=
  | closed_lit e : etype_ e = TOKEN -> type_ (v e) = Int \/ type_ (v e) = Float -> closed e
  | closed_ops e e0 es : etype_ e = OPS -> exprs e = e0 :: es ->
      (is_negation e = true \/ length (ops e) = length es) ->
      Forall closed (e0 :: es) -> closed e.

(** Every operator in the tree satisfies [p]. *)
Fixpoint all_ops (p : Type_ -> bool) (e : Expr) : bool :=
  (is_negation e || forallb p (ops e)) && forallb (all_ops p) (exprs e).

Definition commutes (t : Type_) : bool := bool_decide (t = Plus) || bool_decide (t = Star).

(** ** Lemmas: [compile_expr] appends [code_of] *)

Definition appended (code : list Instruction) (f : CompilingFunc) : CompilingFunc :=
  mkCompilingFunc (cf_name f) (cur_stack_top f) (var_address_map f) (cf_instructions f ++ code).

(** The compiler with [f] as the current function. *)
Abbreviation compiling f c := (setCurrentFunc (Live f) c).

Lemma compiling_twice f g c : compiling f (compiling g c) = compiling f c.
Proof. reflexivity. Qed.

Lemma appended_nil f : appended [] f = f.
Proof. destruct f; unfold appended; simpl; now rewrite app_nil_r. Qed.

Lemma appended_app l k f : appended k (appended l f) = appended (l ++ k) f.
Proof. unfold appended; simpl; now rewrite app_assoc. Qed.

Lemma emit_compiling i f c : emit i (compiling f c) = Done (compiling (appended [i] f) c).
Proof. reflexivity. Qed.

Lemma current_compiling f c : current (compiling f c) = Done f.
Proof. reflexivity. Qed.

Lemma assert_compiling f c : assert_current (compiling f c) = Done ().
Proof. reflexivity. Qed.

Lemma top_compiling f c : top_of (compiling f c) = Done (cur_stack_top f).
Proof. reflexivity. Qed.

Lemma set_stack_top_compiling t f c :
  set_stack_top t (compiling f c) = Done (compiling (set_top t f) c).
Proof. reflexivity. Qed.

Lemma literal_compiling e f c :
  compile_expr_literature e (compiling f c) =
  Done (compiling (appended (literal_code (cur_stack_top f) (v e)) f) c).
Proof.
  unfold compile_expr_literature, literal_code; rewrite top_compiling, !outcome_bind_ret_l.
  destruct (type_ (v e)) eqn:Et; repeat (rewrite decide_False by discriminate);
    rewrite ?appended_nil, ?decide_True by reflexivity; try reflexivity.
Qed.

Lemma emit_op_compiling t origin f c : cur_stack_top f = origin + 4 ->
  emit_op t origin (compiling f c) = Done (compiling (appended (op_code_at t origin) f) c).
Proof.
  intros Ht; unfold emit_op, op_code_at; destruct (op_inst t); [|now rewrite appended_nil].
  now rewrite top_compiling, outcome_bind_ret_l, Ht.
Qed.

Lemma call_compiling name f c :
  compile_call name (compiling f c) =
  Done (compiling (appended (call_code name (cur_stack_top f)) f) c).
Proof.
  unfold compile_call, call_code; destruct (String.eqb name "print");
    [reflexivity|now rewrite appended_nil].
Qed.

(** The place [top] leaves room for the code of [e] in an [int]. *)
Definition fits (top : Z) (e : Expr) : Prop := 0 <= top /\ top + scratch e <= INT_MAX.

(** [compile_expr] appends [code_of], and changes nothing else. *)
Definition appends (e : Expr) : Prop := forall f c, fits (cur_stack_top f) e ->
  compile_expr e (compiling f c) =
  Done (compiling (appended (code_of (cur_stack_top f) e) f) c).

Lemma scratch_nonneg e : 0 <= scratch e.
Proof.
  induction e as [e IH] using Expr_induction; destruct e as [a b t w es os]; simpl in IH.
  destruct t; simpl; [lia| |].
  - destruct es as [|e0 es]; [lia|]; apply Forall_cons in IH as [? _]; case_match; lia.
  - clear; induction es; simpl; lia.
Qed.

Lemma max_elem_le (g : Expr -> Z) es e : e ∈ es -> g e <= foldr Z.max 0 (map g es).
Proof. induction 1; simpl; lia. Qed.

Lemma args_compiling es f c : Forall appends es ->
  Forall (fits (cur_stack_top f)) es ->
  for_each compile_expr es (compiling f c) =
  Done (compiling (appended (mjoin (map (code_of (cur_stack_top f)) es)) f) c).
Proof.
  intros Hes; revert f; induction Hes as [|e es He _ IH]; intros f Hf; cbn [for_each map].
  { now rewrite appended_nil. }
  apply Forall_cons in Hf as [Hf1 Hf2]; rewrite He, outcome_bind_ret_l by assumption.
  rewrite IH by exact Hf2; now rewrite appended_app.
Qed.

Lemma ops_loop_compiling origin es os f c : Forall appends es -> length os = length es ->
  cur_stack_top f = origin + 4 -> Forall (fits (origin + 4)) es ->
  ops_loop compile_expr origin es os (compiling f c) =
  Done (compiling (appended (ops_code (code_of (origin + 4)) origin es os) f) c).
Proof.
  intros Hes; revert os f; induction Hes as [|e es He _ IH]; intros os f Hl Ht Hf;
    destruct os as [|t os]; try discriminate Hl; cbn [ops_loop ops_code].
  { now rewrite appended_nil. }
  apply Forall_cons in Hf as [Hf1 Hf2]; injection Hl as Hl.
  rewrite He, outcome_bind_ret_l by now rewrite Ht.
  rewrite Ht, emit_op_compiling, outcome_bind_ret_l by exact Ht.
  rewrite IH by assumption; now rewrite !appended_app, ?app_assoc.
Qed.

Lemma fits_operands top e e0 es : exprs e = e0 :: es -> etype_ e = OPS ->
  is_negation e = false -> fits top e ->
  fits top e0 /\ Forall (fits (top + 4)) es /\ top + 4 <= INT_MAX.
Proof.
  destruct e as [a b t w es' os]; simpl; intros -> -> Hneg [H0 H1]; cbn [scratch exprs etype_] in H1.
  rewrite Hneg in H1; split_and!; [split; lia| |lia].
  apply Forall_forall; intros e He.
  pose proof (max_elem_le (fun e => 4 + scratch e) es e He) as Hm; cbv beta in Hm; split; lia.
Qed.

Lemma code_of_ops top e e0 es : exprs e = e0 :: es -> etype_ e = OPS ->
  code_of top e = code_of top e0 ++
    (if is_negation e then neg_code top else ops_code (code_of (top + 4)) top es (ops e)).
Proof. destruct e; simpl; intros -> ->; reflexivity. Qed.

Lemma scratch_neg e e0 es : exprs e = e0 :: es -> etype_ e = OPS ->
  is_negation e = true -> scratch e = scratch e0.
Proof. destruct e; simpl; intros -> -> H; now rewrite H. Qed.

Lemma compile_expr_ops_code e e0 es : etype_ e = OPS -> exprs e = e0 :: es ->
  (is_negation e = true \/ length (ops e) = length es) ->
  Forall appends (e0 :: es) -> appends e.
Proof.
  intros Ht Hes Hlen Hall f c Hfits; apply Forall_cons in Hall as [H0 Hall].
  assert (Hce : forall c, compile_expr e c = compile_expr_ops compile_expr e c)
    by (destruct e; simpl in *; now rewrite Ht).
  rewrite Hce; unfold compile_expr_ops; rewrite top_compiling, outcome_bind_ret_l, Hes.
  rewrite (code_of_ops _ _ _ _ Hes Ht).
  assert (Hneg : bool_decide (es = [] /\ ops e = [token.Sub]) = is_negation e)
    by (unfold is_negation; now rewrite Hes).
  rewrite Hneg; destruct (is_negation e) eqn:En.
  - rewrite H0, !outcome_bind_ret_l by (unfold fits in *; erewrite <- scratch_neg; eauto).
    rewrite emit_compiling, !outcome_bind_ret_l, appended_app; reflexivity.
  - destruct (fits_operands _ _ _ _ Hes Ht En Hfits) as (Hf0 & Hf & Hi).
    rewrite H0, outcome_bind_ret_l, top_compiling, !outcome_bind_ret_l by exact Hf0.
    unfold getExprSize; cbn [cur_stack_top appended].
    replace (checked_s 32 (cur_stack_top f + 4)) with (@Done Z (cur_stack_top f + 4)).
    2: symmetry; apply checked_s_done; rewrite in_s_spec; unfold fits, INT_MAX in *; lia.
    rewrite outcome_bind_ret_l, set_stack_top_compiling, outcome_bind_ret_l.
    rewrite ops_loop_compiling; [|exact Hall|destruct Hlen; congruence|reflexivity|exact Hf].
    rewrite outcome_bind_ret_l, set_stack_top_compiling.
    destruct f; unfold appended, set_top; simpl; now rewrite <- app_assoc.
Qed.

Lemma well_shaped_ops e : well_shaped e ->
  Forall well_shaped (exprs e) /\
  (etype_ e = OPS -> exists e0 es, exprs e = e0 :: es /\
     (is_negation e = true \/ length (ops e) = length es)) /\
  (etype_ e = FUNCALL -> exists f es, exprs e = f :: es).
Proof.
  destruct 1 as [e Ht He _ _|e f es Ht He _ _ Hall|e t Ht He Ho _ Hw|e e0 es Ht He Hne Hl _ Hall];
    rewrite ?He; split_and!; auto; try (intros E; congruence).
  - eauto.
  - intros _; exists t, []; split; [reflexivity|]; left.
    unfold is_negation; rewrite He, Ho; reflexivity.
  - eauto.
Qed.

(** The code generator on the trees the parser builds. *)
Lemma compile_expr_code e : well_shaped e -> appends e.
Proof.
  induction e as [e IH] using Expr_induction; intros Hw.
  destruct (well_shaped_ops e Hw) as (Hall & Hops & Hcall).
  assert (Happ : Forall appends (exprs e)).
  { apply Forall_forall; intros x Hx; rewrite Forall_forall in IH, Hall; auto. }
  destruct (etype_ e) eqn:Et.
  - intros f c _; destruct e; simpl in *; subst; apply literal_compiling.
  - destruct (Hops eq_refl) as (e0 & es & Hes & Hl); rewrite Hes in Happ.
    eapply compile_expr_ops_code; eauto.
  - destruct (Hcall eq_refl) as (g & es & Hes); rewrite Hes in Happ.
    apply Forall_cons in Happ as [_ Happ]; intros f c [H0 H1].
    destruct e as [a b t w es' os]; simpl in *; subst; unfold compile_funcall; simpl in *.
    rewrite args_compiling; [|exact Happ|].
    + rewrite outcome_bind_ret_l, call_compiling; now rewrite appended_app.
    + apply Forall_forall; intros x Hx; pose proof (max_elem_le scratch es x Hx); split; lia.
Qed.
