(* ===== verification/CodegenRun.v ===== *)
(** * CodegenRun: the compiled code on the machine

    The code of a closed expression, run anywhere in a program with its frame
    inside the stack, leaves [machine_value] in the four bytes at its place and
    touches only its own bytes; a fault of the arithmetic is the same fault of
    the machine. *)

From S2P Require Import Prelude Machine Common Token Ast ExprParser Memory Vm Compiler Codegen.
Import token.

(** ** Code inside a program *)

(** The machine is about to run [code]. *)
Definition at_code (vm : ByteCodeVM) (code : list Instruction) : Prop :=
  exists pre post, instructions (program_ vm) = pre ++ code ++ post /\
    pc_ vm = Z.of_nat (length pre) /\ finished_ vm = false /\
    Z.of_nat (length (instructions (program_ vm))) < 2 ^ 64.

(** [n] instructions later, with the stack [m]. *)
Definition moved (n : nat) (m : memory) (vm : ByteCodeVM) : ByteCodeVM :=
  set_pc (pc_ vm + Z.of_nat n) (set_stack m vm).

Lemma moved_moved n k m m' vm : moved k m' (moved n m vm) = moved (n + k) m' vm.
Proof. unfold moved, set_pc, set_stack; simpl; f_equal; lia. Qed.

Lemma moved_0 vm : moved 0 (stack_ vm) vm = vm.
Proof. destruct vm; unfold moved, set_pc, set_stack; simpl; f_equal; lia. Qed.

Lemma at_code_app vm l k : at_code vm (l ++ k) ->
  at_code vm l /\ forall m, at_code (moved (length l) m vm) k.
Proof.
  intros (pre & post & Hi & Hpc & Hf & Hlen); split.
  - exists pre, (k ++ post); split_and!; auto; now rewrite Hi, <- app_assoc.
  - intros m; exists (pre ++ l), post; split_and!; [|simpl; rewrite Hpc, length_app; lia|exact Hf|exact Hlen].
    simpl; now rewrite Hi, <- !app_assoc.
Qed.

Lemma run_one vm i : at_code vm [i] -> Run 1 vm = step i vm.
Proof.
  intros (pre & post & Hi & Hpc & Hf & _); cbn [Run]; rewrite Hf, Hi, Hpc, Nat2Z.id.
  cbn [app]; rewrite list_lookup_middle by reflexivity; rewrite ?outcome_bind_ret_l; now destruct (step i vm).
Qed.

Lemma run_app (l k : list Instruction) vm m : Run (length l) vm = Done (moved (length l) m vm) ->
  Run (length (l ++ k)) vm = Run (length k) (moved (length l) m vm).
Proof. intros H; now rewrite length_app, Run_add, H. Qed.

Lemma run_app_undef (l k : list Instruction) vm f : Run (length l) vm = Undef f -> Run (length (l ++ k)) vm = Undef f.
Proof. intros H; now rewrite length_app, Run_add, H. Qed.

Lemma advance_moved vm m i : at_code vm [i] -> advance_pc (set_stack m vm) = moved 1 m vm.
Proof.
  intros (pre & post & Hi & Hpc & _ & Hlen); rewrite Hi, !length_app in Hlen; simpl in Hlen.
  unfold advance_pc, moved; simpl; rewrite wrap_u_small by lia; f_equal; lia.
Qed.

(** ** Slots of the frame *)

(** The [n] bytes from [top] on are in the stack. *)
Definition room (vm : ByteCodeVM) (top n : Z) : Prop :=
  0 <= top /\ 0 <= n /\ 0 <= stack_top_ vm /\ stack_top_ vm + top + n <= MAX_STACK.

Lemma slot_addr vm o n : room vm o n ->
  transAddr vm (base STACK_TOP o) = Done (stack_top_ vm + o).
Proof.
  unfold room, MAX_STACK; intros ?; rewrite transAddr_top; f_equal.
  rewrite Z.mod_small by lia; apply wrap_u_small; lia.
Qed.

Lemma write_slot vm o bs : room vm o (Z.of_nat (length bs)) ->
  write (base STACK_TOP o) bs vm = Done (set_stack (store (stack_top_ vm + o) bs (stack_ vm)) vm).
Proof.
  intros H; unfold write; rewrite (slot_addr _ _ _ H), outcome_bind_ret_l.
  unfold in_stack; unfold room in H; rewrite !(proj2 (Z.leb_le _ _)) by lia; reflexivity.
Qed.

Lemma read_slot vm o n : room vm o (Z.of_nat n) ->
  read n (base STACK_TOP o) vm = Done (load n (stack_top_ vm + o) (stack_ vm)).
Proof.
  intros H; unfold read; rewrite (slot_addr _ _ _ H), outcome_bind_ret_l.
  unfold in_stack; unfold room in H; rewrite !(proj2 (Z.leb_le _ _)) by lia; reflexivity.
Qed.

(** The [int32_t] [z] is stored at [o]. *)
Definition holds (vm : ByteCodeVM) (m : memory) (o z : Z) : Prop :=
  in_s 32 z = true /\ load 4 (stack_top_ vm + o) m = le_bytes 4 z.

Lemma read_int vm o z : room vm o 4 -> holds vm (stack_ vm) o z ->
  read_as I32 (base STACK_TOP o) vm = Done z.
Proof.
  intros Hr [Hz Hl]; unfold read_as; cbn [type_size]; rewrite (read_slot vm o 4 Hr).
  rewrite outcome_bind_ret_l, Hl; f_equal.
  now apply (decode_encode I32).
Qed.

(** [m'] differs from [m] in the [n] bytes at [o] only. *)
Definition within (vm : ByteCodeVM) (o n : Z) (m m' : memory) : Prop :=
  forall a, ~ (stack_top_ vm + o <= a < stack_top_ vm + o + n) ->
    load_byte m' a = load_byte m a.

Lemma within_refl vm o n m : within vm o n m m.
Proof. intros a _; reflexivity. Qed.

Lemma within_trans vm o n m1 m2 m3 :
  within vm o n m1 m2 -> within vm o n m2 m3 -> within vm o n m1 m3.
Proof. intros H H' a Ha; now rewrite H', H. Qed.

Lemma within_mono vm o n o' n' m m' : within vm o n m m' -> o' <= o -> o + n <= o' + n' ->
  within vm o' n' m m'.
Proof. intros H ? ? a Ha; apply H; lia. Qed.

Lemma within_store vm o bs m :
  within vm o (Z.of_nat (length bs)) m (store (stack_top_ vm + o) bs m).
Proof. intros a Ha; rewrite load_byte_store, decide_False by lia; reflexivity. Qed.

Lemma holds_within vm o n m m' p z : within vm o n m m' ->
  p + 4 <= o \/ o + n <= p -> holds vm m p z -> holds vm m' p z.
Proof.
  intros Hw Hd [Hz Hl]; split; [exact Hz|]; rewrite <- Hl; apply load_ext.
  intros c Hc; apply Hw; lia.
Qed.

(** ** One instruction *)

(** [code] ends with [z] at [top], having used the [n] bytes from there. *)
Definition computes (vm : ByteCodeVM) (code : list Instruction) (top n z : Z) : Prop :=
  exists m, Run (length code) vm = Done (moved (length code) m vm) /\
    within vm top n (stack_ vm) m /\ holds vm m top z.

(** What [code] does when the value it is to compute is [o]. *)
Definition delivers (vm : ByteCodeVM) (code : list Instruction) (top n : Z) (o : outcome Z) : Prop :=
  match o with
  | Done z => computes vm code top n z
  | Undef f => Run (length code) vm = Undef f
  | Abort _ | OutOfFuel => False
  end.

Lemma store_holds vm o z m : in_s 32 z = true ->
  holds vm (store (stack_top_ vm + o) (le_bytes 4 z) m) o z.
Proof. intros Hz; split; [exact Hz|]; exact (load_store_same m _ (le_bytes 4 z)). Qed.

(** Writing an [int32_t] to its slot and going on. *)
Lemma computes_write vm i top n z m : at_code vm [i] -> room vm top n -> 4 <= n ->
  in_s 32 z = true ->
  m = store (stack_top_ vm + top) (le_bytes 4 z) (stack_ vm) ->
  step i vm = Done (advance_pc (set_stack m vm)) -> computes vm [i] top n z.
Proof.
  intros Hat Hr Hn Hz -> Hs; eexists; split_and!.
  - cbn [length]; rewrite (run_one vm i Hat), Hs; now rewrite (advance_moved _ _ i Hat).
  - eapply within_mono; [apply within_store|lia|rewrite length_le_bytes; lia].
  - now apply store_holds.
Qed.

Lemma le_bytes_wrap n z z' : z mod 2 ^ (8 * Z.of_nat n) = z' mod 2 ^ (8 * Z.of_nat n) ->
  le_bytes n z = le_bytes n z'.
Proof.
  intros H; rewrite <- !le_value_bytes in H.
  rewrite <- (le_bytes_value (le_bytes n z)), <- (le_bytes_value (le_bytes n z'))
    by apply le_bytes_are_bytes.
  now rewrite !length_le_bytes, H.
Qed.

Lemma wrap_s_mod w z : 0 < w -> wrap_s w z mod 2 ^ w = z mod 2 ^ w.
Proof.
  intros Hw; unfold wrap_s; destruct (_ <? _); [apply Zmod_mod|].
  pose proof (pow2_pos w ltac:(lia)).
  replace (z mod 2 ^ w - 2 ^ w) with (z mod 2 ^ w + -1 * 2 ^ w) by lia.
  rewrite Z.mod_add by lia; apply Zmod_mod.
Qed.

Lemma le_bytes_wrap_s z : le_bytes 4 (wrap_s 32 z) = le_bytes 4 z.
Proof. apply le_bytes_wrap; change (8 * Z.of_nat 4) with 32; now apply wrap_s_mod. Qed.

Lemma set32_run vm top n x : room vm top n -> 4 <= n ->
  at_code vm [mkInst Set32 (base STACK_TOP top) x 0] ->
  computes vm [mkInst Set32 (base STACK_TOP top) x 0] top n (wrap_s 32 x).
Proof.
  intros Hr Hn Hat; eapply computes_write; eauto; [apply wrap_s_range; lia|].
  unfold step; cbn [op arg0 arg1]; rewrite write_slot; [|unfold room in *; simpl; lia].
  now rewrite outcome_bind_ret_l, le_bytes_wrap_s.
Qed.

Lemma int_arith_range w o a b z : int_arith w o a b = Done z -> in_s w z = true.
Proof.
  destruct o; simpl; unfold sdiv; try (now intros [H ->]%checked_s_done).
  destruct (b =? 0); [discriminate|]; now intros [H ->]%checked_s_done.
Qed.

Lemma int_arith_cases w o a b :
  (exists z, int_arith w o a b = Done z) \/ (exists f, int_arith w o a b = Undef f).
Proof.
  destruct o; simpl; unfold sdiv, checked_s; repeat case_match; eauto.
Qed.

(** An instruction that stores the result of an [int32_t] operation. *)
Lemma arith_run vm i top n o a b : at_code vm [i] -> room vm top n -> 4 <= n ->
  step i vm = (r ← int_arith 32 o a b; vm' ← write_as I32 (base STACK_TOP top) r vm;
               Done (advance_pc vm')) ->
  delivers vm [i] top n (int_arith 32 o a b).
Proof.
  intros Hat Hr Hn Hs; destruct (int_arith_cases 32 o a b) as [[z Hz]|[f Hf]].
  - rewrite Hz; cbn [delivers]; eapply computes_write; eauto; [eapply int_arith_range; eauto|].
    rewrite Hs, Hz, outcome_bind_ret_l; unfold write_as; rewrite write_slot;
      [reflexivity|cbn [encode]; rewrite length_le_bytes; unfold room in *; lia].
  - rewrite Hf; cbn [delivers length]; rewrite (run_one vm i Hat), Hs, Hf; reflexivity.
Qed.

(** ** Sequences *)

(** First [l], which delivers [o] at [top'], then [k], which may rely on it. *)
Lemma delivers_bind vm l k top' n' top n o (g : Z -> outcome Z) :
  delivers vm l top' n' o -> top <= top' -> top' + n' <= top + n ->
  (forall m z, o = Done z -> within vm top' n' (stack_ vm) m -> holds vm m top' z ->
     delivers (moved (length l) m vm) k top n (g z)) ->
  delivers vm (l ++ k) top n (o ≫= g).
Proof.
  intros Hl Hlo Hhi Hk; destruct o as [z|f|w|]; cbn [delivers] in Hl; try contradiction;
    [|now apply run_app_undef].
  destruct Hl as (m & Hrun & Hw & Hh); specialize (Hk m z eq_refl Hw Hh).
  rewrite outcome_bind_ret_l; destruct (g z) as [y|f|w|]; cbn [delivers] in *; try contradiction.
  - destruct Hk as (m' & Hrun' & Hw' & Hh'); exists m'; split_and!; [|eapply within_trans; eauto using within_mono|exact Hh'].
    rewrite (run_app _ _ _ _ Hrun), Hrun', moved_moved; now rewrite length_app.
  - now rewrite (run_app _ _ _ _ Hrun).
Qed.

Lemma delivers_nil vm top n z : holds vm (stack_ vm) top z -> delivers vm [] top n (Done z).
Proof.
  intros Hh; exists (stack_ vm); split_and!; [|apply within_refl|exact Hh].
  cbn [length Run]; now rewrite moved_0.
Qed.

Lemma room_le vm top n n' : room vm top n -> 0 <= n' <= n -> room vm top n'.
Proof. unfold room; lia. Qed.

Lemma room_sub vm top n top' n' : room vm top n -> top <= top' -> 0 <= n' ->
  top' + n' <= top + n -> room vm top' n'.
Proof. unfold room; lia. Qed.

(** ** Operators *)

Lemma op_run vm t top n l r : at_code vm (op_code_at t top) -> room vm top n -> 8 <= n ->
  holds vm (stack_ vm) top l -> holds vm (stack_ vm) (top + 4) r ->
  delivers vm (op_code_at t top) top n (swapped_op t l r).
Proof.
  intros Hat Hr Hn Hl Hrr; unfold op_code_at, swapped_op in *.
  assert (H1 : read_as I32 (base STACK_TOP top) vm = Done l).
  { apply read_int; [|exact Hl]; eapply room_le; eauto; lia. }
  assert (H2 : read_as I32 (base STACK_TOP (top + 4)) vm = Done r).
  { apply read_int; [|exact Hrr]; eapply room_sub; eauto; lia. }
  destruct t; cbn [op_inst] in *; try now apply delivers_nil.
  all: apply arith_run; [exact Hat|exact Hr|lia|]; unfold step; cbn [op arg0 arg1 arg2];
    rewrite H1, H2, !outcome_bind_ret_l; reflexivity.
Qed.

Lemma neg_run vm top n z : at_code vm (neg_code top) -> room vm top n -> 4 <= n ->
  holds vm (stack_ vm) top z ->
  delivers vm (neg_code top) top n (int_arith 32 Mul z (-1)).
Proof.
  intros Hat Hr Hn Hz.
  assert (H1 : read_as I32 (base STACK_TOP top) vm = Done z).
  { apply read_int; [|exact Hz]; eapply room_le; eauto; lia. }
  apply arith_run; [exact Hat|exact Hr|lia|]; unfold step; cbn [op arg0 arg1 arg2].
  rewrite H1, !outcome_bind_ret_l; reflexivity.
Qed.

(** ** Expressions *)

(** The code of [e] computes [machine_value e] wherever it runs. *)
Definition correct (e : Expr) : Prop := forall vm top,
  at_code vm (code_of top e) -> room vm top (4 + scratch e) ->
  delivers vm (code_of top e) top (4 + scratch e) (machine_value e).

Lemma delivers_mono vm code top n n' o : delivers vm code top n o -> n <= n' ->
  delivers vm code top n' o.
Proof.
  destruct o; cbn [delivers]; auto; intros (m & Hr & Hw & Hh) Hn; exists m; split_and!; auto.
  eapply within_mono; eauto; lia.
Qed.

Lemma correct_at e vm top n : correct e -> at_code vm (code_of top e) -> room vm top n ->
  4 + scratch e <= n -> delivers vm (code_of top e) top n (machine_value e).
Proof.
  intros He Hat Hr Hn; pose proof (scratch_nonneg e); eapply delivers_mono; [apply He|exact Hn];
    [exact Hat|eapply room_le; eauto; lia].
Qed.

Lemma literal_run e : etype_ e = TOKEN -> type_ (v e) = Int \/ type_ (v e) = Float -> correct e.
Proof.
  intros Ht Hv vm top; destruct e as [a b t w es os]; simpl in *; subst t.
  unfold machine_value, literal_code, literal_value; cbn [value_with etype_ v].
  intros Hat Hr; destruct Hv as [Hv|Hv]; rewrite Hv in *; cbn [delivers].
  - replace (wrap_s 32 (i_data_ w)) with (wrap_s 32 (i32u64 (i_data_ w)));
      [apply set32_run; auto; lia|apply wrap_s_wrap_u; lia].
  - apply set32_run; auto; lia.
Qed.

(** The rest of an operator chain, with the value so far at [top]. *)
Lemma chain_run es : Forall correct es -> forall os vm top n l, length os = length es ->
  at_code vm (ops_code (code_of (top + 4)) top es os) -> room vm top n ->
  Forall (fun e => 8 + scratch e <= n) es -> holds vm (stack_ vm) top l ->
  delivers vm (ops_code (code_of (top + 4)) top es os) top n
    (chain_value swapped_op machine_value es os l).
Proof.
  induction 1 as [|e es He _ IH]; intros os vm top n l Hlen Hat Hr Hn Hl;
    destruct os as [|t os]; try discriminate Hlen; cbn [ops_code chain_value] in *.
  { now apply delivers_nil. }
  apply Forall_cons in Hn as [Hn1 Hn2]; injection Hlen as Hlen.
  apply at_code_app in Hat as [Hat1 Hat]; pose proof (scratch_nonneg e).
  eapply (delivers_bind _ _ _ (top + 4) (n - 4)); [|lia|lia|].
  { apply correct_at; auto; [eapply room_sub; eauto; lia|lia]. }
  intros m r _ Hw Hh; specialize (Hat m); apply at_code_app in Hat as [Hat2 Hat].
  eapply (delivers_bind _ _ _ top n); [|lia|lia|].
  { apply op_run; auto; [lia|]; eapply holds_within; eauto; lia. }
  intros m' z _ Hw' Hh'; apply IH; auto.
Qed.

Lemma scratch_ops e e0 es : exprs e = e0 :: es -> etype_ e = OPS -> is_negation e = false ->
  scratch e0 <= scratch e /\ Forall (fun e' => 8 + scratch e' <= 4 + scratch e) es.
Proof.
  destruct e as [a b t w es' os]; simpl; intros -> -> Hneg; rewrite Hneg; split; [lia|].
  apply Forall_forall; intros x Hx.
  pose proof (max_elem_le (fun e => 4 + scratch e) es x Hx) as Hm; cbv beta in Hm; lia.
Qed.

Lemma machine_value_ops e e0 es : exprs e = e0 :: es -> etype_ e = OPS ->
  machine_value e = (l ← machine_value e0;
    if is_negation e then int_arith 32 Mul l (-1)
    else chain_value swapped_op machine_value es (ops e) l).
Proof. destruct e; simpl; intros -> ->; reflexivity. Qed.

Lemma ops_run e e0 es : etype_ e = OPS -> exprs e = e0 :: es ->
  (is_negation e = true \/ length (ops e) = length es) -> Forall correct (e0 :: es) -> correct e.
Proof.
  intros Ht Hes Hlen Hall vm top Hat Hr; apply Forall_cons in Hall as [H0 Hall].
  rewrite (machine_value_ops _ _ _ Hes Ht).
  rewrite (code_of_ops _ _ _ _ Hes Ht) in *; apply at_code_app in Hat as [Hat0 Hat].
  pose proof (scratch_nonneg e0) as Hs0.
  assert (Hle : scratch e0 <= scratch e).
  { destruct (is_negation e) eqn:En; [now rewrite (scratch_neg _ _ _ Hes Ht En)|].
    now apply (scratch_ops _ _ _ Hes Ht). }
  eapply (delivers_bind _ _ _ top (4 + scratch e)); [|lia|lia|].
  { apply correct_at; auto; lia. }
  intros m l _ Hw Hh; specialize (Hat m); destruct (is_negation e) eqn:En.
  - apply neg_run; auto; lia.
  - destruct (scratch_ops _ _ _ Hes Ht En) as [_ Hn]; apply chain_run; auto.
    destruct Hlen; congruence.
Qed.

Lemma closed_correct e : closed e -> correct e.
Proof.
  induction e as [e IH] using Expr_induction; intros Hc.
  destruct Hc as [e Ht Hv|e e0 es Ht Hes Hlen Hall]; [now apply literal_run|].
  eapply ops_run; eauto; rewrite Hes in IH; apply Forall_forall; intros x Hx.
  rewrite Forall_forall in IH, Hall; auto.
Qed.

(** ** The meaning of the source *)

Lemma swapped_commutes t l r : commutes t = true -> swapped_op t l r = source_op t l r.
Proof.
  unfold commutes; destruct t; try discriminate; intros _; simpl; f_equal; lia.
Qed.

Lemma chain_value_commutes es os l :
  Forall (fun e => machine_value e = int_value e) es -> forallb commutes os = true ->
  chain_value swapped_op machine_value es os l = chain_value source_op int_value es os l.
Proof.
  intros Hes; revert os l; induction Hes as [|e es He _ IH]; intros os l Hos;
    destruct os as [|t os]; try reflexivity; cbn [chain_value forallb] in *.
  apply andb_true_iff in Hos as [Ht Hos]; rewrite He; destruct (int_value e); try reflexivity.
  rewrite !outcome_bind_ret_l, swapped_commutes by exact Ht.
  destruct (source_op t l a); try reflexivity; rewrite !outcome_bind_ret_l; auto.
Qed.

(** Sums, products and negations mean what the source says. *)
Lemma machine_int_value e : all_ops commutes e = true -> machine_value e = int_value e.
Proof.
  induction e as [e IH] using Expr_induction; destruct e as [a b t w es os]; simpl in *.
  intros [Hops Hes]%andb_true_iff; destruct t; try reflexivity.
  assert (Hall : Forall (fun e => machine_value e = int_value e) es).
  { apply Forall_forall; intros x Hx; rewrite Forall_forall in IH; rewrite forallb_forall in Hes.
    apply IH, Hes, list_elem_of_In; exact Hx. }
  unfold machine_value, int_value in *; cbn [value_with etype_ exprs].
  destruct es as [|e0 es]; [reflexivity|]; apply Forall_cons in Hall as [-> Hall].
  destruct (value_with source_op e0); try reflexivity; rewrite !outcome_bind_ret_l.
  destruct (is_negation _) eqn:En; [reflexivity|]; simpl in Hops.
  now apply chain_value_commutes.
Qed.
