(* ===== verification/Exec.v ===== *)
(** * Exec: the abstract machine of whole programs

    What the compiled program does, told on the syntax tree: a map of variables
    and the printed numbers.  Declarations, assignments and expressions mean what
    they mean in the language; the rest is as far as the compiler goes: the body of
    a [for] runs once, [print] prints its last argument, a call of another function,
    a [return] and a nested function or type do nothing, and an [if] that is reached
    aborts.  The simulation is in Simulation.v and Programs.v. *)

From S2P Require Import Prelude Machine Common Token Ast ParseMonad ExprParser StmtParser Vm.
From S2P Require Import Compiler Codegen.
Import token.

#[local] Set Warnings "-register-all".

(** ** Statements inside statements *)

(** The statements that are compiled with [n]; a nested function is not. *)
Definition inner (n : Node) : list Node :=
  match n with NFunction _ => [] | _ => children n end.

(** All of them, at any depth, in the order of the code. *)
Fixpoint subnodes (n : Node) : list Node :=
  n :: match n with
       | NIf i =>
           mjoin (map (fun b => mjoin (map subnodes (nodes_ b.2))) (branches_ i)) ++
           match tail_else_ i with Some b => mjoin (map subnodes (nodes_ b)) | None => [] end
       | NFor f => mjoin (map subnodes (nodes_ (for_block_ f)))
       | _ => []
       end.

Definition flat (ns : list Node) : list Node := mjoin (map subnodes ns).

Lemma flat_cons n ns : flat (n :: ns) = subnodes n ++ flat ns.
Proof. reflexivity. Qed.

Lemma flat_app ns ms : flat (ns ++ ms) = flat ns ++ flat ms.
Proof. unfold flat; now rewrite map_app, join_app. Qed.

Lemma subnodes_inner n : subnodes n = n :: flat (inner n).
Proof.
  destruct n as [| | |i| | |f|]; try reflexivity; cbn [subnodes inner children]; f_equal.
  rewrite flat_app; f_equal; [|now destruct (tail_else_ i)].
  induction (branches_ i) as [|b bs IH]; cbn [map]; [reflexivity|].
  change (mjoin (?x :: ?l)) with (x ++ mjoin l); now rewrite flat_app, IH.
Qed.

(** ** The abstract machine *)

(** The variables, [None] while nothing was assigned, and what was printed. *)
Record world : Set := mkWorld { env : gmap string (option Z); printed : list Z }.

Definition bind_var (x : string) (z : Z) (w : world) : world := mkWorld (<[x := Some z]> (env w)) (printed w).
Definition declare_var (x : string) (w : world) : world :=
  match env w !! x with Some _ => w | None => mkWorld (<[x := None]> (env w)) (printed w) end.
Definition print_value (z : Z) (w : world) : world := mkWorld (env w) (printed w ++ [z]).

Section Exec.
(** The meaning of the expressions. *)
Variable value : Expr -> outcome Z.

(** Every argument is computed; the last value is what the function sees. *)
Fixpoint exec_args (es : list Expr) (last : option Z) : outcome (option Z) :=
  match es with
  | [] => Done last
  | e :: es => z ← value e; exec_args es (Some z)
  end.

Definition exec_call (name : string) (args : list Expr) (w : world) : outcome world :=
  last ← exec_args args None;
  Done (match last with
        | Some z => if String.eqb name "print" then print_value z w else w
        | None => w
        end).

Definition exec_expr (e : Expr) (w : world) : outcome world :=
  match etype_ e, exprs e with
  | FUNCALL, f :: args => exec_call (str_data_ (v f)) args w
  | FUNCALL, [] => Done w
  | _, _ => _ ← value e; Done w
  end.

Fixpoint exec_node (n : Node) (w : world) : outcome world :=
  match n with
  | NDeclaration d => Done (declare_var (d_var_name d) w)
  | NAssignment a =>
      match env w !! a_var_name a with
      | None => Abort "undeclared variable"
      | Some _ => z ← value (a_expr a); Done (bind_var (a_var_name a) z w)
      end
  | NExpr e => exec_expr e w
  | NFor f => for_each exec_node (nodes_ (for_block_ f)) w
  | NIf _ => Abort "no implement"
  | NFunction _ | NReturn _ | NTypedef _ => Done w
  end.

(** Every function runs once, in the order of the source. *)
Definition exec_func (n : Node) (w : world) : outcome world :=
  match n with
  | NFunction f => for_each exec_node (nodes_ (f_block f)) (mkWorld ∅ (printed w))
  | _ => Done w
  end.

Definition exec_root (r : Root) : outcome world :=
  for_each exec_func (nodes r) (mkWorld ∅ []).
End Exec.

(** ** The programs covered *)

(** The parser builds only such trees. *)
Fixpoint well_shapedb (e : Expr) : bool :=
  forallb well_shapedb (exprs e) &&
  match etype_ e, exprs e, ops e with
  | TOKEN, [], [] => is_atom (type_ (v e))
  | FUNCALL, f :: _, [] => bool_decide (etype_ f = TOKEN)
  | OPS, [t], [token.Sub] => bool_decide (etype_ t = TOKEN)
  | OPS, _ :: _ :: _, _ =>
      (length (ops e) =? length (tl (exprs e)))%nat && forallb op_token (ops e)
  | _, _, _ => false
  end.

(** No variable and no call. *)
Fixpoint closedb (e : Expr) : bool :=
  match etype_ e with
  | TOKEN => bool_decide (type_ (v e) = Int) || bool_decide (type_ (v e) = Float)
  | OPS =>
      match exprs e with
      | [] => false
      | _ :: es =>
          (is_negation e || (length (ops e) =? length es)%nat) && forallb closedb (exprs e)
      end
  | FUNCALL => false
  end.

(** The expressions a statement computes. *)
Definition expr_values (e : Expr) : list Expr :=
  match etype_ e, exprs e with
  | FUNCALL, _ :: args => args
  | FUNCALL, [] => []
  | _, _ => [e]
  end.

Definition node_exprs (n : Node) : list Expr :=
  match n with NAssignment a => [a_expr a] | NExpr e => expr_values e | _ => [] end.

(** [print] without an argument prints what is left in the frame. *)
Definition bare_print (e : Expr) : bool :=
  match etype_ e, exprs e with
  | FUNCALL, [f] => String.eqb (str_data_ (v f)) "print"
  | _, _ => false
  end.

(** One statement, apart from those inside it. *)
Definition plain (n : Node) : bool :=
  match n with
  | NDeclaration d =>
      match var_type d with Some t => String.eqb (vt_name_ t) "int" | None => false end
  | NAssignment a => well_shapedb (a_expr a) && closedb (a_expr a)
  | NExpr e => well_shapedb e && forallb closedb (expr_values e) && negb (bare_print e)
  | _ => true
  end.

(** The stack and the labels that statements may need. *)
Definition total (g : Node -> Z) (ns : list Node) : Z := foldr (fun n s => g n + s) 0 (flat ns).

Definition cost (n : Node) : Z := 4 + foldr (fun e s => 4 + scratch e + s) 0 (node_exprs n).
Definition is_if (n : Node) : Z := match n with NIf _ => 1 | _ => 0 end.

Definition need : list Node -> Z := total cost.
Definition ifs : list Node -> Z := total is_if.

(** The variables declared so far; assignments are to variables declared before. *)
Fixpoint scope (n : Node) (vars : gset string) : outcome (gset string) :=
  match n with
  | NDeclaration d => Done ({[d_var_name d]} ∪ vars)
  | NAssignment a => _ ← assert_ (bool_decide (a_var_name a ∈ vars)) "undeclared variable"; Done vars
  | NIf i =>
      vars ← for_each (fun b => for_each scope (nodes_ b.2)) (branches_ i) vars;
      match tail_else_ i with Some b => for_each scope (nodes_ b) vars | None => Done vars end
  | NFor f => for_each scope (nodes_ (for_block_ f)) vars
  | _ => Done vars
  end.

Definition scoped (ns : list Node) : bool :=
  match for_each scope ns ∅ with Done _ => true | _ => false end.

(** The top level: functions of such statements, types that are not called [int],
    and whatever the compiler skips. *)
Definition supported (n : Node) : bool :=
  match n with
  | NFunction f =>
      forallb plain (flat (nodes_ (f_block f))) && scoped (nodes_ (f_block f)) &&
      (need (nodes_ (f_block f)) <=? MAX_STACK)
  | NTypedef t => negb (String.eqb (new_name_ t) "int")
  | _ => true
  end.

Definition root_ifs (r : Root) : Z :=
  foldr (fun n s => match n with NFunction f => ifs (nodes_ (f_block f)) | _ => 0 end + s) 0 (nodes r).

(** Every operator is [+] or [*]. *)
Definition node_commutes (n : Node) : bool :=
  match n with
  | NFunction f =>
      forallb (fun n => forallb (all_ops commutes) (node_exprs n)) (flat (nodes_ (f_block f)))
  | _ => true
  end.

(** ** Lemmas *)

Lemma well_shapedb_ok e : well_shapedb e = true -> well_shaped e.
Proof.
  induction e as [e IH] using Expr_induction; intros H.
  assert (Hall : forallb well_shapedb (exprs e) = true -> Forall well_shaped (exprs e)).
  { rewrite forallb_forall; intros Hb; apply Forall_forall; intros x Hx.
    rewrite Forall_forall in IH; now apply IH, Hb, list_elem_of_In. }
  destruct e as [a b t w es os]; simpl in *; apply andb_true_iff in H as [H1 H2].
  specialize (Hall H1); destruct t, es as [|e0 [|e1 es]], os as [|o [|o' os]];
    try discriminate; try (destruct o; discriminate).
  all: try (now apply ws_token); try (apply bool_decide_eq_true in H2; now eapply ws_call; simpl; eauto).
  all: try (destruct o; try discriminate; apply bool_decide_eq_true in H2; eapply ws_neg; simpl; eauto;
            now apply Forall_cons in Hall as [? _]).
  all: apply andb_true_iff in H2 as [Hl%Nat.eqb_eq Ho]; eapply ws_ops; simpl in *; eauto; discriminate.
Qed.

Lemma closedb_ok e : closedb e = true -> closed e.
Proof.
  induction e as [e IH] using Expr_induction; destruct e as [a b t w es os]; intros H.
  cbn [closedb etype_] in H; destruct t; [|destruct es as [|e0 es]; [discriminate|]|discriminate].
  - apply closed_lit; [reflexivity|]; apply orb_true_iff in H as [H|H];
      apply bool_decide_eq_true in H; auto.
  - cbn [exprs ops] in H; apply andb_true_iff in H as [H1 H2].
    eapply closed_ops; [reflexivity..| |].
    + apply orb_true_iff in H1 as [H1|H1]; [left; exact H1|right; now apply Nat.eqb_eq].
    + rewrite forallb_forall in H2; apply Forall_forall; intros x Hx; simpl in IH.
      rewrite Forall_forall in IH; now apply IH, H2, list_elem_of_In.
Qed.

Lemma forallb_closed es : forallb closedb es = true -> Forall closed es.
Proof.
  rewrite forallb_forall; intros H; apply Forall_forall; intros e He.
  now apply closedb_ok, H, list_elem_of_In.
Qed.

Lemma total_cons g n ns : total g (n :: ns) = g n + total g (inner n) + total g ns.
Proof.
  unfold total; rewrite flat_cons, subnodes_inner; simpl; rewrite foldr_app.
  assert (H : forall l x, foldr (fun n s => g n + s) x l = foldr (fun n s => g n + s) 0 l + x).
  { induction l as [|m l IH]; intros x; simpl; [reflexivity|]; rewrite IH; lia. }
  rewrite H; lia.
Qed.

Lemma total_one g n : total g [n] = g n + total g (inner n).
Proof. rewrite total_cons; change (total g []) with 0; lia. Qed.

Lemma total_nonneg g ns : (forall n, 0 <= g n) -> 0 <= total g ns.
Proof. intros Hg; unfold total; induction (flat ns) as [|n l IH]; simpl; [lia|]; specialize (Hg n); lia. Qed.

Lemma cost_exprs n : Forall (fun e => 4 + scratch e <= cost n - 4) (node_exprs n) /\ 4 <= cost n.
Proof.
  unfold cost; generalize (node_exprs n) as es; intros es.
  assert (H : 0 <= foldr (fun e s => 4 + scratch e + s) 0 es).
  { induction es as [|e es IH]; simpl; [lia|]; pose proof (scratch_nonneg e); lia. }
  split; [|lia]; clear H; induction es as [|e es IH]; constructor.
  - assert (H : forall l, 0 <= foldr (fun e s => 4 + scratch e + s) 0 l).
    { induction l as [|x l IHl]; simpl; [lia|]; pose proof (scratch_nonneg x); lia. }
    specialize (H es); simpl; lia.
  - eapply Forall_impl; [exact IH|]; intros x Hx; simpl; pose proof (scratch_nonneg e); simpl in Hx; lia.
Qed.

Lemma cost_pos n : 4 <= cost n.
Proof. apply cost_exprs. Qed.

Lemma is_if_nonneg n : 0 <= is_if n.
Proof. destruct n; simpl; lia. Qed.

Lemma need_nonneg ns : 0 <= need ns.
Proof. apply total_nonneg; intros n; pose proof (cost_pos n); lia. Qed.

Lemma ifs_nonneg ns : 0 <= ifs ns.
Proof. apply total_nonneg, is_if_nonneg. Qed.

Lemma for_each_app {A S} (f : A -> S -> outcome S) l k s :
  for_each f (l ++ k) s = for_each f l s ≫= for_each f k.
Proof.
  revert s; induction l as [|x l IH]; intros s; cbn [app for_each]; [now rewrite outcome_bind_ret_l|].
  destruct (f x s); [|reflexivity..]; now rewrite !outcome_bind_ret_l, IH.
Qed.

(** The blocks of an [if], one after the other. *)
Lemma if_children {S} (f : Node -> S -> outcome S) i s :
  (s ← for_each (fun b => for_each f (nodes_ b.2)) (branches_ i) s;
   match tail_else_ i with Some b => for_each f (nodes_ b) s | None => Done s end) =
  for_each f (children (NIf i)) s.
Proof.
  cbn [children]; rewrite for_each_app.
  assert (H : for_each (fun b => for_each f (nodes_ b.2)) (branches_ i) s =
              for_each f (mjoin (map (fun b => nodes_ b.2) (branches_ i))) s).
  { revert s; induction (branches_ i) as [|b bs IH]; intros s; cbn [for_each map]; [reflexivity|].
    change (mjoin (?x :: ?l)) with (x ++ mjoin l); rewrite for_each_app.
    destruct (for_each f (nodes_ b.2) s); [|reflexivity..]; rewrite !outcome_bind_ret_l; apply IH. }
  rewrite H; destruct (for_each f (mjoin _) s); [|reflexivity..]; rewrite !outcome_bind_ret_l.
  now destruct (tail_else_ i).
Qed.

Lemma for_each_skip {A S} (f : A -> S -> outcome S) l s :
  Forall (fun x => forall s, f x s = Done s) l -> for_each f l s = Done s.
Proof. induction 1 as [|x l Hx _ IH]; cbn [for_each]; [reflexivity|]; now rewrite Hx. Qed.

Lemma for_each_ext {A S} (f g : A -> S -> outcome S) l s :
  (forall x s, x ∈ l -> f x s = g x s) -> for_each f l s = for_each g l s.
Proof.
  revert s; induction l as [|x l IH]; intros s H; cbn [for_each]; [reflexivity|].
  rewrite H by now left.
  destruct (g x s); [|reflexivity..]; rewrite !outcome_bind_ret_l; apply IH; intros; apply H; now right.
Qed.
