(* ===== verification/Pipeline.v ===== *)
(** * Pipeline: what the compiler and the abstract machine see of a tree

    Locations play no role behind the parser: everything that says which programs
    are covered and what they do is the same for a tree and for the tree without
    locations.  So what was proved of a tree holds of whatever the parser builds
    from a source with its tokens. *)

From S2P Require Import Prelude Machine Common Token Ast ParseMonad ExprParser StmtParser TokenView Grammar.
From S2P Require Import Compiler Codegen Exec.
Import token.

#[local] Set Warnings "-register-all".

(** ** Expressions *)

Lemma forallb_same {A} (g : A -> A) (p : A -> bool) l : Forall (fun x => p (g x) = p x) l ->
  forallb p (map g l) = forallb p l.
Proof. induction 1 as [|x l Hx _ IH]; simpl; [reflexivity|]; now rewrite Hx, IH. Qed.

Lemma foldr_same {A} (g : A -> A) (h : A -> Z) (op : Z -> Z -> Z) z l : Forall (fun x => h (g x) = h x) l ->
  foldr op z (map h (map g l)) = foldr op z (map h l).
Proof. induction 1 as [|x l Hx _ IH]; simpl; [reflexivity|]; now rewrite Hx, IH. Qed.

Lemma negation_bare e : is_negation (Expr_bare e) = is_negation e.
Proof.
  destruct e as [a b t w es os]; unfold is_negation; simpl; apply bool_decide_ext.
  now destruct es as [|e0 [|e1 es]].
Qed.

Lemma all_ops_bare p e : all_ops p (Expr_bare e) = all_ops p e.
Proof.
  induction e as [e IH] using Expr_induction; pose proof (negation_bare e) as Hn.
  destruct e as [a b t w es os]; cbn [Expr_bare all_ops exprs ops etype_ v] in *; rewrite Hn.
  now rewrite (forallb_same Expr_bare (all_ops p)).
Qed.

Lemma chain_value_bare op f es os l : Forall (fun e => f (Expr_bare e) = f e) es ->
  chain_value op f (map Expr_bare es) os l = chain_value op f es os l.
Proof.
  intros Hes; revert os l; induction Hes as [|e es He _ IH]; intros [|t os] l; simpl; try reflexivity.
  rewrite He; destruct (f e) as [r| | |]; try reflexivity; rewrite !outcome_bind_ret_l.
  destruct (op t l r); try reflexivity; rewrite !outcome_bind_ret_l; apply IH.
Qed.

Lemma value_bare op e : value_with op (Expr_bare e) = value_with op e.
Proof.
  induction e as [e IH] using Expr_induction; pose proof (negation_bare e) as Hn.
  destruct e as [a b t w es os]; cbn [Expr_bare value_with exprs ops etype_ v] in *; rewrite Hn.
  destruct t; [reflexivity| |reflexivity]; destruct es as [|e0 es]; [reflexivity|].
  apply Forall_cons in IH as [H0 IH]; cbn [map]; rewrite H0.
  destruct (value_with op e0); try reflexivity; rewrite !outcome_bind_ret_l.
  now rewrite chain_value_bare.
Qed.

Lemma scratch_bare e : scratch (Expr_bare e) = scratch e.
Proof.
  induction e as [e IH] using Expr_induction; pose proof (negation_bare e) as Hn.
  destruct e as [a b t w es os]; cbn [Expr_bare scratch exprs ops etype_ v] in *; rewrite Hn.
  destruct t; [reflexivity| |now apply foldr_same]; destruct es as [|e0 es]; [reflexivity|].
  apply Forall_cons in IH as [H0 IH]; cbn [map]; rewrite H0; repeat f_equal.
  rewrite (foldr_same Expr_bare (fun e => 4 + scratch e)); [reflexivity|].
  eapply Forall_impl; [exact IH|]; simpl; intros x ->; reflexivity.
Qed.

Lemma well_shapedb_bare e : well_shapedb (Expr_bare e) = well_shapedb e.
Proof.
  induction e as [e IH] using Expr_induction.
  destruct e as [a b t w es os]; cbn [Expr_bare well_shapedb exprs ops etype_ v] in *.
  rewrite (forallb_same Expr_bare well_shapedb) by exact IH; f_equal.
  assert (He : forall e, etype_ (Expr_bare e) = etype_ e) by now intros [].
  destruct t, es as [|e0 [|e1 es]], os as [|o [|o' os]]; cbn [map tl length]; rewrite ?He, ?length_map; reflexivity.
Qed.

Lemma closedb_bare e : closedb (Expr_bare e) = closedb e.
Proof.
  induction e as [e IH] using Expr_induction; pose proof (negation_bare e) as Hn.
  destruct e as [a b t w es os]; cbn [Expr_bare closedb exprs ops etype_ v] in *; rewrite Hn.
  destruct t; [reflexivity| |reflexivity]; destruct es as [|e0 es]; [reflexivity|].
  rewrite (forallb_same Expr_bare closedb) by exact IH; cbn [map]; now rewrite length_map.
Qed.

Lemma expr_values_bare e : expr_values (Expr_bare e) = map Expr_bare (expr_values e).
Proof. destruct e as [a b t w es os]; unfold expr_values; simpl; now destruct t, es. Qed.

Lemma bare_print_bare e : bare_print (Expr_bare e) = bare_print e.
Proof. destruct e as [a b t w es os]; unfold bare_print; simpl; destruct t, es as [|[] []]; reflexivity. Qed.

Lemma exec_args_bare value es : (forall e, value (Expr_bare e) = value e) -> forall last,
  exec_args value (map Expr_bare es) last = exec_args value es last.
Proof.
  intros Hv; induction es as [|e es IH]; intros last; cbn [map exec_args]; [reflexivity|].
  rewrite Hv; destruct (value e); try reflexivity; rewrite !outcome_bind_ret_l; apply IH.
Qed.

Lemma exec_expr_bare value e w : (forall e, value (Expr_bare e) = value e) ->
  exec_expr value (Expr_bare e) w = exec_expr value e w.
Proof.
  intros Hv; pose proof (Hv e) as He; destruct e as [a b t x es os]; unfold exec_expr.
  cbn [Expr_bare etype_ exprs v] in *; destruct t; cbn [map]; rewrite ?He; try reflexivity.
  destruct es as [|f args]; cbn [map]; [reflexivity|]; unfold exec_call.
  rewrite exec_args_bare by exact Hv; now destruct f.
Qed.

(** ** Statements *)

Lemma inner_bare n : inner (Node_bare n) = map Node_bare (inner n).
Proof.
  destruct n as [| | |i| | |f|]; try reflexivity; cbn [inner Node_bare children branches_ tail_else_].
  rewrite map_app; f_equal; [|now destruct (tail_else_ i)].
  induction (branches_ i) as [|b bs IH]; cbn [map]; [reflexivity|].
  change (mjoin (?x :: ?l)) with (x ++ mjoin l); rewrite map_app, IH; reflexivity.
Qed.

Lemma flat_map_bare ns : Forall (fun n => subnodes (Node_bare n) = map Node_bare (subnodes n)) ns ->
  flat (map Node_bare ns) = map Node_bare (flat ns).
Proof.
  induction 1 as [|n ns Hn _ IH]; [reflexivity|]; cbn [map]; now rewrite !flat_cons, map_app, Hn, IH.
Qed.

Lemma subnodes_bare n : subnodes (Node_bare n) = map Node_bare (subnodes n).
Proof.
  induction n as [n IH] using Node_induction; rewrite !subnodes_inner; cbn [map]; f_equal.
  rewrite inner_bare; apply flat_map_bare; destruct n; try exact IH; constructor.
Qed.

Lemma flat_bare ns : flat (map Node_bare ns) = map Node_bare (flat ns).
Proof. apply flat_map_bare, Forall_forall; intros n _; apply subnodes_bare. Qed.

Lemma node_exprs_bare n : node_exprs (Node_bare n) = map Expr_bare (node_exprs n).
Proof. destruct n; try reflexivity; apply expr_values_bare. Qed.

Lemma plain_bare n : plain (Node_bare n) = plain n.
Proof.
  destruct n as [d|a|e| | | | |]; try reflexivity; cbn [Node_bare plain].
  - destruct d as [? ? ? [[]|] ?]; reflexivity.
  - cbn [Assignment_bare a_expr]; now rewrite well_shapedb_bare, closedb_bare.
  - rewrite well_shapedb_bare, bare_print_bare, expr_values_bare.
    rewrite (forallb_same Expr_bare closedb); [reflexivity|].
    apply Forall_forall; intros x _; apply closedb_bare.
Qed.

Lemma cost_bare n : cost (Node_bare n) = cost n.
Proof.
  unfold cost; rewrite node_exprs_bare; f_equal; induction (node_exprs n) as [|e es IH]; simpl; [reflexivity|].
  now rewrite scratch_bare, IH.
Qed.

Lemma total_bare g ns : (forall n, g (Node_bare n) = g n) -> total g (map Node_bare ns) = total g ns.
Proof.
  intros Hg; unfold total; rewrite flat_bare; induction (flat ns) as [|n l IH]; simpl; [reflexivity|].
  now rewrite Hg, IH.
Qed.

Lemma for_each_map {A S} (g : A -> A) (f : A -> S -> outcome S) l s :
  Forall (fun x => forall s, f (g x) s = f x s) l -> for_each f (map g l) s = for_each f l s.
Proof.
  intros Hl; revert s; induction Hl as [|x l Hx _ IH]; intros s; cbn [map for_each]; [reflexivity|].
  rewrite Hx; destruct (f x s); try reflexivity; rewrite !outcome_bind_ret_l; apply IH.
Qed.

Lemma scope_bare n : forall vars, scope (Node_bare n) vars = scope n vars.
Proof.
  induction n as [n IH] using Node_induction; intros vars; destruct n as [d|a|e|i|f|r|f|t]; try reflexivity.
  - assert (Hc : children (Node_bare (NIf i)) = map Node_bare (children (NIf i))) by exact (inner_bare (NIf i)).
    transitivity (for_each scope (children (Node_bare (NIf i))) vars); [exact (if_children scope _ vars)|].
    transitivity (for_each scope (children (NIf i)) vars); [|symmetry; exact (if_children scope i vars)].
    rewrite Hc; now apply for_each_map.
  - cbn [scope Node_bare for_block_ Block_bare_with nodes_]; now apply for_each_map.
Qed.

Lemma exec_node_bare value n : (forall e, value (Expr_bare e) = value e) -> forall w,
  exec_node value (Node_bare n) w = exec_node value n w.
Proof.
  intros Hv; induction n as [n IH] using Node_induction; intros w; destruct n as [d|a|e|i|f|r|f|t]; try reflexivity.
  - cbn [exec_node Node_bare Assignment_bare a_var_name a_expr]; now rewrite Hv.
  - now apply exec_expr_bare.
  - cbn [exec_node Node_bare for_block_ Block_bare_with nodes_]; now apply for_each_map.
Qed.

(** ** Programs *)

Lemma scoped_bare ns : scoped (map Node_bare ns) = scoped ns.
Proof.
  unfold scoped; rewrite for_each_map; [reflexivity|]; apply Forall_forall; intros n _; apply scope_bare.
Qed.

Lemma supported_bare n : supported (Node_bare n) = supported n.
Proof.
  destruct n as [| | | |f| | |]; try reflexivity; cbn [supported Node_bare f_block Block_bare_with nodes_].
  rewrite flat_bare, scoped_bare; unfold need; rewrite total_bare by exact cost_bare.
  rewrite (forallb_same Node_bare plain); [reflexivity|]; apply Forall_forall; intros n _; apply plain_bare.
Qed.

Lemma node_commutes_bare n : node_commutes (Node_bare n) = node_commutes n.
Proof.
  destruct n as [| | | |f| | |]; try reflexivity; cbn [node_commutes Node_bare f_block Block_bare_with nodes_].
  rewrite flat_bare; apply forallb_same, Forall_forall; intros n _; rewrite node_exprs_bare.
  apply forallb_same, Forall_forall; intros e _; apply all_ops_bare.
Qed.

Lemma exec_func_bare n w : exec_func int_value (Node_bare n) w = exec_func int_value n w.
Proof.
  destruct n as [| | | |f| | |]; try reflexivity; cbn [exec_func Node_bare f_block Block_bare_with nodes_].
  apply for_each_map, Forall_forall; intros n _ w'; apply exec_node_bare, value_bare.
Qed.

(** What is seen of a program. *)
Record same_program (r q : Root) : Prop := {
  same_supported : forallb supported (nodes r) = forallb supported (nodes q);
  same_ifs : root_ifs r = root_ifs q;
  same_commutes : forallb node_commutes (nodes r) = forallb node_commutes (nodes q);
  same_meaning : exec_root int_value r = exec_root int_value q;
}.

#[export] Instance same_program_equivalence : Equivalence same_program.
Proof.
  split; [now split|intros r q []; split; congruence|intros r q p [] []; split; congruence].
Qed.

Lemma same_program_bare r : same_program (Root_bare r) r.
Proof.
  assert (H : forall p : Node -> bool, (forall n, p (Node_bare n) = p n) ->
      forallb p (nodes (Root_bare r)) = forallb p (nodes r)).
  { intros p Hp; apply (forallb_same Node_bare), Forall_forall; intros n _; apply Hp. }
  split; [apply H, supported_bare| |apply H, node_commutes_bare|].
  - unfold root_ifs; cbn [Root_bare nodes block_ Block_bare Block_bare_with nodes_].
    change (nodes r) with (nodes_ (block_ r)); induction (nodes_ (block_ r)) as [|n ns IH]; [reflexivity|].
    cbn [map foldr]; rewrite IH; f_equal; destruct n as [| | | |f| | |]; try reflexivity.
    cbn [Node_bare f_block Block_bare_with nodes_]; apply total_bare; now intros [].
  - unfold exec_root; apply (for_each_map Node_bare), Forall_forall; intros n _ w; apply exec_func_bare.
Qed.

(** Trees that differ in locations only are the same program. *)
Lemma same_program_of r q : Root_bare r = Root_bare q -> same_program r q.
Proof. intros E; rewrite <- (same_program_bare r), E; apply same_program_bare. Qed.
