(* ===== verification/Simulation.v ===== *)
(** * Simulation: the code of statements does what the abstract machine does

    The invariant [related] ties the compiler's table of variables to the abstract
    environment and to the bytes of the frame; [simulates] says that code takes
    related states to related states, or fails as the abstract machine does. *)

From S2P Require Import Prelude Machine Common Token Ast ParseMonad ExprParser StmtParser Memory Vm.
From S2P Require Import Compiler Types Codegen CodegenRun Exec.
Import token.

#[local] Set Warnings "-register-all".

(** ** The invariant *)

Definition int_line (z : Z) : string := (pretty z +:+ newline)%string.

Definition slot_of (f : CompilingFunc) (x : string) (a : Z) : Prop :=
  exists vi, var_address_map f !! x = Some vi /\ vi_size vi = Some 4 /\ vi_address vi = Some a /\
    0 <= a /\ a + 4 <= cur_stack_top f.

Record related (f : CompilingFunc) (w : world) (vm : ByteCodeVM) : Prop := {
  rel_top : 0 <= cur_stack_top f /\ 0 <= stack_top_ vm;
  rel_dom : forall x, is_Some (env w !! x) <-> exists a, slot_of f x a;
  rel_fresh : forall x, env w !! x = None -> var_address_map f !! x = None;
  rel_disjoint : forall x y a b, x <> y -> slot_of f x a -> slot_of f y b -> a + 4 <= b \/ b + 4 <= a;
  rel_value : forall x z a, env w !! x = Some (Some z) -> slot_of f x a -> holds vm (stack_ vm) a z;
  rel_output : output vm = rev (map int_line (printed w));
}.

(** The machine after [n] instructions of straight-line code. *)
Record after (n : nat) (vm vm' : ByteCodeVM) : Prop := {
  after_program : program_ vm' = program_ vm;
  after_pc : pc_ vm' = pc_ vm + Z.of_nat n;
  after_finished : finished_ vm' = finished_ vm;
  after_top : stack_top_ vm' = stack_top_ vm;
}.

Lemma after_moved n m vm : after n vm (moved n m vm).
Proof. now split. Qed.

Lemma after_trans n k vm vm' vm'' : after n vm vm' -> after k vm' vm'' -> after (n + k) vm vm''.
Proof. intros [] []; split; try congruence; lia. Qed.

Lemma at_code_after vm vm' l k : at_code vm (l ++ k) -> after (length l) vm vm' -> at_code vm' k.
Proof.
  intros [_ H]%at_code_app [Hp Hpc Hf _].
  destruct (H ∅) as (pre & post & Hi & Hpc' & Hf' & Hl); exists pre, post; simpl in *.
  rewrite Hp, Hpc, Hf; auto.
Qed.

(** What a run does when the abstract machine fails. *)
Definition fails {A B} (o : outcome A) (r : outcome B) : Prop :=
  match o with
  | Undef flt => r = Undef flt
  | Abort t => r = Abort t
  | _ => False
  end.

(** [code] runs the abstract step [step] from [w], and goes from the function
    [f] to [f'] in the compiler. *)
Definition simulates (f f' : CompilingFunc) (code : list Instruction) (bytes : Z)
    (step : world -> outcome world) : Prop :=
  forall vm w, related f w vm -> stack_top_ vm + cur_stack_top f + bytes <= MAX_STACK ->
    at_code vm code ->
    match step w with
    | Done w' => exists vm', Run (length code) vm = Done vm' /\ after (length code) vm vm' /\
                   related f' w' vm'
    | o => fails o (Run (length code) vm)
    end.

Lemma fails_app {A} (o : outcome A) l k vm : fails o (Run (length l) vm) ->
  fails o (Run (length (l ++ k : list Instruction)) vm).
Proof.
  intros H; rewrite length_app, Run_add; destruct o; cbn [fails] in *; try contradiction; now rewrite H.
Qed.

Lemma fails_bind {A B} (o : outcome A) (k : A -> outcome B) {C} (r : outcome C) :
  match o with Done _ => False | _ => True end -> fails o r -> fails (o ≫= k) r.
Proof. now destruct o. Qed.

(** ** Moves *)

Definition moves (dst from : Z) (k n : nat) : list Instruction :=
  map (fun i => mkInst Move (base STACK_TOP (dst + Z.of_nat i)) (base STACK_TOP (from + Z.of_nat i)) 0)
    (seq k n).

Lemma move_loop_appended n k dst from f : 0 <= dst -> 0 <= from ->
  dst + Z.of_nat (k + n) <= INT_MAX -> from + Z.of_nat (k + n) <= INT_MAX ->
  move_loop n (Z.of_nat k) dst from f = Done (appended (moves dst from k n) f).
Proof.
  revert k f; induction n as [|n IH]; intros k f Hd Hf H1 H2; cbn [move_loop].
  { now rewrite appended_nil. }
  assert (Hc : forall x, 0 <= x -> x + Z.of_nat (k + S n) <= INT_MAX ->
    checked_s 32 (x + Z.of_nat k) = Done (x + Z.of_nat k)).
  { intros x Hx Hle; apply checked_s_done; rewrite in_s_spec; unfold INT_MAX in *; lia. }
  rewrite !Hc, !outcome_bind_ret_l by assumption.
  replace (Z.of_nat k + 1) with (Z.of_nat (S k)) by lia; rewrite IH by lia.
  f_equal; exact (appended_app [_] _ f).
Qed.

Lemma addMoveInsts_appended dst from n f : 0 <= dst -> 0 <= from ->
  dst + Z.of_nat n <= INT_MAX -> from + Z.of_nat n <= INT_MAX ->
  addMoveInsts dst from (Z.of_nat n) f = Done (appended (moves dst from 0 n) f).
Proof.
  intros; unfold addMoveInsts; rewrite Nat2Z.id; exact (move_loop_appended n 0 dst from f
    ltac:(assumption) ltac:(assumption) ltac:(assumption) ltac:(assumption)).
Qed.

Lemma move_one vm d s : room vm d 1 -> room vm s 1 ->
  at_code vm [mkInst Move (base STACK_TOP d) (base STACK_TOP s) 0] ->
  Run 1 vm = Done (moved 1 (store (stack_top_ vm + d)
    [load_byte (stack_ vm) (stack_top_ vm + s)] (stack_ vm)) vm).
Proof.
  intros Hd Hs Hat; rewrite (run_one _ _ Hat); unfold step; cbn [op arg0 arg1].
  rewrite (read_slot vm s 1 Hs), outcome_bind_ret_l; cbn [load].
  rewrite write_slot by exact Hd; rewrite outcome_bind_ret_l.
  now rewrite (advance_moved _ _ _ Hat).
Qed.

(** Moving a block down copies it. *)
Lemma moves_run dst from n k vm : dst + Z.of_nat (k + n) <= from + Z.of_nat k ->
  0 <= dst -> room vm from (Z.of_nat (k + n)) -> at_code vm (moves dst from k n) ->
  Run n vm = Done (moved n (store (stack_top_ vm + dst + Z.of_nat k)
    (load n (stack_top_ vm + from + Z.of_nat k) (stack_ vm)) (stack_ vm)) vm).
Proof.
  revert k vm; induction n as [|n IH]; intros k vm Hsep Hd Hr Hat.
  { cbn [Run load store]; now rewrite moved_0. }
  change (moves dst from k (S n)) with
    ([mkInst Move (base STACK_TOP (dst + Z.of_nat k)) (base STACK_TOP (from + Z.of_nat k)) 0] ++
     moves dst from (S k) n) in Hat.
  apply at_code_app in Hat as [Hat1 Hat2].
  assert (Hr1 : room vm (dst + Z.of_nat k) 1) by (unfold room in *; lia).
  assert (Hr2 : room vm (from + Z.of_nat k) 1) by (unfold room in *; lia).
  change (S n) with (1 + n)%nat; rewrite Run_add, (move_one vm _ _ Hr1 Hr2 Hat1), outcome_bind_ret_l.
  cbn [length] in Hat2; rewrite (IH (S k)); [|lia|exact Hd|unfold room in *; simpl; lia|apply Hat2].
  rewrite moved_moved; do 2 f_equal; unfold moved; simpl stack_top_; simpl stack_.
  cbn [load store Nat.add]; rewrite !Z.add_assoc.
  replace (stack_top_ vm + dst + Z.of_nat (S k)) with (stack_top_ vm + dst + Z.of_nat k + 1) by lia.
  replace (stack_top_ vm + from + Z.of_nat (S k)) with (stack_top_ vm + from + Z.of_nat k + 1) by lia.
  f_equal; symmetry; apply load_ext; intros c Hc; rewrite load_byte_insert, decide_False by lia.
  reflexivity.
Qed.

(** ** The statements *)

(** The world is still right when the bytes above the frame change. *)
Lemma related_above f w vm n vm' : related f w vm -> after n vm vm' -> output vm' = output vm ->
  (forall a, a < stack_top_ vm + cur_stack_top f -> load_byte (stack_ vm') a = load_byte (stack_ vm) a) ->
  related f w vm'.
Proof.
  intros [Ht Hd Hfr Hdis Hv Ho] [_ _ _ Htop] Hout Hmem; split; auto.
  - now rewrite Htop.
  - intros x z a Hx Ha; destruct (Hv x z a Hx Ha) as [Hz Hl]; split; [exact Hz|].
    rewrite Htop, <- Hl; apply load_ext; intros c Hc; apply Hmem.
    destruct Ha as (vi & _ & _ & _ & _ & ?); lia.
  - now rewrite Hout.
Qed.

Lemma slot_appended code f x a : slot_of (appended code f) x a <-> slot_of f x a.
Proof. reflexivity. Qed.

Lemma related_appended code f w vm : related f w vm -> related (appended code f) w vm.
Proof. intros []; split; auto. Qed.

Lemma slot_unique f x a b : slot_of f x a -> slot_of f x b -> a = b.
Proof. intros (v & H & _ & Ha & _) (v' & H' & _ & Hb & _); congruence. Qed.

(** Room for the code of an expression at the top of the frame. *)
Lemma room_expr f w vm e n : related f w vm -> 4 + scratch e <= n ->
  stack_top_ vm + cur_stack_top f + n <= MAX_STACK ->
  room vm (cur_stack_top f) (4 + scratch e) /\ fits (cur_stack_top f) e.
Proof.
  intros [[Ht1 Ht2] _ _ _ _ _] Hn Hm; pose proof (scratch_nonneg e).
  unfold room, fits, MAX_STACK, INT_MAX in *; lia.
Qed.

(** The code of an expression leaves its value at the top of the frame. *)
Lemma value_run f w vm e n : closed e -> related f w vm -> 4 + scratch e <= n ->
  stack_top_ vm + cur_stack_top f + n <= MAX_STACK -> at_code vm (code_of (cur_stack_top f) e) ->
  let code := code_of (cur_stack_top f) e in
  match machine_value e with
  | Done z => exists m, Run (length code) vm = Done (moved (length code) m vm) /\
      related f w (moved (length code) m vm) /\ holds vm m (cur_stack_top f) z
  | o => fails o (Run (length code) vm)
  end.
Proof.
  intros He Hrel Hn Hroom Hat code.
  destruct (room_expr f w vm e _ Hrel Hn Hroom) as [Hr _].
  pose proof (closed_correct e He vm _ Hat Hr) as Hrun.
  destruct (machine_value e) as [z|flt|?|]; cbn [delivers] in Hrun; try contradiction; [|exact Hrun].
  destruct Hrun as (m & Hrun & Hw & Hh); exists m; split_and!; [exact Hrun| |exact Hh].
  apply (related_above f w vm (length code)); auto using after_moved.
  intros a Ha; apply Hw; lia.
Qed.

(** Storing a variable's value in its slot. *)
Lemma related_store f w vm x a z n : related f w vm -> slot_of f x a -> in_s 32 z = true ->
  related f (bind_var x z w) (moved n (store (stack_top_ vm + a) (le_bytes 4 z) (stack_ vm)) vm).
Proof.
  intros Hrel Hx Hz; pose proof Hx as (vi & Hvi & _).
  destruct Hrel as [Ht Hd Hfr Hdis Hv Ho]; split; auto.
  - intros y; cbn [bind_var env]; destruct (decide (x = y)) as [<-|Hne].
    + rewrite lookup_insert_eq; split; [eauto|now eexists].
    + rewrite lookup_insert_ne by assumption; apply Hd.
  - intros y; cbn [bind_var env]; destruct (decide (x = y)) as [<-|Hne];
      [now rewrite lookup_insert_eq|rewrite lookup_insert_ne by assumption; apply Hfr].
  - intros y z' b; cbn [bind_var env]; destruct (decide (x = y)) as [<-|Hne].
    + rewrite lookup_insert_eq; intros [= <-] Hb; rewrite (slot_unique _ _ _ _ Hb Hx).
      now apply (store_holds vm).
    + rewrite lookup_insert_ne by assumption; intros Hy Hb.
      apply (holds_within vm a 4 (stack_ vm)); [exact (within_store vm a (le_bytes 4 z) _)| |now apply (Hv y)].
      destruct (Hdis x y a b Hne Hx Hb); lia.
Qed.

Lemma assign_sim f e x a n : closed e -> slot_of f x a -> 4 + scratch e <= n ->
  simulates f (appended (code_of (cur_stack_top f) e ++ moves a (cur_stack_top f) 0 4) f)
    (code_of (cur_stack_top f) e ++ moves a (cur_stack_top f) 0 4) n
    (fun w => z ← machine_value e; Done (bind_var x z w)).
Proof.
  intros He Hx Hn vm w Hrel Hroom Hat; set (top := cur_stack_top f) in *.
  apply at_code_app in Hat as [Hat1 Hat2].
  pose proof (value_run f w vm e n He Hrel Hn Hroom Hat1) as Hrun; fold top in Hrun.
  destruct (machine_value e) as [z|flt|?|]; try (now apply fails_app).
  destruct Hrun as (m & Hrun & Hrel' & Hz & Hl); rewrite outcome_bind_ret_l.
  rewrite (run_app _ _ _ _ Hrun); change (length (moves a top 0 4)) with 4%nat.
  pose proof Hx as (vi & Hvi & Hsz & Had & Ha0 & Hatop); fold top in Hatop.
  assert (H4 : room (moved (length (code_of top e)) m vm) top (Z.of_nat (0 + 4))).
  { pose proof (scratch_nonneg e); pose proof (rel_top _ _ _ Hrel) as [H0 ?]; fold top in H0.
    unfold room, MAX_STACK in *; simpl; lia. }
  rewrite (moves_run a top 4 0 _ ltac:(simpl; lia) Ha0 H4 (Hat2 m)).
  eexists; split; [reflexivity|]; split; [rewrite moved_moved, length_app; apply after_moved|].
  apply related_appended; change (Z.of_nat 0) with 0; rewrite !Z.add_0_r.
  cbn [moved set_pc set_stack stack_ stack_top_] in *; rewrite Hl.
  exact (related_store f w _ x a z 4 Hrel' Hx Hz).
Qed.

(** The arguments of a call, each at the top of the frame. *)
Definition at_top (f : CompilingFunc) (vm : ByteCodeVM) (last : option Z) : Prop :=
  match last with Some z => holds vm (stack_ vm) (cur_stack_top f) z | None => Logic.True end.

Lemma args_run f w n es : Forall closed es -> Forall (fun e => 4 + scratch e <= n) es ->
  forall vm last, related f w vm -> at_top f vm last ->
  stack_top_ vm + cur_stack_top f + n <= MAX_STACK ->
  let code := mjoin (map (code_of (cur_stack_top f)) es) in
  at_code vm code ->
  match exec_args machine_value es last with
  | Done last' => exists vm', Run (length code) vm = Done vm' /\ after (length code) vm vm' /\
      related f w vm' /\ at_top f vm' last'
  | o => fails o (Run (length code) vm)
  end.
Proof.
  induction 1 as [|e es He _ IH]; intros Hn vm last Hrel Hlast Hroom code Hat; cbn [exec_args].
  { exists vm; split_and!; auto; split; simpl; auto; lia. }
  apply Forall_cons in Hn as [Hn1 Hn2]; subst code; cbn [map] in *.
  change (mjoin (?x :: ?l)) with (x ++ mjoin l) in *; apply at_code_app in Hat as [Hat1 Hat2].
  pose proof (value_run f w vm e n He Hrel Hn1 Hroom Hat1) as Hrun.
  destruct (machine_value e) as [z|flt|?|]; try (now apply fails_app).
  destruct Hrun as (m & Hrun & Hrel1 & Hz); rewrite outcome_bind_ret_l.
  specialize (IH Hn2 _ (Some z) Hrel1 Hz Hroom (Hat2 m)); rewrite (run_app _ _ _ _ Hrun).
  destruct (exec_args machine_value es (Some z)) as [r| | |]; try exact IH.
  destruct IH as (vm' & Hr & Ha & Hrel' & Hr'); exists vm'; split_and!; auto.
  rewrite length_app; exact (after_trans _ _ _ _ _ (after_moved _ _ _) Ha).
Qed.

Lemma print_one f w vm z : related f w vm -> holds vm (stack_ vm) (cur_stack_top f) z ->
  room vm (cur_stack_top f) 4 ->
  at_code vm [mkInst Call SC_PRINT_I32 (base STACK_TOP (cur_stack_top f)) 0] ->
  exists vm', Run 1 vm = Done vm' /\ after 1 vm vm' /\ related f (print_value z w) vm'.
Proof.
  intros Hrel Hz Hr Hat; set (top := cur_stack_top f) in *.
  pose proof (read_int vm top z Hr Hz) as Hrd.
  exists (moved 1 (stack_ vm) (print (int_line z) vm)); split_and!.
  - rewrite (run_one _ _ Hat); unfold step, do_call, syscall; cbn [op arg0 arg1].
    change (SC_PRINT_I32 <? BUILT_IN_START) with false; cbv iota.
    change (SC_PRINT_I32 =? SC_PRINT_I8) with false; change (SC_PRINT_I32 =? SC_PRINT_I32) with true.
    cbv iota; rewrite Hrd, !outcome_bind_ret_l; f_equal.
    rewrite <- (advance_moved (print (int_line z) vm) (stack_ vm) _ Hat); now destruct vm.
  - now split.
  - destruct Hrel as [Ht Hd Hfr Hdis Hv Ho]; split; auto; simpl.
    rewrite map_app, rev_app_distr; simpl; now rewrite Ho.
Qed.

Lemma call_sim f g es n : Forall closed es -> Forall (fun e => 4 + scratch e <= n) es ->
  (es = [] -> str_data_ (v g) <> "print") ->
  let code := mjoin (map (code_of (cur_stack_top f)) es) ++ call_code (str_data_ (v g)) (cur_stack_top f) in
  simulates f (appended code f) code n (exec_call machine_value (str_data_ (v g)) es).
Proof.
  intros Hes Hn Hne code vm w Hrel Hroom Hat; subst code; unfold exec_call.
  pose proof (at_code_app _ _ _ Hat) as [Hat1 _].
  pose proof (args_run f w n es Hes Hn vm None Hrel I Hroom Hat1) as Hrun.
  destruct (exec_args machine_value es None) as [last| | |] eqn:Elast; try (now apply fails_app).
  destruct Hrun as (vm1 & Hrun & Haft & Hrel1 & Hlast); rewrite outcome_bind_ret_l, length_app, Run_add, Hrun.
  rewrite outcome_bind_ret_l; pose proof (at_code_after _ _ _ _ Hat Haft) as Hat2.
  unfold call_code in *; destruct (String.eqb_spec (str_data_ (v g)) "print") as [Hg|Hg].
  - destruct last as [z|].
    2: { destruct es as [|e es]; [now destruct (Hne eq_refl)|exfalso; clear -Elast].
         cbn [exec_args] in Elast; destruct (machine_value e) as [z| | |]; try discriminate.
         rewrite outcome_bind_ret_l in Elast; revert z Elast; induction es as [|e' es IH]; intros z; [discriminate|].
         cbn [exec_args]; destruct (machine_value e'); try discriminate; apply IH. }
    destruct (print_one f w vm1 z Hrel1 Hlast) as (vm2 & Hr2 & Ha2 & Hrel2); [|exact Hat2|].
    { destruct es as [|e es]; [discriminate Elast|]; apply Forall_cons in Hn as [Hn _].
      pose proof (scratch_nonneg e); destruct Hrel as [[? ?] _ _ _ _ _]; destruct Haft as [_ _ _ Htop].
      unfold room, MAX_STACK in *; lia. }
    exists vm2; split_and!; [exact Hr2|exact (after_trans _ _ _ _ _ Haft Ha2)|now apply related_appended].
  - exists vm1; cbn [Run length]; split_and!; [reflexivity| |].
    + replace (length _ + 0)%nat with (length (mjoin (map (code_of (cur_stack_top f)) es))) by lia; exact Haft.
    + apply related_appended; now destruct last.
Qed.

(** What a declaration does to the function. *)
Definition declared (x : string) (f : CompilingFunc) : CompilingFunc :=
  let vi := mkVarInfo x None (Some 4) (Some (cur_stack_top f)) "" in
  let m := match var_address_map f !! x with
           | Some _ => var_address_map f
           | None => <[x := vi]> (var_address_map f)
           end in
  set_top (cur_stack_top f + 4) (set_vars m f).

Lemma slot_declared_old x f y a : slot_of f y a -> slot_of (declared x f) y a.
Proof.
  intros (vi & Hvi & Hs & Ha & H0 & Hle); exists vi; unfold declared; simpl; split_and!; auto; [|lia].
  destruct (var_address_map f !! x) eqn:E; [exact Hvi|]; rewrite lookup_insert_ne; congruence.
Qed.

Lemma slot_declared_inv x f y a : slot_of (declared x f) y a ->
  (x = y /\ a = cur_stack_top f) \/ (exists vi, var_address_map f !! y = Some vi /\ vi_address vi = Some a).
Proof.
  intros (vi & Hvi & _ & Ha & _); unfold declared in Hvi; simpl in Hvi.
  destruct (var_address_map f !! x) eqn:E; [eauto|].
  destruct (decide (x = y)) as [<-|Hne].
  - rewrite lookup_insert_eq in Hvi; injection Hvi as <-; simpl in Ha; injection Ha as <-; auto.
  - rewrite lookup_insert_ne in Hvi by assumption; eauto.
Qed.

(** Every variable of the map has its slot. *)
Lemma related_slot f w vm y vi a : related f w vm ->
  var_address_map f !! y = Some vi -> vi_address vi = Some a -> slot_of f y a.
Proof.
  intros [_ Hd Hfr _ _ _] Hy Ha; destruct (env w !! y) eqn:E.
  - destruct (proj1 (Hd y) (ex_intro _ _ E)) as [b Hb].
    pose proof Hb as (vi' & Hvi' & _ & Hb' & _); congruence.
  - rewrite (Hfr y E) in Hy; discriminate.
Qed.

Lemma decl_sim f x n : 4 <= n ->
  simulates f (declared x f) [] n (fun w => Done (declare_var x w)).
Proof.
  intros Hn vm w Hrel Hroom _; unfold declare_var; exists vm; split; [reflexivity|]; split; [now split; simpl; try lia|].
  pose proof (related_slot f w vm) as Hslot; specialize (fun y vi a => Hslot y vi a Hrel).
  destruct Hrel as [Ht Hd Hfr Hdis Hv Ho].
  assert (Hinv : forall y a, slot_of (declared x f) y a ->
    (x = y /\ a = cur_stack_top f /\ env w !! x = None) \/ slot_of f y a).
  { intros y a Hy; pose proof Hy as [[-> ->]|(vi & Hvi & Ha)]%slot_declared_inv; [|right; eauto].
    destruct (env w !! y) eqn:E; [|auto]; right.
    destruct (proj1 (Hd y) (ex_intro _ _ E)) as [b Hb].
    now rewrite (slot_unique _ _ _ _ Hy (slot_declared_old y f y b Hb)). }
  split; auto.
  - unfold declared; simpl; lia.
  - intros y; destruct (env w !! x) eqn:Ex; simpl.
    { rewrite Hd; split; intros [a Ha]; eauto using slot_declared_old.
      destruct (Hinv y a Ha) as [(_ & _ & ?)|?]; [discriminate|eauto]. }
    destruct (decide (x = y)) as [<-|Hne].
    + rewrite lookup_insert_eq; split; [|now eexists]; intros _; exists (cur_stack_top f).
      unfold slot_of, declared; simpl; rewrite (Hfr x Ex), lookup_insert_eq.
      eexists; split_and!; [reflexivity..|simpl; lia|simpl; lia].
    + rewrite lookup_insert_ne, Hd by assumption; split; intros [a Ha]; eauto using slot_declared_old.
      destruct (Hinv y a Ha) as [(? & _)|?]; [contradiction|eauto].
  - intros y; destruct (env w !! x) eqn:Ex; simpl.
    + intros Hy; unfold declared; simpl.
      destruct (proj1 (Hd x) (ex_intro _ _ Ex)) as [b (vi & -> & _)]; now apply Hfr.
    + destruct (decide (x = y)) as [<-|Hne]; [now rewrite lookup_insert_eq|].
      rewrite lookup_insert_ne by assumption; intros Hy; unfold declared; simpl.
      rewrite (Hfr x Ex), lookup_insert_ne by assumption; now apply Hfr.
  - intros y z a b Hne Hy Hz.
    destruct (Hinv y a Hy) as [(<- & -> & _)|Hy'], (Hinv z b Hz) as [(<- & -> & _)|Hz'];
      [contradiction| | |now apply (Hdis y z)].
    + destruct Hz' as (? & _ & _ & _ & _ & ?); lia.
    + destruct Hy' as (? & _ & _ & _ & _ & ?); lia.
  - intros y z a Hy Ha; destruct (Hinv y a Ha) as [(<- & _ & Ex)|Ha'].
    + rewrite Ex in Hy; simpl in Hy; rewrite lookup_insert_eq in Hy; discriminate.
    + apply (Hv y); [|exact Ha']; destruct (env w !! x) eqn:Ex; [exact Hy|]; simpl in Hy.
      destruct (decide (x = y)) as [<-|Hne]; [rewrite lookup_insert_eq in Hy; discriminate|].
      now rewrite lookup_insert_ne in Hy by assumption.
  - destruct (env w !! x); exact Ho.
Qed.
