(* ===== verification/Programs.v ===== *)
(** * Programs: whole programs compile, and do what the abstract machine does

    The compiler's side of the simulation: every statement that [plain] covers
    compiles, in any block and at any depth; then functions, and the top level. *)

From S2P Require Import Prelude Machine Common Token Ast ParseMonad ExprParser StmtParser Memory Vm.
From S2P Require Import Compiler Types Codegen CodegenRun Exec Simulation.
Import token.

#[local] Set Warnings "-register-all".

Section Programs.
Context {order : IterOrder}.

(** The compiler knows the type [int]. *)
Definition knows_int (c : Compiler) : Prop :=
  exists t, findByName "int" (type_table_ c) = Some t /\ ti_size t = 4.

(** Some labels later. *)
Definition labelled (n : Z) (c : Compiler) : Compiler := set_label (cur_lable_ c + n) c.

Lemma labelled_0 c : labelled 0 c = c.
Proof. unfold labelled; rewrite Z.add_0_r; now destruct c. Qed.

Lemma labelled_labelled n m c : labelled m (labelled n c) = labelled (n + m) c.
Proof. unfold labelled, set_label; simpl; f_equal; lia. Qed.

(** [compile] in the function [f] gives [f'], the code [code] and [labels] labels. *)
Record compiled (c : Compiler) (f f' : CompilingFunc) (labels : Z) (code : list Instruction)
    (compile : Compiler -> outcome Compiler) : Prop := {
  compiled_result : compile (compiling f c) = Done (compiling f' (labelled labels c));
  compiled_code : cf_instructions f' = cf_instructions f ++ code;
  compiled_name : cf_name f' = cf_name f;
  compiled_top : cur_stack_top f <= cur_stack_top f';
}.

Lemma compiled_quiet c f f' code g : g (compiling f c) = Done (compiling f' c) ->
  cf_instructions f' = cf_instructions f ++ code -> cf_name f' = cf_name f ->
  cur_stack_top f <= cur_stack_top f' -> compiled c f f' 0 code g.
Proof. intros H ? ? ?; split; auto; now rewrite labelled_0. Qed.

Lemma declaration_compiled c f d t : knows_int c -> var_type d = Some t -> vt_name_ t = "int" ->
  0 <= cur_stack_top f -> cur_stack_top f + 4 <= INT_MAX ->
  compiled c f (declared (d_var_name d) f) 0 [] (compile_declaration d).
Proof.
  intros (ti & Hti & Hs) Ht Hn H0 H1; apply compiled_quiet; [|simpl; now rewrite app_nil_r|reflexivity|simpl; lia].
  unfold compile_declaration, decl_type_name.
  rewrite assert_compiling, Ht; cbn [deref setCurrentFunc type_table_].
  rewrite !outcome_bind_ret_l, Hn, Hti, Hs, current_compiling, outcome_bind_ret_l; replace (checked_s 32 (cur_stack_top f + 4)) with
    (@Done Z (cur_stack_top f + 4)); [reflexivity|].
  symmetry; apply checked_s_done; rewrite in_s_spec; unfold INT_MAX in *; lia.
Qed.

Lemma assignment_compiled c f a x : well_shaped (a_expr a) -> slot_of f (a_var_name a) x ->
  fits (cur_stack_top f) (a_expr a) -> cur_stack_top f + 4 <= INT_MAX ->
  let code := code_of (cur_stack_top f) (a_expr a) ++ moves x (cur_stack_top f) 0 4 in
  compiled c f (appended code f) 0 code (compile_assignment a).
Proof.
  intros Hw (vi & Hvi & Hs & Ha & Hx & Hxt) Hfits Hi code.
  apply compiled_quiet; [|reflexivity|reflexivity|simpl; lia]; unfold compile_assignment.
  rewrite assert_compiling, outcome_bind_ret_l, current_compiling, outcome_bind_ret_l.
  unfold var_slot; rewrite Hvi; cbv beta iota; rewrite Hvi, Hs; cbn [deref].
  rewrite outcome_bind_ret_l, compiling_twice, compile_expr_code, outcome_bind_ret_l by assumption.
  rewrite current_compiling, outcome_bind_ret_l; cbn [appended var_address_map].
  rewrite Hvi; cbn [deref]; rewrite outcome_bind_ret_l, Ha; cbn [deref]; rewrite outcome_bind_ret_l.
  change 4 with (Z.of_nat 4); destruct Hfits; rewrite addMoveInsts_appended by lia.
  rewrite outcome_bind_ret_l; unfold code; now rewrite <- appended_app.
Qed.

Lemma expr_compiled c f e : well_shaped e -> fits (cur_stack_top f) e ->
  let code := code_of (cur_stack_top f) e in
  compiled c f (appended code f) 0 code (compile_expr e).
Proof.
  intros Hw Hf code; apply compiled_quiet; [|reflexivity|reflexivity|simpl; lia].
  now apply compile_expr_code.
Qed.

(** Every variable of the map has a slot. *)
Definition well_laid (f : CompilingFunc) : Prop :=
  forall x, is_Some (var_address_map f !! x) -> exists a, slot_of f x a.

Lemma well_laid_appended code f : well_laid f -> well_laid (appended code f).
Proof. auto. Qed.

Lemma well_laid_declared x f : 0 <= cur_stack_top f -> well_laid f ->
  well_laid (declared x f) /\ is_Some (var_address_map (declared x f) !! x).
Proof.
  intros H0 Hf; split.
  - intros y Hy; destruct (var_address_map f !! y) as [vi|] eqn:Ey.
    { destruct (Hf y (ex_intro _ _ Ey)) as [a Ha]; exists a; now apply slot_declared_old. }
    unfold declared, slot_of in *; simpl in *; destruct (var_address_map f !! x) eqn:Ex;
      [rewrite Ey in Hy; now destruct Hy|].
    destruct (decide (x = y)) as [<-|Hne]; [|rewrite lookup_insert_ne, Ey in Hy by assumption; now destruct Hy].
    rewrite lookup_insert_eq; exists (cur_stack_top f); eexists; split_and!; try reflexivity; simpl; lia.
  - unfold declared; simpl; destruct (var_address_map f !! x) eqn:Ex; [now rewrite Ex|].
    rewrite lookup_insert_eq; now eexists.
Qed.

Definition holds_vars (f : CompilingFunc) (vars : gset string) : Prop :=
  forall x, x ∈ vars -> is_Some (var_address_map f !! x).

(** What compiling guarantees; [vars] are the variables declared after it. *)
Definition result (c : Compiler) (f : CompilingFunc) (vars : gset string) (bytes labels : Z)
    (compile : Compiler -> outcome Compiler) (step : world -> outcome world) : Prop :=
  exists f' code, compiled c f f' labels code compile /\ cur_stack_top f' <= cur_stack_top f + bytes /\
    well_laid f' /\ holds_vars f' vars /\ simulates f f' code bytes step.

(** ** Statements *)

Lemma fits_cost f n e : 0 <= cur_stack_top f -> cur_stack_top f + cost n <= MAX_STACK ->
  4 + scratch e <= cost n -> fits (cur_stack_top f) e /\ cur_stack_top f + 4 <= INT_MAX.
Proof.
  intros H0 H1 H2; pose proof (scratch_nonneg e); unfold fits, MAX_STACK, INT_MAX in *; lia.
Qed.

Lemma declaration_result c f vars d : knows_int c -> plain (NDeclaration d) = true ->
  0 <= cur_stack_top f -> cur_stack_top f + 4 <= MAX_STACK -> well_laid f -> holds_vars f vars ->
  result c f ({[d_var_name d]} ∪ vars) 4 0 (compile_declaration d)
    (fun w => Done (declare_var (d_var_name d) w)).
Proof.
  intros Hc Hp H0 Hn Hlaid Hvars; cbn [plain] in Hp.
  destruct (var_type d) as [t|] eqn:Et; [|discriminate]; apply String.eqb_eq in Hp.
  destruct (well_laid_declared (d_var_name d) f H0 Hlaid) as [Hl Hx].
  exists (declared (d_var_name d) f), [].
  split_and!; [|simpl; lia|exact Hl| |apply decl_sim; lia].
  { eapply declaration_compiled; eauto; unfold MAX_STACK, INT_MAX in *; lia. }
  intros x; rewrite elem_of_union, elem_of_singleton; intros [->|Hv]; [exact Hx|].
  destruct (Hlaid x (Hvars x Hv)) as [b Hb]; apply slot_declared_old with (x := d_var_name d) in Hb.
  destruct Hb as (vi & -> & _); now eexists.
Qed.

Lemma assignment_result c f vars a : plain (NAssignment a) = true -> 0 <= cur_stack_top f ->
  cur_stack_top f + cost (NAssignment a) <= MAX_STACK -> well_laid f -> holds_vars f vars ->
  a_var_name a ∈ vars ->
  result c f vars (cost (NAssignment a)) 0 (compile_assignment a) (exec_node machine_value (NAssignment a)).
Proof.
  intros [Hw Hcl]%andb_true_iff H0 Hn Hlaid Hvars Ha.
  apply well_shapedb_ok in Hw; apply closedb_ok in Hcl; destruct (Hlaid _ (Hvars _ Ha)) as [x Hx].
  destruct (cost_exprs (NAssignment a)) as [Hs Hc]; apply Forall_cons in Hs as [Hs _].
  destruct (fits_cost f (NAssignment a) (a_expr a) H0 Hn ltac:(lia)) as [Hf Hi].
  eexists _, _; split_and!; [apply assignment_compiled; eauto|simpl; lia|now apply well_laid_appended
    |exact Hvars|].
  intros vm w Hrel Hroom Hat; cbn [exec_node].
  destruct (proj2 (rel_dom _ _ _ Hrel _) (ex_intro _ _ Hx)) as [o ->].
  refine (assign_sim f (a_expr a) _ x (cost (NAssignment a)) Hcl Hx _ vm w Hrel Hroom Hat); lia.
Qed.

(** An expression whose value is dropped. *)
Lemma drop_sim f e n : closed e -> 4 + scratch e <= n ->
  simulates f (appended (code_of (cur_stack_top f) e) f) (code_of (cur_stack_top f) e) n
    (fun w => _ ← machine_value e; Done w).
Proof.
  intros He Hn vm w Hrel Hroom Hat; pose proof (value_run f w vm e n He Hrel Hn Hroom Hat) as H.
  destruct (machine_value e) as [z| | |]; try exact H; destruct H as (m & Hr & Hrel' & _).
  rewrite outcome_bind_ret_l; eexists; split_and!; [exact Hr|apply after_moved|now apply related_appended].
Qed.

Lemma expr_sim f e n : well_shaped e -> forallb closedb (expr_values e) = true -> bare_print e = false ->
  Forall (fun e => 4 + scratch e <= n) (expr_values e) ->
  simulates f (appended (code_of (cur_stack_top f) e) f) (code_of (cur_stack_top f) e) n
    (exec_expr machine_value e).
Proof.
  intros Hw Hcl%forallb_closed Hb Hn; destruct (well_shaped_ops e Hw) as (_ & _ & Hcall).
  unfold exec_expr, expr_values, bare_print in *.
  destruct (etype_ e) eqn:Et.
  1-2: apply Forall_cons in Hn as [Hn _]; apply Forall_cons in Hcl as [Hcl _]; now apply drop_sim.
  destruct (Hcall eq_refl) as (g & es & He); rewrite He in *.
  replace (code_of (cur_stack_top f) e) with
    (mjoin (map (code_of (cur_stack_top f)) es) ++ call_code (str_data_ (v g)) (cur_stack_top f))
    by (destruct e; simpl in *; now subst).
  apply call_sim; auto; intros ->; now apply String.eqb_neq.
Qed.

Lemma expr_result c f vars e : plain (NExpr e) = true -> 0 <= cur_stack_top f ->
  cur_stack_top f + cost (NExpr e) <= MAX_STACK -> well_laid f -> holds_vars f vars ->
  result c f vars (cost (NExpr e)) 0 (compile_expr e) (exec_expr machine_value e).
Proof.
  intros [[Hw Hcl]%andb_true_iff Hb%negb_true_iff]%andb_true_iff H0 Hn Hlaid Hvars.
  apply well_shapedb_ok in Hw; destruct (cost_exprs (NExpr e)) as [Hs Hc]; cbn [node_exprs] in Hs.
  assert (Hfit : scratch e <= cost (NExpr e)).
  { destruct (well_shaped_ops e Hw) as (_ & _ & Hcall); unfold expr_values in Hs.
    destruct (etype_ e) eqn:Et; try (apply Forall_cons in Hs as [Hs _]; lia).
    destruct (Hcall eq_refl) as (g & es & He); rewrite He in Hs.
    assert (Hg : scratch g = 0).
    { destruct Hw as [|? g' es' _ He' _ Hg' _| |]; try congruence.
      rewrite He in He'; injection He' as <- _; destruct g; simpl in *; now subst. }
    destruct e as [a b t w es' os]; simpl in *; subst; simpl; rewrite Hg.
    assert (Hmax : foldr Z.max 0 (map scratch es) <= cost (NExpr (mkExpr a b FUNCALL w (g :: es) os)) - 4).
    { revert Hs Hc; generalize (cost (NExpr (mkExpr a b FUNCALL w (g :: es) os))) as k; intros k Hs Hc; clear -Hs Hc.
      induction Hs as [|x l Hx _ IH]; simpl; lia. }
    lia. }
  eexists _, _; split_and!; [apply expr_compiled; [exact Hw|]|simpl; lia|now apply well_laid_appended
    |exact Hvars|].
  - split; [exact H0|]; unfold MAX_STACK, INT_MAX in *; lia.
  - apply expr_sim; auto; eapply Forall_impl; [exact Hs|]; simpl; lia.
Qed.

(** ** Blocks and nested statements *)

(** The state of the compiler before statements that need [bytes] of the frame and
    [labels] labels. *)
Record ready (c : Compiler) (f : CompilingFunc) (vars : gset string) (bytes labels : Z) : Prop := {
  ready_int : knows_int c;
  ready_labels : 0 <= cur_lable_ c /\ cur_lable_ c + labels <= INT_MAX;
  ready_top : 0 <= cur_stack_top f /\ cur_stack_top f + bytes <= MAX_STACK;
  ready_laid : well_laid f;
  ready_vars : holds_vars f vars;
}.

Lemma ready_le c f vars b b' l l' : ready c f vars b l -> b' <= b -> l' <= l -> ready c f vars b' l'.
Proof. intros [] Hb Hl; split; auto; lia. Qed.

Lemma ready_labelled n c f vars b l : 0 <= n -> ready c f vars b (n + l) -> ready (labelled n c) f vars b l.
Proof. intros Hn []; split; auto; simpl; lia. Qed.

Lemma simulates_seq f f1 f2 l k n1 n2 s1 s2 : 0 <= n1 ->
  cur_stack_top f1 <= cur_stack_top f + n1 -> 0 <= n2 ->
  simulates f f1 l n1 s1 -> simulates f1 f2 k n2 s2 ->
  simulates f f2 (l ++ k) (n1 + n2) (fun w => s1 w ≫= s2).
Proof.
  intros Hn1 Htop Hn2 H1 H2 vm w Hrel Hroom Hat.
  specialize (H1 vm w Hrel ltac:(lia) (proj1 (at_code_app _ _ _ Hat))).
  destruct (s1 w) as [w1|flt|?|]; try (now apply fails_app).
  destruct H1 as (vm1 & Hrun & Haft & Hrel1); rewrite outcome_bind_ret_l.
  pose proof (at_code_after _ _ _ _ Hat Haft) as Hat'.
  specialize (H2 vm1 w1 Hrel1 ltac:(rewrite (after_top _ _ _ Haft); lia) Hat').
  rewrite length_app, Run_add, Hrun, outcome_bind_ret_l.
  destruct (s2 w1) as [w2|flt|?|]; try exact H2.
  destruct H2 as (vm2 & Hrun2 & Haft2 & Hrel2); exists vm2; split_and!; auto.
  eapply after_trans; eauto.
Qed.

Lemma simulates_le f f' code n n' s : n <= n' -> simulates f f' code n s -> simulates f f' code n' s.
Proof. intros Hn H vm w Hrel Hroom; apply H; auto; lia. Qed.

Lemma compiled_seq c f f1 f2 l1 l2 code k g1 g2 : compiled c f f1 l1 code g1 ->
  compiled (labelled l1 c) f1 f2 l2 k g2 ->
  compiled c f f2 (l1 + l2) (code ++ k) (fun c => g1 c ≫= g2).
Proof.
  intros [Hc1 Hi1 Hn1 Ht1] [Hc2 Hi2 Hn2 Ht2]; split.
  - now rewrite Hc1, outcome_bind_ret_l, Hc2, labelled_labelled.
  - now rewrite Hi2, Hi1, app_assoc.
  - congruence.
  - lia.
Qed.

Lemma result_seq c f vars vars1 vars2 b1 b2 l1 l2 g1 g2 s1 s2 :
  0 <= b1 -> 0 <= b2 -> 0 <= l1 -> ready c f vars (b1 + b2) (l1 + l2) ->
  result c f vars1 b1 l1 g1 s1 ->
  (forall f1, ready (labelled l1 c) f1 vars1 b2 l2 -> result (labelled l1 c) f1 vars2 b2 l2 g2 s2) ->
  result c f vars2 (b1 + b2) (l1 + l2) (fun c => g1 c ≫= g2) (fun w => s1 w ≫= s2).
Proof.
  intros Hb1 Hb2 Hl1 Hr (f1 & code1 & Hc1 & Ht1 & Hlaid1 & Hv1 & Hs1) H2.
  destruct (H2 f1) as (f2 & code2 & Hc2 & Ht2 & Hlaid2 & Hv2 & Hs2).
  { destruct Hr, Hc1; split; auto; simpl; lia. }
  exists f2, (code1 ++ code2); split_and!; [exact (compiled_seq _ _ _ _ _ _ _ _ _ _ Hc1 Hc2)
    |lia|exact Hlaid2|exact Hv2|exact (simulates_seq _ _ _ _ _ _ _ _ _ Hb1 Ht1 Hb2 Hs1 Hs2)].
Qed.

(** A statement, with those inside it, compiles and does the abstract step. *)
Definition handled (n : Node) : Prop := forall c f vars vars',
  ready c f vars (need [n]) (ifs [n]) -> forallb plain (subnodes n) = true -> scope n vars = Done vars' ->
  result c f vars' (need [n]) (ifs [n]) (compile_statement n) (exec_node machine_value n).

Lemma nothing c f vars n : 0 <= n -> ready c f vars n 0 -> result c f vars n 0 Done Done.
Proof.
  intros Hn []; exists f, []; split_and!; auto; [|lia|].
  - apply compiled_quiet; simpl; auto; [now rewrite app_nil_r|lia].
  - intros vm w Hrel _ _; exists vm; split_and!; auto; split; simpl; auto; lia.
Qed.

Lemma block_result ns : Forall handled ns -> forall c f vars vars',
  ready c f vars (need ns) (ifs ns) -> forallb plain (flat ns) = true ->
  for_each scope ns vars = Done vars' ->
  result c f vars' (need ns) (ifs ns) (for_each compile_statement ns) (for_each (exec_node machine_value) ns).
Proof.
  induction 1 as [|n ns Hn _ IH]; intros c f vars vars' Hr Hp Hs.
  { injection Hs as <-; now apply nothing. }
  rewrite flat_cons, forallb_app in Hp; apply andb_true_iff in Hp as [Hp1 Hp2].
  cbn [for_each] in Hs; apply outcome_bind_done in Hs as (vars1 & Hs1 & Hs2).
  assert (E : need (n :: ns) = need [n] + need ns /\ ifs (n :: ns) = ifs [n] + ifs ns).
  { unfold need, ifs; rewrite !total_one, !total_cons; lia. }
  destruct E as [E1 E2]; rewrite E1, E2 in *.
  apply (result_seq c f vars vars1); auto using need_nonneg, ifs_nonneg.
  - apply (Hn c f vars); auto; apply (ready_le _ _ _ _ _ _ _ Hr);
      [pose proof (need_nonneg ns)|pose proof (ifs_nonneg ns)]; lia.
  - intros f1 Hr1; now apply (IH _ _ vars1).
Qed.

Lemma emit_compiled i c f : compiled c f (appended [i] f) 0 [i] (emit i).
Proof. apply compiled_quiet; [apply emit_compiling|reflexivity|reflexivity|simpl; lia]. Qed.

(** The jump of an [if] aborts before anything inside it is reached. *)
Lemma if_sim f f' l code n :
  simulates f f' (mkInst (Jump Eq_ I32) 0 0 l :: code) n (fun _ => Abort "no implement").
Proof.
  intros vm w _ _ Hat; cbn [fails].
  pose proof (at_code_app vm [mkInst (Jump Eq_ I32) 0 0 l] code Hat) as [Hat1 _].
  apply (fails_app (Abort "no implement" : outcome unit) [_] code); cbn [fails length].
  now rewrite (run_one _ _ Hat1).
Qed.

Lemma if_result i c f vars vars' : Forall handled (children (NIf i)) ->
  ready c f vars (need [NIf i]) (ifs [NIf i]) -> forallb plain (subnodes (NIf i)) = true ->
  scope (NIf i) vars = Done vars' ->
  result c f vars' (need [NIf i]) (ifs [NIf i]) (compile_if compile_statement i)
    (fun _ => Abort "no implement").
Proof.
  intros Hch Hr Hp Hs; rewrite subnodes_inner in Hp; cbn [forallb inner] in Hp.
  apply andb_true_iff in Hp as [_ Hp]; cbn [scope] in Hs; rewrite if_children in Hs.
  pose proof (need_nonneg (children (NIf i))) as Hneed; pose proof (ifs_nonneg (children (NIf i))) as Hifs.
  assert (E : need [NIf i] = 4 + need (children (NIf i)) /\ ifs [NIf i] = 1 + ifs (children (NIf i))).
  { split; exact (total_one _ _). }
  destruct E as [E1 E2]; rewrite E1, E2 in *; pose proof Hr as [Hint Hl Ht Hlaid Hv].
  set (jump := mkInst (Jump Eq_ I32) 0 0 (base LABEL (cur_lable_ c))).
  set (f1 := appended [jump] f).
  assert (Hr1 : ready (labelled 1 c) f1 vars (need (children (NIf i))) (ifs (children (NIf i)))).
  { apply ready_labelled; [lia|]; split; auto; change (cur_stack_top f1) with (cur_stack_top f); lia. }
  destruct (block_result _ Hch _ _ _ _ Hr1 Hp Hs) as (f2 & code & Hc & Ht2 & Hlaid2 & Hv2 & _).
  set (lab := mkInst Label (base LABEL (cur_lable_ c)) 0 0).
  exists (appended [lab] f2), (jump :: code ++ [lab]); split_and!;
    [|change (cur_stack_top f1) with (cur_stack_top f) in Ht2; change (cur_stack_top (appended [lab] f2))
       with (cur_stack_top f2); lia|now apply well_laid_appended|exact Hv2|apply if_sim].
  pose proof (compiled_seq _ _ _ _ _ _ _ _ _ _ Hc (emit_compiled lab _ f2)) as [Hres Hcode Hname Htop].
  rewrite Z.add_0_r in Hres; split.
  - unfold compile_if, alloc_new_label.
    replace (checked_s 32 (cur_lable_ (compiling f c) + 1)) with (Done (cur_lable_ c + 1)).
    2: { symmetry; apply checked_s_done; rewrite in_s_spec; simpl; unfold INT_MAX in *; lia. }
    rewrite !outcome_bind_ret_l; cbv beta iota.
    change (set_label (cur_lable_ c + 1) (compiling f c)) with (compiling f (labelled 1 c)).
    change (cur_lable_ (compiling f c)) with (cur_lable_ c); fold jump lab.
    rewrite emit_compiling, outcome_bind_ret_l; fold f1; unfold compile_block_with.
    rewrite <- outcome_bind_assoc, (if_children compile_statement i).
    now rewrite labelled_labelled in Hres.
  - rewrite Hcode; unfold f1; simpl; now rewrite <- app_assoc.
  - rewrite Hname; reflexivity.
  - simpl in *; lia.
Qed.

Lemma result_quiet c f vars vars' b b' l g s : result c f vars b l g s -> vars' ⊆ vars -> b <= b' ->
  result c f vars' b' l g s.
Proof.
  intros (f' & code & Hc & Ht & Hlaid & Hv & Hs) Hsub Hb; exists f', code.
  split_and!; auto; [lia|intros x Hx; apply Hv; set_solver|exact (simulates_le _ _ _ _ _ _ Hb Hs)].
Qed.

Lemma statement_handled n : handled n.
Proof.
  induction n as [n IH] using Node_induction; intros c f vars vars' Hr Hp Hs.
  pose proof Hp as Hp1; rewrite subnodes_inner in Hp1; cbn [forallb] in Hp1.
  apply andb_true_iff in Hp1 as [Hp1 Hp2]; pose proof Hr as [Hint Hl Ht Hlaid Hv].
  assert (E : need [n] = cost n + need (inner n) /\ ifs [n] = is_if n + ifs (inner n)).
  { split; exact (total_one _ _). }
  pose proof (need_nonneg (inner n)); pose proof (ifs_nonneg (inner n)); pose proof (cost_pos n).
  destruct n as [d|a|e|i|fn|rt|fo|td]; cbn [compile_statement exec_node].
  4: now apply (if_result i c f vars vars').
  all: destruct E as [E1 E2]; cbn [inner children is_if] in *;
    try change (need []) with 0 in *; try change (ifs []) with 0 in *; rewrite E1, E2 in *.
  - injection Hs as <-; apply (result_quiet _ _ ({[d_var_name d]} ∪ vars) _ 4); [|reflexivity|simpl; lia].
    apply declaration_result; auto; cbn in *; lia.
  - cbn [scope] in Hs; unfold assert_ in Hs; case_bool_decide as Ha; [|discriminate]; injection Hs as <-.
    rewrite !Z.add_0_r in *; apply assignment_result; auto; lia.
  - injection Hs as <-; rewrite !Z.add_0_r in *; apply expr_result; auto; lia.
  - injection Hs as <-; apply nothing; [lia|]; now rewrite Z.add_0_r in *.
  - injection Hs as <-; apply nothing; [lia|]; now rewrite Z.add_0_r in *.
  - cbn [scope] in Hs; apply (result_quiet _ _ vars' _ (need (nodes_ (for_block_ fo)))); [|reflexivity|lia].
    apply (block_result _ IH c f vars); auto; apply (ready_le _ _ _ _ _ _ _ Hr); lia.
  - injection Hs as <-; apply nothing; [lia|]; now rewrite Z.add_0_r in *.
Qed.

(** ** Functions *)

Lemma related_start name w vm : 0 <= stack_top_ vm -> output vm = rev (map int_line (printed w)) ->
  related (CompilingFunc_make name) (mkWorld ∅ (printed w)) vm.
Proof.
  intros Ht Ho; assert (Hno : forall x a, ~ slot_of (CompilingFunc_make name) x a).
  { intros x a (vi & Hvi & _); simpl in Hvi; now rewrite lookup_empty in Hvi. }
  split; simpl; auto; try lia.
  - intros x; rewrite lookup_empty; split; [now intros []|]; intros [a []%Hno].
  - intros x y a b _ []%Hno.
  - intros x z a H; now rewrite lookup_empty in H.
Qed.

(** The machine between two functions. *)
Definition between (w : world) (vm : ByteCodeVM) : Prop :=
  stack_top_ vm = 0 /\ output vm = rev (map int_line (printed w)).

Definition runs (code : list Instruction) (step : world -> outcome world) : Prop :=
  forall vm w, between w vm -> at_code vm code ->
    match step w with
    | Done w' => exists vm', Run (length code) vm = Done vm' /\ after (length code) vm vm' /\
                   between w' vm'
    | o => fails o (Run (length code) vm)
    end.

Lemma runs_nil : runs [] Done.
Proof. intros vm w Hb _; exists vm; split_and!; auto; split; simpl; auto; lia. Qed.

Lemma runs_seq l k s1 s2 : runs l s1 -> runs k s2 -> runs (l ++ k) (fun w => s1 w ≫= s2).
Proof.
  intros H1 H2 vm w Hb Hat; specialize (H1 vm w Hb (proj1 (at_code_app _ _ _ Hat))).
  destruct (s1 w) as [w1|flt|?|]; try (now apply fails_app).
  destruct H1 as (vm1 & Hrun & Haft & Hb1); rewrite outcome_bind_ret_l.
  specialize (H2 vm1 w1 Hb1 (at_code_after _ _ _ _ Hat Haft)).
  rewrite length_app, Run_add, Hrun, outcome_bind_ret_l.
  destruct (s2 w1) as [w2|flt|?|]; try exact H2.
  destruct H2 as (vm2 & Hrun2 & Haft2 & Hb2); exists vm2; split_and!; auto.
  eapply after_trans; eauto.
Qed.

Lemma func_sim c f : knows_int c -> 0 <= cur_lable_ c ->
  cur_lable_ c + ifs (nodes_ (f_block f)) <= INT_MAX -> supported (NFunction f) = true ->
  exists code, compile_func f c =
    Done (setCurrentFunc Dangling (insert_func (mkFuncInfo (func_name f) [] code)
      (labelled (ifs (nodes_ (f_block f))) c))) /\
    runs code (exec_func machine_value (NFunction f)).
Proof.
  intros Hc Hl0 Hl [[Hp Hs]%andb_true_iff Hneed%Z.leb_le]%andb_true_iff.
  unfold scoped in Hs; destruct (for_each scope _ _) as [vars| | |] eqn:Es; try discriminate Hs; clear Hs.
  destruct (block_result (nodes_ (f_block f))
    (proj2 (Forall_forall _ _) (fun n _ => statement_handled n)) c (CompilingFunc_make (func_name f)) ∅ vars)
    as (g & code & [Hres Hi Hname _] & _ & _ & _ & Hsim); auto.
  { split; auto; simpl; try lia; try (intros x; rewrite ?lookup_empty; now intros []);
      try (intros x Hx; now apply elem_of_empty in Hx). }
  exists code; split.
  - unfold compile_func, compile_block, compile_block_with; rewrite Hres, outcome_bind_ret_l.
    rewrite current_compiling, outcome_bind_ret_l; unfold FinishCompiling; now rewrite Hi, Hname.
  - intros vm w [Htop Hout] Hat; cbn [exec_func].
    specialize (Hsim vm _ (related_start (func_name f) w vm ltac:(lia) Hout) ltac:(simpl; lia) Hat).
    destruct (for_each (exec_node machine_value) _ _) as [w1|flt|?|]; try exact Hsim.
    destruct Hsim as (vm1 & Hrun & Haft & Hrel); exists vm1; split_and!; auto.
    split; [now rewrite (after_top _ _ _ Haft)|apply (rel_output _ _ _ Hrel)].
Qed.

Definition func_ifs (n : Node) : Z := match n with NFunction f => ifs (nodes_ (f_block f)) | _ => 0 end.

Lemma func_ifs_nonneg ns : 0 <= foldr (fun n s => func_ifs n + s) 0 ns.
Proof.
  induction ns as [|n ns IH]; simpl; [lia|]; destruct n as [d|a|e|i|f|r|f|t]; simpl; try lia.
  pose proof (ifs_nonneg (nodes_ (f_block f))); lia.
Qed.

Lemma funcs_sim ns : forallb supported ns = true -> forall c, knows_int c -> 0 <= cur_lable_ c ->
  cur_lable_ c + foldr (fun n s => func_ifs n + s) 0 ns <= INT_MAX ->
  exists c' fs, for_each (fun n c => match n with NFunction f => compile_func f c | _ => Done c end)
      ns c = Done c' /\
    func_table_ c' = func_table_ c ++ fs /\ c_program_ c' = c_program_ c /\
    errors_ c' = errors_ c /\
    runs (mjoin (fi_instructions <$> fs)) (for_each (exec_func machine_value) ns).
Proof.
  induction ns as [|n ns IH]; intros Hs c Hc Hl0 Hl; cbn [for_each].
  { exists c, []; split_and!; auto; [now rewrite app_nil_r|apply runs_nil]. }
  cbn [forallb foldr] in Hs, Hl; apply andb_true_iff in Hs as [Hs1 Hs2].
  pose proof (func_ifs_nonneg ns) as Hrest.
  destruct n as [d|a|e|i|f|r|f|t]; try (rewrite outcome_bind_ret_l; cbn [func_ifs] in Hl;
    destruct (IH Hs2 c Hc Hl0 ltac:(lia)) as (c' & fs & -> & H); exists c', fs; exact (conj eq_refl H)).
  cbn [func_ifs] in Hl; pose proof (ifs_nonneg (nodes_ (f_block f))).
  destruct (func_sim c f Hc Hl0 ltac:(lia) Hs1) as (code & Hcomp & Hrun).
  rewrite Hcomp, outcome_bind_ret_l.
  destruct (IH Hs2 (setCurrentFunc Dangling (insert_func (mkFuncInfo (func_name f) [] code)
    (labelled (ifs (nodes_ (f_block f))) c))) Hc) as (c' & fs & -> & Hfs & Hp & He & Hrun2);
    [simpl; lia|simpl; lia|].
  exists c', (mkFuncInfo (func_name f) [] code :: fs); split_and!; auto.
  - rewrite Hfs; simpl; unfold FuncTable_insert; now rewrite <- app_assoc.
  - exact (runs_seq _ _ _ _ Hrun Hrun2).
Qed.

(** ** The top level *)

(** The type [int] is in the table, and every type of that name has its size. *)
Record int_known (m : TypeTable) : Prop := {
  int_there : exists id t, m !! id = Some t /\ ti_name t = "int";
  int_size : forall id t, m !! id = Some t -> ti_name t = "int" -> ti_size t = 4;
}.

Lemma int_known_find m : int_known m -> exists t, findByName "int" m = Some t /\ ti_size t = 4.
Proof.
  intros [(id & t & Ht & Hn) Hs]; destruct (findByName "int" m) as [u|] eqn:E.
  - exists u; split; [reflexivity|]; apply findByName_some in E as [Hu [j Hj]]; eauto.
  - exfalso; exact (proj1 (findByName_none _ _) E id t Ht Hn).
Qed.

Lemma int_known_make : int_known TypeTable_make.
Proof.
  split; [exists 20, (basic_type 20 4 "int"); split; reflexivity|].
  intros id t Ht; apply elem_of_map_to_list in Ht.
  let l := eval vm_compute in (map_to_list TypeTable_make) in
    change (map_to_list TypeTable_make) with l in Ht.
  rewrite !elem_of_cons in Ht.
  repeat (destruct Ht as [[= -> ->]|Ht]; [reflexivity || discriminate|]); now apply elem_of_nil in Ht.
Qed.

(** What the first two phases leave alone, and what they keep. *)
Record tables_only (c c' : Compiler) : Prop := {
  same_label : cur_lable_ c' = cur_lable_ c;
  same_program : c_program_ c' = c_program_ c;
  same_functions : func_table_ c' = func_table_ c;
  same_errors : errors_ c' = errors_ c;
  keeps_types : table_ok (type_table_ c) /\ int_known (type_table_ c) ->
    table_ok (type_table_ c') /\ int_known (type_table_ c');
}.

#[local] Instance tables_only_preorder : PreOrder tables_only.
Proof. split; [now intros c|]; intros c1 c2 c3 [] []; split; try congruence; auto. Qed.

Lemma for_each_kept {A} (f : A -> Compiler -> outcome Compiler) l c c' :
  (forall x c c', x ∈ l -> f x c = Done c' -> tables_only c c') -> for_each f l c = Done c' -> tables_only c c'.
Proof.
  revert c; induction l as [|x l IH]; intros c Hf H; cbn [for_each] in H; [injection H as <-; reflexivity|].
  apply outcome_bind_done in H as (c1 & H1 & H); transitivity c1.
  - exact (Hf _ _ _ ltac:(now left) H1).
  - apply (IH c1); [|exact H]; intros y c2 c3 Hy; apply Hf; now right.
Qed.

Lemma compile_type_kept t c c' : new_name_ t <> "int" -> table_ok (type_table_ c) ->
  compile_type t c = Done c' -> tables_only c c'.
Proof.
  intros Hn Hok H; pose proof (compile_type_ok _ _ _ Hok H) as Hok'.
  apply compile_type_inv in H as (info & -> & Hname & _ & _ & _ & Hfresh); [|exact Hok].
  split; auto; intros [_ [(id & u & Hu & Hun) Hsize]]; split; [exact Hok'|].
  unfold insert_type, TypeTable_insert; cbn [type_table_]; rewrite Hfresh; split.
  - exists id, u; rewrite lookup_insert_ne by congruence; auto.
  - intros j w; destruct (decide (ti_type_id info = j)) as [<-|Hne].
    + rewrite lookup_insert_eq; intros [= <-]; congruence.
    + rewrite lookup_insert_ne by assumption; apply Hsize.
Qed.

Lemma compile_types_kept r c c' : forallb supported (nodes r) = true -> table_ok (type_table_ c) ->
  compile_types r c = Done c' -> tables_only c c'.
Proof.
  unfold compile_types; rewrite forallb_forall; intros Hs; revert c.
  assert (H : forall l c, (forall n, n ∈ l -> supported n = true) -> table_ok (type_table_ c) ->
      for_each (fun n c => match n with NTypedef t => compile_type t c | _ => Done c end) l c = Done c' ->
      tables_only c c').
  { induction l as [|n l IH]; intros c Hl Hok H; cbn [for_each] in H; [injection H as <-; reflexivity|].
    assert (Hl' : forall m, m ∈ l -> supported m = true) by (intros m Hm; apply Hl; now right).
    apply outcome_bind_done in H as (c1 & H1 & H).
    destruct n as [d|a|e|i|f|rt|f|t]; try (injection H1 as <-; exact (IH _ Hl' Hok H)).
    transitivity c1.
    - refine (compile_type_kept t _ _ _ Hok H1); specialize (Hl (NTypedef t) ltac:(now left)).
      cbn [supported] in Hl; intros E; rewrite E in Hl; discriminate.
    - exact (IH _ Hl' (compile_type_ok _ _ _ Hok H1) H). }
  intros c; apply H; intros n Hn; now apply Hs, list_elem_of_In.
Qed.

Lemma compile_global_kept r c c' : compile_global r c = Done c' -> tables_only c c'.
Proof.
  apply for_each_kept; intros n c1 c2 _ H; destruct n as [d| | | | | | |]; try (injection H as <-; reflexivity).
  unfold compile_global_decl in H; destruct (var_type d) as [t|]; [|injection H as <-; now split].
  apply outcome_bind_done in H as (u & _ & H); apply outcome_bind_done in H as (tf & _ & [= <-]); now split.
Qed.

(** The compiler on a supported source, once its types and globals are entered. *)
Lemma root_sim r c1 c2 : forallb supported (nodes r) = true -> root_ifs r < INT_MAX ->
  compile_types r Compiler_make = Done c1 -> compile_global r c1 = Done c2 ->
  exists c, compile r Compiler_make = Done c /\ errors_ c = [] /\
    runs (instructions (getResult c)) (for_each (exec_func machine_value) (nodes r)).
Proof.
  intros Hs Hifs H1 H2; unfold compile; rewrite H1, outcome_bind_ret_l, H2, outcome_bind_ret_l.
  apply compile_types_kept in H1; [|exact Hs|exact TypeTable_make_ok]; apply compile_global_kept in H2.
  assert (H12 : tables_only Compiler_make c2) by (transitivity c1; assumption); clear H1 H2.
  destruct (keeps_types _ _ H12 (conj TypeTable_make_ok int_known_make)) as [_ Hint%int_known_find].
  pose proof (same_label _ _ H12) as Hl; cbn [Compiler_make cur_lable_] in Hl.
  destruct (funcs_sim _ Hs c2 Hint) as (c & fs & Hc & Hfs & Hp & He & Hrun);
    [lia|unfold root_ifs in Hifs; unfold func_ifs; lia|].
  exists (link c); unfold compile_funcs; rewrite Hc; split_and!; auto.
  - cbn [link set_program errors_]; rewrite He, (same_errors _ _ H12); reflexivity.
  - unfold getResult, link; cbn [set_program c_program_ instructions].
    now rewrite Hp, Hfs, (same_program _ _ H12), (same_functions _ _ H12).
Qed.

(** ** The meaning of the source *)

Lemma exec_args_ext es last : forallb (all_ops commutes) es = true ->
  exec_args machine_value es last = exec_args int_value es last.
Proof.
  revert last; induction es as [|e es IH]; intros last H; cbn [exec_args forallb] in *; [reflexivity|].
  apply andb_true_iff in H as [H1 H2]; rewrite machine_int_value by exact H1.
  destruct (int_value e); try reflexivity; rewrite !outcome_bind_ret_l; now apply IH.
Qed.

Lemma exec_expr_commutes e w : forallb (all_ops commutes) (expr_values e) = true ->
  exec_expr machine_value e w = exec_expr int_value e w.
Proof.
  unfold exec_expr, expr_values; intros H; destruct (etype_ e), (exprs e) as [|f args];
    try reflexivity; try (unfold exec_call; now rewrite exec_args_ext);
    rewrite machine_int_value; auto; cbn [forallb] in H; now apply andb_true_iff in H as [? _].
Qed.

Lemma exec_node_commutes n : forall w,
  forallb (fun n => forallb (all_ops commutes) (node_exprs n)) (subnodes n) = true ->
  exec_node machine_value n w = exec_node int_value n w.
Proof.
  induction n as [n IH] using Node_induction; intros w H.
  rewrite subnodes_inner in H; cbn [forallb] in H; apply andb_true_iff in H as [H1 H2].
  destruct n as [d|a|e|i|f|r|f|t]; try reflexivity; cbn [exec_node node_exprs forallb] in *.
  - apply andb_true_iff in H1 as [H1 _]; destruct (env w !! _); [|reflexivity].
    now rewrite machine_int_value.
  - now apply exec_expr_commutes.
  - cbn [inner children] in *; apply for_each_ext; intros m w' Hm; rewrite Forall_forall in IH.
    apply IH; [exact Hm|]; rewrite forallb_forall in H2 |- *; intros x Hx; apply H2.
    apply list_elem_of_In; unfold flat; apply list_elem_of_join; exists (subnodes m); split.
    + now apply list_elem_of_In.
    + now apply list_elem_of_fmap_2.
Qed.

Lemma exec_root_commutes r : forallb node_commutes (nodes r) = true ->
  exec_root machine_value r = exec_root int_value r.
Proof.
  intros H; rewrite forallb_forall in H; apply for_each_ext; intros n w Hn.
  apply list_elem_of_In, H in Hn; destruct n as [d|a|e|i|f|rt|f|t]; try reflexivity.
  cbn [exec_func node_commutes] in *; rewrite forallb_forall in Hn.
  apply for_each_ext; intros m w' Hm; apply exec_node_commutes, forallb_forall; intros x Hx; apply Hn.
  apply list_elem_of_In; unfold flat; apply list_elem_of_join; exists (subnodes m); split.
  - now apply list_elem_of_In.
  - now apply list_elem_of_fmap_2.
Qed.

(** A compiled program on the machine. *)
Lemma program_runs r c : forallb supported (nodes r) = true -> root_ifs r < INT_MAX ->
  compile r Compiler_make = Done c ->
  Z.of_nat (length (instructions (getResult c))) < 2 ^ 64 ->
  let p := getResult c in
  match exec_root machine_value r with
  | Done w => exists vm, Run (length (instructions p)) (Init p) = Done vm /\
                output vm = rev (map int_line (printed w)) /\ halted vm = true
  | o => fails o (Run (length (instructions p)) (Init p))
  end.
Proof.
  intros Hs Hifs Hc Hlen p; unfold exec_root.
  pose proof Hc as (c1 & H1 & (c2 & H2 & _)%outcome_bind_done)%outcome_bind_done.
  destruct (root_sim r c1 c2 Hs Hifs H1 H2) as (c' & Hc' & _ & Hruns).
  rewrite Hc in Hc'; injection Hc' as <-.
  assert (Hat : at_code (Init p) (instructions p)).
  { exists [], []; split_and!; auto; simpl; now rewrite app_nil_r. }
  specialize (Hruns (Init p) (mkWorld ∅ []) (conj eq_refl eq_refl) Hat).
  destruct (for_each _ _ _) as [w| | |]; try exact Hruns.
  destruct Hruns as (vm & Hrun & [Hp Hpc Hfin _] & [_ Hout]); exists vm; split_and!; auto.
  unfold halted; rewrite Hfin, Hp, Hpc; simpl; apply Z.leb_le; fold p; lia.
Qed.
End Programs.
