(* ===== verification/CompilerFrame.v ===== *)
(** * CompilerFrame: all that compiling a statement changes, but the code it appends

    Code generation appends to the code of the current function.  The rest of the
    state it leaves is a function of the statement and of the state before: the
    variables and the frame ([enter]), the errors ([unknown_types]) and the labels
    ([ifs]); and expressions change nothing else at all. *)

From S2P Require Import Prelude Machine Common Token Ast ParseMonad Memory Vm Compiler Codegen Exec.
Import token.

#[local] Set Warnings "-register-all".

(** ** Operations that append code, and may move the top of the frame *)

(** [m] appends code to the current function and leaves everything else. *)
Definition codes (m : Compiler -> outcome Compiler) : Prop := forall c f c',
  m (compiling f c) = Done c' -> exists k, c' = compiling (appended k f) c.

Definition moves (m : Compiler -> outcome Compiler) : Prop := forall c f c',
  m (compiling f c) = Done c' -> exists k t, c' = compiling (set_top t (appended k f)) c.

Lemma codes_moves m : codes m -> moves m.
Proof. intros Hm c f c' (k & ->)%Hm; exists k, (cur_stack_top f); now destruct f. Qed.

Lemma codes_ret : codes Done.
Proof. intros c f c' [= <-]; exists []; now rewrite appended_nil. Qed.

Lemma codes_emit i : codes (emit i).
Proof. intros c f c' [= <-]; now exists [i]. Qed.

Lemma codes_with {A} (m : Compiler -> outcome A) (k : A -> Compiler -> outcome Compiler) :
  (forall a, codes (k a)) -> codes (fun c => m c ≫= fun a => k a c).
Proof. intros Hk c f c' (a & _ & H)%outcome_bind_done; exact (Hk a c f c' H). Qed.

Lemma codes_bind (m k : Compiler -> outcome Compiler) : codes m -> codes k -> codes (fun c => m c ≫= k).
Proof.
  intros Hm Hk c f c' (c1 & (k1 & ->)%Hm & (k2 & ->)%Hk)%outcome_bind_done.
  exists (k1 ++ k2); now rewrite appended_app.
Qed.

Lemma codes_for_each {A} (f : A -> Compiler -> outcome Compiler) l :
  Forall (fun x => codes (f x)) l -> codes (for_each f l).
Proof. induction 1 as [|x l Hx _ IH]; [exact codes_ret|exact (codes_bind _ _ Hx IH)]. Qed.

Lemma moves_with {A} (m : Compiler -> outcome A) (k : A -> Compiler -> outcome Compiler) :
  (forall a, moves (k a)) -> moves (fun c => m c ≫= fun a => k a c).
Proof. intros Hk c f c' (a & _ & H)%outcome_bind_done; exact (Hk a c f c' H). Qed.

Lemma moves_bind (m k : Compiler -> outcome Compiler) : moves m -> moves k -> moves (fun c => m c ≫= k).
Proof.
  intros Hm Hk c f c' (c1 & (k1 & t1 & ->)%Hm & (k2 & t2 & ->)%Hk)%outcome_bind_done.
  exists (k1 ++ k2), t2; unfold appended, set_top; simpl; now rewrite app_assoc.
Qed.

Lemma moves_top t : moves (set_stack_top t).
Proof. intros c f c' [= <-]; exists [], t; unfold appended, set_top; simpl; now rewrite app_nil_r. Qed.

(** ** Expressions *)

Lemma codes_literature e : codes (compile_expr_literature e).
Proof.
  unfold compile_expr_literature; intros c f c'; repeat case_decide; [| |apply codes_ret];
    apply (codes_with top_of (fun t => emit _)); intros t; apply codes_emit.
Qed.

Lemma codes_emit_op t origin : codes (emit_op t origin).
Proof.
  unfold emit_op; destruct (op_inst t); [|exact codes_ret].
  apply (codes_with top_of (fun top => emit _)); intros top; apply codes_emit.
Qed.

Lemma codes_call name : codes (compile_call name).
Proof.
  unfold compile_call; intros c f c'; destruct (String.eqb name "print"); [|apply codes_ret].
  apply (codes_with top_of (fun top => emit _)); intros top; apply codes_emit.
Qed.

Lemma codes_ops_loop rec origin es os : Forall (fun e => codes (rec e)) es ->
  codes (ops_loop rec origin es os).
Proof.
  intros Hes; revert os; induction Hes as [|e es He _ IH]; intros [|t os]; cbn [ops_loop];
    try exact codes_ret; [intros c f c'; discriminate|].
  apply (codes_bind (rec e) (fun c => emit_op t origin c ≫= ops_loop rec origin es os) He).
  apply codes_bind; [apply codes_emit_op|apply IH].
Qed.

(** The operands move the top, and the end puts it back. *)
Lemma codes_expr_ops rec e : Forall (fun e => codes (rec e)) (exprs e) -> codes (compile_expr_ops rec e).
Proof.
  intros Hes c f c' H; unfold compile_expr_ops in H.
  change (top_of (compiling f c)) with (Done (cur_stack_top f)) in H; rewrite outcome_bind_ret_l in H.
  apply outcome_bind_done in H as (c1 & H & Hend).
  assert (Hc1 : exists k t, c1 = compiling (set_top t (appended k f)) c); [clear Hend|clear H].
  { revert H; generalize (cur_stack_top f) as origin; intros origin H; revert c f c1 H.
    destruct (exprs e) as [|e0 es]; [discriminate|]; apply Forall_cons in Hes as [H0 Hes].
    case_bool_decide.
    - refine (codes_moves (fun c => rec e0 c ≫= emit (mkInst (BinD Mul I32) (base STACK_TOP origin)
        (i32u64 (-1)) (base STACK_TOP origin))) _); apply codes_bind; [exact H0|apply codes_emit].
    - apply (moves_bind (rec e0) (fun c => top_of c ≫= fun t => checked_s 32 (t + getExprSize e0) ≫=
        fun t => set_stack_top t c ≫= ops_loop rec origin es (ops e)) (codes_moves _ H0)).
      apply (moves_with top_of (fun t c => checked_s 32 (t + getExprSize e0) ≫=
        fun t => set_stack_top t c ≫= ops_loop rec origin es (ops e))); intros t.
      apply (moves_with (fun _ => checked_s 32 (t + getExprSize e0))
        (fun t c => set_stack_top t c ≫= ops_loop rec origin es (ops e))); intros t'.
      apply moves_bind; [apply moves_top|now apply codes_moves, codes_ops_loop]. }
  destruct Hc1 as (k & t & ->); injection Hend as <-; exists k; now destruct f.
Qed.

Lemma codes_expr e : codes (compile_expr e).
Proof.
  induction e as [e IH] using Expr_induction; destruct e as [a b t w es os]; cbn [compile_expr etype_].
  destruct t; [apply codes_literature|now apply codes_expr_ops|]; unfold compile_funcall; simpl in *.
  destruct es as [|f es]; [apply codes_call|]; apply Forall_cons in IH as [_ IH].
  apply codes_bind; [now apply codes_for_each|apply codes_call].
Qed.

(** ** Statements *)

Section Statements.
Context {order : IterOrder}.

(** The variables of a function and the top of its frame. *)
Definition scope_state : Type := gmap string VarInfo * Z.

Definition scope_of (f : CompilingFunc) : scope_state := (var_address_map f, cur_stack_top f).

(** [emplace] and [operator[]]: a variable that is there stays as it is. *)
Definition enter_var (name : string) (v : VarInfo) (m : gmap string VarInfo) : gmap string VarInfo :=
  match m !! name with Some _ => m | None => <[name := v]> m end.

Definition declared_type (types : TypeTable) (d : Declaration) : option TypeInfo :=
  t ← var_type d; findByName (vt_name_ t) types.

(** A declaration with a known type takes the bytes at the top of the frame; an
    assignment enters a variable of no bytes; no other statement enters one. *)
Definition enter (types : TypeTable) (e : scope_state) (n : Node) : scope_state :=
  match n with
  | NDeclaration d =>
      match declared_type types d with
      | Some t => (enter_var (d_var_name d) (mkVarInfo (d_var_name d) None (Some (ti_size t)) (Some e.2) "") e.1,
                   e.2 + ti_size t)
      | None => e
      end
  | NAssignment a => (enter_var (a_var_name a) VarInfo_zero e.1, e.2)
  | _ => e
  end.

(** The errors of a statement: its type, when that is unknown. *)
Definition unknown_type (types : TypeTable) (n : Node) : list string :=
  match n with
  | NDeclaration d =>
      match var_type d, declared_type types d with
      | Some t, None => ["type is not defined: " +:+ vt_name_ t]%string
      | _, _ => []
      end
  | _ => []
  end.

(** The state after the statements [ns] were compiled in [f] to the code [k]. *)
Definition after (ns : list Node) (k : list Instruction) (f : CompilingFunc) (c : Compiler) : Compiler :=
  let types := type_table_ c in
  let e := fold_left (enter types) (flat ns) (scope_of f) in
  mkCompiler (cur_lable_ c + ifs ns) (c_program_ c) types (global_table_ c) (func_table_ c)
    (Live (mkCompilingFunc (cf_name f) e.2 e.1 (cf_instructions f ++ k)))
    (errors_ c ++ mjoin (map (unknown_type types) (flat ns))).

Definition frames (ns : list Node) (m : Compiler -> outcome Compiler) : Prop := forall c f c',
  m (compiling f c) = Done c' -> exists k, c' = after ns k f c.

Lemma after_nil k f c : after [] k f c = compiling (appended k f) c.
Proof. unfold after; simpl; rewrite app_nil_r; unfold ifs, total; simpl; now rewrite Z.add_0_r. Qed.

Lemma codes_frames m : codes m -> frames [] m.
Proof. intros Hm c f c' (k & ->)%Hm; exists k; now rewrite after_nil. Qed.

Lemma ifs_app ns ms : ifs (ns ++ ms) = ifs ns + ifs ms.
Proof.
  unfold ifs, total; rewrite flat_app; induction (flat ns) as [|n l IH]; simpl; [reflexivity|lia].
Qed.

Lemma frames_bind ns ms (m k : Compiler -> outcome Compiler) : frames ns m -> frames ms k ->
  frames (ns ++ ms) (fun c => m c ≫= k).
Proof.
  intros Hm Hk c f c' (c1 & (k1 & ->)%Hm & H)%outcome_bind_done.
  match type of H with k (after ns k1 f c) = _ =>
    change (after ns k1 f c) with (compiling (mkCompilingFunc (cf_name f)
      (fold_left (enter (type_table_ c)) (flat ns) (scope_of f)).2
      (fold_left (enter (type_table_ c)) (flat ns) (scope_of f)).1 (cf_instructions f ++ k1)) (after ns k1 f c)) in H
  end.
  apply Hk in H as (k2 & ->); exists (k1 ++ k2); unfold after, scope_of; simpl.
  rewrite ifs_app, flat_app, fold_left_app, map_app, join_app, <- !app_assoc, Z.add_assoc.
  now destruct (fold_left (enter (type_table_ c)) (flat ns) _).
Qed.

Lemma frames_for_each ns rec : Forall (fun n => frames [n] (rec n)) ns -> frames ns (for_each rec ns).
Proof.
  induction 1 as [|n ns Hn _ IH]; [apply codes_frames, codes_ret|exact (frames_bind [n] ns _ _ Hn IH)].
Qed.

Lemma flat_one n : flat [n] = n :: flat (inner n).
Proof. unfold flat; cbn [map]; change (mjoin [?x]) with (x ++ []); rewrite app_nil_r; apply subnodes_inner. Qed.

Lemma ifs_one n : ifs [n] = is_if n + ifs (inner n).
Proof. apply total_one. Qed.

(** A statement that contains no other. *)
Lemma after_leaf n k f c : inner n = [] -> is_if n = 0 ->
  after [n] k f c = mkCompiler (cur_lable_ c) (c_program_ c) (type_table_ c) (global_table_ c) (func_table_ c)
    (Live (let e := enter (type_table_ c) (scope_of f) n in
           mkCompilingFunc (cf_name f) e.2 e.1 (cf_instructions f ++ k)))
    (errors_ c ++ unknown_type (type_table_ c) n).
Proof.
  intros Hi Hf; unfold after, ifs; rewrite total_one, Hi, Hf; unfold flat; cbn [map].
  rewrite subnodes_inner, Hi; unfold flat; simpl; rewrite app_nil_r.
  change (total is_if []) with 0; now rewrite !Z.add_0_r.
Qed.

Lemma frames_idle n : inner n = [] -> is_if n = 0 ->
  (forall types e, enter types e n = e) -> (forall types, unknown_type types n = []) ->
  forall m, codes m -> frames [n] m.
Proof.
  intros Hi Hf He Hu m Hm c f c' (k & ->)%Hm; exists k; rewrite after_leaf, He, Hu, app_nil_r by assumption.
  reflexivity.
Qed.

Lemma frames_declaration d : frames [NDeclaration d] (compile_declaration d).
Proof.
  intros c f c' H; unfold compile_declaration in H; apply outcome_bind_done in H as (_ & _ & H).
  apply outcome_bind_done in H as (tname & Ht & H); unfold decl_type_name in Ht.
  exists []; rewrite after_leaf, app_nil_r by reflexivity.
  cbn [enter unknown_type]; unfold declared_type; destruct (var_type d) as [t|]; [|discriminate Ht].
  injection Ht as <-; cbn [mbind option_bind]; cbn [type_table_ setCurrentFunc] in H.
  destruct (findByName (vt_name_ t) (type_table_ c)) as [s|].
  - change (current (compiling f c)) with (Done f) in H; rewrite outcome_bind_ret_l in H.
    apply outcome_bind_done in H as (top & [_ ->]%checked_s_done & [= <-]).
    unfold enter_var, scope_of; simpl; rewrite app_nil_r; reflexivity.
  - injection H as <-; now destruct f.
Qed.

Lemma addMoveInsts_inv n i dst from f f' : move_loop n i dst from f = Done f' ->
  exists k, f' = appended k f.
Proof.
  revert i f; induction n as [|n IH]; intros i f H; cbn [move_loop] in H.
  { injection H as <-; exists []; now rewrite appended_nil. }
  inv_done H; apply IH in H as [k ->]; eexists; exact (appended_app [_] k f).
Qed.

Lemma frames_assignment a : frames [NAssignment a] (compile_assignment a).
Proof.
  intros c f c' H; unfold compile_assignment in H; apply outcome_bind_done in H as (_ & _ & H).
  change (current (compiling f c)) with (Done f) in H; rewrite outcome_bind_ret_l in H.
  destruct (var_slot (a_var_name a) f) as [vi g] eqn:Eg.
  assert (Hg : g = set_vars (enter_var (a_var_name a) VarInfo_zero (var_address_map f)) f /\
    is_Some (var_address_map g !! a_var_name a)).
  { unfold var_slot, enter_var in *; destruct (var_address_map f !! a_var_name a) eqn:E; injection Eg as <- <-.
    - split; [now destruct f|now rewrite E].
    - split; [reflexivity|]; simpl; rewrite lookup_insert_eq; eauto. }
  destruct Hg as [Hg [w Hw]]; rewrite Hw in H; rewrite compiling_twice in H.
  apply outcome_bind_done in H as (n & _ & H); apply outcome_bind_done in H as (c1 & (k1 & ->)%codes_expr & H).
  change (current (compiling ?x c)) with (Done x) in H; rewrite outcome_bind_ret_l in H.
  apply outcome_bind_done in H as (vi' & _ & H); apply outcome_bind_done in H as (addr & _ & H).
  apply outcome_bind_done in H as (h' & Hm & [= <-]); apply addMoveInsts_inv in Hm as [k2 ->].
  exists (k1 ++ k2); rewrite after_leaf, app_nil_r by reflexivity; subst g; simpl.
  now rewrite app_assoc.
Qed.

Lemma frames_block rec b : Forall (fun n => frames [n] (rec n)) (nodes_ b) ->
  frames (nodes_ b) (compile_block_with rec b).
Proof. apply frames_for_each. Qed.

(** What [compile_if] emits: a jump first and a label last. *)
Lemma compile_if_inv rec i c f c' : Forall (fun n => frames [n] (rec n)) (children (NIf i)) ->
  compile_if rec i (compiling f c) = Done c' ->
  let label := base LABEL (cur_lable_ c) in
  exists k, c' = after [NIf i] (mkInst (Jump Eq_ I32) 0 0 label :: k ++ [mkInst Label label 0 0]) f c.
Proof.
  intros Hch H; unfold compile_if in H; apply Forall_app in Hch as [Hbr Htl].
  unfold alloc_new_label in H; apply outcome_bind_done in H as ([label c0] & Hl & H).
  apply outcome_bind_done in Hl as (n & [_ ->]%checked_s_done & [= <- <-]).
  cbn [cur_lable_ setCurrentFunc] in H; change (set_label (cur_lable_ c + 1) (compiling f c)) with
    (compiling f (set_label (cur_lable_ c + 1) c)) in H.
  rewrite emit_compiling, outcome_bind_ret_l in H.
  assert (Hall : frames (children (NIf i)) (fun c => for_each (fun b => compile_block_with rec b.2) (branches_ i) c ≫=
    fun c => match tail_else_ i with Some b => compile_block_with rec b c | None => Done c end)).
  { apply frames_bind.
    - clear Htl H; induction (branches_ i) as [|b brs IH]; [apply codes_frames, codes_ret|].
      apply Forall_app in Hbr as [Hb Hbr]; exact (frames_bind _ _ _ _ (frames_block rec b.2 Hb) (IH Hbr)).
    - destruct (tail_else_ i); [now apply frames_block|apply codes_frames, codes_ret]. }
  apply outcome_bind_done in H as (c1 & Hb & H); apply outcome_bind_done in H as (c2 & Ht & H).
  match type of Hb with for_each _ _ (compiling ?g ?c) = _ =>
    destruct (Hall c g c2) as [k ->]; [apply outcome_bind_done; eauto|]
  end.
  injection H as <-; exists k; unfold after; rewrite flat_one, ifs_one; cbn [is_if inner fold_left enter map unknown_type].
  change (mjoin ([] :: ?y)) with (mjoin y); unfold push_inst, set_label, setCurrentFunc; simpl.
  rewrite <- !app_assoc; simpl; now rewrite Z.add_assoc.
Qed.

Lemma frames_statement n : frames [n] (compile_statement n).
Proof.
  induction n as [n IH] using Node_induction; destruct n as [d|a|e|i|f|r|f|t]; cbn [compile_statement].
  - apply frames_declaration.
  - apply frames_assignment.
  - apply frames_idle; auto; apply codes_expr.
  - intros c f c' H; apply compile_if_inv in H as [k ->]; [|exact IH]; eauto.
  - apply frames_idle; auto; exact codes_ret.
  - apply frames_idle; auto; exact codes_ret.
  - intros c g c' H; destruct (frames_block _ _ IH c g c' H) as [k ->]; exists k.
    unfold after; rewrite flat_one, ifs_one; reflexivity.
  - apply frames_idle; auto; exact codes_ret.
Qed.

(** Variables that are there keep their slot. *)
Lemma enter_keeps types e n x v : e.1 !! x = Some v -> (enter types e n).1 !! x = Some v.
Proof.
  intros Hx; assert (Hv : forall y w, enter_var y w e.1 !! x = Some v).
  { intros y w; unfold enter_var; destruct (e.1 !! y) eqn:E; [exact Hx|].
    rewrite lookup_insert_ne; [exact Hx|congruence]. }
  destruct n; simpl; auto; destruct (declared_type _ _); simpl; auto.
Qed.

Lemma enter_all_keep types ns : forall e x v, e.1 !! x = Some v ->
  (fold_left (enter types) ns e).1 !! x = Some v.
Proof. induction ns as [|n ns IH]; intros e x v Hx; [exact Hx|]; apply IH, enter_keeps, Hx. Qed.
End Statements.
