(* ===== verification/CompilerProps.v ===== *)
(** * CompilerProps: the properties of the compiler and of the code it makes
    (src/src/compiler.cpp run by src/src/vm.cpp) *)

From S2P Require Import Prelude Machine Common Token TokenStream Ast ParseMonad ExprParser.
From S2P Require Import StmtParser TokenView Grammar StmtComplete Texts Memory Vm Compiler Types Codegen.
From S2P Require Import CodegenRun Exec Pipeline Simulation Programs CompilerFrame.
Import token.

(** ** Examples for the witnesses *)

Definition chars (s : string) : list ascii := String.list_ascii_of_string s.

(** The order of a map's own list. *)
Definition some_order : IterOrder := {| iter m := map_to_list m; iter_perm m := reflexivity _ |}.

Definition parsed (src : string) : Root :=
  match parse_source (chars src) with
  | Done (Ok r, _) => r
  | _ => mkRoot Loc_default Loc_default (mkBlock Loc_default Loc_default [])
  end.

Definition example_text : string := "
type struct {
    x int

    y int
} point

var origin point = 0

func main(){
    var c int = 0

    c = -1 + 2 * 3
    print(40 + 2)
    for var i int = 0; i < 10; i = i + 1 {
        var d int = 0
        d = 7
        print(5, 3 * 3)
        return 1
    }

}

func other(){
    other(2)
    print(1 + 1, 2 * 2)
}
".

Definition example_root : Root := parsed example_text.

Definition int_lit (z : Z) : Expr := MakeAtomic (CreateInt 1 z).
Definition binary (t : Type_) (l r : Expr) : Expr := Expr_make OPS [l; r] [t].

(** ** Compiled programs *)

(** C1: from the text to the output.  When a source is written with the tokens of
    a canonical tree, and any blank lines, whose functions are of the covered kind and whose operators are [+],
    [*] and negation, the source parses to that tree, and the program that is compiled
    from it prints what the abstract machine prints, which runs the functions in the
    order of the source, and stops at the end; when the abstract machine overflows an
    [int] or reaches an [if], the byte-code machine faults in the same way. *)
Theorem source_output (order : IterOrder) src r :
  Root_canon r = true -> written src r ->
  forallb supported (nodes r) = true -> root_ifs r < INT_MAX ->
  forallb node_commutes (nodes r) = true ->
  exists r' s, parse_source src = Done (Ok r', s) /\
    forall c, compile r' Compiler_make = Done c ->
      let p := getResult c in
      Z.of_nat (length (instructions p)) < 2 ^ 64 ->
      match exec_root int_value r with
      | Done w => exists vm, Run (length (instructions p)) (Init p) = Done vm /\
                    output vm = rev (map int_line (printed w)) /\ halted vm = true
      | Undef f => Run (length (instructions p)) (Init p) = Undef f
      | Abort t => Run (length (instructions p)) (Init p) = Abort t
      | OutOfFuel => False
      end.
Proof.
  intros Hr Ht Hs Hifs Hcm; destruct (written_reads src r Hr Ht) as (r' & s & E & Hb & _).
  exists r', s; split; [exact E|]; intros c Hc p Hlen.
  destruct (same_program_of r' r Hb) as [S1 S2 S3 <-]; rewrite <- S1, <- S2, <- S3 in *.
  rewrite <- exec_root_commutes by exact Hcm.
  pose proof (program_runs r' c Hs Hifs Hc Hlen) as H; fold p in H.
  destruct (exec_root machine_value r'); exact H.
Qed.

(** C2: a program of the covered kind, with any operators, on the byte-code machine: the
    machine follows the abstract one that exchanges the operands of subtractions and
    divisions; it prints the same lines and stops at the end of the program, or fails
    where the abstract machine fails. *)
Theorem program_correct (order : IterOrder) r c :
  forallb supported (nodes r) = true -> root_ifs r < INT_MAX ->
  compile r Compiler_make = Done c ->
  let p := getResult c in
  Z.of_nat (length (instructions p)) < 2 ^ 64 ->
  match exec_root machine_value r with
  | Done w => exists vm, Run (length (instructions p)) (Init p) = Done vm /\
                output vm = rev (map int_line (printed w)) /\ halted vm = true
  | Undef f => Run (length (instructions p)) (Init p) = Undef f
  | Abort t => Run (length (instructions p)) (Init p) = Abort t
  | OutOfFuel => False
  end.
Proof.
  intros Hs Hifs Hc p Hlen; pose proof (program_runs r c Hs Hifs Hc Hlen) as H; fold p in H.
  destruct (exec_root machine_value r); exact H.
Qed.

(** C3: code generation never fails on a program of the covered kind: once its types and
    its global variables are entered, it compiles, without an error. *)
Theorem program_compiles (order : IterOrder) r c1 c2 :
  forallb supported (nodes r) = true -> root_ifs r < INT_MAX ->
  compile_types r Compiler_make = Done c1 -> compile_global r c1 = Done c2 ->
  exists c, compile r Compiler_make = Done c /\ hasError c = false.
Proof.
  intros Hs Hifs H1 H2; destruct (root_sim r c1 c2 Hs Hifs H1 H2) as (c & Hc & He & _).
  exists c; split; [exact Hc|]; unfold hasError; now rewrite He.
Qed.

(** ** Expressions *)

(** C4: the code of any expression of number literals, with all the operators:
    [compile_expr] appends it to the current function and changes nothing else;
    wherever it runs, it leaves [machine_value] in the four bytes at the top of the
    frame, writes only the bytes it is allowed, and faults exactly when the
    arithmetic does. *)
Theorem expression_correct e f c : well_shaped e -> closed e -> fits (cur_stack_top f) e ->
  let code := code_of (cur_stack_top f) e in
  compile_expr e (setCurrentFunc (Live f) c) =
    Done (setCurrentFunc (Live (appended code f)) c) /\
  forall vm, at_code vm code -> room vm (cur_stack_top f) (4 + scratch e) ->
    delivers vm code (cur_stack_top f) (4 + scratch e) (machine_value e).
Proof.
  intros Hw Hc Hf code; split; [exact (compile_expr_code e Hw f c Hf)|].
  intros vm Hat Hr; exact (closed_correct e Hc vm _ Hat Hr).
Qed.

(** A subtraction is compiled with its operands exchanged: the code of [a - b]
    computes [b - a], where the source means [a - b]. *)
Theorem subtraction_reversed a b vm top :
  in_s 32 a = true -> in_s 32 b = true ->
  let e := binary token.Sub (int_lit a) (int_lit b) in
  at_code vm (code_of top e) -> room vm top 8 ->
  delivers vm (code_of top e) top 8 (checked_s 32 (b - a)) /\
  int_value e = checked_s 32 (a - b).
Proof.
  intros Ha Hb e Hat Hr.
  assert (He : closed e).
  { eapply closed_ops; [reflexivity..|now right|].
    repeat constructor; now left. }
  assert (Hm : machine_value e = checked_s 32 (b - a) /\ int_value e = checked_s 32 (a - b)).
  { unfold e, machine_value, int_value; cbn; unfold literal_value; simpl.
    rewrite !wrap_s_small by (assumption || lia).
    destruct (checked_s 32 (b - a)), (checked_s 32 (a - b)); split; reflexivity. }
  destruct Hm as [Hm Hi]; split; [|exact Hi]; rewrite <- Hm.
  exact (closed_correct e He vm top Hat Hr).
Qed.

Lemma source_output_witness :
  exists r' s, parse_source (chars example_text) = Done (Ok r', s) /\
    forall c, @compile some_order r' Compiler_make = Done c ->
      Z.of_nat (length (instructions (getResult c))) < 2 ^ 64 ->
      exists vm, Run (length (instructions (getResult c))) (Init (getResult c)) = Done vm /\
        output vm = rev (map int_line [42; 9; 4]) /\ halted vm = true.
Proof.
  refine (source_output some_order (chars example_text) example_root _ _ _ _ _).
  - vm_compute; reflexivity.
  - eexists; split; [apply lex_tokens; vm_compute; reflexivity|vm_compute; reflexivity].
  - vm_compute; reflexivity.
  - vm_compute; reflexivity.
  - vm_compute; reflexivity.
Defined.

(** [print(10 - 3)], and an [if] after it. *)
Definition minus_root : Root := parsed "func main(){
    print(10 - 3)
}
".
Definition if_root : Root := parsed "func main(){
    print(1)
    if 1 < 2 {
        print(2)
    }
}
".

Definition compiled_root (r : Root) : Compiler :=
  match @compile some_order r Compiler_make with Done c => c | _ => Compiler_make end.

Lemma program_correct_witness :
  (exists vm, Run 4 (Init (getResult (compiled_root minus_root))) = Done vm /\
    output vm = rev (map int_line [-7]) /\ halted vm = true) /\
  Run 6 (Init (getResult (compiled_root if_root))) = Abort "no implement".
Proof.
  split.
  - exact (program_correct some_order minus_root (compiled_root minus_root) ltac:(vm_compute; reflexivity)
      ltac:(vm_compute; reflexivity) ltac:(vm_compute; reflexivity) ltac:(vm_compute; reflexivity)).
  - exact (program_correct some_order if_root (compiled_root if_root) ltac:(vm_compute; reflexivity)
      ltac:(vm_compute; reflexivity) ltac:(vm_compute; reflexivity) ltac:(vm_compute; reflexivity)).
Defined.

Definition example_types : Compiler :=
  match @compile_types some_order example_root Compiler_make with Done c => c | _ => Compiler_make end.
Definition example_globals : Compiler :=
  match @compile_global some_order example_root example_types with Done c => c | _ => Compiler_make end.

Lemma program_compiles_witness :
  exists c, @compile some_order example_root Compiler_make = Done c /\ hasError c = false.
Proof.
  apply (program_compiles some_order example_root example_types example_globals); vm_compute; reflexivity.
Defined.

(** The machine about to run [code], alone in its program. *)
Definition loaded (code : list Instruction) : ByteCodeVM := Init (mkProgram "" code).

Lemma loaded_at code : Z.of_nat (length code) < 2 ^ 64 -> at_code (loaded code) code.
Proof. intros H; exists [], []; rewrite app_nil_r; split_and!; auto. Qed.

Definition example_expr : Expr :=
  binary Plus (int_lit 2) (binary Star (int_lit 3) (int_lit 4)).

Lemma expression_correct_witness :
  compile_expr example_expr (setCurrentFunc (Live (CompilingFunc_make "f")) Compiler_make) =
    Done (setCurrentFunc (Live (appended (code_of 0 example_expr) (CompilingFunc_make "f"))) Compiler_make) /\
  delivers (loaded (code_of 0 example_expr)) (code_of 0 example_expr) 0 12 (Done 14).
Proof.
  destruct (expression_correct example_expr (CompilingFunc_make "f") Compiler_make) as [H1 H2].
  - now apply well_shapedb_ok.
  - now apply closedb_ok.
  - split; vm_compute; discriminate.
  - split; [exact H1|]; apply (H2 (loaded (code_of 0 example_expr))).
    + apply loaded_at; reflexivity.
    + unfold room; vm_compute; repeat split; discriminate.
Defined.

Lemma subtraction_reversed_witness :
  let code := code_of 0 (binary token.Sub (int_lit 7) (int_lit 2)) in
  delivers (loaded code) code 0 8 (Done (-5)).
Proof.
  apply (subtraction_reversed 7 2 (loaded (code_of 0 (binary token.Sub (int_lit 7) (int_lit 2)))) 0);
    [reflexivity..|apply loaded_at; reflexivity|].
  unfold room; vm_compute; repeat split; discriminate.
Defined.

(** ** Statements *)

Definition at_type_int : option VarType := Some (mkVarType Loc_default Loc_default false None "int").
Definition example_decl (x : string) (e : Expr) : Declaration :=
  mkDeclaration Loc_default Loc_default x at_type_int e.
Definition example_assign (x : string) (e : Expr) : Assignment :=
  mkAssignment Loc_default Loc_default x e.
Definition compiling_f : Compiler := setCurrentFunc (Live (CompilingFunc_make "f")) Compiler_make.

(** C5: all that compiling a statement changes, of any kind and however nested, is
    determined but for the code that it appends to the current function.  The tables,
    the program and the functions already compiled stay; the label counter grows by the
    number of [if]s; the errors are one for each declaration of an unknown type, in
    order; a declaration of a known type takes its size at the top of the frame, and
    enters its variable there unless the name has one; an assignment enters its variable,
    with no bytes, unless the name has one.  So no variable ever moves; and an expression
    changes nothing but the code: the top of the frame is where it was. *)
Theorem statement_frame (order : IterOrder) f c :
  (forall n c', compile_statement n (setCurrentFunc (Live f) c) = Done c' ->
    exists k, c' = after [n] k f c) /\
  (forall e c', compile_expr e (setCurrentFunc (Live f) c) = Done c' ->
    exists k, c' = setCurrentFunc (Live (appended k f)) c) /\
  (forall n c' x v, compile_statement n (setCurrentFunc (Live f) c) = Done c' ->
    var_address_map f !! x = Some v ->
    exists f', current_func_ c' = Live f' /\ var_address_map f' !! x = Some v).
Proof.
  split_and!.
  - intros n c' H; exact (frames_statement n c f c' H).
  - intros e c' H; exact (codes_expr e c f c' H).
  - intros n c' x v [k ->]%frames_statement Hx; eexists; split; [reflexivity|]; cbn [var_address_map].
    apply (enter_all_keep _ (flat [n]) (scope_of f)), Hx.
Qed.

(** [if { var x int; var y T; var x int; x = 7; z = 8 }] *)
Definition declare (name type : string) : Node :=
  NDeclaration (mkDeclaration Loc_default Loc_default name
    (Some (mkVarType Loc_default Loc_default false None type)) (int_lit 0)).

Definition framed_if : Node := NIf (mkIf Loc_default Loc_default [(int_lit 1, mkBlock Loc_default Loc_default
  [declare "x" "int"; declare "y" "T"; declare "x" "int";
   NAssignment (example_assign "x" (int_lit 7)); NAssignment (example_assign "z" (int_lit 8))])] None).

Lemma statement_frame_witness : exists k, @compile_statement some_order framed_if compiling_f =
  Done (mkCompiler 2 Program_make TypeTable_make [] []
    (Live (mkCompilingFunc "f" 8 {["x" := mkVarInfo "x" None (Some 4) (Some 0) ""; "z" := VarInfo_zero]} k))
    ["type is not defined: T"]).
Proof.
  destruct (@compile_statement some_order framed_if compiling_f) as [c'|f|w|] eqn:E;
    try (exfalso; vm_compute in E; discriminate E).
  destruct (proj1 (statement_frame some_order (CompilingFunc_make "f") Compiler_make) framed_if c' E) as [k ->].
  exists k; vm_compute; reflexivity.
Defined.

(** C6: an assignment to a variable that was never declared is not an error: the
    variable is entered with size 0 at address 0, the expression is compiled, and
    its value is stored nowhere. *)
Theorem assignment_undeclared a f c : var_address_map f !! a_var_name a = None ->
  well_shaped (a_expr a) -> fits (cur_stack_top f) (a_expr a) ->
  compile_assignment a (setCurrentFunc (Live f) c) =
    Done (setCurrentFunc (Live (mkCompilingFunc (cf_name f) (cur_stack_top f)
      (<[a_var_name a := VarInfo_zero]> (var_address_map f))
      (cf_instructions f ++ code_of (cur_stack_top f) (a_expr a)))) c).
Proof.
  intros Hx Hw Hf; unfold compile_assignment.
  rewrite assert_compiling, outcome_bind_ret_l, current_compiling, outcome_bind_ret_l.
  unfold var_slot; rewrite Hx; cbv beta iota zeta; cbn [set_vars var_address_map].
  rewrite lookup_insert_eq; cbn [VarInfo_zero vi_size deref]; rewrite outcome_bind_ret_l, compiling_twice.
  rewrite compile_expr_code, outcome_bind_ret_l by assumption.
  rewrite current_compiling, outcome_bind_ret_l; cbn [appended var_address_map set_vars].
  rewrite lookup_insert_eq; cbn [deref vi_address VarInfo_zero]; now rewrite !outcome_bind_ret_l.
Qed.

Lemma assignment_undeclared_witness :
  compile_assignment (example_assign "x" (int_lit 7)) compiling_f =
    Done (setCurrentFunc (Live (mkCompilingFunc "f" 0 {["x" := VarInfo_zero]}
      [mkInst Set32 (base STACK_TOP 0) 7 0])) Compiler_make).
Proof.
  apply (assignment_undeclared (example_assign "x" (int_lit 7)) (CompilingFunc_make "f") Compiler_make).
  - reflexivity.
  - now apply well_shapedb_ok.
  - split; vm_compute; discriminate.
Defined.

(** C7: the declaration of a local variable of a known type generates no code at
    all, so its initialiser is never evaluated; the variable gets the slot at the top
    of the frame unless one of that name exists, which is then kept, and the frame
    grows by the size of the type in both cases. *)
Theorem declaration_generates_nothing (order : IterOrder) d t ti f c c' :
  var_type d = Some t -> findByName (vt_name_ t) (type_table_ c) = Some ti ->
  compile_declaration d (setCurrentFunc (Live f) c) = Done c' ->
  exists f', c' = setCurrentFunc (Live f') c /\ cf_instructions f' = cf_instructions f /\
    cur_stack_top f' = cur_stack_top f + ti_size ti /\
    (forall x, x <> d_var_name d -> var_address_map f' !! x = var_address_map f !! x) /\
    match var_address_map f !! d_var_name d with
    | Some old => var_address_map f' !! d_var_name d = Some old
    | None => exists vi, var_address_map f' !! d_var_name d = Some vi /\
                vi_size vi = Some (ti_size ti) /\ vi_address vi = Some (cur_stack_top f)
    end.
Proof.
  intros Ht Hti; unfold compile_declaration, decl_type_name.
  rewrite assert_compiling, Ht; cbn [deref setCurrentFunc type_table_].
  rewrite !outcome_bind_ret_l, Hti, current_compiling, outcome_bind_ret_l; cbv zeta.
  intros (top & [_ ->]%checked_s_done & [= <-])%outcome_bind_done.
  eexists; split; [reflexivity|]; simpl; split_and!; auto.
  - intros x Hx; destruct (var_address_map f !! d_var_name d); [reflexivity|].
    now rewrite lookup_insert_ne.
  - destruct (var_address_map f !! d_var_name d) eqn:E; [exact E|].
    rewrite lookup_insert_eq; eexists; split; [reflexivity|]; split; reflexivity.
Qed.

Lemma declaration_generates_nothing_witness :
  exists f' c', @compile_declaration some_order (example_decl "x" (int_lit 7)) compiling_f = Done c' /\
    c' = setCurrentFunc (Live f') Compiler_make /\ cf_instructions f' = [].
Proof.
  destruct (declaration_generates_nothing some_order (example_decl "x" (int_lit 7))
    (mkVarType Loc_default Loc_default false None "int") (basic_type 20 4 "int")
    (CompilingFunc_make "f") Compiler_make
    (match @compile_declaration some_order (example_decl "x" (int_lit 7)) compiling_f with
     | Done c => c | _ => Compiler_make end)) as (f' & H1 & H2 & _);
    [reflexivity|vm_compute; reflexivity|vm_compute; reflexivity|].
  eexists f', _; split; [|split; [exact H1|exact H2]]; vm_compute; reflexivity.
Defined.

(** An [if] statement cannot be run: whatever its branches, the code the
    compiler emits for it begins with a jump on two null addresses, and that
    instruction aborts the machine in every state. *)
Theorem if_aborts (order : IterOrder) i f c c' :
  compile_statement (NIf i) (setCurrentFunc (Live f) c) = Done c' ->
  exists f' jump rest, current_func_ c' = Live f' /\
    cf_instructions f' = cf_instructions f ++ jump :: rest /\
    forall vm, at_code vm [jump] -> Run 1 vm = Abort "no implement".
Proof.
  intros H; cbn [compile_statement] in H; apply compile_if_inv in H as [k ->].
  2: apply Forall_forall; intros n _; apply frames_statement.
  eexists _, _, _; split; [reflexivity|]; split; [reflexivity|].
  intros vm Hat; rewrite (run_one _ _ Hat); reflexivity.
Qed.

Definition empty_block : Block := mkBlock Loc_default Loc_default [].
Definition example_if : If_ := mkIf Loc_default Loc_default [(int_lit 1, empty_block)] None.

Lemma if_aborts_witness :
  exists jump rest,
    (match @compile_statement some_order (NIf example_if) compiling_f with
     | Done c => match current_func_ c with Live f => cf_instructions f | _ => [] end
     | _ => []
     end) = jump :: rest /\ Run 1 (loaded [jump]) = Abort "no implement".
Proof.
  destruct (if_aborts some_order example_if (CompilingFunc_make "f") Compiler_make
    (match @compile_statement some_order (NIf example_if) compiling_f with
     | Done c => c | _ => Compiler_make end)) as (f' & jump & rest & H1 & H2 & H3);
    [vm_compute; reflexivity|].
  exists jump, rest; split; [|apply H3, loaded_at; reflexivity].
  vm_compute in H1; injection H1 as <-; vm_compute in H2; vm_compute; exact H2.
Defined.

(** ** Globals *)

(** A global variable whose type is not in the table, which a declaration
    without a type always is (its type name is empty), stops the compilation with a
    failed assertion, unless it stopped before. *)
Theorem unknown_global_aborts (order : IterOrder) r c d t :
  NDeclaration d ∈ nodes r -> var_type d = Some t ->
  (forall id ti, type_table_ c !! id = Some ti -> ti_name ti <> vt_name_ t) ->
  compile_global r c = Abort "tf".
Proof.
  intros Hd Ht Hno; unfold compile_global; revert c Hno.
  induction (nodes r) as [|n ns IH]; [now apply elem_of_nil in Hd|]; intros c Hno.
  cbn [for_each]; destruct n as [d'|a|e|i|f|r'|f|td]; apply elem_of_cons in Hd as [E|Hd];
    try discriminate E; try (rewrite outcome_bind_ret_l; now apply IH).
  - injection E as <-; unfold compile_global_decl; rewrite Ht.
    now rewrite (proj2 (findByName_none _ _) Hno).
  - unfold compile_global_decl; destruct (var_type d') as [t'|];
      [|rewrite outcome_bind_ret_l; now apply IH].
    destruct (findByName (vt_name_ t') (type_table_ c)); [|reflexivity].
    cbn [assert_ deref]; rewrite !outcome_bind_ret_l; now apply IH.
Qed.

Definition untyped_source : Root := parsed "
var a = 1
".

Lemma unknown_global_aborts_witness :
  @compile_global some_order untyped_source Compiler_make = Abort "tf".
Proof.
  destruct (nodes untyped_source) as [|[d| | | | | | | ] ns] eqn:E; vm_compute in E; try discriminate E.
  injection E as <- <-.
  eapply unknown_global_aborts.
  - unfold untyped_source; vm_compute; left.
  - reflexivity.
  - intros id ti H; apply elem_of_map_to_list in H.
    let l := eval vm_compute in (map_to_list TypeTable_make) in
      change (map_to_list (type_table_ Compiler_make)) with l in H.
    rewrite !elem_of_cons in H; simpl.
    repeat (destruct H as [[= -> ->]|H]; [discriminate|]); now apply elem_of_nil in H.
Defined.

(** ** Types *)

(** C8: a type definition adds exactly one entry to the table, with an id above
    all others; a struct gets one field per declared field, in their order, with the
    ids of their types, and the sum of their sizes; an alias gets size 0. *)
Theorem typedef_entry (order : IterOrder) t c c' : table_ok (type_table_ c) ->
  compile_type t c = Done c' ->
  exists info, type_table_ c' = <[ti_type_id info := info]> (type_table_ c) /\
    ti_name info = new_name_ t /\
    (forall id u, type_table_ c !! id = Some u -> id < ti_type_id info) /\
    match is_struct_ (old_type_ t), stct_ (old_type_ t) with
    | true, Some s =>
        map snd (ti_fields info) = map fst (fields_ s) /\
        Forall2 (fun p f => exists u, findByName f.2 (type_table_ c) = Some u /\ ti_type_id u = p.1)
          (ti_fields info) (fields_ s) /\
        ti_size info = foldr (fun f n => default 0 (ti_size <$> findByName f.2 (type_table_ c)) + n)
                         0 (fields_ s)
    | _, _ => ti_size info = 0
    end.
Proof.
  intros Hm H; pose proof (compile_type_inv _ _ _ Hm H) as (info & -> & Hn & Hid & _ & _ & Hfresh).
  exists info; split_and!.
  - unfold insert_type, TypeTable_insert; simpl; now rewrite Hfresh.
  - exact Hn.
  - intros id u Hu; apply max_type_id_bound in Hu; lia.
  - unfold compile_type in H; apply outcome_bind_done in H as (id & _ & H).
    apply outcome_bind_done in H as (info' & Hi & [= Hmap]).
    assert (info' = info) as ->.
    { apply (f_equal (fun m => m !! ti_type_id info)) in Hmap.
      assert (Hid' : ti_type_id info' = ti_type_id info).
      { unfold TypeTable_insert in Hmap; rewrite Hfresh, lookup_insert_eq in Hmap.
        destruct (type_table_ c !! ti_type_id info') eqn:E; [congruence|].
        destruct (decide (ti_type_id info' = ti_type_id info)) as [|Hne]; [assumption|].
        rewrite lookup_insert_ne in Hmap; congruence. }
      unfold TypeTable_insert in Hmap; rewrite Hid', Hfresh, !lookup_insert_eq in Hmap; congruence. }
    destruct (is_struct_ (old_type_ t)); [|injection Hi as <-; reflexivity].
    unfold asStruct in Hi; destruct (stct_ (old_type_ t)) as [s|]; [|discriminate].
    rewrite outcome_bind_ret_l in Hi; apply struct_fields_inv in Hi
      as (_ & _ & _ & l & Hl & Hnames & Htypes & Hsize); [|exact Hm|simpl; lia].
    simpl in Hl, Hsize; subst l; split_and!; auto; now rewrite Hsize, Z.add_0_l.
Qed.

Definition example_struct : Typedef_ := mkTypedef Loc_default Loc_default "Student"
  (mkVarType Loc_default Loc_default true
     (Some (mkStruct Loc_default Loc_default "" [("name", "string"); ("age", "int")])) "").

Lemma typedef_entry_witness :
  exists info, ti_name info = "Student" /\ ti_size info = 20.
Proof.
  destruct (typedef_entry some_order example_struct Compiler_make
    (match @compile_type some_order example_struct Compiler_make with
     | Done c => c | _ => Compiler_make end)) as (info & _ & H1 & _ & _ & _ & H2);
    [apply TypeTable_make_ok|vm_compute; reflexivity|].
  exists info; split; [exact H1|]; rewrite H2; vm_compute; reflexivity.
Defined.

(** C9: the definitions of a source keep the table well formed: every entry sits
    under its own id and no size is negative; what was in the table, the basic types
    among it, is never changed. *)
Theorem types_invariant (order : IterOrder) r c c' : table_ok (type_table_ c) ->
  compile_types r c = Done c' ->
  table_ok (type_table_ c') /\ type_table_ c ⊆ type_table_ c'.
Proof.
  intros Hm H; split; [exact (compile_types_ok r c c' Hm H)|].
  apply map_subseteq_spec; intros id t Ht; exact (compile_types_keep r c c' id t Ht H Hm).
Qed.

Definition typedef_source : Root := parsed "
type struct{
    name string
    age int
}Student
".

Lemma types_invariant_witness :
  exists c', @compile_types some_order typedef_source Compiler_make = Done c' /\
    table_ok (type_table_ c').
Proof.
  pose (c' := match @compile_types some_order typedef_source Compiler_make with
              | Done c => c | _ => Compiler_make end).
  assert (H : @compile_types some_order typedef_source Compiler_make = Done c')
    by (vm_compute; reflexivity).
  exists c'; split; [exact H|].
  exact (proj1 (types_invariant some_order typedef_source Compiler_make c' TypeTable_make_ok H)).
Defined.

(** C10: types are well founded.  Every type of the table that a source builds is made
    of types of the table: replacing structs by their fields ends, with fuel the id of
    the type, in basic types and aliases of the table, and the size of the type is the
    sum of theirs; every global variable of the source has a type of that table. *)
Theorem types_expand (order : IterOrder) r c c' :
  compile_types r Compiler_make = Done c -> compile_global r c = Done c' ->
  (forall id t, type_table_ c' !! id = Some t ->
     exists ts, expand (S (Z.to_nat id)) (type_table_ c') id = Some ts /\
       Forall (fun u => ti_is_struct u = false /\ type_table_ c' !! ti_type_id u = Some u) ts /\
       ti_size t = foldr (fun u z => ti_size u + z) 0 ts) /\
  Forall (typed_in (type_table_ c')) (global_table_ c').
Proof.
  intros H H'; pose proof (compile_types_ok r Compiler_make c TypeTable_make_ok H) as Hok.
  pose proof (compile_types_closed r Compiler_make c TypeTable_make_ok table_closed_make H) as Hc.
  destruct (compile_global_typed r c c' Hok) as [Ht Hg]; [|exact H'|].
  { rewrite (compile_types_globals _ _ _ H); constructor. }
  rewrite Ht; split; [|exact Hg]; intros id t; apply expand_closed; auto; lia.
Qed.

Definition struct_of (name : string) (fields : list (string * string)) : Node :=
  NTypedef (mkTypedef Loc_default Loc_default name (mkVarType Loc_default Loc_default true
    (Some (mkStruct Loc_default Loc_default "" fields)) "")).

(** A struct of two structs. *)
Definition nested_types : Root := mkRoot Loc_default Loc_default (mkBlock Loc_default Loc_default
  [struct_of "Student" [("name", "string"); ("age", "int")];
   struct_of "Pair" [("first", "Student"); ("second", "Student"); ("ok", "bool")]]).

Definition nested_compiled : Compiler :=
  match @compile_types some_order nested_types Compiler_make with Done c => c | _ => Compiler_make end.

Lemma types_expand_witness :
  exists ts, expand (S (Z.to_nat 60)) (type_table_ nested_compiled) 60 = Some ts /\ foldr (fun t n => ti_size t + n) 0 ts = 41.
Proof.
  destruct (types_expand some_order nested_types nested_compiled nested_compiled) as [H _];
    [vm_compute; reflexivity|reflexivity|].
  destruct (H 60 (mkTypeInfo 60 41 "Pair" true (-1) [(50, "first"); (50, "second"); (10, "ok")]))
    as (ts & Hx & _ & Hs); [vm_compute; reflexivity|].
  exists ts; split; [exact Hx|symmetry; exact Hs].
Defined.

(** When no two types have the same name, [findByName] is a function of the
    name: it does not depend on the order in which the hash table is visited, and it
    finds the entry of that name whenever there is one. *)
Theorem find_by_name_order (o1 o2 : IterOrder) m name : names_unique m ->
  @findByName o1 name m = @findByName o2 name m /\
  forall id t, m !! id = Some t -> ti_name t = name -> @findByName o1 name m = Some t.
Proof.
  intros Hu.
  assert (Hf : forall (o : IterOrder) id t, m !! id = Some t -> ti_name t = name ->
    @findByName o name m = Some t).
  { intros o id t Ht <-; apply (findByName_unique m id t Ht); intros j u Hj Hn.
    exact (Hu j id u t Hj Ht Hn). }
  split; [|exact (Hf o1)].
  destruct (@findByName o1 name m) as [t|] eqn:E.
  - apply (@findByName_some o1) in E as [Hn [id Ht]]; symmetry; exact (Hf o2 id t Ht Hn).
  - symmetry; apply (@findByName_none o2); exact (proj1 (@findByName_none o1 name m) E).
Qed.

(** The entries visited from the last to the first. *)
Definition reversed_order : IterOrder :=
  {| iter m := rev (map_to_list m);
     iter_perm m := Permutation_sym (Permutation_rev (map_to_list m)) |}.

Lemma find_by_name_order_witness :
  @findByName some_order "int" TypeTable_make = @findByName reversed_order "int" TypeTable_make.
Proof.
  apply find_by_name_order; intros i j t u Hi Hj Hn.
  apply elem_of_map_to_list in Hi, Hj.
  let l := eval vm_compute in (map_to_list TypeTable_make) in
    change (map_to_list TypeTable_make) with l in Hi, Hj.
  rewrite !elem_of_cons in Hi, Hj.
  repeat (destruct Hi as [[= -> ->]|Hi];
    [repeat (destruct Hj as [[= -> ->]|Hj]; [reflexivity || discriminate Hn|]);
     now apply elem_of_nil in Hj|]).
  now apply elem_of_nil in Hi.
Defined.
