(* ===== verification/Channel.v ===== *)
(** * Channel: the queue between threads (src/src/channel.h)

    Every operation holds the mutex for its whole body, so it is one atomic step
    of an interleaving.  [Pop] of an empty channel is undefined behaviour; the
    reader of Loop::run guards it with [Size], in a separate critical section. *)

From S2P Require Import Prelude Machine.

Section Channel.
Context {T : Type}.

(** [queue_], the front first. *)
Definition Channel : Type := list T.

Definition Pop (c : Channel) : outcome (T * Channel) :=
  match c with
  | [] => Undef EmptyQueue
  | t :: q => Done (t, q)
  end.

Definition Size (c : Channel) : Z := Z.of_nat (length c).

Definition Push (t : T) (c : Channel) : Channel := c ++ [t].

(** ** Interleavings

    A reader repeats: read [Size]; when it is positive, [Pop].  Writers push at
    any time. *)

Inductive phase : Set := Checking | Popping.

Record system : Type := mkSystem {
  channel : Channel;
  readers : list phase;
  pushed : list T;     (* history: everything pushed so far *)
  popped : list T;     (* history: everything popped so far *)
}.

Definition start (n : nat) : system := mkSystem [] (replicate n Checking) [] [].

(** One atomic step; a reader that pops what is not there has no step. *)
Inductive step : system -> system -> Prop :=
  | step_push t s :
      step s (mkSystem (Push t (channel s)) (readers s) (pushed s ++ [t]) (popped s))
  | step_empty i s : readers s !! i = Some Checking -> Size (channel s) = 0 -> step s s
  | step_check i s : readers s !! i = Some Checking -> 0 < Size (channel s) ->
      step s (mkSystem (channel s) (<[i := Popping]> (readers s)) (pushed s) (popped s))
  | step_pop i s t q : readers s !! i = Some Popping -> Pop (channel s) = Done (t, q) ->
      step s (mkSystem q (<[i := Checking]> (readers s)) (pushed s) (popped s ++ [t])).

Inductive reachable (n : nat) : system -> Prop :=
  | reach_start : reachable n (start n)
  | reach_step s s' : reachable n s -> step s s' -> reachable n s'.

(** No reader is about to pop an empty channel. *)
Definition safe (s : system) : Prop := forall i,
  readers s !! i = Some Popping -> exists t q, Pop (channel s) = Done (t, q).

(** ** Lemmas *)

Lemma Pop_Push t c : c <> [] ->
  Pop (Push t c) = ('(u, q) ← Pop c; Done (u, Push t q)).
Proof. destruct c; [easy|reflexivity]. Qed.

(** What went in is what came out, in the same order, then what is still there. *)
Lemma reachable_fifo n s : reachable n s -> pushed s = popped s ++ channel s.
Proof.
  induction 1 as [|s s' _ IH Hs]; [reflexivity|]; destruct Hs; simpl; auto.
  - unfold Push; now rewrite IH, app_assoc.
  - unfold Pop in H0; destruct (channel s); [discriminate|]; injection H0 as -> ->.
    now rewrite IH, <- app_assoc.
Qed.

Lemma reachable_readers n s : reachable n s -> length (readers s) = n.
Proof.
  induction 1 as [|s s' _ IH Hs]; [apply length_replicate|].
  destruct Hs; simpl; rewrite ?length_insert; exact IH.
Qed.

(** A single reader that has seen an element will find one. *)
Lemma single_reader_nonempty s : reachable 1 s ->
  readers s !! 0%nat = Some Popping -> channel s <> [].
Proof.
  induction 1 as [|s s' Hr IH Hs]; [discriminate|].
  destruct Hs as [t s|i s Hi _|i s Hi Hpos|i s t q Hi _]; cbn [readers channel] in *; auto.
  - intros Hp Hc; unfold Push in Hc; now apply app_nil in Hc as [_ ?].
  - intros _ Hc; rewrite Hc in Hpos; unfold Size in Hpos; simpl in Hpos; lia.
  - intros Hp; pose proof (lookup_lt_Some _ _ _ Hi) as Hlt.
    rewrite (reachable_readers _ _ Hr) in Hlt; replace i with O in * by lia.
    rewrite list_lookup_insert_eq in Hp by (rewrite (reachable_readers _ _ Hr); lia); discriminate.
Qed.
End Channel.
#[global] Arguments Channel : clear implicits.
#[global] Arguments system : clear implicits.
