(* ===== verification/Uv.v ===== *)
(** * Uv: what the program has handed to libuv

    libuv is a library: what it answers and which callbacks it makes is input of
    the event loop (Loop.v).  This file only keeps the account of what was given to
    it and not given back yet: the timers that were started, the handles that were
    allocated for connections, those that are being closed, and the write requests
    whose callback has not been made.  The rules of ownership are those of its
    documentation (src/third_party/libuv-1.51.0/docs/src/stream.rst and handle.rst):
    a handle stays in use until the callback of [uv_close], a request and the
    memory its buffer points to until the callback of [uv_write]. *)

From S2P Require Import Prelude Machine.

#[local] Set Warnings "-register-all".

(** A handle of a connection that was accepted, by its address, or the handle that
    is a member of a client's task. *)
Inductive uv_stream : Set := Connection (handle : Z) | Client (task : Z).

#[export] Instance uv_stream_eq : EqDecision uv_stream.
Proof. solve_decision. Defined.

#[export] Instance uv_stream_countable : Countable uv_stream.
Proof.
  refine (inj_countable' (fun s => match s with Connection h => inl h | Client t => inr t end)
    (fun s => match s with inl h => Connection h | inr t => Client t end) _).
  now intros [].
Defined.

(** The string that a buffer points into: the one at an address among the local
    strings of the program's functions, or the member [need_send_] of a client's task. *)
Inductive buffer : Set := Local_string (address : Z) | Need_send (task : Z).

Record request : Set := mkRequest { req_handle : uv_stream; req_data : string; req_base : buffer }.

Record Uv : Set := mkUv {
  timers : gmap Z Z;              (* the timers that were started: task, period in ms *)
  open_handles : gset Z;          (* the connections' handles that are allocated *)
  closing : gset uv_stream;       (* closed, the callback still to come *)
  requests : gmap Z request;      (* the writes whose callback is still to come *)
  next_request : Z;               (* the address of the next request *)
  sent : list (uv_stream * string);   (* what [uv_write] accepted, in order *)
}.

Definition uv_default_loop : Uv := mkUv ∅ ∅ ∅ ∅ 0 [].

(** ** The calls *)

Definition uv_timer_start (task period : Z) (u : Uv) : Uv :=
  mkUv (<[task := period]> (timers u)) (open_handles u) (closing u) (requests u)
    (next_request u) (sent u).

(** [malloc] of a handle, and its [free]. *)
Definition alloc_handle (h : Z) (u : Uv) : Uv :=
  mkUv (timers u) ({[h]} ∪ open_handles u) (closing u) (requests u) (next_request u) (sent u).
Definition free_handle (h : Z) (u : Uv) : outcome Uv :=
  if decide (h ∈ open_handles u)
  then Done (mkUv (timers u) (open_handles u ∖ {[h]}) (closing u) (requests u)
               (next_request u) (sent u))
  else Undef InvalidFree.

(** [uv_close] asserts that the handle is not being closed. *)
Definition uv_close (s : uv_stream) (u : Uv) : outcome Uv :=
  _ ← assert_ (negb (bool_decide (s ∈ closing u))) "!uv__is_closing(handle)";
  Done (mkUv (timers u) (open_handles u) ({[s]} ∪ closing u) (requests u)
          (next_request u) (sent u)).

(** The handle is closed: the callback of [uv_close] is being made. *)
Definition closed (s : uv_stream) (u : Uv) : Uv :=
  mkUv (timers u) (open_handles u) (closing u ∖ {[s]}) (requests u) (next_request u) (sent u).

(** [uv_write] on a new request; when it fails there is no callback. *)
Definition uv_write (rc : Z) (s : uv_stream) (data : string) (base : buffer) (u : Uv) : Uv :=
  let r := next_request u in
  if rc =? 0
  then mkUv (timers u) (open_handles u) (closing u) (<[r := mkRequest s data base]> (requests u))
         (r + 1) (sent u ++ [(s, data)])
  else mkUv (timers u) (open_handles u) (closing u) (requests u) (r + 1) (sent u).

(** The callback of a write, [on_write], frees the request. *)
Definition free_request (r : Z) (u : Uv) : outcome Uv :=
  match requests u !! r with
  | Some _ => Done (mkUv (timers u) (open_handles u) (closing u) (delete r (requests u))
                      (next_request u) (sent u))
  | None => Undef InvalidFree
  end.

(** ** Lemmas *)

(** Request addresses are given out once, and the request [r] is what it was. *)
Record keeps_request (r : Z) (u u' : Uv) : Prop := {
  keeps_grow : next_request u <= next_request u';
  keeps_old : r < next_request u -> requests u' !! r = requests u !! r;
}.

#[export] Instance keeps_request_preorder r : PreOrder (keeps_request r).
Proof.
  split; [now intros u|]; intros u1 u2 u3 [H1 K1] [H2 K2]; split; [lia|].
  intros Hr; rewrite K2 by lia; auto.
Qed.

Lemma keeps_same r u u' : requests u' = requests u -> next_request u' = next_request u ->
  keeps_request r u u'.
Proof. intros Hr Hn; split; [lia|]; intros _; now rewrite Hr. Qed.

Lemma uv_write_keeps r rc s d b u : keeps_request r u (uv_write rc s d b u).
Proof.
  unfold uv_write; split; destruct (rc =? 0); cbn [next_request requests]; try lia; [|reflexivity].
  intros Hr; apply lookup_insert_ne; lia.
Qed.

(** Timers are never stopped. *)
Definition armed (u u' : Uv) : Prop := forall t, is_Some (timers u !! t) -> is_Some (timers u' !! t).

Lemma armed_same u u' : timers u' = timers u -> armed u u'.
Proof. intros H t; now rewrite H. Qed.

#[export] Instance armed_preorder : PreOrder armed.
Proof. split; [now intros u t|]; intros u1 u2 u3 H1 H2 t Ht; auto. Qed.

Lemma uv_timer_start_armed t d u : armed u (uv_timer_start t d u).
Proof.
  intros t' Ht; cbn [uv_timer_start timers]; destruct (decide (t = t')) as [->|Hne];
    [rewrite lookup_insert_eq; eauto|now rewrite lookup_insert_ne].
Qed.

Lemma uv_write_timers rc s d b u : timers (uv_write rc s d b u) = timers u.
Proof. unfold uv_write; now destruct (rc =? 0). Qed.

Lemma uv_write_handles rc s d b u : open_handles (uv_write rc s d b u) = open_handles u.
Proof. unfold uv_write; now destruct (rc =? 0). Qed.

Lemma uv_close_inv s u u' : uv_close s u = Done u' ->
  (s ∉ closing u) /\ u' = mkUv (timers u) (open_handles u) ({[s]} ∪ closing u) (requests u)
                           (next_request u) (sent u).
Proof. unfold uv_close, assert_; case_bool_decide; [discriminate|]; now intros [= <-]. Qed.

Lemma free_handle_inv h u u' : free_handle h u = Done u' ->
  h ∈ open_handles u /\ u' = mkUv (timers u) (open_handles u ∖ {[h]}) (closing u) (requests u)
                              (next_request u) (sent u).
Proof. unfold free_handle; case_decide; [|discriminate]; now intros [= <-]. Qed.

(** ** Relations that every call respects

    The callbacks that only open or close handles ([Neutral]), those that write too
    ([Steady]; no callback of libuv starts a timer), and the tasks ([Kept]).  Whether
    a relation respects the end of a request depends on the request ([frees]). *)

Class Neutral (R : relation Uv) : Prop := {
  neutral_preorder :: PreOrder R;
  neutral_same u u' : timers u' = timers u -> requests u' = requests u ->
    next_request u' = next_request u -> R u u';
}.

Class Steady (R : relation Uv) : Prop := {
  steady_neutral :: Neutral R;
  steady_write rc s d b u : R u (uv_write rc s d b u);
}.

Class Kept (R : relation Uv) : Prop := {
  kept_steady :: Steady R;
  kept_timer t d u : R u (uv_timer_start t d u);
}.

Definition frees (R : relation Uv) (r : Z) : Prop := forall u u', free_request r u = Done u' -> R u u'.

#[export] Instance armed_kept : Kept armed.
Proof.
  split; [split; [split|]|]; auto using armed_preorder, uv_timer_start_armed, armed_same.
  intros; apply armed_same, uv_write_timers.
Qed.

#[export] Instance keeps_request_kept r : Kept (keeps_request r).
Proof.
  split; [split; [split|]|]; auto using keeps_request_preorder, uv_write_keeps, keeps_same.
Qed.

(** The same timers are started. *)
Definition same_timers (u u' : Uv) : Prop := timers u' = timers u.

#[export] Instance same_timers_steady : Steady same_timers.
Proof.
  split; [split; [|auto]|intros; apply uv_write_timers].
  split; [now intros u|unfold same_timers; intros u1 u2 u3; congruence].
Qed.

Lemma same_timers_frees r : frees same_timers r.
Proof. intros u u'; unfold free_request; case_match; [|discriminate]; now intros [= <-]. Qed.

Lemma armed_frees r : frees armed r.
Proof.
  intros u u'; unfold free_request; case_match; [|discriminate]; intros [= <-]; now apply armed_same.
Qed.

Lemma keeps_request_frees r r' : r <> r' -> frees (keeps_request r) r'.
Proof.
  intros Hne u u'; unfold free_request; case_match; [|discriminate]; intros [= <-].
  split; [reflexivity|]; intros _; cbn [requests]; now apply lookup_delete_ne.
Qed.

(** The address of the next request is that of none yet. *)
Definition counted (u : Uv) : Prop := forall r q, requests u !! r = Some q -> r < next_request u.

Definition stays_counted (u u' : Uv) : Prop := counted u -> counted u'.

#[export] Instance stays_counted_kept : Kept stays_counted.
Proof.
  split; [split; [split|]|].
  - split; [now intros u|]; intros u1 u2 u3; unfold stays_counted; auto.
  - intros u u' _ Hr Hn H r q; rewrite Hr, Hn; apply H.
  - intros rc s d b u H r q; pose proof (H r q) as Hr; unfold uv_write; destruct (rc =? 0);
      cbn [requests next_request]; [|intros Hq; specialize (Hr Hq); lia].
    intros [[<- _]|[_ Hq]]%lookup_insert_Some; [lia|]; specialize (Hr Hq); lia.
  - intros t d u H; exact H.
Qed.

Lemma stays_counted_frees r : frees stays_counted r.
Proof.
  intros u1 u2; unfold free_request; case_match; [|discriminate]; intros [= <-] Hc r1 q1.
  cbn [requests next_request]; intros [_ Hq]%lookup_delete_Some; exact (Hc _ _ Hq).
Qed.

(** A request is an old one or satisfies [P]. *)
Definition new_requests (P : request -> Prop) (u u' : Uv) : Prop := forall r q,
  requests u' !! r = Some q -> requests u !! r = Some q \/ P q.

#[export] Instance new_requests_neutral P : Neutral (new_requests P).
Proof.
  split; [split|].
  - intros u r q Hq; now left.
  - intros u1 u2 u3 H1 H2 r q [Hq|Hq]%H2; auto.
  - intros u u' _ Hr _ r q; rewrite Hr; auto.
Qed.

Lemma uv_write_new_requests (P : request -> Prop) rc s d b u : P (mkRequest s d b) ->
  new_requests P u (uv_write rc s d b u).
Proof.
  intros HP r q; unfold uv_write; destruct (rc =? 0); cbn [requests]; [|auto].
  intros [[_ <-]|[_ Hq]]%lookup_insert_Some; auto.
Qed.

Lemma new_requests_frees P r : frees (new_requests P) r.
Proof.
  intros u u'; unfold free_request; case_match; [|discriminate]; intros [= <-] r' q; cbn [requests].
  intros [_ Hq]%lookup_delete_Some; auto.
Qed.
