(* ===== verification/Task.v ===== *)
(** * Task: the tasks of the event loop and their states (src/src/loop/task.h)

    A task's own members are its constructor's arguments; who owns it, and the libuv
    handle inside it, are in Loop.v.  The [std::function] of a task is a closure: a
    value of a type [F], which names the code and holds what it captured.  What a
    closure does when it is called is the class [Closures], so a callback may post any
    task, one with its own closure too. *)

From S2P Require Import Prelude Machine Common.

#[local] Set Warnings "-register-all".

(** ** [Task::State] *)

Definition State : Set := Z.

Definition S0 : State := 0.
Definition State_Error : State := -2.
Definition State_Finished : State := -1.

Definition State_is (s other : State) : bool := s =? other.
Definition isS0 (s : State) : bool := s =? 0.
Definition isS1 (s : State) : bool := s =? 1.
Definition isS2 (s : State) : bool := s =? 2.
Definition isS3 (s : State) : bool := s =? 3.
Definition isAfter (s : State) (state : Z) : bool := s <? state.
Definition isError (s : State) : bool := s <? -1.
Definition isFinished (s : State) : bool := s =? -1.
Definition isNotFinished (s : State) : bool := 0 <=? s.

Definition next (s : State) : outcome State :=
  _ ← assert_ (0 <=? s) "internal_ >= 0"; checked_s 32 (s + 1).

(** ** The kinds of tasks *)

Record TcpServer : Type := mkServer {
  srv_state : State;
  srv_ip : string;
  srv_port : Z;
  cur_connction_id_ : Z;
  connection_id_map_ : gmap Z Z;       (* handle to connection *)
  connection_handle_map_ : gmap Z Z;   (* connection to handle *)
  new_connect_ : option Z;
  new_data_ : option (Z * string);
}.

Definition TcpServer_make (ip : string) (port : Z) : TcpServer :=
  mkServer S0 ip port (-1) ∅ ∅ None None.

Definition set_srv_state (st : State) (s : TcpServer) : TcpServer :=
  mkServer st (srv_ip s) (srv_port s) (cur_connction_id_ s) (connection_id_map_ s)
    (connection_handle_map_ s) (new_connect_ s) (new_data_ s).
Definition set_events (c : option Z) (d : option (Z * string)) (s : TcpServer) : TcpServer :=
  mkServer (srv_state s) (srv_ip s) (srv_port s) (cur_connction_id_ s) (connection_id_map_ s)
    (connection_handle_map_ s) c d.

(** [new_connection_id()]: the member [cur_connction_id_], incremented. *)
Definition new_connection_id (s : TcpServer) : outcome Z := checked_s 32 (cur_connction_id_ s + 1).

(** The new identifier and the two insertions of [on_new_connection]. *)
Definition add_connection (handle : Z) (s : TcpServer) : outcome TcpServer :=
  id ← new_connection_id s;
  Done (mkServer (srv_state s) (srv_ip s) (srv_port s) id
    (<[handle := id]> (connection_id_map_ s)) (<[id := handle]> (connection_handle_map_ s))
    (Some id) (new_data_ s)).

(** [connection_id_map_[handle]] and [connection_handle_map_[id]] insert a 0 (a
    null pointer) when the key is missing. *)
Definition connection_of (handle : Z) (s : TcpServer) : Z * TcpServer :=
  match connection_id_map_ s !! handle with
  | Some id => (id, s)
  | None => (0, mkServer (srv_state s) (srv_ip s) (srv_port s) (cur_connction_id_ s)
                  (<[handle := 0]> (connection_id_map_ s)) (connection_handle_map_ s)
                  (new_connect_ s) (new_data_ s))
  end.

Definition null_handle : Z := 0.

Definition handle_of (id : Z) (s : TcpServer) : Z * TcpServer :=
  match connection_handle_map_ s !! id with
  | Some h => (h, s)
  | None => (null_handle,
             mkServer (srv_state s) (srv_ip s) (srv_port s) (cur_connction_id_ s)
               (connection_id_map_ s) (<[id := null_handle]> (connection_handle_map_ s))
               (new_connect_ s) (new_data_ s))
  end.

Section Tasks.
Context {F : Type}.

(** The callback of a client is given the response and nothing else. *)
Record TcpClient : Type := mkClient {
  cl_state : State;
  cl_ip : string;
  cl_port : Z;
  need_send_ : string;
  response_ : string;
  call_back_ : string -> list string;   (* the lines it prints *)
}.

Definition set_cl_state (st : State) (c : TcpClient) : TcpClient :=
  mkClient st (cl_ip c) (cl_port c) (need_send_ c) (response_ c) (call_back_ c).
Definition set_response (r : string) (c : TcpClient) : TcpClient :=
  mkClient (cl_state c) (cl_ip c) (cl_port c) (need_send_ c) r (call_back_ c).

Inductive Task : Type :=
  | RunOnce (state_ : State) (func_ : F)
  | TimerTask (state_ : State) (repeat_ timeout_ : bool) (duration_ : Z) (func_ : F)
  | TcpServerTask (s : TcpServer)
  | TcpClientTask (c : TcpClient).

Definition RunOnce_make (f : F) : Task := RunOnce S0 f.
Definition TimerTask_make (repeat : bool) (f : F) (d : Z) : Task :=
  TimerTask S0 repeat false d f.
Definition TcpServerTask_make (ip : string) (port : Z) : Task :=
  TcpServerTask (TcpServer_make ip port).
Definition TcpClientTask_make (ip : string) (port : Z) (need_send : string)
    (call_back : string -> list string) : Task :=
  TcpClientTask (mkClient S0 ip port need_send "" call_back).

Definition task_state (t : Task) : State :=
  match t with
  | RunOnce st _ => st
  | TimerTask st _ _ _ _ => st
  | TcpServerTask s => srv_state s
  | TcpClientTask c => cl_state c
  end.

(** [timeOut()] *)
Definition timeOut (t : Task) : bool :=
  match t with TimerTask _ _ b _ _ => b | _ => false end.

(** The closure that [run] calls in the state [t] is in. *)
Definition callback_of (t : Task) : option F :=
  match t with
  | RunOnce st f => if isS0 st then Some f else None
  | TimerTask st _ timeout _ f =>
      if isS0 st || isFinished st then None else if timeout then Some f else None
  | _ => None
  end.
End Tasks.
#[global] Arguments Task : clear implicits.

(** ** Closures *)

(** [std::function<void(Loop* )>]: what a callback does to the program's global state
    [G], the lines it prints and the tasks it posts to the loop, in this order. *)
Definition Callback (G F : Type) : Type := G -> outcome (G * list string * list (Task F)).

(** [operator()] of a closure. *)
Class Closures (G F : Type) : Type := invoke : F -> Callback G F.

Section Posting.
Context {G F : Type} `{!Closures G F}.

(** The tasks that running [t] may post, in any global state. *)
Definition posts (t : Task F) (ts : list (Task F)) : Prop :=
  exists f g g' out, callback_of t = Some f /\ invoke f g = Done (g', out, ts).

Definition posted_by (t' t : Task F) : Prop := exists ts, posts t ts /\ t' ∈ ts.

(** The callback of [t] returns, and so do those of the tasks that it posts, of the
    tasks that these post, and so on down to tasks that post nothing. *)
Inductive total (t : Task F) : Prop :=
  total_task :
    (forall f, callback_of t = Some f -> forall g, invoke f g <> OutOfFuel) ->
    (forall t', posted_by t' t -> total t') -> total t.

(** A family of callbacks each of which returns and posts a run-once task with one of
    the family again. *)
Definition posting_for_ever (P : F -> Prop) : Prop := forall f, P f -> forall g,
  exists g' out ts f', invoke f g = Done (g', out, ts) /\ RunOnce_make f' ∈ ts /\ P f'.
End Posting.
