(* ===== verification/Loop.v ===== *)
(** * Loop: the event loop (src/src/loop/loop.h, loop.cpp, task.cpp)

    The pending channel owns the tasks; a task's address is its identity.  What
    libuv does is input: the results of the calls ([answers]) and the callbacks
    that [uv_run] makes ([event]).  A timer, a server's handle and a client's handle
    are part of the task that started them, so an event for a task that was
    destroyed is a dangling access.  The strings that are local to a function live from
    its call to its return ([Strings]), whoever still points to them. *)

From S2P Require Import Prelude Machine Common Channel Uv Task.

(** ** What libuv answers and reports *)

(** The results of [uv_tcp_bind], [uv_listen] and [uv_write]. *)
Record answers : Set := mkAnswers { bind_rc : Z; listen_rc : Z; write_rc : Z }.

(** What libuv does in [uv_run]: it calls back, or reads the memory that the buffer
    of a request points to ([WriteBuffer]; [uv_write] may have done so already).
    [handle] is the result of a [malloc] in the callback; [buf] is the whole buffer
    that [alloc_buffer] gave, of which [nread] bytes were read. *)
Inductive event : Set :=
  | TimerFired (task : Z)
  | NewConnection (task : Z) (status : Z) (handle : Z) (accept_rc : Z)
  | ServerRead (task : Z) (handle : Z) (nread : Z) (buf : list ascii)
  | Connected (task : Z) (status : Z) (write_rc : Z)
  | ClientRead (task : Z) (nread : Z) (buf : list ascii)
  | WriteBuffer (req : Z)
  | Written (req : Z) (status : Z)
  | HandleClosed (s : uv_stream).

(** [std::string(buf->base)]: up to the terminating zero, wherever that is. *)
Fixpoint c_str (buf : list ascii) : outcome string :=
  match buf with
  | [] => Undef OutOfBounds
  | c :: r => if decide (c = ascii_of_nat 0) then Done ""
              else s ← c_str r; Done (String c s)
  end.

(** ** Local strings *)

(** The [std::string]s that exist in the functions that are running, by address, and
    the address of the next one. *)
Record Strings : Set := mkStrings { live_strings : gmap Z string; next_string : Z }.

Definition no_strings : Strings := mkStrings ∅ 0.

(** A parameter passed by value: a copy of the argument. *)
Definition new_string (data : string) (s : Strings) : Z * Strings :=
  (next_string s, mkStrings (<[next_string s := data]> (live_strings s)) (next_string s + 1)).

(** Its end, when the function returns. *)
Definition destroy_string (a : Z) (s : Strings) : Strings :=
  mkStrings (delete a (live_strings s)) (next_string s).

Section Loop.
Context {G F : Type} `{!Closures G F}.

(** ** The loop *)

Record Loop : Type := mkLoop {
  id_ : string;
  uv_loop_ : bool;              (* not null *)
  pending_tasks_ : option (Channel (Z * Task F));   (* null after a move *)
  finished_ : bool;
  uv : Uv;                      (* what libuv holds *)
  out : list string;            (* what was printed, oldest first *)
  global : G;
  next_task : Z;                (* the address of the next task *)
  locals : Strings;             (* the local strings of the program *)
}.

Definition Loop_make (id : string) (g : G) : Loop :=
  mkLoop id true (Some []) false uv_default_loop [] g 0 no_strings.

Definition id (l : Loop) : string := id_ l.

(** [Loop(Loop&&)]: the new loop and what is left of the old one. *)
Definition Loop_move (l : Loop) : Loop * Loop :=
  (mkLoop (id_ l) (uv_loop_ l) (pending_tasks_ l) false (uv l) (out l) (global l) (next_task l) (locals l),
   mkLoop (id_ l) false None (finished_ l) (uv l) (out l) (global l) (next_task l) (locals l)).

(** [~Loop()]: [uv_loop_close] reads the loop it is given; its result is ignored. *)
Definition Loop_destroy (l : Loop) : outcome unit :=
  if uv_loop_ l then Done tt else Undef NullDeref.

Definition set_pending (p : Channel (Z * Task F)) (l : Loop) : Loop :=
  mkLoop (id_ l) (uv_loop_ l) (Some p) (finished_ l) (uv l) (out l) (global l) (next_task l) (locals l).
Definition set_global (g : G) (l : Loop) : Loop :=
  mkLoop (id_ l) (uv_loop_ l) (pending_tasks_ l) (finished_ l) (uv l) (out l) g (next_task l) (locals l).
Definition say (lines : list string) (l : Loop) : Loop :=
  mkLoop (id_ l) (uv_loop_ l) (pending_tasks_ l) (finished_ l) (uv l) (out l ++ lines)
    (global l) (next_task l) (locals l).
Definition set_uv (u : Uv) (l : Loop) : Loop :=
  mkLoop (id_ l) (uv_loop_ l) (pending_tasks_ l) (finished_ l) u (out l) (global l) (next_task l) (locals l).

Definition set_locals (s : Strings) (l : Loop) : Loop :=
  mkLoop (id_ l) (uv_loop_ l) (pending_tasks_ l) (finished_ l) (uv l) (out l) (global l)
    (next_task l) s.

(** [PostTask(std::unique_ptr<Task>)] *)
Definition PostTask (t : Task F) (l : Loop) : outcome Loop :=
  p ← deref NullDeref (pending_tasks_ l);
  Done (mkLoop (id_ l) (uv_loop_ l) (Some (Push (next_task l, t) p)) (finished_ l) (uv l)
          (out l) (global l) (next_task l + 1) (locals l)).

(** [PostTask(std::function<void(Loop* )>)] *)
Definition PostFunc (f : F) : Loop -> outcome Loop := PostTask (RunOnce_make f).

Definition PostTimerTask (repeat : bool) (f : F) (d : Z) : Loop -> outcome Loop :=
  PostTask (TimerTask_make repeat f d).

Fixpoint post_all (ts : list (Task F)) (l : Loop) : outcome Loop :=
  match ts with
  | [] => Done l
  | t :: ts => l ← PostTask t l; post_all ts l
  end.

(** [func_(loop)] *)
Definition call (f : F) (l : Loop) : outcome Loop :=
  '(g, lines, ts) ← invoke f (global l);
  post_all ts (say lines (set_global g l)).

(** ** [run] of the kinds of tasks *)

Definition RunOnce_run (st : State) (f : F) (l : Loop) : outcome (Task F * Loop) :=
  if isFinished st then Done (RunOnce st f, l)
  else if isS0 st then l ← call f l; Done (RunOnce State_Finished f, l)
  else Abort "should not reach here".

(** [(int)this->duration_ / MiliSec]: the [int] becomes a [uint64_t] again. *)
Definition timer_period (duration : Z) : Z := wrap_u 64 (wrap_s 32 duration) / MiliSec.

Definition TimerTask_run (id : Z) (st : State) (repeat timeout : bool) (d : Z) (f : F)
    (l : Loop) : outcome (Task F * Loop) :=
  if isS0 st then
    let l := say [pretty d] l in
    let l := set_uv (uv_timer_start id (timer_period d) (uv l)) l in
    st ← next st; Done (TimerTask st repeat timeout d f, l)
  else if isFinished st then Done (TimerTask st repeat timeout d f, l)
  else if timeout then
    l ← call f l;
    Done (if repeat then TimerTask st repeat false d f
          else TimerTask State_Finished repeat timeout d f, l)
  else Done (TimerTask st repeat timeout d f, l).

Definition crlf : string := String (ascii_of_nat 13) (String (ascii_of_nat 10) "").

Definition response : string :=
  ("HTTP/1.1 200 OK" +:+ crlf +:+ "Content-Type: text/html" +:+ crlf +:+
   "Content-Length: 12" +:+ crlf +:+ crlf +:+
   "Hello World" +:+ String (ascii_of_nat 10) "")%string.

(** [strlen] of the characters of a string: up to a zero. *)
Fixpoint strlen (data : string) : nat :=
  match data with
  | EmptyString => O
  | String c r => if decide (c = ascii_of_nat 0) then O else S (strlen r)
  end.

(** [send_response]: [uv_write] on a handle that must still be allocated.  The
    buffer points into the caller's string; the result is ignored. *)
Definition send_response (rc : Z) (h : Z) (base : buffer) (response : string) (l : Loop)
    : outcome Loop :=
  if h =? null_handle then Undef NullDeref
  else if decide (h ∈ open_handles (uv l))
  then Done (set_uv (uv_write rc (Connection h) (String.substring 0 (strlen response) response) base (uv l)) l)
  else Undef DanglingDeref.

(** [send_response] is given the characters of the parameter [data]. *)
Definition SendData (rc : Z) (id : Z) (data : string) (s : TcpServer) (l : Loop)
    : outcome (TcpServer * Loop) :=
  let '(data_, locals_) := new_string data (locals l) in
  let '(h, s) := handle_of id s in
  l ← send_response rc h (Local_string data_) data (set_locals locals_ l);
  Done (s, set_locals (destroy_string data_ (locals l)) l).

Definition OnConnect (id : Z) (l : Loop) : Loop := say ["new connction" +:+ pretty id]%string l.

(** Nothing calls it. *)
Definition OnClose (id : Z) (l : Loop) : Loop := say ["connction close" +:+ pretty id]%string l.

Definition OnData (rc : Z) (id : Z) (data : string) (s : TcpServer) (l : Loop)
    : outcome (TcpServer * Loop) :=
  SendData rc id response s
    (say ["receive data on connection " +:+ pretty id +:+ " size " +:+ data; data]%string l).

Definition TcpServer_run (a : answers) (s : TcpServer) (l : Loop) : outcome (TcpServer * Loop) :=
  if isError (srv_state s) then Done (s, l)
  else if isS0 (srv_state s) then
    let l := say ["initialize tcp server task in " +:+ srv_ip s +:+ ":" +:+ pretty (srv_port s)]%string l in
    if negb (bind_rc a =? 0) then Done (set_srv_state State_Error s, l)
    else if negb (listen_rc a =? 0) then Done (set_srv_state State_Error s, l)
    else st ← next (srv_state s); Done (set_srv_state st s, l)
  else
    match new_connect_ s, new_data_ s with
    | Some id, d => Done (set_events None d s, OnConnect id l)
    | None, Some (id, data) =>
        '(s, l) ← OnData (write_rc a) id data s l; Done (set_events (new_connect_ s) None s, l)
    | None, None => Done (s, l)
    end.

(** A connection error is printed to [stderr] only. *)
Definition TcpClient_run (c : TcpClient) (l : Loop) : outcome (TcpClient * Loop) :=
  let st := cl_state c in
  if isS0 st then st ← next st; Done (set_cl_state st c, l)
  else if isS1 st then Done (c, l)
  else if isS2 st then Done (c, l)
  else if isS3 st then
    let l := say (call_back_ c (response_ c)) l in
    st ← next st; Done (set_cl_state st c, l)
  else Done (c, l).

(** [task->run(this)]; the state returned is the task's. *)
Definition run_task (a : answers) (id : Z) (t : Task F) (l : Loop)
    : outcome (State * Task F * Loop) :=
  '(t, l) ← match t with
             | RunOnce st f => RunOnce_run st f l
             | TimerTask st repeat timeout d f => TimerTask_run id st repeat timeout d f l
             | TcpServerTask s => '(s, l) ← TcpServer_run a s l; Done (TcpServerTask s, l)
             | TcpClientTask c => '(c, l) ← TcpClient_run c l; Done (TcpClientTask c, l)
             end;
  Done (task_state t, t, l).

(** ** The callbacks *)

(** The task at an address, if it was not destroyed. *)
Definition find_task (id : Z) (q : Channel (Z * Task F)) : option (Task F) :=
  snd <$> List.find (fun p => p.1 =? id) q.

Definition update_task (id : Z) (t : Task F) (q : Channel (Z * Task F)) : Channel (Z * Task F) :=
  map (fun p => if p.1 =? id then (id, t) else p) q.

(** Run a callback on the task that owns the handle. *)
Definition on_task (id : Z) (k : Task F -> Loop -> outcome (Task F * Loop)) (l : Loop) : outcome Loop :=
  q ← deref NullDeref (pending_tasks_ l);
  t ← deref DanglingDeref (find_task id q);
  '(t, l) ← k t l;
  q ← deref NullDeref (pending_tasks_ l);
  Done (set_pending (update_task id t q) l).

Definition on_server (id : Z) (k : TcpServer -> Loop -> outcome (TcpServer * Loop)) : Loop -> outcome Loop :=
  on_task id (fun t l =>
    match t with
    | TcpServerTask s => '(s, l) ← k s l; Done (TcpServerTask s, l)
    | _ => Undef DanglingDeref
    end).

Definition on_client (id : Z) (k : TcpClient -> Loop -> outcome (TcpClient * Loop)) : Loop -> outcome Loop :=
  on_task id (fun t l =>
    match t with
    | TcpClientTask c => '(c, l) ← k c l; Done (TcpClientTask c, l)
    | _ => Undef DanglingDeref
    end).

Definition timer_cb (id : Z) : Loop -> outcome Loop :=
  on_task id (fun t l =>
    match t with
    | TimerTask st repeat _ d f => Done (TimerTask st repeat true d f, say ["timer event emit"] l)
    | _ => Undef DanglingDeref
    end).

(** The handle is allocated before it is known whether the connection is accepted;
    when it is not, it is closed. *)
Definition on_new_connection (status handle accept_rc : Z) (s : TcpServer) (l : Loop)
    : outcome (TcpServer * Loop) :=
  if status <? 0 then Done (s, l)
  else
    let l := set_uv (alloc_handle handle (uv l)) l in
    if accept_rc =? 0 then s ← add_connection handle s; Done (s, l)
    else u ← uv_close (Connection handle) (uv l); Done (s, set_uv u l).

(** An end of file or an error closes the connection's handle; the maps keep it. *)
Definition server_on_read (handle nread : Z) (buf : list ascii) (s : TcpServer) (l : Loop)
    : outcome (TcpServer * Loop) :=
  if 0 <? nread then
    let '(id, s) := connection_of handle s in
    data ← c_str buf;
    Done (set_events (new_connect_ s) (Some (id, data)) s, l)
  else if nread <? 0 then u ← uv_close (Connection handle) (uv l); Done (s, set_uv u l)
  else Done (s, l).

Definition on_connect (id status rc : Z) (c : TcpClient) (l : Loop) : outcome (TcpClient * Loop) :=
  if status <? 0 then u ← uv_close (Client id) (uv l); Done (c, set_uv u l)
  else
    let l := set_uv (uv_write rc (Client id) (need_send_ c) (Need_send id) (uv l)) l in
    _ ← assert_ (isS1 (cl_state c)) "task->state_.isS1()";
    st ← next (cl_state c); Done (set_cl_state st c, l).

Definition client_on_read (id nread : Z) (buf : list ascii) (c : TcpClient) (l : Loop)
    : outcome (TcpClient * Loop) :=
  _ ← assert_ (isS2 (cl_state c)) "task->state_.isS2()";
  if 0 <? nread then
    data ← c_str buf;
    st ← next (cl_state c); Done (set_cl_state st (set_response data c), l)
  else if nread <? 0 then
    u ← uv_close (Client id) (uv l); Done (set_cl_state State_Error c, set_uv u l)
  else Done (c, l).

(** [on_write]: an error is printed to [stderr] only; the request is freed. *)
Definition on_write (req status : Z) (l : Loop) : outcome Loop :=
  u ← free_request req (uv l); Done (set_uv u l).

(** The callback of [uv_close]: [free] for a connection, [on_close] for a client.
    Both free the handle, and a client's handle is a member of its task. *)
Definition on_close (s : uv_stream) (l : Loop) : outcome Loop :=
  let u := closed s (uv l) in
  match s with
  | Connection h => u ← free_handle h u; Done (set_uv u l)
  | Client _ => Undef InvalidFree
  end.

(** The string that a buffer points into, if it exists. *)
Definition string_at (b : buffer) (l : Loop) : option string :=
  match b with
  | Local_string a => live_strings (locals l) !! a
  | Need_send id =>
      match find_task id (default [] (pending_tasks_ l)) with
      | Some (TcpClientTask c) => Some (need_send_ c)
      | _ => None
      end
  end.

(** libuv reads the buffer of a request that it has. *)
Definition write_buffer (req : Z) (l : Loop) : outcome Loop :=
  q ← deref DanglingDeref (requests (uv l) !! req);
  _ ← deref DanglingDeref (string_at (req_base q) l); Done l.

Definition deliver (e : event) : Loop -> outcome Loop :=
  match e with
  | TimerFired id => timer_cb id
  | NewConnection id status handle rc => on_server id (on_new_connection status handle rc)
  | ServerRead id handle nread buf => on_server id (server_on_read handle nread buf)
  | Connected id status rc => on_client id (on_connect id status rc)
  | ClientRead id nread buf => on_client id (client_on_read id nread buf)
  | WriteBuffer req => write_buffer req
  | Written req status => on_write req status
  | HandleClosed s => on_close s
  end.

Fixpoint uv_run (es : list event) (l : Loop) : outcome Loop :=
  match es with
  | [] => Done l
  | e :: es => l ← deliver e l; uv_run es l
  end.

(** ** [Loop::run] *)

(** The inner loop: run every pending task, those posted meanwhile too. *)
Fixpoint drain (fuel : nat) (a : Z -> answers) (not_finished : list (Z * Task F)) (l : Loop)
    : outcome (list (Z * Task F) * Loop) :=
  match fuel with
  | O => OutOfFuel
  | S k =>
      p ← deref NullDeref (pending_tasks_ l);
      if 0 <? Size p then
        '((id, task), p) ← Pop p;
        '(state, task, l) ← run_task (a id) id task (set_pending p l);
        drain k a (if isNotFinished state then not_finished ++ [(id, task)] else not_finished) l
      else Done (not_finished, l)
  end.

Fixpoint push_all (ts : list (Z * Task F)) (l : Loop) : outcome Loop :=
  match ts with
  | [] => Done l
  | t :: ts => p ← deref NullDeref (pending_tasks_ l); push_all ts (set_pending (Push t p) l)
  end.

(** One round of [while (true)]. *)
Definition round (fuel : nat) (a : Z -> answers) (es : list event) (l : Loop) : outcome Loop :=
  '(not_finished, l) ← drain fuel a [] (say ["uv run once"] l);
  l ← push_all not_finished l;
  uv_run es l.

(** [run()]: it never returns; this is its state after the given rounds. *)
Fixpoint rounds (fuel : nat) (inputs : list ((Z -> answers) * list event)) (l : Loop)
    : outcome Loop :=
  match inputs with
  | [] => Done l
  | (a, es) :: inputs => l ← round fuel a es l; rounds fuel inputs l
  end.

Definition run (fuel : nat) (inputs : list ((Z -> answers) * list event)) (l : Loop)
    : outcome Loop :=
  rounds fuel inputs (say [id_ l +:+ " started"]%string l).
End Loop.
#[global] Arguments Loop : clear implicits.
#[global] Arguments mkLoop {G F}.
