(* ===== verification/LoopFacts.v ===== *)
(** * LoopFacts: what the event loop guarantees

    Rounds whose tasks are total end, and rounds with a task that posts itself for ever do
    not; no task is owned twice; the order of the pending tasks; what survives a round was started and is neither finished nor
    failed; the server's maps of connections agree. *)

From S2P Require Import Prelude Machine Common Channel Uv Task Loop.

#[local] Set Warnings "-register-all".

Section Facts.
Context {G F : Type} `{!Closures G F}.

(** ** Rounds end *)

(** One step of the inner loop on the queue: the first task is replaced by what
    it posts, at the end. *)
Definition runs_first (q' q : list (Task F)) : Prop :=
  exists t q0 ts, q = t :: q0 /\ q' = q0 ++ ts /\ (ts = [] \/ posts t ts).

Lemma runs_first_insert t : total t ->
  forall q1 q2, Acc runs_first (q1 ++ q2) -> Acc runs_first (q1 ++ t :: q2).
Proof.
  induction 1 as [t _ _ IH]; intros q1 q2 Hacc.
  remember (q1 ++ q2) as q eqn:Eq; revert q1 q2 Eq.
  induction Hacc as [q Hq IHq]; intros q1 q2 ->; constructor.
  intros q' (u & q0 & ts & E & -> & Hts); destruct q1 as [|x q1]; injection E as <- <-.
  - assert (Hb : Acc runs_first q2) by now constructor.
    destruct Hts as [->|Hts]; [now rewrite app_nil_r|].
    assert (Hall : Forall (fun t' => forall q1 q2, Acc runs_first (q1 ++ q2) ->
        Acc runs_first (q1 ++ t' :: q2)) ts).
    { apply Forall_forall; intros t' Ht'; apply IH; now exists ts. }
    clear Hts IH; revert Hb; generalize q2 as q; clear -Hall.
    induction Hall as [|x ts Hx _ IHts]; intros q Hb; [now rewrite app_nil_r|].
    rewrite cons_middle, app_assoc; apply IHts; apply Hx; now rewrite app_nil_r.
  - rewrite <- app_assoc; simpl; apply (IHq (q1 ++ q2 ++ ts)); [|reflexivity].
    exists x, (q1 ++ q2), ts; simpl; now rewrite app_assoc.
Qed.

Lemma runs_first_acc q : Forall total q -> Acc runs_first q.
Proof.
  induction 1 as [|t q Ht _ IH]; [constructor; now intros q' (t & q0 & ts & [=] & _)|].
  now apply (runs_first_insert t Ht [] q).
Qed.

Lemma posts_total t ts : total t -> posts t ts -> Forall total ts.
Proof. intros [_ Ht] Hts; apply Forall_forall; intros t' Hin; apply Ht; now exists ts. Qed.

(** What running a task does to the queue and to the addresses. *)
Definition queue (l : Loop G F) : list (Z * Task F) := default [] (pending_tasks_ l).

Fixpoint numbered (n : Z) (ts : list (Task F)) : list (Z * Task F) :=
  match ts with [] => [] | t :: ts => (n, t) :: numbered (n + 1) ts end.

Lemma numbered_snd n ts : map snd (numbered n ts) = ts.
Proof. revert n; induction ts; intros n; simpl; f_equal; auto. Qed.

Lemma post_all_queue ts (l : Loop G F) q : pending_tasks_ l = Some q ->
  exists l', post_all ts l = Done l' /\ pending_tasks_ l' = Some (q ++ numbered (next_task l) ts) /\
    next_task l' = next_task l + Z.of_nat (length ts) /\ uv l' = uv l.
Proof.
  revert l q; induction ts as [|t ts IH]; intros l q Hq; cbn [post_all numbered].
  { exists l; rewrite app_nil_r; split_and!; auto; simpl; lia. }
  unfold PostTask; rewrite Hq; cbn [deref]; rewrite !outcome_bind_ret_l.
  destruct (IH (mkLoop (id_ l) (uv_loop_ l) (Some (Push (next_task l, t) q)) (finished_ l) (uv l)
      (out l) (global l) (next_task l + 1) (locals l)) _ eq_refl)
    as (l' & -> & Hq' & Hn & Hh); exists l'; simpl in *; split_and!; auto; [|lia].
  rewrite Hq'; unfold Push; now rewrite <- app_assoc.
Qed.

(** The task [t] ran in [l]: it is [t'] now, and posted [ts]. *)
Definition ran (t t' : Task F) (l l' : Loop G F) : Prop := exists ts,
  (ts = [] \/ posts t ts) /\
  pending_tasks_ l' = Some (queue l ++ numbered (next_task l) ts) /\
  next_task l' = next_task l + Z.of_nat (length ts).

Lemma call_inv (f : F) (l l' : Loop G F) : pending_tasks_ l <> None -> call f l = Done l' ->
  exists ts g', (exists g o, invoke f g = Done (g', o, ts)) /\
    pending_tasks_ l' = Some (queue l ++ numbered (next_task l) ts) /\
    next_task l' = next_task l + Z.of_nat (length ts).
Proof.
  intros Hp; unfold call; destruct (invoke f (global l)) as [[[g' o] ts]| | |] eqn:Ef; try discriminate.
  rewrite outcome_bind_ret_l; destruct (pending_tasks_ l) as [q|] eqn:Eq; [|congruence].
  destruct (post_all_queue ts (say o (set_global g' l)) q) as (l1 & -> & Hq & Hn & _); [exact Eq|].
  intros [= <-]; exists ts, g'; split_and!; eauto; unfold queue; now rewrite Eq.
Qed.

Lemma ran_quiet t t' l l' : pending_tasks_ l' = pending_tasks_ l -> pending_tasks_ l <> None ->
  next_task l' = next_task l -> ran t t' l l'.
Proof.
  intros Hq Hn Ht; exists []; split_and!; auto; [|simpl; lia].
  simpl; rewrite app_nil_r, Hq; unfold queue; now destruct (pending_tasks_ l).
Qed.

(** A task that survives has been started; a client may fail before it is run again. *)
Definition settled (t : Task F) : Prop :=
  match t with
  | RunOnce _ _ => False
  | TcpClientTask c => 1 <= cl_state c \/ cl_state c = State_Error
  | _ => 1 <= task_state t
  end.

Definition outlives (t : Task F) : Prop := isNotFinished (task_state t) = true -> settled t.

Lemma next_inv s s' : next s = Done s' -> 0 <= s /\ s' = s + 1.
Proof.
  unfold next, assert_; destruct (Z.leb_spec 0 s); [|discriminate]; rewrite outcome_bind_ret_l.
  intros [_ ->]%checked_s_done; lia.
Qed.

Lemma RunOnce_ran st f l t' l' : pending_tasks_ l <> None -> RunOnce_run st f l = Done (t', l') ->
  ran (RunOnce st f) t' l l' /\ outlives t'.
Proof.
  intros Hp; unfold RunOnce_run, isFinished, isS0.
  destruct (Z.eqb_spec st (-1)) as [->|].
  { intros [= <- <-]; split; [now apply ran_quiet|discriminate]. }
  destruct (Z.eqb_spec st 0) as [->|]; [|discriminate].
  intros (l1 & Hc & [= <- <-])%outcome_bind_done; split; [|discriminate].
  apply call_inv in Hc as (ts & g' & (g & o & Hf) & Hq & Hn); [|exact Hp].
  exists ts; split_and!; auto; right; exists f; eauto 6.
Qed.

Lemma Timer_ran id st r b d f l t' l' : pending_tasks_ l <> None ->
  TimerTask_run id st r b d f l = Done (t', l') ->
  ran (TimerTask st r b d f) t' l l' /\ outlives t'.
Proof.
  intros Hp; unfold TimerTask_run, isFinished, isS0; destruct (Z.eqb_spec st 0) as [->|].
  { intros (st' & [_ ->]%next_inv & [= <- <-])%outcome_bind_done; split; [now apply ran_quiet|].
    intros _; simpl; lia. }
  assert (Hout : outlives (TimerTask st r b d f)).
  { unfold outlives, isNotFinished; simpl; intros H%Z.leb_le; lia. }
  destruct (Z.eqb_spec st (-1)) as [->|].
  { intros [= <- <-]; split; [now apply ran_quiet|exact Hout]. }
  destruct b; [|intros [= <- <-]; split; [now apply ran_quiet|exact Hout]].
  intros (l1 & Hc & Hd)%outcome_bind_done; injection Hd as <- <-; split.
  - apply call_inv in Hc as (ts & g' & (g & o & Hf) & Hq & Hn); [|exact Hp].
    exists ts; split_and!; auto; right; exists f, g, g', o; split; [|exact Hf].
    unfold callback_of, isS0, isFinished; repeat case_match; try lia; reflexivity.
  - destruct r; [exact Hout|discriminate].
Qed.

(** A string came and went. *)
Definition lived (data : string) (s : Strings) : Strings :=
  let '(a, s) := new_string data s in destroy_string a s.

(** What [OnData] does, when it returns: one [uv_write] on an allocated handle. *)
Lemma SendData_inv rc id data s (l : Loop G F) s' l' : SendData rc id data s l = Done (s', l') ->
  exists h, handle_of id s = (h, s') /\ h <> null_handle /\ h ∈ open_handles (uv l) /\
    l' = set_locals (lived data (locals l)) (set_uv (uv_write rc (Connection h)
           (String.substring 0 (strlen data) data) (Local_string (next_string (locals l))) (uv l)) l).
Proof.
  unfold SendData, send_response; destruct (handle_of id s) as [h s1]; cbn [new_string].
  destruct (Z.eqb_spec h null_handle); [discriminate|]; cbn [set_locals uv]; case_decide; [|discriminate].
  intros [= -> <-]; exists h; split_and!; auto.
Qed.

Lemma Server_ran a s l s' l' : pending_tasks_ l <> None -> TcpServer_run a s l = Done (s', l') ->
  ran (TcpServerTask s) (TcpServerTask s') l l' /\ outlives (TcpServerTask s').
Proof.
  intros Hp; unfold TcpServer_run, isError, isS0, outlives, isNotFinished, settled; simpl.
  destruct (Z.ltb_spec (srv_state s) (-1)).
  { intros [= <- <-]; split; [now apply ran_quiet|]; intros ?%Z.leb_le; lia. }
  destruct (Z.eqb_spec (srv_state s) 0) as [Hs|Hs].
  { repeat case_match; try (intros [= <- <-]; split; [now apply ran_quiet|discriminate]).
    intros (st & [_ ->]%next_inv & [= <- <-])%outcome_bind_done; split; [now apply ran_quiet|].
    simpl; lia. }
  assert (Hst : (0 <=? srv_state s) = true -> 1 <= srv_state s) by (intros ?%Z.leb_le; lia).
  destruct (new_connect_ s), (new_data_ s) as [[id data]|];
    try (intros [= <- <-]; split; [now apply ran_quiet|exact Hst]).
  intros ([s1 l1] & (h & Eh & _ & _ & ->)%SendData_inv & [= <- <-])%outcome_bind_done.
  split; [now apply ran_quiet|]; revert Eh; unfold handle_of; case_match; intros [= _ <-]; exact Hst.
Qed.

Lemma Client_ran c l c' l' : pending_tasks_ l <> None -> TcpClient_run c l = Done (c', l') ->
  ran (TcpClientTask c) (TcpClientTask c') l l' /\ outlives (TcpClientTask c').
Proof.
  intros Hp; unfold TcpClient_run, isS0, isS1, isS2, isS3, outlives, isNotFinished, settled; simpl.
  destruct (Z.eqb_spec (cl_state c) 0) as [E|].
  { intros (st & [_ ->]%next_inv & [= <- <-])%outcome_bind_done; split; [now apply ran_quiet|].
    simpl; lia. }
  assert (Hst : (0 <=? cl_state c) = true -> 1 <= cl_state c \/ cl_state c = State_Error)
    by (intros ?%Z.leb_le; lia).
  repeat case_match; try (intros [= <- <-]; split; [now apply ran_quiet|exact Hst]).
  intros (st & [? ->]%next_inv & [= <- <-])%outcome_bind_done; split; [now apply ran_quiet|].
  simpl; intros _; lia.
Qed.

Lemma run_task_ran a id t l st t' l' : pending_tasks_ l <> None ->
  run_task a id t l = Done (st, t', l') -> st = task_state t' /\ ran t t' l l' /\ outlives t'.
Proof.
  intros Hp H; unfold run_task in H; apply outcome_bind_done in H as ([t1 l1] & Hr & [= <- <- <-]).
  split; [reflexivity|]; destruct t as [s f|s r b d f|s|c].
  - now apply RunOnce_ran.
  - now apply Timer_ran in Hr.
  - apply outcome_bind_done in Hr as ([s' l2] & Hr & [= <- <-]); now apply Server_ran in Hr.
  - apply outcome_bind_done in Hr as ([s' l2] & Hr & [= <- <-]); now apply Client_ran in Hr.
Qed.

Lemma post_all_no_fuel (ts : list (Task F)) (l : Loop G F) : post_all ts l <> OutOfFuel.
Proof.
  revert l; induction ts as [|t ts IH]; intros l; cbn [post_all]; [discriminate|].
  unfold PostTask; destruct (pending_tasks_ l); simpl; [apply IH|discriminate].
Qed.

Lemma call_no_fuel (f : F) (l : Loop G F) : (forall g, invoke f g <> OutOfFuel) -> call f l <> OutOfFuel.
Proof.
  intros Hf; unfold call; apply outcome_bind_fuel; [apply Hf|].
  intros [[g o] ts] _; apply post_all_no_fuel.
Qed.

Lemma next_no_fuel s : next s <> OutOfFuel.
Proof. unfold next, assert_, checked_s; repeat case_match; discriminate. Qed.

Lemma TcpServer_run_no_fuel a s (l : Loop G F) : TcpServer_run a s l <> OutOfFuel.
Proof.
  unfold TcpServer_run, OnData, SendData, send_response; repeat case_match; try discriminate.
  apply outcome_bind_fuel; [apply next_no_fuel|discriminate].
Qed.

Lemma TcpClient_run_no_fuel c (l : Loop G F) : TcpClient_run c l <> OutOfFuel.
Proof.
  unfold TcpClient_run; repeat case_match; try discriminate;
    (apply outcome_bind_fuel; [apply next_no_fuel|discriminate]).
Qed.

Lemma run_task_total a id t l : total t -> run_task a id t l <> OutOfFuel.
Proof.
  intros [Hf _]; apply outcome_bind_fuel; [|intros []; discriminate].
  destruct t as [s f|s r b d f|s|c]; cbn [callback_of] in Hf; unfold RunOnce_run, TimerTask_run.
  - repeat case_match; try discriminate; apply outcome_bind_fuel; [|discriminate].
    apply call_no_fuel, Hf; reflexivity.
  - repeat case_match; try discriminate; (apply outcome_bind_fuel; [|discriminate]);
      [apply next_no_fuel|apply call_no_fuel, Hf; reflexivity..].
  - apply outcome_bind_fuel; [apply TcpServer_run_no_fuel|intros []; discriminate].
  - apply outcome_bind_fuel; [apply TcpClient_run_no_fuel|intros []; discriminate].
Qed.

(** One iteration of the inner loop. *)
Lemma drain_nil k a nf (l : Loop G F) : pending_tasks_ l = Some [] -> drain (S k) a nf l = Done (nf, l).
Proof. intros Hl; cbn [drain]; now rewrite Hl. Qed.

Lemma drain_cons k a nf (l : Loop G F) id t q : pending_tasks_ l = Some ((id, t) :: q) ->
  drain (S k) a nf l =
    '(state, t', l') ← run_task (a id) id t (set_pending q l);
    drain k a (if isNotFinished state then nf ++ [(id, t')] else nf) l'.
Proof. intros Hl; cbn [drain]; now rewrite Hl. Qed.

(** The inner loop ends, whatever the tasks post. *)
Lemma drain_ends a ts : Acc runs_first ts -> forall l nf, pending_tasks_ l <> None ->
  map snd (queue l) = ts -> Forall total ts ->
  exists n, forall k, (n <= k)%nat -> drain k a nf l <> OutOfFuel.
Proof.
  induction 1 as [ts _ IH]; intros l nf Hp Hq Hts.
  destruct (pending_tasks_ l) as [q|] eqn:Eq; [|congruence]; unfold queue in Hq; rewrite Eq in Hq.
  destruct q as [|[id t] q]; simpl in Hq; subst ts.
  { exists 1%nat; intros [|k] Hk; [lia|]; now rewrite (drain_nil _ _ _ _ Eq). }
  apply Forall_cons in Hts as [Ht Hts].
  pose proof (fun k => drain_cons k a nf l id t q Eq) as Hunfold.
  destruct (run_task (a id) id t (set_pending q l)) as [[[st t'] l']|f|w|] eqn:Er.
  2-3: exists 1%nat; intros [|k] Hk; [lia|]; rewrite Hunfold; discriminate.
  2: now apply run_task_total in Er.
  pose proof Er as (_ & (posted & Hposted & Hq' & _) & _)%run_task_ran; [|discriminate].
  destruct (IH (map snd (queue l'))) with (l := l')
    (nf := if isNotFinished st then nf ++ [(id, t')] else nf) as [n Hn]; auto.
  - exists t, (map snd q), posted; split_and!; auto; unfold queue; rewrite Hq'; simpl.
    now rewrite map_app, numbered_snd.
  - rewrite Hq'; discriminate.
  - unfold queue; rewrite Hq'; simpl; rewrite map_app, numbered_snd; apply Forall_app; split; [exact Hts|].
    destruct Hposted as [->|Hposted]; [constructor|exact (posts_total t posted Ht Hposted)].
  - exists (S n); intros [|k] Hk; [lia|]; rewrite Hunfold, outcome_bind_ret_l; apply Hn; lia.
Qed.

(** ** Rounds that never end *)

Lemma numbered_elem n t ts : t ∈ ts -> exists i, (i, t) ∈ numbered n ts.
Proof.
  revert n; induction ts as [|u ts IH]; intros n; [now rewrite elem_of_nil|].
  intros [->|Ht]%elem_of_cons; cbn [numbered].
  - exists n; apply elem_of_cons; now left.
  - destruct (IH (n + 1) Ht) as [i Hi]; exists i; apply elem_of_cons; now right.
Qed.

(** A run-once task of the family [P] is pending. *)
Definition pending_one (P : F -> Prop) (l : Loop G F) : Prop :=
  exists id f, P f /\ (id, RunOnce_make f) ∈ queue l.

Lemma RunOnce_posts_again P id a f (l : Loop G F) st t' l' : posting_for_ever P -> P f ->
  pending_tasks_ l <> None ->
  run_task a id (RunOnce_make f) l = Done (st, t', l') -> pending_one P l'.
Proof.
  intros HP Hf Hl H; destruct (HP f Hf (global l)) as (g' & o & ts & f' & Ei & Hin & Hf').
  unfold run_task, RunOnce_make, RunOnce_run in H; cbn [isFinished isS0 S0 Z.eqb] in H.
  unfold call in H; rewrite Ei, outcome_bind_ret_l in H.
  destruct (pending_tasks_ l) as [q|] eqn:Eq; [|congruence].
  destruct (post_all_queue ts (say o (set_global g' l)) q Eq) as (l1 & E & Hq & _).
  rewrite E, !outcome_bind_ret_l in H; injection H as _ _ <-.
  destruct (numbered_elem (next_task l) _ _ Hin) as [i Hi].
  exists i, f'; split; [exact Hf'|]; unfold queue; rewrite Hq; apply elem_of_app; now right.
Qed.

Lemma drain_endless P k a : posting_for_ever P -> forall nf (l : Loop G F) d,
  pending_tasks_ l <> None -> pending_one P l -> drain k a nf l <> Done d.
Proof.
  intros HP; induction k as [|k IH]; intros nf l d Hl Hone; [discriminate|].
  destruct (pending_tasks_ l) as [[|[i t] q]|] eqn:Eq; [| |congruence].
  { destruct Hone as (id & f & _ & Hin); unfold queue in Hin; rewrite Eq in Hin.
    now apply elem_of_nil in Hin. }
  rewrite (drain_cons _ _ _ _ _ _ _ Eq); intros ([[st t'] l1] & Hr & H)%outcome_bind_done.
  revert H; apply IH.
  - apply run_task_ran in Hr as (_ & (ts & _ & -> & _) & _); discriminate.
  - destruct Hone as (id & f & Hf & Hin); unfold queue in Hin; rewrite Eq in Hin.
    apply elem_of_cons in Hin as [[= <- <-]|Hin].
    + now apply (RunOnce_posts_again P) in Hr.
    + apply run_task_ran in Hr as (_ & (ts & _ & Hq & _) & _); [|discriminate].
      exists id, f; split; [exact Hf|]; unfold queue; rewrite Hq; apply elem_of_app; now left.
Qed.

(** ** Ownership *)

(** Every task, pending or set aside in [nf], is owned once, and its address was
    given out. *)
Record owned (l : Loop G F) (nf : list (Z * Task F)) : Prop := {
  owned_live : pending_tasks_ l <> None;
  owned_once : NoDup (map fst (nf ++ queue l));
  owned_old : Forall (fun p => p.1 < next_task l) (nf ++ queue l);
}.

Lemma numbered_fresh n ts : NoDup (map fst (numbered n ts)) /\
  Forall (fun p => n <= p.1 < n + Z.of_nat (length ts)) (numbered n ts).
Proof.
  revert n; induction ts as [|t ts IH]; intros n; simpl; [split; constructor|].
  destruct (IH (n + 1)) as [H1 H2]; rewrite Forall_forall in H2; split; constructor; auto.
  - intros Hin; apply list_elem_of_fmap in Hin as ([m u] & E & Hm); simpl in E; subst.
    specialize (H2 _ Hm); simpl in H2; lia.
  - simpl; lia.
  - apply Forall_forall; intros p Hp; specialize (H2 _ Hp); lia.
Qed.

(** Running the first task keeps ownership, whether it is kept or destroyed. *)
Lemma owned_step id t t' q l l' nf keep : pending_tasks_ l = Some ((id, t) :: q) ->
  owned l nf -> ran t t' (set_pending q l) l' ->
  owned l' (if keep : bool then nf ++ [(id, t')] else nf).
Proof.
  intros Hl [_ Hnd Hold] (ts & _ & Hq & Hn); unfold queue in *; rewrite Hl in *; simpl in *.
  destruct (numbered_fresh (next_task l) ts) as [Hnd' Hfr].
  rewrite map_app in Hnd; simpl in Hnd.
  assert (Hall : Forall (fun p => p.1 < next_task l') ((nf ++ [(id, t')]) ++ q ++ numbered (next_task l) ts)
    /\ NoDup (map fst ((nf ++ [(id, t')]) ++ q ++ numbered (next_task l) ts))).
  { rewrite <- app_assoc; simpl; rewrite Hn; split.
    - rewrite Forall_forall in Hold, Hfr; apply Forall_forall; intros p.
      rewrite elem_of_app, elem_of_cons, elem_of_app; intros [Hp|[->|[Hp|Hp]]].
      + specialize (Hold p); rewrite elem_of_app in Hold; specialize (Hold (or_introl Hp)); lia.
      + specialize (Hold (id, t)); rewrite elem_of_app, elem_of_cons in Hold; simpl in *.
        specialize (Hold (or_intror (or_introl eq_refl))); lia.
      + specialize (Hold p); rewrite elem_of_app, elem_of_cons in Hold.
        specialize (Hold (or_intror (or_intror Hp))); lia.
      + specialize (Hfr p Hp); lia.
    - rewrite !map_app; simpl; rewrite map_app, app_comm_cons, app_assoc.
      apply NoDup_app; split_and!; [exact Hnd| |exact Hnd'].
      intros x Hx Hy; apply list_elem_of_fmap in Hy as (p & -> & Hp).
      rewrite Forall_forall in Hfr, Hold; specialize (Hfr p Hp).
      assert (Hx' : p.1 ∈ map fst (nf ++ (id, t) :: q)) by (rewrite map_app; exact Hx).
      apply list_elem_of_fmap in Hx' as (p' & E & Hp'); specialize (Hold p' Hp'); lia. }
  destruct Hall as [Ha1 Ha2]; split; [rewrite Hq; discriminate|..]; unfold queue; rewrite Hq; simpl;
    destruct keep; auto; rewrite <- app_assoc in Ha1, Ha2; simpl in Ha1, Ha2.
  - rewrite map_app in Ha2 |- *; simpl in Ha2; apply NoDup_app in Ha2 as (H1 & H2 & H3).
    apply NoDup_app; split_and!; auto; [|now apply NoDup_cons in H3].
    intros x Hx Hy; apply (H2 x Hx); now apply list_elem_of_further.
  - apply Forall_app in Ha1 as [H1 H2]; apply Forall_cons in H2 as [_ H2]; now apply Forall_app.
Qed.

Definition all_settled (ts : list (Z * Task F)) : Prop := Forall (fun p => settled p.2) ts.

(** The inner loop leaves nothing pending, and keeps started tasks only. *)
Lemma drain_inv k a nf l nf' l' : owned l nf -> all_settled nf ->
  drain k a nf l = Done (nf', l') ->
  owned l' nf' /\ queue l' = [] /\ all_settled nf'.
Proof.
  revert nf l; induction k as [|k IH]; intros nf l Ho Hs H; [discriminate|].
  pose proof (owned_live _ _ Ho) as Hlive.
  destruct (pending_tasks_ l) as [[|[id t] q]|] eqn:Eq; [| |congruence].
  { rewrite (drain_nil _ _ _ _ Eq) in H; injection H as <- <-; split_and!; auto; unfold queue; now rewrite Eq. }
  rewrite (drain_cons _ _ _ _ _ _ _ Eq) in H.
  apply outcome_bind_done in H as ([[st t'] l1] & Hr & H).
  apply run_task_ran in Hr as (-> & Hran & Hout); [|discriminate].
  apply IH in H; [exact H|eapply owned_step; eauto|].
  destruct (isNotFinished (task_state t')) eqn:En; [|exact Hs].
  apply Forall_app; split; [exact Hs|]; constructor; [now apply Hout|constructor].
Qed.

Lemma push_all_inv nf l l' : pending_tasks_ l <> None -> push_all nf l = Done l' ->
  queue l' = queue l ++ nf /\ next_task l' = next_task l /\ pending_tasks_ l' <> None.
Proof.
  revert l; induction nf as [|p nf IH]; intros l Hl H; cbn [push_all] in H.
  { injection H as <-; rewrite app_nil_r; auto. }
  destruct (pending_tasks_ l) as [q|] eqn:Eq; [|congruence]; cbn [deref] in H.
  rewrite outcome_bind_ret_l in H; apply IH in H as (Hq & Hn & Hp); [|discriminate].
  split_and!; auto; rewrite Hq; unfold queue, Push; simpl; rewrite Eq; simpl; now rewrite <- app_assoc.
Qed.

(** A round with one pending task, which runs, survives and posts nothing. *)
Lemma round_one k a es id t (l : Loop G F) st t' l1 : pending_tasks_ l = Some [(id, t)] ->
  run_task (a id) id t (set_pending [] (say ["uv run once"] l)) = Done (st, t', l1) ->
  pending_tasks_ l1 = Some [] -> isNotFinished st = true ->
  round (S (S k)) a es l = uv_run es (set_pending [(id, t')] l1).
Proof.
  intros Hl Hr H1 Hst; unfold round; rewrite (drain_cons _ _ _ (say ["uv run once"] l) id t [] Hl).
  rewrite Hr, outcome_bind_ret_l, Hst, (drain_nil _ _ _ _ H1), outcome_bind_ret_l.
  cbn [app push_all]; rewrite H1; reflexivity.
Qed.

(** ** Callbacks of libuv *)

Lemma update_task_ids id t q : map fst (update_task id t q) = map fst (q : list (Z * Task F)).
Proof.
  unfold update_task; induction q as [|[i u] q IH]; simpl; [reflexivity|].
  rewrite IH; destruct (Z.eqb_spec i id); simpl; congruence.
Qed.

Lemma find_task_some id q (t : Task F) : find_task id q = Some t -> (id, t) ∈ q.
Proof.
  unfold find_task; destruct (List.find _ q) as [[i u]|] eqn:E; [|discriminate].
  intros [= <-]; apply List.find_some in E as [Hin Hi]; simpl in Hi; apply Z.eqb_eq in Hi as ->.
  now apply list_elem_of_In.
Qed.

(** An address names one task. *)
Lemma one_address (q : list (Z * Task F)) id t u : NoDup (map fst q) ->
  (id, t) ∈ q -> (id, u) ∈ q -> t = u.
Proof.
  induction q as [|[i x] q IH]; simpl; intros Hnd Ht Hu; [now apply elem_of_nil in Ht|].
  apply NoDup_cons in Hnd as [Hi Hnd]; apply elem_of_cons in Ht, Hu.
  destruct Ht as [[= -> ->]|Ht], Hu as [[= ->]|Hu]; auto.
  - destruct Hi; exact (list_elem_of_fmap_2 fst _ _ Hu).
  - subst; destruct Hi; exact (list_elem_of_fmap_2 fst _ _ Ht).
Qed.

Lemma find_task_elem id q (t : Task F) : NoDup (map fst q) -> (id, t) ∈ q -> find_task id q = Some t.
Proof.
  intros Hnd Hin; destruct (find_task id q) as [u|] eqn:E.
  - f_equal; exact (one_address q id u t Hnd (find_task_some _ _ _ E) Hin).
  - unfold find_task in E; destruct (List.find _ q) eqn:E'; [discriminate|].
    apply list_elem_of_In in Hin; pose proof (List.find_none _ _ E' _ Hin) as Hne.
    simpl in Hne; now rewrite Z.eqb_refl in Hne.
Qed.

(** What a callback leaves alone, but for the task that it is about. *)
Record untouched (l l' : Loop G F) : Prop := {
  untouched_tasks : pending_tasks_ l' = pending_tasks_ l;
  untouched_next : next_task l' = next_task l;
  untouched_locals : locals l' = locals l;
  untouched_global : global l' = global l;
}.

#[local] Instance untouched_preorder : PreOrder untouched.
Proof. split; [now intros l|]; intros l1 l2 l3 [] []; split; congruence. Qed.

(** The state of a client after a callback: the same, a later one, or the error. *)
Definition keeps_on (st st' : State) : Prop := st' = st \/ 1 <= st' \/ st' = State_Error.

(** The task [t] after callbacks of libuv; [fired] says whether one was of its timer. *)
Definition follows (fired : bool) (t t' : Task F) : Prop :=
  match t with
  | RunOnce _ _ => t' = t
  | TimerTask st r b d f => t' = TimerTask st r (b || fired) d f
  | TcpServerTask s => exists s', t' = TcpServerTask s' /\ srv_state s' = srv_state s
  | TcpClientTask c => exists st r, t' = TcpClientTask (set_cl_state st (set_response r c)) /\
      keeps_on (cl_state c) st
  end.

Lemma follows_refl t : follows false t t.
Proof.
  destruct t as [| st r b d f|s|c]; simpl; [reflexivity|now rewrite orb_false_r|eauto|].
  exists (cl_state c), (response_ c); split; [now destruct c|now left].
Qed.

Lemma follows_trans b1 b2 t1 t2 t3 : follows b1 t1 t2 -> follows b2 t2 t3 -> follows (b1 || b2) t1 t3.
Proof.
  destruct t1 as [| st r b d f|s|c]; simpl.
  - now intros -> ->.
  - intros -> ->; now rewrite orb_assoc.
  - intros (s' & -> & H1) (s'' & -> & H2); exists s''; split; congruence.
  - intros (st & r & -> & H1) (st' & r' & -> & H2); exists st', r'; split; [reflexivity|].
    unfold keeps_on in *; simpl in H2; intuition (subst; auto).
Qed.

Lemma follows_settled b t t' : follows b t t' -> settled t -> settled t'.
Proof.
  destruct t as [| st r f d g|s|c]; simpl; [now intros ->|now intros ->|..].
  - now intros (s' & -> & Hs); simpl; rewrite Hs.
  - intros (st & r & -> & Hs); unfold keeps_on in Hs; simpl; intuition lia.
Qed.

(** A callback on a task. *)
Definition mild (fired : bool) (k : Task F -> Loop G F -> outcome (Task F * Loop G F)) : Prop :=
  forall t l t' l', k t l = Done (t', l') -> untouched l l' /\ follows fired t t'.

Lemma mild_server k : (forall s l s' l', k s l = Done (s', l') ->
    untouched l l' /\ srv_state s' = srv_state s) ->
  mild false (fun t l => match t with
                         | TcpServerTask s => '(s, l) ← k s l; Done (TcpServerTask s, l)
                         | _ => Undef DanglingDeref
                         end).
Proof.
  intros Hk [] l t' l' H; try discriminate.
  apply outcome_bind_done in H as ([s' l1] & H & [= <- <-]); apply Hk in H as [? ?].
  split; [assumption|simpl; eauto].
Qed.

Lemma mild_client k : (forall c l c' l', k c l = Done (c', l') -> untouched l l' /\
    exists st r, c' = set_cl_state st (set_response r c) /\ keeps_on (cl_state c) st) ->
  mild false (fun t l => match t with
                         | TcpClientTask c => '(c, l) ← k c l; Done (TcpClientTask c, l)
                         | _ => Undef DanglingDeref
                         end).
Proof.
  intros Hk [] l t' l' H; try discriminate.
  apply outcome_bind_done in H as ([c' l1] & H & [= <- <-]).
  apply Hk in H as (? & st & r & -> & ?); split; [assumption|simpl; eauto].
Qed.

Lemma on_new_connection_mild st h rc s l s' l' :
  on_new_connection (G := G) (F := F) st h rc s l = Done (s', l') ->
  untouched l l' /\ srv_state s' = srv_state s.
Proof.
  unfold on_new_connection, add_connection, new_connection_id.
  destruct (st <? 0); [now intros [= <- <-]|]; destruct (rc =? 0).
  - unfold checked_s; case_match; [|discriminate]; now intros [= <- <-].
  - now intros (u & _ & [= <- <-])%outcome_bind_done.
Qed.

Lemma server_on_read_mild h n buf s l s' l' :
  server_on_read (G := G) (F := F) h n buf s l = Done (s', l') ->
  untouched l l' /\ srv_state s' = srv_state s.
Proof.
  unfold server_on_read, connection_of; destruct (0 <? n).
  - destruct (connection_id_map_ s !! h); destruct (c_str buf); try discriminate; now intros [= <- <-].
  - destruct (n <? 0); [|now intros [= <- <-]]; now intros (u & _ & [= <- <-])%outcome_bind_done.
Qed.

Lemma client_kept (c : TcpClient) :
  exists st r, c = set_cl_state st (set_response r c) /\ keeps_on (cl_state c) st.
Proof. exists (cl_state c), (response_ c); split; [now destruct c|now left]. Qed.

Lemma on_connect_mild id st rc c l c' l' :
  on_connect (G := G) (F := F) id st rc c l = Done (c', l') -> untouched l l' /\
    exists st r, c' = set_cl_state st (set_response r c) /\ keeps_on (cl_state c) st.
Proof.
  unfold on_connect; destruct (st <? 0).
  { intros (u & _ & [= <- <-])%outcome_bind_done; split; [now split|apply client_kept]. }
  unfold assert_; destruct (isS1 (cl_state c)); [|discriminate]; rewrite outcome_bind_ret_l.
  intros (s & [? ->]%next_inv & [= <- <-])%outcome_bind_done; split; [now split|].
  exists (cl_state c + 1), (response_ c); split; [reflexivity|unfold keeps_on; lia].
Qed.

Lemma client_on_read_mild id n buf c l c' l' :
  client_on_read (G := G) (F := F) id n buf c l = Done (c', l') -> untouched l l' /\
    exists st r, c' = set_cl_state st (set_response r c) /\ keeps_on (cl_state c) st.
Proof.
  unfold client_on_read, assert_; destruct (isS2 (cl_state c)); [|discriminate].
  rewrite outcome_bind_ret_l; destruct (0 <? n).
  - intros (d & _ & (s & [? ->]%next_inv & [= <- <-])%outcome_bind_done)%outcome_bind_done.
    split; [now split|]; exists (cl_state c + 1), d; split; [reflexivity|unfold keeps_on; lia].
  - destruct (n <? 0); [|intros [= <- <-]; split; [now split|apply client_kept]].
    intros (u & _ & [= <- <-])%outcome_bind_done; split; [now split|].
    exists State_Error, (response_ c); split; [reflexivity|unfold keeps_on; auto].
Qed.

(** The event is the timer of a task. *)
Definition fires (e : event) (id : Z) : bool := match e with TimerFired i => i =? id | _ => false end.

Lemma timer_mild : mild true (fun t l => match t with
    | TimerTask st repeat _ d f => Done (TimerTask st repeat true d f, say ["timer event emit"] l)
    | _ => Undef DanglingDeref
    end).
Proof.
  intros [] l t' l' H; try discriminate; injection H as <- <-; split; [now split|].
  simpl; now rewrite orb_true_r.
Qed.

(** An event is a callback on one task, or touches no task. *)
Lemma deliver_kind e l l' : deliver e l = Done l' ->
  untouched l l' /\ (forall id, fires e id = false) \/
  exists id k, on_task id k l = Done l' /\ mild (fires e id) k /\ forall i, i <> id -> fires e i = false.
Proof.
  destruct e as [id|id st h rc|id h n buf|id st rc|id n buf|r|r st|s]; intros H; cbn [deliver] in H.
  - right; exists id; eexists; split; [exact H|]; cbn [fires]; rewrite Z.eqb_refl.
    split; [exact timer_mild|]; intros i Hi; apply Z.eqb_neq; congruence.
  - right; exists id; eexists; split; [exact H|]; split; [apply mild_server, on_new_connection_mild|auto].
  - right; exists id; eexists; split; [exact H|]; split; [apply mild_server, server_on_read_mild|auto].
  - right; exists id; eexists; split; [exact H|]; split; [apply mild_client, on_connect_mild|auto].
  - right; exists id; eexists; split; [exact H|]; split; [apply mild_client, client_on_read_mild|auto].
  - left; split; [|auto]; revert H; unfold write_buffer.
    now intros (q & _ & (b & _ & [= <-])%outcome_bind_done)%outcome_bind_done.
  - left; split; [|auto]; revert H; unfold on_write; now intros (u & _ & [= <-])%outcome_bind_done.
  - left; split; [|auto]; destruct s as [h|id]; [|discriminate H]; cbn [on_close] in H.
    apply outcome_bind_done in H as (u & _ & [= <-]); now split.
Qed.

(** The pending tasks after some events: the same ones, in the same order. *)
Definition followed (es : list event) (q q' : list (Z * Task F)) : Prop :=
  Forall2 (fun p p' => p'.1 = p.1 /\ follows (existsb (fun e => fires e p.1) es) p.2 p'.2) q q'.

Record stepped (es : list event) (l l' : Loop G F) : Prop := {
  stepped_live : pending_tasks_ l' <> None;
  stepped_tasks : followed es (queue l) (queue l');
  stepped_next : next_task l' = next_task l;
  stepped_locals : locals l' = locals l;
  stepped_global : global l' = global l;
}.

Lemma followed_ids es q q' : followed es q q' -> map fst q' = map fst q.
Proof. induction 1 as [|p p' q q' [Hp _] _ IH]; simpl; congruence. Qed.

Lemma followed_trans e es q1 q2 q3 : followed [e] q1 q2 -> followed es q2 q3 -> followed (e :: es) q1 q3.
Proof.
  intros H; revert q3; induction H as [|p1 p2 q1 q2 [Hi H1] _ IH]; intros q3 H; inversion H; subst;
    [constructor|].
  match goal with H : _ = _ /\ _ |- _ => destruct H as [Hj H2] end.
  constructor; [|now apply IH]; split; [congruence|]; cbn [existsb] in *; rewrite orb_false_r in H1.
  rewrite Hi in H2; exact (follows_trans _ _ _ _ _ H1 H2).
Qed.

Lemma untouched_stepped es l l' : pending_tasks_ l <> None -> untouched l l' ->
  (forall e id, e ∈ es -> fires e id = false) -> stepped es l l'.
Proof.
  intros Hl [Hq Hn Hs Hg] He; split; try congruence; unfold followed, queue; rewrite Hq.
  apply Forall_Forall2_diag, Forall_forall; intros p _; split; [reflexivity|].
  replace (existsb _ es) with false; [apply follows_refl|symmetry].
  apply not_true_iff_false; intros (e & Hin & Hf)%existsb_exists; apply list_elem_of_In in Hin.
  now rewrite (He e p.1 Hin) in Hf.
Qed.

Lemma on_task_stepped e id k l l' : NoDup (map fst (queue l)) -> mild (fires e id) k ->
  (forall i, i <> id -> fires e i = false) -> on_task id k l = Done l' -> stepped [e] l l'.
Proof.
  intros Hnd Hk He H; unfold on_task, queue in *.
  destruct (pending_tasks_ l) as [q|] eqn:Eq; [|discriminate H].
  cbn [deref] in H; rewrite outcome_bind_ret_l in H.
  destruct (find_task id q) as [t|] eqn:Ef; [|discriminate H].
  cbn [deref] in H; rewrite outcome_bind_ret_l in H.
  apply outcome_bind_done in H as ([t' l1] & Hkt & H); apply Hk in Hkt as [[Hq Hn Hs Hg] Hf].
  rewrite Hq, Eq in H; cbn [deref] in H; rewrite outcome_bind_ret_l in H; injection H as <-.
  split; [discriminate| |assumption..].
  unfold followed, queue; rewrite Eq; simpl; unfold update_task; apply Forall2_fmap_r.
  apply Forall_Forall2_diag, Forall_forall; intros [i u] Hin; simpl; rewrite orb_false_r.
  destruct (Z.eqb_spec i id) as [->|Hne]; simpl.
  - split; [reflexivity|]; now rewrite (one_address q id u t Hnd Hin (find_task_some _ _ _ Ef)).
  - split; [reflexivity|]; rewrite (He i Hne); apply follows_refl.
Qed.

Lemma deliver_stepped e l l' : NoDup (map fst (queue l)) -> pending_tasks_ l <> None ->
  deliver e l = Done l' -> stepped [e] l l'.
Proof.
  intros Hnd Hl [[Hu He]|(id & k & H & Hk & He)]%deliver_kind; [|now apply (on_task_stepped e id k)].
  apply untouched_stepped; auto; intros e' i ->%list_elem_of_singleton; apply He.
Qed.

Lemma uv_run_stepped es : forall l l', NoDup (map fst (queue l)) -> pending_tasks_ l <> None ->
  uv_run es l = Done l' -> stepped es l l'.
Proof.
  induction es as [|e es IH]; intros l l' Hnd Hl H; cbn [uv_run] in H.
  { injection H as <-; apply untouched_stepped; [exact Hl|reflexivity|]; intros e id Hin.
    now apply elem_of_nil in Hin. }
  apply outcome_bind_done in H as (l1 & [Hl1 Hq1 Hn1 Hs1 Hg1]%deliver_stepped & H); [|assumption..].
  rewrite <- (followed_ids _ _ _ Hq1) in Hnd; destruct (IH l1 l' Hnd Hl1 H) as [Hl2 Hq2 Hn2 Hs2 Hg2].
  split; try congruence; exact (followed_trans _ _ _ _ _ Hq1 Hq2).
Qed.

Definition ready (l : Loop G F) : Prop := owned l [] /\ all_settled (queue l).

Lemma stepped_ready es l l' : stepped es l l' -> ready l -> ready l'.
Proof.
  intros [Hl Hq Hn _ _] [[_ Hnd Hold] Hs]; pose proof (followed_ids _ _ _ Hq) as Hids.
  split; [split; simpl in *; [exact Hl|now rewrite Hids|]|].
  - rewrite Hn; apply Forall_forall; intros p Hp.
    assert (Hp' : p.1 ∈ map fst (queue l')) by now apply list_elem_of_fmap_2.
    rewrite Hids in Hp'; apply list_elem_of_fmap in Hp' as (p' & -> & Hp').
    rewrite Forall_forall in Hold; now apply Hold.
  - clear -Hq Hs; unfold all_settled in *; induction Hq as [|p p' q q' [_ Hp] _ IH]; [constructor|].
    apply Forall_cons in Hs as [Ht Hs]; constructor; [exact (follows_settled _ _ _ Hp Ht)|auto].
Qed.

Lemma uv_run_ready es l l' : ready l -> uv_run es l = Done l' -> ready l'.
Proof.
  intros Hl H; refine (stepped_ready es l l' (uv_run_stepped es l l' _ _ H) Hl);
    [exact (owned_once _ _ (proj1 Hl))|exact (owned_live _ _ (proj1 Hl))].
Qed.

(** A whole round. *)
Lemma push_all_ready nf l l' : owned l nf -> queue l = [] -> all_settled nf ->
  push_all nf l = Done l' -> ready l'.
Proof.
  intros Ho Hq1 Hs H; pose proof (owned_live _ _ Ho) as Hlive.
  apply push_all_inv in H as (Hq2 & Hn2 & Hp2); [|exact Hlive].
  rewrite Hq1 in Hq2; destruct Ho as [_ Hnd Hold]; rewrite Hq1, app_nil_r in Hnd, Hold.
  split; [split; [exact Hp2|simpl; now rewrite Hq2|simpl; now rewrite Hq2, Hn2]|].
  now rewrite Hq2.
Qed.

Lemma round_ready fuel a es l l' : owned l [] -> round fuel a es l = Done l' -> ready l'.
Proof.
  intros Ho H; unfold round in H; apply outcome_bind_done in H as ([nf l1] & Hd & H).
  apply drain_inv in Hd as (Ho1 & Hq1 & Hs1); [|destruct Ho; now split|constructor].
  apply outcome_bind_done in H as (l2 & Hp & H).
  exact (uv_run_ready es l2 l' (push_all_ready _ _ _ Ho1 Hq1 Hs1 Hp) H).
Qed.

(** ** Callbacks of libuv return *)

Lemma c_str_no_fuel buf : c_str buf <> OutOfFuel.
Proof.
  induction buf as [|c buf IH]; cbn [c_str]; [discriminate|]; case_decide; [discriminate|].
  now apply outcome_bind_fuel.
Qed.

Lemma uv_close_no_fuel s u : uv_close s u <> OutOfFuel.
Proof. unfold uv_close, assert_; case_match; discriminate. Qed.

Create HintDb fuel.
#[local] Hint Resolve outcome_bind_fuel c_str_no_fuel uv_close_no_fuel next_no_fuel : fuel.

Lemma on_task_no_fuel id k (l : Loop G F) : (forall t l, k t l <> OutOfFuel) -> on_task id k l <> OutOfFuel.
Proof.
  intros Hk; unfold on_task; destruct (pending_tasks_ l); [|discriminate]; cbn [deref].
  rewrite outcome_bind_ret_l; destruct (find_task id _); [|discriminate]; cbn [deref].
  rewrite outcome_bind_ret_l; apply outcome_bind_fuel; [apply Hk|]; intros [t' l'] _.
  destruct (pending_tasks_ l'); discriminate.
Qed.

Lemma on_server_no_fuel id k (l : Loop G F) : (forall s l, k s l <> OutOfFuel) -> on_server id k l <> OutOfFuel.
Proof.
  intros Hk; apply on_task_no_fuel; intros [] l1; try discriminate.
  apply outcome_bind_fuel; [apply Hk|intros []; discriminate].
Qed.

Lemma on_client_no_fuel id k (l : Loop G F) : (forall c l, k c l <> OutOfFuel) -> on_client id k l <> OutOfFuel.
Proof.
  intros Hk; apply on_task_no_fuel; intros [] l1; try discriminate.
  apply outcome_bind_fuel; [apply Hk|intros []; discriminate].
Qed.

Lemma deliver_no_fuel e (l : Loop G F) : deliver e l <> OutOfFuel.
Proof.
  destruct e as [id|id st h rc|id h n buf|id st rc|id n buf|r|r st|s]; cbn [deliver].
  - apply on_task_no_fuel; intros []; discriminate.
  - apply on_server_no_fuel; intros s l1; unfold on_new_connection, add_connection, new_connection_id, checked_s.
    repeat case_match; try discriminate; apply outcome_bind_fuel; auto with fuel; discriminate.
  - apply on_server_no_fuel; intros s l1; unfold server_on_read.
    repeat case_match; try discriminate; apply outcome_bind_fuel; auto with fuel; discriminate.
  - apply on_client_no_fuel; intros c l1; unfold on_connect, assert_; case_match.
    + apply outcome_bind_fuel; auto with fuel; discriminate.
    + destruct (isS1 _); [|discriminate]; apply outcome_bind_fuel; auto with fuel; discriminate.
  - apply on_client_no_fuel; intros c l1; unfold client_on_read, assert_.
    destruct (isS2 _); [|discriminate]; rewrite outcome_bind_ret_l; repeat case_match; try discriminate.
    + apply outcome_bind_fuel; auto with fuel.
    + apply outcome_bind_fuel; auto with fuel; discriminate.
  - unfold write_buffer; destruct (requests (uv l) !! r) as [q|]; [|discriminate]; cbn [deref].
    rewrite outcome_bind_ret_l; destruct (string_at (req_base q) l); discriminate.
  - unfold on_write, free_request; case_match; discriminate.
  - unfold on_close; destruct s; [|discriminate]; unfold free_handle; case_match; discriminate.
Qed.

Lemma uv_run_no_fuel es : forall l : Loop G F, uv_run es l <> OutOfFuel.
Proof.
  induction es as [|e es IH]; intros l; cbn [uv_run]; [discriminate|].
  apply outcome_bind_fuel; [apply deliver_no_fuel|auto].
Qed.

Lemma push_all_no_fuel nf : forall l : Loop G F, push_all nf l <> OutOfFuel.
Proof.
  induction nf as [|p nf IH]; intros l; cbn [push_all]; [discriminate|].
  destruct (pending_tasks_ l); [|discriminate]; apply IH.
Qed.

(** A round has a result when its inner loop has. *)
Lemma round_fuel k a es (l : Loop G F) : drain k a [] (say ["uv run once"] l) <> OutOfFuel ->
  round k a es l <> OutOfFuel.
Proof.
  intros Hd; unfold round; apply outcome_bind_fuel; [exact Hd|]; intros [nf l1] _.
  apply outcome_bind_fuel; [apply push_all_no_fuel|intros; apply uv_run_no_fuel].
Qed.

(** ** Connections of the server *)

(** What the maps of the server say about each other. *)
Record connections_ok (s : TcpServer) : Prop := {
  conn_inverse : forall h id, connection_id_map_ s !! h = Some id ->
    connection_handle_map_ s !! id = Some h;
  conn_ids : forall id h, connection_handle_map_ s !! id = Some h -> 0 <= id <= cur_connction_id_ s;
  conn_last : -1 <= cur_connction_id_ s;
  conn_events : (forall id, new_connect_ s = Some id -> is_Some (connection_handle_map_ s !! id)) /\
    (forall id d, new_data_ s = Some (id, d) -> is_Some (connection_handle_map_ s !! id));
}.

Lemma add_connection_ok h s s' : connections_ok s -> add_connection h s = Done s' ->
  connections_ok s' /\ new_connect_ s' = Some (cur_connction_id_ s + 1) /\
  connection_handle_map_ s !! (cur_connction_id_ s + 1) = None.
Proof.
  intros [Hinv Hids Hlast [Hc Hd]]; unfold add_connection, new_connection_id, checked_s; case_match; [|discriminate].
  rewrite outcome_bind_ret_l; intros [= <-].
  assert (Hfresh : connection_handle_map_ s !! (cur_connction_id_ s + 1) = None).
  { destruct (connection_handle_map_ s !! _) eqn:E; [|reflexivity]; apply Hids in E; lia. }
  split_and!; [|reflexivity|exact Hfresh]; split; simpl.
  - intros h' id; destruct (decide (h = h')) as [<-|Hne].
    + rewrite lookup_insert_eq; intros [= <-]; now rewrite lookup_insert_eq.
    + rewrite lookup_insert_ne by assumption; intros Hid%Hinv; rewrite lookup_insert_ne; [exact Hid|].
      intros <-; congruence.
  - intros id h'; destruct (decide (cur_connction_id_ s + 1 = id)) as [<-|Hne]; [lia|].
    rewrite lookup_insert_ne by assumption; intros Hh%Hids; lia.
  - lia.
  - split.
    + intros id [= <-]; rewrite lookup_insert_eq; eauto.
    + intros id d Hn; destruct (decide (cur_connction_id_ s + 1 = id)) as [<-|Hne];
        [rewrite lookup_insert_eq; eauto|rewrite lookup_insert_ne by assumption; eauto].
Qed.

(** What a reachable server state keeps: accepting, running, and reading from a
    connection it knows. *)
Lemma set_events_ok c d s : connections_ok s ->
  (forall id, c = Some id -> is_Some (connection_handle_map_ s !! id)) ->
  (forall id x, d = Some (id, x) -> is_Some (connection_handle_map_ s !! id)) ->
  connections_ok (set_events c d s).
Proof. intros [] Hc Hd; split; auto. Qed.

Lemma set_srv_state_ok st s : connections_ok s -> connections_ok (set_srv_state st s).
Proof. intros []; split; auto. Qed.

Lemma TcpServer_make_ok ip port : connections_ok (TcpServer_make ip port).
Proof.
  split; simpl; [| |lia|split; discriminate].
  - intros h id H; now rewrite lookup_empty in H.
  - intros id h H; now rewrite lookup_empty in H.
Qed.

Lemma TcpServer_run_ok a s (l : Loop G F) s' l' : connections_ok s ->
  TcpServer_run a s l = Done (s', l') -> connections_ok s'.
Proof.
  intros Hs; pose proof (conn_events _ Hs) as [Hc Hd]; unfold TcpServer_run.
  destruct (isError (srv_state s)); [now intros [= <- <-]|].
  destruct (isS0 (srv_state s)).
  { repeat case_match; try (intros [= <- <-]; now apply set_srv_state_ok).
    intros (st & _ & [= <- <-])%outcome_bind_done; now apply set_srv_state_ok. }
  destruct (new_connect_ s) as [c|] eqn:Ec.
  { intros [= <- <-]; apply set_events_ok; auto; discriminate. }
  destruct (new_data_ s) as [[id data]|] eqn:Ed; [|now intros [= <- <-]].
  destruct (Hd id data eq_refl) as [h Hh].
  intros ([s1 l1] & (h' & Eh & _)%SendData_inv & [= <- <-])%outcome_bind_done.
  unfold handle_of in Eh; rewrite Hh in Eh; injection Eh as <- <-.
  apply set_events_ok; auto; congruence.
Qed.

Lemma server_on_read_ok h n buf s (l : Loop G F) s' l' : connections_ok s ->
  is_Some (connection_id_map_ s !! h) -> server_on_read h n buf s l = Done (s', l') ->
  connections_ok s'.
Proof.
  intros Hs [id Hid]; pose proof (conn_events _ Hs) as [Hc Hd].
  unfold server_on_read, connection_of; rewrite Hid; destruct (0 <? n).
  - destruct (c_str buf); try discriminate; intros [= <- <-].
    apply set_events_ok; auto; intros i x [= <- _]; rewrite (conn_inverse _ Hs _ _ Hid); eauto.
  - destruct (n <? 0); [|now intros [= <- <-]]; now intros (u & _ & [= <- <-])%outcome_bind_done.
Qed.

End Facts.
