(* ===== verification/LoopUv.v ===== *)
(** * LoopUv: what the event loop does to libuv, over any number of rounds

    Which calls a task makes when it runs and which a callback makes; so which
    relations between the states of libuv a round respects ([Kept]).  Those
    used for whole rounds: timers are never stopped, a write request stays what it is
    until its callback, and addresses of requests are given out once. *)

From S2P Require Import Prelude Machine Common Channel Uv Task Loop LoopFacts.

#[local] Set Warnings "-register-all".

Section Facts.
Context {G F : Type} `{!Closures G F}.

(** ** The calls of a task that runs *)

(** At most one call: to start a timer, or to write. *)
Inductive one_call (u : Uv) : Uv -> Prop :=
  | no_call : one_call u u
  | call_timer t d : one_call u (uv_timer_start t d u)
  | call_write rc h data a : one_call u (uv_write rc (Connection h) data (Local_string a) u).

Lemma call_uv (f : F) l l' : call f l = Done l' -> uv l' = uv l.
Proof.
  unfold call; intros ([[g o] ts] & _ & H)%outcome_bind_done.
  destruct (pending_tasks_ l) as [q|] eqn:Eq.
  - destruct (post_all_queue ts (say o (set_global g l)) q Eq) as (l1 & E & _ & _ & Hu).
    cbn beta iota in H; rewrite E in H; injection H as <-; exact Hu.
  - destruct ts; [now injection H as <-|]; unfold post_all, PostTask in H; cbn in H.
    rewrite Eq in H; discriminate H.
Qed.

Lemma RunOnce_uv st f (l : Loop G F) t' l' : RunOnce_run st f l = Done (t', l') -> uv l' = uv l.
Proof.
  unfold RunOnce_run; destruct (isFinished st); [now intros [= _ <-]|].
  destruct (isS0 st); [|discriminate].
  intros (l1 & Hc & [= _ <-])%outcome_bind_done; exact (call_uv _ _ _ Hc).
Qed.

Lemma Timer_uv id st r b d f (l : Loop G F) t' l' : TimerTask_run id st r b d f l = Done (t', l') ->
  one_call (uv l) (uv l').
Proof.
  unfold TimerTask_run; destruct (isS0 st).
  { intros (s & _ & [= _ <-])%outcome_bind_done; constructor. }
  destruct (isFinished st); [intros [= _ <-]; constructor|]; destruct b; [|intros [= _ <-]; constructor].
  intros (l1 & Hc%call_uv & [= _ <-])%outcome_bind_done; rewrite Hc; constructor.
Qed.

Lemma Server_uv a s (l : Loop G F) s' l' : TcpServer_run a s l = Done (s', l') -> one_call (uv l) (uv l').
Proof.
  unfold TcpServer_run; destruct (isError _); [intros [= _ <-]; constructor|]; destruct (isS0 _).
  { repeat case_match; try (intros [= _ <-]; constructor).
    intros (st & _ & [= _ <-])%outcome_bind_done; constructor. }
  destruct (new_connect_ s); [intros [= _ <-]; constructor|].
  destruct (new_data_ s) as [[i data]|]; [|intros [= _ <-]; constructor].
  intros ([s1 l1] & (h & _ & _ & _ & ->)%SendData_inv & [= _ <-])%outcome_bind_done; constructor.
Qed.

Lemma Client_uv c (l : Loop G F) c' l' : TcpClient_run c l = Done (c', l') -> uv l' = uv l.
Proof.
  unfold TcpClient_run; repeat case_match; try (now intros [= _ <-]);
    now intros (st & _ & [= _ <-])%outcome_bind_done.
Qed.

Lemma run_task_uv a id t (l : Loop G F) st t' l' : run_task a id t l = Done (st, t', l') ->
  one_call (uv l) (uv l').
Proof.
  intros H; unfold run_task in H; apply outcome_bind_done in H as ([t1 l1] & Hr & [= _ _ <-]).
  destruct t as [s f|s r b d f|s|c].
  - rewrite (RunOnce_uv _ _ _ _ _ Hr); constructor.
  - exact (Timer_uv _ _ _ _ _ _ _ _ _ Hr).
  - apply outcome_bind_done in Hr as ([s' l2] & Hr & [= _ <-]); exact (Server_uv _ _ _ _ _ Hr).
  - apply outcome_bind_done in Hr as ([c' l2] & Hr & [= _ <-]); rewrite (Client_uv _ _ _ _ Hr); constructor.
Qed.

(** ** What every round respects *)

(** *** The callbacks of libuv *)

Section Neutral.
Context (R : relation Uv) `{!Neutral R}.

Lemma on_task_kept id k (l l' : Loop G F) :
  (forall t l1 t' l2, k t l1 = Done (t', l2) -> R (uv l1) (uv l2)) ->
  on_task id k l = Done l' -> R (uv l) (uv l').
Proof.
  intros Hk H; unfold on_task in H; apply outcome_bind_done in H as (q & _ & H).
  apply outcome_bind_done in H as (t & _ & H); apply outcome_bind_done in H as ([t' l1] & H1 & H).
  apply outcome_bind_done in H as (q' & _ & [= <-]); exact (Hk _ _ _ _ H1).
Qed.

Lemma on_server_kept id k (l l' : Loop G F) :
  (forall s l1 s' l2, k s l1 = Done (s', l2) -> R (uv l1) (uv l2)) ->
  on_server id k l = Done l' -> R (uv l) (uv l').
Proof.
  intros Hk; apply on_task_kept; intros [] l1 t' l2 H; try discriminate.
  apply outcome_bind_done in H as ([s' l3] & H & [= _ <-]); exact (Hk _ _ _ _ H).
Qed.

Lemma on_client_kept id k (l l' : Loop G F) :
  (forall c l1 c' l2, k c l1 = Done (c', l2) -> R (uv l1) (uv l2)) ->
  on_client id k l = Done l' -> R (uv l) (uv l').
Proof.
  intros Hk; apply on_task_kept; intros [] l1 t' l2 H; try discriminate.
  apply outcome_bind_done in H as ([s' l3] & H & [= _ <-]); exact (Hk _ _ _ _ H).
Qed.

Lemma closed_kept s u u' : uv_close s u = Done u' -> R u u'.
Proof. intros [_ ->]%uv_close_inv; now apply neutral_same. Qed.

Lemma on_new_connection_kept st h rc s (l : Loop G F) s' l' :
  on_new_connection st h rc s l = Done (s', l') -> R (uv l) (uv l').
Proof.
  unfold on_new_connection; destruct (st <? 0); [intros [= _ <-]; reflexivity|]; destruct (rc =? 0).
  - intros (s1 & _ & [= _ <-])%outcome_bind_done; now apply neutral_same.
  - intros (u & Hu%closed_kept & [= _ <-])%outcome_bind_done; etransitivity; [|exact Hu].
    now apply neutral_same.
Qed.

Lemma server_on_read_kept h n buf s (l : Loop G F) s' l' :
  server_on_read h n buf s l = Done (s', l') -> R (uv l) (uv l').
Proof.
  unfold server_on_read; destruct (0 <? n).
  - destruct (connection_of h s); intros (d & _ & [= _ <-])%outcome_bind_done; reflexivity.
  - destruct (n <? 0); [|intros [= _ <-]; reflexivity].
    intros (u & Hu%closed_kept & [= _ <-])%outcome_bind_done; exact Hu.
Qed.

Lemma client_on_read_kept id n buf c (l : Loop G F) c' l' :
  client_on_read id n buf c l = Done (c', l') -> R (uv l) (uv l').
Proof.
  unfold client_on_read; intros (x & _ & H)%outcome_bind_done; destruct (0 <? n).
  - apply outcome_bind_done in H as (d & _ & H).
    apply outcome_bind_done in H as (s & _ & [= _ <-]); reflexivity.
  - destruct (n <? 0); [|injection H as _ <-; reflexivity].
    apply outcome_bind_done in H as (u & Hu%closed_kept & [= _ <-]); exact Hu.
Qed.
End Neutral.

Section Steady.
Context (R : relation Uv) `{!Steady R}.

Lemma on_connect_kept id st rc c (l : Loop G F) c' l' :
  on_connect id st rc c l = Done (c', l') -> R (uv l) (uv l').
Proof.
  unfold on_connect; destruct (st <? 0).
  - intros (u & Hu & [= _ <-])%outcome_bind_done; exact (closed_kept R _ _ _ Hu).
  - intros (x & _ & (s & _ & [= _ <-])%outcome_bind_done)%outcome_bind_done; apply steady_write.
Qed.

(** The events that free no request, but those that [R] allows. *)
Definition respects (e : event) : Prop := match e with Written r _ => frees R r | _ => Logic.True end.

Lemma deliver_kept e (l l' : Loop G F) : respects e -> deliver e l = Done l' -> R (uv l) (uv l').
Proof.
  intros He; destruct e as [id|id st h rc|id h n buf|id st rc|id n buf|r|r st|s]; simpl in *.
  - apply on_task_kept; intros [] l1 t' l2; try discriminate; intros [= _ <-]; reflexivity.
  - apply (on_server_kept R), (on_new_connection_kept R).
  - apply (on_server_kept R), (server_on_read_kept R).
  - apply (on_client_kept R), on_connect_kept.
  - apply (on_client_kept R), (client_on_read_kept R).
  - unfold write_buffer; intros (q & _ & (b & _ & [= <-])%outcome_bind_done)%outcome_bind_done; reflexivity.
  - unfold on_write; intros (u & Hu%He & [= <-])%outcome_bind_done; exact Hu.
  - unfold on_close; destruct s as [h|id]; [|discriminate].
    intros (u & [_ ->]%free_handle_inv & [= <-])%outcome_bind_done; now apply neutral_same.
Qed.

Lemma uv_run_kept es : forall l l' : Loop G F, Forall respects es -> uv_run es l = Done l' -> R (uv l) (uv l').
Proof.
  induction es as [|e es IH]; intros l l' Hes H; cbn [uv_run] in H.
  { injection H as <-; reflexivity. }
  apply Forall_cons in Hes as [He Hes]; apply outcome_bind_done in H as (l1 & H1 & H).
  transitivity (uv l1); [exact (deliver_kept e _ _ He H1)|exact (IH _ _ Hes H)].
Qed.
End Steady.

(** *** The tasks, and whole rounds *)

Section Kept.
Context (R : relation Uv) `{!Kept R}.

Lemma one_call_kept u u' : one_call u u' -> R u u'.
Proof. intros []; [reflexivity|apply kept_timer|apply steady_write]. Qed.

Lemma drain_kept k a nf (l : Loop G F) nf' l' : drain k a nf l = Done (nf', l') -> R (uv l) (uv l').
Proof.
  revert nf l; induction k as [|k IH]; intros nf l H; [discriminate|]; cbn [drain] in H.
  apply outcome_bind_done in H as (q & _ & H); destruct (0 <? Size q);
    [|injection H as _ <-; reflexivity].
  apply outcome_bind_done in H as ([[id t] p] & _ & H).
  apply outcome_bind_done in H as ([[st t'] l1] & Hr & H).
  apply run_task_uv, one_call_kept in Hr; transitivity (uv l1); [exact Hr|exact (IH _ _ H)].
Qed.

Lemma push_all_uv nf (l l' : Loop G F) : push_all nf l = Done l' -> uv l' = uv l.
Proof.
  revert l; induction nf as [|p nf IH]; intros l H; cbn [push_all] in H; [now injection H as <-|].
  apply outcome_bind_done in H as (q & _ & H); now rewrite (IH _ H).
Qed.

Lemma round_kept k a es (l l' : Loop G F) : Forall (respects R) es -> round k a es l = Done l' ->
  R (uv l) (uv l').
Proof.
  intros Hes H; unfold round in H; apply outcome_bind_done in H as ([nf l1] & Hd & H).
  apply outcome_bind_done in H as (l2 & Hp & H).
  apply drain_kept in Hd; apply push_all_uv in Hp; apply (uv_run_kept R) in H; [|exact Hes].
  rewrite Hp in H; transitivity (uv l1); [exact Hd|exact H].
Qed.

Lemma rounds_kept k inputs : forall l l' : Loop G F, Forall (fun i => Forall (respects R) i.2) inputs ->
  rounds k inputs l = Done l' -> R (uv l) (uv l').
Proof.
  induction inputs as [|[a es] inputs IH]; intros l l' Hin H; cbn [rounds] in H.
  { injection H as <-; reflexivity. }
  apply Forall_cons in Hin as [He Hin]; apply outcome_bind_done in H as (l1 & H1 & H).
  transitivity (uv l1); [exact (round_kept k a es _ _ He H1)|exact (IH _ _ Hin H)].
Qed.
End Kept.

(** *** Write requests *)

Lemma kept_request r e : (forall st, e <> Written r st) -> respects (keeps_request r) e.
Proof.
  intros He; destruct e as [| | | | | |r' st|]; try exact I; simpl.
  apply keeps_request_frees; intros <-; now apply (He st).
Qed.

(** libuv has the request until it makes its callback. *)
Lemma rounds_request k inputs (l l' : Loop G F) r q : counted (uv l) -> requests (uv l) !! r = Some q ->
  Forall (fun i => Forall (fun e => forall st, e <> Written r st) i.2) inputs ->
  rounds k inputs l = Done l' -> requests (uv l') !! r = Some q.
Proof.
  intros Hc Hq Hin H; apply (rounds_kept (keeps_request r)) in H.
  - now rewrite (keeps_old _ _ _ H (Hc _ _ Hq)).
  - eapply Forall_impl; [exact Hin|]; intros i Hi; eapply Forall_impl; [exact Hi|]; apply kept_request.
Qed.

Lemma rounds_counted k inputs (l l' : Loop G F) : counted (uv l) -> rounds k inputs l = Done l' -> counted (uv l').
Proof.
  intros Hc H; apply (rounds_kept stays_counted) in H; [exact (H Hc)|].
  apply Forall_forall; intros i _; apply Forall_forall; intros [] _; try exact I; apply stays_counted_frees.
Qed.

(** ** The end of a one-shot timer *)

Definition absent (id : Z) (ts : list (Z * Task F)) : Prop := id ∉ map fst ts.

(** The task [id] is a one-shot timer about to run its callback, or is gone. *)
Definition expiring (id : Z) (l : Loop G F) (nf : list (Z * Task F)) : Prop :=
  absent id nf /\ id < next_task l /\
  ((exists st d f, 0 < st /\ (id, TimerTask st false true d f) ∈ queue l) \/ absent id (queue l)).

Lemma expiring_step k a id nf l nf' l' : owned l nf -> expiring id l nf ->
  drain k a nf l = Done (nf', l') -> absent id nf'.
Proof.
  revert nf l; induction k as [|k IH]; intros nf l Ho (Hnf & Hid & Hex) H; [discriminate|].
  pose proof (owned_live _ _ Ho) as Hlive.
  destruct (pending_tasks_ l) as [[|[i t] q]|] eqn:Eq; [| |congruence].
  { rewrite (drain_nil _ _ _ _ Eq) in H; now injection H as <- <-. }
  rewrite (drain_cons _ _ _ _ _ _ _ Eq) in H.
  apply outcome_bind_done in H as ([[st t'] l1] & Hr & H).
  pose proof Hr as Hr'; apply run_task_ran in Hr as (-> & Hran & _); [|discriminate].
  pose proof (owned_step i t t' q l l1 nf (isNotFinished (task_state t')) Eq Ho Hran) as Ho1.
  destruct Hran as (ts & _ & Hq1 & Hn1); cbn [set_pending next_task] in Hn1.
  assert (Hq1' : queue l1 = q ++ numbered (next_task l) ts) by (unfold queue; now rewrite Hq1).
  assert (Hnew : absent id (numbered (next_task l) ts)).
  { intros Hin; apply list_elem_of_fmap in Hin as (p & -> & Hp).
    destruct (numbered_fresh (next_task l) ts) as [_ Hfr]; rewrite Forall_forall in Hfr.
    specialize (Hfr p Hp); lia. }
  pose proof (owned_once _ _ Ho) as Hnd; unfold queue in Hnd, Hex; rewrite Eq in Hnd, Hex.
  simpl in Hnd, Hex; rewrite map_app in Hnd; apply NoDup_app in Hnd as (_ & _ & Hnd).
  apply NoDup_cons in Hnd as [Hi _]; cbn [fst] in Hi.
  eapply IH; [exact Ho1| |exact H]; split; [|split; [lia|]].
  - destruct (isNotFinished (task_state t')) eqn:En; [|exact Hnf]; unfold absent in *.
    rewrite map_app, elem_of_app; intros [?|Hin]; [contradiction|]; simpl in Hin.
    apply list_elem_of_singleton in Hin as ->.
    destruct Hex as [(st & d & f & Hst & Hin)|Hab]; [|apply Hab; now left].
    apply elem_of_cons in Hin as [[= <-]|Hin]; [|apply Hi; exact (list_elem_of_fmap_2 fst _ _ Hin)].
    unfold run_task, TimerTask_run, isS0, isFinished in Hr'.
    rewrite (proj2 (Z.eqb_neq st 0)), (proj2 (Z.eqb_neq st (-1))) in Hr' by lia.
    apply outcome_bind_done in Hr' as ([t1 l2] & Ht & [= _ <- _]).
    apply outcome_bind_done in Ht as (l3 & _ & [= <- _]); discriminate En.
  - rewrite Hq1'; unfold absent; rewrite map_app, elem_of_app.
    destruct Hex as [(st & d & f & Hst & Hin)|Hab].
    + apply elem_of_cons in Hin as [[= <- <-]|Hin]; [right; now intros [?|?]|].
      left; exists st, d, f; rewrite elem_of_app; auto.
    + right; intros [?|?]; [apply Hab; now right|contradiction].
Qed.

Lemma deliver_absent id l : pending_tasks_ l <> None -> absent id (queue l) ->
  deliver (G := G) (F := F) (TimerFired id) l = Undef DanglingDeref.
Proof.
  intros Hl Ha; simpl; unfold timer_cb, on_task, queue in *.
  destruct (pending_tasks_ l) as [q|]; [|congruence]; cbn [deref]; rewrite outcome_bind_ret_l.
  destruct (find_task id q) as [t|] eqn:E; [|reflexivity].
  apply find_task_some in E; exfalso; apply Ha; simpl; exact (list_elem_of_fmap_2 fst _ _ E).
Qed.
End Facts.
