(* ===== verification/Writes.v ===== *)
(** * Writes: where the buffers of the write requests are

    A request points to a string that the program owns.  What the server answers with
    is a parameter of a function that has returned when libuv runs; what a client sends
    is a member of its task, which is there as long as the task is pending. *)

From S2P Require Import Prelude Machine Common Channel Uv Task Loop LoopFacts LoopUv.

#[local] Set Warnings "-register-all".

Section Writes.
Context {G F : Type} `{!Closures G F}.
Implicit Types (l : Loop G F).

(** ** What a task that runs does to the requests and to the strings *)

(** The task is a client that sends [data]. *)
Definition sends (data : string) (t : Task F) : Prop :=
  exists c, t = TcpClientTask c /\ need_send_ c = data.

Lemma run_task_sends a id t l st t' l' data : run_task a id t l = Done (st, t', l') ->
  sends data t -> sends data t'.
Proof.
  intros H (c & -> & <-); unfold run_task in H; apply outcome_bind_done in H as ([t1 l1] & H & [= _ <- _]).
  apply outcome_bind_done in H as ([c1 l2] & H & [= <- _]); exists c1; split; [reflexivity|].
  revert H; unfold TcpClient_run; repeat case_match; try (now intros [= <- _]);
    now intros (s & _ & [= <- _])%outcome_bind_done.
Qed.

Lemma follows_sends b t t' data : follows (F := F) b t t' -> sends data t -> sends data t'.
Proof. intros H (c & -> & <-); destruct H as (st & r & -> & _); eexists; now split. Qed.

(** The server is the only one that uses a local string, and it is gone afterwards. *)
Lemma post_all_locals (ts : list (Task F)) : forall l l', post_all ts l = Done l' -> locals l' = locals l.
Proof.
  induction ts as [|t ts IH]; intros l l' H; cbn [post_all] in H; [now injection H as <-|].
  apply outcome_bind_done in H as (l1 & H1 & H); rewrite (IH _ _ H).
  unfold PostTask in H1; now apply outcome_bind_done in H1 as (q & _ & [= <-]).
Qed.

Lemma call_locals (f : F) l l' : call f l = Done l' -> locals l' = locals l.
Proof.
  unfold call; intros ([[g o] ts] & _ & H)%outcome_bind_done; now rewrite (post_all_locals _ _ _ H).
Qed.

Definition no_live (l : Loop G F) : Prop := live_strings (locals l) = ∅.

Lemma lived_none data s : live_strings s = ∅ -> live_strings (lived data s) = ∅.
Proof.
  intros Hs; unfold lived, new_string, destroy_string; cbn [live_strings]; rewrite Hs.
  now rewrite delete_insert_id by apply lookup_empty.
Qed.

Lemma run_task_locals a id t l st t' l' : run_task a id t l = Done (st, t', l') -> no_live l -> no_live l'.
Proof.
  intros H; unfold run_task in H; apply outcome_bind_done in H as ([t1 l1] & H & [= _ _ <-]).
  destruct t as [s f|s r b d f|s|c]; unfold no_live.
  - unfold RunOnce_run in H; repeat case_match; try discriminate; [now injection H as _ <-|].
    apply outcome_bind_done in H as (l2 & H & [= _ <-]); now rewrite (call_locals _ _ _ H).
  - unfold TimerTask_run in H; repeat case_match; try (now injection H as _ <-);
      apply outcome_bind_done in H as (l2 & H & [= _ <-]); [|now rewrite (call_locals _ _ _ H)..]; auto.
  - apply outcome_bind_done in H as ([s' l2] & H & [= _ <-]); unfold TcpServer_run in H.
    repeat case_match; try (now injection H as _ <-);
      try (now apply outcome_bind_done in H as (x & _ & [= _ <-])).
    apply outcome_bind_done in H as ([s2 l3] & (h & _ & _ & _ & ->)%SendData_inv & [= _ <-]).
    apply lived_none.
  - apply outcome_bind_done in H as ([c' l2] & H & [= _ <-]); unfold TcpClient_run in H.
    repeat case_match; try (now injection H as _ <-); now apply outcome_bind_done in H as (x & _ & [= _ <-]).
Qed.

(** A request of a task that runs: the server's answer. *)
Definition answer (q : request) : Prop := exists h data a, q = mkRequest (Connection h) data (Local_string a).

Lemma run_task_requests a id t l st t' l' : run_task a id t l = Done (st, t', l') ->
  new_requests answer (uv l) (uv l').
Proof.
  intros H; destruct (run_task_uv _ _ _ _ _ _ _ H); [reflexivity|now left|].
  apply uv_write_new_requests; unfold answer; eauto.
Qed.

(** A request of a callback: what a client sends. *)
Definition sending (q0 : list (Z * Task F)) (q : request) : Prop := exists id c,
  q = mkRequest (Client id) (need_send_ c) (Need_send id) /\ (id, TcpClientTask c) ∈ q0.

Lemma deliver_requests e l l' : deliver e l = Done l' -> new_requests (sending (queue l)) (uv l) (uv l').
Proof.
  set (R := new_requests (sending (queue l))).
  destruct e as [id|id st h rc|id h n buf|id st rc|id n buf|r|r st|s]; cbn [deliver].
  - apply (on_task_kept R); intros [] l1 t' l2; try discriminate; intros [= _ <-]; reflexivity.
  - apply (on_server_kept R), (on_new_connection_kept R).
  - apply (on_server_kept R), (server_on_read_kept R).
  - unfold on_client, on_task; intros (q & Hq & H)%outcome_bind_done.
    apply outcome_bind_done in H as (t & Ht & H); apply outcome_bind_done in H as ([t' l1] & H1 & H).
    apply outcome_bind_done in H as (q' & _ & [= <-]); destruct t as [| | |c]; try discriminate.
    apply outcome_bind_done in H1 as ([c' l2] & H1 & [= _ <-]); unfold on_connect in H1.
    destruct (st <? 0); [apply outcome_bind_done in H1 as (u & Hu & [= _ <-]); exact (closed_kept R _ _ _ Hu)|].
    apply outcome_bind_done in H1 as (x & _ & H1); apply outcome_bind_done in H1 as (st' & _ & [= _ <-]).
    apply uv_write_new_requests; exists id, c; split; [reflexivity|].
    unfold queue; destruct (pending_tasks_ l) as [q0|]; [|discriminate Hq]; injection Hq as ->.
    destruct (find_task id q) eqn:E; [|discriminate Ht]; injection Ht as ->; exact (find_task_some _ _ _ E).
  - apply (on_client_kept R), (client_on_read_kept R).
  - unfold write_buffer; intros (q & _ & (b & _ & [= <-])%outcome_bind_done)%outcome_bind_done; reflexivity.
  - unfold on_write; intros (u & Hu & [= <-])%outcome_bind_done; exact (new_requests_frees _ _ _ _ Hu).
  - unfold on_close; destruct s as [h|id]; [|discriminate].
    intros (u & [_ ->]%free_handle_inv & [= <-])%outcome_bind_done; now apply neutral_same.
Qed.

(** ** The account of the buffers *)

(** The request [q] points to a string that is gone, or to a client that is in [ts] if
    it is anywhere. *)
Definition backed (l : Loop G F) (ts : list (Z * Task F)) (q : request) : Prop :=
  match req_handle q with
  | Connection _ => exists a, req_base q = Local_string a
  | Client id => req_base q = Need_send id /\ id < next_task l /\
      forall t, (id, t) ∈ ts -> sends (req_data q) t
  end.

(** No local string lives between two tasks, and every request is backed. *)
Record accounted (l : Loop G F) (nf : list (Z * Task F)) : Prop := {
  acc_locals : no_live l;
  acc_requests : forall r q, requests (uv l) !! r = Some q -> backed l (nf ++ queue l) q;
}.

Lemma answer_backed l ts q : answer q -> backed l ts q.
Proof. intros (h & data & a & ->); unfold backed; simpl; eauto. Qed.

(** A task runs. *)
Lemma accounted_step a id t q l st t' l' nf keep : pending_tasks_ l = Some ((id, t) :: q) ->
  run_task (a id) id t (set_pending q l) = Done (st, t', l') -> accounted l nf ->
  accounted l' (if keep : bool then nf ++ [(id, t')] else nf).
Proof.
  intros Hl Hr [Hs Hq]; split; [exact (run_task_locals _ _ _ _ _ _ _ Hr Hs)|].
  intros r x Hx; destruct (run_task_requests _ _ _ _ _ _ _ Hr r x Hx) as [Hold|Hnew];
    [|now apply answer_backed].
  apply Hq in Hold; unfold backed in *; destruct (req_handle x) as [h|i]; [exact Hold|].
  destruct Hold as (Hb & Hi & Hts); pose proof Hr as (_ & (ts & _ & Hq' & Hn) & _)%run_task_ran; [|discriminate].
  assert (Eq : queue l = (id, t) :: q) by (unfold queue; now rewrite Hl).
  assert (Eq' : queue l' = q ++ numbered (next_task l) ts) by (unfold queue; now rewrite Hq').
  cbn [set_pending next_task] in Hn; rewrite Eq in Hts; rewrite Eq'.
  split_and!; [exact Hb|lia|]; intros u Hu.
  assert (Hu' : (i, u) ∈ nf ++ q \/ (i, u) = (id, t') \/ (i, u) ∈ numbered (next_task l) ts).
  { destruct keep; rewrite !elem_of_app in Hu; rewrite ?list_elem_of_singleton in Hu;
      rewrite elem_of_app; tauto. }
  destruct Hu' as [Hu'|[[= -> ->]|Hu']].
  - apply Hts; rewrite elem_of_app, elem_of_cons; rewrite elem_of_app in Hu'; tauto.
  - apply (run_task_sends _ _ _ _ _ _ _ _ Hr), Hts; rewrite elem_of_app, elem_of_cons; auto.
  - destruct (numbered_fresh (next_task l) ts) as [_ Hfr]; rewrite Forall_forall in Hfr.
    specialize (Hfr _ Hu'); simpl in Hfr; lia.
Qed.

Lemma drain_accounted k a nf l nf' l' : pending_tasks_ l <> None -> accounted l nf ->
  drain k a nf l = Done (nf', l') -> accounted l' nf'.
Proof.
  revert nf l; induction k as [|k IH]; intros nf l Hl Ha H; [discriminate|].
  destruct (pending_tasks_ l) as [[|[id t] q]|] eqn:Eq; [| |congruence].
  { rewrite (drain_nil _ _ _ _ Eq) in H; now injection H as <- <-. }
  rewrite (drain_cons _ _ _ _ _ _ _ Eq) in H; apply outcome_bind_done in H as ([[st t'] l1] & Hr & H).
  apply (IH _ _) in H; [exact H| |now apply (accounted_step a id t q l st)].
  apply run_task_ran in Hr as (_ & (ts & _ & -> & _) & _); discriminate.
Qed.

(** A callback is made. *)
Lemma followed_elem es q q' i t' : followed (F := F) es q q' -> (i, t') ∈ q' ->
  exists t b, (i, t) ∈ q /\ follows b t t'.
Proof.
  induction 1 as [|[j u] [j' u'] q q' [Hj Hu] _ IH]; simpl in *; [now rewrite elem_of_nil|].
  rewrite elem_of_cons; intros [[= -> ->]|Hin]; subst.
  - eexists _, _; split; [now left|exact Hu].
  - destruct (IH Hin) as (t & b & Ht & Hf); exists t, b; split; [now right|exact Hf].
Qed.

Lemma deliver_accounted e l l' : owned l [] -> accounted l [] -> deliver e l = Done l' -> accounted l' [].
Proof.
  intros Ho [Hs Hq] H; pose proof (deliver_requests _ _ _ H) as Hr.
  apply deliver_stepped in H as [_ Hts Hn Hl _]; [|exact (owned_once _ _ Ho)|exact (owned_live _ _ Ho)].
  split; [unfold no_live; now rewrite Hl|]; cbn [app] in *; intros r q Hx.
  assert (Hb : backed l (queue l) q).
  { apply Hr in Hx as [Hx|(id & c & -> & Hin)]; [now apply (Hq r)|]; unfold backed; simpl.
    pose proof (owned_old _ _ Ho) as Hold; rewrite Forall_forall in Hold.
    split_and!; [reflexivity|exact (Hold _ Hin)|]; intros t Ht.
    rewrite (one_address _ _ _ _ (owned_once _ _ Ho) Ht Hin); now exists c. }
  clear -Hb Hts Hn; unfold backed in *; destruct (req_handle q) as [h|id]; [exact Hb|].
  destruct Hb as (Hb & Hi & Hall); split_and!; [exact Hb|lia|]; intros t' Ht'.
  apply (followed_elem _ _ _ _ _ Hts) in Ht' as (t & b & Ht & Hf).
  exact (follows_sends _ _ _ _ Hf (Hall t Ht)).
Qed.

Lemma uv_run_accounted es : forall l l', ready l -> accounted l [] -> uv_run es l = Done l' -> accounted l' [].
Proof.
  induction es as [|e es IH]; intros l l' Hl Ha H; cbn [uv_run] in H; [now injection H as <-|].
  apply outcome_bind_done in H as (l1 & H1 & H); refine (IH l1 l' _ _ H).
  - apply (uv_run_ready [e] l); [exact Hl|]; cbn [uv_run]; now rewrite H1.
  - exact (deliver_accounted _ _ _ (proj1 Hl) Ha H1).
Qed.

(** Whole rounds. *)
Lemma push_all_accounted nf l l' : pending_tasks_ l <> None -> queue l = [] -> accounted l nf ->
  push_all nf l = Done l' -> accounted l' [].
Proof.
  intros Hl Hq [Hs Ha] H; pose proof (push_all_uv _ _ _ H) as Hu.
  assert (Hloc : locals l' = locals l).
  { clear -H; revert l H; induction nf as [|p nf IH]; intros l H; cbn [push_all] in H; [now injection H as <-|].
    apply outcome_bind_done in H as (q & _ & H); now rewrite (IH _ H). }
  apply push_all_inv in H as (Hq' & Hn & _); [|exact Hl]; rewrite Hq, ?app_nil_r in *.
  split; [unfold no_live; now rewrite Hloc|]; intros r q Hx; rewrite Hu in Hx; apply Ha in Hx.
  cbn [app] in *; rewrite Hq'; unfold backed in *; now rewrite Hn.
Qed.

Lemma round_accounted k a es l l' : owned l [] -> accounted l [] -> round k a es l = Done l' -> accounted l' [].
Proof.
  intros Ho Ha H; unfold round in H; apply outcome_bind_done in H as ([nf l1] & Hd & H).
  assert (Hos : owned (say ["uv run once"] l) []) by (destruct Ho; now split).
  assert (Has : accounted (say ["uv run once"] l) []) by (destruct Ha; now split).
  pose proof (drain_accounted _ _ _ _ _ _ (owned_live _ _ Hos) Has Hd) as Ha1.
  apply (drain_inv _ _ [] _ _ _ Hos (List.Forall_nil _)) in Hd as (Ho1 & Hq1 & Hs1).
  apply outcome_bind_done in H as (l2 & Hp & H).
  pose proof (push_all_accounted _ _ _ (owned_live _ _ Ho1) Hq1 Ha1 Hp) as Ha2.
  refine (uv_run_accounted es l2 l' _ Ha2 H); exact (push_all_ready _ _ _ Ho1 Hq1 Hs1 Hp).
Qed.

Lemma rounds_accounted k inputs : forall l l', owned l [] -> accounted l [] ->
  rounds k inputs l = Done l' -> owned l' [] /\ accounted l' [].
Proof.
  induction inputs as [|[a es] inputs IH]; intros l l' Ho Ha H; cbn [rounds] in H; [now injection H as <-|].
  apply outcome_bind_done in H as (l1 & H1 & H); refine (IH l1 l' _ _ H).
  - exact (proj1 (round_ready _ _ _ _ _ Ho H1)).
  - exact (round_accounted _ _ _ _ _ Ho Ha H1).
Qed.

(** What libuv finds when it reads the buffer of a request. *)
Lemma accounted_buffer l r q : owned l [] -> accounted l [] -> requests (uv l) !! r = Some q ->
  match req_handle q with
  | Connection _ => deliver (WriteBuffer r) l = Undef DanglingDeref
  | Client id => (exists c, (id, TcpClientTask c) ∈ queue l /\ need_send_ c = req_data q /\
        string_at (req_base q) l = Some (req_data q) /\ deliver (WriteBuffer r) l = Done l) \/
      (id ∉ map fst (queue l)) /\ deliver (WriteBuffer r) l = Undef DanglingDeref
  end.
Proof.
  intros Ho [Hs Ha] Hr; pose proof (Ha r q Hr) as Hb; unfold backed in Hb; cbn [app] in Hb.
  cbn [deliver]; unfold write_buffer; rewrite Hr; cbn [deref]; rewrite outcome_bind_ret_l.
  destruct (req_handle q) as [h|id].
  - destruct Hb as [a ->]; cbn [string_at]; now rewrite Hs, lookup_empty.
  - destruct Hb as (-> & _ & Hall); cbn [string_at].
    change (default [] (pending_tasks_ l)) with (queue l).
    destruct (find_task id (queue l)) as [t|] eqn:E.
    + apply find_task_some in E; destruct (Hall t E) as (c & -> & <-); left; exists c; now split_and!.
    + right; split; [|reflexivity]; intros ([i t] & -> & Hin)%list_elem_of_fmap; cbn [fst] in E.
      now rewrite (find_task_elem i (queue l) t (owned_once _ _ Ho) Hin) in E.
Qed.
End Writes.
