(* ===== verification/Schedule.v ===== *)
(** * Schedule: the order in which the event loop runs its tasks

    Loop::run takes one task after the other from a queue that grows while it runs.
    The specification does without that queue: the pending tasks are a generation,
    each of them is run once, in order, and what they posted is the next one.  The
    order itself, by address, is the subject of the last part. *)

From stdpp Require Import sorting.
From S2P Require Import Prelude Machine Common Channel Uv Task Loop LoopFacts.

#[local] Set Warnings "-register-all".

Section Schedule.
Context {G F : Type} `{!Closures G F}.
Implicit Types (l : Loop G F) (q : list (Z * Task F)).

(** ** The specification *)

(** Run each task of a generation once; [kept] are those that go on, and what is
    posted is left in the loop. *)
Fixpoint generation (a : Z -> answers) (kept q : list (Z * Task F)) (l : Loop G F)
    : outcome (list (Z * Task F) * Loop G F) :=
  match q with
  | [] => Done (kept, l)
  | (id, t) :: q =>
      '(st, t, l) ← run_task (a id) id t l;
      generation a (if isNotFinished st then kept ++ [(id, t)] else kept) q l
  end.

(** Generation after generation, until nothing was posted. *)
Fixpoint generations (n : nat) (a : Z -> answers) (kept : list (Z * Task F)) (l : Loop G F)
    : outcome (list (Z * Task F) * Loop G F) :=
  match n with
  | O => OutOfFuel
  | S n =>
      match queue l with
      | [] => Done (kept, l)
      | q => '(kept, l) ← generation a kept q (set_pending [] l); generations n a kept l
      end
  end.

(** A round: what goes on is pending again, in the order it was run in. *)
Definition scheduled (n : nat) (a : Z -> answers) (es : list event) (l : Loop G F) : outcome (Loop G F) :=
  '(kept, l) ← generations n a [] (say ["uv run once"] l);
  uv_run es (set_pending kept l).

(** ** Running a task does not look at the queue *)

(** [q] is before what is pending. *)
Definition behind q l : Loop G F := set_pending (q ++ queue l) l.

Definition behind_result {A} q (r : outcome (A * Loop G F)) : outcome (A * Loop G F) :=
  '(x, l) ← r; Done (x, behind q l).

Definition live l : Prop := pending_tasks_ l <> None.

Lemma live_queue l : live l -> pending_tasks_ l = Some (queue l).
Proof. unfold live, queue; now destruct (pending_tasks_ l). Qed.

Lemma post_all_behind q ts : forall l, live l ->
  post_all ts (behind q l) = l' ← post_all ts l; Done (behind q l').
Proof.
  induction ts as [|t ts IH]; intros l Hl; cbn [post_all]; [reflexivity|].
  unfold PostTask at 1 2; rewrite (live_queue l Hl); cbn [behind set_pending pending_tasks_ deref].
  rewrite !outcome_bind_ret_l, <- IH by discriminate; f_equal.
  unfold behind, queue, Push; cbn; now rewrite app_assoc.
Qed.

Lemma call_behind q (f : F) l : live l ->
  call f (behind q l) = l' ← call f l; Done (behind q l').
Proof.
  intros Hl; unfold call; cbn [behind set_pending global].
  destruct (invoke f (global l)) as [[[g o] ts]| | |]; try reflexivity; rewrite !outcome_bind_ret_l.
  now rewrite <- post_all_behind by exact Hl.
Qed.

Lemma TcpServer_run_behind q a s l : TcpServer_run a s (behind q l) = behind_result q (TcpServer_run a s l).
Proof.
  unfold TcpServer_run, behind_result, OnData, SendData, send_response, new_string.
  cbn [say behind set_pending set_locals locals uv].
  repeat case_match; try reflexivity; destruct (next _); reflexivity.
Qed.

Lemma TcpClient_run_behind q c l : TcpClient_run c (behind q l) = behind_result q (TcpClient_run c l).
Proof.
  unfold TcpClient_run, behind_result; repeat case_match; try reflexivity; destruct (next _); reflexivity.
Qed.

Lemma RunOnce_run_behind q st f l : live l ->
  RunOnce_run st f (behind q l) = behind_result q (RunOnce_run st f l).
Proof.
  intros Hl; unfold RunOnce_run; destruct (isFinished st); [reflexivity|]; destruct (isS0 st); [|reflexivity].
  rewrite call_behind by exact Hl; now destruct (call f l).
Qed.

Lemma TimerTask_run_behind q id st r b d f l : live l ->
  TimerTask_run id st r b d f (behind q l) = behind_result q (TimerTask_run id st r b d f l).
Proof.
  intros Hl; unfold TimerTask_run; destruct (isS0 st); [now destruct (next st)|].
  destruct (isFinished st); [reflexivity|]; destruct b; [|reflexivity].
  rewrite call_behind by exact Hl; now destruct (call f l).
Qed.

Lemma run_task_behind q a id t l : live l ->
  run_task a id t (behind q l) = behind_result q (run_task a id t l).
Proof.
  intros Hl; unfold run_task; destruct t as [st f|st r b d f|s|c].
  - rewrite RunOnce_run_behind by exact Hl; now destruct (RunOnce_run st f l) as [[]| | |].
  - rewrite TimerTask_run_behind by exact Hl; now destruct (TimerTask_run id st r b d f l) as [[]| | |].
  - rewrite TcpServer_run_behind; now destruct (TcpServer_run a s l) as [[]| | |].
  - rewrite TcpClient_run_behind; now destruct (TcpClient_run c l) as [[]| | |].
Qed.

Lemma run_task_live a id t l st t' l' : live l -> run_task a id t l = Done (st, t', l') -> live l'.
Proof.
  intros Hl (_ & (ts & _ & Hq & _) & _)%run_task_ran; [|exact Hl]; unfold live; now rewrite Hq.
Qed.

(** ** The queue runs generation after generation *)

(** A prefix of the queue is a generation. *)
Lemma drain_generation a q : forall k kept l, live l ->
  drain (length q + k) a kept (behind q l) =
    '(kept, l) ← generation a kept q l; drain k a kept l.
Proof.
  induction q as [|[id t] q IH]; intros k kept l Hl; cbn [generation length].
  { rewrite outcome_bind_ret_l; f_equal; unfold behind; cbn [app].
    destruct l as [i u p fi uvl o g n]; unfold live, queue in *; cbn in *; now destruct p. }
  cbn [Nat.add]; rewrite (drain_cons _ _ _ _ id t (q ++ queue l)) by reflexivity.
  change (set_pending (q ++ queue l) (behind ((id, t) :: q) l)) with (behind q l).
  rewrite run_task_behind by exact Hl.
  destruct (run_task (a id) id t l) as [[[st t'] l']| | |] eqn:Er; try reflexivity.
  unfold behind_result; rewrite !outcome_bind_ret_l; apply IH; exact (run_task_live _ _ _ _ _ _ _ Hl Er).
Qed.

Lemma generation_live a q : forall kept l kept' l', live l ->
  generation a kept q l = Done (kept', l') -> live l'.
Proof.
  induction q as [|[id t] q IH]; intros kept l kept' l' Hl H; cbn [generation] in H; [now injection H as _ <-|].
  apply outcome_bind_done in H as ([[st t'] l1] & Hr & H).
  apply (IH _ _ _ _ (run_task_live _ _ _ _ _ _ _ Hl Hr) H).
Qed.

Lemma behind_queue l : live l -> behind (queue l) (set_pending [] l) = l.
Proof.
  destruct l as [i u p fi uvl o g n]; unfold live, behind, queue; cbn; destruct p; [|congruence].
  intros _; cbn; now rewrite app_nil_r.
Qed.

(** More fuel gives the same result. *)
Lemma drain_more k a kept l r m : drain k a kept l = r -> r <> OutOfFuel -> drain (k + m) a kept l = r.
Proof.
  revert kept l; induction k as [|k IH]; intros kept l H Hr; [now subst|].
  cbn [drain Nat.add] in H |- *; destruct (deref _ _) as [p| | |]; try exact H.
  rewrite !outcome_bind_ret_l in H |- *; destruct (0 <? Size p); [|exact H].
  destruct (Pop p) as [[[id t] q]| | |]; try exact H; rewrite !outcome_bind_ret_l in H |- *.
  destruct (run_task _ _ _ _) as [[[st t'] l']| | |]; try exact H; rewrite !outcome_bind_ret_l in H |- *.
  now apply IH.
Qed.

Lemma drain_generations k a kept l r : live l -> drain k a kept l = r -> r <> OutOfFuel ->
  generations k a kept l = r.
Proof.
  revert kept l; induction k as [|k IH]; intros kept l Hl H Hr; [now subst|]; cbn [generations].
  pose proof (live_queue l Hl) as Hq; destruct (queue l) as [|x q] eqn:Eq.
  { now rewrite (drain_nil _ _ _ _ Hq) in H. }
  apply (drain_more _ _ _ _ _ (length q)) in H; [|exact Hr].
  replace (S k + length q)%nat with (length (x :: q) + k)%nat in H by (simpl; lia).
  rewrite <- (behind_queue l Hl), Eq, drain_generation in H by discriminate.
  destruct (generation a kept (x :: q) (set_pending [] l)) as [[kept' l']| | |] eqn:Eg; try exact H.
  rewrite outcome_bind_ret_l in H |- *; apply IH; [|exact H|exact Hr].
  refine (generation_live _ _ _ _ _ _ _ Eg); discriminate.
Qed.

Lemma generations_drain n a kept l r : live l -> generations n a kept l = r -> r <> OutOfFuel ->
  exists k, drain k a kept l = r.
Proof.
  revert kept l; induction n as [|n IH]; intros kept l Hl H Hr; [now subst|]; cbn [generations] in H.
  pose proof (live_queue l Hl) as Hq; destruct (queue l) as [|x q] eqn:Eq.
  { exists 1%nat; now rewrite (drain_nil _ _ _ _ Hq). }
  assert (Hd : forall k, drain (length (x :: q) + k) a kept l =
      '(kept, l) ← generation a kept (x :: q) (set_pending [] l); drain k a kept l).
  { intros k; rewrite <- (behind_queue l Hl) at 1; rewrite Eq; now apply drain_generation. }
  destruct (generation a kept (x :: q) (set_pending [] l)) as [[kept' l']| | |] eqn:Eg;
    try (exists (length (x :: q) + 0)%nat; now rewrite Hd).
  rewrite outcome_bind_ret_l in H; destruct (IH kept' l') as [k Hk]; auto.
  { refine (generation_live _ _ _ _ _ _ _ Eg); discriminate. }
  exists (length (x :: q) + k)%nat; now rewrite Hd.
Qed.

(** Pushing what goes on is setting what is pending. *)
Lemma push_all_queue kept : forall l, live l ->
  push_all kept l = Done (set_pending (queue l ++ kept) l).
Proof.
  induction kept as [|x kept IH]; intros l Hl; cbn [push_all].
  { rewrite app_nil_r; destruct l as [i u p fi uvl o g n]; unfold live, queue in *; cbn in *; now destruct p. }
  rewrite (live_queue l Hl); cbn [deref]; rewrite outcome_bind_ret_l, IH by discriminate.
  unfold queue, Push; cbn; now rewrite <- app_assoc.
Qed.

Lemma drain_empties k a kept l kept' l' : live l -> drain k a kept l = Done (kept', l') ->
  pending_tasks_ l' = Some [].
Proof.
  revert kept l; induction k as [|k IH]; intros kept l Hl H; [discriminate|].
  pose proof (live_queue l Hl) as Hq; destruct (queue l) as [|[id t] q].
  { rewrite (drain_nil _ _ _ _ Hq) in H; now injection H as _ <-. }
  rewrite (drain_cons _ _ _ _ _ _ _ Hq) in H; apply outcome_bind_done in H as ([[st t'] l1] & Hr & H).
  apply run_task_live in Hr; [|discriminate]; exact (IH _ _ Hr H).
Qed.

(** A round, once the inner loop has ended. *)
Lemma round_drained k a es l : live l ->
  round k a es l =
    '(kept, l) ← drain k a [] (say ["uv run once"] l); uv_run es (set_pending kept l).
Proof.
  intros Hl; unfold round; destruct (drain k a [] (say ["uv run once"] l)) as [[kept l']| | |] eqn:Ed;
    try reflexivity.
  apply drain_empties in Ed; [|exact Hl]; rewrite !outcome_bind_ret_l, push_all_queue, outcome_bind_ret_l.
  - unfold queue; now rewrite Ed.
  - unfold live; now rewrite Ed.
Qed.

(** ** The order of the tasks *)

(** Iterations of the inner loop, with the addresses of the tasks that ran. *)
Inductive runs (a : Z -> answers) :
    list Z -> list (Z * Task F) * Loop G F -> list (Z * Task F) * Loop G F -> Prop :=
  | runs_none s : runs a [] s s
  | runs_task p id t p' st t' nf l l1 ids s : pending_tasks_ l = Some p ->
      Pop p = Done ((id, t), p') -> run_task (a id) id t (set_pending p' l) = Done (st, t', l1) ->
      runs a ids (if isNotFinished st then nf ++ [(id, t')] else nf, l1) s ->
      runs a (id :: ids) (nf, l) s.

(** The addresses of the pending tasks and, in the order they were posted in, of those
    posted since, up to the address [next]. *)
Definition posted_since (l : Loop G F) (next : Z) : list Z :=
  map fst (queue l) ++ seqZ (next_task l) (next - next_task l).

Lemma numbered_ids n (ts : list (Task F)) : map fst (numbered n ts) = seqZ n (Z.of_nat (length ts)).
Proof.
  revert n; induction ts as [|t ts IH]; intros n; [reflexivity|]; cbn [numbered map fst length].
  rewrite seqZ_cons, IH by lia; f_equal; f_equal; lia.
Qed.

Lemma drain_runs k a nf l nf' l' : live l -> drain k a nf l = Done (nf', l') ->
  next_task l <= next_task l' /\ runs a (posted_since l (next_task l')) (nf, l) (nf', l') /\
  exists kept, nf' = nf ++ kept /\ map fst kept `sublist_of` posted_since l (next_task l').
Proof.
  revert nf l; induction k as [|k IH]; intros nf l Hl H; [discriminate|].
  pose proof (live_queue l Hl) as Hq; destruct (queue l) as [|[id t] q] eqn:Eq.
  { rewrite (drain_nil _ _ _ _ Hq) in H; injection H as <- <-; unfold posted_since.
    rewrite Eq, seqZ_nil by lia; split_and!; [lia|constructor|].
    exists []; now rewrite app_nil_r. }
  rewrite (drain_cons _ _ _ _ _ _ _ Hq) in H; apply outcome_bind_done in H as ([[st t'] l1] & Hr & H).
  pose proof Hr as (_ & (ts & _ & Hq1 & Hn1) & _)%run_task_ran; [|discriminate].
  cbn [set_pending next_task] in Hn1, Hq1.
  apply IH in H as (Hle & Hruns & kept & -> & Hsub); [|unfold live; now rewrite Hq1].
  assert (E : posted_since l (next_task l') = id :: posted_since l1 (next_task l')).
  { unfold posted_since; rewrite Eq; unfold queue at 1; rewrite Hq1; simpl; f_equal.
    rewrite map_app, numbered_ids, <- app_assoc; f_equal; unfold queue; simpl; f_equal.
    replace (next_task l' - next_task l) with (Z.of_nat (length ts) + (next_task l' - next_task l1)) by lia.
    rewrite seqZ_app by lia; now rewrite Hn1. }
  split_and!; [lia| |].
  - rewrite E; eapply runs_task; [exact Hq|reflexivity|exact Hr|exact Hruns].
  - rewrite E; destruct (isNotFinished st).
    + exists ((id, t') :: kept); split; [now rewrite <- app_assoc|]; now apply sublist_skip.
    + exists kept; split; [reflexivity|]; now apply sublist_cons.
Qed.

(** Addresses increase along the queue: it is in the order of posting. *)
Definition in_order (l : Loop G F) : Prop := owned l [] /\ StronglySorted Z.lt (map fst (queue l)).

Lemma sorted_seqZ n m : StronglySorted Z.lt (seqZ n m).
Proof.
  destruct (Z.le_gt_cases 0 m) as [Hm|Hm]; [|rewrite seqZ_nil by lia; constructor].
  revert n; pattern m; apply natlike_ind; [intros; rewrite seqZ_nil by lia; constructor| |exact Hm].
  intros x Hx IH n; rewrite seqZ_cons, Z.pred_succ by lia; constructor; [apply IH|].
  apply Forall_forall; intros i Hi%elem_of_seqZ; lia.
Qed.

Lemma sorted_sublist (k l : list Z) : k `sublist_of` l -> StronglySorted Z.lt l -> StronglySorted Z.lt k.
Proof.
  induction 1 as [|x k l Hkl IH|x k l _ IH]; intros Hs; [exact Hs| |];
    inversion Hs as [|? ? Hl Hx]; subst; [|auto].
  constructor; [auto|]; apply Forall_forall; intros y Hy; rewrite Forall_forall in Hx.
  apply Hx; exact (elem_of_sublist _ _ _ Hy Hkl).
Qed.

Lemma posted_since_sorted l n : in_order l -> StronglySorted Z.lt (posted_since l n).
Proof.
  intros [[_ _ Hold] Hs]; apply StronglySorted_app_2; [|exact Hs|apply sorted_seqZ].
  intros x y Hx Hy%elem_of_seqZ; apply list_elem_of_fmap in Hx as (p & -> & Hp).
  rewrite Forall_forall in Hold; specialize (Hold p Hp); lia.
Qed.

(** What a round runs, and what it leaves pending. *)
Lemma round_runs k a es l l' : in_order l -> round k a es l = Done l' ->
  in_order l' /\ exists nf l1,
    runs a (posted_since l (next_task l')) ([], say ["uv run once"] l) (nf, l1) /\
    pending_tasks_ l1 = Some [] /\
    map fst (queue l') = map fst nf /\ map fst nf `sublist_of` posted_since l (next_task l').
Proof.
  intros Hord H; pose proof Hord as [Ho Hsorted].
  pose proof (round_ready _ _ _ _ _ Ho H) as [Ho' _].
  assert (Hlive : live l) by exact (owned_live _ _ Ho).
  rewrite round_drained in H by exact Hlive; apply outcome_bind_done in H as ([nf l1] & Hd & H).
  assert (Hos : owned (say ["uv run once"] l) []) by (destruct Ho; now split).
  pose proof (drain_inv _ _ [] _ _ _ Hos (List.Forall_nil _) Hd) as (Ho1 & Hq1 & _).
  pose proof (drain_empties _ _ _ (say ["uv run once"] l) _ _ Hlive Hd) as Hempty.
  apply (drain_runs _ _ _ (say ["uv run once"] l)) in Hd as (_ & Hruns & kept & -> & Hsub); [|exact Hlive].
  apply uv_run_stepped in H as [_ Hq Hn _ _]; [| |discriminate].
  2: { pose proof (owned_once _ _ Ho1) as Hnd; now rewrite Hq1, app_nil_r in Hnd. }
  apply followed_ids in Hq; cbn [set_pending next_task] in Hn; rewrite Hn.
  unfold queue in Hq at 2; cbn [set_pending pending_tasks_ default app] in *.
  split; [split; [exact Ho'|]|exists kept, l1; now split_and!].
  rewrite Hq; apply (sorted_sublist _ _ Hsub); exact (posted_since_sorted l _ Hord).
Qed.

Lemma rounds_in_order k inputs : forall l l', in_order l -> rounds k inputs l = Done l' -> in_order l'.
Proof.
  induction inputs as [|[a es] inputs IH]; intros l l' Hl H; cbn [rounds] in H; [now injection H as <-|].
  apply outcome_bind_done in H as (l1 & H1 & H); apply round_runs in H1 as [Hl1 _]; eauto.
Qed.

Lemma posted_in_order ts id g l : post_all ts (Loop_make id g) = Done l -> in_order l.
Proof.
  intros H; destruct (post_all_queue ts (Loop_make id g) [] eq_refl) as (l' & E & Hq & Hn & _).
  rewrite E in H; injection H as <-; simpl in Hq, Hn; destruct (numbered_fresh 0 ts) as [Hnd Hfr].
  split; [split; unfold queue; rewrite Hq; [discriminate|exact Hnd|]|].
  - eapply Forall_impl; [exact Hfr|]; intros p; simpl; lia.
  - unfold queue; rewrite Hq; simpl; rewrite numbered_ids; apply sorted_seqZ.
Qed.
End Schedule.
