(* ===== verification/Server.v ===== *)
(** * Server: the demonstration server and the main program
    (src/src/server.h, src/src/server.cpp, src/src/mygo.cpp)

    [count], the one global variable, is the global state of the loop.  The loop
    never returns, so a run of the server is its state after some rounds. *)

From S2P Require Import Prelude Machine Common Token TokenStream Ast ParseMonad StmtParser.
From S2P Require Import Channel Task Loop.

(** ** [Server] *)

Record Server : Set := mkServerState { running_ : bool }.

Definition Server_make : Server := mkServerState false.

Definition Stop (s : Server) : Server := mkServerState false.

(** [~Server()] *)
Definition Server_destroy (s : Server) : outcome unit :=
  assert_ (negb (running_ s)) "running_ == false".

Definition MAX_THREAD : nat := 1.

(** The callback of the client: what came back. *)
Definition client_callback (response : string) : list string :=
  ["tcp client receive data " +:+ response]%string.

(** The two lambdas that [Run] makes callbacks of loops, with what they capture. *)
Inductive closure : Set := Boot (i : Z) (id : string) | Tick.

Definition client_task : Task closure :=
  TcpClientTask_make "127.0.0.1" 8888 "hello world" client_callback.

(** The callback of the timer; the first time it posts the client. *)
Definition tick : Callback Z closure := fun count =>
  count ← checked_s 32 (count + 1);
  Done (count,
        ("count is  " +:+ pretty count)%string ::
          (if count =? 1 then ["boot client task"] else []),
        if count =? 1 then [client_task] else []).

Definition tick_duration (i : Z) : Z := wrap_u 64 ((i + 1) * Sec + 1 * Sec).

(** The first task of loop [i]. *)
Definition boot (i : Z) (id : string) : Callback Z closure := fun count =>
  Done (count, [id +:+ " " +:+ pretty i]%string, [TimerTask_make true Tick (tick_duration i)]).

#[export] Instance server_closures : Closures Z closure := fun f =>
  match f with Boot i id => boot i id | Tick => tick end.

(** Loop [i] as [Run] prepares it. *)
Definition prepare (i : Z) (count : Z) : outcome (Loop Z closure) :=
  let l := Loop_make ("Loop" +:+ pretty i)%string count in
  l ← PostFunc (Boot i (id l)) l;
  PostTask (TcpServerTask_make "127.0.0.1" 8888) l.

(** [Run()], as far as the given rounds of its one loop. *)
Definition Server_Run (fuel : nat) (inputs : list ((Z -> answers) * list event))
    (s : Server) : outcome (Server * Loop Z closure) :=
  l ← prepare 0 0;
  l ← run fuel inputs l;
  Done (mkServerState true, l).

(** ** [main] *)

Inductive result : Set :=
  | Exit (code : Z) (stdout log : list string)
  | Serve.

Definition help : list string :=
  ["mygo v0.1, author: lzq, all right reserved"; "usage: mygo xxx.mgo"].

(** [read_file] is the file system: the bytes of a file that can be opened. *)
Definition main (read_file : string -> option (list ascii)) (argv : list string) : outcome result :=
  let log := ["hellowlrd"] in
  match argv with
  | [_; arg] =>
      if String.eqb arg "--help" then Done (Exit 0 help log)
      else
        match read_file arg with
        | None => Done (Exit (-1) [] (log ++ ["file open fail"]))
        | Some src =>
            '(r, _) ← parse_source src;
            Done (Exit 0 [] (log ++ [match r with
                                     | Ok root => Root_debug root
                                     | Error e => Err_toString e
                                     end]))
        end
  | _ => Done Serve
  end.
