(* ===== verification/RuntimeProps.v ===== *)
(** * RuntimeProps: the properties of the channel, of the event loop and of the
    values (src/src/channel.h, src/src/loop, src/src/value.cpp) *)

From stdpp Require Import sorting.
From S2P Require Import Prelude Machine Common Value.
From S2P Require Import Channel Uv Task Loop LoopFacts LoopUv Schedule.
From Stdlib Require Import SpecFloat.

#[local] Set Warnings "-register-all".

(** ** The channel *)

(** C26: under every interleaving of any number of readers and of writers, the
    channel is a queue: what was pushed is what was popped, in the same order,
    followed by what it still holds. *)
Theorem channel_fifo T n (s : system T) : reachable n s -> pushed s = popped s ++ channel s.
Proof. apply reachable_fifo. Qed.

Lemma channel_fifo_witness :
  let s := mkSystem [7] [Checking] [7] [] in pushed s = popped s ++ channel s.
Proof.
  apply (channel_fifo Z 1); refine (reach_step _ _ _ (reach_start 1) _).
  exact (step_push 7 (start 1)).
Defined.

(** C27: with one reader, which is what the event loop is, the test of [Size] in one
    critical section and the [Pop] in another are enough: no interleaving makes the
    reader pop an empty channel. *)
Theorem single_reader_safe T (s : system T) : reachable 1 s -> safe s.
Proof.
  intros Hr i Hi; pose proof (lookup_lt_Some _ _ _ Hi) as Hlt.
  rewrite (reachable_readers _ _ Hr) in Hlt; replace i with O in * by lia.
  pose proof (single_reader_nonempty s Hr Hi) as Hne.
  destruct (channel s) as [|t q]; [congruence|]; exists t, q; reflexivity.
Qed.

Lemma single_reader_safe_witness : safe (mkSystem [7] [Popping] [7] []).
Proof.
  apply single_reader_safe; refine (reach_step _ _ _ (reach_step _ _ _ (reach_start 1) _) _).
  - exact (step_push 7 (start 1)).
  - exact (step_check 0 (mkSystem [7] [Checking] [7] []) eq_refl ltac:(vm_compute; reflexivity)).
Defined.

(** With two readers they are not: there is an interleaving in which both see
    the only element and the second pops an empty queue. *)
Theorem two_readers_unsafe T (t : T) : exists s : system T, reachable 2 s /\ ~ safe s.
Proof.
  exists (mkSystem [] [Checking; Popping] [t] [t]); split.
  - eapply reach_step; [|exact (step_pop 0 (mkSystem [t] [Popping; Popping] [t] []) t [] eq_refl eq_refl)].
    eapply reach_step; [|exact (step_check 1 (mkSystem [t] [Popping; Checking] [t] []) eq_refl
                                  ltac:(vm_compute; reflexivity))].
    eapply reach_step; [|exact (step_check 0 (mkSystem [t] [Checking; Checking] [t] []) eq_refl
                                  ltac:(vm_compute; reflexivity))].
    eapply reach_step; [apply reach_start|exact (step_push t (start 2))].
  - intros H; destruct (H 1%nat eq_refl) as (u & q & E); discriminate E.
Qed.

(** ** The event loop *)

Definition ok_answers : Z -> answers := fun _ => mkAnswers 0 0 0.

(** C28: when a round of the event loop ends.  It does with enough fuel, whatever the
    pending tasks post while it runs, if their callbacks return and so do those of the
    tasks that they post, and so on down to tasks that post nothing.  But callbacks that
    return are not enough: once a run-once task is pending whose callback is one of a
    family that each post a run-once task of the family (one that posts itself again,
    say), the round never gets past its inner loop, whatever the fuel. *)
Theorem round_ends (G F : Type) `{!Closures G F} a es (l : Loop G F) : pending_tasks_ l <> None ->
  (Forall total (map snd (queue l)) ->
    exists n, forall k, (n <= k)%nat -> round k a es l <> OutOfFuel) /\
  (forall P k l', posting_for_ever P -> pending_one P l -> round k a es l <> Done l').
Proof.
  intros Hl; split.
  - intros Ht; destruct (drain_ends a _ (runs_first_acc _ Ht) (say ["uv run once"] l) [] Hl eq_refl Ht)
      as [n Hn]; exists n; intros k Hk; apply round_fuel, Hn, Hk.
  - intros P k l' HP Hone ([nf l1] & Hd & _)%outcome_bind_done.
    exact (drain_endless P k a HP [] (say ["uv run once"] l) _ Hl Hone Hd).
Qed.

(** Callbacks that post nothing, a task, and themselves. *)
Inductive demo : Set := Inner | Outer | Again.

#[local] Instance demo_closures : Closures Z demo := fun f g =>
  match f with
  | Inner => Done (g + 1, ["inner"], [])
  | Outer => Done (g + 1, ["outer"], [RunOnce_make Inner])
  | Again => Done (g + 1, ["again"], [RunOnce_make Again])
  end.

Definition demo_loop (f : demo) : Loop Z demo :=
  match PostFunc f (Loop_make "L" 0) with Done l => l | _ => Loop_make "L" 0 end.

Lemma outer_total : total (RunOnce_make Outer).
Proof.
  constructor; [intros f [= <-]; discriminate|]; intros t' (ts & (f & g & g' & o & [= <-] & [= _ _ <-]) & Hin).
  apply list_elem_of_singleton in Hin as ->; constructor; [intros f [= <-]; discriminate|].
  intros t' (ts & (f & g1 & g1' & o1 & [= <-] & [= _ _ <-]) & Hin); now apply elem_of_nil in Hin.
Qed.

Lemma round_ends_witness :
  (exists n, forall k, (n <= k)%nat -> round k ok_answers [] (demo_loop Outer) <> OutOfFuel) /\
  (forall k l', round k ok_answers [] (demo_loop Again) <> Done l').
Proof.
  split.
  - apply (proj1 (round_ends Z demo ok_answers [] (demo_loop Outer) ltac:(discriminate))).
    change (map snd (queue (demo_loop Outer))) with [RunOnce_make Outer].
    apply Forall_singleton; exact outer_total.
  - intros k l'; apply (proj2 (round_ends Z demo ok_answers [] (demo_loop Again) ltac:(discriminate))
      (fun f => f = Again)).
    + intros f -> g; exists (g + 1), ["again"], [RunOnce_make Again], Again; split_and!; auto.
      now apply list_elem_of_singleton.
    + exists 0, Again; split; [reflexivity|].
      change (queue (demo_loop Again)) with [(0, RunOnce_make Again)]; apply list_elem_of_here.
Defined.

(** C29: after a round, with any events: every pending task is owned exactly once
    and was started; none has finished, no run-once task is left, and none has failed
    but a client whose connection broke in this round. *)
Theorem round_invariant (G F : Type) `{!Closures G F} fuel a es (l l' : Loop G F) : owned l [] ->
  round fuel a es l = Done l' ->
  owned l' [] /\ Forall (fun p => (forall st f, p.2 <> RunOnce st f) /\
    (1 <= task_state p.2 \/ task_state p.2 = State_Error /\ exists c, p.2 = TcpClientTask c)) (queue l').
Proof.
  intros Ho H; destruct (round_ready fuel a es l l' Ho H) as [Ho' Hs]; split; [exact Ho'|].
  eapply Forall_impl; [exact Hs|]; intros [i t] Ht; destruct t; simpl in *; try contradiction;
    (split; [discriminate|]); intuition eauto.
Qed.

Lemma owned_posting : owned (demo_loop Outer) [].
Proof.
  split; [discriminate| |]; vm_compute; repeat constructor; now rewrite elem_of_nil.
Qed.

Lemma round_invariant_witness :
  match round 5 ok_answers [] (demo_loop Outer) with
  | Done l' => owned l' []
  | _ => False
  end.
Proof.
  destruct (round 5 ok_answers [] (demo_loop Outer)) as [l'|f|w|] eqn:E;
    try (exfalso; vm_compute in E; discriminate E).
  exact (proj1 (round_invariant Z demo 5 ok_answers [] (demo_loop Outer) l' owned_posting E)).
Defined.

(** C30: a one-shot timer is never stopped in libuv: when its task has run its
    callback it is destroyed, its timer stays armed, and the next time it fires the
    callback of libuv writes to the destroyed task. *)
Theorem one_shot_timer_dangles (G F : Type) `{!Closures G F} fuel a (l l' : Loop G F) id st d f : owned l [] ->
  (id, TimerTask st false true d f) ∈ queue l -> 0 < st -> is_Some (timers (uv l) !! id) ->
  round fuel a [] l = Done l' ->
  is_Some (timers (uv l') !! id) /\ deliver (TimerFired id) l' = Undef DanglingDeref.
Proof.
  intros Ho Hin Hst Harm H; unfold round in H.
  apply outcome_bind_done in H as ([nf l1] & Hd & H).
  apply outcome_bind_done in H as (l2 & Hp & [= <-]).
  assert (Ho' : owned (say ["uv run once"] l) []) by (destruct Ho; now split).
  pose proof (drain_kept armed _ _ _ _ _ _ Hd id Harm) as Harm1.
  pose proof (owned_old _ _ Ho) as Hold; rewrite Forall_forall in Hold; specialize (Hold _ Hin).
  assert (Hex : expiring id (say ["uv run once"] l) []).
  { split; [unfold absent; simpl; apply not_elem_of_nil|]; split; [exact Hold|left; eauto 6]. }
  pose proof (expiring_step _ _ _ _ _ _ _ Ho' Hex Hd) as Habs.
  apply drain_inv in Hd as (Ho1 & Hq1 & _); [|exact Ho'|constructor].
  pose proof (push_all_uv _ _ _ Hp) as Hu.
  apply push_all_inv in Hp as (Hq2 & _ & Hlive); [|exact (owned_live _ _ Ho1)].
  split; [now rewrite Hu|]; apply deliver_absent; [exact Hlive|].
  rewrite Hq2, Hq1; exact Habs.
Qed.

Definition fired_once : Loop Z demo :=
  mkLoop "L" true (Some [(0, TimerTask 1 false true 5 Inner)]) false
    (uv_timer_start 0 5 uv_default_loop) [] 0 1 no_strings.

Lemma one_shot_timer_dangles_witness :
  match round 5 ok_answers [] fired_once with
  | Done l' => deliver (TimerFired 0) l' = Undef DanglingDeref
  | _ => False
  end.
Proof.
  destruct (round 5 ok_answers [] fired_once) as [l'|f|w|] eqn:E;
    try (exfalso; vm_compute in E; discriminate E).
  refine (proj2 (one_shot_timer_dangles Z demo 5 ok_answers fired_once l' 0 1 5 Inner
    _ _ _ _ E)).
  - split; [discriminate| |]; vm_compute; repeat constructor; now rewrite elem_of_nil.
  - vm_compute; left.
  - reflexivity.
  - vm_compute; eauto.
Defined.

(** The period given to libuv is the duration in milliseconds only below 2^31
    nanoseconds (2.1 s); from there up to 2^32 the cast to [int] makes it negative,
    and the period is over five hundred million years. *)
Theorem timer_period_range d : 0 <= d < 2 ^ 32 ->
  (d < 2 ^ 31 -> timer_period d = d / MiliSec) /\
  (2 ^ 31 <= d -> 2 ^ 64 / MiliSec - 2 ^ 31 / MiliSec - 1 <= timer_period d).
Proof.
  intros Hd; unfold timer_period; split; intros Hlt.
  - rewrite wrap_s_small by (try lia; apply in_s_spec; lia); rewrite wrap_u_small by lia; reflexivity.
  - assert (Hw : wrap_s 32 d = d - 2 ^ 32).
    { unfold wrap_s; rewrite Z.mod_small by lia; destruct (Z.ltb_spec d (2 ^ (32 - 1))); lia. }
    rewrite Hw; unfold wrap_u; rewrite <- (Z.mod_add _ 1), Z.mod_small by lia.
    change MiliSec with 1000000.
    apply (Z.le_trans _ ((2 ^ 64 - 2 ^ 31) / 1000000)); [vm_compute; discriminate|].
    apply Z.div_le_mono; lia.
Qed.

Lemma timer_period_range_witness :
  timer_period (2 * Sec) = 2000 /\ 18446744071561 <= timer_period (3 * Sec).
Proof.
  split.
  - exact (proj1 (timer_period_range (2 * Sec) ltac:(split; vm_compute; (discriminate || reflexivity)))
      ltac:(vm_compute; reflexivity)).
  - exact (proj2 (timer_period_range (3 * Sec) ltac:(split; vm_compute; (discriminate || reflexivity)))
      ltac:(vm_compute; discriminate)).
Defined.

(** C31: a round is what its specification says: the tasks that are pending run, each
    once and in order; then, in order, those that were posted meanwhile, generation
    after generation; those that go on are pending again in the order they ran in;
    then libuv makes its callbacks.  A result of the one, undefined behaviour and
    failed assertions included, is a result of the other. *)
Theorem round_schedule (G F : Type) `{!Closures G F} a es (l : Loop G F) r : pending_tasks_ l <> None -> r <> OutOfFuel ->
  (exists k, round k a es l = r) <-> (exists n, scheduled n a es l = r).
Proof.
  intros Hl Hr; split.
  - intros [k H]; exists k; rewrite round_drained in H by exact Hl; unfold scheduled.
    destruct (drain k a [] (say ["uv run once"] l)) as [d|f|w|] eqn:Ed; try (now subst);
      (apply drain_generations in Ed; [|exact Hl|discriminate]); now rewrite Ed.
  - intros [n H]; unfold scheduled in H.
    destruct (generations n a [] (say ["uv run once"] l)) as [d|f|w|] eqn:Eg; try (now subst);
      (apply generations_drain in Eg as [k Ek]; [|exact Hl|discriminate]);
      exists k; rewrite round_drained by exact Hl; now rewrite Ek.
Qed.

Lemma round_schedule_witness : exists n, scheduled n ok_answers [] (demo_loop Outer) = round 5 ok_answers [] (demo_loop Outer).
Proof.
  apply (proj1 (round_schedule Z demo ok_answers [] (demo_loop Outer) (round 5 ok_answers [] (demo_loop Outer))
    ltac:(discriminate) ltac:(vm_compute; discriminate))); now exists 5%nat.
Defined.

(** C32: in any round of a run of the event loop, the tasks run in the order they were
    posted in, each exactly once: first those that are pending, then those that are
    posted while the round runs, by callbacks of any kind of task.  (Addresses are given
    out in the order of posting.)  When the inner loop ends nothing is pending; the tasks
    that go on are some of those that ran, in that order again, and libuv's callbacks
    leave that order alone. *)
Theorem tasks_fifo (G F : Type) `{!Closures G F} id g ts k0 inputs k a es (l0 l l' : Loop G F) :
  post_all ts (Loop_make id g) = Done l0 -> rounds k0 inputs l0 = Done l ->
  round k a es l = Done l' ->
  exists nf l1, let ids := map fst (queue l) ++ seqZ (next_task l) (next_task l' - next_task l) in
    runs a ids ([], say ["uv run once"] l) (nf, l1) /\ pending_tasks_ l1 = Some [] /\
    StronglySorted Z.lt ids /\
    map fst (queue l') = map fst nf /\ map fst nf `sublist_of` ids.
Proof.
  intros H0 Hl H; apply posted_in_order in H0; pose proof (rounds_in_order _ _ _ _ H0 Hl) as Hord.
  destruct (round_runs _ _ _ _ _ Hord H) as (_ & nf & l1 & H1 & H2 & H3 & H4).
  exists nf, l1; cbn zeta; split_and!; auto; exact (posted_since_sorted l _ Hord).
Qed.

(** A timer, and a task that posts one more: the third address is given to the task
    posted meanwhile, and the timer goes on. *)
Definition demo_tasks : list (Task demo) := [TimerTask_make true Inner Sec; RunOnce_make Outer].

Lemma tasks_fifo_witness : exists (l0 l' l1 : Loop Z demo) nf,
  post_all demo_tasks (Loop_make "L" 0) = Done l0 /\ round 9 ok_answers [] l0 = Done l' /\
  runs ok_answers [0; 1; 2] ([], say ["uv run once"] l0) (nf, l1) /\
  map fst nf = [0] /\ map fst (queue l') = [0].
Proof.
  destruct (post_all demo_tasks (Loop_make "L" 0)) as [l0|f|w|] eqn:E0; try discriminate E0.
  destruct (round 9 ok_answers [] l0) as [l'|f|w|] eqn:E;
    try (exfalso; injection E0 as <-; vm_compute in E; discriminate E).
  destruct (tasks_fifo Z demo "L" 0 demo_tasks 1 [] 9 ok_answers [] l0 l0 l' E0 eq_refl E)
    as (nf & l1 & Hr & _ & _ & Hq & _).
  exists l0, l', l1, nf; split_and!; auto; injection E0 as <-; injection E as <-;
    [exact Hr|symmetry; exact Hq|reflexivity].
Defined.

(** ** Values *)

(** C33: the operators of dynamic values, for values that [Make] builds: on two numbers
    [+], [-], [*] and [/] are C++ arithmetic, on [int] if both are, where overflow and
    a zero divisor are undefined, and on [float] otherwise; on anything else there is
    no result. *)
Theorem value_operator (B : Type) tk (d e : value.Data B) :
  value.Operator2 tk (value.Make d) (value.Make e) =
    if value.is_arith tk && value.numeric (value.Make d) && value.numeric (value.Make e)
    then r ← value.arith_spec tk (value.Make d) (value.Make e); Done (Some r)
    else Done None.
Proof.
  destruct (value.is_arith tk && _ && _) eqn:E.
  - apply andb_true_iff in E as [[E1 E2]%andb_true_iff E3].
    now apply value.binary_op_numbers; try apply value.Make_well_tagged.
  - now apply value.binary_op_others; try apply value.Make_well_tagged.
Qed.

(** A boolean cannot be printed: it has the tag of strings. *)
Lemma ToString_bool (B : Type) b : value.ToString (value.Make (B := B) (value.DBool b)) = Abort bad_variant_access.
Proof. reflexivity. Qed.
