(* ===== verification/ServerProps.v ===== *)
(** * ServerProps: the properties of the client and of the server, of the main program
    and of the demonstration server (src/src/loop/task.cpp, src/src/server.cpp,
    src/src/mygo.cpp) *)

From S2P Require Import Prelude Machine Common Token TokenStream Ast ParseMonad StmtParser StmtSound.
From S2P Require Import Channel Uv Task Loop LoopFacts LoopUv Writes Schedule Server RuntimeProps.

#[local] Set Warnings "-register-all".

(** ** The client and the server *)

Lemma on_client_one {G F} `{!Closures G F} id k c c' (l l' : Loop G F) : pending_tasks_ l = Some [(id, TcpClientTask c)] ->
  k c l = Done (c', l') -> pending_tasks_ l' = pending_tasks_ l ->
  on_client id k l = Done (set_pending [(id, TcpClientTask c')] l').
Proof.
  intros Hl Hk Hl'; unfold on_client, on_task; rewrite Hl; cbn [deref]; rewrite outcome_bind_ret_l.
  unfold find_task; cbn [List.find fst]; rewrite Z.eqb_refl; cbn; rewrite Hk; cbn.
  rewrite Hl', Hl; cbn; now rewrite Z.eqb_refl.
Qed.

Lemma on_client_abort {G F} `{!Closures G F} id k c w (l : Loop G F) : pending_tasks_ l = Some [(id, TcpClientTask c)] ->
  k c l = Abort w -> on_client id k l = Abort w.
Proof.
  intros Hl Hk; unfold on_client, on_task; rewrite Hl; cbn [deref]; rewrite outcome_bind_ret_l.
  unfold find_task; cbn [List.find fst]; rewrite Z.eqb_refl; cbn; now rewrite Hk.
Qed.

(** C34: the exchange of a client, alone in the loop: it connects, sends its request
    once, and hands the response to its callback once.  It then stays pending in
    state 4, which is not a final one; and a second read of the same connection, the
    end of file included, fails an assertion. *)
Theorem client_exchange (G F : Type) `{!Closures G F} a k id c n buf data m buf2 (l : Loop G F) :
  pending_tasks_ l = Some [(id, TcpClientTask c)] -> cl_state c = S0 ->
  0 < n -> c_str buf = Done data -> (2 <= k)%nat ->
  exists l1 l2 l3, round k a [Connected id 0 0] l = Done l1 /\
    round k a [ClientRead id n buf] l1 = Done l2 /\ round k a [] l2 = Done l3 /\
    sent (uv l3) = sent (uv l) ++ [(Client id, need_send_ c)] /\
    out l3 = out l ++ ["uv run once"; "uv run once"; "uv run once"] ++ call_back_ c data /\
    pending_tasks_ l3 = Some [(id, TcpClientTask (set_cl_state 4 (set_response data c)))] /\
    uv_run [ClientRead id n buf; ClientRead id m buf2] l1 = Abort "task->state_.isS2()" /\
    uv_run [ClientRead id m buf2] l3 = Abort "task->state_.isS2()".
Proof.
  intros Hl Hs Hn Hb Hk; destruct k as [|[|k]]; try lia; destruct c as [st ip port need resp cb].
  simpl in Hs; subst st; pose proof (proj2 (Z.ltb_lt 0 n) Hn) as Hnb.
  assert (Hread : forall st (l : Loop G F), pending_tasks_ l = Some [(id, TcpClientTask (mkClient st ip port need resp cb))] ->
      st = 2 -> deliver (ClientRead id n buf) l =
        Done (set_pending [(id, TcpClientTask (mkClient 3 ip port need data cb))] l)).
  { intros st l0 Hl0 ->; apply (on_client_one _ _ _ _ _ _ Hl0); [|reflexivity].
    unfold client_on_read; cbn -[c_str]; now rewrite Hnb, Hb. }
  assert (Hagain : forall st r (l : Loop G F), pending_tasks_ l = Some [(id, TcpClientTask (mkClient st ip port need r cb))] ->
      st <> 2 -> deliver (ClientRead id m buf2) l = Abort "task->state_.isS2()").
  { intros st r l0 Hl0 Hst; apply (on_client_abort _ _ _ _ _ Hl0).
    unfold client_on_read, isS2; cbn -[c_str]; now rewrite (proj2 (Z.eqb_neq st 2) Hst). }
  do 3 eexists; split; [|split; [|split]].
  - erewrite (round_one k a _ id); [|exact Hl|reflexivity..]; cbn [uv_run deliver].
    erewrite on_client_one; reflexivity.
  - erewrite (round_one k a _ id); [|reflexivity..]; cbn [uv_run].
    erewrite Hread; reflexivity.
  - erewrite (round_one k a _ id); [|reflexivity..]; reflexivity.
  - split_and!; try reflexivity.
    + simpl; now rewrite <- !app_assoc.
    + cbn [uv_run]; erewrite Hread by reflexivity; rewrite outcome_bind_ret_l.
      erewrite Hagain; [reflexivity|reflexivity|discriminate].
    + cbn [uv_run]; erewrite Hagain; [reflexivity|reflexivity|discriminate].
Qed.

Definition hello : list ascii := String.list_ascii_of_string "hi" ++ [ascii_of_nat 0].

Definition client_alone : Loop Z closure :=
  mkLoop "L" true (Some [(3, client_task)]) false uv_default_loop [] 1 4 no_strings.

Lemma client_exchange_witness :
  exists l3 : Loop Z closure, sent (uv l3) = [(Client 3, "hello world")] /\
    out l3 = ["uv run once"; "uv run once"; "uv run once"; "tcp client receive data hi"] /\
    uv_run [ClientRead 3 (-4095) []] l3 = Abort "task->state_.isS2()".
Proof.
  destruct (client_exchange Z closure ok_answers 2 3 (mkClient S0 "127.0.0.1" 8888 "hello world" "" client_callback)
    2 hello "hi" (-4095) [] client_alone eq_refl eq_refl ltac:(lia) eq_refl ltac:(lia))
    as (l1 & l2 & l3 & _ & _ & _ & Hs & Ho & _ & _ & Hagain).
  exists l3; split_and!; [exact Hs|exact Ho|exact Hagain].
Defined.

(** What happens to a server's task: it is run, a connection is accepted or not, and
    a connection that was accepted is read. *)
Inductive server_step {G F} : TcpServer -> TcpServer -> Prop :=
  | server_runs a s s' (l l' : Loop G F) : TcpServer_run a s l = Done (s', l') -> server_step s s'
  | server_accepts st h rc s s' (l l' : Loop G F) :
      on_new_connection st h rc s l = Done (s', l') -> server_step s s'
  | server_reads h n buf s s' (l l' : Loop G F) : is_Some (connection_id_map_ s !! h) ->
      server_on_read h n buf s l = Done (s', l') -> server_step s s'.

(** The states of a server's task. *)
Inductive served {G F} (ip : string) (port : Z) : TcpServer -> Prop :=
  | served_start : served ip port (TcpServer_make ip port)
  | served_step s s' : served ip port s -> server_step (G := G) (F := F) s s' -> served ip port s'.

Lemma served_ok {G F} ip port s : served (G := G) (F := F) ip port s -> connections_ok s.
Proof.
  induction 1 as [|s s' _ IH Hs]; [apply TcpServer_make_ok|].
  destruct Hs as [a s s' l l' H|st h rc s s' l l' H|h n buf s s' l l' Hh H].
  - exact (TcpServer_run_ok a s l s' l' IH H).
  - unfold on_new_connection in H; destruct (st <? 0); [now injection H as <- <-|].
    destruct (rc =? 0); [|now apply outcome_bind_done in H as (u & _ & [= <- <-])].
    apply outcome_bind_done in H as (s1 & H & [= <- <-]).
    exact (proj1 (add_connection_ok _ _ _ IH H)).
  - exact (server_on_read_ok h n buf s l s' l' IH Hh H).
Qed.

(** C35: in every reachable state of a server's task, each handle has a connection
    and leads back to itself, an event is about a known connection, and the next
    identifier is unused; so while the handles of its connections are allocated, [run]
    has a result: no event makes it use a null or an unknown handle. *)
Theorem server_connections (G F : Type) `{!Closures G F} ip port s a (l : Loop G F) : served (G := G) (F := F) ip port s ->
  connections_ok s /\ connection_handle_map_ s !! (cur_connction_id_ s + 1) = None /\
  ((forall id h, connection_handle_map_ s !! id = Some h -> h <> null_handle /\ h ∈ open_handles (uv l)) ->
   exists s' l', TcpServer_run a s l = Done (s', l')).
Proof.
  intros Hs%served_ok; split_and!; [exact Hs| |].
  { destruct (connection_handle_map_ s !! _) eqn:E; [|reflexivity].
    apply (conn_ids _ Hs) in E; lia. }
  intros Hopen; pose proof (conn_events _ Hs) as [_ Hd]; unfold TcpServer_run.
  destruct (isError (srv_state s)); [eauto|]; destruct (isS0 (srv_state s)) eqn:E0.
  { apply Z.eqb_eq in E0; rewrite E0; repeat case_match; eauto. }
  destruct (new_connect_ s); [eauto|]; destruct (new_data_ s) as [[id data]|] eqn:Ed; [|eauto].
  destruct (Hd id data eq_refl) as [h Hh]; destruct (Hopen _ _ Hh) as [Hnull Hin].
  unfold OnData, SendData, send_response, handle_of; rewrite Hh.
  unfold new_string; cbn [say locals]; cbv iota beta.
  destruct (Z.eqb_spec h null_handle); [contradiction|].
  cbn [say set_locals uv]; rewrite decide_True by exact Hin; rewrite !outcome_bind_ret_l; eauto.
Qed.

Lemma server_connections_witness :
  match add_connection 64 (TcpServer_make "127.0.0.1" 8888) with
  | Done s => connection_handle_map_ s !! 1 = None
  | _ => False
  end.
Proof.
  destruct (add_connection 64 (TcpServer_make "127.0.0.1" 8888)) as [s|f|w|] eqn:E;
    try (exfalso; vm_compute in E; discriminate E).
  assert (Hs : served (G := Z) (F := closure) "127.0.0.1" 8888 s).
  { refine (served_step _ _ _ _ (served_start _ _) _).
    eapply (server_accepts 0 64 0 _ _ client_alone); unfold on_new_connection; cbn [Z.ltb Z.compare Z.eqb].
    rewrite E; reflexivity. }
  pose proof (proj1 (proj2 (server_connections Z closure "127.0.0.1" 8888 s (ok_answers 0) (Loop_make "L" 0) Hs))) as H.
  injection E as <-; exact H.
Defined.

(** C36: the main program.  Without exactly one argument it serves; [--help] prints the
    usage; a file that cannot be opened is the exit code -1; a file whose bytes can be
    scanned is logged as a tree or as an error, or an assertion of the parser fails:
    there is no undefined behaviour, and the exit code is 0 for both. *)
Theorem main_outcome read_file prog arg rest :
  (rest <> [] -> main read_file (prog :: arg :: rest) = Done Serve) /\
  main read_file [prog] = Done Serve /\
  main read_file [prog; "--help"] = Done (Exit 0 help ["hellowlrd"]) /\
  (arg <> "--help" -> read_file arg = None ->
    main read_file [prog; arg] = Done (Exit (-1) [] ["hellowlrd"; "file open fail"])) /\
  (forall src, arg <> "--help" -> read_file arg = Some src -> lexable src ->
    (exists r s, parse_source src = Done (r, s) /\
      main read_file [prog; arg] = Done (Exit 0 [] ["hellowlrd";
        match r with Ok root => Root_debug root | Error e => Err_toString e end])) \/
    (exists text, main read_file [prog; arg] = Abort text)).
Proof.
  split_and!; try reflexivity.
  - intros Hr; destruct rest; [congruence|reflexivity].
  - intros Hne%String.eqb_neq Hf; unfold main; now rewrite Hne, Hf.
  - intros src Hne%String.eqb_neq Hf Hl; unfold main; rewrite Hne, Hf.
    destruct (parse_source_outcome src Hl) as [(r & s & ->)|[w ->]]; [left|right; now exists w].
    exists r, s; split; reflexivity.
Qed.

Lemma main_outcome_witness :
  main (fun _ => None) ["mygo"; "a.mgo"] = Done (Exit (-1) [] ["hellowlrd"; "file open fail"]).
Proof.
  exact (proj1 (proj2 (proj2 (proj2 (main_outcome (fun _ => None) "mygo" "a.mgo" []))))
    ltac:(discriminate) eq_refl).
Defined.

(** The tasks of the server's loop once it ticks. *)
Definition listening : TcpServer := set_srv_state 1 (TcpServer_make "127.0.0.1" 8888).
Definition connecting : TcpClient := mkClient 1 "127.0.0.1" 8888 "hello world" "" client_callback.
Definition ticking (timeout : bool) : Task closure := TimerTask 1 true timeout (2 * Sec) Tick.

(** *** Whatever libuv does *)

(** [m] has a result, or faults for a reason that is not the fuel. *)
Definition ends {A} (m : outcome A) (Q : A -> Prop) : Prop := wpo Logic.True Logic.True m Q.

(** The timer's callback comes in a round. *)
Definition fired (i : (Z -> answers) * list event) : bool := existsb (fun e => fires e 2) i.2.

(** The server's task is pending or was destroyed, the timer's task is pending, and the
    client's task is pending, was destroyed, or is still to be posted. *)
Definition serving (c : Z) (b : bool) (q : list (Z * Task closure)) : Prop := exists srv cl,
  q = srv ++ (2, ticking b) :: cl /\
  (srv = [] \/ exists s, srv = [(1, TcpServerTask s)]) /\
  (cl = [] \/ 1 <= c /\ exists k, cl = [(3, TcpClientTask k)]).

(** After [c] ticks; [b] says whether the timer's callback has come since the last one. *)
Record serves (c : Z) (b : bool) (l : Loop Z closure) : Prop := {
  serves_queue : exists q, pending_tasks_ l = Some q /\ serving c b q;
  serves_count : global l = c /\ 0 <= c;
  serves_timers : timers (uv l) = {[2 := 2000]};
  serves_next : next_task l = if c =? 0 then 3 else 4;
}.

(** A task that is a server or a client, and what running it leaves alone. *)
Definition connects (t : Task closure) : Prop :=
  (exists s, t = TcpServerTask s) \/ (exists c, t = TcpClientTask c).

Definition same_kind (t t' : Task closure) : Prop :=
  match t with
  | TcpServerTask _ => exists s, t' = TcpServerTask s
  | TcpClientTask _ => exists c, t' = TcpClientTask c
  | _ => t' = t
  end.

Definition steady (q : Channel (Z * Task closure)) (l l' : Loop Z closure) : Prop :=
  pending_tasks_ l' = Some q /\ global l' = global l /\ next_task l' = next_task l /\
  timers (uv l') = timers (uv l).

Lemma connects_runs a id t q (l : Loop Z closure) : connects t -> pending_tasks_ l = Some q ->
  ends (run_task a id t l) (fun '(st, t', l') => same_kind t t' /\ steady q l l').
Proof.
  intros Ht Hq; destruct (run_task a id t l) as [[[st t'] l']| | |] eqn:E; try exact I.
  - unfold ends, wpo, steady.
    rewrite <- Hq.
    destruct Ht as [[s ->]|[c ->]]; unfold run_task in E; apply outcome_bind_done in E as ([t1 l1] & E & [= _ <- <-]);
      apply outcome_bind_done in E as ([s' l2] & E & [= <- <-]); (split; [simpl; eauto|]); revert E.
    + unfold TcpServer_run; repeat case_match; try (now intros [= _ <-]);
        try (now intros (x & _ & [= _ <-])%outcome_bind_done).
      intros ([s1 l3] & (h & _ & _ & _ & ->)%SendData_inv & [= _ <-])%outcome_bind_done; simpl.
      now rewrite uv_write_timers.
    + unfold TcpClient_run; repeat case_match; try (now intros [= _ <-]);
        now intros (x & _ & [= _ <-])%outcome_bind_done.
  - revert E; apply outcome_bind_fuel; [|intros []; discriminate].
    destruct Ht as [[s ->]|[c ->]]; apply outcome_bind_fuel; try (intros []; discriminate).
    + apply TcpServer_run_no_fuel.
    + apply TcpClient_run_no_fuel.
Qed.

(** The inner loop runs such a task, and keeps it or not. *)
Lemma drain_connects k a nf id t q (l : Loop Z closure) Q : connects t ->
  pending_tasks_ l = Some ((id, t) :: q) ->
  (forall kept l', steady q l l' -> kept = [] \/ (exists t', same_kind t t' /\ kept = [(id, t')]) ->
    ends (drain k a (nf ++ kept) l') Q) ->
  ends (drain (S k) a nf l) Q.
Proof.
  intros Ht Hq Hk; rewrite (drain_cons _ _ _ _ _ _ _ Hq); apply wpo_bind.
  eapply wpo_mono; [exact (connects_runs (a id) id t q (set_pending q l) Ht eq_refl)|auto..].
  intros [[st t'] l'] [Hkind Hs]; destruct (isNotFinished st).
  - apply (Hk [(id, t')]); eauto.
  - rewrite <- (app_nil_r nf); apply (Hk []); auto.
Qed.

(** What the timer's task does when it is run: the first tick posts the client. *)
Definition ticked_by (b : bool) (c : Z) : Z := if b then c + 1 else c.

Lemma ticking_runs a b c q (l : Loop Z closure) : pending_tasks_ l = Some q -> global l = c -> 0 <= c ->
  ends (run_task a 2 (ticking b) l) (fun '(st, t', l') => st = 1 /\ t' = ticking false /\
    timers (uv l') = timers (uv l) /\ global l' = ticked_by b c /\
    if b && (c =? 0)
    then pending_tasks_ l' = Some (q ++ [(next_task l, client_task)]) /\ next_task l' = next_task l + 1
    else pending_tasks_ l' = Some q /\ next_task l' = next_task l).
Proof.
  intros Hq <- Hc; destruct b; [|now vm_compute].
  unfold run_task, ticking, TimerTask_run, call; cbn [isS0 isFinished Z.eqb Pos.eqb invoke server_closures].
  unfold tick, checked_s; destruct (in_s 32 (global l + 1)); [|exact I]; rewrite !outcome_bind_ret_l.
  replace (global l + 1 =? 1) with (global l =? 0) by (destruct (Z.eqb_spec (global l) 0); symmetry;
    [apply Z.eqb_eq|apply Z.eqb_neq]; lia).
  destruct (Z.eqb_spec (global l) 0) as [E|E]; cbn [post_all andb]; unfold PostTask;
    cbn [say set_global pending_tasks_ outcome_bind mbind]; rewrite ?Hq; simpl; split_and!; auto.
Qed.

(** The callbacks of libuv, after the inner loop. *)
Lemma events_serve c q es (l : Loop Z closure) : serving c false q -> NoDup (map fst q) ->
  global l = c -> 0 <= c -> timers (uv l) = {[2 := 2000]} -> next_task l = (if c =? 0 then 3 else 4) ->
  ends (uv_run es (set_pending q l)) (serves c (existsb (fun e => fires e 2) es)).
Proof.
  intros (srv & cl & -> & Hsrv & Hcl) Hnd Hg Hc Ht Hn.
  destruct (uv_run es _) as [l'| | |] eqn:E; try exact I; [|now apply uv_run_no_fuel in E].
  assert (Ht' : same_timers (uv l) (uv l')).
  { refine (uv_run_kept same_timers es (set_pending _ l) l' _ E).
    apply Forall_forall; intros [] _; try exact I; apply same_timers_frees. }
  apply uv_run_stepped in E as [Hlive Hq Hn' _ Hg']; [|exact Hnd|discriminate].
  split; [|rewrite Hg'; now split|unfold same_timers in Ht'; congruence|simpl in Hn'; congruence].
  exists (queue l'); split; [unfold queue; now destruct (pending_tasks_ l')|].
  unfold queue in Hq at 1; simpl in Hq; apply Forall2_app_inv_l in Hq as (srv' & rest & Hs & Hr & ->).
  apply Forall2_cons_inv_l in Hr as ([i t] & cl' & [Hi Ht2] & Hr & ->); simpl in Hi, Ht2; subst i t.
  exists srv', cl'; split; [reflexivity|]; split.
  - destruct Hsrv as [->|[s ->]]; [left; now inversion Hs|right].
    apply Forall2_cons_inv_l in Hs as ([i t] & x & [Hi (s' & Ht2 & _)] & Hs & ->); simpl in Hi, Ht2; subst.
    inversion Hs; subst; now exists s'.
  - destruct Hcl as [->|(Hc1 & k & ->)]; [left; now inversion Hr|right; split; [exact Hc1|]].
    apply Forall2_cons_inv_l in Hr as ([i t] & x & [Hi (st & r & Ht2 & _)] & Hr & ->); simpl in Hi, Ht2; subst.
    inversion Hr; subst; eauto.
Qed.

(** The tasks that are set aside while the others run. *)
Lemma kept_server kept s : kept = [] \/ (exists t', same_kind (TcpServerTask s) t' /\ kept = [(1, t')]) ->
  kept = [] \/ exists s', kept = [(1, TcpServerTask s')].
Proof. intros [->|(t' & [s' ->] & ->)]; eauto. Qed.

Lemma kept_client kept c : kept = [] \/ (exists t', same_kind (TcpClientTask c) t' /\ kept = [(3, t')]) ->
  kept = [] \/ exists c', kept = [(3, TcpClientTask c')].
Proof. intros [->|(t' & [c' ->] & ->)]; eauto. Qed.

Lemma serving_nodup c b q : serving c b q -> NoDup (map fst q).
Proof.
  intros (srv & cl & -> & Hsrv & Hcl).
  destruct Hsrv as [->|[s ->]], Hcl as [->|(_ & k & ->)]; simpl;
    repeat (apply NoDup_cons; split; [rewrite ?elem_of_cons, elem_of_nil; lia|]); apply NoDup_nil; exact I.
Qed.

(** The end of the inner loop, with the client's task or without. *)
Lemma drain_last k a srv cl c (l : Loop Z closure) :
  (srv = [] \/ exists s, srv = [(1, TcpServerTask s)]) ->
  (cl = [] \/ 1 <= c /\ exists k, cl = [(3, TcpClientTask k)]) ->
  pending_tasks_ l = Some cl -> global l = c -> 0 <= c -> timers (uv l) = {[2 := 2000]} ->
  next_task l = (if c =? 0 then 3 else 4) ->
  ends (drain (S (S k)) a (srv ++ [(2, ticking false)]) l) (fun '(q, l') => serving c false q /\
    global l' = c /\ timers (uv l') = {[2 := 2000]} /\ next_task l' = (if c =? 0 then 3 else 4)).
Proof.
  intros Hsrv Hcl Hq Hg Hc Ht Hn; destruct Hcl as [->|(Hc1 & cl0 & ->)].
  - rewrite (drain_nil _ _ _ _ Hq); simpl; split_and!; auto; exists srv, []; auto.
  - apply (drain_connects _ _ _ _ _ _ _ _ (or_intror (ex_intro _ cl0 eq_refl)) Hq).
    intros kept l' (Hq' & Hg' & Hn' & Ht') Hkept%kept_client; rewrite (drain_nil _ _ _ _ Hq'); simpl.
    split_and!; try congruence; rewrite <- app_assoc; exists srv, kept; split_and!; auto.
    destruct Hkept as [->|[c' ->]]; eauto.
Qed.

(** From the timer's task on. *)
Lemma drain_ticking k a srv cl b c (l : Loop Z closure) :
  (srv = [] \/ exists s, srv = [(1, TcpServerTask s)]) ->
  (cl = [] \/ 1 <= c /\ exists k, cl = [(3, TcpClientTask k)]) ->
  pending_tasks_ l = Some ((2, ticking b) :: cl) -> global l = c -> 0 <= c ->
  timers (uv l) = {[2 := 2000]} -> next_task l = (if c =? 0 then 3 else 4) ->
  ends (drain (S (S (S k))) a srv l) (fun '(q, l') => let c := ticked_by b c in
    serving c false q /\ global l' = c /\
    timers (uv l') = {[2 := 2000]} /\ next_task l' = (if c =? 0 then 3 else 4)).
Proof.
  intros Hsrv Hcl Hq Hg Hc Ht Hn; rewrite (drain_cons _ _ _ _ _ _ _ Hq); apply wpo_bind.
  eapply wpo_mono; [exact (ticking_runs (a 2) b c cl (set_pending cl l) eq_refl Hg Hc)|auto..].
  intros [[st t'] l'] (-> & -> & Ht' & Hg' & Hp); cbn [isNotFinished Z.leb Z.compare]; cbn [set_pending uv next_task] in *.
  destruct b; cbn [ticked_by andb] in *; [destruct (Z.eqb_spec c 0) as [->|Hne]|]; destruct Hp as [Hp Hn'].
  - destruct Hcl as [->|[? _]]; [|lia]; rewrite Hn in Hp, Hn'.
    apply (drain_last k a srv [(3, client_task)]); auto; [right; split; [lia|now eexists]|lia|congruence].
  - apply (drain_last k a srv cl); auto; [|lia|congruence|].
    + destruct Hcl as [->|[? ?]]; [now left|right; split; [lia|assumption]].
    + destruct (Z.eqb_spec (c + 1) 0); [lia|congruence].
  - apply (drain_last k a srv cl); auto; congruence.
Qed.

Lemma serves_round k a es c b (l : Loop Z closure) : serves c b l ->
  ends (round (S (S (S (S k)))) a es l) (serves (ticked_by b c) (existsb (fun e => fires e 2) es)).
Proof.
  intros [(q & Hq & srv & cl & -> & Hsrv & Hcl) [Hg Hc] Ht Hn].
  rewrite round_drained by (unfold live; congruence); apply wpo_bind.
  assert (Hd : ends (drain (S (S (S (S k)))) a [] (say ["uv run once"] l)) (fun '(q, l') =>
    let c := ticked_by b c in serving c false q /\ global l' = c /\
    timers (uv l') = {[2 := 2000]} /\ next_task l' = (if c =? 0 then 3 else 4))).
  { destruct Hsrv as [->|[s ->]].
    - apply (drain_ticking (S k) a [] cl); auto.
    - apply (drain_connects (S (S (S k))) a [] 1 (TcpServerTask s) ((2, ticking b) :: cl)
        (say ["uv run once"] l) _ (or_introl (ex_intro _ s eq_refl)) Hq).
      intros kept l1 (Hq1 & Hg1 & Hn1 & Ht1) Hkept%kept_server; cbn [say global next_task uv] in *.
      apply (drain_ticking k a kept cl); auto; congruence. }
  eapply wpo_mono; [exact Hd|auto..]; intros [q l'] (Hs & Hg' & Ht' & Hn').
  apply events_serve; auto; [exact (serving_nodup _ _ _ Hs)|destruct b; simpl; lia].
Qed.

(** The first round: the server listens or fails, the timer is started. *)
Lemma boot_round k a es (l0 : Loop Z closure) : prepare 0 0 = Done l0 ->
  ends (round (S (S (S (S k)))) a es (say [id_ l0 +:+ " started"]%string l0))
    (serves 0 (existsb (fun e => fires e 2) es)).
Proof.
  intros H; injection H as <-; rewrite round_drained by (unfold live; discriminate); apply wpo_bind.
  erewrite drain_cons by reflexivity; cbn -[drain pretty tick ends].
  eapply (drain_connects _ _ [] (0 + 1) (TcpServerTask_make "127.0.0.1" 8888));
    [left; unfold TcpServerTask_make; eauto|reflexivity|].
  intros kept l1 (Hq1 & Hg1 & Hn1 & Ht1) Hkept; cbn [global next_task uv] in *.
  apply kept_server in Hkept.
  rewrite (drain_cons _ _ _ _ _ _ _ Hq1); cbn -[drain pretty ends].
  change (checked_s 32 (S0 + 1)) with (Done 1); cbn -[drain pretty ends].
  erewrite drain_nil by reflexivity; cbn -[ends].
  apply events_serve; auto.
  - exists kept, []; split_and!; auto.
  - apply (serving_nodup 0 false); exists kept, []; split_and!; auto.
  - reflexivity.
  - cbn; rewrite Ht1; reflexivity.
Qed.

Lemma rounds_app {G F} `{!Closures G F} k i1 : forall i2 (l : Loop G F),
  rounds k (i1 ++ i2) l = (l ← rounds k i1 l; rounds k i2 l).
Proof.
  induction i1 as [|[a es] i1 IH]; intros i2 l; cbn [app rounds]; [reflexivity|].
  rewrite outcome_bind_assoc; destruct (round k a es l); try reflexivity; apply IH.
Qed.

(** The rounds in which the timer's callback comes. *)
Definition count_fired (inputs : list ((Z -> answers) * list event)) : Z :=
  Z.of_nat (length (List.filter fired inputs)).

Lemma count_fired_app i1 i2 : count_fired (i1 ++ i2) = count_fired i1 + count_fired i2.
Proof. unfold count_fired; rewrite List.filter_app, length_app; lia. Qed.

Lemma count_fired_one c i : ticked_by (fired i) c = c + count_fired [i].
Proof. unfold count_fired; simpl; destruct (fired i); simpl; lia. Qed.

Lemma rounds_serve k inputs : forall i l0, prepare 0 0 = Done l0 ->
  ends (rounds (S (S (S (S k)))) (inputs ++ [i]) (say [id_ l0 +:+ " started"]%string l0))
    (serves (count_fired inputs) (fired i)).
Proof.
  induction inputs as [|j inputs IH] using rev_ind; intros i l0 H0.
  - destruct i as [a es]; cbn [app rounds]; apply wpo_bind.
    eapply wpo_mono; [exact (boot_round k a es l0 H0)|auto..]; intros l Hl; exact Hl.
  - rewrite rounds_app; apply wpo_bind; eapply wpo_mono; [exact (IH j l0 H0)|auto..]; intros l Hl.
    destruct i as [a es]; cbn [rounds]; apply wpo_bind; eapply wpo_mono; [exact (serves_round k a es _ _ l Hl)|auto..].
    intros l' Hl'; simpl; rewrite count_fired_app; rewrite count_fired_one in Hl'; exact Hl'.
Qed.

(** *** When its timer's callback comes in every round, and nothing else *)

Definition serving_all : list (Z * Task closure) :=
  [(1, TcpServerTask listening); (2, ticking true); (3, TcpClientTask connecting)].

Definition ticked (count : Z) (l : Loop Z closure) : Prop :=
  pending_tasks_ l = Some serving_all /\ global l = count /\ timers (uv l) = {[2 := 2000]}.

Lemma tick_more c l : 1 <= c < 2 ^ 31 - 1 -> pending_tasks_ l <> None -> global l = c ->
  exists o, call Tick l = Done (say o (set_global (c + 1) l)).
Proof.
  intros Hc Hl <-; unfold call; cbn [invoke server_closures]; unfold tick, checked_s.
  rewrite (proj2 (in_s_spec 32 _)) by lia; rewrite !outcome_bind_ret_l.
  rewrite (proj2 (Z.eqb_neq (global l + 1) 1)) by lia; eexists; reflexivity.
Qed.

Lemma tick_one l : global l = 0 -> pending_tasks_ l = Some [] ->
  exists o, call Tick l = Done (mkLoop (id_ l) (uv_loop_ l) (Some [(next_task l, client_task)])
    (finished_ l) (uv l) (out l ++ o) 1 (next_task l + 1) (locals l)).
Proof.
  intros Hg Hl; unfold call; cbn [invoke server_closures]; unfold tick; rewrite Hg; change (checked_s 32 (0 + 1)) with (Done 1).
  rewrite !outcome_bind_ret_l; cbn [post_all Z.eqb Pos.eqb]; unfold PostTask; cbn [say set_global pending_tasks_].
  rewrite Hl; eexists; reflexivity.
Qed.

Lemma listens an id (l : Loop Z closure) : bind_rc an = 0 -> listen_rc an = 0 ->
  exists o, run_task an id (TcpServerTask_make "127.0.0.1" 8888) l =
    Done (1, TcpServerTask listening, say o l).
Proof.
  intros Hb Hl; eexists; unfold run_task, TcpServer_run; rewrite Hb, Hl; reflexivity.
Qed.

Lemma boots a k l0 : bind_rc (a 1) = 0 -> listen_rc (a 1) = 0 -> prepare 0 0 = Done l0 ->
  exists l, round (S (S (S (S k)))) a [TimerFired 2] (say [id_ l0 +:+ " started"]%string l0) = Done l /\
    pending_tasks_ l = Some [(1, TcpServerTask listening); (2, ticking true)] /\ global l = 0 /\
    timers (uv l) = {[2 := 2000]} /\ next_task l = 3.
Proof.
  intros Hb Hli H; injection H as <-; unfold round.
  erewrite drain_cons by reflexivity; cbn -[drain pretty tick].
  erewrite drain_cons by reflexivity; change (0 + 1) with 1; change (1 + 1) with 2.
  edestruct (listens (a 1) 1) as [o ->]; [exact Hb|exact Hli|]; cbn -[drain pretty tick].
  erewrite drain_cons by reflexivity; cbn -[drain pretty tick].
  change (checked_s 32 (S0 + 1)) with (Done 1); cbn -[drain pretty tick].
  erewrite drain_nil by reflexivity; cbn -[drain pretty tick]; eexists; split_and!; reflexivity.
Qed.

(** The first tick posts the client, which runs in the same round. *)
Lemma first_tick a k l : pending_tasks_ l = Some [(1, TcpServerTask listening); (2, ticking true)] ->
  global l = 0 -> timers (uv l) = {[2 := 2000]} -> next_task l = 3 ->
  exists l', round (S (S (S (S k)))) a [TimerFired 2] l = Done l' /\ ticked 1 l'.
Proof.
  intros Hl Hg Ht Hn; destruct l as [lid ul q fin u o g nx loc]; simpl in *; subst; unfold round.
  erewrite drain_cons by reflexivity; cbn -[drain call].
  erewrite drain_cons by reflexivity; cbn -[drain call].
  match goal with |- context [call Tick ?l] => destruct (tick_one l eq_refl eq_refl) as [o' ->] end.
  cbn -[drain].
  erewrite drain_cons by reflexivity; cbn -[drain].
  change (checked_s 32 (S0 + 1)) with (Done 1); cbn -[drain].
  erewrite drain_nil by reflexivity; cbn -[drain]; eexists; split; [reflexivity|split_and!; [reflexivity..|exact Ht]].
Qed.

Lemma next_tick a k c l : ticked c l -> 1 <= c < 2 ^ 31 - 1 ->
  exists l', round (S (S (S (S k)))) a [TimerFired 2] l = Done l' /\ ticked (c + 1) l'.
Proof.
  intros (Hl & Hg & Ht) Hc; destruct l as [lid ul q fin u o g nx loc]; simpl in *; subst; unfold round.
  erewrite drain_cons by reflexivity; cbn -[drain call].
  erewrite drain_cons by reflexivity; cbn -[drain call].
  match goal with |- context [call Tick ?l] =>
    destruct (tick_more c l Hc ltac:(discriminate) eq_refl) as [o' ->] end; cbn -[drain].
  erewrite drain_cons by reflexivity; cbn -[drain].
  erewrite drain_nil by reflexivity; cbn -[drain]; eexists; split; [reflexivity|split_and!; [reflexivity..|exact Ht]].
Qed.

Lemma ticks_on a k n : forall c l, ticked c l -> 1 <= c -> c + Z.of_nat n < 2 ^ 31 ->
  exists l', rounds (S (S (S (S k)))) (repeat (a, [TimerFired 2]) n) l = Done l' /\
    ticked (c + Z.of_nat n) l'.
Proof.
  induction n as [|n IH]; intros c l Hl Hc Hn; cbn [repeat rounds].
  { exists l; replace (c + Z.of_nat 0) with c by lia; now split. }
  destruct (next_tick a k c l Hl ltac:(lia)) as (l1 & -> & Hl1); rewrite outcome_bind_ret_l.
  replace (c + Z.of_nat (S n)) with (c + 1 + Z.of_nat n) by lia; apply IH; [exact Hl1|lia..].
Qed.

(** C37: the demonstration server, with any answers and any callbacks of libuv.  Its
    rounds always end, and when no fault stops it: the timer of 2000 ms stays started and
    its task pending; [count] is the number of rounds before the last in which the
    timer's callback came, so a tick follows in the next round and several callbacks in one
    round are one tick; the client is posted at the first tick and only then (four
    tasks in all, where three were posted before); the server's task and the client's may have
    failed and be gone.  And it can go on: when its address can be bound and the only
    callback of libuv in each round is that of the timer, no fault stops it until the
    counter has reached the largest [int]. *)
Theorem server_ticks fuel : (4 <= fuel)%nat ->
  (forall inputs, Server_Run fuel inputs Server_make <> OutOfFuel) /\
  (forall inputs i srv l, Server_Run fuel (inputs ++ [i]) Server_make = Done (srv, l) ->
    srv = mkServerState true /\ global l = count_fired inputs /\ timers (uv l) = {[2 := 2000]} /\
    next_task l = (if global l =? 0 then 3 else 4) /\
    exists servers clients, queue l = servers ++ (2, ticking (fired i)) :: clients /\
      (servers = [] \/ exists s, servers = [(1, TcpServerTask s)]) /\
      (clients = [] \/ 1 <= global l /\ exists c, clients = [(3, TcpClientTask c)])) /\
  (forall a n, bind_rc (a 1) = 0 -> listen_rc (a 1) = 0 -> 1 <= Z.of_nat n < 2 ^ 31 ->
    exists l, Server_Run fuel (repeat (a, [TimerFired 2]) (S n)) Server_make =
        Done (mkServerState true, l) /\
      global l = Z.of_nat n /\ timers (uv l) = {[2 := 2000]} /\
      pending_tasks_ l = Some [(1, TcpServerTask listening); (2, ticking true); (3, TcpClientTask connecting)]).
Proof.
  intros Hf; destruct fuel as [|[|[|[|k]]]]; try lia; clear Hf; unfold Server_Run, run.
  destruct (prepare 0 0) as [l0|f|w|] eqn:E; try discriminate E.
  pose proof (rounds_serve k) as Hr; split_and!.
  - intros inputs; rewrite outcome_bind_ret_l; apply outcome_bind_fuel; [|discriminate].
    destruct inputs as [|i inputs] using rev_ind; [discriminate|exact (wpo_fuel _ _ _ _ (Hr inputs i l0 E))].
  - intros inputs i srv l; rewrite outcome_bind_ret_l; intros (l' & H & [= <- <-])%outcome_bind_done.
    destruct (wpo_done _ _ _ _ _ (Hr inputs i l0 E) H) as [(q & Hq & Hs) [Hg _] Ht Hn].
    unfold queue; rewrite Hq, Hg; split_and!; auto.
  - intros a n Hb Hli Hn; rewrite outcome_bind_ret_l; destruct n as [|n]; [lia|].
    cbn [repeat rounds]; destruct (boots a k l0 Hb Hli E) as (l1 & -> & H1 & H2 & H3 & H4); rewrite outcome_bind_ret_l.
    destruct (first_tick a k l1 H1 H2 H3 H4) as (l2 & -> & Hl2); rewrite outcome_bind_ret_l.
    destruct (ticks_on a k n 1 l2 Hl2 ltac:(lia) ltac:(lia)) as (l3 & -> & Hq & Hg & Ht).
    exists l3; rewrite outcome_bind_ret_l, Hg; split_and!; auto; lia.
Qed.

(** A round in which a connection comes and the timer fires twice, one in which nothing
    happens, and one in which the client connects. *)
Definition some_rounds : list ((Z -> answers) * list event) :=
  [(ok_answers, [TimerFired 2; NewConnection 1 0 64 0; TimerFired 2]); (ok_answers, [])].

Lemma server_ticks_witness :
  (exists l, Server_Run 4 (some_rounds ++ [(ok_answers, [Connected 3 0 0])]) Server_make =
      Done (mkServerState true, l) /\ global l = 1 /\ next_task l = 4) /\
  exists l, Server_Run 4 (repeat (ok_answers, [TimerFired 2]) 8) Server_make =
      Done (mkServerState true, l) /\ global l = 7.
Proof.
  destruct (server_ticks 4 ltac:(lia)) as (_ & H1 & H2); split.
  - destruct (Server_Run 4 (some_rounds ++ _) Server_make) as [[srv l]|f|w|] eqn:E;
      try (exfalso; vm_compute in E; discriminate E).
    destruct (H1 _ _ _ _ E) as (-> & Hg & _ & Hn & _).
    change (count_fired some_rounds) with 1 in Hg; rewrite Hg in Hn; exists l; auto.
  - destruct (H2 ok_answers 7%nat eq_refl eq_refl ltac:(split; vm_compute; (discriminate || reflexivity)))
      as (l & Hr & Hg & _); exists l; split; [exact Hr|exact Hg].
Defined.

(** ** Requests and handles *)
(** C38: what libuv finds when it reads the buffer of a write request, in any run of the
    loop.  No string that is local to a function exists when libuv runs, so the answer
    of a server, which is the parameter of [SendData], is never there: reading it is a
    dangling access.  What a client sends is what it gave to [uv_write] as long as the
    client's task is pending, and a dangling access when it was destroyed, which the
    failure of its connection does.  And libuv has the request, unchanged, over all further
    rounds until it makes the callback of the write, which then frees it. *)
Theorem write_buffers (G F : Type) `{!Closures G F} id g ts k inputs (l0 l : Loop G F) :
  post_all ts (Loop_make id g) = Done l0 -> rounds k inputs l0 = Done l ->
  live_strings (locals l) = ∅ /\
  forall r q, requests (uv l) !! r = Some q ->
    match req_handle q with
    | Connection _ => deliver (WriteBuffer r) l = Undef DanglingDeref
    | Client id =>
        (exists c, (id, TcpClientTask c) ∈ queue l /\ need_send_ c = req_data q /\
          string_at (req_base q) l = Some (req_data q) /\ deliver (WriteBuffer r) l = Done l) \/
        (id ∉ map fst (queue l)) /\ deliver (WriteBuffer r) l = Undef DanglingDeref
    end /\
    forall more l', Forall (fun i => Forall (fun e => forall st, e <> Written r st) i.2) more ->
      rounds k more l = Done l' -> requests (uv l') !! r = Some q /\
      forall st, exists l2, deliver (Written r st) l' = Done l2 /\ requests (uv l2) !! r = None.
Proof.
  intros H0 H; pose proof (posted_in_order _ _ _ _ H0) as [Ho _].
  assert (Ha : accounted l0 []).
  { destruct (post_all_queue ts (Loop_make id g) [] eq_refl) as (l' & E & _ & _ & Hu).
    pose proof (post_all_locals _ _ _ H0) as Hs; rewrite E in H0; injection H0 as <-.
    split; [unfold no_live; now rewrite Hs|]; intros r q; rewrite Hu; simpl; now rewrite lookup_empty. }
  assert (Hc : counted (uv l0)).
  { destruct (post_all_queue ts (Loop_make id g) [] eq_refl) as (l' & E & _ & _ & Hu).
    rewrite E in H0; injection H0 as <-; intros r q; rewrite Hu; simpl; now rewrite lookup_empty. }
  destruct (rounds_accounted _ _ _ _ Ho Ha H) as [Ho' Ha']; split; [exact (acc_locals _ _ Ha')|].
  intros r q Hq; split; [exact (accounted_buffer l r q Ho' Ha' Hq)|]; intros more l' Hm Hl'.
  pose proof (rounds_request _ _ _ _ _ _ (rounds_counted _ _ _ _ Hc H) Hq Hm Hl') as Hq'.
  split; [exact Hq'|]; intros st; cbn [deliver]; unfold on_write, free_request; rewrite Hq', outcome_bind_ret_l.
  eexists; split; [reflexivity|]; cbn [uv set_uv requests]; apply lookup_delete_eq.
Qed.

(** A server and a client: the client connects and a request comes, the server answers,
    the client's connection breaks, and the client is destroyed. *)
Definition two_tasks : list (Task closure) := [TcpServerTask_make "127.0.0.1" 8888; client_task].

Definition two_rounds (more : list ((Z -> answers) * list event)) : list ((Z -> answers) * list event) :=
  [(ok_answers, [NewConnection 0 0 64 0; ServerRead 0 64 3 hello; Connected 1 0 0]);
   (ok_answers, []); (ok_answers, [])] ++ more.

Definition broken : list ((Z -> answers) * list event) :=
  [(ok_answers, [ClientRead 1 (-4095) []]); (ok_answers, [])].

Lemma write_buffers_witness : exists l0 l l' : Loop Z closure,
  post_all two_tasks (Loop_make "L" 0) = Done l0 /\
  rounds 4 (two_rounds []) l0 = Done l /\
  deliver (WriteBuffer 1) l = Undef DanglingDeref /\ deliver (WriteBuffer 0) l = Done l /\
  rounds 4 (two_rounds broken) l0 = Done l' /\ deliver (WriteBuffer 0) l' = Undef DanglingDeref.
Proof.
  destruct (post_all two_tasks (Loop_make "L" 0)) as [l0|f|w|] eqn:E0; try discriminate E0.
  destruct (rounds 4 (two_rounds []) l0) as [l|f|w|] eqn:E1;
    try (exfalso; injection E0 as <-; vm_compute in E1; discriminate E1).
  destruct (rounds 4 (two_rounds broken) l0) as [l'|f|w|] eqn:E2;
    try (exfalso; injection E0 as <-; vm_compute in E2; discriminate E2).
  destruct (write_buffers Z closure "L" 0 two_tasks 4 (two_rounds []) l0 l E0 E1) as [_ H1].
  destruct (write_buffers Z closure "L" 0 two_tasks 4 (two_rounds broken) l0 l' E0 E2) as [_ H2].
  assert (R : requests (uv l) !! 0 = Some (mkRequest (Client 1) "hello world" (Need_send 1)) /\
    requests (uv l) !! 1 = Some (mkRequest (Connection 64) response (Local_string 0)) /\
    requests (uv l') !! 0 = Some (mkRequest (Client 1) "hello world" (Need_send 1)) /\
    bool_decide (1 ∈ map fst (queue l)) = true /\ bool_decide (1 ∈ map fst (queue l')) = false).
  { injection E0 as <-; vm_compute in E1, E2; injection E1 as <-; injection E2 as <-.
    vm_compute; split_and!; reflexivity. }
  destruct R as (R1 & R2 & R3 & B1%bool_decide_eq_true & B2%bool_decide_eq_false).
  exists l0, l, l'; split_and!; auto; [exact (proj1 (H1 _ _ R2))| |].
  - destruct (H1 _ _ R1) as [[(c & _ & _ & _ & Hd)|[Hn _]] _]; [exact Hd|now destruct Hn].
  - destruct (H2 _ _ R3) as [[(c & Hc & _)|[_ Hd]] _]; [|exact Hd].
    destruct B2; exact (list_elem_of_fmap_2 fst _ _ Hc).
Defined.

(** C39: the server answers: when data has come on a connection whose handle is
    allocated and no connection event is waiting, [run] prints it and writes the same
    response whatever the data was; the data is handled once.  The write is refused or
    becomes a request whose buffer is the parameter of [SendData], a string that is gone
    when [run] returns. *)
Theorem server_response (G F : Type) `{!Closures G F} a s (l : Loop G F) id data h : 1 <= srv_state s ->
  new_connect_ s = None -> new_data_ s = Some (id, data) ->
  connection_handle_map_ s !! id = Some h -> h <> null_handle -> h ∈ open_handles (uv l) ->
  exists l', TcpServer_run a s l = Done (set_events None None s, l') /\
    out l' = out l ++ ["receive data on connection " +:+ pretty id +:+ " size " +:+ data; data]%string /\
    uv l' = uv_write (write_rc a) (Connection h) response (Local_string (next_string (locals l))) (uv l) /\
    live_strings (locals l') !! next_string (locals l) = None /\
    (write_rc a = 0 -> sent (uv l') = sent (uv l) ++ [(Connection h, response)] /\
      requests (uv l') !! next_request (uv l) = Some (mkRequest (Connection h) response (Local_string (next_string (locals l))))).
Proof.
  intros Hst Hc Hd Hh Hnull Hin; unfold TcpServer_run, isError, isS0.
  destruct (Z.ltb_spec (srv_state s) (-1)); [lia|]; destruct (Z.eqb_spec (srv_state s) 0); [lia|].
  rewrite Hc, Hd; unfold OnData, SendData, send_response, handle_of; rewrite Hh.
  unfold new_string; cbn [say locals]; cbv iota beta.
  destruct (Z.eqb_spec h null_handle); [contradiction|]; cbn [say set_locals uv].
  rewrite decide_True by exact Hin; rewrite !outcome_bind_ret_l, Hc.
  change (String.substring 0 (strlen response) response) with response.
  eexists; split_and!; [reflexivity..| |].
  - apply lookup_delete_eq.
  - intros Hw; cbn [set_uv set_locals uv]; unfold uv_write; rewrite Hw; cbn.
    split; [reflexivity|]; now rewrite lookup_insert_eq.
Qed.

Definition answering : Loop Z closure :=
  set_uv (alloc_handle 64 uv_default_loop) (Loop_make "L" 0).

Definition with_data : TcpServer :=
  mkServer 1 "127.0.0.1" 8888 0 {[64 := 0]} {[0 := 64]} None (Some (0, "GET")).

Lemma server_response_witness : exists l' : Loop Z closure,
  TcpServer_run (ok_answers 0) with_data answering = Done (set_events None None with_data, l') /\
  requests (uv l') !! 0 = Some (mkRequest (Connection 64) response (Local_string 0)).
Proof.
  destruct (server_response Z closure (ok_answers 0) with_data answering 0 "GET" 64 ltac:(vm_compute; discriminate)
    eq_refl eq_refl eq_refl ltac:(discriminate) ltac:(apply (bool_decide_unpack _); vm_compute; exact I))
    as (l' & Hr & _ & _ & _ & Hw).
  exists l'; split; [exact Hr|exact (proj2 (Hw eq_refl))].
Defined.

(** What a callback leaves of the client at an address. *)
Lemma find_update {G F} `{!Closures G F} id (t t' : Task F) q :
  find_task id q = Some t -> find_task id (update_task id t' q) = Some t'.
Proof.
  unfold find_task, update_task; induction q as [|[i u] q IH]; [discriminate|]; cbn [List.find map fst].
  destruct (Z.eqb_spec i id) as [->|Hne]; cbn [List.find fst]; [now rewrite Z.eqb_refl|].
  destruct (Z.eqb_spec i id); [contradiction|exact IH].
Qed.

Lemma on_client_found {G F} `{!Closures G F} id k c c' (l l' : Loop G F) : pending_tasks_ l <> None ->
  find_task id (queue l) = Some (TcpClientTask c) ->
  k c l = Done (c', l') -> pending_tasks_ l' = pending_tasks_ l ->
  exists l2, on_client id k l = Done l2 /\ uv l2 = uv l' /\
    find_task id (queue l2) = Some (TcpClientTask c').
Proof.
  unfold queue; destruct (pending_tasks_ l) as [q|] eqn:Eq; [|congruence]; simpl; intros _ Hc Hk Hl'.
  unfold on_client, on_task; rewrite Eq; cbn [deref]; rewrite outcome_bind_ret_l, Hc; cbn [deref].
  rewrite outcome_bind_ret_l, Hk, !outcome_bind_ret_l, Hl'; cbn [deref]; rewrite outcome_bind_ret_l.
  eexists; split_and!; [reflexivity..|]; exact (find_update _ _ _ _ Hc).
Qed.

(** C40: a client whose connection fails, or that is closed while it waits.  The callback
    returns and the handle is being closed; a failed connection leaves the client in
    the state it had, which [run] then keeps for ever, a broken one sets the error state,
    in which [run] does nothing and the task is destroyed.  In both cases the callback of
    the close, in that round or later, frees a handle that was never allocated. *)
Theorem client_failure (G F : Type) `{!Closures G F} id c (l : Loop G F) : pending_tasks_ l <> None ->
  find_task id (queue l) = Some (TcpClientTask c) -> Client id ∉ closing (uv l) ->
  (forall st rc, st < 0 -> exists l1, deliver (Connected id st rc) l = Done l1 /\
    find_task id (queue l1) = Some (TcpClientTask c) /\ Client id ∈ closing (uv l1) /\
    uv_run [Connected id st rc; HandleClosed (Client id)] l = Undef InvalidFree) /\
  (forall n buf, n < 0 -> cl_state c = 2 -> exists l1, deliver (ClientRead id n buf) l = Done l1 /\
    find_task id (queue l1) = Some (TcpClientTask (set_cl_state State_Error c)) /\
    Client id ∈ closing (uv l1) /\
    uv_run [ClientRead id n buf; HandleClosed (Client id)] l = Undef InvalidFree) /\
  (forall a l1, run_task a id (TcpClientTask (set_cl_state State_Error c)) l1 =
      Done (State_Error, TcpClientTask (set_cl_state State_Error c), l1) :> outcome (_ * Task F * Loop G F)) /\
  (cl_state c = 1 -> forall a (l1 : Loop G F), run_task a id (TcpClientTask c) l1 = Done (1, TcpClientTask c, l1)).
Proof.
  intros Hl Hc Hn.
  assert (Hclose : exists u, uv_close (Client id) (uv l) = Done u /\ Client id ∈ closing u).
  { unfold uv_close, assert_; rewrite bool_decide_false by exact Hn; eexists; split; [reflexivity|].
    cbn [closing]; set_solver. }
  destruct Hclose as (u & Hclose & Hu).
  split_and!.
  - intros st rc Hst; destruct (on_client_found id (on_connect id st rc) c c l
      (set_uv u l) Hl Hc) as (l1 & H1 & H2 & H3).
    { unfold on_connect; rewrite (proj2 (Z.ltb_lt _ _) Hst), Hclose; reflexivity. }
    { reflexivity. }
    exists l1; split_and!; [exact H1|exact H3|rewrite H2; exact Hu|].
    cbn [uv_run deliver]; now rewrite H1.
  - intros n buf Hn' Hs; destruct (on_client_found id (client_on_read id n buf) c
      (set_cl_state State_Error c) l (set_uv u l) Hl Hc) as (l1 & H1 & H2 & H3).
    { unfold client_on_read, isS2, assert_; rewrite Hs; cbn -[c_str]; destruct (Z.ltb_spec 0 n); [lia|].
      rewrite (proj2 (Z.ltb_lt _ _) Hn'), Hclose; reflexivity. }
    { reflexivity. }
    exists l1; split_and!; [exact H1|exact H3|rewrite H2; exact Hu|].
    cbn [uv_run deliver]; now rewrite H1.
  - reflexivity.
  - intros Hs a l1; unfold run_task, TcpClient_run; rewrite Hs; cbn; now rewrite Hs.
Qed.

Lemma client_failure_witness :
  uv_run [Connected 3 (-111) 0; HandleClosed (Client 3)] client_alone = Undef InvalidFree.
Proof.
  destruct (client_failure Z closure 3 (mkClient S0 "127.0.0.1" 8888 "hello world" "" client_callback) client_alone
    ltac:(discriminate) eq_refl ltac:(apply not_elem_of_empty)) as [H _].
  destruct (H (-111) 0 ltac:(reflexivity)) as (l1 & _ & _ & _ & E); exact E.
Defined.
